(* ===== verification/_CoqProject ===== *)
-Q . S2P
Prelude.v
StdString.v
Bencode.v
Bitfield.v
Hasher.v
Torrent.v
Tracker.v
TrackerUdp.v
Config.v
Logger.v
PieceManager.v
Disk.v
PiecePicker.v
PeerMessage.v
Socket.v
EventLoop.v
Timers.v
Latency.v
World.v
PeerConnection.v
Coordinator.v
Keeps.v
System.v
Handlers.v
Steps.v
Termination.v
Safe.v
Progress.v
Swarm.v
Failures.v
Wiring.v
Handled.v
Sample.v
Persist.v
Program.v
Main.v
Run.v
Liveness.v
Connecting.v
Joining.v
Churn.v
Download.v
Completion.v
