(* ===== verification/Prelude.v ===== *)
(** * Concurrent P2P distributed transfer engine: verification library

    A BitTorrent download engine in C++ ([src/code]): one thread runs an [epoll] loop,
    the peers' connections are state machines its events drive, and what they receive
    goes to a coordinator that asks for blocks, assembles pieces, checks their SHA-1
    digests and writes them to disk. This library is a shallow embedding of that code,
    function by function, with the theorems that make it correct and those that show
    where it is not.

    ** Conventions

    A function that can throw or has undefined behaviour returns an [outcome]: [Ok],
    [Throw], [UB] with what went wrong, or [Fuel]. Functions that also change shared
    state are in the monads [M] (World.v), [IO] (Disk.v) or [Sys] (Socket.v), or pass
    the state explicitly. Integers are [Z] with the wrap-around of their type written
    out ([u8] to [u64], [i32], [i64_add] and the like, which are undefined on
    overflow); a [std::vector] or [std::span] is a list whose accesses out of range
    are [UB]; maps are [gmap]s, and where the order of iteration matters and the
    standard leaves it open ([std::unordered_map]) it is the interface [MapOrder].

    ** The parts, from the bottom up

    - Prelude.v: outcomes, machine integers, bytes, lists indexed by [Z], the tactics
      [inv_ok], [case_ifs] and [in_i64], and the hint databases.
    - StdString.v: [std::to_string], [std::stoi], the order of [std::string_view].
    - Bencode.v (bencode.cpp): [parse], [encode], the variant and its accessors.
    - Bitfield.v (bitfield.cpp): the class, refining sets of piece indices.
    - Hasher.v (hasher.cpp): [SHA1Hasher] over the interface [CryptoSHA1].
    - Torrent.v (torrent.cpp): [from_bencode] and the layout of its files and pieces.
    - Tracker.v, TrackerUdp.v (tracker_client.cpp): HTTP and UDP announces, the parser
      of responses, the announce list; the second file holds the proofs about UDP.
    - Config.v (config.cpp): the command line; Logger.v (logger.cpp): the logger it sets up.
    - PieceManager.v (piece_manager.cpp): blocks, buffers, completion, validation.
    - Disk.v (disk_io.cpp): preallocation, writing, reading and checking pieces.
    - PiecePicker.v (piece_picker.cpp): rarest-first choice; Module [Atomics] has the
      lock-free updates of the histogram as steps that interleave.
    - PeerMessage.v (peer_message.cpp): the handshake and the eleven messages.
    - Socket.v (tcp_connection.cpp): who owns which descriptor.
    - EventLoop.v, Timers.v, Latency.v (event_loop.cpp): the descriptors; the timers and
      [run]; the percentiles of the dispatch latencies.
    - World.v: the objects [main] wires together, as one record, and the monad [M].
    - PeerConnection.v (peer_connection.cpp): the connection state machine, against the
      interfaces [DisconnectHandler] and [MessageHandler] of its callbacks.
    - Coordinator.v (download_coordinator.cpp, peer_manager.cpp): requests, pieces,
      the table of connections and the callbacks, which are instances of those
      interfaces. References into [peers_] are modelled: using one after its element
      was erased is [UB].
    - Main.v (main.cpp, peer_id.cpp): the start of [main], its two timers, the calls of
      the loop; Run.v: a whole run, from the arguments to the exit code.

    The proofs about the running program are in files of their own. Keeps.v has what
    they share, the relations handlers preserve. System.v defines the events of the loop, the worlds they reach and the invariant; Handlers.v and
    Steps.v prove that every handler and every event keep it; Termination.v that no loop
    spins and nothing is thrown while an event is handled; Failures.v follows
    disconnections and pieces that fail their check; Wiring.v the connections, their
    descriptors and their slots over all events; Handled.v shows which messages end in
    undefined behaviour, and that every other event is handled; Sample.v is a
    small torrent and a download of it, used by the witnesses; Persist.v joins the
    world to the disk; Program.v states the theorems.

    That a download gets anywhere is proved in a second group of files. Safe.v is a
    logic for what a computation of [M] ends in, with what sending leaves alone;
    Progress.v has the blocks that are missing, and what an answer makes of them;
    Swarm.v the handling of one answer among peers that keep the protocol; Liveness.v
    the streams of bytes those peers send; Connecting.v the attempts at connecting;
    Joining.v the messages of a new peer, up to its unchoke; Churn.v peers that choke us
    or leave, and the events among cooperating peers ([served]); Download.v follows a
    download to its end and to the files; Completion.v the whole program, until it
    returns with the torrent on disk.

    How the parts interact: an event of a descriptor is [run_event]; it runs
    [handle_events] of the connection, whose messages go to [handle_peer_message] of
    the coordinator, which calls the piece manager and the picker, sends to peers, and
    records completed pieces, which [main_event] writes to disk. In a whole run
    ([Run.main]) [run_loop] fires the timers and dispatches those events. A peer that
    sends a bad piece is reported to the peer manager, which disconnects it, which calls back
    the coordinator.

    ** What is shown

    - Data on disk: [Run.run_verified] (what a run leaves, and why it ended) and
      [Persist.running_pieces_verify] (all along), over
      [Program.completed_pieces_verified] (only data with the listed digest is ever
      completed), [PieceManager.reassembly] (blocks in any order give the content),
      [Disk.disk_refines_pieces] (files are one array of bytes) and
      [PieceManager.pieces_and_blocks_tile].
    - The formats: [Bencode.parse_accepts_canonical] and [parse_total],
      [Torrent.from_bencode_fields], [from_bencode_layout] and
      [from_bencode_outcomes], [PeerMessage.message_roundtrip], [deserialize_spec] and
      [handshake_roundtrip], [Bitfield.bitfield_wire], [PeerMessage.wire_inj], the queries
      and responses of trackers in Tracker.v, [Config.parse_arguments_spec].
    - Invariants of the running program: [Program.requests_exclusive],
      [availability_counts_registered], [connections_bounded], and of the parts,
      [PieceManager.pm_invariant] and [Socket.TcpConnection.descriptors_owned].
    - Choice and counting: [PiecePicker.pick_piece_spec],
      [availability_counts_peers], [Atomics.histogram_linearizable],
      [Bitfield.bitfield_refines_set].
    - The download as a whole: [Completion.main_downloads], from the arguments of [main]
      to its return with the torrent in the files; [Download.whole_download], from the
      first connection to the files; [download_completes], the progress of a download at
      any moment of it. Peers connect, join, choke us and leave; what the three take is
      [steady]: no [send] fails, and what comes back is the content of the torrent.
      Some answer is asked for as long as blocks are missing when the download stays
      [fed]: a peer that has every piece lets us ask, and when another one's blocks are given
      back it is asked for something. [withdrawal_stalls] shows that this matters: the
      blocks of a peer that chokes us or leaves are offered to nobody else.
    - Termination and time: [Program.events_handled] (no loop spins, and undefined
      behaviour has one of the causes listed below), [Timers.timers_fire_in_order],
      [TrackerUdp.udp_tracker_heard] and [udp_resources],
      [Main.completion_reported] and [interrupt_stops]; [Main.main_start_uncaught]: which
      exceptions leave [main].
    - Where the code goes wrong: [Program.failed_piece_use_after_erase],
      [failed_send_use_after_erase], [disconnect_slots], [unknown_piece_message],
      [PeerMessage.length_prefix_wraps], [PieceManager.oversized_block_wedges],
      [Torrent.zero_piece_length_divides], [Disk.failed_write_ignored],
      [torrent_path_escapes], [Tracker.parse_response_outcomes], [Download.withdrawal_stalls],
      the least integer in
      [Bencode.parse_int_least], the empty torrent in [Main.completion_reported].

    ** Bounds

    Loops the source ends by a condition have fuel. [Bencode.parse] takes three calls
    per byte of its input and one more; [parse_total] shows it enough. [fill_loop] takes
    12 rounds: each asks for one of five blocks, or gives up a piece so that the next
    asks or stops. [process_loop] takes one round more than the receive buffer has
    bytes, and each takes one off; [events_handled] shows both enough. [blocks_loop] takes
    the number of blocks plus one, [compact_loop] the bytes it reads plus one. The UDP
    loops make their three attempts. The timer phase and [run_loop] take their fuel as an argument: [timers_fire_in_order]
    shows that some is enough when a callback registers boundedly many timers and
    finishes before they are due. In [main_downloads] 80 is enough: the two timers of [main]
    come due ten times and once a second, and the clock is [timely], read at
    least eleven times a second in the long run. [interrupt_stops] takes one more than
    there are timers due.

    ** What is left to parameters

    Crypto++, libcurl, [std::mt19937], the iteration order of hash maps, the order of
    equal timers, the file system's names, the resolver, and every answer of the
    kernel: each is an interface or an argument, with the documented behaviour the
    theorems use as named hypotheses.

    ** Not modelled

    - Output: what is logged, [print_help] and the welcome, the progress bar's
      text but for the estimated time, the report of main after the loop, which always
      returns 0. Sums of [double]s: of the percentage only the undefined conversion of a
      NaN is kept, of the latencies not their average.
    - In the theorems about progress only: failing [send]s, blocks with other bytes than
      the content, and bitfields, chokes and unchokes cut across events or in one event
      with other messages. The other theorems cover them.
    - Destructors and the lifetimes of [std::shared_ptr]s, except for descriptors
      (Socket.v), the tracker's socket (Tracker.v) and entries of [peers_].
    - Failing allocations, and the depth of the parser's recursion.
    - The concurrency of the program is that of the picker's atomics: everything else
      runs on the loop's thread. *)

From Stdlib Require Export ZArith Lia.
From Stdlib Require Export Strings.Byte.
From Stdlib Require Import Strings.String.
From stdpp Require Export base option list list_numbers sorting gmap strings.
#[global] Set Default Goal Selector "!".

Declare Scope p2p_scope.
Delimit Scope p2p_scope with p2p.
Open Scope p2p_scope.
Open Scope Z_scope.

Create HintDb p2p.
Create Rewrite HintDb p2p.

(** ** Outcomes of C++ code *)

(** The exceptions the sources throw, by their class and their message, and those of a
    class that a library derives from [std::exception]. *)
Inductive exn :=
| runtime_error (msg : string)
| out_of_range (msg : string)
| invalid_argument (msg : string)
| library_exception (msg : string).

(** The outcome of running a piece of C++: a value, an exception, undefined
    behaviour (with what went wrong), or [Fuel] when a bounded model of a loop ran
    out of its bound, which the termination theorems exclude. *)
Inductive outcome (A : Type) :=
| Ok (a : A)
| Throw (e : exn)
| UB (what : string)
| Fuel.
Arguments Ok {A} a.
Arguments Throw {A} e.
Arguments UB {A} what.
Arguments Fuel {A}.

#[export] Instance outcome_ret : MRet outcome := λ A a, Ok a.
#[export] Instance outcome_bind : MBind outcome := λ A B f m,
  match m with
  | Ok a => f a
  | Throw e => Throw e
  | UB w => UB w
  | Fuel => Fuel
  end.

#[export] Instance exn_eq_dec : EqDecision exn.
Proof. solve_decision. Defined.

(** A call that throws what its environment says, if anything. *)
Definition may_throw (e : option exn) : outcome () := match e with Some e => Throw e | None => Ok () end.

Definition is_ok {A} (m : outcome A) : bool := match m with Ok _ => true | _ => false end.

(** The outcome is one a C++ run can have without undefined behaviour: a value or
    an exception. *)
Definition defined {A} (m : outcome A) : Prop :=
  match m with Ok _ | Throw _ => True | _ => False end.

(** Undefined behaviour, if reached, is one of those [W] describes; fuel is enough. *)
Definition only_ub {A} (W : string → Prop) (m : outcome A) : Prop :=
  match m with Ok _ | Throw _ => True | UB w => W w | Fuel => False end.

Section Outcome.
Context {A B : Type}.
Implicit Types (m : outcome A) (f : A → outcome B).

Lemma bind_ok m f b : m ≫= f = Ok b ↔ ∃ a, m = Ok a ∧ f a = Ok b.
Proof. destruct m; naive_solver. Qed.

Lemma bind_fuel m f : m ≫= f = Fuel ↔ m = Fuel ∨ ∃ a, m = Ok a ∧ f a = Fuel.
Proof. destruct m; naive_solver. Qed.

Lemma bind_ub m f w : m ≫= f = UB w ↔ m = UB w ∨ ∃ a, m = Ok a ∧ f a = UB w.
Proof. destruct m; naive_solver. Qed.

Lemma defined_bind m f :
  defined m → (∀ a, m = Ok a → defined (f a)) → defined (m ≫= f).
Proof. destruct m; naive_solver. Qed.

Lemma only_ub_bind W m f :
  only_ub W m → (∀ a, m = Ok a → only_ub W (f a)) → only_ub W (m ≫= f).
Proof. destruct m; naive_solver. Qed.

Lemma defined_only_ub W m : defined m → only_ub W m.
Proof. by destruct m. Qed.
End Outcome.
#[export] Hint Resolve defined_bind : p2p.

(** [inv_ok H] takes apart [H : (x ← m; k x) = Ok b] into the values the steps
    returned. *)
Ltac inv_ok H :=
  lazymatch type of H with
  | (_ ≫= _) = Ok _ =>
      let x := fresh "x" in let H1 := fresh H in
      apply bind_ok in H as (x & H1 & H)
  end.

(** [case_ifs] splits on the boolean conditions and decisions of the goal;
    [case_ifs_in H] on those of [H]. *)
Ltac case_ifs :=
  repeat match goal with
  | |- context [if ?b then _ else _] => let E := fresh "E" in destruct b eqn:E
  end.
Ltac case_ifs_in H :=
  repeat match type of H with
  | context [if ?b then _ else _] =>
      let E := fresh "E" in destruct b eqn:E; try discriminate H
  end.

(** [guard_in H as E] splits on the condition [H : (if b then _ else _) = _] starts
    with and drops the branch that cannot return. *)
Tactic Notation "guard_in" hyp(H) "as" ident(E) :=
  match type of H with
  | (if ?b then _ else _) = _ => destruct b eqn:E; try discriminate H
  end.

(** ** Machine integers *)

(** Conversion to an unsigned [w]-bit type, and to a signed one. *)
Definition wrap (w z : Z) : Z := z mod 2 ^ w.
Definition swrap (w z : Z) : Z := (z + 2 ^ (w - 1)) mod 2 ^ w - 2 ^ (w - 1).

Abbreviation u16 := (wrap 16).
Abbreviation u32 := (wrap 32).
Abbreviation u64 := (wrap 64).
Abbreviation i32 := (swrap 32).

Definition int64_max : Z := 2 ^ 63 - 1.
Definition int64_min : Z := - 2 ^ 63.
Definition size_max : Z := 2 ^ 64 - 1.

Definition is_u16 (z : Z) : Prop := 0 ≤ z < 2 ^ 16.
Definition is_u32 (z : Z) : Prop := 0 ≤ z < 2 ^ 32.
Definition is_u64 (z : Z) : Prop := 0 ≤ z < 2 ^ 64.
Definition is_i64 (z : Z) : Prop := int64_min ≤ z ≤ int64_max.

(** A bound on an [int64_t]. *)
Ltac in_i64 := unfold is_i64, int64_min, int64_max; lia.

Lemma wrap_small w z : 0 ≤ z < 2 ^ w → wrap w z = z.
Proof. apply Z.mod_small. Qed.

Lemma wrap_range w z : 0 ≤ w → 0 ≤ wrap w z < 2 ^ w.
Proof. intros. apply Z.mod_pos_bound. lia. Qed.

Lemma swrap_small w z : 0 < w → - 2 ^ (w - 1) ≤ z < 2 ^ (w - 1) → swrap w z = z.
Proof.
  intros Hw Hz. unfold swrap. rewrite Z.mod_small; [lia|].
  replace (2 ^ w) with (2 * 2 ^ (w - 1)); [lia|].
  rewrite <- Z.pow_succ_r by lia. f_equal. lia.
Qed.

#[export] Hint Rewrite wrap_small swrap_small using lia : p2p.

(** Signed arithmetic overflows are undefined behaviour. *)
Definition i64 (z : Z) : outcome Z :=
  if (int64_min <=? z) && (z <=? int64_max) then Ok z else UB "signed integer overflow".

Definition i64_add (a b : Z) : outcome Z := i64 (a + b).
Definition i64_sub (a b : Z) : outcome Z := i64 (a - b).
Definition i64_mul (a b : Z) : outcome Z := i64 (a * b).

(** Division truncates towards zero; a zero divisor is undefined. *)
Definition i64_div (a b : Z) : outcome Z :=
  if b =? 0 then UB "integer division by zero" else i64 (Z.quot a b).

(** [int] arithmetic. *)
Definition int_max : Z := 2 ^ 31 - 1.
Definition int32 (z : Z) : outcome Z :=
  if (- 2 ^ 31 <=? z) && (z <=? int_max) then Ok z else UB "signed integer overflow".

Lemma int32_in z : - 2 ^ 31 ≤ z ≤ int_max → int32 z = Ok z.
Proof. unfold int32. case_ifs; [done|lia]. Qed.

Lemma i64_ok z r : i64 z = Ok r ↔ r = z ∧ is_i64 z.
Proof. unfold i64, is_i64. case_ifs; naive_solver lia. Qed.

Lemma i64_in z : is_i64 z → i64 z = Ok z.
Proof. intros. by apply i64_ok. Qed.

(** ** Bytes *)

#[export] Instance byte_eq_dec : EqDecision byte := Byte.byte_eq_dec.

Definition beq (a b : byte) : bool := bool_decide (a = b).
Lemma beq_true a b : beq a b = true ↔ a = b.
Proof. apply bool_decide_eq_true. Qed.
Lemma beq_false a b : beq a b = false ↔ a ≠ b.
Proof. apply bool_decide_eq_false. Qed.
Lemma beq_refl a : beq a a = true.
Proof. by apply beq_true. Qed.
#[export] Hint Rewrite beq_refl : p2p.

(** The value of a byte, and the conversion [static_cast<uint8_t>]. *)
Definition b2z (b : byte) : Z := Z.of_N (Byte.to_N b).
Definition z2b (z : Z) : byte := default x00 (Byte.of_N (Z.to_N (z mod 256))).

Lemma b2z_range b : 0 ≤ b2z b < 256.
Proof. unfold b2z. pose proof (Byte.to_N_bounded b). lia. Qed.

Lemma z2b_b2z b : z2b (b2z b) = b.
Proof.
  unfold z2b. rewrite Z.mod_small by apply b2z_range.
  unfold b2z. by rewrite N2Z.id, Byte.of_to_N.
Qed.

Lemma b2z_z2b z : b2z (z2b z) = z mod 256.
Proof.
  unfold z2b. pose proof (Z.mod_pos_bound z 256 ltac:(lia)) as Hz.
  destruct (Byte.of_N _) as [b|] eqn:E; simpl.
  - apply Byte.to_of_N in E. unfold b2z. rewrite E. lia.
  - apply Byte.of_N_None_iff in E. lia.
Qed.

Lemma b2z_inj a b : b2z a = b2z b → a = b.
Proof. intros E. by rewrite <- (z2b_b2z a), E, z2b_b2z. Qed.

Lemma z2b_inj a b : 0 ≤ a < 256 → 0 ≤ b < 256 → z2b a = z2b b → a = b.
Proof.
  intros Ha Hb E. apply (f_equal b2z) in E. rewrite !b2z_z2b in E.
  by rewrite !Z.mod_small in E by lia.
Qed.

#[export] Hint Rewrite z2b_b2z b2z_z2b : p2p.
#[export] Hint Resolve b2z_range wrap_range : p2p.

(** A string literal as its bytes. *)
Definition bs (s : string) : list byte := String.list_byte_of_string s.

(** ** Lists indexed by machine integers *)

Definition zlen {A} (l : list A) : Z := Z.of_nat (length l).

Lemma zlen_nonneg {A} (l : list A) : 0 ≤ zlen l.
Proof. unfold zlen. lia. Qed.
Lemma zlen_app {A} (l k : list A) : zlen (l ++ k) = zlen l + zlen k.
Proof. unfold zlen. rewrite length_app. lia. Qed.
Lemma zlen_cons {A} (x : A) l : zlen (x :: l) = zlen l + 1.
Proof. unfold zlen. simpl. lia. Qed.
#[export] Hint Rewrite @zlen_app @zlen_cons : p2p.
#[export] Hint Resolve zlen_nonneg : p2p.

#[export] Instance zlen_proper {A} : Proper ((≡ₚ) ==> (=)) (@zlen A).
Proof. intros l k Hlk. unfold zlen. by rewrite Hlk. Qed.

(** [ztake]/[zdrop] are [span::first]/[span::subspan] with a [size_t] count. *)
Definition ztake {A} (n : Z) (l : list A) : list A := take (Z.to_nat n) l.
Definition zdrop {A} (n : Z) (l : list A) : list A := drop (Z.to_nat n) l.

(** [l[i]] for a vector: [None] out of range. *)
Definition znth {A} (l : list A) (i : Z) : option A :=
  if i <? 0 then None else l !! Z.to_nat i.

Lemma znth_Some {A} (l : list A) i x : znth l i = Some x → 0 ≤ i < zlen l.
Proof.
  unfold znth, zlen. intros H. case_ifs_in H. apply lookup_lt_Some in H. lia.
Qed.

Lemma znth_is_Some {A} (l : list A) i : 0 ≤ i < zlen l → ∃ x, znth l i = Some x.
Proof.
  unfold znth, zlen. intros H. rewrite (proj2 (Z.ltb_ge _ _)) by lia.
  apply lookup_lt_is_Some. lia.
Qed.

Lemma zlen_ztake {A} (l : list A) n : 0 ≤ n ≤ zlen l → zlen (ztake n l) = n.
Proof. unfold zlen, ztake. rewrite length_take. lia. Qed.
Lemma zlen_zdrop {A} (l : list A) n : 0 ≤ n ≤ zlen l → zlen (zdrop n l) = zlen l - n.
Proof. unfold zlen, zdrop. rewrite length_drop. lia. Qed.
Lemma ztake_zdrop {A} (l : list A) n : ztake n l ++ zdrop n l = l.
Proof. apply take_drop. Qed.
Lemma zlen_replicate {A} (x : A) n : 0 ≤ n → zlen (replicate (Z.to_nat n) x) = n.
Proof. intros. unfold zlen. rewrite length_replicate. lia. Qed.

Lemma ztake_app {A} (l k : list A) : ztake (zlen l) (l ++ k) = l.
Proof. unfold ztake, zlen. rewrite Nat2Z.id. apply take_app_length. Qed.
Lemma zdrop_app {A} (l k : list A) : zdrop (zlen l) (l ++ k) = k.
Proof. unfold zdrop, zlen. rewrite Nat2Z.id. apply drop_app_length. Qed.

(** [std::copy(src.begin(), src.end(), dst.begin() + at)] for a range inside [dst]. *)
Definition splice {A} (pos : Z) (src dst : list A) : list A :=
  ztake pos dst ++ src ++ zdrop (pos + zlen src) dst.

(** [v.resize(n, x)]. *)
Definition resize {A} (n : Z) (x : A) (l : list A) : list A :=
  ztake n l ++ replicate (Z.to_nat (n - zlen l)) x.

(** [l[i] = x] for an index in range; the callers keep it there. *)
Definition zupd {A} (i : Z) (x : A) (l : list A) : list A :=
  if i <? 0 then l else <[Z.to_nat i := x]> l.

Lemma zlen_zupd {A} i (x : A) l : zlen (zupd i x l) = zlen l.
Proof. unfold zlen, zupd. case_ifs; [done|]. by rewrite length_insert. Qed.

Lemma znth_zupd {A} i j (x : A) l :
  0 ≤ i < zlen l → znth (zupd i x l) j = if decide (i = j) then Some x else znth l j.
Proof.
  unfold znth, zupd, zlen. intros Hi. rewrite (proj2 (Z.ltb_ge i 0)) by lia.
  case_decide as E.
  - subst. rewrite (proj2 (Z.ltb_ge j 0)) by lia. apply list_lookup_insert_eq. lia.
  - case_ifs; [done|]. apply list_lookup_insert_ne. lia.
Qed.

Lemma znth_ext {A} (l k : list A) :
  zlen l = zlen k → (∀ i, 0 ≤ i < zlen l → znth l i = znth k i) → l = k.
Proof.
  unfold zlen, znth. intros Hlen H. apply list_eq. intros i.
  destruct (decide (i < length l)%nat) as [Hi|Hi].
  - specialize (H (Z.of_nat i) ltac:(lia)).
    by rewrite (proj2 (Z.ltb_ge _ _)), Nat2Z.id in H by lia.
  - by rewrite !lookup_ge_None_2 by lia.
Qed.

Lemma znth_app {A} (l k : list A) i :
  znth (l ++ k) i = if i <? zlen l then znth l i else znth k (i - zlen l).
Proof.
  unfold znth, zlen. destruct (Z.ltb_spec i 0).
  { rewrite (proj2 (Z.ltb_lt _ _)) by lia. done. }
  destruct (Z.ltb_spec i (Z.of_nat (length l))).
  - rewrite lookup_app_l by lia. done.
  - rewrite (proj2 (Z.ltb_ge _ _)) by lia. rewrite lookup_app_r by lia. f_equal. lia.
Qed.

Lemma znth_ztake {A} (l : list A) n i :
  znth (ztake n l) i = if i <? n then znth l i else None.
Proof.
  unfold znth, ztake. destruct (Z.ltb_spec i 0); [by case_ifs|].
  destruct (Z.ltb_spec i n); [rewrite lookup_take_lt by lia|rewrite lookup_take_ge by lia]; done.
Qed.

Lemma znth_zdrop {A} (l : list A) n i :
  0 ≤ n → 0 ≤ i → znth (zdrop n l) i = znth l (n + i).
Proof.
  intros. unfold znth, zdrop. rewrite !(proj2 (Z.ltb_ge _ _)) by lia.
  rewrite lookup_drop. f_equal. lia.
Qed.

Lemma znth_replicate {A} (x : A) n i :
  znth (replicate (Z.to_nat n) x) i = if (0 <=? i) && (i <? n) then Some x else None.
Proof.
  unfold znth. destruct (Z.ltb_spec i 0); [rewrite (proj2 (Z.leb_gt _ _)) by lia; done|].
  rewrite (proj2 (Z.leb_le _ _)) by lia. simpl. case_ifs.
  - apply lookup_replicate_2. lia.
  - apply lookup_replicate_None. lia.
Qed.

Lemma zlen_splice {A} pos (src dst : list A) :
  0 ≤ pos → pos + zlen src ≤ zlen dst → zlen (splice pos src dst) = zlen dst.
Proof.
  intros. pose proof (zlen_nonneg src). unfold splice.
  rewrite !zlen_app, zlen_ztake, zlen_zdrop by lia. lia.
Qed.

Lemma znth_splice {A} pos (src dst : list A) i :
  0 ≤ pos → pos + zlen src ≤ zlen dst →
  znth (splice pos src dst) i =
  if (pos <=? i) && (i <? pos + zlen src) then znth src (i - pos) else znth dst i.
Proof.
  intros Hp Hl. pose proof (zlen_nonneg src). unfold splice.
  rewrite znth_app, zlen_ztake, znth_ztake, znth_app by lia.
  destruct (Z.ltb_spec i pos), (Z.leb_spec pos i); try lia; simpl; [done|].
  destruct (Z.ltb_spec (i - pos) (zlen src)), (Z.ltb_spec i (pos + zlen src)); try lia; [done|].
  rewrite znth_zdrop by lia. f_equal. lia.
Qed.

(** The [n] elements from [pos] on. *)
Definition slice {A} (pos n : Z) (l : list A) : list A := ztake n (zdrop pos l).

Lemma znth_slice {A} pos n (l : list A) i :
  0 ≤ pos → 0 ≤ i < n → znth (slice pos n l) i = znth l (pos + i).
Proof.
  intros. unfold slice. rewrite znth_ztake, (proj2 (Z.ltb_lt _ _)) by lia. apply znth_zdrop; lia.
Qed.
Lemma zlen_slice {A} pos n (l : list A) :
  0 ≤ pos → 0 ≤ n → pos + n ≤ zlen l → zlen (slice pos n l) = n.
Proof. intros. unfold slice. rewrite zlen_ztake; [done|]. rewrite zlen_zdrop; lia. Qed.

(** ** The bits of a byte *)

Definition band (a b : byte) : byte := z2b (Z.land (b2z a) (b2z b)).
Definition bor (a b : byte) : byte := z2b (Z.lor (b2z a) (b2z b)).

Lemma testbit_z2b z k : 0 ≤ k < 8 → Z.testbit (b2z (z2b z)) k = Z.testbit z k.
Proof.
  intros. rewrite b2z_z2b. change 256 with (2 ^ 8). apply Z.mod_pow2_bits_low. lia.
Qed.

Lemma byte_ext a b :
  (∀ k, 0 ≤ k < 8 → Z.testbit (b2z a) k = Z.testbit (b2z b) k) → a = b.
Proof.
  intros H. apply b2z_inj. apply Z.bits_inj'. intros k Hk.
  destruct (decide (k < 8)); [apply H; lia|].
  pose proof (b2z_range a). pose proof (b2z_range b).
  rewrite <- (Z.mod_small (b2z a) (2 ^ 8)), <- (Z.mod_small (b2z b) (2 ^ 8)) by lia.
  by rewrite !Z.mod_pow2_bits_high by lia.
Qed.

Lemma testbit_band a b k :
  0 ≤ k < 8 → Z.testbit (b2z (band a b)) k = Z.testbit (b2z a) k && Z.testbit (b2z b) k.
Proof. intros. unfold band. by rewrite testbit_z2b, Z.land_spec. Qed.
Lemma testbit_bor a b k :
  0 ≤ k < 8 → Z.testbit (b2z (bor a b)) k = Z.testbit (b2z a) k || Z.testbit (b2z b) k.
Proof. intros. unfold bor. by rewrite testbit_z2b, Z.lor_spec. Qed.

(** [1 << k] and its complement as bytes. *)
Lemma testbit_shiftl1 k j : 0 ≤ k → 0 ≤ j → Z.testbit (Z.shiftl 1 k) j = (j =? k).
Proof.
  intros. rewrite Z.shiftl_1_l, Z.pow2_bits_eqb by lia. apply Z.eqb_sym.
Qed.

(** [(x & (1 << k)) != 0] tests bit [k]. *)
Lemma land_bit x k : 0 ≤ k → negb (Z.land x (Z.shiftl 1 k) =? 0) = Z.testbit x k.
Proof.
  intros Hk. apply eq_true_iff_eq. rewrite negb_true_iff, Z.eqb_neq. split.
  - intros Hne. destruct (Z.testbit x k) eqn:E; [done|]. exfalso. apply Hne.
    apply Z.bits_inj'. intros j Hj. rewrite Z.land_spec, testbit_shiftl1, Z.bits_0 by done.
    destruct (Z.eqb_spec j k) as [->|]; [by rewrite E|]. apply andb_false_r.
  - intros E H0. apply (f_equal (λ z, Z.testbit z k)) in H0.
    rewrite Z.land_spec, testbit_shiftl1, Z.bits_0, E, Z.eqb_refl in H0 by done. done.
Qed.

(** ** Filtering *)

Lemma filter_ext {A} (P Q : A → Prop) `{!∀ x, Decision (P x), !∀ x, Decision (Q x)} (l : list A) :
  (∀ x, x ∈ l → P x ↔ Q x) → filter P l = filter Q l.
Proof.
  induction l as [|x l IH]; intros HPQ; [done|]. rewrite !filter_cons.
  rewrite (decide_ext (P x) (Q x)) by (apply HPQ; constructor).
  rewrite IH; [done|]. intros y Hy. apply HPQ. by constructor.
Qed.

Lemma list_filter_fmap {A B} (f : A → B) (P : B → Prop) `{!∀ x, Decision (P x)} (l : list A) :
  filter P (f <$> l) = f <$> filter (λ x, P (f x)) l.
Proof.
  induction l as [|x l IH]; [done|]. rewrite fmap_cons, !filter_cons.
  by case_decide; rewrite ?fmap_cons, IH.
Qed.

Lemma ztake_all {A} (l : list A) n : zlen l ≤ n → ztake n l = l.
Proof. unfold ztake, zlen. intros. apply take_ge. lia. Qed.

Lemma slice_app {A} (pre src post : list A) :
  slice (zlen pre) (zlen src) (pre ++ src ++ post) = src.
Proof. unfold slice. by rewrite zdrop_app, ztake_app. Qed.

(** A list is cut in three by a position and a length inside it. *)
Lemma slice_split {A} pos n (l : list A) :
  0 ≤ pos → 0 ≤ n → pos + n ≤ zlen l →
  l = ztake pos l ++ slice pos n l ++ zdrop (pos + n) l.
Proof.
  intros. unfold slice. rewrite <- (ztake_zdrop l pos) at 1. f_equal.
  rewrite <- (ztake_zdrop (zdrop pos l) n) at 1. f_equal. unfold zdrop. rewrite drop_drop. f_equal. lia.
Qed.

(** Adjacent slices. *)
Lemma slice_adjacent {A} pos n k (l : list A) :
  0 ≤ pos → 0 ≤ n → 0 ≤ k → slice pos n l ++ slice (pos + n) k l = slice pos (n + k) l.
Proof.
  intros. unfold slice, ztake, zdrop. rewrite Z2Nat.inj_add, <- drop_drop by lia.
  rewrite Z2Nat.inj_add by lia. generalize (drop (Z.to_nat pos) l). intros k'.
  by rewrite take_take_drop.
Qed.

(** ** Buffers *)

(** [memcpy] of [src] into [dst] at [pos], and of [n] bytes of [src] from [pos]: past
    the end of the buffer is undefined. *)
Definition copy_at (dst : list byte) (pos : Z) (src : list byte) : outcome (list byte) :=
  if pos + zlen src <=? zlen dst then Ok (splice pos src dst)
  else UB "write past the end of a buffer".

Definition read_at (src : list byte) (pos n : Z) : outcome (list byte) :=
  if pos + n <=? zlen src then Ok (slice pos n src) else UB "read past the end of a buffer".

Lemma read_at_app pre src post :
  read_at (pre ++ src ++ post) (zlen pre) (zlen src) = Ok src.
Proof.
  unfold read_at. pose proof (zlen_nonneg post).
  rewrite (proj2 (Z.leb_le _ _)) by (rewrite !zlen_app; lia). by rewrite slice_app.
Qed.

Lemma read_at_ok src pos n x : read_at src pos n = Ok x ↔ x = slice pos n src ∧ pos + n ≤ zlen src.
Proof. unfold read_at. case_ifs; [apply Z.leb_le in E|apply Z.leb_gt in E]; naive_solver lia. Qed.

(** A buffer of zeros filled from the front. *)
Definition zeros (n : Z) : list byte := replicate (Z.to_nat n) x00.

Lemma copy_at_fill pre src n :
  zlen src ≤ n →
  copy_at (pre ++ zeros n) (zlen pre) src = Ok ((pre ++ src) ++ zeros (n - zlen src)).
Proof.
  intros Hn. pose proof (zlen_nonneg src). unfold copy_at, zeros.
  rewrite (proj2 (Z.leb_le _ _)) by (rewrite zlen_app, zlen_replicate; lia).
  unfold splice. rewrite ztake_app, <- app_assoc. do 3 f_equal.
  unfold zdrop. rewrite drop_app_ge by (unfold zlen; lia).
  rewrite drop_replicate. f_equal. unfold zlen in *. lia.
Qed.

(** ** Big-endian integers of [n] bytes *)

Fixpoint be_bytes (n : nat) (v : Z) : list byte :=
  match n with O => [] | S k => be_bytes k (v / 256) ++ [z2b v] end.

Definition be_value (l : list byte) : Z := foldl (λ v b, v * 256 + b2z b) 0 l.

Lemma zlen_be_bytes n v : zlen (be_bytes n v) = Z.of_nat n.
Proof. revert v. induction n as [|n IH]; intros v; [done|]. cbn [be_bytes]. rewrite zlen_app, IH. unfold zlen. simpl. lia. Qed.

Lemma be_value_snoc l b : be_value (l ++ [b]) = be_value l * 256 + b2z b.
Proof. unfold be_value. by rewrite foldl_app. Qed.

Lemma be_value_range l : 0 ≤ be_value l < 256 ^ zlen l.
Proof.
  induction l as [|b l IH] using rev_ind; [done|]. rewrite be_value_snoc, zlen_app.
  change (zlen [b]) with 1. pose proof (zlen_nonneg l). rewrite Z.pow_add_r by lia.
  pose proof (b2z_range b). lia.
Qed.

Lemma be_value_bytes n v : 0 ≤ v < 256 ^ Z.of_nat n → be_value (be_bytes n v) = v.
Proof.
  revert v. induction n as [|n IH]; intros v Hv; cbn [be_bytes]; [unfold be_value; simpl in *; lia|].
  rewrite be_value_snoc, IH, b2z_z2b.
  - pose proof (Z.div_mod v 256). lia.
  - rewrite Nat2Z.inj_succ, Z.pow_succ_r in Hv by lia.
    split; [apply Z.div_pos; lia|apply Z.div_lt_upper_bound; lia].
Qed.

Lemma be_bytes_value l : be_bytes (length l) (be_value l) = l.
Proof.
  induction l as [|b l IH] using rev_ind; [done|]. pose proof (b2z_range b).
  rewrite length_app, Nat.add_1_r. cbn [be_bytes]. rewrite be_value_snoc, (Z.add_comm (_ * _)).
  rewrite Z.div_add, Z.div_small, Z.add_0_l by lia. rewrite IH. do 2 f_equal.
  apply b2z_inj. rewrite b2z_z2b, Z.add_mod, Z_mod_mult, Z.add_0_r by lia.
  by rewrite Z.mod_mod, Z.mod_small by lia.
Qed.

(** [write_uint32_be(out + pos, v)] and the like: [htonl] and [memcpy]. *)
Definition write_uint32_be (out : list byte) (pos v : Z) : outcome (list byte) :=
  copy_at out pos (be_bytes 4 v).
Definition write_uint16_be (out : list byte) (pos v : Z) : outcome (list byte) :=
  copy_at out pos (be_bytes 2 v).
Definition read_uint32_be (data : list byte) (pos : Z) : outcome Z :=
  l ← read_at data pos 4; Ok (be_value l).
Definition read_uint16_be (data : list byte) (pos : Z) : outcome Z :=
  l ← read_at data pos 2; Ok (be_value l).

#[global] Arguments be_bytes : simpl never.

(** Byte strings as keys of maps and sets. *)
#[export] Program Instance byte_countable : Countable byte := inj_countable' b2z z2b _.
Next Obligation. apply z2b_b2z. Qed.

(** Counting in lists and maps. *)
Lemma zlen_filter_fmap {A B} (f : A → B) (P : B → Prop) `{∀ y, Decision (P y)} l :
  zlen (filter P (f <$> l)) = zlen (filter (λ x, P (f x)) l).
Proof.
  induction l as [|x l IH]; [done|]. rewrite fmap_cons, !filter_cons.
  destruct (decide (P (f x))); rewrite ?zlen_cons; congruence.
Qed.

Lemma size_filter_map `{Countable K} {A} (P : K * A → Prop) `{∀ x, Decision (P x)} (m : gmap K A) :
  Z.of_nat (size (filter P m)) = zlen (filter P (map_to_list m)).
Proof.
  rewrite map_filter_alt, <- length_map_to_list. unfold zlen. f_equal.
  apply Permutation_length, map_to_list_to_map. eapply sublist_NoDup.
  - apply (NoDup_fst_map_to_list m).
  - apply fmap_sublist, sublist_filter.
Qed.

(** Distinct values of a map are no more than its entries. *)
Lemma values_size `{Countable K} {A} (m : gmap K A) (l : list A) :
  NoDup l → (∀ x, x ∈ l → ∃ k, m !! k = Some x) → (length l ≤ size m)%nat.
Proof.
  intros Hnd Hl. rewrite <- (length_map_to_list m), <- (length_fmap snd).
  apply submseteq_length, NoDup_submseteq; [done|]. intros x Hx. destruct (Hl x Hx) as [k Hk].
  apply list_elem_of_fmap. exists (k, x). split; [done|]. by apply elem_of_map_to_list.
Qed.
