(* ===== verification/StdString.v ===== *)
(** * [std::string] and [std::string_view] as byte lists

    [std::to_string] and [std::stoi] on integers, [std::isdigit], and the ordering
    [std::string_view] uses, with the facts the parsers of Bencode.v and the
    printers of Tracker.v need: printing in base ten is a bijection between the
    naturals and the digit strings without a redundant leading zero, and the
    ordering is a strict total order. *)

From S2P Require Import Prelude.

Definition isdigit (b : byte) : bool := (48 <=? b2z b) && (b2z b <=? 57).
Definition digit (d : Z) : byte := z2b (48 + d).
Definition digit_val (b : byte) : Z := b2z b - 48.

(** Base-ten digits of [n], most significant first, in front of [acc]. *)
Fixpoint dec_digits (fuel : nat) (n : Z) (acc : list byte) : list byte :=
  match fuel with
  | O => acc
  | S f =>
      let acc' := digit (n mod 10) :: acc in
      if n <? 10 then acc' else dec_digits f (n / 10) acc'
  end.

(** There are at most as many digits as bits, so the fuel is enough. *)
Definition to_digits (n : Z) : list byte :=
  dec_digits (S (S (Z.to_nat (Z.log2 n)))) n [].

(** [std::to_string] on a signed or an unsigned integer. *)
Definition to_string (z : Z) : list byte :=
  if z <? 0 then "-"%byte :: to_digits (- z) else to_digits z.

(** The number a digit string denotes, read after [v]. *)
Definition dec_value (v : Z) (ds : list byte) : Z :=
  fold_left (λ v b, v * 10 + digit_val b) ds v.

(** [std::string_view] comparison: [char_traits<char>] compares bytes unsigned, and
    a proper prefix comes first. *)
Fixpoint bytes_compare (a b : list byte) : comparison :=
  match a, b with
  | [], [] => Eq
  | [], _ :: _ => Lt
  | _ :: _, [] => Gt
  | x :: a', y :: b' =>
      match b2z x ?= b2z y with
      | Eq => bytes_compare a' b'
      | c => c
      end
  end.

Definition bytes_lt (a b : list byte) : Prop := bytes_compare a b = Lt.

(** ** Digits *)

Lemma isdigit_range b : isdigit b = true ↔ 0 ≤ digit_val b < 10.
Proof. unfold isdigit, digit_val. lia. Qed.

Lemma digit_val_digit d : 0 ≤ d < 10 → digit_val (digit d) = d.
Proof. intros. unfold digit_val, digit. rewrite b2z_z2b, Z.mod_small; lia. Qed.

Lemma digit_digit_val b : isdigit b = true → digit (digit_val b) = b.
Proof.
  intros _. unfold digit, digit_val. replace (48 + (b2z b - 48)) with (b2z b) by lia.
  apply z2b_b2z.
Qed.

Lemma isdigit_digit d : 0 ≤ d < 10 → isdigit (digit d) = true.
Proof. intros. by rewrite isdigit_range, digit_val_digit. Qed.

#[export] Hint Rewrite digit_val_digit isdigit_digit using lia : p2p.

Lemma dec_digits_acc fuel n acc :
  dec_digits fuel n acc = dec_digits fuel n [] ++ acc.
Proof.
  revert n acc. induction fuel as [|f IH]; intros n acc; simpl; [done|].
  case_ifs; [done|]. by rewrite IH, (IH _ [_]), <- app_assoc.
Qed.

(** A digit string with no redundant leading zero. *)
Definition canonical (ds : list byte) : Prop :=
  Forall (λ b, isdigit b = true) ds ∧
  match ds with
  | [] => False
  | d :: r => digit_val d = 0 → r = []
  end.

Lemma dec_value_app v a b : dec_value v (a ++ b) = dec_value (dec_value v a) b.
Proof. apply fold_left_app. Qed.

Lemma dec_value_ge v ds :
  0 ≤ v → Forall (λ b, isdigit b = true) ds → v ≤ dec_value v ds.
Proof.
  intros Hv Hds. revert v Hv. induction Hds as [|b ds Hb _ IH]; intros v Hv; simpl; [lia|].
  apply isdigit_range in Hb. transitivity (v * 10 + digit_val b); [lia|]. apply IH. lia.
Qed.

Lemma canonical_snoc ds d :
  canonical ds → ds ≠ [] → 0 < dec_value 0 ds → isdigit d = true → canonical (ds ++ [d]).
Proof.
  intros [Hds Hc] Hne Hv Hd. split.
  - apply Forall_app; auto.
  - destruct ds as [|x r]; [done|]. simpl. intros E. rewrite (Hc E) in Hv. simpl in Hv. lia.
Qed.

Lemma canonical_init ds d : canonical (ds ++ [d]) → ds ≠ [] → canonical ds.
Proof.
  intros [Hds Hc] Hne. apply Forall_app in Hds as [Hds _]. split; [done|].
  destruct ds as [|x r]; [done|]. simpl in Hc. intros E. specialize (Hc E). by destruct r.
Qed.

Lemma canonical_init_pos ds d : canonical (ds ++ [d]) → ds ≠ [] → 0 < dec_value 0 ds.
Proof.
  intros [Hds Hc] Hne. apply Forall_app in Hds as [Hds _].
  destruct ds as [|x r]; [done|]. inversion_clear Hds as [|?? Hx Hr].
  apply isdigit_range in Hx. simpl in Hc. change (0 < dec_value (digit_val x) r).
  pose proof (dec_value_ge (digit_val x) r ltac:(lia) Hr).
  destruct (decide (digit_val x = 0)) as [E|]; [|lia]. specialize (Hc E). by destruct r.
Qed.

(** Two canonical digit strings with the same value are the same string. *)
Lemma canonical_inj a b :
  canonical a → canonical b → dec_value 0 a = dec_value 0 b → a = b.
Proof.
  revert b. induction a as [|x a IH] using rev_ind; intros b Ha Hb E; [by destruct Ha|].
  destruct b as [|y b _] using rev_ind; [by destruct Hb|].
  rewrite !dec_value_app in E. simpl in E.
  pose proof (proj1 Ha) as Fa. pose proof (proj1 Hb) as Fb.
  apply Forall_app in Fa as [_ Fa], Fb as [_ Fb]. inversion_clear Fa as [|?? Hx _].
  inversion_clear Fb as [|?? Hy _].
  assert (x = y ∧ dec_value 0 a = dec_value 0 b) as [<- Eab].
  { apply isdigit_range in Hx as Hx', Hy as Hy'. split; [|lia].
    rewrite <- (digit_digit_val x), <- (digit_digit_val y) by done. f_equal. lia. }
  f_equal. destruct (decide (a = [])) as [->|Na], (decide (b = [])) as [->|Nb]; [done| | |].
  - apply canonical_init_pos in Hb; [|done]. simpl in Eab. lia.
  - apply canonical_init_pos in Ha; [|done]. simpl in Eab. lia.
  - apply canonical_init in Ha, Hb; auto.
Qed.

Lemma dec_digits_spec fuel n :
  0 ≤ n < 2 ^ Z.of_nat fuel →
  canonical (dec_digits (S fuel) n []) ∧ dec_value 0 (dec_digits (S fuel) n []) = n.
Proof.
  revert n. induction fuel as [|f IH]; intros n Hn.
  { simpl in Hn. assert (n = 0) as -> by lia. by repeat constructor. }
  rewrite Nat2Z.inj_succ, Z.pow_succ_r in Hn by lia.
  pose proof (Z.mod_pos_bound n 10 ltac:(lia)).
  cbn [dec_digits]. destruct (n <? 10) eqn:E.
  - rewrite Z.mod_small by lia. split; [|simpl; rewrite digit_val_digit; lia].
    split; [|done]. constructor; [|done]. apply isdigit_digit. lia.
  - destruct (IH (n / 10)) as [IHc IHv]; [split; [apply Z.div_pos | apply Z.div_lt_upper_bound]; lia|].
    change (if n / 10 <? 10 then _ else _) with (dec_digits (S f) (n / 10) [digit (n mod 10)]).
    rewrite dec_digits_acc. split.
    + apply canonical_snoc; auto with lia.
      * by intros Hnil; rewrite Hnil in IHc; destruct IHc.
      * rewrite IHv. apply Z.div_str_pos. lia.
      * apply isdigit_digit. lia.
    + rewrite dec_value_app, IHv. simpl. rewrite digit_val_digit by lia.
      pose proof (Z.div_mod n 10). lia.
Qed.

Lemma to_digits_spec n :
  0 ≤ n → canonical (to_digits n) ∧ dec_value 0 (to_digits n) = n.
Proof.
  intros Hn. apply dec_digits_spec. split; [done|].
  destruct (decide (n = 0)) as [->|]; [done|].
  rewrite Nat2Z.inj_succ, Z2Nat.id by apply Z.log2_nonneg.
  by apply Z.log2_spec; lia.
Qed.

Lemma to_digits_canonical n : 0 ≤ n → canonical (to_digits n).
Proof. apply to_digits_spec. Qed.
Lemma to_digits_value n : 0 ≤ n → dec_value 0 (to_digits n) = n.
Proof. apply to_digits_spec. Qed.
Lemma to_digits_unique ds : canonical ds → to_digits (dec_value 0 ds) = ds.
Proof.
  intros H. assert (0 ≤ dec_value 0 ds) by (apply dec_value_ge; [lia|apply H]).
  apply canonical_inj; auto using to_digits_canonical. by apply to_digits_value.
Qed.

#[export] Hint Resolve to_digits_canonical to_digits_value : p2p.

(** ** The ordering *)

Lemma bytes_compare_eq a b : bytes_compare a b = Eq ↔ a = b.
Proof.
  split.
  - revert b. induction a as [|x a IH]; intros [|y b]; simpl; try done.
    destruct (Z.compare_spec (b2z x) (b2z y)) as [E| |]; try done.
    apply b2z_inj in E as ->. intros E. f_equal. auto.
  - intros ->. induction b as [|y b IH]; simpl; [done|]. by rewrite Z.compare_refl.
Qed.

Lemma bytes_compare_refl a : bytes_compare a a = Eq.
Proof. by apply bytes_compare_eq. Qed.

Lemma bytes_compare_antisym a b : bytes_compare b a = CompOpp (bytes_compare a b).
Proof.
  revert b. induction a as [|x a IH]; intros [|y b]; simpl; try done.
  rewrite Z.compare_antisym. destruct (b2z x ?= b2z y); simpl; auto.
Qed.

#[export] Instance bytes_lt_strict : StrictOrder bytes_lt.
Proof.
  unfold bytes_lt. split.
  - intros a. unfold complement. by rewrite bytes_compare_refl.
  - intros a b c. revert b c. induction a as [|x a IH]; intros [|y b] [|z c]; simpl; try done.
    destruct (Z.compare_spec (b2z x) (b2z y)), (Z.compare_spec (b2z y) (b2z z)),
      (Z.compare_spec (b2z x) (b2z z)); try done; try lia. eauto.
Qed.

#[export] Instance bytes_lt_dec a b : Decision (bytes_lt a b).
Proof. unfold bytes_lt. apply _. Defined.

(** ** [std::stoi] *)

(** [std::isspace] in the C locale. *)
Definition isspace (b : byte) : bool := ((9 <=? b2z b) && (b2z b <=? 13)) || (b2z b =? 32).

Fixpoint skip_spaces (l : list byte) : list byte :=
  match l with b :: r => if isspace b then skip_spaces r else l | [] => [] end.

(** The digits [l] starts with, and what follows them. *)
Fixpoint span_digits (l : list byte) : list byte * list byte :=
  match l with
  | b :: r => if isdigit b then let '(ds, rest) := span_digits r in (b :: ds, rest) else ([], l)
  | [] => ([], [])
  end.

(** [std::stoi(s, &processed)]: spaces, a sign and digits are read, as [strtol] does;
    the value and the number of characters read. *)
Definition stoi (s : list byte) : outcome (Z * Z) :=
  let l := skip_spaces s in
  let '(negative, l) :=
    match l with
    | b :: r => if beq b "-" then (true, r) else if beq b "+" then (false, r) else (false, l)
    | [] => (false, [])
    end in
  let '(ds, rest) := span_digits l in
  match ds with
  | [] => Throw (invalid_argument "stoi")
  | _ =>
      let v := dec_value 0 ds in
      let v := if negative : bool then - v else v in
      if (- 2 ^ 31 <=? v) && (v <=? int_max) then Ok (v, zlen s - zlen rest)
      else Throw (out_of_range "stoi")
  end.

Lemma stoi_range s v n : stoi s = Ok (v, n) → - 2 ^ 31 ≤ v ≤ int_max.
Proof.
  unfold stoi. destruct (match skip_spaces s with [] => _ | _ => _ end) as [neg l].
  destruct (span_digits l) as [[|d ds] rest]; [done|]. cbv zeta. set (x := if neg then _ else _).
  destruct (_ && _) eqn:E; intros [= <- _]. lia.
Qed.

Lemma stoi_defined s : defined (stoi s).
Proof.
  unfold stoi. destruct (match skip_spaces s with [] => _ | _ => _ end) as [neg l].
  destruct (span_digits l) as [[|d ds] rest]; [done|]. by case_ifs.
Qed.

Lemma span_digits_all ds : Forall (λ b, isdigit b = true) ds → span_digits ds = (ds, []).
Proof. induction 1 as [|b ds Hb _ IH]; simpl; [done|]. by rewrite Hb, IH. Qed.

(** A number printed is read back, to the last character. *)
Lemma stoi_to_string n :
  0 ≤ n ≤ int_max → stoi (to_string n) = Ok (n, zlen (to_string n)).
Proof.
  intros Hn. unfold to_string. rewrite (proj2 (Z.ltb_ge _ _)) by lia.
  destruct (to_digits_spec n) as [[Hds Hc] Hv]; [lia|]. unfold stoi.
  destruct (to_digits n) as [|d ds] eqn:E; [done|].
  inversion_clear Hds as [|?? Hd Hds'].
  assert (skip_spaces (d :: ds) = d :: ds) as ->.
  { assert (isspace d = false) as Hs by by destruct d. simpl. by rewrite Hs. }
  assert (beq d "-" = false) as -> by by destruct d.
  assert (beq d "+" = false) as -> by by destruct d.
  rewrite span_digits_all by by constructor. rewrite Hv.
  rewrite (proj2 (Z.leb_le (- 2 ^ 31) n)), (proj2 (Z.leb_le n _)) by lia. cbn [andb]. change (zlen (@nil byte)) with 0.
  by rewrite Z.sub_0_r.
Qed.
