(* ===== verification/Bencode.v ===== *)
(** * Bencode: [bencode.hpp], [bencode.cpp]

    [BencodeValue] is the [std::variant] of the header; a dictionary is the
    [std::map] of the source, an association list kept in the key order that
    iteration follows. The parsers take the remaining span and return the value with
    the span left over, or the exception thrown. [parse_value], [parse_list] and
    [parse_dict] recurse through each other: their models share a fuel argument,
    which [parse] sets to a bound that the termination theorem shows sufficient for
    every input. The main theorem is that the parser accepts exactly the canonical
    encodings: [parse] and [encode] are inverse partial functions. *)

From S2P Require Import Prelude StdString.

Inductive BencodeValue :=
| BInt (val : Z)
| BString (val : list byte)
| BList (val : list BencodeValue)
| BDict (val : list (list byte * BencodeValue)).

Abbreviation BencodeDict := (list (list byte * BencodeValue)).

(** ** Type checks and accessors *)

Definition is_int (v : BencodeValue) : bool := match v with BInt _ => true | _ => false end.
Definition is_string (v : BencodeValue) : bool := match v with BString _ => true | _ => false end.
Definition is_list (v : BencodeValue) : bool := match v with BList _ => true | _ => false end.
Definition is_dict (v : BencodeValue) : bool := match v with BDict _ => true | _ => false end.

Definition as_int (v : BencodeValue) : outcome Z :=
  match v with
  | BInt i => Ok i
  | _ => Throw (runtime_error "BencodeValue: not an integer")
  end.
Definition as_string (v : BencodeValue) : outcome (list byte) :=
  match v with
  | BString s => Ok s
  | _ => Throw (runtime_error "BencodeValue: not a string")
  end.
Definition as_list (v : BencodeValue) : outcome (list BencodeValue) :=
  match v with
  | BList l => Ok l
  | _ => Throw (runtime_error "BencodeValue: not a list")
  end.
Definition as_dict (v : BencodeValue) : outcome BencodeDict :=
  match v with
  | BDict d => Ok d
  | _ => Throw (runtime_error "BencodeValue: not a dictionary")
  end.

(** ** [std::map<BencodeString, BencodeValue>] *)

Fixpoint dict_find (k : list byte) (d : BencodeDict) : option BencodeValue :=
  match d with
  | [] => None
  | (k', v) :: r => match bytes_compare k k' with Eq => Some v | _ => dict_find k r end
  end.

(** [emplace] leaves an existing key alone. *)
Fixpoint dict_emplace (k : list byte) (v : BencodeValue) (d : BencodeDict) : BencodeDict :=
  match d with
  | [] => [(k, v)]
  | (k', v') :: r =>
      match bytes_compare k k' with
      | Lt => (k, v) :: d
      | Eq => d
      | Gt => (k', v') :: dict_emplace k v r
      end
  end.

(** ** Parsing *)

(** The digit loops of [parse_int] and [parse_string]: the value read after [v], and
    the span from the first byte that is not a digit. [limit] is the largest value
    of the accumulator's type. *)
Fixpoint digit_loop (limit : Z) (overflow : string) (v : Z) (remaining : list byte)
    : outcome (Z * list byte) :=
  match remaining with
  | [] => Ok (v, [])
  | b :: r =>
      if isdigit b then
        if (limit - digit_val b) / 10 <? v then Throw (runtime_error overflow)
        else digit_loop limit overflow (v * 10 + digit_val b) r
      else Ok (v, remaining)
  end.

(** [if (remaining.empty() || remaining[0] != c) throw runtime_error(msg);], and the
    byte consumed. *)
Definition expect (c : byte) (msg : string) (remaining : list byte) : outcome (list byte) :=
  match remaining with
  | [] => Throw (runtime_error msg)
  | b :: r => if beq b c then Ok r else Throw (runtime_error msg)
  end.

Definition parse_int (remaining : list byte) : outcome (Z * list byte) :=
  remaining ← expect "i" "BencodeParser: expected 'i' for integer" remaining;
  match remaining with
  | [] => Throw (runtime_error "BencodeParser: unexpected end of integer")
  | c :: r =>
      let negative := beq c "-" in
      match (if negative then r else remaining) with
      | [] => Throw (runtime_error "BencodeParser: expected digits in integer")
      | c :: r =>
          if negb (isdigit c) then
            Throw (runtime_error "BencodeParser: expected digits in integer")
          else if beq c "0" && negb (bool_decide (head r = Some "e"%byte)) then
            Throw (runtime_error "BencodeParser: leading zeros are not allowed in integer")
          else if beq c "0" && negative then
            Throw (runtime_error "BencodeParser: -0 is not allowed")
          else
            '(value, remaining) ← digit_loop int64_max
               "BencodeParser: integer overflow" 0 (c :: r);
            remaining ← expect "e" "BencodeParser: expected 'e' at end of integer" remaining;
            Ok (if negative then - value else value, remaining)
      end
  end.

Definition parse_string (remaining : list byte) : outcome (list byte * list byte) :=
  match remaining with
  | [] => Throw (runtime_error "BencodeParser: expected digit for string length")
  | c :: r =>
      if negb (isdigit c) then
        Throw (runtime_error "BencodeParser: expected digit for string length")
      else if beq c "0" && negb (bool_decide (head r = Some ":"%byte)) then
        Throw (runtime_error "BencodeParser: leading zeros not allowed in string length")
      else
        '(length, remaining) ← digit_loop size_max
           "BencodeParser: string length overflow" 0 remaining;
        remaining ← expect ":" "BencodeParser: expected ':' after string length" remaining;
        if zlen remaining <? length then
          Throw (runtime_error "BencodeParser: unexpected end of string data")
        else Ok (ztake length remaining, zdrop length remaining)
  end.

(** The byte that closes a list or a dictionary. *)
Definition at_end (remaining : list byte) : bool :=
  match remaining with [] => true | c :: _ => beq c "e" end.

Fixpoint parse_value (fuel : nat) (remaining : list byte)
    : outcome (BencodeValue * list byte) :=
  match fuel with
  | O => Fuel
  | S f =>
      match remaining with
      | [] => Throw (runtime_error "BencodeParser: unexpected end of input")
      | first_char :: _ =>
          if beq first_char "i" then
            '(i, remaining) ← parse_int remaining; Ok (BInt i, remaining)
          else if beq first_char "l" then
            '(l, remaining) ← parse_list f remaining; Ok (BList l, remaining)
          else if beq first_char "d" then
            '(d, remaining) ← parse_dict f remaining; Ok (BDict d, remaining)
          else if isdigit first_char then
            '(s, remaining) ← parse_string remaining; Ok (BString s, remaining)
          else Throw (runtime_error
                        "BencodeParser: invalid first character for Bencode type")
      end
  end
with parse_list (fuel : nat) (remaining : list byte)
    : outcome (list BencodeValue * list byte) :=
  match fuel with
  | O => Fuel
  | S f =>
      remaining ← expect "l" "BencodeParser: expected 'l' for list" remaining;
      '(items, remaining) ← parse_list_loop f [] remaining;
      remaining ← expect "e" "BencodeParser: expected 'e' at end of list" remaining;
      Ok (items, remaining)
  end
with parse_list_loop (fuel : nat) (items : list BencodeValue) (remaining : list byte) :=
  match fuel with
  | O => Fuel
  | S f =>
      if at_end remaining then Ok (items, remaining)
      else
        '(v, remaining) ← parse_value f remaining;
        parse_list_loop f (items ++ [v]) remaining
  end
with parse_dict (fuel : nat) (remaining : list byte)
    : outcome (BencodeDict * list byte) :=
  match fuel with
  | O => Fuel
  | S f =>
      remaining ← expect "d" "BencodeParser: expected 'd' for dictionary" remaining;
      '(dict, remaining) ← parse_dict_loop f [] None remaining;
      remaining ← expect "e" "BencodeParser: expected 'e' at end of dictionary" remaining;
      Ok (dict, remaining)
  end
with parse_dict_loop (fuel : nat) (dict : BencodeDict) (last_key : option (list byte))
    (remaining : list byte) :=
  match fuel with
  | O => Fuel
  | S f =>
      if at_end remaining then Ok (dict, remaining)
      else
        '(key, remaining) ← parse_string remaining;
        match default Gt (bytes_compare key <$> last_key) with
        | Eq => Throw (runtime_error "BencodeParser: duplicate key in dictionary")
        | Lt => Throw (runtime_error
                         "BencodeParser: dictionary keys not sorted lexicographically")
        | Gt =>
            '(val, remaining) ← parse_value f remaining;
            parse_dict_loop f (dict_emplace key val dict) (Some key) remaining
        end
  end.

(** Three calls deep ([parse_value], [parse_list], its loop) per byte of nesting, and
    the innermost call. *)
Definition parse_fuel (remaining : list byte) : nat := (3 * length remaining + 1)%nat.

Definition parse (input : list byte) : outcome BencodeValue :=
  '(val, remaining) ← parse_value (parse_fuel input) input;
  if decide (remaining = []) then Ok val
  else Throw (runtime_error "BencodeParser: extra data at the end of input").

(** ** Encoding *)

Definition encode_string (s : list byte) (out : list byte) : list byte :=
  ((out ++ to_string (zlen s)) ++ [":"%byte]) ++ s.

Fixpoint encode_value (value : BencodeValue) (out : list byte) : list byte :=
  match value with
  | BInt arg => ((out ++ ["i"%byte]) ++ to_string arg) ++ ["e"%byte]
  | BString arg => encode_string arg out
  | BList arg =>
      foldl (λ out item, encode_value item out) (out ++ ["l"%byte]) arg ++ ["e"%byte]
  | BDict arg =>
      foldl (λ out kv, encode_value kv.2 (encode_string kv.1 out))
        (out ++ ["d"%byte]) arg ++ ["e"%byte]
  end.

Definition encode (value : BencodeValue) : list byte := encode_value value [].

(** ** The values the format can carry *)

(** [int64_t] without its least value (see [parse_int_least]), strings whose size
    is a [size_t], and dictionaries in strictly ascending key order. *)
Fixpoint wf_value (v : BencodeValue) : Prop :=
  match v with
  | BInt i => - int64_max ≤ i ≤ int64_max
  | BString s => zlen s ≤ size_max
  | BList l => foldr (λ x P, wf_value x ∧ P) True l
  | BDict d =>
      StronglySorted bytes_lt d.*1 ∧
      foldr (λ kv P, (zlen kv.1 ≤ size_max ∧ wf_value kv.2) ∧ P) True d
  end.

Lemma foldr_and {A} (P : A → Prop) l : foldr (λ x Q, P x ∧ Q) True l ↔ Forall P l.
Proof. induction l as [|x l IH]; simpl; [naive_solver|]. by rewrite IH, Forall_cons. Qed.

Lemma wf_list l : wf_value (BList l) ↔ Forall wf_value l.
Proof. apply foldr_and. Qed.

Lemma wf_dict d :
  wf_value (BDict d) ↔
  StronglySorted bytes_lt d.*1 ∧ Forall (λ kv, zlen kv.1 ≤ size_max ∧ wf_value kv.2) d.
Proof. simpl. by rewrite (foldr_and (λ kv, zlen kv.1 ≤ size_max ∧ wf_value kv.2)). Qed.

(** Induction over values with the hypothesis on every element. *)
Lemma value_ind (P : BencodeValue → Prop) :
  (∀ i, P (BInt i)) → (∀ s, P (BString s)) →
  (∀ l, Forall P l → P (BList l)) →
  (∀ d, Forall (λ kv, P kv.2) d → P (BDict d)) → ∀ v, P v.
Proof.
  intros HI HS HL HD. fix IH 1. intros [i|s|l|d]; [apply HI|apply HS| |].
  - apply HL. induction l as [|x l IHl]; constructor; [apply IH|apply IHl].
  - apply HD. induction d as [|[k x] d IHd]; constructor; [apply IH|apply IHd].
Qed.

(** ** What [encode] produces *)

Definition enc_string (s : list byte) : list byte := to_string (zlen s) ++ ":"%byte :: s.

Lemma encode_string_app s out : encode_string s out = out ++ enc_string s.
Proof. unfold encode_string, enc_string. by rewrite <- !app_assoc. Qed.

Lemma foldl_append {A} (f : list byte → A → list byte) (g : A → list byte) l out :
  Forall (λ x, ∀ o, f o x = o ++ g x) l → foldl f out l = out ++ concat (g <$> l).
Proof.
  intros H. revert out. induction H as [|x l Hx _ IH]; intros out; simpl.
  - by rewrite app_nil_r.
  - by rewrite IH, Hx, app_assoc.
Qed.

Lemma encode_value_app v out : encode_value v out = out ++ encode v.
Proof.
  unfold encode. revert out. induction v as [i|s|l IH|d IH] using value_ind; intros out; simpl.
  - by rewrite <- !app_assoc.
  - by rewrite !encode_string_app.
  - assert (Forall (λ x, ∀ o, encode_value x o = o ++ encode x) l) as H.
    { eapply Forall_impl; [exact IH|]. intros x Hx o. apply Hx. }
    rewrite !(foldl_append _ encode) by done. by rewrite <- !app_assoc.
  - assert (Forall (λ kv, ∀ o, encode_value kv.2 (encode_string kv.1 o) =
                               o ++ (enc_string kv.1 ++ encode kv.2)) d) as H.
    { eapply Forall_impl; [exact IH|]. intros [k x] Hx o. simpl in *.
      by rewrite Hx, encode_string_app, <- app_assoc. }
    rewrite !(foldl_append _ (λ kv, enc_string kv.1 ++ encode kv.2)) by done.
    by rewrite <- !app_assoc.
Qed.

Definition enc_entry (kv : list byte * BencodeValue) : list byte :=
  enc_string kv.1 ++ encode kv.2.

Lemma encode_int i : encode (BInt i) = "i"%byte :: to_string i ++ ["e"%byte].
Proof. done. Qed.
Lemma encode_str s : encode (BString s) = enc_string s.
Proof. apply encode_string_app. Qed.
Lemma encode_list l : encode (BList l) = "l"%byte :: concat (encode <$> l) ++ ["e"%byte].
Proof.
  unfold encode at 1. simpl. rewrite (foldl_append _ encode); [done|].
  apply Forall_true. intros. apply encode_value_app.
Qed.
Lemma encode_dict d : encode (BDict d) = "d"%byte :: concat (enc_entry <$> d) ++ ["e"%byte].
Proof.
  unfold encode at 1. simpl. rewrite (foldl_append _ enc_entry); [done|].
  apply Forall_true. intros kv o. unfold enc_entry.
  by rewrite encode_value_app, encode_string_app, <- app_assoc.
Qed.
#[export] Hint Rewrite encode_int encode_str encode_list encode_dict : p2p.

(** ** Numbers and strings *)

(** The span does not start with a digit. *)
Definition no_digit (l : list byte) : Prop :=
  match l with [] => True | b :: _ => isdigit b = false end.

Lemma digit_loop_ok limit msg v rem v' rest :
  0 ≤ v ≤ limit →
  digit_loop limit msg v rem = Ok (v', rest) ↔
  ∃ ds, rem = ds ++ rest ∧ Forall (λ b, isdigit b = true) ds ∧ no_digit rest ∧
        v' = dec_value v ds ∧ v' ≤ limit.
Proof.
  revert v. induction rem as [|b r IH]; intros v Hv; simpl.
  { split.
    - intros [= <- <-]. exists []. split_and!; simpl; try done; lia.
    - intros (ds & E & _ & _ & -> & _). symmetry in E. apply app_nil in E as [-> ->]. done. }
  destruct (isdigit b) eqn:Eb.
  - assert (0 ≤ digit_val b < 10) as Hb by by apply isdigit_range.
    destruct (_ <? v) eqn:Eo; rewrite ?Z.ltb_lt, ?Z.ltb_ge in Eo.
    + split; [done|]. intros (ds & E & Hds & Hr & -> & Hl). exfalso.
      destruct ds as [|c ds]; [simpl in E; subst rest; simpl in Hr; congruence|].
      injection E as <- ->. inversion_clear Hds as [|?? _ Hd].
      pose proof (dec_value_ge (v * 10 + digit_val b) ds ltac:(lia) Hd). simpl in Hl.
      fold (dec_value (v * 10 + digit_val b) ds) in Hl.
      pose proof (Z.div_mod (limit - digit_val b) 10). 
      pose proof (Z.mod_pos_bound (limit - digit_val b) 10). lia.
    + rewrite IH.
      2:{ pose proof (Z.mul_div_le (limit - digit_val b) 10). lia. }
      split.
      * intros (ds & -> & Hds & Hr & -> & Hl). exists (b :: ds). auto.
      * intros (ds & E & Hds & Hr & -> & Hl).
        destruct ds as [|c ds]; [simpl in E; subst rest; simpl in Hr; congruence|].
        injection E as <- ->. inversion_clear Hds. eauto 8.
  - split.
    + intros [= <- <-]. exists []. split_and!; simpl; try done; lia.
    + intros (ds & E & Hds & Hr & -> & Hl).
      destruct ds as [|c ds]; [by simplify_eq/=|].
      injection E as <- ->. inversion_clear Hds. congruence.
Qed.

#[local] Arguments digit_loop : simpl never.

Lemma expect_ok c msg rem rest : expect c msg rem = Ok rest ↔ rem = c :: rest.
Proof.
  unfold expect. destruct rem as [|b r]; [naive_solver|].
  destruct (beq b c) eqn:E; rewrite ?beq_true, ?beq_false in E; naive_solver.
Qed.

(** The guards in front of the digit loops hold exactly when the digits that follow
    are canonical: [t] is the byte that ends the number. *)
Lemma number_canonical t ds rest c r :
  isdigit t = false → no_digit rest → c :: r = ds ++ rest →
  Forall (λ b, isdigit b = true) ds → isdigit c = true →
  beq c "0" && negb (bool_decide (head r = Some t)) = false → canonical ds.
Proof.
  intros Ht Hr E Hds Hc H. split; [done|].
  destruct ds as [|d ds]; [simpl in E; subst rest; simpl in Hr; congruence|].
  injection E as -> ->. intros Hd.
  assert (d = "0"%byte) as ->.
  { apply b2z_inj. unfold digit_val in Hd. change (b2z "0") with 48. lia. }
  rewrite beq_refl in H. simpl in H. apply negb_false_iff, bool_decide_eq_true in H.
  destruct ds as [|x ds]; [done|]. injection H as ->.
  inversion_clear Hds as [|?? _ Hx]. inversion_clear Hx. congruence.
Qed.

Lemma canonical_number t ds rest :
  canonical ds →
  ∃ c r, ds ++ t :: rest = c :: r ∧ isdigit c = true ∧
         beq c "0" && negb (bool_decide (head r = Some t)) = false ∧
         (beq c "0" = true → dec_value 0 ds = 0).
Proof.
  intros [Hds Hc]. destruct ds as [|c ds]; [done|]. exists c, (ds ++ t :: rest).
  inversion_clear Hds. split_and!; auto.
  - destruct (beq c "0") eqn:E; [|done]. apply beq_true in E as ->.
    rewrite (Hc eq_refl). simpl. by rewrite bool_decide_eq_true_2.
  - intros E. apply beq_true in E as ->. by rewrite (Hc eq_refl).
Qed.

Lemma parse_string_ok rem s rest :
  parse_string rem = Ok (s, rest) ↔ rem = enc_string s ++ rest ∧ zlen s ≤ size_max.
Proof.
  assert (0 ≤ 0 ≤ size_max) as Hm by (unfold size_max; lia).
  pose proof (zlen_nonneg s) as Hs0. unfold parse_string, enc_string. split.
  - destruct rem as [|c r]; [done|]. intros H. case_ifs_in H.
    apply negb_false_iff in E. inv_ok H. destruct x as [n rem]. inv_ok H.
    apply expect_ok in H1 as ->. case_ifs_in H. injection H as <- <-.
    apply digit_loop_ok in H0 as (ds & Er & Hds & Hr & -> & Hl); [|done].
    apply Z.ltb_ge in E1. pose proof (dec_value_ge 0 ds ltac:(lia) Hds) as Hn.
    assert (canonical ds) as Hcan by by eapply (number_canonical ":").
    assert (zlen (ztake (dec_value 0 ds) x) = dec_value 0 ds) as Hlen.
    { unfold zlen, ztake in *. rewrite length_take. lia. }
    rewrite Hlen, Er. unfold to_string. rewrite (proj2 (Z.ltb_ge _ _)) by done.
    rewrite to_digits_unique by done. unfold ztake, zdrop.
    rewrite <- app_assoc. simpl. by rewrite take_drop.
  - intros [-> Hl]. unfold to_string. rewrite (proj2 (Z.ltb_ge _ _)) by done.
    rewrite <- app_assoc. simpl.
    destruct (canonical_number ":" (to_digits (zlen s)) (s ++ rest)) as (c & r & Er & Hc & H0 & _).
    { by apply to_digits_canonical. }
    pose proof (proj2 (digit_loop_ok size_max "BencodeParser: string length overflow" 0
      (to_digits (zlen s) ++ ":"%byte :: s ++ rest) (zlen s) (":"%byte :: s ++ rest) Hm)) as Hd.
    rewrite Er in Hd |- *. rewrite Hc, H0. simpl. rewrite Hd; simpl.
    2:{ exists (to_digits (zlen s)). rewrite to_digits_value by done.
        split_and!; auto. by apply to_digits_canonical. }
    rewrite (proj2 (Z.ltb_ge _ _)).
    2:{ autorewrite with p2p. pose proof (zlen_nonneg rest). lia. }
    unfold ztake, zdrop, zlen. by rewrite Nat2Z.id, take_app_length, drop_app_length.
Qed.

Lemma parse_int_ok rem i rest :
  parse_int rem = Ok (i, rest) ↔ rem = encode (BInt i) ++ rest ∧ - int64_max ≤ i ≤ int64_max.
Proof.
  assert (0 ≤ 0 ≤ int64_max) as Hm by (unfold int64_max; lia).
  rewrite encode_int. unfold parse_int. split.
  - intros H. inv_ok H. apply expect_ok in H0 as ->. destruct x as [|c0 r0]; [done|].
    destruct (if beq c0 "-" then r0 else c0 :: r0) as [|c r] eqn:Eneg; [done|].
    case_ifs_in H; apply negb_false_iff in E; inv_ok H; destruct x as [n rem]; inv_ok H;
      apply expect_ok in H1 as ->; injection H as <- <-;
      apply digit_loop_ok in H0 as (ds & Er & Hds & Hr & -> & Hl); try done;
      pose proof (dec_value_ge 0 ds ltac:(lia) Hds) as Hn;
      (assert (canonical ds) as Hcan by (by eapply (number_canonical "e")));
      split; try lia; unfold to_string; simpl; f_equal.
    + apply beq_true in E2 as ->. subst r0.
      destruct (Z.ltb_spec (- dec_value 0 ds) 0).
      * simpl. rewrite Z.opp_involutive, to_digits_unique, <- app_assoc, Er; done.
      * exfalso. assert (dec_value 0 ds = 0) as Ez by lia.
        assert (ds = ["0"%byte]) as ->.
        { rewrite <- (to_digits_unique ds Hcan), Ez. done. }
        injection Er as -> _. rewrite beq_refl in E1. done.
    + rewrite (proj2 (Z.ltb_ge _ _)) by done.
      rewrite to_digits_unique, <- app_assoc, Eneg, Er; done.
  - intros [-> Hi]. simpl. rewrite <- app_assoc. simpl.
    assert (∃ n, 0 ≤ n ≤ int64_max ∧ i = (if i <? 0 then - n else n) ∧
      to_string i = (if i <? 0 then ["-"%byte] else []) ++ to_digits n) as (n & Hn & Ei & Es).
    { unfold to_string. destruct (Z.ltb_spec i 0); [exists (- i)|exists i]; split_and!; auto; lia. }
    rewrite Es, <- app_assoc.
    destruct (canonical_number "e" (to_digits n) rest) as (c & r & Er & Hc & H0 & Hz).
    { apply to_digits_canonical. lia. }
    pose proof (proj2 (digit_loop_ok int64_max "BencodeParser: integer overflow" 0
      (to_digits n ++ "e"%byte :: rest) n ("e"%byte :: rest) Hm)) as Hd.
    rewrite Er in Hd |- *.
    assert (beq c "-" = false) as Hneg.
    { apply beq_false. intros ->. done. }
    rewrite to_digits_value in Hz by lia.
    destruct (i <? 0) eqn:Elt; simpl; rewrite ?Hneg, ?Hc, ?H0; simpl.
    + rewrite (Bool.andb_comm _ true). simpl. destruct (beq c "0"); [lia|].
      rewrite Hd; simpl; [by rewrite Ei|].
      exists (to_digits n). rewrite to_digits_value by lia.
      split_and!; auto; [by apply to_digits_canonical; lia|lia].
    + rewrite Bool.andb_false_r. rewrite Hd; simpl; [by rewrite Ei|].
      exists (to_digits n). rewrite to_digits_value by lia.
      split_and!; auto; [by apply to_digits_canonical; lia|lia].
Qed.

#[local] Arguments parse_int : simpl never.
#[local] Arguments parse_string : simpl never.

(** ** Soundness: what a parser accepts is the canonical encoding of its value *)

Lemma dict_emplace_last k v d :
  Forall (λ kv, bytes_lt kv.1 k) d → dict_emplace k v d = d ++ [(k, v)].
Proof.
  induction 1 as [|[k' v'] d Hk _ IH]; simpl; [done|]. unfold bytes_lt in Hk. simpl in Hk.
  by rewrite bytes_compare_antisym, Hk, IH.
Qed.

(** What [parse_dict] has built so far: ascending keys, the last of which is
    [last_key]. *)
Definition dict_inv (d : BencodeDict) (last_key : option (list byte)) : Prop :=
  StronglySorted bytes_lt d.*1 ∧
  match last_key with None => d = [] | Some k => ∃ d0 v, d = d0 ++ [(k, v)] end.

Lemma sorted_snoc ks k :
  StronglySorted bytes_lt ks → Forall (λ k', bytes_lt k' k) ks →
  StronglySorted bytes_lt (ks ++ [k]).
Proof.
  induction 1 as [|k0 ks Hs IH Hk]; intros H; simpl; [repeat constructor|].
  inversion_clear H. constructor; auto. apply Forall_app. auto.
Qed.

Lemma dict_inv_below d last_key key :
  dict_inv d last_key → default Gt (bytes_compare key <$> last_key) = Gt →
  Forall (λ kv, bytes_lt kv.1 key) d.
Proof.
  intros [Hs Hl] Hk. destruct last_key as [k|]; [|by subst; constructor].
  destruct Hl as (d0 & v & ->). simpl in Hk.
  assert (bytes_lt k key) as Hlt by (unfold bytes_lt; by rewrite bytes_compare_antisym, Hk).
  apply Forall_app; split; [|by constructor].
  rewrite fmap_app in Hs. induction d0 as [|[k0 v0] d0 IH]; [constructor|].
  inversion_clear Hs as [|?? Hs' Hk0]. constructor; [|by apply IH].
  simpl in *. apply Forall_app in Hk0 as [_ Hk0]. inversion_clear Hk0. by transitivity k.
Qed.

Lemma dict_inv_emplace d last_key key v :
  dict_inv d last_key → default Gt (bytes_compare key <$> last_key) = Gt →
  dict_emplace key v d = d ++ [(key, v)] ∧ dict_inv (d ++ [(key, v)]) (Some key).
Proof.
  intros Hi Hk. pose proof (dict_inv_below _ _ _ Hi Hk) as Hb.
  split; [by apply dict_emplace_last|]. split; [|eauto].
  rewrite fmap_app. apply sorted_snoc; [apply Hi|]. by rewrite Forall_fmap.
Qed.

Definition wf_entry (kv : list byte * BencodeValue) : Prop :=
  zlen kv.1 ≤ size_max ∧ wf_value kv.2.

Lemma parse_sound fuel :
  (∀ rem v rest, parse_value fuel rem = Ok (v, rest) →
     rem = encode v ++ rest ∧ wf_value v) ∧
  (∀ rem l rest, parse_list fuel rem = Ok (l, rest) →
     rem = encode (BList l) ++ rest ∧ wf_value (BList l)) ∧
  (∀ items rem l rest, parse_list_loop fuel items rem = Ok (l, rest) →
     ∃ l', l = items ++ l' ∧ rem = concat (encode <$> l') ++ rest ∧ Forall wf_value l') ∧
  (∀ rem d rest, parse_dict fuel rem = Ok (d, rest) →
     rem = encode (BDict d) ++ rest ∧ wf_value (BDict d)) ∧
  (∀ dict last_key rem d rest, dict_inv dict last_key →
     parse_dict_loop fuel dict last_key rem = Ok (d, rest) →
     ∃ d', d = dict ++ d' ∧ rem = concat (enc_entry <$> d') ++ rest ∧
           Forall wf_entry d' ∧ StronglySorted bytes_lt d.*1).
Proof.
  induction fuel as [|f (IHv & IHl & IHll & IHd & IHdl)]; [done|]. split_and!.
  - intros rem v rest H. simpl in H. destruct rem as [|c r]; [done|].
    case_ifs_in H; inv_ok H; destruct x as [x rem]; injection H as <- <-.
    + by apply parse_int_ok.
    + by apply IHl.
    + by apply IHd.
    + rewrite encode_str. by apply parse_string_ok in H0.
  - intros rem l rest H. simpl in H. inv_ok H. apply expect_ok in H0 as ->.
    inv_ok H. destruct x0 as [l0 rem]. inv_ok H. apply expect_ok in H1 as ->.
    injection H as <- <-. apply IHll in H0 as (l' & -> & -> & Hl).
    rewrite wf_list, encode_list. simpl. by rewrite <- app_assoc.
  - intros items rem l rest H. simpl in H. case_ifs_in H.
    + injection H as <- <-. exists []. by rewrite app_nil_r.
    + inv_ok H. destruct x as [v rem']. apply IHv in H0 as [-> Hv].
      apply IHll in H as (l' & -> & -> & Hl). exists (v :: l').
      simpl. rewrite <- !app_assoc. auto.
  - intros rem d rest H. simpl in H. inv_ok H. apply expect_ok in H0 as ->.
    inv_ok H. destruct x0 as [d0 rem]. inv_ok H. apply expect_ok in H1 as ->.
    injection H as <- <-. apply IHdl in H0 as (d' & -> & -> & Hd & Hs).
    + rewrite wf_dict, encode_dict. simpl. by rewrite <- app_assoc.
    + repeat constructor.
  - intros dict lk rem d rest Hi H. simpl in H. case_ifs_in H.
    + injection H as <- <-. exists []. rewrite app_nil_r. split_and!; try done. apply Hi.
    + inv_ok H. destruct x as [key rem']. apply parse_string_ok in H0 as [-> Hk].
      destruct (default Gt _) eqn:Ek in H; try done.
      inv_ok H. destruct x as [v rem0]. apply IHv in H0 as [-> Hv].
      destruct (dict_inv_emplace dict lk key v Hi Ek) as [Ee Hi'].
      rewrite Ee in H. apply IHdl in H as (d' & -> & -> & Hd & Hs); [|done].
      exists ((key, v) :: d'). simpl. unfold enc_entry at 2. simpl.
      rewrite <- !app_assoc in *. split_and!; auto. by constructor.
Qed.

(** ** Completeness: a canonical encoding is parsed back, with enough fuel *)

Lemma encode_head v :
  ∃ c r, encode v = c :: r ∧ c ≠ "e"%byte.
Proof.
  destruct v as [i|s|l|d]; rewrite ?encode_int, ?encode_str, ?encode_list, ?encode_dict; eauto.
  destruct (to_digits_canonical (zlen s)) as [Hd Hc]; [apply zlen_nonneg|].
  unfold enc_string, to_string. rewrite (proj2 (Z.ltb_ge _ _)) by apply zlen_nonneg.
  destruct (to_digits (zlen s)) as [|c r]; [done|]. inversion_clear Hd.
  exists c, (r ++ ":"%byte :: s). split; [done|]. by intros ->.
Qed.

Lemma enc_string_head s rest :
  ∃ c r, enc_string s ++ rest = c :: r ∧ c ≠ "e"%byte ∧ c ≠ "i"%byte ∧ c ≠ "l"%byte ∧
         c ≠ "d"%byte ∧ isdigit c = true.
Proof.
  destruct (to_digits_canonical (zlen s)) as [Hd Hc]; [apply zlen_nonneg|].
  unfold enc_string, to_string. rewrite (proj2 (Z.ltb_ge _ _)) by apply zlen_nonneg.
  destruct (to_digits (zlen s)) as [|c r]; [done|]. inversion_clear Hd.
  exists c, ((r ++ ":"%byte :: s) ++ rest).
  split; [done|]. split_and!; try done; by intros ->.
Qed.

Lemma at_end_string s rest : at_end (enc_string s ++ rest) = false.
Proof.
  destruct (enc_string_head s rest) as (c & r & -> & Hc & _). simpl. by apply beq_false.
Qed.

Lemma at_end_encode v rest : at_end (encode v ++ rest) = false.
Proof. destruct (encode_head v) as (c & r & -> & Hc). simpl. by apply beq_false. Qed.

(** [v] is parsed back from any span it starts. *)
Definition parses_back (v : BencodeValue) : Prop :=
  wf_value v → ∀ rest fuel, (2 * length (encode v) < fuel)%nat →
  parse_value fuel (encode v ++ rest) = Ok (v, rest).

Lemma parse_list_loop_complete l items rest f :
  Forall parses_back l → Forall wf_value l →
  (2 * length (concat (encode <$> l)) + 1 < f)%nat →
  parse_list_loop f items (concat (encode <$> l) ++ "e"%byte :: rest) =
  Ok (items ++ l, "e"%byte :: rest).
Proof.
  intros HP. revert items f. induction HP as [|v l Hv _ IH]; intros items f Hw Hf.
  - destruct f as [|f]; [lia|]. simpl. by rewrite app_nil_r.
  - inversion_clear Hw as [|?? Hwv Hwl]. csimpl in *. rewrite length_app in Hf.
    destruct (encode_head v) as (c & r & Ev & _).
    assert (0 < length (encode v))%nat by (rewrite Ev; simpl; lia).
    destruct f as [|f]; [lia|]. csimpl. rewrite <- app_assoc, at_end_encode.
    rewrite Hv by (done || lia). csimpl. rewrite IH by (done || lia).
    by rewrite <- app_assoc.
Qed.

(** In an ascending dictionary the key after those parsed passes the order check. *)
Lemma dict_inv_next d0 lk k v d :
  dict_inv d0 lk → StronglySorted bytes_lt (d0 ++ (k, v) :: d).*1 →
  default Gt (bytes_compare k <$> lk) = Gt.
Proof.
  intros Hi Hs. destruct lk as [k0|]; [|done]. destruct Hi as [_ (d1 & v1 & ->)].
  rewrite !fmap_app, <- app_assoc in Hs. simpl in *.
  induction d1.*1 as [|k1 ks1 IH]; simpl in Hs; inversion_clear Hs as [|?? Hs' Hf]; auto.
  inversion_clear Hf as [|?? Hlt _]. unfold bytes_lt in Hlt.
  by rewrite bytes_compare_antisym, Hlt.
Qed.

Lemma enc_entries k v d :
  concat (enc_entry <$> (k, v) :: d) = enc_string k ++ encode v ++ concat (enc_entry <$> d).
Proof. csimpl. unfold enc_entry at 1. csimpl. by rewrite <- app_assoc. Qed.

Lemma parse_dict_loop_complete d d0 lk rest f :
  Forall (λ kv, parses_back kv.2) d → Forall wf_entry d →
  dict_inv d0 lk → StronglySorted bytes_lt (d0 ++ d).*1 →
  (2 * length (concat (enc_entry <$> d)) + 1 < f)%nat →
  parse_dict_loop f d0 lk (concat (enc_entry <$> d) ++ "e"%byte :: rest) =
  Ok (d0 ++ d, "e"%byte :: rest).
Proof.
  intros HP. revert d0 lk f. induction HP as [|[k v] d Hv _ IH]; intros d0 lk f Hw Hi Hs Hf.
  - destruct f as [|f]; [lia|]. simpl. by rewrite app_nil_r.
  - inversion_clear Hw as [|?? [Hk Hwv] Hwl]. simpl in Hk, Hwv, Hv.
    rewrite enc_entries in Hf |- *.
    rewrite !length_app in Hf.
    destruct (encode_head v) as (c & r & Ev & _).
    assert (0 < length (encode v))%nat by (rewrite Ev; simpl; lia).
    destruct f as [|f]; [lia|]. csimpl. rewrite <- !app_assoc, at_end_string.
    erewrite (proj2 (parse_string_ok _ _ _)) by done. simpl.
    pose proof (dict_inv_next _ _ _ _ _ Hi Hs) as Ek.
    rewrite Ek, Hv by (done || lia). simpl.
    destruct (dict_inv_emplace d0 lk k v Hi Ek) as [-> Hi'].
    rewrite (IH (d0 ++ [(k, v)])) by (rewrite <- ?app_assoc; done || lia).
    by rewrite <- app_assoc.
Qed.

Lemma parse_value_complete v : parses_back v.
Proof.
  induction v as [i|s|l IH|d IH] using value_ind; intros Hw rest [|f] Hf; try lia.
  - change (('(i0, remaining) ← parse_int (encode (BInt i) ++ rest); Ok (BInt i0, remaining))
            = Ok (BInt i, rest)).
    by rewrite (proj2 (parse_int_ok _ _ _)) by done.
  - rewrite encode_str. destruct (enc_string_head s rest) as (c & r & Es & ?&?&?&?& Hd).
    pose proof (proj2 (parse_string_ok _ s rest) (conj eq_refl Hw)) as Hp.
    rewrite Es in Hp |- *. simpl. rewrite !(proj2 (beq_false _ _)), Hd by done.
    by rewrite Hp.
  - rewrite encode_list in Hf |- *. csimpl in *. rewrite length_app in Hf. simpl in Hf.
    destruct f as [|f]; [lia|]. csimpl. rewrite <- app_assoc. simpl.
    rewrite parse_list_loop_complete; [done|done|by apply wf_list|lia].
  - rewrite encode_dict in Hf |- *. csimpl in *. rewrite length_app in Hf. simpl in Hf.
    apply wf_dict in Hw as [Hs Hd]. destruct f as [|f]; [lia|]. simpl.
    rewrite <- app_assoc. simpl.
    rewrite parse_dict_loop_complete; [done|done|done|repeat constructor|done|lia].
Qed.

(** ** Termination *)

Lemma digit_loop_defined limit msg v rem : defined (digit_loop limit msg v rem).
Proof.
  revert v. unfold digit_loop. induction rem as [|b r IH]; intros v; simpl; [done|].
  by case_ifs.
Qed.

Lemma expect_defined c msg rem : defined (expect c msg rem).
Proof. unfold expect. destruct rem; [done|]. by case_ifs. Qed.

#[export] Hint Resolve digit_loop_defined expect_defined : p2p.

Lemma parse_int_defined rem : defined (parse_int rem).
Proof.
  unfold parse_int. apply defined_bind; [auto with p2p|]. intros [|c r] _; [done|].
  destruct (if beq c "-" then r else c :: r) as [|c' r']; [done|]. case_ifs; try done.
  all: apply defined_bind; [auto with p2p|]; intros [v r0] _.
  all: apply defined_bind; [auto with p2p|]; done.
Qed.

Lemma parse_string_defined rem : defined (parse_string rem).
Proof.
  unfold parse_string. destruct rem as [|c r]; [done|]. case_ifs; try done.
  apply defined_bind; [auto with p2p|]; intros [v r0] _.
  apply defined_bind; [auto with p2p|]; intros r1 _. by case_ifs.
Qed.

#[export] Hint Resolve parse_int_defined parse_string_defined : p2p.

(** A parser consumes at least one byte. *)
Lemma parse_value_consumes f rem v rest :
  parse_value f rem = Ok (v, rest) → (length rest < length rem)%nat.
Proof.
  intros H. apply parse_sound in H as [-> _]. destruct (encode_head v) as (c & r & -> & _).
  rewrite length_app. simpl. lia.
Qed.

Lemma parse_string_consumes rem s rest :
  parse_string rem = Ok (s, rest) → (length rest < length rem)%nat.
Proof.
  intros H. apply parse_string_ok in H as [-> _].
  unfold enc_string. rewrite !length_app. simpl. lia.
Qed.

Lemma parse_defined fuel :
  (∀ rem, (3 * length rem + 1 ≤ fuel)%nat → defined (parse_value fuel rem)) ∧
  (∀ rem, rem ≠ [] → (3 * length rem ≤ fuel)%nat → defined (parse_list fuel rem)) ∧
  (∀ items rem, (3 * length rem + 2 ≤ fuel)%nat → defined (parse_list_loop fuel items rem)) ∧
  (∀ rem, rem ≠ [] → (3 * length rem ≤ fuel)%nat → defined (parse_dict fuel rem)) ∧
  (∀ dict lk rem, (3 * length rem + 2 ≤ fuel)%nat →
     defined (parse_dict_loop fuel dict lk rem)).
Proof.
  induction fuel as [|f (IHv & IHl & IHll & IHd & IHdl)].
  { split_and!; intros; try lia; destruct rem; simpl in *; done || lia. }
  split_and!.
  - intros rem Hf. simpl. destruct rem as [|c r]; [done|]. simpl in Hf.
    case_ifs; try done; apply defined_bind; auto with p2p; try (by intros []).
    + apply IHl; simpl; [done|lia].
    + apply IHd; simpl; [done|lia].
  - intros rem Hne Hf. simpl. destruct rem as [|c r]; [done|]. simpl in Hf.
    apply defined_bind; [auto with p2p|]. intros r' Hr. apply expect_ok in Hr as [= -> ->].
    apply defined_bind; [apply IHll; lia|]. intros [l r1] _.
    by apply defined_bind; [auto with p2p|].
  - intros items rem Hf. simpl. case_ifs; [done|].
    apply defined_bind; [apply IHv; lia|]. intros [v r] Hv.
    apply parse_value_consumes in Hv. apply IHll. lia.
  - intros rem Hne Hf. simpl. destruct rem as [|c r]; [done|]. simpl in Hf.
    apply defined_bind; [auto with p2p|]. intros r' Hr. apply expect_ok in Hr as [= -> ->].
    apply defined_bind; [apply IHdl; lia|]. intros [l r1] _.
    by apply defined_bind; [auto with p2p|].
  - intros dict lk rem Hf. simpl. case_ifs; [done|].
    apply defined_bind; [auto with p2p|]. intros [k r] Hk. apply parse_string_consumes in Hk.
    destruct (default Gt _); try done.
    apply defined_bind; [apply IHv; lia|]. intros [v r'] Hv.
    apply parse_value_consumes in Hv. apply IHdl. lia.
Qed.

(** [parse] and [encode] are inverse. *)
Lemma parse_ok (input : list byte) (v : BencodeValue) :
  parse input = Ok v ↔ input = encode v ∧ wf_value v.
Proof.
  unfold parse. split.
  - intros H. inv_ok H. destruct x as [v' rest]. case_ifs_in H.
    injection H as ->. subst rest. apply parse_sound in H0 as [-> Hw].
    by rewrite app_nil_r.
  - intros [-> Hw]. rewrite <- (app_nil_r (encode v)) at 2.
    rewrite (parse_value_complete v Hw); [done|]. unfold parse_fuel. lia.
Qed.

Lemma parse_is_defined (input : list byte) : defined (parse input).
Proof.
  unfold parse. apply defined_bind.
  - by apply parse_defined.
  - intros [v rest] _. by case_ifs.
Qed.

(** ** Properties *)

(** C7: the parser and the encoder are inverse: [parse] accepts an input exactly when
    it is the encoding of a well-formed value, and returns that value. So every other
    input, leading zeros, [-0], unsorted or repeated keys, truncated strings and
    trailing bytes included, is rejected, and re-encoding a parsed value gives the
    input back byte for byte. *)
Theorem parse_accepts_canonical (input : list byte) (v : BencodeValue) :
  parse input = Ok v ↔ input = encode v ∧ wf_value v.
Proof. apply parse_ok. Qed.

(** C37: parsing any bytes at all ends, with a value or with one of the parser's
    exceptions: the fuel given to the model is enough for every input, and no input
    reaches undefined behaviour. *)
Theorem parse_total (input : list byte) : defined (parse input).
Proof. apply parse_is_defined. Qed.

(** [parse_int] accumulates the magnitude of a negative number in an [int64_t],
    so the least [int64_t], which [encode] prints, is rejected as an overflow:
    encoding and parsing do not round-trip there. *)
Theorem parse_int_least :
  parse (encode (BInt int64_min)) = Throw (runtime_error "BencodeParser: integer overflow").
Proof. vm_compute. reflexivity. Qed.
