(* ===== verification/Bitfield.v ===== *)
(** * Bitfields: [bitfield.hpp], [bitfield.cpp]

    A bitfield is its number of bits and its bytes, most significant bit first, as
    sent on the wire. Every operation of the class is a definition here. The class
    invariant [wf] (as many bytes as the bits need, padding bits clear) holds of
    both constructors' results and is preserved; under it a bitfield refines a
    finite set of piece indices [pieces]: membership, update, intersection, equality
    and [count] are the set operations. *)

From S2P Require Import Prelude.

Record Bitfield := mk_bitfield { num_bits : Z; bytes : list byte }.

#[export] Instance bitfield_eq_dec : EqDecision Bitfield.
Proof. solve_decision. Defined.

(** [(num_bits + 7) / 8], in [size_t]. *)
Definition num_bytes (n : Z) : Z := u64 (n + 7) / 8.

(** [Bitfield(size_t num_bits)]. *)
Definition make (n : Z) : Bitfield :=
  {| num_bits := n; bytes := replicate (Z.to_nat (num_bytes n)) x00 |}.

(** [std::copy] of [src] over the front of [dst]. *)
Definition copy_front (src dst : list byte) : list byte := src ++ drop (length src) dst.

(** [Bitfield(std::span<const uint8_t> bytes, size_t num_bits)]. *)
Definition of_bytes (src : list byte) (n : Z) : Bitfield :=
  let expected_size := num_bytes n in
  let bytes := replicate (Z.to_nat expected_size) x00 in
  let copy_size := Z.min (zlen src) expected_size in
  let bytes := copy_front (ztake copy_size src) bytes in
  let bytes :=
    if negb (n mod 8 =? 0) && negb (bool_decide (bytes = [])) then
      let mask := z2b (Z.shiftl 255 (8 - n mod 8)) in
      alter (λ b, band b mask) (length bytes - 1)%nat bytes
    else bytes in
  {| num_bits := n; bytes := bytes |}.

Definition bit_offset (index : Z) : Z := 7 - index mod 8.

(** [has]: the byte index is in range under [wf] ([has_in_range]). *)
Definition has (f : Bitfield) (index : Z) : bool :=
  if num_bits f <=? index then false
  else
    let byte := default x00 (znth (bytes f) (index / 8)) in
    negb (Z.land (b2z byte) (Z.shiftl 1 (bit_offset index)) =? 0).

Definition set (f : Bitfield) (index : Z) (val : bool) : Bitfield :=
  if num_bits f <=? index then f
  else
    let byte_idx := index / 8 in
    let byte := default x00 (znth (bytes f) byte_idx) in
    let byte :=
      if val then bor byte (z2b (Z.shiftl 1 (bit_offset index)))
      else band byte (z2b (Z.lnot (Z.shiftl 1 (bit_offset index)))) in
    {| num_bits := num_bits f; bytes := zupd byte_idx byte (bytes f) |}.

(** [while (b) { total += b & 1; b >>= 1; }]; a byte has at most eight rounds. *)
Fixpoint count_byte (fuel : nat) (b total : Z) : Z :=
  match fuel with
  | O => total
  | S f => if b =? 0 then total
           else count_byte f (Z.shiftr b 1) (total + Z.land b 1)
  end.

Definition count (f : Bitfield) : Z :=
  foldl (λ total byte, count_byte 8 (b2z byte) total) 0 (bytes f).

(** [operator&]. *)
Definition inter (f g : Bitfield) : Bitfield :=
  let result := make (Z.min (num_bits f) (num_bits g)) in
  {| num_bits := num_bits result;
     bytes := imap (λ i _, band (default x00 (bytes f !! i)) (default x00 (bytes g !! i)))
                   (bytes result) |}.

(** [operator==]. *)
Definition eqb (f g : Bitfield) : bool :=
  (num_bits f =? num_bits g) && bool_decide (bytes f = bytes g).

(** ** The class invariant *)

(** The bit at [i] of a byte string, most significant bit first. *)
Definition bit (l : list byte) (i : Z) : bool :=
  Z.testbit (b2z (default x00 (znth l (i / 8)))) (bit_offset i).

Definition wf (f : Bitfield) : Prop :=
  0 ≤ num_bits f < 2 ^ 63 ∧ zlen (bytes f) = (num_bits f + 7) / 8 ∧
  ∀ i, num_bits f ≤ i < 8 * zlen (bytes f) → bit (bytes f) i = false.

(** The set of pieces a bitfield stands for. *)
Definition pieces (f : Bitfield) : gset Z :=
  list_to_set (filter (λ i, has f i = true) (seqZ 0 (num_bits f))).

Lemma bit_offset_range i : 0 ≤ bit_offset i < 8.
Proof. unfold bit_offset. pose proof (Z.mod_pos_bound i 8). lia. Qed.
#[local] Hint Resolve bit_offset_range : p2p.

Lemma num_bytes_small n : 0 ≤ n < 2 ^ 63 → num_bytes n = (n + 7) / 8.
Proof. intros. unfold num_bytes. rewrite wrap_small by lia. done. Qed.

Lemma byte_index i n : 0 ≤ i < n → 0 ≤ i / 8 < (n + 7) / 8.
Proof.
  intros. split; [apply Z.div_pos; lia|].
  apply Z.lt_le_trans with ((i + 8) / 8); [|apply Z.div_le_mono; lia].
  replace (i + 8) with (i + 1 * 8) by lia. rewrite Z.div_add by lia. lia.
Qed.

Lemma has_bit f i : has f i = if num_bits f <=? i then false else bit (bytes f) i.
Proof.
  unfold has, bit. case_ifs; [done|]. apply land_bit. pose proof (bit_offset_range i). lia.
Qed.

Lemma has_in_range f i :
  wf f → 0 ≤ i < num_bits f → ∃ b, znth (bytes f) (i / 8) = Some b.
Proof.
  intros (Hn & Hl & _) Hi. apply znth_is_Some. rewrite Hl. by apply byte_index.
Qed.

Lemma has_range f i : has f i = true → i < num_bits f.
Proof. unfold has. intros H. case_ifs_in H. lia. Qed.

Lemma elem_of_pieces f i : i ∈ pieces f ↔ 0 ≤ i < num_bits f ∧ has f i = true.
Proof.
  unfold pieces. rewrite elem_of_list_to_set, list_elem_of_filter, elem_of_seqZ. naive_solver lia.
Qed.

Lemma bit_ext l k :
  zlen l = zlen k → (∀ i, 0 ≤ i < 8 * zlen l → bit l i = bit k i) → l = k.
Proof.
  intros Hlen H. apply znth_ext; [done|]. intros i Hi.
  destruct (znth_is_Some l i Hi) as [a Ha].
  destruct (znth_is_Some k i ltac:(lia)) as [b Hb]. rewrite Ha, Hb. f_equal.
  apply byte_ext. intros j Hj. specialize (H (8 * i + (7 - j)) ltac:(lia)).
  unfold bit in H. replace ((8 * i + (7 - j)) / 8) with i in H.
  - rewrite Ha, Hb in H. simpl in H. unfold bit_offset in H.
    replace ((8 * i + (7 - j)) mod 8) with (7 - j) in H.
    + by replace (7 - (7 - j)) with j in H by lia.
    + rewrite Z.add_comm, Z.mul_comm, Z_mod_plus_full, Z.mod_small; lia.
  - rewrite Z.add_comm, Z.mul_comm, Z.div_add, Z.div_small; lia.
Qed.

(** Two bitfields over as many bits are equal when they have the same pieces. *)
Lemma wf_ext f g :
  wf f → wf g → num_bits f = num_bits g →
  (∀ i, 0 ≤ i < num_bits f → has f i = has g i) → f = g.
Proof.
  intros (Hn & Hl & Hp) (Hn' & Hl' & Hp') En H.
  destruct f as [n l], g as [n' k]; simpl in *; subst n'. f_equal.
  apply bit_ext; [lia|]. intros i Hi. destruct (decide (i < n)).
  - specialize (H i ltac:(lia)). rewrite !has_bit in H. simpl in H.
    by rewrite (proj2 (Z.leb_gt n i)) in H by lia.
  - rewrite Hp, Hp' by lia. done.
Qed.

(** ** Construction *)

Lemma bit_out l i : zlen l ≤ i / 8 → bit l i = false.
Proof.
  intros H. unfold bit, znth, zlen in *. case_ifs; [lia|].
  rewrite lookup_ge_None_2 by lia. apply Z.testbit_0_l.
Qed.

Lemma bit_make n i : bit (bytes (make n)) i = false.
Proof.
  unfold bit, make. simpl. rewrite znth_replicate. case_ifs; apply Z.testbit_0_l.
Qed.

Lemma has_make n i : has (make n) i = false.
Proof. rewrite has_bit, bit_make. by case_ifs. Qed.

Lemma num_bytes_nonneg n : 0 ≤ num_bytes n.
Proof. unfold num_bytes. apply Z.div_pos; [|lia]. apply wrap_range. lia. Qed.

Lemma wf_make n : 0 ≤ n < 2 ^ 63 → wf (make n).
Proof.
  intros Hn. split_and!; simpl; try lia.
  - rewrite zlen_replicate by apply num_bytes_nonneg. by apply num_bytes_small.
  - intros. apply bit_make.
Qed.

Lemma copy_front_len src dst :
  zlen src ≤ zlen dst → zlen (copy_front src dst) = zlen dst.
Proof.
  unfold copy_front, zlen. rewrite length_app, length_drop. lia.
Qed.

(** The bytes before the padding is masked. *)
Lemma bit_copied src n i :
  0 ≤ i < 8 * num_bytes n →
  bit (copy_front (ztake (Z.min (zlen src) (num_bytes n)) src)
         (replicate (Z.to_nat (num_bytes n)) x00)) i = bit src i.
Proof.
  intros Hi. pose proof (num_bytes_nonneg n) as Hb. pose proof (zlen_nonneg src).
  assert (0 ≤ i / 8 < num_bytes n).
  { split; [apply Z.div_pos; lia|]. apply Z.div_lt_upper_bound; lia. }
  unfold bit, copy_front. rewrite znth_app, znth_ztake, zlen_ztake by lia.
  destruct (Z.ltb_spec (i / 8) (Z.min (zlen src) (num_bytes n))); [done|].
  destruct (znth src (i / 8)) eqn:E; [apply znth_Some in E; lia|].
  f_equal. f_equal.
  rewrite drop_replicate. unfold znth. case_ifs; [done|]. simpl.
  rewrite lookup_replicate_2; [done|].
  unfold ztake, zlen in *. rewrite length_take. lia.
Qed.

Lemma zlen_alter (g : byte → byte) i l : zlen (alter g i l) = zlen l.
Proof. unfold zlen. by rewrite length_alter. Qed.

Lemma testbit_pad_mask m j :
  0 ≤ m ≤ 8 → 0 ≤ j < 8 → Z.testbit (b2z (z2b (Z.shiftl 255 m))) j = (m <=? j).
Proof.
  intros Hm Hj. rewrite testbit_z2b, Z.shiftl_spec by lia.
  destruct (Z.leb_spec m j).
  - change 255 with (Z.ones 8). apply Z.ones_spec_low. lia.
  - apply Z.testbit_neg_r. lia.
Qed.

Lemma bit_of_bytes src n i :
  0 ≤ n < 2 ^ 63 → 0 ≤ i < 8 * num_bytes n →
  bit (bytes (of_bytes src n)) i = (i <? n) && bit src i.
Proof.
  intros Hn Hi. rewrite <- (bit_copied src n i) by done.
  pose proof (num_bytes_small n Hn) as Hb. rewrite Hb in Hi. unfold of_bytes.
  set (l := copy_front _ _).
  assert (zlen l = (n + 7) / 8) as Hl.
  { unfold l. rewrite copy_front_len; rewrite zlen_replicate by apply num_bytes_nonneg; [done|].
    unfold ztake, zlen. rewrite length_take. pose proof (num_bytes_nonneg n). lia. }
  pose proof (Z.div_mod (n + 7) 8 ltac:(lia)). pose proof (Z.mod_pos_bound (n + 7) 8 ltac:(lia)).
  pose proof (Z.div_mod n 8 ltac:(lia)). pose proof (Z.mod_pos_bound n 8 ltac:(lia)).
  pose proof (Z.div_mod i 8 ltac:(lia)). pose proof (Z.mod_pos_bound i 8 ltac:(lia)).
  destruct (Z.eqb_spec (n mod 8) 0) as [E|E]; simpl.
  { rewrite (proj2 (Z.ltb_lt i n)) by lia. done. }
  rewrite bool_decide_eq_false_2 by (intros ->; unfold zlen in *; simpl in *; lia). simpl.
  destruct (decide (i / 8 = zlen l - 1)) as [El|Hne].
  - assert (∃ b, znth l (i / 8) = Some b) as [b Hbt] by (apply znth_is_Some; lia).
    assert (bit (alter (λ b, band b (z2b (Z.shiftl 255 (8 - n mod 8)))) (length l - 1)%nat l) i =
            Z.testbit (b2z (band b (z2b (Z.shiftl 255 (8 - n mod 8))))) (bit_offset i)) as ->.
    { unfold bit. unfold znth in *. rewrite (proj2 (Z.ltb_ge _ _)) in * by lia.
      replace (length l - 1)%nat with (Z.to_nat (i / 8)) by (unfold zlen in *; lia).
      by rewrite list_lookup_alter_eq, Hbt. }
    rewrite testbit_band by apply bit_offset_range. unfold bit at 1. rewrite Hbt. simpl.
    rewrite testbit_pad_mask by (apply bit_offset_range || lia). unfold bit_offset.
    rewrite andb_comm. f_equal. apply eq_true_iff_eq. rewrite Z.leb_le, Z.ltb_lt. lia.
  - rewrite (proj2 (Z.ltb_lt i n)) by lia. simpl. unfold bit, znth.
    case_ifs; [done|]. rewrite list_lookup_alter_ne; [done|].
    unfold zlen in *. lia.
Qed.

Lemma zlen_of_bytes src n :
  0 ≤ n < 2 ^ 63 → zlen (bytes (of_bytes src n)) = (n + 7) / 8.
Proof.
  intros Hn. rewrite <- (num_bytes_small n) by done. pose proof (num_bytes_nonneg n).
  pose proof (zlen_nonneg src). unfold of_bytes. simpl. case_ifs; rewrite ?zlen_alter;
    rewrite copy_front_len; rewrite zlen_replicate by done; auto;
    rewrite zlen_ztake; lia.
Qed.

Lemma wf_of_bytes src n : 0 ≤ n < 2 ^ 63 → wf (of_bytes src n).
Proof.
  intros Hn. split_and!; try (simpl; lia).
  - simpl num_bits. by apply zlen_of_bytes.
  - intros i Hi. rewrite zlen_of_bytes in Hi by done. simpl num_bits in Hi.
    rewrite bit_of_bytes by (rewrite ?num_bytes_small; done || lia).
    by rewrite (proj2 (Z.ltb_ge i n)) by lia.
Qed.

Lemma has_of_bytes src n i :
  0 ≤ n < 2 ^ 63 → 0 ≤ i → has (of_bytes src n) i = (i <? n) && bit src i.
Proof.
  intros Hn Hi. rewrite has_bit. simpl num_bits. rewrite Z.ltb_antisym.
  destruct (Z.leb_spec n i); [done|]. rewrite bit_of_bytes.
  - by rewrite (proj2 (Z.ltb_lt i n)) by lia.
  - done.
  - rewrite num_bytes_small by done. pose proof (byte_index i n).
    pose proof (Z.div_mod i 8). pose proof (Z.mod_pos_bound i 8). lia.
Qed.

(** ** Update and intersection *)

Lemma same_byte i j : i ≠ j → i / 8 = j / 8 → bit_offset i ≠ bit_offset j.
Proof.
  unfold bit_offset. intros. pose proof (Z.div_mod i 8). pose proof (Z.div_mod j 8). lia.
Qed.

Lemma bit_set f i j v :
  wf f → 0 ≤ i < num_bits f →
  bit (bytes (set f i v)) j = if decide (i = j) then v else bit (bytes f) j.
Proof.
  intros Hf Hi. destruct (has_in_range f i Hf Hi) as [b Hb].
  pose proof (bit_offset_range i) as Hoi. pose proof (bit_offset_range j) as Hoj.
  unfold set. rewrite (proj2 (Z.leb_gt _ _)) by lia. rewrite Hb. unfold bit. simpl.
  rewrite znth_zupd by by eapply znth_Some. destruct (decide (i / 8 = j / 8)) as [E|E].
  - simpl. rewrite <- E, Hb. simpl.
    assert (i = j ∧ bit_offset i = bit_offset j ∨ i ≠ j ∧ bit_offset j ≠ bit_offset i)
      as [[-> _]|[Hne Ho]].
    { destruct (decide (i = j)) as [->|]; [by left|right].
      split; [done|]. by apply not_eq_sym, same_byte. }
    + rewrite decide_True by done. destruct v; [rewrite testbit_bor by lia|rewrite testbit_band by lia];
        rewrite ?testbit_z2b, ?Z.lnot_spec, testbit_shiftl1, Z.eqb_refl by lia; simpl;
        by rewrite ?orb_true_r, ?andb_false_r.
    + rewrite decide_False by done. destruct v; [rewrite testbit_bor by lia|rewrite testbit_band by lia];
        rewrite ?testbit_z2b, ?Z.lnot_spec, testbit_shiftl1 by lia;
        rewrite (proj2 (Z.eqb_neq _ _)) by done; simpl;
        by rewrite ?orb_false_r, ?andb_true_r.
  - rewrite decide_False by congruence. done.
Qed.

Lemma num_bits_set f i v : num_bits (set f i v) = num_bits f.
Proof. unfold set. by case_ifs. Qed.

Lemma set_out f i v : num_bits f ≤ i → set f i v = f.
Proof. intros. unfold set. by rewrite (proj2 (Z.leb_le _ _)) by lia. Qed.

Lemma has_set f i j v :
  wf f → 0 ≤ i →
  has (set f i v) j = if decide (i = j ∧ i < num_bits f) then v else has f j.
Proof.
  intros Hf Hi. destruct (decide (i < num_bits f)).
  - rewrite !has_bit, num_bits_set, bit_set by lia || done.
    destruct (decide (i = j)) as [->|].
    + by rewrite (proj2 (Z.leb_gt _ _)), decide_True by lia.
    + by rewrite decide_False by naive_solver.
  - rewrite set_out, decide_False by lia. done.
Qed.

Lemma wf_set f i v : wf f → 0 ≤ i → wf (set f i v).
Proof.
  intros Hf Hi. destruct (decide (i < num_bits f)) as [Hlt|Hge].
  - split_and!; rewrite ?num_bits_set; try apply Hf.
    + unfold set. rewrite (proj2 (Z.leb_gt _ _)) by lia. simpl. rewrite zlen_zupd. apply Hf.
    + intros j Hj. rewrite bit_set, decide_False by (done || lia). apply Hf.
      unfold set in Hj. rewrite (proj2 (Z.leb_gt _ _)) in Hj by lia. simpl in Hj.
      by rewrite zlen_zupd in Hj.
  - unfold set. rewrite (proj2 (Z.leb_le _ _)) by lia. done.
Qed.

Lemma bit_inter f g i :
  0 ≤ i < 8 * zlen (bytes (inter f g)) →
  bit (bytes (inter f g)) i = bit (bytes f) i && bit (bytes g) i.
Proof.
  intros Hi. assert (0 ≤ i / 8 < zlen (bytes (inter f g))) as Hd.
  { split; [apply Z.div_pos; lia|apply Z.div_lt_upper_bound; lia]. }
  unfold bit. rewrite <- testbit_band by apply bit_offset_range.
  f_equal. f_equal. unfold znth. rewrite (proj2 (Z.ltb_ge _ _)) by lia.
  unfold inter, zlen in *. simpl in *. rewrite length_imap in Hd.
  rewrite list_lookup_imap. destruct (replicate _ _ !! _) eqn:E; [done|].
  apply lookup_ge_None in E. lia.
Qed.

Lemma wf_inter f g : wf f → wf g → wf (inter f g).
Proof.
  intros (Hf & Lf & Pf) (Hg & Lg & Pg).
  assert (zlen (bytes (inter f g)) = (Z.min (num_bits f) (num_bits g) + 7) / 8) as Hl.
  { unfold inter, zlen. simpl. rewrite length_imap.
    rewrite <- num_bytes_small by lia. pose proof (num_bytes_nonneg (num_bits f `min` num_bits g)).
    rewrite length_replicate. lia. }
  split_and!; try (simpl; lia); [done|]. intros i Hi. simpl num_bits in Hi.
  rewrite bit_inter by lia. rewrite Hl in Hi.
  destruct (Z.min_spec (num_bits f) (num_bits g)) as [[Hlt E]|[Hlt E]]; rewrite E in Hi.
  - rewrite Pf by lia. done.
  - rewrite (Pg i) by lia. apply andb_false_r.
Qed.

Lemma has_inter f g i :
  wf f → wf g → 0 ≤ i → has (inter f g) i = has f i && has g i.
Proof.
  intros Hf Hg Hi. pose proof (wf_inter f g Hf Hg) as (_ & Hl & _).
  rewrite !has_bit. simpl num_bits.
  destruct (Z.leb_spec (Z.min (num_bits f) (num_bits g)) i).
  - destruct (Z.leb_spec (num_bits f) i); [done|].
    rewrite (proj2 (Z.leb_le (num_bits g) i)) by lia. by rewrite andb_false_r.
  - rewrite !(proj2 (Z.leb_gt _ _)) by lia. apply bit_inter. rewrite Hl. simpl num_bits.
    pose proof (byte_index i (Z.min (num_bits f) (num_bits g)) ltac:(lia)).
    pose proof (Z.div_mod i 8). pose proof (Z.mod_pos_bound i 8). lia.
Qed.

(** ** Counting *)

Lemma count_byte_bits b total :
  count_byte 8 (b2z b) total =
  total + zlen (filter (λ k, Z.testbit (b2z b) (7 - k) = true) (seqZ 0 8)).
Proof.
  cut (count_byte 8 (b2z b) 0 =
       zlen (filter (λ k, Z.testbit (b2z b) (7 - k) = true) (seqZ 0 8))).
  - intros <-. assert (∀ f n t, count_byte f n t = t + count_byte f n 0) as H.
    { induction f as [|f IH]; intros n t; simpl; [lia|]. case_ifs; [lia|].
      rewrite IH, (IH _ (Z.land n 1)). lia. }
    apply H.
  - by destruct b; vm_compute.
Qed.

Lemma bit_cons b l i : 0 ≤ i → bit (b :: l) (8 + i) = bit l i.
Proof.
  intros. unfold bit, bit_offset. replace (8 + i) with (i + 1 * 8) by lia.
  rewrite Z.div_add, Z_mod_plus_full by lia. unfold znth.
  assert (0 ≤ i / 8) by (apply Z.div_pos; lia).
  rewrite !(proj2 (Z.ltb_ge _ _)), Z2Nat.inj_add by lia.
  by rewrite Nat.add_comm.
Qed.

Lemma count_bits l total :
  foldl (λ total byte, count_byte 8 (b2z byte) total) total l =
  total + zlen (filter (λ i, bit l i = true) (seqZ 0 (8 * zlen l))).
Proof.
  revert total. induction l as [|b l IH]; intros total; [simpl; unfold zlen; simpl; lia|].
  cbn [foldl]. rewrite IH, count_byte_bits, zlen_cons.
  pose proof (zlen_nonneg l).
  replace (8 * (zlen l + 1)) with (8 + 8 * zlen l) by lia.
  rewrite seqZ_app, filter_app, zlen_app by lia. rewrite <- Z.add_assoc.
  (* the first eight bits agree by computation *)
  f_equal. f_equal.
  change (0 + 8) with (8 + 0). rewrite <- fmap_add_seqZ. unfold zlen.
  rewrite list_filter_fmap, length_fmap. do 2 f_equal.
  apply filter_ext. intros i Hi%elem_of_seqZ. simpl. by rewrite bit_cons by lia.
Qed.

Lemma count_pieces f : wf f → count f = Z.of_nat (size (pieces f)).
Proof.
  intros (Hn & Hl & Hp). unfold count. rewrite count_bits.
  unfold pieces. rewrite size_list_to_set by (apply NoDup_filter, NoDup_seqZ).
  rewrite Z.add_0_l. unfold zlen at 1. f_equal. f_equal.
  assert (num_bits f ≤ 8 * zlen (bytes f)).
  { rewrite Hl. pose proof (Z.div_mod (num_bits f + 7) 8).
    pose proof (Z.mod_pos_bound (num_bits f + 7) 8). lia. }
  replace (8 * zlen (bytes f)) with (num_bits f + (8 * zlen (bytes f) - num_bits f)) by lia.
  rewrite seqZ_app, filter_app by lia.
  rewrite (filter_ext (λ i, bit (bytes f) i = true) (λ i, has f i = true)).
  - rewrite (filter_ext (λ i, bit (bytes f) i = true) (λ _, False)).
    + assert (∀ k : list Z, filter (λ _, False) k = []) as -> by (by induction k).
      apply app_nil_r.
    + intros i Hi%elem_of_seqZ. rewrite Hp by lia. done.
  - intros i Hi%elem_of_seqZ. by rewrite has_bit, (proj2 (Z.leb_gt _ _)) by lia.
Qed.

Lemma bit_out_neg f i : wf f → i < 0 → i ∉ pieces f.
Proof. intros _ Hi [? _]%elem_of_pieces. lia. Qed.

Lemma has_elem f i : wf f → 0 ≤ i → has f i = true ↔ i ∈ pieces f.
Proof. intros _ Hi. rewrite elem_of_pieces. pose proof (has_range f i). naive_solver lia. Qed.

Lemma pieces_set f i v :
  wf f → 0 ≤ i < num_bits f →
  pieces (set f i v) = if v then {[i]} ∪ pieces f else pieces f ∖ {[i]}.
Proof.
  intros Hf Hi. apply set_eq. intros j. rewrite elem_of_pieces, num_bits_set, has_set by lia || done.
  pose proof (elem_of_pieces f j). destruct v; case_decide; set_solver by lia.
Qed.

Lemma pieces_inter f g : wf f → wf g → pieces (inter f g) = pieces f ∩ pieces g.
Proof.
  intros Hf Hg. apply set_eq. intros j. rewrite elem_of_intersection, !elem_of_pieces.
  simpl num_bits. split.
  - intros [Hj H]. rewrite has_inter, andb_true_iff in H by done || lia. naive_solver lia.
  - intros [[Hj H] [Hj' H']]. rewrite has_inter, H, H' by done || lia. split; [lia|done].
Qed.

Lemma eqb_pieces f g :
  wf f → wf g → num_bits f = num_bits g → eqb f g = bool_decide (pieces f = pieces g).
Proof.
  intros Hf Hg En. unfold eqb. apply eq_true_iff_eq.
  rewrite andb_true_iff, Z.eqb_eq, !bool_decide_eq_true. split.
  - intros [_ Eb]. destruct f, g; simpl in *; congruence.
  - intros Ep. split; [done|]. f_equal. apply wf_ext; auto. intros i Hi.
    apply eq_true_iff_eq. rewrite !has_elem by (done || lia). by rewrite Ep.
Qed.

(** ** Properties *)

(** C26: under the class invariant a bitfield behaves as the set of its pieces:
    [set] adds or removes one piece (and does nothing past the end), [operator&] is
    intersection, also between bitfields of different sizes, [count] is the size of
    the set and [operator==] compares the sets; and the invariant survives. *)
Theorem bitfield_refines_set (f g : Bitfield) (i : Z) :
  wf f → wf g → 0 ≤ i →
  (has f i = true ↔ i ∈ pieces f) ∧
  pieces (set f i true) = (if i <? num_bits f then {[i]} ∪ pieces f else pieces f) ∧
  pieces (set f i false) = pieces f ∖ {[i]} ∧
  pieces (inter f g) = pieces f ∩ pieces g ∧
  count f = Z.of_nat (size (pieces f)) ∧
  (num_bits f = num_bits g → eqb f g = bool_decide (pieces f = pieces g)) ∧
  (∀ v, wf (set f i v)) ∧ wf (inter f g).
Proof.
  intros Hf Hg Hi. split_and!;
    auto using has_elem, pieces_inter, count_pieces, eqb_pieces, wf_set, wf_inter.
  - destruct (Z.ltb_spec i (num_bits f)); [by rewrite pieces_set by (done || lia)|].
    by rewrite set_out by lia.
  - destruct (decide (i < num_bits f)).
    + by rewrite pieces_set by (done || lia).
    + rewrite set_out by lia. pose proof (elem_of_pieces f i). set_solver by lia.
Qed.

Lemma bitfield_refines_set_witness :
  let f := of_bytes [x81; xff] 12 in let g := of_bytes [x80; x30] 16 in
  pieces (inter f g) = {[0; 11; 10]} ∧ count (set f 3 true) = 7.
Proof.
  intros f g.
  assert (wf f ∧ wf g) as [Hf Hg] by (split; apply wf_of_bytes; lia).
  destruct (bitfield_refines_set f g 3 Hf Hg ltac:(lia)) as (_ & _ & _ & Hi & _).
  split; [rewrite Hi|]; vm_compute; reflexivity.
Defined.

(** A bitfield built from bytes off the wire has exactly the pieces whose bit,
    most significant bit first, is set among the first [n]: missing bytes count as
    clear, surplus bytes and padding bits are dropped. It satisfies the class
    invariant, and the bytes of a bitfield read back as the same bitfield. *)
Theorem bitfield_wire (src : list byte) (n : Z) (f : Bitfield) :
  0 ≤ n < 2 ^ 63 → wf f →
  wf (of_bytes src n) ∧
  (∀ i, 0 ≤ i → has (of_bytes src n) i = (i <? n) && bit src i) ∧
  of_bytes (bytes f) (num_bits f) = f.
Proof.
  intros Hn Hf. split_and!; auto using wf_of_bytes, has_of_bytes.
  pose proof Hf as (Hnf & _ & _). apply wf_ext; auto using wf_of_bytes.
  intros i Hi. simpl in Hi. rewrite has_of_bytes, has_bit by lia.
  by rewrite (proj2 (Z.ltb_lt _ _)), (proj2 (Z.leb_gt _ _)) by lia.
Qed.

Lemma bitfield_wire_witness :
  has (of_bytes [xa5; xff] 10) 9 = true ∧ has (of_bytes [xa5; xff] 10) 10 = false ∧
  of_bytes (bytes (set (make 10) 9 true)) 10 = set (make 10) 9 true.
Proof.
  assert (wf (set (make 10) 9 true)) as Hf by (apply wf_set, Z.le_0_2; apply wf_make; lia).
  destruct (bitfield_wire [xa5; xff] 10 _ ltac:(lia) Hf) as (_ & Hh & Hr).
  rewrite !Hh by lia. split_and!; [reflexivity|reflexivity|exact Hr].
Defined.
