(* ===== verification/Hasher.v ===== *)
(** * SHA-1: [hasher.hpp], [hasher.cpp]

    The digest itself is Crypto++'s, a library the sources call: it is the interface
    [CryptoSHA1], with the laws its documentation states in [CryptoSHA1Laws] (an
    object digests what it absorbed since it was made, restarted or finalised).
    [SHA1Hasher] is modelled against it. Components that only hash whole buffers take
    [sha1]. *)

From S2P Require Import Prelude.

(** [CryptoPP::SHA1]. *)
Class CryptoSHA1 := {
  SHA1 : Type;
  new_SHA1 : SHA1;
  Update : SHA1 → list byte → SHA1;
  Final : SHA1 → list byte * SHA1;
  Restart : SHA1 → SHA1;
  CalculateDigest : list byte → list byte;
}.

Class CryptoSHA1Laws (C : CryptoSHA1) := {
  absorbed : SHA1 → list byte;
  absorbed_new : absorbed new_SHA1 = [];
  absorbed_update s d : absorbed (Update s d) = absorbed s ++ d;
  absorbed_restart s : absorbed (Restart s) = [];
  final_digest s : (Final s).1 = CalculateDigest (absorbed s);
  final_restarts s : absorbed (Final s).2 = [];
  digest_length d : length (CalculateDigest d) = 20%nat;
}.

Section Hasher.
Context `{C : CryptoSHA1}.

(** [SHA1Hasher] owns one digest object. *)
Record SHA1Hasher := { impl : SHA1 }.

Definition make : SHA1Hasher := {| impl := new_SHA1 |}.

(** The two [hash] overloads. *)
Definition hash (data : list byte) : list byte := CalculateDigest data.

Definition update (h : SHA1Hasher) (data : list byte) : SHA1Hasher :=
  {| impl := Update (impl h) data |}.

Definition finalize (h : SHA1Hasher) : list byte * SHA1Hasher :=
  let '(digest, impl) := Final (impl h) in (digest, {| impl := impl |}).

Definition reset (h : SHA1Hasher) : SHA1Hasher := {| impl := Restart (impl h) |}.

(** [update] on each chunk in turn. *)
Definition updates (h : SHA1Hasher) (chunks : list (list byte)) : SHA1Hasher :=
  foldl update h chunks.

Context `{!CryptoSHA1Laws C}.

Lemma absorbed_updates h chunks :
  absorbed (impl (updates h chunks)) = absorbed (impl h) ++ concat chunks.
Proof.
  revert h. induction chunks as [|c cs IH]; intros h; simpl; [by rewrite app_nil_r|].
  rewrite IH. simpl. by rewrite absorbed_update, app_assoc.
Qed.

(** The incremental interface computes the one-shot digest of the concatenation,
    however the data is cut, from a new hasher, after [reset] and after a
    [finalize]. *)
Lemma incremental_hash (h : SHA1Hasher) (chunks : list (list byte)) :
  (finalize (updates make chunks)).1 = hash (concat chunks) ∧
  (finalize (updates (reset h) chunks)).1 = hash (concat chunks) ∧
  (finalize (updates (finalize h).2 chunks)).1 = hash (concat chunks).
Proof.
  assert (∀ h', absorbed (impl h') = [] →
                (finalize (updates h' chunks)).1 = hash (concat chunks)) as H.
  { intros h' E. unfold finalize. pose proof (final_digest (impl (updates h' chunks))) as Ef.
    destruct (Final _); simpl in *. by rewrite Ef, absorbed_updates, E. }
  split_and!; apply H; simpl; auto using absorbed_new, absorbed_restart.
  pose proof (final_restarts (impl h)) as Er. unfold finalize. by destruct (Final _).
Qed.
End Hasher.

(** A toy instance of the interface, a counter of the bytes, for witnesses: it obeys
    the laws, and any bytes that carry their own length as digest verify. *)
Definition toy_digest (d : list byte) : list byte := z2b (zlen d) :: replicate 19 x00.

#[export] Instance toy_sha1 : CryptoSHA1 := {
  SHA1 := list byte;
  new_SHA1 := [];
  Update := app;
  Final s := (toy_digest s, []);
  Restart _ := [];
  CalculateDigest := toy_digest;
}.

#[export] Instance toy_sha1_laws : CryptoSHA1Laws toy_sha1.
Proof. by refine {| absorbed := λ s : @SHA1 toy_sha1, s |}. Defined.
