(* ===== verification/Torrent.v ===== *)
(** * Torrent files: [torrent.hpp], [torrent.cpp]

    [TorrentMetadata::from_bencode]: the root dictionary is walked with the parser's
    [parse_string] and [parse_value], the bytes of the [info] value are kept for the
    info hash, then the fields of [info] are extracted and checked. Arithmetic on
    lengths is [int64_t]: overflow and the division by [piece_length] are undefined
    behaviour where the source does not guard them. *)

From S2P Require Import Prelude StdString Bencode Hasher.

Record FileInfo := mk_file { path : list byte; length : Z; offset : Z }.

Record TorrentMetadata := mk_torrent {
  name : list byte;
  announce_url : list byte;
  announce_list : list (list byte);
  piece_length : Z;
  total_length : Z;
  num_pieces : Z;
  piece_hashes : list (list byte);
  files : list FileInfo;
  info_hash : list byte;
}.

(** [BencodeParser::parse_value] on a span, with the fuel that is enough for it. *)
Definition parse_next (remaining : list byte) : outcome (BencodeValue * list byte) :=
  parse_value (parse_fuel remaining) remaining.

(** The local variables of the loop over the root dictionary. *)
Record Root := mk_root {
  r_announce_url : list byte;
  r_announce_list : list (list byte);
  r_info_val : BencodeValue;
  r_info_span : list byte;
}.

Definition root_init : Root := mk_root [] [] (BInt 0) [].

(** The strings of the tiers of ["announce-list"], empty ones dropped, anything that
    is not a list of lists of strings ignored. *)
Definition collect_trackers (val : BencodeValue) : list (list byte) :=
  match val with
  | BList tiers =>
      tiers ≫= λ tier,
        match tier with
        | BList trackers =>
            trackers ≫= λ tracker,
              match tracker with
              | BString s => if bool_decide (s = []) then [] else [s]
              | _ => []
              end
        | _ => []
        end
  | _ => []
  end.

(** One key of the root dictionary, its value next in [remaining]. *)
Definition root_entry (key : list byte) (st : Root) (remaining : list byte)
    : outcome (Root * list byte) :=
  if bool_decide (key = bs "announce") then
    '(val, remaining) ← parse_next remaining;
    match val with
    | BString s =>
        Ok (mk_root s (r_announce_list st) (r_info_val st) (r_info_span st), remaining)
    | _ => Throw (runtime_error "TorrentMetadata: 'announce' must be a string")
    end
  else if bool_decide (key = bs "announce-list") then
    '(val, remaining) ← parse_next remaining;
    Ok (mk_root (r_announce_url st) (r_announce_list st ++ collect_trackers val)
          (r_info_val st) (r_info_span st), remaining)
  else if bool_decide (key = bs "info") then
    '(val, rest) ← parse_next remaining;
    let info_span := ztake (zlen remaining - zlen rest) remaining in
    Ok (mk_root (r_announce_url st) (r_announce_list st) val info_span, rest)
  else
    '(_, remaining) ← parse_next remaining; Ok (st, remaining).

Fixpoint root_loop (fuel : nat) (st : Root) (last_key : option (list byte))
    (remaining : list byte) : outcome (Root * list byte) :=
  match fuel with
  | O => Fuel
  | S f =>
      if at_end remaining then Ok (st, remaining)
      else
        '(key, remaining) ← parse_string remaining;
        match default Gt (bytes_compare key <$> last_key) with
        | Eq => Throw (runtime_error "TorrentMetadata: duplicate key in root dictionary")
        | Lt => Throw (runtime_error
                  "TorrentMetadata: root dictionary keys not sorted lexicographically")
        | Gt =>
            '(st, remaining) ← root_entry key st remaining;
            root_loop f st (Some key) remaining
        end
  end.

(** [info_dict.find(key)] for a key whose value must be an integer, a string. *)
Definition find_int (key : string) (err : string) (d : BencodeDict) : outcome Z :=
  match dict_find (bs key) d with
  | Some (BInt i) => Ok i
  | _ => Throw (runtime_error err)
  end.
Definition find_string (key : string) (err : string) (d : BencodeDict) : outcome (list byte) :=
  match dict_find (bs key) d with
  | Some (BString s) => Ok s
  | _ => Throw (runtime_error err)
  end.

(** The 20-byte slices of ["pieces"]. *)
Definition split_hashes (pieces_str : list byte) : list (list byte) :=
  (λ i, ztake 20 (zdrop (i * 20) pieces_str)) <$> seqZ 0 (zlen pieces_str / 20).

(** The segments of a path joined with ["/"]; [first] is [i == 0]. *)
Fixpoint join_path (first : bool) (path_str : list byte) (segments : list BencodeValue)
    : outcome (list byte) :=
  match segments with
  | [] => Ok path_str
  | BString s :: r =>
      join_path false ((if first then path_str else path_str ++ bs "/") ++ s) r
  | _ :: _ => Throw (runtime_error "TorrentMetadata: path segment must be a string")
  end.

(** The loop over ["files"]. *)
Fixpoint files_loop (current_offset : Z) (files : list FileInfo) (vals : list BencodeValue)
    : outcome (list FileInfo * Z) :=
  match vals with
  | [] => Ok (files, current_offset)
  | BDict file_dict :: r =>
      length ← find_int "length"
        "TorrentMetadata: missing or invalid file length in multi-file list" file_dict;
      path_list ←
        match dict_find (bs "path") file_dict with
        | Some (BList l) => Ok l
        | _ => Throw (runtime_error
                 "TorrentMetadata: missing or invalid file path in multi-file list")
        end;
      path_str ← join_path true [] path_list;
      let files := files ++ [mk_file path_str length current_offset] in
      current_offset ← i64_add current_offset length;
      files_loop current_offset files r
  | _ :: _ => Throw (runtime_error
                "TorrentMetadata: each element in 'files' must be a dictionary")
  end.

(** The file layout and the total length, from the multi-file or the single-file
    form of [info]. *)
Definition parse_files (name : list byte) (info_dict : BencodeDict)
    : outcome (list FileInfo * Z) :=
  match dict_find (bs "files") info_dict with
  | Some (BList files_list) => files_loop 0 [] files_list
  | Some _ => Throw (runtime_error
                "TorrentMetadata: 'files' must be a list in multi-file torrent")
  | None =>
      length ← find_int "length"
        "TorrentMetadata: missing or invalid 'length' in single-file torrent" info_dict;
      Ok ([mk_file name length 0], length)
  end.

Section Torrent.
Context `{C : CryptoSHA1}.

(** From the root dictionary's values to the metadata. *)
Definition build (st : Root) : outcome TorrentMetadata :=
  if bool_decide (r_announce_url st = []) then
    Throw (runtime_error "TorrentMetadata: missing 'announce' URL")
  else
    info_dict ← match r_info_val st with
                | BDict d => Ok d
                | _ => Throw (runtime_error
                         "TorrentMetadata: missing or invalid 'info' dictionary")
                end;
    piece_length ← find_int "piece length"
      "TorrentMetadata: missing or invalid 'piece length'" info_dict;
    name ← find_string "name" "TorrentMetadata: missing or invalid 'name'" info_dict;
    pieces_str ← find_string "pieces"
      "TorrentMetadata: missing or invalid 'pieces'" info_dict;
    if negb (zlen pieces_str mod 20 =? 0) then
      Throw (runtime_error
        "TorrentMetadata: 'pieces' string size must be a multiple of 20")
    else
      let num_pieces := zlen pieces_str / 20 in
      let piece_hashes := split_hashes pieces_str in
      '(files, total_length) ← parse_files name info_dict;
      sum ← i64_add total_length piece_length;
      sum ← i64_sub sum 1;
      calculated_pieces ← i64_div sum piece_length;
      if negb (calculated_pieces =? num_pieces) then
        Throw (runtime_error
          "TorrentMetadata: mismatch between piece count and total length")
      else
        let info_hash :=
          if bool_decide (r_info_span st = []) then replicate 20 x00
          else CalculateDigest (r_info_span st) in
        let announce_list :=
          if bool_decide (r_announce_list st = []) then [r_announce_url st]
          else r_announce_list st in
        Ok (mk_torrent name (r_announce_url st) announce_list piece_length total_length
              (i32 num_pieces) piece_hashes files info_hash).

(** [TorrentMetadata::from_bencode]. Each round of the loop consumes a byte. *)
Definition from_bencode (torrent_data : list byte) : outcome TorrentMetadata :=
  remaining ← expect "d" "TorrentMetadata: root of torrent file must be a dictionary"
    torrent_data;
  '(st, remaining) ← root_loop (S (List.length remaining)) root_init None remaining;
  remaining ← expect "e" "TorrentMetadata: expected 'e' at end of root dictionary" remaining;
  if negb (bool_decide (remaining = [])) then
    Throw (runtime_error "TorrentMetadata: extra data at end of input")
  else build st.
End Torrent.

(** ** The walk over the root dictionary is a parse of it *)

Definition root_step (st : Root) (kv : list byte * BencodeValue) : Root :=
  let '(key, val) := kv in
  if bool_decide (key = bs "announce") then
    mk_root (default [] (match val with BString s => Some s | _ => None end))
      (r_announce_list st) (r_info_val st) (r_info_span st)
  else if bool_decide (key = bs "announce-list") then
    mk_root (r_announce_url st) (r_announce_list st ++ collect_trackers val)
      (r_info_val st) (r_info_span st)
  else if bool_decide (key = bs "info") then
    mk_root (r_announce_url st) (r_announce_list st) val (encode val)
  else st.

Lemma parse_next_ok rem v rest :
  parse_next rem = Ok (v, rest) → rem = encode v ++ rest ∧ wf_value v.
Proof. apply parse_sound. Qed.

Lemma root_entry_ok key st rem st' rest :
  root_entry key st rem = Ok (st', rest) →
  ∃ v, rem = encode v ++ rest ∧ wf_value v ∧ st' = root_step st (key, v) ∧
       (key = bs "announce" → is_string v = true).
Proof.
  unfold root_entry, root_step. intros H. case_ifs_in H; inv_ok H; destruct x as [v rem'];
    apply parse_next_ok in H0 as [-> Hv].
  - destruct v; try done. injection H as <- <-. eauto.
  - injection H as <- <-. apply bool_decide_eq_false in E. naive_solver.
  - injection H as <- <-. exists v. split_and!; auto.
    + f_equal. unfold ztake. rewrite zlen_app. replace (Z.to_nat _) with (List.length (encode v)).
      * by rewrite take_app_length.
      * unfold zlen. lia.
    + by apply bool_decide_eq_false in E.
  - injection H as <- <-. apply bool_decide_eq_false in E. naive_solver.
Qed.

Lemma root_loop_ok fuel d st lk rem st' rest :
  dict_inv d lk → Forall wf_entry d →
  root_loop fuel st lk rem = Ok (st', rest) →
  ∃ d', rem = concat (enc_entry <$> d') ++ rest ∧ Forall wf_entry (d ++ d') ∧
        StronglySorted bytes_lt (d ++ d').*1 ∧ st' = foldl root_step st d' ∧
        Forall (λ kv, kv.1 = bs "announce" → is_string kv.2 = true) d'.
Proof.
  revert d st lk rem. induction fuel as [|f IH]; intros d st lk rem Hi Hd H; [done|].
  simpl in H. case_ifs_in H.
  { injection H as <- <-. exists []. rewrite app_nil_r. split_and!; try done. apply Hi. }
  inv_ok H. destruct x as [key rem']. apply parse_string_ok in H0 as [-> Hk].
  destruct (default Gt _) eqn:Ek in H; try done.
  inv_ok H. destruct x as [st1 rem1].
  apply root_entry_ok in H0 as (v & -> & Hv & -> & Ha).
  destruct (dict_inv_emplace d lk key v Hi Ek) as [_ Hi'].
  destruct (IH _ _ _ _ Hi' ltac:(by apply Forall_app; repeat constructor) H)
    as (d' & -> & Hd' & Hs & -> & Has).
  exists ((key, v) :: d'). rewrite enc_entries, <- !app_assoc in *.
  split_and!; auto.
Qed.

(** The [announce] entry, if any, is a string. *)
Definition announce_ok (d : BencodeDict) : Prop :=
  Forall (λ kv, kv.1 = bs "announce" → is_string kv.2 = true) d.

Lemma parse_next_complete v rest :
  wf_value v → parse_next (encode v ++ rest) = Ok (v, rest).
Proof.
  intros Hv. apply parse_value_complete; [done|]. unfold parse_fuel. rewrite length_app. lia.
Qed.

Lemma root_entry_complete key v st rest :
  wf_value v → (key = bs "announce" → is_string v = true) →
  root_entry key st (encode v ++ rest) = Ok (root_step st (key, v), rest).
Proof.
  intros Hv Ha. unfold root_entry, root_step. rewrite parse_next_complete by done. simpl.
  destruct (bool_decide (key = bs "announce")) eqn:E.
  { apply bool_decide_eq_true in E. by destruct v; specialize (Ha E). }
  case_ifs; try done. do 3 f_equal. unfold ztake. rewrite zlen_app.
  replace (Z.to_nat _) with (List.length (encode v)) by (unfold zlen; lia).
  by rewrite take_app_length.
Qed.

Lemma root_loop_complete d d0 lk st rest f :
  Forall wf_entry d → dict_inv d0 lk → StronglySorted bytes_lt (d0 ++ d).*1 →
  announce_ok d → (List.length (concat (enc_entry <$> d)) < f)%nat →
  root_loop f st lk (concat (enc_entry <$> d) ++ "e"%byte :: rest) =
  Ok (foldl root_step st d, "e"%byte :: rest).
Proof.
  intros Hw. revert d0 lk st f.
  induction Hw as [|[k v] d [Hk Hv] _ IH]; intros d0 lk st [|f] Hi Hs Ha Hf; try lia; [done|].
  inversion_clear Ha as [|?? Hak Had]. simpl in Hk, Hv, Hak.
  rewrite enc_entries, !length_app in Hf. destruct (encode_head v) as (c & r & Ev & _).
  assert (0 < List.length (encode v))%nat by (rewrite Ev; simpl; lia).
  rewrite enc_entries, <- !app_assoc. simpl. rewrite at_end_string.
  erewrite (proj2 (parse_string_ok _ _ _)) by done. simpl.
  rewrite (dict_inv_next _ _ _ _ _ Hi Hs). rewrite root_entry_complete by done. simpl.
  destruct (dict_inv_emplace d0 lk k v Hi (dict_inv_next _ _ _ _ _ Hi Hs)) as [_ Hi'].
  apply (IH (d0 ++ [(k, v)])); rewrite <- ?app_assoc; done || lia.
Qed.

(** A key bound in an ascending dictionary is found. *)
Lemma dict_find_sorted k v d :
  StronglySorted bytes_lt d.*1 → (k, v) ∈ d → dict_find k d = Some v.
Proof.
  induction d as [|[k' v'] d IH]; intros Hs Hin; [by apply not_elem_of_nil in Hin|].
  simpl in *. inversion_clear Hs as [|?? Hs' Hlt]. apply elem_of_cons in Hin as [[= <- <-]|Hin].
  - by rewrite bytes_compare_refl.
  - assert (bytes_lt k' k) as Hk.
    { rewrite Forall_forall in Hlt. apply Hlt, list_elem_of_fmap. by exists (k, v). }
    unfold bytes_lt in Hk. rewrite bytes_compare_antisym, Hk. simpl. auto.
Qed.

(** What the fold over the root dictionary leaves in each variable. *)
Lemma root_step_info d st v :
  r_info_val (foldl root_step st d) = v → v ≠ r_info_val st →
  (bs "info", v) ∈ d ∧ r_info_span (foldl root_step st d) = encode v.
Proof.
  revert st. induction d as [|[k x] d IH] using rev_ind; intros st Hv Hne; [done|].
  rewrite foldl_app in *. simpl in *. unfold root_step in *.
  case_ifs_in Hv; simpl in *.
  1,2,4: destruct (IH st Hv Hne); split; [apply elem_of_app; by left|done].
  subst x. apply bool_decide_eq_true in E1 as ->. split; [|done].
  apply elem_of_app. right. by apply list_elem_of_singleton.
Qed.

Lemma root_step_announce d st s :
  r_announce_url (foldl root_step st d) = s → s ≠ r_announce_url st → s ≠ [] →
  (bs "announce", BString s) ∈ d.
Proof.
  revert st. induction d as [|[k x] d IH] using rev_ind; intros st Hv Hne Hs; [done|].
  rewrite foldl_app in *. simpl in *. unfold root_step in *.
  case_ifs_in Hv; simpl in *; apply elem_of_app.
  2,3,4: left; eauto.
  right. apply bool_decide_eq_true in E as ->. apply list_elem_of_singleton.
  destruct x; simpl in *; congruence.
Qed.

(** The value of a key of a sorted dictionary, after its head. *)
Lemma dict_find_tail k k' v (d : BencodeDict) :
  StronglySorted bytes_lt (k' :: d.*1) →
  dict_find k ((k', v) :: d) = if bool_decide (k = k') then Some v else dict_find k d.
Proof.
  intros Hs. cbn [dict_find]. case_bool_decide as E; [subst k'; by rewrite bytes_compare_refl|].
  destruct (bytes_compare k k') eqn:Ec; [|done|done]. by apply bytes_compare_eq in Ec.
Qed.

Lemma dict_find_above k (d : BencodeDict) : Forall (bytes_lt k) d.*1 → dict_find k d = None.
Proof.
  induction d as [|[k' v] d IH]; [done|]. rewrite fmap_cons. intros [Hk Hd]%Forall_cons. cbn [dict_find].
  unfold bytes_lt in Hk. simpl in Hk. rewrite Hk. by apply IH.
Qed.

Lemma root_step_trackers d st :
  StronglySorted bytes_lt d.*1 →
  r_announce_list (foldl root_step st d) =
    r_announce_list st ++ from_option collect_trackers [] (dict_find (bs "announce-list") d).
Proof.
  revert st. induction d as [|[k v] d IH]; intros st Hs; [simpl; by rewrite app_nil_r|].
  rewrite dict_find_tail by done. inversion_clear Hs as [|?? Hs' Hlt]. cbn [foldl]. rewrite IH by done.
  unfold root_step. destruct (decide (k = bs "announce-list")) as [->|E].
  - rewrite (dict_find_above _ d Hlt). simpl. by rewrite app_nil_r.
  - rewrite (bool_decide_eq_false_2 _ E), (bool_decide_eq_false_2 (bs "announce-list" = k)) by done. by case_ifs.
Qed.

(** ** What the values say *)

(** The lists of a list, the nonempty strings of a list. *)
Definition as_list (v : BencodeValue) : list BencodeValue := match v with BList l => l | _ => [] end.
Definition nonempty_string (v : BencodeValue) : option (list byte) :=
  match v with BString s => if bool_decide (s = []) then None else Some s | _ => None end.

Lemma collect_trackers_spec v : collect_trackers v = omap nonempty_string (as_list v ≫= as_list).
Proof.
  destruct v as [| |tiers|]; try done. simpl.
  induction tiers as [|tier tiers IH]; [done|]. rewrite !bind_cons, omap_app. f_equal; [|exact IH].
  destruct tier as [| |trackers|]; try done. simpl.
  induction trackers as [|t trackers IHt]; [done|]. rewrite bind_cons, IHt.
  destruct t as [|s| |]; try done. simpl. by case_bool_decide.
Qed.

(** Segments with slashes between them. *)
Fixpoint slashed (segments : list (list byte)) : list byte :=
  match segments with
  | [] => []
  | [s] => s
  | s :: r => s ++ bs "/" ++ slashed r
  end.

(** An entry of ["files"] for a file. *)
Definition lists_file (v : BencodeValue) (f : FileInfo) : Prop :=
  ∃ d segments, v = BDict d ∧ dict_find (bs "length") d = Some (BInt (length f)) ∧
    dict_find (bs "path") d = Some (BList (BString <$> segments)) ∧ path f = slashed segments.

(** The files of an [info] dictionary: those of ["files"], or one of ["length"] bytes
    under ["name"]. *)
Definition lists_files (info : BencodeDict) (nm : list byte) (fs : list FileInfo) : Prop :=
  match dict_find (bs "files") info with
  | Some v => ∃ l, v = BList l ∧ Forall2 lists_file l fs
  | None => ∃ len, dict_find (bs "length") info = Some (BInt len) ∧ fs = [mk_file nm len 0]
  end.

Lemma join_path_ok first acc l p :
  join_path first acc l = Ok p →
  ∃ segments, l = BString <$> segments ∧
    p = acc ++ (if first || bool_decide (segments = []) then [] else bs "/") ++ slashed segments.
Proof.
  revert first acc. induction l as [|v l IH]; intros first acc H; cbn [join_path] in H.
  { injection H as <-. exists []. split; [done|]. by rewrite orb_true_r, !app_nil_r. }
  destruct v as [|s| |]; try done. destruct (IH _ _ H) as (segs & -> & ->). exists (s :: segs). split; [done|].
  rewrite (bool_decide_eq_false_2 (s :: segs = [])) by done. rewrite orb_false_r. cbn [orb].
  destruct segs as [|s2 segs]; [rewrite bool_decide_eq_true_2 by done; simpl; rewrite !app_nil_r|
    rewrite bool_decide_eq_false_2 by done; simpl slashed]; destruct first; simpl; by rewrite <- ?app_assoc.
Qed.

Lemma files_loop_lists vals off fs fs' total :
  files_loop off fs vals = Ok (fs', total) → ∃ new, fs' = fs ++ new ∧ Forall2 lists_file vals new.
Proof.
  revert off fs. induction vals as [|v vals IH]; intros off fs H; cbn [files_loop] in H.
  { injection H as <- _. exists []. by rewrite app_nil_r. }
  destruct v as [| | |d]; try done. inv_ok H. inv_ok H. inv_ok H. inv_ok H.
  destruct (IH _ _ H) as (new & -> & Hn). exists (mk_file x1 x off :: new). rewrite <- app_assoc.
  split; [done|]. constructor; [|done]. destruct (join_path_ok _ _ _ _ H2) as (segs & -> & ->).
  unfold find_int in H0. exists d, segs. split; [done|]. split; [|split; [|done]].
  - destruct (dict_find (bs "length") d) as [[]|]; try done. by injection H0 as ->.
  - destruct (dict_find (bs "path") d) as [[]|]; try done. by injection H1 as ->.
Qed.

Lemma parse_files_lists nm info fs total :
  parse_files nm info = Ok (fs, total) → lists_files info nm fs.
Proof.
  unfold parse_files, lists_files. intros H. destruct (dict_find (bs "files") info) as [v|].
  - destruct v as [| |l|]; try done. destruct (files_loop_lists _ _ _ _ _ H) as (new & -> & Hn). by exists l.
  - unfold find_int in H. destruct (dict_find (bs "length") info) as [[]|]; try done. injection H as <- <-. eauto.
Qed.

(** ** The file layout *)

(** Each file starts where the one before it ended. *)
Fixpoint contiguous (start : Z) (fs : list FileInfo) : Prop :=
  match fs with
  | [] => True
  | f :: r => offset f = start ∧ contiguous (start + length f) r
  end.

Definition sum_lengths (fs : list FileInfo) : Z := foldr (λ f t, length f + t) 0 fs.

Lemma sum_lengths_app a b : sum_lengths (a ++ b) = sum_lengths a + sum_lengths b.
Proof. induction a as [|f a IH]; simpl; [done|]. unfold sum_lengths in *. simpl. lia. Qed.

Lemma contiguous_app s a b :
  contiguous s (a ++ b) ↔ contiguous s a ∧ contiguous (s + sum_lengths a) b.
Proof.
  revert s. induction a as [|f a IH]; intros s; simpl.
  - rewrite Z.add_0_r. tauto.
  - rewrite IH. unfold sum_lengths. simpl. rewrite Z.add_assoc. tauto.
Qed.

(** Files that follow each other, none of negative length, share out the bytes. *)
Lemma contiguous_above s fs j f :
  contiguous s fs → Forall (λ f, 0 ≤ length f) fs → fs !! j = Some f → s ≤ offset f.
Proof.
  revert s j. induction fs as [|g fs IH]; intros s j; [done|].
  intros [Eg Hc] [Hg Hl]%Forall_cons. destruct j as [|j]; [intros [= ->]; lia|]. intros Hj.
  specialize (IH _ j Hc Hl Hj). lia.
Qed.

Lemma contiguous_covers s fs x :
  contiguous s fs → Forall (λ f, 0 ≤ length f) fs → s ≤ x < s + sum_lengths fs →
  ∃ k, is_Some (fs !! k) ∧ ∀ j f, fs !! j = Some f → offset f ≤ x < offset f + length f ↔ j = k.
Proof.
  revert s. induction fs as [|g fs IH]; intros s Hc Hl Hx; [unfold sum_lengths in Hx; simpl in Hx; lia|].
  destruct Hc as [Eg Hc]. apply Forall_cons in Hl as [Hg Hl].
  unfold sum_lengths in Hx. simpl in Hx. fold (sum_lengths fs) in Hx.
  destruct (Z.lt_ge_cases x (s + length g)) as [Hlt|Hge].
  - exists O. split; [by eexists|]. intros [|j] f; simpl.
    + intros [= ->]. split; [done|lia].
    + intros Hj. pose proof (contiguous_above _ _ _ _ Hc Hl Hj). split; [lia|done].
  - destruct (IH (s + length g) Hc Hl ltac:(lia)) as (k & Hk & Hu). exists (S k). split; [done|].
    intros [|j] f; simpl; [intros [= ->]; split; [lia|done]|]. intros Hj. rewrite (Hu j f Hj). lia.
Qed.

Lemma files_loop_ok vals off fs fs' total :
  contiguous 0 fs → off = sum_lengths fs →
  files_loop off fs vals = Ok (fs', total) →
  contiguous 0 fs' ∧ total = sum_lengths fs' ∧ zlen fs' = zlen fs + zlen vals.
Proof.
  revert off fs. induction vals as [|v vals IH]; intros off fs Hc Ho H; simpl in H.
  { injection H as <- <-. unfold zlen. simpl. split_and!; auto. lia. }
  destruct v as [| | |d]; try done. inv_ok H. inv_ok H. inv_ok H. inv_ok H.
  apply i64_ok in H3 as [-> _]. apply IH in H as (Hc' & -> & Hz).
  - split_and!; auto. rewrite Hz, zlen_app, !zlen_cons. unfold zlen at 2. simpl. lia.
  - apply contiguous_app. simpl. split_and!; auto.
  - rewrite sum_lengths_app. unfold sum_lengths at 2. simpl. lia.
Qed.

Lemma parse_files_ok nm d fs total :
  parse_files nm d = Ok (fs, total) → contiguous 0 fs ∧ total = sum_lengths fs.
Proof.
  unfold parse_files. intros H. destruct (dict_find (bs "files") d) as [v|].
  - destruct v as [| |l|]; try done. apply files_loop_ok in H as (? & ? & _); auto. done.
  - inv_ok H. injection H as <- <-. unfold sum_lengths. simpl. split_and!; auto. lia.
Qed.

(** ** The hashes *)

Lemma split_hashes_spec s :
  zlen s mod 20 = 0 →
  concat (split_hashes s) = s ∧ zlen (split_hashes s) = zlen s / 20 ∧
  Forall (λ h, List.length h = 20%nat) (split_hashes s).
Proof.
  intros Hm. pose proof (Z.div_mod (zlen s) 20 ltac:(lia)) as Hd. rewrite Hm in Hd.
  pose proof (Z.div_pos (zlen s) 20 (zlen_nonneg s) ltac:(lia)) as Hn.
  unfold split_hashes. generalize dependent (zlen s / 20). intros n Hd Hn. clear Hm.
  revert s Hd. pattern n. apply natlike_ind; [| |done].
  - intros s Hs. rewrite seqZ_nil by lia. simpl. destruct s; [done|].
    rewrite zlen_cons in Hs. pose proof (zlen_nonneg s). lia.
  - clear n Hn. intros n Hn IH s Hs.
    rewrite seqZ_cons by lia. simpl. rewrite Z.pred_succ.
    change (Z.succ 0) with (1 + 0). rewrite <- fmap_add_seqZ, <- list_fmap_compose.
    destruct (IH (zdrop 20 s)) as (Hc & Hl & Hf); [rewrite zlen_zdrop; lia|].
    assert ((λ i, ztake 20 (zdrop (i * 20) (zdrop 20 s))) <$> seqZ 0 n =
            ((λ i, ztake 20 (zdrop (i * 20) s)) ∘ Z.add 1) <$> seqZ 0 n) as E.
    { apply list_fmap_ext. intros i x Hx. apply lookup_seqZ in Hx as [-> Hi]. simpl.
      unfold zdrop. rewrite drop_drop. do 2 f_equal. lia. }
    rewrite E in Hc, Hl, Hf. split_and!.
    + rewrite Hc. apply ztake_zdrop.
    + rewrite zlen_cons, Hl. lia.
    + constructor; [|done].
      pose proof (zlen_ztake (zdrop (0 * 20) s) 20) as Ht. unfold zlen in *.
      unfold zdrop in *. rewrite length_drop in Ht. lia.
Qed.

Section TorrentFacts.
Context `{C : CryptoSHA1}.

Lemma find_int_ok key err d i : find_int key err d = Ok i ↔ dict_find (bs key) d = Some (BInt i).
Proof. unfold find_int. destruct (dict_find _ _) as [[]|]; naive_solver. Qed.
Lemma find_string_ok key err d s :
  find_string key err d = Ok s ↔ dict_find (bs key) d = Some (BString s).
Proof. unfold find_string. destruct (dict_find _ _) as [[]|]; naive_solver. Qed.

(** What [build] returns, field by field. *)
Lemma build_ok st m :
  build st = Ok m →
  r_announce_url st ≠ [] ∧
  ∃ info pieces n,
    r_info_val st = BDict info ∧
    announce_url m = r_announce_url st ∧
    announce_list m = (if bool_decide (r_announce_list st = []) then [r_announce_url st]
                       else r_announce_list st) ∧
    dict_find (bs "piece length") info = Some (BInt (piece_length m)) ∧
    dict_find (bs "name") info = Some (BString (name m)) ∧
    dict_find (bs "pieces") info = Some (BString pieces) ∧
    zlen pieces = 20 * n ∧ piece_hashes m = split_hashes pieces ∧ num_pieces m = i32 n ∧
    parse_files (name m) info = Ok (files m, total_length m) ∧
    piece_length m ≠ 0 ∧
    Z.quot (total_length m + piece_length m - 1) (piece_length m) = n ∧
    info_hash m = (if bool_decide (r_info_span st = []) then replicate 20 x00
                   else CalculateDigest (r_info_span st)).
Proof.
  unfold build. intros H. guard_in H as E. apply bool_decide_eq_false in E. split; [done|].
  inv_ok H. destruct (r_info_val st) as [| | |info]; try done. injection H0 as <-.
  inv_ok H. inv_ok H. inv_ok H. guard_in H as E0. inv_ok H. destruct x2 as [fs total].
  inv_ok H. inv_ok H. inv_ok H. guard_in H as E1.
  apply negb_false_iff, Z.eqb_eq in E0, E1.
  apply find_int_ok in H0. apply find_string_ok in H1, H2.
  apply i64_ok in H4 as [-> _], H5 as [-> _].
  unfold i64_div in H6. destruct (Z.eqb_spec x 0) as [->|Hpl]; [done|].
  apply i64_ok in H6 as [-> _]. injection H as <-. simpl.
  exists info, x1, (zlen x1 / 20). split_and!; auto.
  pose proof (Z.div_mod (zlen x1) 20). lia.
Qed.

(** On a canonical dictionary whose announce is a string, [from_bencode] is [build]
    of what the dictionary leaves in the loop's variables. *)
Lemma from_bencode_build data d :
  parse data = Ok (BDict d) → announce_ok d →
  from_bencode data = build (foldl root_step root_init d).
Proof.
  intros [-> [Hs Hd]%wf_dict]%parse_ok Ha. unfold from_bencode.
  rewrite encode_dict. cbn [expect mbind outcome_bind]. rewrite beq_refl.
  cbn [mbind outcome_bind]. rewrite (root_loop_complete d []); try done.
  - by repeat constructor.
  - rewrite length_app. lia.
Qed.

(** It accepts no other input. *)
Lemma from_bencode_ok data m :
  from_bencode data = Ok m →
  ∃ d, parse data = Ok (BDict d) ∧ announce_ok d ∧ build (foldl root_step root_init d) = Ok m.
Proof.
  unfold from_bencode. intros H. inv_ok H. apply expect_ok in H0 as ->.
  inv_ok H. destruct x0 as [st rem]. inv_ok H. apply expect_ok in H1 as ->.
  guard_in H as E. apply negb_false_iff, bool_decide_eq_true in E as ->.
  apply (root_loop_ok _ []) in H0 as (d & -> & Hd & Hs & -> & Ha);
    [|by repeat constructor|by constructor].
  exists d. split_and!; auto. apply parse_ok. rewrite encode_dict. split; [done|].
  by apply wf_dict.
Qed.

(** Undefined behaviour [build] can reach: overflow of a length sum, or a zero
    piece length. *)
Definition length_ub (w : string) : Prop :=
  w = "signed integer overflow"%string ∨ w = "integer division by zero"%string.

Lemma i64_ub z : only_ub length_ub (i64 z).
Proof. unfold i64. case_ifs; simpl; unfold length_ub; auto. Qed.
Lemma i64_div_ub a b : only_ub length_ub (i64_div a b).
Proof. unfold i64_div. case_ifs; [by right|apply i64_ub]. Qed.
Lemma find_int_ub key err d : only_ub length_ub (find_int key err d).
Proof. unfold find_int. by destruct (dict_find _ _) as [[]|]. Qed.
Lemma find_string_ub key err d : only_ub length_ub (find_string key err d).
Proof. unfold find_string. by destruct (dict_find _ _) as [[]|]. Qed.

Lemma join_path_ub first acc l : only_ub length_ub (join_path first acc l).
Proof. revert first acc. induction l as [|[] l IH]; intros; simpl; auto. Qed.

Hint Resolve i64_ub i64_div_ub find_int_ub find_string_ub join_path_ub : p2p.

Lemma files_loop_ub off fs vals : only_ub length_ub (files_loop off fs vals).
Proof.
  revert off fs. induction vals as [|[] vals IH]; intros off fs; simpl; try done.
  apply only_ub_bind; [auto with p2p|intros len _].
  apply only_ub_bind; [by destruct (dict_find _ _) as [[]|]|intros l _].
  apply only_ub_bind; [auto with p2p|intros p _].
  apply only_ub_bind; [apply i64_ub|intros o _]. apply IH.
Qed.

Lemma parse_files_ub nm d : only_ub length_ub (parse_files nm d).
Proof.
  unfold parse_files. destruct (dict_find _ _) as [[]|]; try done; [apply files_loop_ub|].
  by apply only_ub_bind; [auto with p2p|].
Qed.

Lemma build_ub st : only_ub length_ub (build st).
Proof.
  unfold build. case_match; [done|].
  apply only_ub_bind; [by destruct (r_info_val st)|intros info _].
  do 3 (apply only_ub_bind; [auto with p2p|intros ? _]).
  case_match; [done|]. apply only_ub_bind; [apply parse_files_ub|intros [fs t] _].
  do 3 (apply only_ub_bind; [first [apply i64_ub|apply i64_div_ub]|intros ? _]).
  by case_match.
Qed.

Lemma root_entry_defined key st rem : defined (root_entry key st rem).
Proof.
  unfold root_entry. case_ifs; apply defined_bind; try (by apply parse_defined);
    intros [[] ?] _; done.
Qed.

Lemma root_entry_consumes key st rem st' rest :
  root_entry key st rem = Ok (st', rest) → (List.length rest < List.length rem)%nat.
Proof.
  intros (v & -> & _)%root_entry_ok. destruct (encode_head v) as (c & r & -> & _).
  rewrite length_app. simpl. lia.
Qed.

Lemma root_loop_defined f st lk rem :
  (List.length rem < f)%nat → defined (root_loop f st lk rem).
Proof.
  revert st lk rem. induction f as [|f IH]; intros st lk rem Hf; [lia|]. simpl.
  case_ifs; [done|]. apply defined_bind; [apply parse_string_defined|].
  intros [key rem'] Hk%parse_string_consumes. destruct (default Gt _); try done.
  apply defined_bind; [apply root_entry_defined|].
  intros [st' rem0] He%root_entry_consumes. apply IH. lia.
Qed.
(** The layout of what [from_bencode] accepts. *)
Lemma from_bencode_tiles (data : list byte) (m : TorrentMetadata) :
  from_bencode data = Ok m →
  contiguous 0 (files m) ∧ total_length m = sum_lengths (files m) ∧
  num_pieces m = i32 (zlen (piece_hashes m)) ∧
  announce_list m ≠ [] ∧ piece_length m ≠ 0 ∧
  (0 < piece_length m → 0 ≤ total_length m →
   (zlen (piece_hashes m) - 1) * piece_length m < total_length m
     ≤ zlen (piece_hashes m) * piece_length m).
Proof.
  intros (d & Hp & _ & Hb)%from_bencode_ok.
  apply build_ok in Hb as (Hu & info & pieces & n & _ & _ & El & _ & _ & _ & Hlen & Eh
                           & En & Hf & Hpl & Hq & _).
  apply parse_files_ok in Hf as [Hc Et].
  destruct (split_hashes_spec pieces) as (_ & Hz & _).
  { rewrite Hlen. by rewrite Z.mul_comm, Z_mod_mult. }
  assert (zlen (piece_hashes m) = n) as ->.
  { rewrite Eh, Hz, Hlen, Z.mul_comm. by apply Z.div_mul. }
  split_and!; auto.
  - rewrite El. case_bool_decide; done.
  - intros Hpos Ht. rewrite Z.quot_div_nonneg in Hq by lia.
    pose proof (Z.div_mod (total_length m + piece_length m - 1) (piece_length m)).
    pose proof (Z.mod_pos_bound (total_length m + piece_length m - 1) (piece_length m)).
    nia.
Qed.

(** The metadata the rest of the program expects: [from_bencode] returns no other
    when the piece length and the total are in the range of a real torrent. *)
Definition wf_metadata (m : TorrentMetadata) : Prop :=
  num_pieces m = zlen (piece_hashes m) ∧ 0 ≤ num_pieces m < 2 ^ 31 ∧
  0 < piece_length m < 2 ^ 32 ∧ 0 ≤ total_length m ∧
  (num_pieces m - 1) * piece_length m < total_length m ≤ num_pieces m * piece_length m ∧
  contiguous 0 (files m) ∧ total_length m = sum_lengths (files m).

Lemma from_bencode_wf (data : list byte) (m : TorrentMetadata) :
  from_bencode data = Ok m → 0 < piece_length m < 2 ^ 32 → 0 ≤ total_length m →
  zlen (piece_hashes m) < 2 ^ 31 → wf_metadata m.
Proof.
  intros Hm Hpl Ht Hn. destruct (from_bencode_tiles data m Hm) as (Hc & Es & En & _ & _ & Hp).
  pose proof (zlen_nonneg (piece_hashes m)).
  rewrite swrap_small in En by (simpl Z.sub; lia). unfold wf_metadata. rewrite En.
  split_and!; auto; try lia; apply Hp; lia.
Qed.
End TorrentFacts.

(** ** Properties *)

Section TorrentProperties.
Context `{C : CryptoSHA1}.

(** C10: when [from_bencode] returns, the whole file is one canonical bencoded
    dictionary and the metadata are the values of its keys: the announce URL, the piece
    length, the name; the piece hashes, the 20-byte slices of ["pieces"] in order; the
    files, one for each entry of ["files"], in order, with its length and its path
    segments joined by slashes, or else a single one; their offsets and the total, the
    running sums of the lengths; the trackers, the nonempty strings of
    ["announce-list"] in order, or else the announce URL. The info hash is the digest of
    the bytes of the ["info"] value exactly as they are in the file. *)
Theorem from_bencode_fields (data : list byte) (m : TorrentMetadata) :
  from_bencode data = Ok m →
  ∃ root info before after,
    parse data = Ok (BDict root) ∧
    dict_find (bs "announce") root = Some (BString (announce_url m)) ∧
    dict_find (bs "info") root = Some (BDict info) ∧
    dict_find (bs "piece length") info = Some (BInt (piece_length m)) ∧
    dict_find (bs "name") info = Some (BString (name m)) ∧
    dict_find (bs "pieces") info = Some (BString (concat (piece_hashes m))) ∧
    Forall (λ h, List.length h = 20%nat) (piece_hashes m) ∧
    lists_files info (name m) (files m) ∧ contiguous 0 (files m) ∧
    total_length m = sum_lengths (files m) ∧
    (let trackers :=
       from_option (λ v, omap nonempty_string (as_list v ≫= as_list)) []
         (dict_find (bs "announce-list") root) in
     announce_list m = if bool_decide (trackers = []) then [announce_url m] else trackers) ∧
    data = before ++ enc_string (bs "info") ++ encode (BDict info) ++ after ∧
    info_hash m = CalculateDigest (encode (BDict info)).
Proof.
  intros (d & Hp & _ & Hb)%from_bencode_ok.
  apply build_ok in Hb as (Hu & info & pieces & n & Hi & Eu & El & Hpl & Hn & Hps & Hlen & Eh
                           & _ & Hf0 & _ & _ & Ed).
  pose proof (parse_files_lists _ _ _ _ Hf0) as Hfs. apply parse_files_ok in Hf0 as [Hct Et].
  pose proof (proj1 (parse_ok _ _) Hp) as [-> [Hs Hd]%wf_dict].
  destruct (root_step_info d root_init (BDict info) Hi ltac:(done)) as [Hin Espan].
  pose proof (root_step_announce d root_init _ eq_refl Hu Hu) as Han.
  destruct (split_hashes_spec pieces) as (Hc & _ & Hf).
  { rewrite Hlen. by rewrite Z.mul_comm, Z_mod_mult. }
  rewrite (root_step_trackers d root_init Hs) in El. cbn [r_announce_list root_init app] in El.
  assert (∀ o, from_option collect_trackers [] o =
    from_option (λ v, omap nonempty_string (as_list v ≫= as_list)) [] o) as Ec
    by (intros [v|]; [apply collect_trackers_spec|done]).
  rewrite Ec in El.
  pose proof Hin as (d1 & d2 & ->)%list_elem_of_split.
  exists (d1 ++ (bs "info", BDict info) :: d2), info,
    ("d"%byte :: concat (enc_entry <$> d1)), (concat (enc_entry <$> d2) ++ ["e"%byte]).
  rewrite Eu, Eh, Hc. split_and!; auto using dict_find_sorted.
  - rewrite (encode_dict (_ ++ _)), fmap_app, concat_app, enc_entries.
    by rewrite <- app_comm_cons, <- !app_assoc.
  - rewrite Ed, Espan, encode_dict. done.
Qed.

(** C22: the layout of an accepted torrent: each file starts where the one before it
    ends, and the lengths add up to the total. When no length is negative (which
    [from_bencode] does not check) each byte of the range [0, total_length) lies in
    exactly one file. The piece count is the number of hashes, as an [int32_t], and so
    that number when there are fewer than 2^31. For a positive piece length and a total
    that is not negative the pieces cover the range, with a last piece that is neither
    empty nor longer than the others. *)
Theorem from_bencode_layout (data : list byte) (m : TorrentMetadata) :
  from_bencode data = Ok m →
  contiguous 0 (files m) ∧ total_length m = sum_lengths (files m) ∧
  (Forall (λ f, 0 ≤ length f) (files m) → ∀ x, 0 ≤ x < total_length m →
     ∃ k, is_Some (files m !! k) ∧
       ∀ j f, files m !! j = Some f → offset f ≤ x < offset f + length f ↔ j = k) ∧
  num_pieces m = i32 (zlen (piece_hashes m)) ∧
  (zlen (piece_hashes m) < 2 ^ 31 → num_pieces m = zlen (piece_hashes m)) ∧
  announce_list m ≠ [] ∧ piece_length m ≠ 0 ∧
  (0 < piece_length m → 0 ≤ total_length m →
   (zlen (piece_hashes m) - 1) * piece_length m < total_length m
     ≤ zlen (piece_hashes m) * piece_length m).
Proof.
  intros Hm. destruct (from_bencode_tiles data m Hm) as (Hc & Et & En & Ha & Hpl & Hp).
  split; [done|]. split; [done|]. split; [|split; [done|split; [|done]]].
  - intros Hl x Hx. apply (contiguous_covers 0); [done|done|]. rewrite <- Et. lia.
  - intros Hlt. pose proof (zlen_nonneg (piece_hashes m)). rewrite En. apply swrap_small; [done|simpl Z.sub; lia].
Qed.

(** C38: [from_bencode] ends on every input, with metadata or an exception, unless it
    overflows a sum of lengths or divides by a zero piece length: no other undefined
    behaviour is reached, whatever the bytes. *)
Theorem from_bencode_outcomes (data : list byte) : only_ub length_ub (from_bencode data).
Proof.
  unfold from_bencode. apply only_ub_bind; [apply defined_only_ub, expect_defined|].
  intros rem _. apply only_ub_bind; [apply defined_only_ub, root_loop_defined; lia|].
  intros [st rem'] _. apply only_ub_bind; [apply defined_only_ub, expect_defined|].
  intros rem0 _. case_match; [done|]. apply build_ub.
Qed.
End TorrentProperties.

(** ** Witnesses *)

(** A torrent of two files, 10 and 20 bytes, in two pieces of 16 bytes. *)
Definition sample_info (piece_length len1 len2 : Z) : BencodeDict :=
  [(bs "files", BList
      [BDict [(bs "length", BInt len1); (bs "path", BList [BString (bs "a")])];
       BDict [(bs "length", BInt len2);
              (bs "path", BList [BString (bs "d"); BString (bs "b")])]]);
   (bs "name", BString (bs "n"));
   (bs "piece length", BInt piece_length);
   (bs "pieces", BString (replicate 40 x11))].
Definition sample_root (info : BencodeDict) : BencodeDict :=
  [(bs "announce", BString (bs "http://t/")); (bs "info", BDict info)].
Definition sample_torrent : list byte :=
  encode (BDict (sample_root (sample_info 16 10 20))).
Definition sample_metadata : TorrentMetadata :=
  mk_torrent (bs "n") (bs "http://t/") [bs "http://t/"] 16 30 2
    [replicate 20 x11; replicate 20 x11]
    [mk_file (bs "a") 10 0; mk_file (bs "d/b") 20 10]
    (CalculateDigest (encode (BDict (sample_info 16 10 20)))).

Lemma sample_ok : from_bencode sample_torrent = Ok sample_metadata.
Proof. vm_compute. reflexivity. Qed.

Lemma from_bencode_fields_witness :
  from_bencode sample_torrent = Ok sample_metadata ∧
  ∃ root info, parse sample_torrent = Ok (BDict root) ∧
          dict_find (bs "announce") root = Some (BString (bs "http://t/")) ∧
          lists_files info (bs "n") [mk_file (bs "a") 10 0; mk_file (bs "d/b") 20 10].
Proof.
  split; [exact sample_ok|].
  destruct (from_bencode_fields sample_torrent sample_metadata sample_ok)
    as (root & info & _ & _ & Hp & Ha & _ & _ & _ & _ & _ & Hf & _).
  exists root, info. split; [exact Hp|split; [exact Ha|exact Hf]].
Defined.

Lemma from_bencode_layout_witness :
  from_bencode sample_torrent = Ok sample_metadata ∧
  (∃ k, is_Some (files sample_metadata !! k) ∧
     ∀ j f, files sample_metadata !! j = Some f → offset f ≤ 17 < offset f + length f ↔ j = k) ∧
  (2 - 1) * 16 < 30 ≤ 2 * 16.
Proof.
  split; [exact sample_ok|].
  destruct (from_bencode_layout sample_torrent sample_metadata sample_ok)
    as (_ & _ & Hu & _ & _ & _ & _ & Hp).
  split; [|apply Hp; vm_compute; done]. apply Hu; [|vm_compute; done].
  by repeat (constructor; [vm_compute; done|]).
Defined.

(** ** Inputs the source does not guard against *)

Definition single_info (len piece_length : Z) (nm pieces : list byte) : BencodeDict :=
  [(bs "length", BInt len); (bs "name", BString nm);
   (bs "piece length", BInt piece_length); (bs "pieces", BString pieces)].
Definition single_root (url : list byte) (info : BencodeDict) : BencodeDict :=
  [(bs "announce", BString url); (bs "info", BDict info)].

(** A zero ["piece length"] is divided by: on any single-file torrent with a
    nonempty announce URL and whole piece hashes the count check reaches an integer
    division by zero instead of an exception. *)
Theorem zero_piece_length_divides `{C : CryptoSHA1} (url nm pieces : list byte) (len : Z) :
  url ≠ [] → zlen pieces mod 20 = 0 → - int64_max ≤ len ≤ int64_max →
  zlen url ≤ size_max → zlen nm ≤ size_max → zlen pieces ≤ size_max →
  from_bencode (encode (BDict (single_root url (single_info len 0 nm pieces)))) =
  UB "integer division by zero".
Proof.
  intros Hu Hp Hl Hsu Hsn Hsp. set (info := single_info len 0 nm pieces).
  rewrite (from_bencode_build _ (single_root url info)).
  - assert (foldl root_step root_init (single_root url info) =
            mk_root url [] (BDict info) (encode (BDict info))) as -> by done.
    unfold build. cbn [r_announce_url r_info_val].
    rewrite bool_decide_eq_false_2 by done. cbn [mbind outcome_bind].
    change (find_int "piece length" _ info) with (Ok 0).
    change (find_string "name" _ info) with (Ok nm).
    change (find_string "pieces" _ info) with (Ok pieces). cbn [mbind outcome_bind].
    rewrite (proj2 (Z.eqb_eq _ _) Hp). cbn [negb].
    change (parse_files nm info) with (Ok ([mk_file nm len 0], len)). cbn [mbind outcome_bind].
    unfold i64_add, i64_sub, int64_max in *. rewrite Z.add_0_r, (i64_in len).
    2:{ unfold is_i64, int64_min, int64_max. lia. }
    cbn [mbind outcome_bind]. rewrite i64_in; [done|].
    unfold is_i64, int64_min, int64_max. lia.
  - assert (∀ k v, zlen (bs k) ≤ size_max → wf_value v → wf_entry (bs k, v)) as He by done.
    apply parse_ok. split; [done|]. apply wf_dict. split; [by repeat constructor|].
    constructor; [by apply He|]. constructor; [|done]. apply He; [done|].
    apply wf_dict. split; [by repeat constructor|].
    by repeat (constructor; [by apply He|]).
  - by repeat (constructor; [done|]).
Qed.

Lemma zero_piece_length_divides_witness :
  from_bencode (encode (BDict (single_root (bs "u") (single_info 16 0 (bs "n") (replicate 20 x00)))))
  = UB "integer division by zero".
Proof. apply (zero_piece_length_divides (bs "u") (bs "n") (replicate 20 x00) 16); vm_compute; done. Defined.

(** File lengths are not checked either: a negative one is accepted, and the file
    after it starts before the end of the file before it. *)
Lemma negative_length_accepted :
  let '(fs, total) :=
    match from_bencode (encode (BDict (sample_root (sample_info 8 20 (-5))))) with
    | Ok m => (files m, total_length m)
    | _ => ([], 0)
    end in
  fs = [mk_file (bs "a") 20 0; mk_file (bs "d/b") (-5) 20] ∧ total = 15.
Proof. vm_compute. done. Qed.
