(* ===== verification/Tracker.v ===== *)
(** * Tracker client: [tracker_client.hpp], [tracker_client.cpp]

    The announce over HTTP and over UDP (BEP 15), the parser of the bencoded
    response, and the loop over the announce list. libcurl is a parameter of the
    definitions that use it. What the resolver and the socket answer is read from a
    script, and every call the client makes to them is recorded in a trace, so that
    the theorems speak of the datagrams sent and of the socket being closed on every
    path. *)

From S2P Require Import Prelude StdString Bencode Hasher Torrent.

(** ** Byte order *)

Definition swap64 (val : Z) : Z :=
  Z.lor (Z.lor (Z.lor (Z.lor (Z.lor (Z.lor (Z.lor
    (u64 (Z.shiftl (Z.land val 0xFF) 56))
    (u64 (Z.shiftl (Z.land val 0xFF00) 40)))
    (u64 (Z.shiftl (Z.land val 0xFF0000) 24)))
    (u64 (Z.shiftl (Z.land val 0xFF000000) 8)))
    (Z.shiftr (Z.land val 0xFF00000000) 8))
    (Z.shiftr (Z.land val 0xFF0000000000) 24))
    (Z.shiftr (Z.land val 0xFF000000000000) 40))
    (Z.shiftr (Z.land val 0xFF00000000000000) 56).

Section Host.
(** Whether the host stores the most significant byte first. *)
Variable big_endian : bool.

(** The bytes an integer of [n] bytes has in memory, and the integer they are. *)
Definition store_bytes (n : nat) (v : Z) : list byte :=
  if big_endian then be_bytes n v else reverse (be_bytes n v).
Definition load_bytes (l : list byte) : Z :=
  be_value (if big_endian then l else reverse l).

(** The first byte of [0x01020304] in memory tells the two apart. *)
Definition hton64 (val : Z) : Z :=
  if bool_decide (head (store_bytes 4 0x01020304) = Some x01) then val else swap64 val.
Definition ntoh64 (val : Z) : Z := hton64 val.

Definition write_uint64 (buf : list byte) (pos val : Z) : outcome (list byte) :=
  copy_at buf pos (store_bytes 8 (hton64 val)).
Definition read_uint64 (buf : list byte) (pos : Z) : outcome Z :=
  l ← read_at buf pos 8; Ok (ntoh64 (load_bytes l)).
End Host.

(** [write_uint32] and [write_uint16] copy the result of [htonl] and [htons]. *)
Definition write_uint32 (buf : list byte) (pos val : Z) : outcome (list byte) :=
  write_uint32_be buf pos val.
Definition write_uint16 (buf : list byte) (pos val : Z) : outcome (list byte) :=
  write_uint16_be buf pos val.
Definition read_uint32 (buf : list byte) (pos : Z) : outcome Z := read_uint32_be buf pos.
Definition read_uint16 (buf : list byte) (pos : Z) : outcome Z := read_uint16_be buf pos.

(** ** Types *)

Record PeerInfo := mk_peer_info { ip : list byte; port : Z; id : list byte }.

Record TrackerResponse := mk_response {
  tr_interval : Z;
  tr_complete : Z;
  tr_incomplete : Z;
  tr_peers : list PeerInfo;
  tr_failure_reason : list byte;
}.

Definition response_init : TrackerResponse := mk_response 0 0 0 [] [].

Record TrackerClient := mk_tracker { torrent_ : TorrentMetadata; peer_id_ : list byte }.

(** ** Messages and C strings *)

(** A message put together at run time; [c_str()] ends at the first zero byte, which
    is what [what()] and libcurl see. *)
Definition msg_of (l : list byte) : string := String.string_of_list_byte l.

Fixpoint c_str (l : list byte) : list byte :=
  match l with
  | [] => []
  | b :: r => if beq b x00 then [] else b :: c_str r
  end.

Definition what (e : exn) : list byte :=
  match e with
  | runtime_error m | out_of_range m | invalid_argument m | library_exception m => c_str (bs m)
  end.

(** [s.find(c)], and the two sides of the first [c]. *)
Fixpoint find_char (c : byte) (l : list byte) : option Z :=
  match l with
  | [] => None
  | b :: r => if beq b c then Some 0 else Z.succ <$> find_char c r
  end.

(** ** HTTP *)

Definition hex_chars : list byte := bs "0123456789abcdef".

Definition unreserved (byte : Byte.byte) : bool :=
  ((b2z "0" <=? b2z byte) && (b2z byte <=? b2z "9")) ||
  ((b2z "a" <=? b2z byte) && (b2z byte <=? b2z "z")) ||
  ((b2z "A" <=? b2z byte) && (b2z byte <=? b2z "Z")) ||
  beq byte "-" || beq byte "_" || beq byte "." || beq byte "~".

(** [hex_chars[i]] for an index in range. *)
Definition hex_char (i : Z) : byte := default x00 (znth hex_chars i).

Definition url_encode (data : list byte) : list byte :=
  foldl (λ result byte,
    if unreserved byte then result ++ [byte]
    else result ++ ["%"%byte; hex_char (Z.land (Z.shiftr (b2z byte) 4) 0x0F);
                    hex_char (Z.land (b2z byte) 0x0F)]) [] data.

(** The query URL. *)
Definition build_url (c : TrackerClient) (base_url : list byte)
    (listening_port uploaded downloaded left : Z) (event : option (list byte)) : list byte :=
  let url := base_url in
  let url := url ++ (match find_char "?" url with None => bs "?" | Some _ => bs "&" end) in
  let url := url ++ bs "info_hash=" ++ url_encode (info_hash (torrent_ c)) in
  let url := url ++ bs "&peer_id=" ++ url_encode (peer_id_ c) in
  let url := url ++ bs "&port=" ++ to_string listening_port in
  let url := url ++ bs "&uploaded=" ++ to_string uploaded in
  let url := url ++ bs "&downloaded=" ++ to_string downloaded in
  let url := url ++ bs "&left=" ++ to_string left in
  let url := url ++ bs "&compact=1" in
  match event with
  | Some ev => if bool_decide (ev = []) then url else url ++ bs "&event=" ++ ev
  | None => url
  end.

(** What libcurl answers to a GET: no handle, an error with its text, or a response
    with its code and the pieces its body came in. *)
Inductive CurlResult :=
| CurlNoHandle
| CurlFailed (error : list byte)
| CurlResponse (code : Z) (chunks : list (list byte)).

(** ** The bencoded response *)

Definition byte_at (l : list byte) (i : Z) : outcome Z :=
  match znth l i with Some b => Ok (b2z b) | None => UB "read past the end of a buffer" end.

Definition dotted (ip1 ip2 ip3 ip4 : Z) : list byte :=
  to_string ip1 ++ bs "." ++ to_string ip2 ++ bs "." ++ to_string ip3 ++ bs "." ++ to_string ip4.

(** The loop over a compact peer string: six bytes a turn, from [i] on. *)
Fixpoint compact_loop (fuel : nat) (compact_peers : list byte) (i : Z) (acc : list PeerInfo)
    : outcome (list PeerInfo) :=
  match fuel with
  | O => Fuel
  | S f =>
      if i <? zlen compact_peers then
        ip1 ← byte_at compact_peers i;
        ip2 ← byte_at compact_peers (i + 1);
        ip3 ← byte_at compact_peers (i + 2);
        ip4 ← byte_at compact_peers (i + 3);
        p1 ← byte_at compact_peers (i + 4);
        p2 ← byte_at compact_peers (i + 5);
        compact_loop f compact_peers (i + 6)
          (acc ++ [mk_peer_info (dotted ip1 ip2 ip3 ip4) (u16 (Z.lor (Z.shiftl p1 8) p2)) []])
      else Ok acc
  end.

(** A field of a dictionary that has it, and [dflt] otherwise. *)
Definition field {A} (as_a : BencodeValue → outcome A) (key : string) (dflt : A)
    (d : BencodeDict) : outcome A :=
  match dict_find (bs key) d with Some v => as_a v | None => Ok dflt end.

(** A peer given as a dictionary. [PeerInfo::port] has no initialiser, and copying
    the indeterminate value is undefined. *)
Definition dict_peer (p_dict : BencodeDict) : outcome PeerInfo :=
  ip ← field as_string "ip" [] p_dict;
  port ← field (λ v, i ← as_int v; Ok (Some (u16 i))) "port" None p_dict;
  id ← field as_string "peer id" [] p_dict;
  match port with
  | Some port => Ok (mk_peer_info ip port id)
  | None => UB "read of an indeterminate value"
  end.

Fixpoint peer_list_loop (peer_list : list BencodeValue) (acc : list PeerInfo)
    : outcome (list PeerInfo) :=
  match peer_list with
  | [] => Ok acc
  | BDict p_dict :: r => peer ← dict_peer p_dict; peer_list_loop r (acc ++ [peer])
  | _ :: r => peer_list_loop r acc
  end.

Definition response_peers (dict : BencodeDict) : outcome (list PeerInfo) :=
  match dict_find (bs "peers") dict with
  | Some (BString compact_peers) =>
      if negb (zlen compact_peers mod 6 =? 0) then
        Throw (runtime_error
          "TrackerClient: compact peers string length must be a multiple of 6")
      else compact_loop (S (List.length compact_peers)) compact_peers 0 []
  | Some (BList peer_list) => peer_list_loop peer_list []
  | _ => Ok []
  end.

Definition parse_response (response_data : list byte) : outcome TrackerResponse :=
  root ← match parse response_data with
         | Throw e => Throw (runtime_error (msg_of
             (bs "TrackerClient: failed to parse bencoded response: " ++ what e)))
         | r => r
         end;
  if negb (is_dict root) then
    Throw (runtime_error "TrackerClient: response root is not a bencoded dictionary")
  else
    dict ← as_dict root;
    match dict_find (bs "failure reason") dict with
    | Some v => s ← as_string v; Ok (mk_response 0 0 0 [] s)
    | None =>
        interval ← field as_int "interval" 0 dict;
        complete ← field as_int "complete" 0 dict;
        incomplete ← field as_int "incomplete" 0 dict;
        peers ← response_peers dict;
        Ok (mk_response interval complete incomplete peers [])
    end.

(** [write_callback] appends each piece of the body to the string. *)
Definition write_callback (mem contents : list byte) : list byte := mem ++ contents.

Section Client.
(** [curl]: what libcurl answers to a GET of a URL. *)
Variable curl : list byte → CurlResult.

Definition announce_http (c : TrackerClient) (base_url : list byte)
    (listening_port uploaded downloaded left : Z) (event : option (list byte))
    : outcome TrackerResponse :=
  let url := build_url c base_url listening_port uploaded downloaded left event in
  match curl (c_str url) with
  | CurlNoHandle =>
      Throw (runtime_error "TrackerClient: failed to initialize curl handle")
  | CurlFailed error =>
      Throw (runtime_error (msg_of (bs "TrackerClient: HTTP request failed: " ++ error)))
  | CurlResponse response_code chunks =>
      let response_body := foldl write_callback [] chunks in
      if negb (response_code =? 200) then
        Throw (runtime_error (msg_of (bs "TrackerClient: HTTP response code " ++
          to_string response_code ++ bs " (Response: " ++ ztake 200 response_body ++ bs ")")))
      else parse_response response_body
  end.
End Client.

(** ** UDP: the environment, the trace and the monad *)

(** One attempt: what [setsockopt] answers ([None], or the error), [std::rand()],
    whether [sendto] succeeds, and the datagram [recvfrom] gets, if any. *)
Record Try := mk_try {
  setsockopt_error : option (list byte);
  rand : Z;
  sendto_ok : bool;
  datagram : option (list byte);
}.

(** [getaddrinfo] and [socket] answer [None], or the error. The two request buffers
    hold arbitrary bytes when they come into scope. *)
Record UdpEnv := mk_udp_env {
  big_endian : bool;
  getaddrinfo_error : list byte → list byte → option (list byte);
  socket_error : option (list byte);
  req_buf : vec byte 16;
  ann_buf : vec byte 98;
  connect_try : Z → Try;
  key_rand : Z;
  announce_try : Z → Try;
}.

(** The calls made, in order; [ok] tells whether the name was resolved. *)
Inductive UdpCall :=
| Resolve (host port_str : list byte) (ok : bool)
| OpenSocket
| SetTimeout (seconds : Z)
| SendTo (data : list byte)
| FreeAddrInfo
| CloseSocket.

(** The calls so far, and the outcome. *)
Definition Udp (A : Type) : Type := list UdpCall → list UdpCall * outcome A.

#[export] Instance udp_ret : MRet Udp := λ A a tr, (tr, Ok a).
#[export] Instance udp_bind : MBind Udp := λ A B f m tr,
  match m tr with
  | (tr, Ok a) => f a tr
  | (tr, Throw e) => (tr, Throw e)
  | (tr, UB w) => (tr, UB w)
  | (tr, Fuel) => (tr, Fuel)
  end.

Definition call (c : UdpCall) : Udp unit := λ tr, (tr ++ [c], Ok tt).
Definition pure {A} (m : outcome A) : Udp A := λ tr, (tr, m).
Definition throw {A} (m : list byte) : Udp A := pure (Throw (runtime_error (msg_of m))).

(** [cleanup]. *)
Definition cleanup : Udp unit := call FreeAddrInfo ;; call CloseSocket.

(** The size of [resp_buf]: the kernel drops what is past it. *)
Definition resp_size : Z := 65535.

(** One turn of either loop up to an acceptable reply: the reply, and the timeout of
    the next turn. The connect loop asks for 16 bytes and action 0, the announce loop
    for 20 bytes and action 1. *)
Definition attempt (t : Try) (buf : list byte) (min_size want_action : Z) (error : string)
    (current_timeout : Z) : Udp (option (list byte) * Z) :=
  call (SetTimeout current_timeout) ;;
  match setsockopt_error t with
  | Some e => cleanup ;; throw (bs "TrackerClient: setsockopt failed: " ++ e)
  | None =>
      let transaction_id := u32 (rand t) in
      buf ← pure (write_uint32 buf 12 transaction_id);
      call (SendTo buf) ;;
      if negb (sendto_ok t) then mret (None, current_timeout * 2)
      else
        match ztake resp_size <$> datagram t with
        | None => mret (None, current_timeout * 2)
        | Some resp_buf =>
            if zlen resp_buf <? min_size then mret (None, current_timeout * 2)
            else
              resp_action ← pure (read_uint32 resp_buf 0);
              resp_trans_id ← pure (read_uint32 resp_buf 4);
              if negb (resp_trans_id =? transaction_id) then mret (None, current_timeout)
              else if resp_action =? 3 then cleanup ;; throw (bs error ++ zdrop 8 resp_buf)
              else if negb (resp_action =? want_action) then mret (None, current_timeout * 2)
              else mret (Some resp_buf, current_timeout)
        end
  end.

(** At most [turns] attempts, until a reply is accepted; [accept] reads it. *)
Fixpoint retry_loop {A} (turns : nat) (tries : Z → Try) (buf : list byte)
    (min_size want_action : Z) (error : string) (accept : list byte → outcome A)
    (i current_timeout : Z) : Udp (option A) :=
  match turns with
  | O => mret None
  | S n =>
      '(reply, current_timeout) ← attempt (tries i) buf min_size want_action error
         current_timeout;
      match reply with
      | None => retry_loop n tries buf min_size want_action error accept (i + 1) current_timeout
      | Some resp_buf => a ← pure (accept resp_buf); mret (Some a)
      end
  end.

Definition retry_attempts : nat := 3.

(** The first loop: the connection id, if connected. *)
Definition connect_loop (env : UdpEnv) (req : list byte) : Udp (option Z) :=
  retry_loop retry_attempts (connect_try env) req 16 0 "TrackerClient: UDP connect error: "
    (λ resp_buf, read_uint64 (big_endian env) resp_buf 8) 0 3.

(** The compact peers after the 20 bytes of the announce response, from the [i]-th
    on. *)
Fixpoint udp_peers (num_peers : nat) (resp_buf : list byte) (i : Z) (acc : list PeerInfo)
    : outcome (list PeerInfo) :=
  match num_peers with
  | O => Ok acc
  | S n =>
      let peer_ptr := 20 + i * 6 in
      ip1 ← byte_at resp_buf peer_ptr;
      ip2 ← byte_at resp_buf (peer_ptr + 1);
      ip3 ← byte_at resp_buf (peer_ptr + 2);
      ip4 ← byte_at resp_buf (peer_ptr + 3);
      p_port ← read_uint16 resp_buf (peer_ptr + 4);
      udp_peers n resp_buf (i + 1) (acc ++ [mk_peer_info (dotted ip1 ip2 ip3 ip4) p_port []])
  end.

(** The response an accepted announce reply carries. *)
Definition udp_response (resp_buf : list byte) : outcome TrackerResponse :=
  interval ← read_uint32 resp_buf 8;
  incomplete ← read_uint32 resp_buf 12;
  complete ← read_uint32 resp_buf 16;
  let peers_bytes := zlen resp_buf - 20 in
  let num_peers := peers_bytes / 6 in
  peers ← udp_peers (Z.to_nat num_peers) resp_buf 0 [];
  Ok (mk_response interval complete incomplete peers []).

(** The second loop: the response, if announced. *)
Definition announce_loop (env : UdpEnv) (ann : list byte) : Udp (option TrackerResponse) :=
  retry_loop retry_attempts (announce_try env) ann 20 1 "TrackerClient: UDP announce error: "
    udp_response 0 3.

(** [std::optional<std::string>] event to the number of BEP 15. *)
Definition event_val (event : option (list byte)) : Z :=
  match event with
  | None => 0
  | Some ev =>
      if bool_decide (ev = bs "completed") then 1
      else if bool_decide (ev = bs "started") then 2
      else if bool_decide (ev = bs "stopped") then 3
      else 0
  end.

(** The announce request, but for the transaction id the loop writes. *)
Definition fill_announce (env : UdpEnv) (c : TrackerClient)
    (connection_id listening_port uploaded downloaded left : Z) (event : option (list byte))
    : outcome (list byte) :=
  let ann := vec_to_list (ann_buf env) in
  ann ← write_uint64 (big_endian env) ann 0 connection_id;
  ann ← write_uint32 ann 8 1;
  ann ← copy_at ann 16 (info_hash (torrent_ c));
  ann ← copy_at ann 36 (peer_id_ c);
  ann ← write_uint64 (big_endian env) ann 56 downloaded;
  ann ← write_uint64 (big_endian env) ann 64 left;
  ann ← write_uint64 (big_endian env) ann 72 uploaded;
  ann ← write_uint32 ann 80 (event_val event);
  ann ← write_uint32 ann 84 0;
  ann ← write_uint32 ann 88 (u32 (key_rand env));
  ann ← write_uint32 ann 92 (u32 (-1));
  write_uint16 ann 96 listening_port.

(** [udp://host:port/path]: the host, and the port as it is written. *)
Definition udp_target (url : list byte) : list byte * list byte :=
  let host_port_path := zdrop 6 url in
  let host_port :=
    match find_char "/" host_port_path with
    | None => host_port_path
    | Some slash_pos => ztake slash_pos host_port_path
    end in
  match find_char ":" host_port with
  | None => (host_port, bs "6969")
  | Some colon_pos => (ztake colon_pos host_port, zdrop (colon_pos + 1) host_port)
  end.

(** Once connected: the announce, from the socket open to the socket closed. *)
Definition udp_announce (env : UdpEnv) (c : TrackerClient)
    (connection_id listening_port uploaded downloaded left : Z) (event : option (list byte))
    : Udp TrackerResponse :=
  ann ← pure (fill_announce env c connection_id listening_port uploaded downloaded left event);
  announced ← announce_loop env ann;
  cleanup ;;
  match announced with
  | None =>
      throw (bs "TrackerClient: failed to announce to UDP tracker after " ++
             to_string (Z.of_nat retry_attempts) ++ bs " attempts")
  | Some tracker_res => mret tracker_res
  end.

(** With the socket open: the connect loop, then the announce. *)
Definition udp_session (env : UdpEnv) (c : TrackerClient)
    (listening_port uploaded downloaded left : Z) (event : option (list byte))
    : Udp TrackerResponse :=
  req ← pure (write_uint64 (big_endian env) (vec_to_list (req_buf env)) 0 0x41727101980);
  req ← pure (write_uint32 req 8 0);
  connected ← connect_loop env req;
  match connected with
  | None =>
      cleanup ;;
      throw (bs "TrackerClient: failed to connect to UDP tracker after " ++
             to_string (Z.of_nat retry_attempts) ++ bs " attempts")
  | Some connection_id =>
      udp_announce env c connection_id listening_port uploaded downloaded left event
  end.

Definition announce_udp (env : UdpEnv) (c : TrackerClient) (url : list byte)
    (listening_port uploaded downloaded left : Z) (event : option (list byte))
    : Udp TrackerResponse :=
  if (zlen url <? 6) || negb (bool_decide (ztake 6 url = bs "udp://")) then
    throw (bs "TrackerClient: invalid UDP tracker URL scheme: " ++ url)
  else
    let '(host, port_str) := udp_target url in
    let gai_error := getaddrinfo_error env (c_str host) (c_str port_str) in
    call (Resolve (c_str host) (c_str port_str) (bool_decide (gai_error = None))) ;;
    match gai_error with
    | Some e =>
        throw (bs "TrackerClient: DNS resolution failed for " ++ host ++ bs ": " ++ e)
    | None =>
        match socket_error env with
        | Some e =>
            call FreeAddrInfo ;;
            throw (bs "TrackerClient: failed to create UDP socket: " ++ e)
        | None =>
            call OpenSocket ;;
            udp_session env c listening_port uploaded downloaded left event
        end
    end.

(** ** The announce list *)

Section Announce.
Variable curl : list byte → CurlResult.
(** What the [i]-th tracker's UDP exchange meets. *)
Variable env : nat → UdpEnv.
Variable c : TrackerClient.

Definition prefix_is (p : string) (l : list byte) : bool :=
  (zlen (bs p) <=? zlen l) && bool_decide (ztake (zlen (bs p)) l = bs p).

(** One URL of the list. *)
Definition announce_url_to (i : nat) (url : list byte)
    (listening_port uploaded downloaded left : Z) (event : option (list byte))
    : option (Udp TrackerResponse) :=
  if prefix_is "udp://" url then
    Some (announce_udp (env i) c url listening_port uploaded downloaded left event)
  else if prefix_is "http://" url || prefix_is "https://" url then
    Some (pure (announce_http curl c url listening_port uploaded downloaded left event))
  else None.

Fixpoint announce_all (i : nat) (urls : list (list byte)) (errors : list (list byte))
    (listening_port uploaded downloaded left : Z) (event : option (list byte))
    : Udp TrackerResponse := λ tr,
  match urls with
  | [] =>
      let combined_error :=
        foldl (λ combined err, combined ++ bs "  - " ++ err ++ [x0a])
          (bs "TrackerClient: announce failed for all trackers. Errors:" ++ [x0a]) errors in
      throw combined_error tr
  | url :: urls =>
      match announce_url_to i url listening_port uploaded downloaded left event with
      | None =>
          announce_all (S i) urls (errors ++ [url ++ bs ": unsupported scheme"])
            listening_port uploaded downloaded left event tr
      | Some run =>
          match run tr with
          | (tr, Throw e) =>
              announce_all (S i) urls (errors ++ [url ++ bs ": " ++ what e])
                listening_port uploaded downloaded left event tr
          | r => r
          end
      end
  end.

Definition announce (listening_port uploaded downloaded left : Z) (event : option (list byte))
    : Udp TrackerResponse :=
  announce_all 0 (announce_list (torrent_ c)) [] listening_port uploaded downloaded left event.
End Announce.

(** ** Byte order is network order on every host *)

Lemma land_byte v k :
  0 ≤ v → 0 ≤ k → Z.land v (Z.shiftl 255 k) = (v / 2 ^ k) mod 256 * 2 ^ k.
Proof.
  intros Hv Hk. change 255 with (Z.ones 8). change 256 with (2 ^ 8).
  rewrite <- Z.land_ones, <- Z.shiftr_div_pow2, <- Z.shiftl_mul_pow2 by lia.
  apply Z.bits_inj'. intros n Hn. rewrite Z.land_spec.
  destruct (decide (k ≤ n)).
  - rewrite !Z.shiftl_spec, Z.land_spec, Z.shiftr_spec by lia. do 2 f_equal. lia.
  - rewrite !Z.shiftl_spec_low by lia. apply andb_false_r.
Qed.

Lemma lor_low a b k : 0 ≤ k → 0 ≤ b < 2 ^ k → Z.lor (a * 2 ^ k) b = a * 2 ^ k + b.
Proof.
  intros Hk Hb. pose proof (Z.add_lor_land (a * 2 ^ k) b) as E.
  assert (Z.land (a * 2 ^ k) b = 0) as E0; [|lia].
  apply Z.bits_inj'. intros n Hn. rewrite Z.land_spec, Z.bits_0.
  destruct (decide (n < k)).
  - by rewrite Z.mul_pow2_bits_low.
  - apply andb_false_intro2. rewrite <- (Z.mod_small b (2 ^ k)) by done.
    apply Z.mod_pow2_bits_high. lia.
Qed.

(** [(b << k) << j], and [(b << k) >> j], for a byte [b]. *)
Lemma shl_byte b k j : 0 ≤ b < 256 → 0 ≤ k → 0 ≤ j → k + j ≤ 56 →
  u64 (Z.shiftl (b * 2 ^ k) j) = b * 2 ^ (k + j).
Proof.
  intros. rewrite Z.shiftl_mul_pow2, <- Z.mul_assoc, <- Z.pow_add_r by lia.
  apply Z.mod_small. pose proof (Z.pow_le_mono_r 2 (k + j) 56 ltac:(lia)).
  pose proof (Z.pow_pos_nonneg 2 (k + j)). nia.
Qed.
Lemma shr_byte b k j : 0 ≤ j ≤ k → Z.shiftr (b * 2 ^ k) j = b * 2 ^ (k - j).
Proof.
  intros. rewrite Z.shiftr_div_pow2 by lia. replace k with (k - j + j) at 1 by lia.
  rewrite Z.pow_add_r, Z.mul_assoc, Z.div_mul; lia.
Qed.

Lemma lor_byte a b k k' :
  0 ≤ b < 256 → 0 ≤ k → k' = k + 8 →
  Z.lor (a * 2 ^ k') (b * 2 ^ k) = (a * 256 + b) * 2 ^ k.
Proof.
  intros. subst k'. rewrite lor_low; rewrite ?Z.pow_add_r by lia; [lia..|].
  pose proof (Z.pow_pos_nonneg 2 k). nia.
Qed.

Lemma be_bytes_8 v :
  be_bytes 8 v = z2b <$> [v / 2 ^ 56; v / 2 ^ 48; v / 2 ^ 40; v / 2 ^ 32; v / 2 ^ 24;
                          v / 2 ^ 16; v / 2 ^ 8; v / 2 ^ 0].
Proof. rewrite Z.div_1_r. unfold be_bytes. rewrite !Z.div_div by lia. done. Qed.

Lemma swap64_value v : 0 ≤ v → swap64 v = be_value (reverse (be_bytes 8 v)).
Proof.
  intros Hv. unfold swap64.
  change 0xFF with (Z.shiftl 255 0). change 0xFF00 with (Z.shiftl 255 8).
  change 0xFF0000 with (Z.shiftl 255 16). change 0xFF000000 with (Z.shiftl 255 24).
  change 0xFF00000000 with (Z.shiftl 255 32). change 0xFF0000000000 with (Z.shiftl 255 40).
  change 0xFF000000000000 with (Z.shiftl 255 48).
  change 0xFF00000000000000 with (Z.shiftl 255 56).
  rewrite !land_byte by lia.
  pose proof (λ k, Z.mod_pos_bound (v / 2 ^ k) 256 eq_refl) as Hb.
  rewrite !shl_byte by (auto; lia). rewrite !shr_byte by lia.
  rewrite (lor_byte _ _ 48 56), (lor_byte _ _ 40 48), (lor_byte _ _ 32 40), (lor_byte _ _ 24 32),
    (lor_byte _ _ 16 24), (lor_byte _ _ 8 16), (lor_byte _ _ 0 8) by (auto; lia).
  rewrite be_bytes_8, Z.mul_1_r. unfold be_value. simpl. by rewrite !b2z_z2b.
Qed.

Lemma reverse_be_bytes n v : be_value (reverse (be_bytes n v)) < 256 ^ Z.of_nat n.
Proof.
  pose proof (be_value_range (reverse (be_bytes n v))) as H.
  unfold zlen in H. rewrite length_reverse in H. fold (zlen (be_bytes n v)) in H.
  rewrite zlen_be_bytes in H. lia.
Qed.

Lemma length_be_bytes n v : List.length (be_bytes n v) = n.
Proof. pose proof (zlen_be_bytes n v). unfold zlen in *. lia. Qed.

(** What is copied to the wire is the big-endian integer, on either host, and it is
    read back as the integer. *)
Lemma write_uint64_be big buf pos v :
  0 ≤ v → write_uint64 big buf pos v = copy_at buf pos (be_bytes 8 v).
Proof.
  intros Hv. unfold write_uint64. f_equal. destruct big; unfold hton64, store_bytes; [done|].
  rewrite bool_decide_eq_false_2 by done. rewrite swap64_value by done.
  rewrite <- (reverse_involutive (be_bytes 8 v)) at 2. f_equal.
  replace 8%nat with (List.length (reverse (be_bytes 8 v))) at 1
    by by rewrite length_reverse, length_be_bytes.
  apply be_bytes_value.
Qed.

Lemma read_uint64_be big buf pos :
  0 ≤ pos → read_uint64 big buf pos = l ← read_at buf pos 8; Ok (be_value l).
Proof.
  intros Hpos. unfold read_uint64, read_at. case_ifs; [|done]. simpl. f_equal.
  set (l := slice pos 8 buf).
  assert (zlen l = 8) as Hl by (apply zlen_slice; lia).
  assert (List.length l = 8%nat) as Hl' by (unfold zlen in Hl; lia). clear Hl.
  unfold ntoh64, hton64, load_bytes, store_bytes. destruct big; [done|].
  rewrite bool_decide_eq_false_2 by done. rewrite swap64_value by apply be_value_range.
  replace 8%nat with (List.length (reverse l)) by by rewrite length_reverse.
  by rewrite be_bytes_value, reverse_involutive.
Qed.

(** ** The query a tracker reads *)

Definition encode_byte (byte : Byte.byte) : list Byte.byte :=
  if unreserved byte then [byte]
  else ["%"%byte; hex_char (Z.land (Z.shiftr (b2z byte) 4) 0x0F);
        hex_char (Z.land (b2z byte) 0x0F)].

Lemma url_encode_concat data : url_encode data = concat (encode_byte <$> data).
Proof.
  unfold url_encode. rewrite (foldl_append _ encode_byte); [done|].
  apply Forall_true. intros b acc. unfold encode_byte. by case_ifs.
Qed.

(** Percent-decoding, and the parameters of a query string. *)
Definition hex_value (b : byte) : option Z :=
  (λ ic, Z.of_nat ic.1) <$> list_find (λ c, c = b) hex_chars.

Fixpoint url_decode (l : list byte) : option (list byte) :=
  match l with
  | [] => Some []
  | b :: r =>
      if beq b "%" then
        match r with
        | x :: y :: r =>
            h ← hex_value x; l ← hex_value y; cons (z2b (16 * h + l)) <$> url_decode r
        | _ => None
        end
      else cons b <$> url_decode r
  end.

Fixpoint split_on (c : byte) (l : list byte) : list (list byte) :=
  match l with
  | [] => [[]]
  | b :: r =>
      if beq b c then [] :: split_on c r
      else match split_on c r with [] => [[b]] | x :: xs => (b :: x) :: xs end
  end.

Definition param (kv : list byte) : option (list byte * list byte) :=
  i ← find_char "=" kv; v ← url_decode (zdrop (i + 1) kv); Some (ztake i kv, v).

Definition query_params (query : list byte) : option (list (list byte * list byte)) :=
  mapM param (split_on "&" query).

Definition url_safe (b : byte) : bool := unreserved b || beq b "%".

Lemma encode_byte_safe b : Forall (λ x, url_safe x = true) (encode_byte b).
Proof. destruct b; repeat constructor. Qed.

Lemma url_decode_byte b r : url_decode (encode_byte b ++ r) = cons b <$> url_decode r.
Proof. destruct b; reflexivity. Qed.

Lemma url_encode_safe data : Forall (λ x, url_safe x = true) (url_encode data).
Proof.
  rewrite url_encode_concat. induction data; simpl; [constructor|].
  apply Forall_app. auto using encode_byte_safe.
Qed.

Lemma url_decode_encode data : url_decode (url_encode data) = Some data.
Proof.
  rewrite url_encode_concat. induction data as [|b data IH]; [done|].
  rewrite fmap_cons. cbn [concat]. by rewrite url_decode_byte, IH.
Qed.

Lemma url_decode_unreserved v : Forall (λ x, unreserved x = true) v → url_decode v = Some v.
Proof.
  induction 1 as [|b v Hb _ IH]; simpl; [done|]. rewrite IH.
  destruct (beq b "%") eqn:E; [|done]. apply beq_true in E. subst. done.
Qed.

Lemma unreserved_safe v :
  Forall (λ x, unreserved x = true) v → Forall (λ x, url_safe x = true) v.
Proof. intros H. eapply Forall_impl; [exact H|]. intros x Hx. unfold url_safe. by rewrite Hx. Qed.

Lemma digits_unreserved n : 0 ≤ n → Forall (λ x, unreserved x = true) (to_string n).
Proof.
  intros Hn. unfold to_string. rewrite (proj2 (Z.ltb_ge _ _)) by done.
  eapply Forall_impl; [apply (to_digits_canonical n Hn)|]. intros x Hx.
  by destruct x.
Qed.

Lemma safe_not_in c v :
  Forall (λ x, url_safe x = true) v → url_safe c = false → c ∉ v.
Proof. intros Hv Hc Hin. rewrite Forall_forall in Hv. apply Hv in Hin. congruence. Qed.

Lemma find_char_app c a r : c ∉ a → find_char c (a ++ c :: r) = Some (zlen a).
Proof.
  induction a as [|x a IH]; intros Ha; simpl; [by rewrite beq_refl|].
  rewrite not_elem_of_cons in Ha. destruct Ha as [Hx Ha].
  rewrite (proj2 (beq_false _ _)) by done. rewrite IH by done. simpl. f_equal.
  rewrite zlen_cons. lia.
Qed.

Lemma split_on_none c l : c ∉ l → split_on c l = [l].
Proof.
  induction l as [|x l IH]; intros Hl; simpl; [done|].
  rewrite not_elem_of_cons in Hl. destruct Hl as [Hx Hl].
  by rewrite (proj2 (beq_false _ _)), IH.
Qed.

Lemma split_on_app c l r : c ∉ l → split_on c (l ++ c :: r) = l :: split_on c r.
Proof.
  induction l as [|x l IH]; intros Hl; simpl; [by rewrite beq_refl|].
  rewrite not_elem_of_cons in Hl. destruct Hl as [Hx Hl].
  by rewrite (proj2 (beq_false _ _)), IH.
Qed.

(** One parameter of a query: its key, the text after [=] and what that decodes to. *)
Record Param := mk_param { pa_key : list byte; pa_text : list byte; pa_value : list byte }.
Definition param_ok (p : Param) : Prop :=
  Forall (λ x, url_safe x = true) (pa_key p) ∧
  Forall (λ x, url_safe x = true) (pa_text p) ∧ url_decode (pa_text p) = Some (pa_value p).
Definition render (p : Param) : list byte := pa_key p ++ "="%byte :: pa_text p.
Fixpoint render_all (p : Param) (ps : list Param) : list byte :=
  render p ++ match ps with [] => [] | q :: ps => "&"%byte :: render_all q ps end.

Lemma param_render p : param_ok p → param (render p) = Some (pa_key p, pa_value p).
Proof.
  intros (Hk & _ & Hd). unfold param, render.
  rewrite find_char_app by by eapply safe_not_in. simpl.
  replace (zlen (pa_key p) + 1) with (zlen (pa_key p ++ ["="%byte])) by by rewrite zlen_app.
  replace (pa_key p ++ "="%byte :: pa_text p) with ((pa_key p ++ ["="%byte]) ++ pa_text p)
    by by rewrite <- app_assoc.
  rewrite zdrop_app, Hd, <- app_assoc. simpl. by rewrite ztake_app.
Qed.

Lemma render_no c p :
  param_ok p → url_safe c = false → c ≠ "="%byte → c ∉ render p.
Proof.
  intros (Hk & Ht & _) Hc Hne. unfold render. rewrite elem_of_app, elem_of_cons.
  intros [?|[?|?]]; [by apply (safe_not_in c (pa_key p))|done|by apply (safe_not_in c (pa_text p))].
Qed.

Lemma render_all_no c p ps :
  Forall param_ok (p :: ps) → url_safe c = false → c ≠ "="%byte → c ≠ "&"%byte →
  c ∉ render_all p ps.
Proof.
  intros Hps Hc H1 H2. revert p Hps.
  induction ps as [|q ps IH]; intros p Hp; inversion_clear Hp as [|?? Hp1 Hps]; cbn [render_all].
  - rewrite app_nil_r. by apply render_no.
  - rewrite elem_of_app, elem_of_cons. intros [?|[?|?]]; [by apply (render_no c p)|done|].
    by apply (IH q).
Qed.

Lemma query_params_render p ps :
  Forall param_ok (p :: ps) →
  query_params (render_all p ps) = Some ((λ p, (pa_key p, pa_value p)) <$> p :: ps).
Proof.
  unfold query_params. revert p. induction ps as [|q ps IH]; intros p Hp;
    inversion_clear Hp as [|?? Hp1 Hps]; cbn [render_all];
    pose proof (render_no "&" p Hp1 eq_refl ltac:(done)).
  - rewrite app_nil_r, split_on_none by done. simpl. by rewrite param_render.
  - rewrite split_on_app by done. simpl. rewrite param_render by done. simpl.
    by rewrite (IH q Hps).
Qed.

Lemma c_str_id l : x00 ∉ l → c_str l = l.
Proof.
  induction l as [|b l IH]; intros Hl; simpl; [done|]. rewrite not_elem_of_cons in Hl.
  destruct Hl as [Hb Hl]. by rewrite (proj2 (beq_false _ _)), IH by done.
Qed.

(** What the tracker is to find in the query. *)
Definition announce_params (c : TrackerClient) (listening_port uploaded downloaded left : Z)
    (event : option (list byte)) : list (list byte * list byte) :=
  [(bs "info_hash", info_hash (torrent_ c)); (bs "peer_id", peer_id_ c);
   (bs "port", to_string listening_port); (bs "uploaded", to_string uploaded);
   (bs "downloaded", to_string downloaded); (bs "left", to_string left);
   (bs "compact", bs "1")] ++
  match event with
  | Some ev => if bool_decide (ev = []) then [] else [(bs "event", ev)]
  | None => []
  end.

Definition encoded (key : string) (value : list byte) : Param :=
  mk_param (bs key) (url_encode value) value.
Definition verbatim (key : string) (value : list byte) : Param := mk_param (bs key) value value.

Lemma encoded_ok key value :
  Forall (λ x, url_safe x = true) (bs key) → param_ok (encoded key value).
Proof. intros. split_and!; [done|apply url_encode_safe|apply url_decode_encode]. Qed.

Lemma verbatim_ok key value :
  Forall (λ x, url_safe x = true) (bs key) → Forall (λ x, unreserved x = true) value →
  param_ok (verbatim key value).
Proof. intros. split_and!; [done|by apply unreserved_safe|by apply url_decode_unreserved]. Qed.

(** The parameters [build_url] writes, after the first. *)
Definition rest_params (c : TrackerClient) (listening_port uploaded downloaded left : Z)
    (event : option (list byte)) : list Param :=
  [encoded "peer_id" (peer_id_ c); verbatim "port" (to_string listening_port);
   verbatim "uploaded" (to_string uploaded); verbatim "downloaded" (to_string downloaded);
   verbatim "left" (to_string left); verbatim "compact" (bs "1")] ++
  match event with
  | Some ev => if bool_decide (ev = []) then [] else [verbatim "event" ev]
  | None => []
  end.

Lemma build_url_query c base lp up down left ev :
  build_url c base lp up down left ev =
  (base ++ match find_char "?" base with None => bs "?" | Some _ => bs "&" end) ++
  render_all (encoded "info_hash" (info_hash (torrent_ c))) (rest_params c lp up down left ev).
Proof.
  unfold build_url, rest_params. destruct ev as [ev|]; [case_bool_decide|];
    cbn [app render_all]; unfold render, encoded, verbatim, pa_key, pa_text;
    change (bs "info_hash=") with (bs "info_hash" ++ ["="%byte]);
    change (bs "&peer_id=") with ("&"%byte :: bs "peer_id" ++ ["="%byte]);
    change (bs "&port=") with ("&"%byte :: bs "port" ++ ["="%byte]);
    change (bs "&uploaded=") with ("&"%byte :: bs "uploaded" ++ ["="%byte]);
    change (bs "&downloaded=") with ("&"%byte :: bs "downloaded" ++ ["="%byte]);
    change (bs "&left=") with ("&"%byte :: bs "left" ++ ["="%byte]);
    change (bs "&compact=1") with ("&"%byte :: bs "compact" ++ "="%byte :: bs "1");
    change (bs "&event=") with ("&"%byte :: bs "event" ++ ["="%byte]);
    repeat (rewrite <- !app_assoc || rewrite <- !app_comm_cons);
    rewrite ?app_nil_r; reflexivity.
Qed.

(** C32: The query the HTTP announce appends to the tracker's URL, after [?] or [&],
    splits and percent-decodes into exactly the announce parameters, whatever bytes
    the info hash and the peer id hold; and the URL contains no zero byte that would
    cut it short, if the base URL has none. *)
Theorem announce_query_roundtrip (c : TrackerClient) (base : list byte)
    (listening_port uploaded downloaded left : Z) (event : option (list byte))
    (Hport : 0 ≤ listening_port) (Hup : 0 ≤ uploaded) (Hdown : 0 ≤ downloaded)
    (Hleft : 0 ≤ left)
    (Hevent : Forall (λ b, unreserved b = true) (default [] event)) :
  ∃ query,
    build_url c base listening_port uploaded downloaded left event =
      (base ++ match find_char "?" base with None => bs "?" | Some _ => bs "&" end) ++ query ∧
    query_params query = Some (announce_params c listening_port uploaded downloaded left event) ∧
    (x00 ∉ base →
     c_str (build_url c base listening_port uploaded downloaded left event) =
     build_url c base listening_port uploaded downloaded left event).
Proof.
  assert (Forall param_ok (encoded "info_hash" (info_hash (torrent_ c)) ::
    rest_params c listening_port uploaded downloaded left event)) as Hok.
  { unfold rest_params. rewrite Forall_cons, Forall_app, !Forall_cons, Forall_nil.
    split_and!; try (apply encoded_ok || apply verbatim_ok); auto using digits_unreserved;
      try by repeat constructor.
    destruct event as [ev|]; [case_bool_decide|]; repeat constructor; auto using unreserved_safe,
      url_decode_unreserved. }
  rewrite !build_url_query. eexists. split_and!; [done| |].
  - rewrite query_params_render by done. unfold announce_params, rest_params.
    destruct event as [ev|]; [case_bool_decide|]; done.
  - intros Hb. apply c_str_id. rewrite !elem_of_app. intros [[?|H]|H]; [done| |].
    + destruct (find_char _ _); by apply list_elem_of_singleton in H.
    + by apply (render_all_no x00) in H.
Qed.

(** ** Compact peers *)

Record Endpoint := mk_endpoint {
  e1 : byte; e2 : byte; e3 : byte; e4 : byte; e_port : Z;
}.
Definition compact (e : Endpoint) : list byte :=
  [e1 e; e2 e; e3 e; e4 e] ++ be_bytes 2 (e_port e).
Definition port_ok (e : Endpoint) : Prop := 0 ≤ e_port e < 2 ^ 16.
Definition peer_of (e : Endpoint) : PeerInfo :=
  mk_peer_info (dotted (b2z (e1 e)) (b2z (e2 e)) (b2z (e3 e)) (b2z (e4 e))) (e_port e) [].

Lemma be_bytes_2 v : be_bytes 2 v = [z2b (v / 256); z2b v].
Proof. done. Qed.

Lemma zlen_compact e : zlen (compact e) = 6.
Proof. done. Qed.

Lemma zlen_compacts es : zlen (concat (compact <$> es)) = 6 * zlen es.
Proof.
  induction es as [|e es IH]; [done|]. rewrite fmap_cons. cbn [concat].
  rewrite zlen_app, zlen_compact, IH, zlen_cons. lia.
Qed.

(** Any bytes are compact peers and a rest of less than six bytes. *)
Lemma compact_split l :
  ∃ es rest, l = concat (compact <$> es) ++ rest ∧ zlen rest < 6 ∧ Forall port_ok es.
Proof.
  remember (List.length l) as n eqn:Hn. revert l Hn.
  induction n as [n IH] using (well_founded_induction lt_wf). intros l ->.
  destruct (decide (zlen l < 6)); [by exists [], l|].
  destruct l as [|a [|b [|c [|d [|x [|y l]]]]]]; try (unfold zlen in *; simpl in *; lia).
  destruct (IH (List.length l) ltac:(simpl; lia) l eq_refl) as (es & rest & -> & Hr & Hes).
  pose proof (be_value_range [x; y]) as Hp.
  exists (mk_endpoint a b c d (be_value [x; y]) :: es), rest. split_and!; [|done|by constructor].
  rewrite fmap_cons. cbn [concat]. unfold compact at 2. cbn [e1 e2 e3 e4 e_port].
  pose proof (be_bytes_value [x; y]) as E. simpl in E. by rewrite E.
Qed.

Lemma byte_at_app pre b post i : i = zlen pre → byte_at (pre ++ b :: post) i = Ok (b2z b).
Proof.
  intros ->. unfold byte_at. rewrite znth_app, Z.ltb_irrefl, Z.sub_diag. done.
Qed.

Lemma byte_at_mid pre mid b post i :
  i = zlen pre + zlen mid → byte_at (pre ++ mid ++ b :: post) i = Ok (b2z b).
Proof. intros ->. rewrite app_assoc. apply byte_at_app. by rewrite zlen_app. Qed.

(** The six bytes of an endpoint at [zlen pre]. *)
Lemma compact_bytes pre e post :
  let l := pre ++ compact e ++ post in
  let i := zlen pre in
  byte_at l i = Ok (b2z (e1 e)) ∧ byte_at l (i + 1) = Ok (b2z (e2 e)) ∧
  byte_at l (i + 2) = Ok (b2z (e3 e)) ∧ byte_at l (i + 3) = Ok (b2z (e4 e)) ∧
  byte_at l (i + 4) = Ok (e_port e / 256 mod 256) ∧ byte_at l (i + 5) = Ok (e_port e mod 256).
Proof.
  intros l i. subst l i. unfold compact. rewrite be_bytes_2, <- !b2z_z2b. cbn [app].
  split_and!; [by apply byte_at_app|..].
  - by apply (byte_at_mid pre [e1 e]).
  - by apply (byte_at_mid pre [e1 e; e2 e]).
  - by apply (byte_at_mid pre [e1 e; e2 e; e3 e]).
  - by apply (byte_at_mid pre [e1 e; e2 e; e3 e; e4 e]).
  - by apply (byte_at_mid pre [e1 e; e2 e; e3 e; e4 e; z2b (e_port e / 256)]).
Qed.

Lemma port_of_bytes p :
  0 ≤ p < 2 ^ 16 → u16 (Z.lor (Z.shiftl (p / 256 mod 256) 8) (p mod 256)) = p.
Proof.
  intros Hp. pose proof (Z.mod_pos_bound p 256 eq_refl). pose proof (Z.div_mod p 256 ltac:(lia)).
  rewrite (Z.mod_small (p / 256)) by (split; [apply Z.div_pos|apply Z.div_lt_upper_bound]; lia).
  rewrite Z.shiftl_mul_pow2, lor_low by lia. rewrite wrap_small; lia.
Qed.

Lemma compact_loop_ok fuel pre es acc :
  (List.length es < fuel)%nat → Forall port_ok es →
  compact_loop fuel (pre ++ concat (compact <$> es)) (zlen pre) acc =
  Ok (acc ++ (peer_of <$> es)).
Proof.
  revert pre es acc. induction fuel as [|f IH]; intros pre es acc Hf Hes; [lia|].
  cbn [compact_loop]. rewrite zlen_app, zlen_compacts. pose proof (zlen_nonneg es).
  destruct es as [|e es]; [rewrite (proj2 (Z.ltb_ge _ _)) by (unfold zlen; simpl; lia); by rewrite app_nil_r|].
  rewrite (proj2 (Z.ltb_lt _ _)) by (rewrite zlen_cons; pose proof (zlen_nonneg es); lia).
  inversion_clear Hes as [|?? He Hes']. rewrite fmap_cons. cbn [concat].
  destruct (compact_bytes pre e (concat (compact <$> es))) as (-> & -> & -> & -> & -> & ->).
  cbn [mbind outcome_bind]. rewrite port_of_bytes by done. fold (peer_of e).
  replace (zlen pre + 6) with (zlen (pre ++ compact e)) by by rewrite zlen_app, zlen_compact.
  rewrite app_assoc, IH by (simpl in Hf; auto with lia). by rewrite <- app_assoc.
Qed.

Lemma parse_encode v : wf_value v → parse (encode v) = Ok v.
Proof. intros. by apply parse_ok. Qed.

(** C33: On the encoding of any dictionary a tracker can send: a failure reason is
    returned whatever else is there; compact peers come back as the endpoints they
    encode, in order, their addresses dotted, with the counters of the dictionary; a
    peer string that is not a multiple of six bytes is refused. *)
Theorem parse_response_spec (d : BencodeDict) (Hd : wf_value (BDict d)) :
  (∀ reason, dict_find (bs "failure reason") d = Some (BString reason) →
     parse_response (encode (BDict d)) = Ok (mk_response 0 0 0 [] reason)) ∧
  (∀ i c l es, dict_find (bs "failure reason") d = None →
     field as_int "interval" 0 d = Ok i → field as_int "complete" 0 d = Ok c →
     field as_int "incomplete" 0 d = Ok l → Forall port_ok es →
     dict_find (bs "peers") d = Some (BString (concat (compact <$> es))) →
     parse_response (encode (BDict d)) = Ok (mk_response i c l (peer_of <$> es) [])) ∧
  (∀ i c l s, dict_find (bs "failure reason") d = None →
     field as_int "interval" 0 d = Ok i → field as_int "complete" 0 d = Ok c →
     field as_int "incomplete" 0 d = Ok l →
     dict_find (bs "peers") d = Some (BString s) → zlen s mod 6 ≠ 0 →
     parse_response (encode (BDict d)) = Throw (runtime_error
       "TrackerClient: compact peers string length must be a multiple of 6")).
Proof.
  unfold parse_response. rewrite parse_encode by done.
  cbn [mbind outcome_bind is_dict negb as_dict]. split_and!.
  - intros reason ->. done.
  - intros i c l es -> -> -> -> Hes Hp. cbn [mbind outcome_bind]. unfold response_peers.
    rewrite Hp, zlen_compacts, Z.mul_comm, Z.mod_mul by lia. cbn [Z.eqb negb].
    rewrite (compact_loop_ok _ [] es []); [done| |done].
    pose proof (zlen_compacts es). unfold zlen in *. lia.
  - intros i c l s -> -> -> -> Hp Hs. cbn [mbind outcome_bind]. unfold response_peers.
    by rewrite Hp, (proj2 (Z.eqb_neq _ _)).
Qed.

(** ** Responses that are not well formed *)

Lemma field_defined {A} (as_a : BencodeValue → outcome A) key dflt d :
  (∀ v, defined (as_a v)) → defined (field as_a key dflt d).
Proof. intros H. unfold field. by destruct (dict_find _ d). Qed.

Lemma as_int_defined v : defined (as_int v).
Proof. by destruct v. Qed.
Lemma as_string_defined v : defined (as_string v).
Proof. by destruct v. Qed.
#[local] Hint Resolve as_int_defined as_string_defined field_defined : p2p.

Definition has_port (p : BencodeDict) : Prop := dict_find (bs "port") p ≠ None.

Lemma dict_peer_defined p : has_port p → defined (dict_peer p).
Proof.
  intros Hp. unfold dict_peer. apply defined_bind; [auto with p2p|]. intros ip _.
  apply defined_bind.
  { apply field_defined. intros v. apply defined_bind; [auto with p2p|done]. }
  intros port Hport. apply defined_bind; [auto with p2p|]. intros id _.
  destruct port; [done|]. exfalso. unfold field, has_port in *.
  destruct (dict_find (bs "port") p); [|done]. by inv_ok Hport.
Qed.

Lemma peer_list_defined l acc :
  Forall (λ v, ∀ p, v = BDict p → has_port p) l → defined (peer_list_loop l acc).
Proof.
  intros Hl. revert acc. induction Hl as [|v l Hv _ IH]; intros acc; simpl; [done|].
  destruct v; auto. apply defined_bind; auto using dict_peer_defined.
Qed.

Lemma compact_peers_defined s : zlen s mod 6 = 0 → defined (compact_loop (S (List.length s)) s 0 []).
Proof.
  intros Hs. destruct (compact_split s) as (es & rest & E & Hr & Hes).
  assert (rest = []) as ->.
  { assert (zlen s = 6 * zlen es + zlen rest) as Hl by (rewrite E, zlen_app, zlen_compacts; lia).
    pose proof (zlen_nonneg rest).
    pose proof (Z.mod_unique (zlen s) 6 (zlen es) (zlen rest) ltac:(lia) Hl).
    destruct rest; [done|]. rewrite zlen_cons in *. pose proof (zlen_nonneg rest). lia. }
  rewrite app_nil_r in E. rewrite E at 2. rewrite (compact_loop_ok _ [] es []); [done| |done].
  pose proof (zlen_compacts es). subst s. unfold zlen in *. lia.
Qed.

Lemma response_peers_defined d :
  (∀ l p, dict_find (bs "peers") d = Some (BList l) → BDict p ∈ l → has_port p) →
  defined (response_peers d).
Proof.
  intros H. unfold response_peers. destruct (dict_find (bs "peers") d) as [[| s | l |]|]; try done.
  - destruct (Z.eqb_spec (zlen s mod 6) 0); [by apply compact_peers_defined|done].
  - apply peer_list_defined, Forall_forall. intros v Hv p ->. by eapply H.
Qed.

Definition portless_response : list byte := bs "d5:peersld2:ip9:127.0.0.1eee".

(** Parsing a response, whatever its bytes, ends with a value or an exception as
    long as every dictionary in its peer list has a port; a dictionary without one
    makes the parser copy [PeerInfo::port], which nothing has initialised. *)
Theorem parse_response_outcomes :
  (∀ data,
     (∀ d l p, parse data = Ok (BDict d) → dict_find (bs "peers") d = Some (BList l) →
        BDict p ∈ l → dict_find (bs "port") p ≠ None) →
     defined (parse_response data)) ∧
  parse_response portless_response = UB "read of an indeterminate value".
Proof.
  split; [|done]. intros data Hdata. unfold parse_response. pose proof (parse_is_defined data) as Hp.
  apply defined_bind; [by destruct (parse data)|]. intros root Hroot.
  assert (parse data = Ok root) as Er by by destruct (parse data).
  case_ifs; [done|]. apply defined_bind; [by destruct root|]. intros d Hd.
  assert (root = BDict d) as -> by (destruct root; simplify_eq/=; done).
  destruct (dict_find _ d); [by apply defined_bind; [auto with p2p|]|].
  do 3 (apply defined_bind; [by auto with p2p|intros ? _]).
  apply defined_bind; [|done]. apply response_peers_defined. unfold has_port. eauto.
Qed.


(** ** Witnesses *)

Lemma announce_query_roundtrip_witness :
  let c := mk_tracker (mk_torrent [] [] [] 0 0 0 [] [] [x00; "&"%byte; "a"%byte; "%"%byte; xff])
             (bs "-DT0001-") in
  Forall (λ b, unreserved b = true) (bs "started") ∧
  build_url c (bs "http://t/a?k=1") 6881 0 0 16 (Some (bs "started")) =
    bs "http://t/a?k=1&info_hash=%00%26a%25%ff&peer_id=-DT0001-&port=6881&uploaded=0&downloaded=0&left=16&compact=1&event=started" ∧
  ∃ query, query_params query = Some (announce_params c 6881 0 0 16 (Some (bs "started"))).
Proof.
  intros c. split; [by repeat constructor|]. split; [vm_compute; reflexivity|].
  destruct (announce_query_roundtrip c (bs "http://t/a?k=1") 6881 0 0 16 (Some (bs "started"))
    ltac:(lia) ltac:(lia) ltac:(lia) ltac:(lia) ltac:(by repeat constructor)) as (q & _ & Hq & _).
  exists q. exact Hq.
Defined.

Definition sample_dict : BencodeDict :=
  [(bs "interval", BInt 1800); (bs "peers", BString (compact (mk_endpoint x7f x00 x00 x01 80)))].

Lemma sample_dict_wf : wf_value (BDict sample_dict).
Proof. apply (parse_ok (encode (BDict sample_dict))). vm_compute. reflexivity. Qed.

Lemma parse_response_spec_witness :
  wf_value (BDict sample_dict) ∧
  parse_response (encode (BDict sample_dict)) =
    Ok (mk_response 1800 0 0 [mk_peer_info (bs "127.0.0.1") 80 []] []).
Proof.
  split; [exact sample_dict_wf|].
  destruct (parse_response_spec sample_dict sample_dict_wf) as (_ & H & _).
  rewrite (H 1800 0 0 [mk_endpoint x7f x00 x00 x01 80]); [vm_compute; reflexivity|
    vm_compute; reflexivity..| |vm_compute; reflexivity].
  repeat constructor; done.
Defined.
