(* ===== verification/TrackerUdp.v ===== *)
(** * The UDP announce and the announce list: proofs

    What Tracker.v defines, run against every environment: the datagrams are those of
    BEP 15 whatever the buffers held and whichever the host's byte order, a response
    is returned only when the tracker gave it to this exchange, the socket and the
    address list are released on every path, and [announce] is the first tracker that
    does not fail. *)

From S2P Require Import Prelude StdString Bencode Hasher Torrent Tracker.

(** ** One attempt of the UDP loops *)

(** The datagram an attempt gets, as much of it as the buffer holds. *)
Definition reply_of (t : Try) : option (list byte) :=
  match setsockopt_error t with
  | None => if sendto_ok t then ztake resp_size <$> datagram t else None
  | Some _ => None
  end.

(** It is at least [min_size] bytes, for this transaction, with action [action]. *)
Definition answers (t : Try) (min_size action : Z) (data : list byte) : Prop :=
  reply_of t = Some data ∧ min_size ≤ zlen data ∧
  be_value (slice 0 4 data) = action ∧ be_value (slice 4 4 data) = u32 (rand t).

(** The request with the attempt's transaction id. *)
Definition with_tid (buf : list byte) (t : Try) : list byte :=
  splice 12 (be_bytes 4 (u32 (rand t))) buf.

(** The calls an attempt makes and how it ends. *)
Inductive attempt_spec (t : Try) (buf : list byte) (min_size want timeout : Z)
    : list UdpCall → outcome (option (list byte) * Z) → Prop :=
| attempt_unset e :
    setsockopt_error t ≠ None →
    attempt_spec t buf min_size want timeout
      [SetTimeout timeout; FreeAddrInfo; CloseSocket] (Throw e)
| attempt_refused e data :
    answers t min_size 3 data →
    attempt_spec t buf min_size want timeout
      [SetTimeout timeout; SendTo (with_tid buf t); FreeAddrInfo; CloseSocket] (Throw e)
| attempt_again timeout' :
    (∀ data, ¬ answers t min_size want data) → timeout' = timeout ∨ timeout' = timeout * 2 →
    attempt_spec t buf min_size want timeout
      [SetTimeout timeout; SendTo (with_tid buf t)] (Ok (None, timeout'))
| attempt_reply data :
    answers t min_size want data →
    attempt_spec t buf min_size want timeout
      [SetTimeout timeout; SendTo (with_tid buf t)] (Ok (Some data, timeout)).

Lemma read_uint32_ok buf pos :
  pos + 4 ≤ zlen buf → read_uint32 buf pos = Ok (be_value (slice pos 4 buf)).
Proof. intros. unfold read_uint32, read_uint32_be, read_at. by rewrite (proj2 (Z.leb_le _ _)). Qed.

Lemma write_uint32_ok buf pos v :
  pos + 4 ≤ zlen buf → write_uint32 buf pos v = Ok (splice pos (be_bytes 4 v) buf).
Proof.
  intros. unfold write_uint32, write_uint32_be, copy_at.
  by rewrite zlen_be_bytes, (proj2 (Z.leb_le _ _)).
Qed.

Lemma call_bind {A} c (m : Udp A) tr : (call c ;; m) tr = m (tr ++ [c]).
Proof. done. Qed.
Lemma pure_bind {A B} (a : A) (f : A → Udp B) tr : (pure (Ok a) ≫= f) tr = f a tr.
Proof. done. Qed.
Lemma cleanup_bind {A} (m : Udp A) tr :
  (cleanup ;; m) tr = m (tr ++ [FreeAddrInfo; CloseSocket]).
Proof.
  change ((cleanup ;; m) tr) with (m ((tr ++ [FreeAddrInfo]) ++ [CloseSocket])).
  by rewrite <- app_assoc.
Qed.
Lemma udp_bind_run {A B} (m : Udp A) (f : A → Udp B) tr tr' o :
  m tr = (tr', o) →
  (m ≫= f) tr = match o with
                    | Ok a => f a tr'
                    | Throw e => (tr', Throw e)
                    | UB w => (tr', UB w)
                    | Fuel => (tr', Fuel)
                    end.
Proof. intros E. unfold mbind, udp_bind. by rewrite E. Qed.

Lemma attempt_run t buf min_size want error timeout tr :
  16 ≤ zlen buf → 8 ≤ min_size → want ≠ 3 →
  ∃ calls m, attempt t buf min_size want error timeout tr = (tr ++ calls, m) ∧
    attempt_spec t buf min_size want timeout calls m.
Proof.
  intros Hbuf Hmin Hwant. unfold attempt. rewrite call_bind.
  destruct (setsockopt_error t) as [e|] eqn:Es.
  { rewrite cleanup_bind, <- app_assoc. eexists _, _. split; [done|].
    apply attempt_unset. congruence. }
  rewrite write_uint32_ok by lia. fold (with_tid buf t). rewrite pure_bind, call_bind, <- app_assoc.
  assert (∀ timeout', (∀ data, ¬ answers t min_size want data) →
    timeout' = timeout ∨ timeout' = timeout * 2 →
    ∃ calls m, (tr ++ [SetTimeout timeout; SendTo (with_tid buf t)], Ok (None, timeout')) =
      (tr ++ calls, m) ∧ attempt_spec t buf min_size want timeout calls m) as Hagain.
  { intros. eexists _, _. split; [done|]. by apply attempt_again. }
  unfold answers, reply_of in Hagain. rewrite Es in Hagain.
  destruct (sendto_ok t) eqn:Eo; [|apply Hagain; naive_solver]. cbn [negb].
  destruct (ztake resp_size <$> datagram t) as [data|] eqn:Ed; [|apply Hagain; naive_solver].
  destruct (Z.ltb_spec (zlen data) min_size); [apply Hagain; naive_solver lia|].
  rewrite !read_uint32_ok, !pure_bind by lia.
  destruct (Z.eqb_spec (be_value (slice 4 4 data)) (u32 (rand t))); [|apply Hagain; naive_solver].
  cbn [negb].
  assert (∀ action, be_value (slice 0 4 data) = action → answers t min_size action data).
  { intros. unfold answers, reply_of. rewrite Es, Eo. auto. }
  destruct (Z.eqb_spec (be_value (slice 0 4 data)) 3).
  { rewrite cleanup_bind, <- app_assoc. eexists _, _. split; [done|]. eapply attempt_refused; auto. }
  destruct (Z.eqb_spec (be_value (slice 0 4 data)) want); [|apply Hagain; naive_solver].
  eexists _, _. split; [done|]. apply attempt_reply. auto.
Qed.

(** ** The loops *)

(** Whether the address list and the socket are there after a sequence of calls:
    [None] when a call uses what is not there, frees or closes it twice, or opens
    what is open. *)
Fixpoint live (st : bool * bool) (calls : list UdpCall) : option (bool * bool) :=
  match calls with
  | [] => Some st
  | c :: calls =>
      match c, st with
      | Resolve _ _ ok, (false, s) => live (ok, s) calls
      | OpenSocket, (true, false) => live (true, true) calls
      | SetTimeout _, (a, true) => live (a, true) calls
      | SendTo _, (true, true) => live (true, true) calls
      | FreeAddrInfo, (true, s) => live (false, s) calls
      | CloseSocket, (a, true) => live (a, false) calls
      | _, _ => None
      end
  end.

Lemma live_app st a b : live st (a ++ b) = st ← live st a; live st b.
Proof.
  revert st. induction a as [|c a IH]; intros st; simpl; [done|].
  destruct c, st as [[] []]; auto.
Qed.

(** The datagrams sent. *)
Definition sends (calls : list UdpCall) : list (list byte) :=
  omap (λ c, match c with SendTo data => Some data | _ => None end) calls.

Lemma sends_app a b : sends (a ++ b) = sends a ++ sends b.
Proof. apply omap_app. Qed.

(** How a run on an open socket ends: it is open as long as the run has not thrown. *)
Definition live_ok {A} (calls : list UdpCall) (m : outcome A) : Prop :=
  match m with
  | Ok _ => live (true, true) calls = Some (true, true)
  | Throw _ => live (true, true) calls = Some (false, false)
  | _ => False
  end.

Lemma attempt_live t buf min_size want timeout calls m :
  attempt_spec t buf min_size want timeout calls m → live_ok calls m.
Proof. by destruct 1. Qed.

Lemma attempt_sends t buf min_size want timeout calls m :
  attempt_spec t buf min_size want timeout calls m →
  (List.length (sends calls) ≤ 1)%nat ∧ Forall (eq (with_tid buf t)) (sends calls).
Proof. destruct 1; (split; [simpl; lia|repeat constructor]). Qed.

Section Loop.
Context {A : Type}.
Variable tries : Z → Try.
Variable buf : list byte.
Variables min_size want : Z.
Variable error : string.
Variable accept : list byte → outcome A.
Hypothesis Hbuf : 16 ≤ zlen buf.
Hypothesis Hmin : 8 ≤ min_size.
Hypothesis Hwant : want ≠ 3.
Hypothesis Haccept : ∀ t data, answers t min_size want data → ∃ a, accept data = Ok a.

(** No attempt from [i] on is cut short by the socket or by an error reply. *)
Definition heard (i n : Z) : Prop :=
  ∀ j, i ≤ j < i + n →
    setsockopt_error (tries j) = None ∧ ∀ data, ¬ answers (tries j) min_size 3 data.

(** What a run of [n] turns from the [i]-th on does. *)
Definition loop_ok (n i : Z) (calls : list UdpCall) (m : outcome (option A)) : Prop :=
  live_ok calls m ∧ zlen (sends calls) ≤ n ∧
  Forall (λ d, ∃ j, d = with_tid buf (tries j)) (sends calls) ∧
  (∀ a, m = Ok (Some a) → ∃ j data, i ≤ j < i + n ∧ answers (tries j) min_size want data ∧
     accept data = Ok a ∧ last (sends calls) = Some (with_tid buf (tries j))) ∧
  (heard i n → (∃ j data, i ≤ j < i + n ∧ answers (tries j) min_size want data) →
   ∃ a, m = Ok (Some a)).

Lemma retry_loop_run n i timeout tr :
  ∃ calls m,
    retry_loop n tries buf min_size want error accept i timeout tr = (tr ++ calls, m) ∧
    loop_ok (Z.of_nat n) i calls m.
Proof.
  revert i timeout tr. induction n as [|n IH]; intros i timeout tr.
  { eexists [], _. split; [by rewrite app_nil_r|]. repeat split; try done.
    intros _ (j & data & ? & _). lia. }
  destruct (attempt_run (tries i) buf min_size want error timeout tr Hbuf Hmin Hwant)
    as (calls & m & Erun & Hm).
  pose proof (attempt_live _ _ _ _ _ _ _ Hm) as Hlive.
  pose proof (attempt_sends _ _ _ _ _ _ _ Hm) as [Hone Hsends].
  cbn [retry_loop]. rewrite (udp_bind_run _ _ _ _ _ Erun).
  destruct Hm as [e He|e data Hans|timeout' Hno _|data Hans].
  1,2: eexists _, _; split; [done|]; split_and!; auto; try (unfold zlen; lia); try done;
    try solve [eapply Forall_impl; [exact Hsends|]; naive_solver];
    intros Hh _; destruct (Hh i ltac:(lia)) as [Hs Ha]; naive_solver.
  - destruct (IH (i + 1) timeout' (tr ++ [SetTimeout timeout; SendTo (with_tid buf (tries i))]))
      as (calls & m & E & (Hl & Hn & Hd & Hok & Hheard)).
    rewrite <- app_assoc in E. eexists _, m. split; [exact E|]. split_and!.
    + unfold live_ok in *. destruct m; try done; by rewrite live_app, Hl.
    + simpl. rewrite zlen_cons. lia.
    + simpl. constructor; eauto.
    + intros a Ha. destruct (Hok a Ha) as (j & data & Hj & Hans & Hacc & Hlast).
      exists j, data. split_and!; auto with lia. simpl. rewrite last_cons, Hlast. done.
    + intros Hh (j & data & Hj & Hans). apply Hheard; [intros k Hk; apply Hh; lia|].
      exists j, data. split; [|done]. destruct (decide (j = i)) as [->|]; [naive_solver|lia].
  - destruct (Haccept _ _ Hans) as [a Ha]. rewrite Ha. eexists _, _. split; [done|].
    split_and!; try done; [unfold zlen; simpl; lia|by repeat econstructor| |eauto].
    intros a' [= <-]. exists i, data. split_and!; auto with lia.
Qed.
End Loop.

(** ** The datagrams of BEP 15 *)

Definition connect_request (tid : Z) : list byte :=
  be_bytes 8 0x41727101980 ++ be_bytes 4 0 ++ be_bytes 4 tid.
Definition connect_reply (tid connection_id : Z) : list byte :=
  be_bytes 4 0 ++ be_bytes 4 tid ++ be_bytes 8 connection_id.
Definition announce_request (connection_id tid : Z) (hash peer_id : list byte)
    (downloaded left uploaded event key port : Z) : list byte :=
  be_bytes 8 connection_id ++ be_bytes 4 1 ++ be_bytes 4 tid ++ hash ++ peer_id ++
  be_bytes 8 downloaded ++ be_bytes 8 left ++ be_bytes 8 uploaded ++ be_bytes 4 event ++
  be_bytes 4 0 ++ be_bytes 4 key ++ be_bytes 4 (2 ^ 32 - 1) ++ be_bytes 2 port.
Definition announce_reply (tid interval leechers seeders : Z) (es : list Endpoint) : list byte :=
  be_bytes 4 1 ++ be_bytes 4 tid ++ be_bytes 4 interval ++ be_bytes 4 leechers ++
  be_bytes 4 seeders ++ concat (compact <$> es).

(** A write into a list of fields falls into one of them. *)
Lemma copy_here mid l pos src :
  pos = 0 → zlen mid = zlen src → copy_at (mid ++ l) pos src = Ok (src ++ l).
Proof.
  intros -> Hl. unfold copy_at. pose proof (zlen_nonneg l).
  rewrite (proj2 (Z.leb_le _ _)) by (rewrite zlen_app; lia). unfold splice.
  replace (0 + zlen src) with (zlen mid) by lia. by rewrite zdrop_app.
Qed.

Lemma copy_skip a l pos src r :
  zlen a ≤ pos → copy_at l (pos - zlen a) src = Ok r → copy_at (a ++ l) pos src = Ok (a ++ r).
Proof.
  intros Ha. unfold copy_at. rewrite zlen_app. case_ifs; try done; try lia.
  intros [= <-]. unfold splice. f_equal. pose proof (zlen_nonneg src).
  assert (ztake pos (a ++ l) = a ++ ztake (pos - zlen a) l) as ->.
  { unfold ztake, zlen in *. rewrite take_app_ge by lia. do 2 f_equal. lia. }
  assert (zdrop (pos + zlen src) (a ++ l) = zdrop (pos - zlen a + zlen src) l) as ->.
  { unfold zdrop, zlen in *. rewrite drop_app_ge by lia. f_equal. lia. }
  by rewrite <- app_assoc.
Qed.

Lemma cut_field {A} n (l : list A) : 0 ≤ n ≤ zlen l → ∃ a b, l = a ++ b ∧ zlen a = n ∧ zlen b = zlen l - n.
Proof.
  intros. exists (ztake n l), (zdrop n l).
  rewrite ztake_zdrop, zlen_ztake, zlen_zdrop by lia. auto.
Qed.

(** [cut l n] splits a field of [n] bytes off [l]; [put] carries out a write of a
    whole field. *)
Ltac cut l n :=
  let a := fresh "a" in let b := fresh "b" in let Ha := fresh "Ha" in let Hb := fresh "Hb" in
  destruct (cut_field n l ltac:(lia)) as (a & b & -> & Ha & Hb); clear Hb; rename b into l;
  repeat match goal with H : context [zlen (_ ++ _)] |- _ => rewrite zlen_app in H end.
Ltac put_at :=
  first [ eapply copy_here; [rewrite ?zlen_be_bytes; lia..]
        | eapply copy_skip; [rewrite ?zlen_be_bytes; lia|put_at] ].
Ltac put :=
  lazymatch goal with
  | |- context [copy_at ?l ?pos ?src] =>
      let r := fresh "r" in let E := fresh "E" in
      evar (r : list byte);
      assert (copy_at l pos src = Ok r) as E by (subst r; put_at);
      rewrite E; subst r; clear E; cbn [mbind outcome_bind]
  end.

Lemma zlen_vec {n} (v : vec byte n) : zlen (vec_to_list v) = Z.of_nat n.
Proof. unfold zlen. by rewrite length_vec_to_list. Qed.

Definition wf_client (c : TrackerClient) : Prop :=
  zlen (info_hash (torrent_ c)) = 20 ∧ zlen (peer_id_ c) = 20.

Lemma with_tid_copied buf t r :
  copy_at buf 12 (be_bytes 4 (u32 (rand t))) = Ok r → with_tid buf t = r.
Proof. unfold copy_at, with_tid. case_ifs; congruence. Qed.

Lemma connect_request_filled env :
  ∃ req, (req ← write_uint64 (big_endian env) (vec_to_list (req_buf env)) 0 0x41727101980;
          write_uint32 req 8 0) = Ok req ∧ zlen req = 16 ∧
         ∀ t, with_tid req t = connect_request (u32 (rand t)).
Proof.
  pose proof (zlen_vec (req_buf env)) as Hl. revert Hl.
  generalize (vec_to_list (req_buf env)). intros l Hl. simpl in Hl.
  cut l 8. cut l 4. rewrite write_uint64_be by lia. unfold write_uint32, write_uint32_be.
  put. put. eexists. split_and!; [done|rewrite !zlen_app, !zlen_be_bytes; lia|].
  intros t. rewrite <- (app_nil_r l). apply with_tid_copied. unfold connect_request.
  rewrite <- (app_nil_r (be_bytes 4 (u32 (rand t)))). put_at.
Qed.

(** The request is [announce_request] but for the four bytes of the transaction id. *)
Lemma announce_request_filled env c cid port up down left ev :
  wf_client c → 0 ≤ cid → 0 ≤ up → 0 ≤ down → 0 ≤ left →
  ∃ ann, fill_announce env c cid port up down left ev = Ok ann ∧ zlen ann = 98 ∧
    ∀ t, with_tid ann t = announce_request cid (u32 (rand t)) (info_hash (torrent_ c)) (peer_id_ c)
      down left up (event_val ev) (u32 (key_rand env)) port.
Proof.
  intros [Hh Hp] Hc Hu Hd Hlf. unfold fill_announce.
  pose proof (zlen_vec (ann_buf env)) as Hl. revert Hl.
  generalize (vec_to_list (ann_buf env)). intros l Hl. simpl in Hl.
  cut l 8. cut l 4. cut l 4. cut l 20. cut l 20. cut l 8. cut l 8. cut l 8. cut l 4. cut l 4.
  cut l 4. cut l 4. rewrite <- (app_nil_r l).
  unfold write_uint32, write_uint32_be, write_uint16, write_uint16_be.
  do 11 (rewrite ?write_uint64_be by lia; put). eexists. split_and!; [put; done| |].
  - rewrite !zlen_app, !zlen_be_bytes, Hh, Hp. change (zlen (@nil byte)) with 0. lia.
  - intros t. rewrite app_nil_r. apply with_tid_copied. unfold announce_request. put_at.
Qed.

(** A buffer starts with the integer its first bytes denote. *)
Lemma be_front n l :
  Z.of_nat n ≤ zlen l → l = be_bytes n (be_value (slice 0 (Z.of_nat n) l)) ++ zdrop (Z.of_nat n) l.
Proof.
  intros Hn. rewrite <- (ztake_zdrop l (Z.of_nat n)) at 1. f_equal.
  change (slice 0 (Z.of_nat n) l) with (ztake (Z.of_nat n) l).
  pose proof (zlen_ztake l (Z.of_nat n) ltac:(lia)) as Ht.
  replace n with (List.length (ztake (Z.of_nat n) l)) at 2 by (unfold zlen in Ht; lia).
  by rewrite be_bytes_value.
Qed.

Lemma zdrop_zdrop {A} (l : list A) a b : 0 ≤ a → 0 ≤ b → zdrop b (zdrop a l) = zdrop (a + b) l.
Proof. intros. unfold zdrop. rewrite drop_drop. f_equal. lia. Qed.

Lemma slice_zdrop {A} (l : list A) a b n :
  0 ≤ a → 0 ≤ b → slice b n (zdrop a l) = slice (a + b) n l.
Proof. intros. unfold slice, zdrop. rewrite drop_drop. do 2 f_equal. lia. Qed.

(** A reply that is for us starts with its action and our transaction id. *)
Lemma answers_header t min_size action data :
  answers t min_size action data → 8 ≤ min_size →
  ∃ rest, data = be_bytes 4 action ++ be_bytes 4 (u32 (rand t)) ++ rest ∧
    zlen rest = zlen data - 8.
Proof.
  intros (_ & Hs & Ha & Ht) Hmin.
  assert (data = be_bytes 4 action ++ be_bytes 4 (u32 (rand t)) ++ zdrop 4 (zdrop 4 data)) as E.
  { rewrite (be_front 4 data) at 1 by lia. change (Z.of_nat 4) with 4. rewrite Ha. f_equal.
    rewrite (be_front 4 (zdrop 4 data)) at 1 by (rewrite zlen_zdrop; lia).
    change (Z.of_nat 4) with 4. rewrite slice_zdrop by lia. change (4 + 0) with 4. by rewrite Ht. }
  eexists. split; [exact E|]. rewrite !zlen_zdrop by (rewrite ?zlen_zdrop; lia). lia.
Qed.

Lemma read_be n pre v post :
  0 ≤ v < 256 ^ Z.of_nat n →
  (l ← read_at (pre ++ be_bytes n v ++ post) (zlen pre) (Z.of_nat n); Ok (be_value l)) = Ok v.
Proof.
  intros Hv. rewrite <- (zlen_be_bytes n v), read_at_app. simpl. by rewrite be_value_bytes.
Qed.

Lemma answers_connect big t data :
  answers t 16 0 data →
  ∃ cid rest, 0 ≤ cid < 2 ^ 64 ∧ data = connect_reply (u32 (rand t)) cid ++ rest ∧
    read_uint64 big data 8 = Ok cid.
Proof.
  intros Ha. destruct (answers_header _ _ _ _ Ha ltac:(lia)) as (rest & E & Hl).
  pose proof (be_front 8 rest) as Ef. destruct Ha as (_ & Hlen & _).
  rewrite Ef in E by lia. set (cid := be_value (slice 0 (Z.of_nat 8) rest)) in *.
  assert (0 ≤ cid < 256 ^ Z.of_nat 8) as Hcid.
  { pose proof (be_value_range (slice 0 8 rest)) as Hr. rewrite zlen_slice in Hr by lia. exact Hr. }
  exists cid, (zdrop 8 rest). split_and!; [lia|lia| |].
  - rewrite E. unfold connect_reply. by rewrite <- !app_assoc.
  - rewrite read_uint64_be by lia. rewrite E, app_assoc.
    exact (read_be 8 (be_bytes 4 0 ++ be_bytes 4 (u32 (rand t))) cid _ Hcid).
Qed.

Lemma udp_peers_ok pre es rest i acc :
  zlen pre = 20 + i * 6 → Forall port_ok es →
  udp_peers (List.length es) (pre ++ concat (compact <$> es) ++ rest) i acc =
  Ok (acc ++ (peer_of <$> es)).
Proof.
  revert pre i acc. induction es as [|e es IH]; intros pre i acc Hpre Hes.
  { by rewrite app_nil_r. }
  inversion_clear Hes as [|?? He Hes']. cbn [List.length udp_peers]. rewrite fmap_cons.
  cbn [concat]. rewrite <- (app_assoc (compact e)), <- Hpre.
  destruct (compact_bytes pre e (concat (compact <$> es) ++ rest))
    as (-> & -> & -> & -> & _ & _). cbn [mbind outcome_bind].
  assert (read_uint16 (pre ++ compact e ++ concat (compact <$> es) ++ rest) (zlen pre + 4) =
          Ok (e_port e)) as ->.
  { unfold compact at 1. rewrite <- (app_assoc [e1 e; e2 e; e3 e; e4 e]), app_assoc.
    replace (zlen pre + 4) with (zlen (pre ++ [e1 e; e2 e; e3 e; e4 e])) by by rewrite zlen_app.
    apply (read_be 2). exact He. }
  cbn [mbind outcome_bind]. fold (peer_of e). rewrite app_assoc.
  rewrite IH by (auto; rewrite zlen_app, zlen_compact; lia). by rewrite <- app_assoc.
Qed.

Lemma answers_announce t data :
  answers t 20 1 data →
  ∃ interval leechers seeders es rest,
    data = announce_reply (u32 (rand t)) interval leechers seeders es ++ rest ∧
    zlen rest < 6 ∧ Forall port_ok es ∧
    udp_response data = Ok (mk_response interval seeders leechers (peer_of <$> es) []).
Proof.
  intros Ha. destruct (answers_header _ _ _ _ Ha ltac:(lia)) as (r & E & Hl).
  destruct Ha as (_ & Hlen & _).
  set (iv := be_value (slice 0 4 r)). set (le := be_value (slice 0 4 (zdrop 4 r))).
  set (se := be_value (slice 0 4 (zdrop 8 r))).
  assert (∀ l, 4 ≤ zlen l → 0 ≤ be_value (slice 0 4 l) < 2 ^ 32) as Hr.
  { intros l Hl4. pose proof (be_value_range (slice 0 4 l)) as Hr. by rewrite zlen_slice in Hr by lia. }
  assert (r = be_bytes 4 iv ++ be_bytes 4 le ++ be_bytes 4 se ++ zdrop 12 r) as Er.
  { rewrite (be_front 4 r) at 1 by lia. f_equal. change (Z.of_nat 4) with 4.
    rewrite (be_front 4 (zdrop 4 r)) at 1 by (rewrite zlen_zdrop; lia). f_equal.
    change (Z.of_nat 4) with 4. rewrite zdrop_zdrop by lia. change (4 + 4) with 8.
    rewrite (be_front 4 (zdrop 8 r)) at 1 by (rewrite zlen_zdrop; lia).
    change (Z.of_nat 4) with 4. by rewrite zdrop_zdrop by lia. }
  assert (0 ≤ iv < 2 ^ 32) as Hiv by (apply Hr; lia).
  assert (0 ≤ le < 2 ^ 32) as Hle by (apply Hr; rewrite zlen_zdrop; lia).
  assert (0 ≤ se < 2 ^ 32) as Hse by (apply Hr; rewrite zlen_zdrop; lia).
  destruct (compact_split (zdrop 12 r)) as (es & rest & Ees & Hrest & Hes).
  exists iv, le, se, es, rest. rewrite Ees in Er.
  assert (data = announce_reply (u32 (rand t)) iv le se es ++ rest) as Ed.
  { rewrite E, Er. unfold announce_reply. by rewrite <- !app_assoc. }
  split_and!; auto. unfold udp_response.
  set (h2 := be_bytes 4 1 ++ be_bytes 4 (u32 (rand t))).
  assert (read_uint32 data 8 = Ok iv) as ->.
  { rewrite Ed. unfold announce_reply. rewrite <- !app_assoc, (app_assoc (be_bytes 4 1)).
    exact (read_be 4 h2 iv _ Hiv). }
  assert (read_uint32 data 12 = Ok le) as ->.
  { rewrite Ed. unfold announce_reply. rewrite <- !app_assoc, (app_assoc (be_bytes 4 1)).
    fold h2. rewrite (app_assoc h2). exact (read_be 4 (h2 ++ be_bytes 4 iv) le _ Hle). }
  assert (read_uint32 data 16 = Ok se) as ->.
  { rewrite Ed. unfold announce_reply. rewrite <- !app_assoc, (app_assoc (be_bytes 4 1)).
    fold h2. rewrite (app_assoc h2), (app_assoc (h2 ++ _)).
    exact (read_be 4 ((h2 ++ be_bytes 4 iv) ++ be_bytes 4 le) se _ Hse). }
  cbn [mbind outcome_bind].
  set (h5 := h2 ++ be_bytes 4 iv ++ be_bytes 4 le ++ be_bytes 4 se).
  assert (data = h5 ++ concat (compact <$> es) ++ rest) as Eh.
  { rewrite Ed. unfold announce_reply, h5, h2. by rewrite <- !app_assoc. }
  assert ((zlen data - 20) / 6 = zlen es) as ->.
  { symmetry. apply (Z.div_unique _ _ _ (zlen rest)); [pose proof (zlen_nonneg rest); lia|].
    rewrite Eh, !zlen_app, zlen_compacts. change (zlen h5) with 20. lia. }
  unfold zlen at 1. rewrite Nat2Z.id, Eh, udp_peers_ok by done. done.
Qed.

(** ** The UDP exchange *)

Section Exchange.
Variable env : UdpEnv.
Variable c : TrackerClient.
Variable url : list byte.
Variables listening_port uploaded downloaded left : Z.
Variable event : option (list byte).
Hypothesis Hclient : wf_client c.
Hypothesis Hup : 0 ≤ uploaded.
Hypothesis Hdown : 0 ≤ downloaded.
Hypothesis Hleft : 0 ≤ left.

Abbreviation run_udp :=
  (announce_udp env c url listening_port uploaded downloaded left event).

(** The response is the one the tracker sent for this exchange: the connection id of
    the connect reply and the client's figures went into the last datagram, and its
    answer is what is returned. *)
Definition exchanged (calls : list UdpCall) (r : TrackerResponse) : Prop :=
  ∃ i j cid crest interval leechers seeders es rest,
    0 ≤ i < 3 ∧ 0 ≤ j < 3 ∧
    reply_of (connect_try env i) =
      Some (connect_reply (u32 (rand (connect_try env i))) cid ++ crest) ∧
    connect_request (u32 (rand (connect_try env i))) ∈ sends calls ∧
    last (sends calls) = Some (announce_request cid (u32 (rand (announce_try env j)))
      (info_hash (torrent_ c)) (peer_id_ c) downloaded left uploaded (event_val event)
      (u32 (key_rand env)) listening_port) ∧
    reply_of (announce_try env j) =
      Some (announce_reply (u32 (rand (announce_try env j))) interval leechers seeders es ++ rest) ∧
    zlen rest < 6 ∧ Forall port_ok es ∧
    r = mk_response interval seeders leechers (peer_of <$> es) [].

(** The tracker can be reached and answers one of the three attempts of either loop;
    none meets an error. *)
Definition reachable_tracker : Prop :=
  prefix_is "udp://" url = true ∧
  getaddrinfo_error env (c_str (udp_target url).1) (c_str (udp_target url).2) = None ∧
  socket_error env = None ∧
  heard (connect_try env) 16 0 3 ∧ heard (announce_try env) 20 0 3 ∧
  (∃ i data, 0 ≤ i < 3 ∧ answers (connect_try env i) 16 0 data) ∧
  (∃ j data, 0 ≤ j < 3 ∧ answers (announce_try env j) 20 1 data).

(** What holds of every run, by its calls and its outcome. *)
Definition udp_ok (calls : list UdpCall) (m : outcome TrackerResponse) : Prop :=
  defined m ∧ live (false, false) calls = Some (false, false) ∧
  zlen (sends calls) ≤ 6 ∧ Forall (λ d, zlen d = 16 ∨ zlen d = 98) (sends calls) ∧
  (∀ r, m = Ok r → exchanged calls r) ∧
  (reachable_tracker → ∃ r, m = Ok r).

Lemma prefix_is_udp :
  ((zlen url <? 6) || negb (bool_decide (ztake 6 url = bs "udp://"))) =
  negb (prefix_is "udp://" url).
Proof.
  unfold prefix_is. change (zlen (bs "udp://")) with 6.
  rewrite negb_andb, Z.leb_antisym, negb_involutive. done.
Qed.

Lemma zlen_with_tid buf t : 16 ≤ zlen buf → zlen (with_tid buf t) = zlen buf.
Proof. intros. unfold with_tid. apply zlen_splice; rewrite ?zlen_be_bytes; lia. Qed.

Lemma sends_with_tid (tries : Z → Try) buf n calls :
  16 ≤ zlen buf → zlen buf = n →
  Forall (λ d, ∃ j, d = with_tid buf (tries j)) calls → Forall (λ d, zlen d = n) calls.
Proof.
  intros Hb Hn H. eapply Forall_impl; [exact H|]. intros d [j ->]. by rewrite zlen_with_tid.
Qed.

Lemma sends_cleanup : sends [FreeAddrInfo; CloseSocket] = [].
Proof. done. Qed.

(** The second half: its last datagram and the reply to it. *)
Definition announced (cid : Z) (calls : list UdpCall) (r : TrackerResponse) : Prop :=
  ∃ j interval leechers seeders es rest,
    0 ≤ j < 3 ∧
    last (sends calls) = Some (announce_request cid (u32 (rand (announce_try env j)))
      (info_hash (torrent_ c)) (peer_id_ c) downloaded left uploaded (event_val event)
      (u32 (key_rand env)) listening_port) ∧
    reply_of (announce_try env j) =
      Some (announce_reply (u32 (rand (announce_try env j))) interval leechers seeders es ++ rest) ∧
    zlen rest < 6 ∧ Forall port_ok es ∧
    r = mk_response interval seeders leechers (peer_of <$> es) [].

Lemma udp_announce_run cid tr :
  0 ≤ cid →
  ∃ calls m,
    udp_announce env c cid listening_port uploaded downloaded left event tr = (tr ++ calls, m) ∧
    defined m ∧ live (true, true) calls = Some (false, false) ∧ zlen (sends calls) ≤ 3 ∧
    Forall (λ d, zlen d = 98) (sends calls) ∧ (∀ r, m = Ok r → announced cid calls r) ∧
    (heard (announce_try env) 20 0 3 →
     (∃ j data, 0 ≤ j < 3 ∧ answers (announce_try env j) 20 1 data) → ∃ r, m = Ok r).
Proof.
  intros Hcid. unfold udp_announce.
  destruct (announce_request_filled env c cid listening_port uploaded downloaded left event)
    as (ann & Eann & Hann & Htid); auto. rewrite Eann, pure_bind.
  destruct (retry_loop_run (announce_try env) ann 20 1 "TrackerClient: UDP announce error: "
    udp_response ltac:(lia) ltac:(lia) ltac:(done)) with (n := 3%nat) (i := 0) (timeout := 3) (tr := tr)
    as (calls & m & E & Hlive & Hn & Hd & Hok & Hh).
  { intros t data Hans. destruct (answers_announce t data Hans) as (? & ? & ? & ? & ? & _ & _ & _ & H).
    eauto. }
  apply sends_with_tid with (n := 98) in Hd; [|lia..].
  unfold announce_loop. rewrite (udp_bind_run _ _ _ _ _ E).
  destruct m as [o|e| |]; try done; unfold live_ok in Hlive.
  2:{ exists calls, (Throw e). split_and!; auto; try done. intros H1 H2. by destruct (Hh H1 H2). }
  rewrite cleanup_bind, <- app_assoc. exists (calls ++ [FreeAddrInfo; CloseSocket]).
  destruct o as [r|]; eexists; (split; [done|]);
    rewrite live_app, Hlive, sends_app, sends_cleanup, app_nil_r; split_and!; auto; try done.
  - intros r' [= <-]. destruct (Hok r eq_refl) as (j & data & Hj & Hans & Hacc & Hlast).
    destruct (answers_announce _ _ Hans) as (iv & le & se & es & rest & -> & Hrest & Hes & Hr).
    assert (r = mk_response iv se le (peer_of <$> es) []) as -> by congruence.
    exists j, iv, le, se, es, rest. rewrite sends_app, sends_cleanup, app_nil_r, Hlast, Htid.
    destruct Hans as [Hrep _]. auto 10.
  - eauto.
  - intros H1 H2. by destruct (Hh H1 H2).
Qed.

Lemma udp_session_run tr :
  ∃ calls m,
    udp_session env c listening_port uploaded downloaded left event tr = (tr ++ calls, m) ∧
    defined m ∧ live (true, true) calls = Some (false, false) ∧ zlen (sends calls) ≤ 6 ∧
    Forall (λ d, zlen d = 16 ∨ zlen d = 98) (sends calls) ∧
    (∀ r, m = Ok r → exchanged calls r) ∧
    (heard (connect_try env) 16 0 3 → heard (announce_try env) 20 0 3 →
     (∃ i data, 0 ≤ i < 3 ∧ answers (connect_try env i) 16 0 data) →
     (∃ j data, 0 ≤ j < 3 ∧ answers (announce_try env j) 20 1 data) → ∃ r, m = Ok r).
Proof.
  unfold udp_session. destruct (connect_request_filled env) as (req & Ereq & Hreq & Htid).
  apply bind_ok in Ereq as (req0 & Ereq0 & Ereq). rewrite Ereq0, pure_bind, Ereq, pure_bind.
  destruct (retry_loop_run (connect_try env) req 16 0 "TrackerClient: UDP connect error: "
    (λ resp_buf, read_uint64 (big_endian env) resp_buf 8) ltac:(lia) ltac:(lia) ltac:(done))
    with (n := 3%nat) (i := 0) (timeout := 3) (tr := tr) as (calls & m & E & Hlive & Hn & Hd & Hok & Hh).
  { intros t data Hans. destruct (answers_connect (big_endian env) t data Hans) as (? & ? & _ & _ & H).
    eauto. }
  assert (Forall (λ d, zlen d = 16 ∨ zlen d = 98) (sends calls)) as H16.
  { apply sends_with_tid with (n := 16) in Hd; [|lia..]. eapply Forall_impl; [exact Hd|]. auto. }
  unfold connect_loop. rewrite (udp_bind_run _ _ _ _ _ E).
  destruct m as [[cid|]|e| |]; try done; unfold live_ok in Hlive.
  - destruct (Hok cid eq_refl) as (i & data & Hi & Hans & Hread & Hlast).
    destruct (answers_connect (big_endian env) _ _ Hans) as (cid' & crest & Hcid & -> & Hr).
    assert (cid' = cid) as -> by congruence.
    destruct (udp_announce_run cid (tr ++ calls)) as
      (calls' & m & E' & Hdef & Hlive' & Hn' & Hd' & Hok' & Hh'); [lia|].
    rewrite E', <- app_assoc. exists (calls ++ calls'), m. rewrite live_app, Hlive, sends_app, zlen_app.
    split_and!; auto; [lia| |].
    + apply Forall_app. split; [done|]. eapply Forall_impl; [exact Hd'|]. auto.
    + intros r Hr'. destruct (Hok' r Hr') as (j & iv & le & se & es & rest & Hj & Hl & Hrest).
      exists i, j, cid, crest, iv, le, se, es, rest. rewrite sends_app.
      split_and!; try apply Hrest; auto; try lia.
      * by destruct Hans.
      * apply elem_of_app. left. rewrite <- Htid. by apply last_Some_elem_of.
      * by rewrite last_app, Hl.
  - rewrite cleanup_bind, <- app_assoc. exists (calls ++ [FreeAddrInfo; CloseSocket]). eexists.
    split; [done|]. rewrite live_app, Hlive, sends_app, sends_cleanup, app_nil_r.
    split_and!; auto; try done; [lia|]. intros H1 _ H2. by destruct (Hh H1 H2).
  - exists calls, (Throw e). split_and!; auto; try done; [lia|]. intros H1 _ H2. by destruct (Hh H1 H2).
Qed.

Lemma announce_udp_run tr : ∃ calls m, run_udp tr = (tr ++ calls, m) ∧ udp_ok calls m.
Proof.
  unfold announce_udp. rewrite prefix_is_udp. destruct (prefix_is "udp://" url) eqn:Epre; cbn [negb].
  2:{ eexists [], _. split; [by rewrite app_nil_r|]. repeat split; try done.
      intros (H & _). congruence. }
  destruct (udp_target url) as [host port_str] eqn:Et. rewrite call_bind.
  assert (reachable_tracker → getaddrinfo_error env (c_str host) (c_str port_str) = None) as Hg.
  { intros (_ & H & _). by rewrite Et in H. }
  destruct (getaddrinfo_error env (c_str host) (c_str port_str)) as [e|] eqn:Eg.
  { eexists _, _. split; [done|]. repeat split; try done. intros H. by apply Hg in H. }
  destruct (socket_error env) as [e|] eqn:Es.
  { rewrite call_bind, <- app_assoc. eexists _, _. split; [done|]. repeat split; try done.
    intros (_ & _ & H & _). congruence. }
  rewrite call_bind, <- app_assoc.
  destruct (udp_session_run (tr ++ [Resolve (c_str host) (c_str port_str) true] ++ [OpenSocket]))
    as (calls & m & E & Hdef & Hlive & Hn & Hd & Hok & Hh).
  rewrite <- !app_assoc in E. eexists _, m. split; [exact E|].
  split; [done|]. split; [exact Hlive|]. split; [exact Hn|]. split; [exact Hd|]. split.
  - intros r Hr. destruct (Hok r Hr) as (i & j & cid & crest & iv & le & se & es & rest & H).
    exists i, j, cid, crest, iv, le, se, es, rest. exact H.
  - intros (_ & _ & _ & H1 & H2 & H3 & H4). auto.
Qed.
End Exchange.

(** ** Runs add to the trace and do not read it *)

Definition appends {A} (m : Udp A) : Prop := ∀ tr, m tr = (tr ++ (m []).1, (m []).2).

Lemma appends_pure {A} (m : outcome A) : appends (pure m).
Proof. intros tr. simpl. by rewrite app_nil_r. Qed.
Lemma appends_ret {A} (a : A) : appends (mret a : Udp A).
Proof. apply (appends_pure (Ok a)). Qed.
Lemma appends_call c : appends (call c).
Proof. done. Qed.
Lemma appends_bind {A B} (m : Udp A) (f : A → Udp B) :
  appends m → (∀ a, appends (f a)) → appends (m ≫= f).
Proof.
  intros Hm Hf tr. unfold mbind, udp_bind. rewrite Hm. destruct (m []) as [calls [a|e|w|]]; simpl; try done.
  rewrite (Hf a (tr ++ calls)), (Hf a calls). simpl. by rewrite app_assoc.
Qed.
Create HintDb appends.
#[local] Hint Resolve appends_pure appends_ret appends_call appends_bind : appends.

Lemma appends_throw {A} m : appends (throw m : Udp A).
Proof. apply appends_pure. Qed.
Lemma appends_cleanup : appends cleanup.
Proof. unfold cleanup. auto with appends. Qed.
#[local] Hint Resolve appends_throw appends_cleanup : appends.

Lemma appends_attempt t buf min_size want error timeout :
  appends (attempt t buf min_size want error timeout).
Proof.
  unfold attempt. apply appends_bind; [auto with appends|intros _].
  destruct (setsockopt_error t); [auto with appends|].
  apply appends_bind; [auto with appends|intros buf'].
  apply appends_bind; [auto with appends|intros _].
  destruct (negb (sendto_ok t)); [auto with appends|].
  destruct (ztake _ <$> _) as [data|]; [|auto with appends].
  destruct (zlen data <? min_size); [auto with appends|].
  apply appends_bind; [auto with appends|intros action].
  apply appends_bind; [auto with appends|intros tid].
  case_ifs; auto with appends.
Qed.

Lemma appends_retry_loop {A} n tries buf min_size want error (accept : list byte → outcome A) i timeout :
  appends (retry_loop n tries buf min_size want error accept i timeout).
Proof.
  revert i timeout. induction n as [|n IH]; intros i timeout; [apply appends_ret|].
  cbn [retry_loop]. apply appends_bind; [apply appends_attempt|]. intros [[data|] timeout'];
    auto with appends.
Qed.
#[local] Hint Resolve appends_retry_loop : appends.

Lemma appends_announce_udp env c url port up down left ev :
  appends (announce_udp env c url port up down left ev).
Proof.
  unfold announce_udp. case_ifs; [auto with appends|]. destruct (udp_target url) as [host port_str].
  apply appends_bind; [auto with appends|intros _].
  destruct (getaddrinfo_error _ _ _); [auto with appends|].
  destruct (socket_error env); [auto with appends|].
  apply appends_bind; [auto with appends|intros _]. unfold udp_session, connect_loop.
  repeat (apply appends_bind; [auto with appends|intros ?]). case_match; [|auto with appends].
  unfold udp_announce, announce_loop.
  repeat (apply appends_bind; [auto with appends|intros ?]). case_match; auto with appends.
Qed.

(** ** The announce list *)

Section AnnounceList.
Variable curl : list byte → CurlResult.
Variable env : nat → UdpEnv.
Variable c : TrackerClient.
Variables listening_port uploaded downloaded left : Z.
Variable event : option (list byte).

(** What the [i]-th tracker alone gives: nothing when its scheme is not supported. *)
Definition tried (i : nat) (url : list byte) : option (list UdpCall * outcome TrackerResponse) :=
  (λ run, run []) <$>
    announce_url_to curl env c i url listening_port uploaded downloaded left event.

Lemma tried_run i url run tr :
  announce_url_to curl env c i url listening_port uploaded downloaded left event = Some run →
  ∃ calls m, tried i url = Some (calls, m) ∧ run tr = (tr ++ calls, m).
Proof.
  intros E. unfold tried. rewrite E. simpl. exists (run []).1, (run []).2.
  split; [by destruct (run [])|]. unfold announce_url_to in E. case_ifs_in E; injection E as <-.
  - apply appends_announce_udp.
  - apply appends_pure.
Qed.

(** The line of the combined error for a tracker that failed. *)
Definition error_line (i : nat) (url : list byte) : option (list byte) :=
  match tried i url with
  | None => Some (url ++ bs ": unsupported scheme")
  | Some (_, Throw e) => Some (url ++ bs ": " ++ what e)
  | _ => None
  end.

Fixpoint error_lines (i : nat) (urls : list (list byte)) : option (list (list byte)) :=
  match urls with
  | [] => Some []
  | url :: urls => line ← error_line i url; lines ← error_lines (S i) urls; Some (line :: lines)
  end.

Definition combined_error (errors : list (list byte)) : list byte :=
  bs "TrackerClient: announce failed for all trackers. Errors:" ++ [x0a] ++
  concat ((λ err, bs "  - " ++ err ++ [x0a]) <$> errors).

Hypothesis Hclient : wf_client c.
Hypothesis Hup : 0 ≤ uploaded.
Hypothesis Hdown : 0 ≤ downloaded.
Hypothesis Hleft : 0 ≤ left.

Lemma tried_closes i url calls m :
  tried i url = Some (calls, m) → live (false, false) calls = Some (false, false).
Proof.
  unfold tried, announce_url_to. intros H. case_ifs_in H.
  - destruct (announce_udp_run (env i) c url listening_port uploaded downloaded left event
      Hclient Hup Hdown Hleft []) as (calls' & m' & Er & (_ & Hlive & _)).
    injection H as H. rewrite Er in H. by injection H as <- <-.
  - unfold pure in H. simpl in H. by simplify_eq.
Qed.

(** Where asking the URLs from the [i]-th on, after the errors so far, ends: the
    first that does not fail, or the combined error. *)
Definition ends_at (i : nat) (urls errors : list (list byte)) (m : outcome TrackerResponse)
    : Prop :=
  ∃ failed rest lines, urls = failed ++ rest ∧ error_lines i failed = Some lines ∧
    match rest with
    | [] => m = Throw (runtime_error (msg_of (combined_error (errors ++ lines))))
    | url :: _ => (∃ calls, tried (i + List.length failed) url = Some (calls, m)) ∧
                  ∀ e, m ≠ Throw e
    end.

Lemma ends_at_next i url urls errors line m :
  error_line i url = Some line → ends_at (S i) urls (errors ++ [line]) m →
  ends_at i (url :: urls) errors m.
Proof.
  intros Hline (failed & rest & lines & -> & Hlines & Hm).
  exists (url :: failed), rest, (line :: lines). split; [done|]. cbn [error_lines].
  rewrite Hline, Hlines. split; [done|].
  cbn [List.length]. rewrite <- plus_n_Sm, <- app_assoc in *. exact Hm.
Qed.

Lemma ends_at_here i url urls errors calls m :
  tried i url = Some (calls, m) → (∀ e, m ≠ Throw e) → ends_at i (url :: urls) errors m.
Proof. intros. exists [], (url :: urls), []. rewrite Nat.add_0_r. eauto. Qed.

Lemma announce_all_run i urls errors tr :
  ∃ calls m,
    announce_all curl env c i urls errors listening_port uploaded downloaded left event tr =
      (tr ++ calls, m) ∧
    live (false, false) calls = Some (false, false) ∧ ends_at i urls errors m.
Proof.
  revert i errors tr. induction urls as [|url urls IH]; intros i errors tr; cbn [announce_all].
  { eexists [], _. split; [unfold throw, pure; by rewrite app_nil_r|]. split; [done|].
    exists [], [], []. rewrite app_nil_r. split_and!; [done..|]. do 3 f_equal.
    rewrite (foldl_append _ (λ err, bs "  - " ++ err ++ [x0a])).
    - unfold combined_error. by rewrite <- app_assoc, app_nil_r.
    - apply Forall_true. done. }
  destruct (announce_url_to curl env c i url listening_port uploaded downloaded left event)
    as [run|] eqn:Erun.
  - destruct (tried_run i url run tr Erun) as (calls & m & Et & ->).
    pose proof (tried_closes i url calls m Et) as Hlive.
    destruct m as [r|e|w|]; [|edestruct IH as (calls' & m & -> & Hl & Hm)|..].
    2:{ rewrite <- app_assoc. exists (calls ++ calls'), m. rewrite live_app, Hlive.
        split_and!; auto. eapply ends_at_next; [|exact Hm]. unfold error_line. by rewrite Et. }
    all: eexists calls, _; split_and!; [done..|]; by eapply ends_at_here.
  - edestruct IH as (calls & m & -> & Hl & Hm). exists calls, m. split_and!; auto.
    eapply ends_at_next; [|exact Hm]. unfold error_line, tried. by rewrite Erun.
Qed.
End AnnounceList.

(** ** Properties *)

(** C12: When the UDP announce returns a response, the tracker gave it to this
    exchange: one of three connect attempts got a reply with its transaction id and a
    connection id, the last datagram sent is the 98-byte announce request of BEP 15
    with that connection id and the client's figures, and what is returned is the
    interval, the counters and the peers of a reply that carries the transaction id of
    that datagram; whatever the stack buffers held before and whatever the byte order
    of the host. *)
Theorem udp_exchange_verified (env : UdpEnv) (c : TrackerClient) (url : list byte)
    (listening_port uploaded downloaded left : Z) (event : option (list byte))
    (calls : list UdpCall) (r : TrackerResponse)
    (Hclient : wf_client c) (Hup : 0 ≤ uploaded) (Hdown : 0 ≤ downloaded) (Hleft : 0 ≤ left)
    (Hrun : announce_udp env c url listening_port uploaded downloaded left event [] =
            (calls, Ok r)) :
  exchanged env c listening_port uploaded downloaded left event calls r.
Proof.
  destruct (announce_udp_run env c url listening_port uploaded downloaded left event
    Hclient Hup Hdown Hleft []) as (calls' & m & E & (_ & _ & _ & _ & Hok & _)).
  rewrite Hrun in E. simplify_eq. auto.
Qed.

(** C25: A tracker that can be reached and answers any one of the three connect
    attempts and any one of the three announce attempts is heard: lost datagrams,
    replies to other transactions and unexpected actions before it do not prevent the
    announce from returning a response. *)
Theorem udp_tracker_heard (env : UdpEnv) (c : TrackerClient) (url : list byte)
    (listening_port uploaded downloaded left : Z) (event : option (list byte))
    (Hclient : wf_client c) (Hup : 0 ≤ uploaded) (Hdown : 0 ≤ downloaded) (Hleft : 0 ≤ left)
    (Htracker : reachable_tracker env url) :
  ∃ calls r, announce_udp env c url listening_port uploaded downloaded left event [] =
             (calls, Ok r).
Proof.
  destruct (announce_udp_run env c url listening_port uploaded downloaded left event
    Hclient Hup Hdown Hleft []) as (calls & m & E & (_ & _ & _ & _ & _ & Hheard)).
  destruct (Hheard Htracker) as [r ->]. eauto.
Qed.

(** C24: Every UDP announce ends with a response or an exception, after at most six
    datagrams of 16 or 98 bytes, and releases what it acquired on each path: the
    address list is freed once and the socket closed once, each only if it was
    obtained, and neither is used afterwards. *)
Theorem udp_resources (env : UdpEnv) (c : TrackerClient) (url : list byte)
    (listening_port uploaded downloaded left : Z) (event : option (list byte))
    (Hclient : wf_client c) (Hup : 0 ≤ uploaded) (Hdown : 0 ≤ downloaded) (Hleft : 0 ≤ left) :
  let '(calls, m) := announce_udp env c url listening_port uploaded downloaded left event [] in
  defined m ∧ live (false, false) calls = Some (false, false) ∧
  zlen (sends calls) ≤ 6 ∧ Forall (λ d, zlen d = 16 ∨ zlen d = 98) (sends calls).
Proof.
  destruct (announce_udp_run env c url listening_port uploaded downloaded left event
    Hclient Hup Hdown Hleft []) as (calls & m & -> & (Hdef & Hlive & Hn & Hd & _)).
  auto.
Qed.

(** C34: [announce] asks the trackers of the list in turn: it returns what the first
    that does not fail returns, all before it having thrown or having no supported
    scheme; if all fail it throws one error that lists each URL with its own error,
    in order. No socket is left open whichever way the trackers failed. *)
Theorem announce_first_tracker (curl : list byte → CurlResult) (env : nat → UdpEnv)
    (c : TrackerClient) (listening_port uploaded downloaded left : Z) (event : option (list byte))
    (Hclient : wf_client c) (Hup : 0 ≤ uploaded) (Hdown : 0 ≤ downloaded) (Hleft : 0 ≤ left) :
  let '(calls, m) := announce curl env c listening_port uploaded downloaded left event [] in
  live (false, false) calls = Some (false, false) ∧
  ∃ failed rest lines, announce_list (torrent_ c) = failed ++ rest ∧
    error_lines curl env c listening_port uploaded downloaded left event 0 failed = Some lines ∧
    match rest with
    | [] => m = Throw (runtime_error (msg_of (combined_error lines)))
    | url :: _ =>
        (∃ calls, tried curl env c listening_port uploaded downloaded left event
                    (List.length failed) url = Some (calls, m)) ∧ ∀ e, m ≠ Throw e
    end.
Proof.
  destruct (announce_all_run curl env c listening_port uploaded downloaded left event
    Hclient Hup Hdown Hleft 0 (announce_list (torrent_ c)) [] []) as (calls & m & E & Hl & Hends).
  unfold announce. rewrite E. split; [done|]. exact Hends.
Qed.

(** ** Witnesses *)

Definition sample_client : TrackerClient :=
  mk_tracker
    (mk_torrent (bs "n") (bs "ftp://t/") [bs "ftp://t/"; bs "udp://t:80/announce"] 16 16 1
       [replicate 20 x11] [mk_file (bs "n") 16 0] (replicate 20 x25))
    (replicate 20 x2d).

(** The first connect attempt is lost, the second is answered with connection id 7;
    the first announce gets a reply to another transaction, the third one with the
    peer 10.0.0.1:6881 and two bytes that do not make a peer. *)
Definition lost : Try := mk_try None 5 true None.
Definition sample_peer : Endpoint := mk_endpoint x0a x00 x00 x01 6881.
Definition sample_env : UdpEnv :=
  mk_udp_env false (λ _ _, None) None (vreplicate 16 xff) (vreplicate 98 xff)
    (λ i, if i =? 1 then mk_try None 41 true (Some (connect_reply 41 7)) else lost) 99
    (λ j, if j =? 2 then
            mk_try None 43 true (Some (announce_reply 43 1800 1 2 [sample_peer] ++ [x01; x02]))
          else mk_try None 6 true (Some (announce_reply 8 0 0 0 []))).
Definition sample_response : TrackerResponse :=
  mk_response 1800 2 1 [mk_peer_info (bs "10.0.0.1") 6881 []] [].
Definition sample_url : list byte := bs "udp://t:80/announce".

Abbreviation sample_run :=
  (announce_udp sample_env sample_client sample_url 6881 0 0 16 (Some (bs "started")) []).

Lemma sample_client_ok : wf_client sample_client.
Proof. done. Qed.

Lemma sample_run_ok : sample_run = (sample_run.1, Ok sample_response).
Proof. vm_compute. reflexivity. Qed.

Lemma udp_exchange_verified_witness :
  sample_run = (sample_run.1, Ok sample_response) ∧
  exchanged sample_env sample_client 6881 0 0 16 (Some (bs "started")) sample_run.1 sample_response.
Proof.
  split; [exact sample_run_ok|].
  exact (udp_exchange_verified sample_env sample_client sample_url 6881 0 0 16
    (Some (bs "started")) _ _ sample_client_ok ltac:(lia) ltac:(lia) ltac:(lia) sample_run_ok).
Defined.

Lemma sample_heard (tries : Z → Try) min_size :
  (∀ j, setsockopt_error (tries j) = None) →
  (∀ j data, reply_of (tries j) = Some data → be_value (slice 0 4 data) ≠ 3) →
  heard tries min_size 0 3.
Proof. intros Hs Hr j _. split; [auto|]. intros data (Hd & _ & Ha & _). by eapply Hr. Qed.

Lemma sample_reachable : reachable_tracker sample_env sample_url.
Proof.
  split_and!; try done.
  - apply sample_heard; intros j; simpl; case_ifs; try done; intros data [= <-]; by vm_compute.
  - apply sample_heard; intros j; simpl; case_ifs; try done; intros data [= <-]; by vm_compute.
  - exists 1. eexists. split; [lia|]. split_and!; [reflexivity|by vm_compute..].
  - exists 2. eexists. split; [lia|]. split_and!; [reflexivity|by vm_compute..].
Qed.

Lemma udp_tracker_heard_witness :
  reachable_tracker sample_env sample_url ∧ ∃ calls r, sample_run = (calls, Ok r).
Proof.
  split; [exact sample_reachable|].
  exact (udp_tracker_heard sample_env sample_client sample_url 6881 0 0 16 (Some (bs "started"))
    sample_client_ok ltac:(lia) ltac:(lia) ltac:(lia) sample_reachable).
Defined.

Lemma udp_resources_witness :
  wf_client sample_client ∧ live (false, false) sample_run.1 = Some (false, false) ∧
  zlen (sends sample_run.1) = 5 ∧ zlen (sends sample_run.1) ≤ 6.
Proof.
  split; [exact sample_client_ok|].
  pose proof (udp_resources sample_env sample_client sample_url 6881 0 0 16 (Some (bs "started"))
    sample_client_ok ltac:(lia) ltac:(lia) ltac:(lia)) as H.
  rewrite sample_run_ok in H. destruct H as (_ & Hl & Hn & _).
  split; [exact Hl|]. split; [vm_compute; reflexivity|exact Hn].
Defined.

Lemma announce_first_tracker_witness :
  (announce (λ _, CurlNoHandle) (λ _, sample_env) sample_client 6881 0 0 16
     (Some (bs "started")) []).2 = Ok sample_response ∧
  live (false, false) (announce (λ _, CurlNoHandle) (λ _, sample_env) sample_client 6881 0 0 16
     (Some (bs "started")) []).1 = Some (false, false).
Proof.
  split; [vm_compute; reflexivity|].
  pose proof (announce_first_tracker (λ _, CurlNoHandle) (λ _, sample_env) sample_client 6881 0 0 16
    (Some (bs "started")) sample_client_ok ltac:(lia) ltac:(lia) ltac:(lia)) as H.
  destruct (announce _ _ _ _ _ _ _ _ _) as [calls m]. exact (proj1 H).
Defined.
