(* ===== verification/Config.v ===== *)
(** * Command line: [config.hpp], [config.cpp]

    [parse_arguments] on the arguments after the program's name. Whether a path exists
    is an argument. The main theorem: which arguments are accepted, and the
    configuration they give, on which the rest of the program can rely. *)

From S2P Require Import Prelude StdString Tracker.

Record AppConfig := mk_config {
  torrent_path : list byte;
  output_dir : list byte;
  log_level : list byte;
  max_peers : Z;
  cfg_peer : list byte;
  show_help : bool;
}.

Definition config_init : AppConfig := mk_config [] (bs ".") (bs "info") 50 [] false.

(** [arg.rfind(p, 0) == 0]. *)
Definition starts_with (p : string) (arg : list byte) : bool :=
  bool_decide (ztake (zlen (bs p)) arg = bs p).

Definition valid_level (val : list byte) : bool :=
  bool_decide (val = bs "debug") || bool_decide (val = bs "info") ||
  bool_decide (val = bs "warn") || bool_decide (val = bs "error").

(** The value of [--max-peers]: whatever goes wrong in the [try] is one exception. *)
Definition parse_max_peers (val : list byte) : outcome Z :=
  if bool_decide (val = []) then Throw (invalid_argument "Empty value provided for --max-peers")
  else
    let tried :=
      '(peers, processed) ← stoi val;
      if negb (processed =? zlen val) || (peers <=? 0) then
        Throw (invalid_argument (msg_of (bs "Invalid integer value: " ++ val)))
      else Ok peers in
    match tried with
    | Throw _ => Throw (invalid_argument (msg_of (bs "Invalid integer for --max-peers: " ++ val)))
    | r => r
    end.

(** One argument. *)
Definition parse_argument (arg : list byte) (st : AppConfig * bool) : outcome (AppConfig * bool) :=
  let '(config, has_torrent_path) := st in
  let '(mk_config tp od ll mp pe he) := config in
  if bool_decide (arg = bs "--help") || bool_decide (arg = bs "-h") then
    Ok (mk_config tp od ll mp pe true, has_torrent_path)
  else if starts_with "--output-dir=" arg then
    let val := zdrop 13 arg in
    if bool_decide (val = []) then
      Throw (invalid_argument "Empty value provided for --output-dir")
    else Ok (mk_config tp val ll mp pe he, has_torrent_path)
  else if starts_with "--log-level=" arg then
    let val := zdrop 12 arg in
    if negb (valid_level val) then
      Throw (invalid_argument (msg_of (bs "Invalid log level: " ++ val ++
        bs " (must be debug, info, warn, or error)")))
    else Ok (mk_config tp od val mp pe he, has_torrent_path)
  else if starts_with "--max-peers=" arg then
    peers ← parse_max_peers (zdrop 12 arg);
    Ok (mk_config tp od ll peers pe he, has_torrent_path)
  else if starts_with "--peer=" arg then
    let val := zdrop 7 arg in
    if bool_decide (val = []) then
      Throw (invalid_argument "Empty value provided for --peer")
    else Ok (mk_config tp od ll mp val he, has_torrent_path)
  else if starts_with "-" arg then
    Throw (invalid_argument (msg_of (bs "Unknown command line option: " ++ arg)))
  else if has_torrent_path : bool then
    Throw (invalid_argument (msg_of (bs "Multiple torrent files specified: " ++ tp ++
      bs " and " ++ arg)))
  else Ok (mk_config arg od ll mp pe he, true).

Fixpoint parse_loop (args : list (list byte)) (st : AppConfig * bool)
    : outcome (AppConfig * bool) :=
  match args with
  | [] => Ok st
  | arg :: args => st ← parse_argument arg st; parse_loop args st
  end.

Section Parse.
(** [std::filesystem::exists]. *)
Variable exists_ : list byte → bool.

Definition parse_arguments (args : list (list byte)) : outcome AppConfig :=
  '(config, has_torrent_path) ← parse_loop args (config_init, false);
  if show_help config then Ok config
  else if negb has_torrent_path then
    Throw (runtime_error "Missing required argument: <torrent_file>")
  else if negb (exists_ (torrent_path config)) then
    Throw (runtime_error (msg_of (bs "Torrent file does not exist: " ++ torrent_path config)))
  else Ok config.
End Parse.

(** ** What the rest of the program relies on *)

Definition config_wf (c : AppConfig) : Prop :=
  1 ≤ max_peers c ≤ int_max ∧ valid_level (log_level c) = true ∧ output_dir c ≠ [].

(** ** Options and how they are written *)

Inductive Opt :=
| Help
| OutputDir (dir : list byte)
| LogLevel (level : list byte)
| MaxPeers (n : Z)
| Peer (addr : list byte)
| TorrentFile (path : list byte).

Definition render_opt (o : Opt) : list byte :=
  match o with
  | Help => bs "--help"
  | OutputDir d => bs "--output-dir=" ++ d
  | LogLevel l => bs "--log-level=" ++ l
  | MaxPeers n => bs "--max-peers=" ++ to_string n
  | Peer p => bs "--peer=" ++ p
  | TorrentFile p => p
  end.

Definition opt_ok (o : Opt) : Prop :=
  match o with
  | Help => True
  | OutputDir d => d ≠ []
  | LogLevel l => valid_level l = true
  | MaxPeers n => 1 ≤ n ≤ int_max
  | Peer p => p ≠ []
  | TorrentFile p => starts_with "-" p = false
  end.

Definition is_file (o : Opt) : bool := match o with TorrentFile _ => true | _ => false end.

(** What an option sets. *)
Definition apply_opt (c : AppConfig) (o : Opt) : AppConfig :=
  let '(mk_config tp od ll mp pe he) := c in
  match o with
  | Help => mk_config tp od ll mp pe true
  | OutputDir d => mk_config tp d ll mp pe he
  | LogLevel l => mk_config tp od l mp pe he
  | MaxPeers n => mk_config tp od ll n pe he
  | Peer p => mk_config tp od ll mp p he
  | TorrentFile p => mk_config p od ll mp pe he
  end.

Lemma bool_decide_neq {A} (x y : A) `{Decision (x = y)} : x ≠ y → bool_decide (x = y) = false.
Proof. apply bool_decide_eq_false_2. Qed.

Lemma starts_with_app p v : starts_with p (bs p ++ v) = true.
Proof. unfold starts_with. rewrite ztake_app. by apply bool_decide_eq_true. Qed.

(** An argument that does not start with a dash is none of the options. *)
Lemma no_dash p q :
  starts_with "-" p = false → head (bs q) = Some "-"%byte → starts_with q p = false ∧ p ≠ bs q.
Proof.
  intros Hp Hq. destruct (bs q) as [|c r] eqn:E; [done|]. injection Hq as ->.
  unfold starts_with in *. rewrite E. apply bool_decide_eq_false in Hp.
  destruct p as [|b p]; [split; [apply bool_decide_neq; unfold ztake; by rewrite take_nil|done]|].
  assert (b ≠ "-"%byte) as Hb by (intros ->; apply Hp; done).
  split; [|congruence]. apply bool_decide_neq. rewrite zlen_cons. unfold ztake.
  rewrite Z2Nat.inj_add, Nat.add_comm by auto with p2p lia. simpl. congruence.
Qed.

(** What an argument says: the value of [--max-peers] in any way [std::stoi] reads to
    its end, a file anything that does not start with a dash. *)
Inductive says : list byte → Opt → Prop :=
| says_help : says (bs "--help") Help
| says_h : says (bs "-h") Help
| says_dir d : d ≠ [] → says (bs "--output-dir=" ++ d) (OutputDir d)
| says_level l : valid_level l = true → says (bs "--log-level=" ++ l) (LogLevel l)
| says_max v n : stoi v = Ok (n, zlen v) → 0 < n → says (bs "--max-peers=" ++ v) (MaxPeers n)
| says_peer p : p ≠ [] → says (bs "--peer=" ++ p) (Peer p)
| says_file p : starts_with "-" p = false → says p (TorrentFile p).

Lemma says_render o : opt_ok o → says (render_opt o) o.
Proof.
  destruct o as [|d|l|n|p|p]; intros Ho; cbn [render_opt]; try (by constructor).
  simpl in Ho. constructor; [by rewrite stoi_to_string by lia|lia].
Qed.

Lemma parse_max_peers_ok v n : parse_max_peers v = Ok n ↔ stoi v = Ok (n, zlen v) ∧ 0 < n.
Proof.
  unfold parse_max_peers. case_bool_decide as E; [subst v; by split; [|intros [? _]]|].
  destruct (stoi v) as [[k z]|e|w|]; cbn [mbind outcome_bind]; try (by split; [|intros [? _]]).
  destruct (Z.eqb_spec z (zlen v)) as [->|Hz]; cbn [negb orb].
  - destruct (Z.leb_spec k 0); [split; [done|intros [[= ->] ?]; lia]|].
    split; [by intros [= ->]|by intros [[= ->] _]].
  - split; [done|]. intros [[= _ ?] _]. done.
Qed.

Lemma starts_with_true p arg : starts_with p arg = true → arg = bs p ++ zdrop (zlen (bs p)) arg.
Proof. intros H%bool_decide_eq_true. by rewrite <- H, ztake_zdrop at 1. Qed.

(** An argument is accepted exactly when it says something, a file only once; and sets
    what it says. *)
Lemma parse_argument_says o arg c b :
  says arg o → (is_file o = true → b = false) →
  parse_argument arg (c, b) = Ok (apply_opt c o, b || is_file o).
Proof.
  intros Hs Hb. destruct c as [tp od ll mp pe he]. rewrite (orb_comm b).
  destruct Hs as [| |d Hd|l Hl|v n Hv Hn|p Hp|p Hp]; unfold parse_argument; cbn [apply_opt is_file orb];
    try done.
  - rewrite !(bool_decide_neq (bs _ ++ d)) by done. cbn [orb]. rewrite starts_with_app.
    change (zdrop 13 _) with d. by rewrite bool_decide_neq.
  - rewrite !(bool_decide_neq (bs _ ++ l)) by done. cbn [orb].
    change (starts_with "--output-dir=" _) with false. rewrite starts_with_app.
    change (zdrop 12 _) with l. by rewrite Hl.
  - rewrite !(bool_decide_neq (bs _ ++ v)) by done. cbn [orb].
    change (starts_with "--output-dir=" _) with false.
    change (starts_with "--log-level=" _) with false. rewrite starts_with_app.
    change (zdrop 12 _) with v. by rewrite (proj2 (parse_max_peers_ok v n)).
  - rewrite !(bool_decide_neq (bs _ ++ p)) by done. cbn [orb].
    change (starts_with "--output-dir=" _) with false.
    change (starts_with "--log-level=" _) with false.
    change (starts_with "--max-peers=" _) with false. rewrite starts_with_app.
    change (zdrop 7 _) with p. by rewrite bool_decide_neq.
  - rewrite Hb by done.
    destruct (no_dash p "--help" Hp eq_refl) as [_ H1], (no_dash p "-h" Hp eq_refl) as [_ H2].
    rewrite (bool_decide_neq _ _ H1), (bool_decide_neq _ _ H2), Hp.
    by rewrite !(λ q H, proj1 (no_dash p q Hp H)).
Qed.

Lemma parse_argument_inv arg c b c' b' :
  parse_argument arg (c, b) = Ok (c', b') →
  ∃ o, says arg o ∧ (is_file o = true → b = false) ∧ c' = apply_opt c o ∧ b' = b || is_file o.
Proof.
  destruct c as [tp od ll mp pe he]. unfold parse_argument. intros H.
  guard_in H as E0.
  { injection H as <- <-. exists Help. rewrite orb_false_r. split_and!; try done.
    apply orb_true_iff in E0 as [->%bool_decide_eq_true | ->%bool_decide_eq_true]; constructor. }
  destruct (starts_with "--output-dir=" arg) eqn:E1.
  { guard_in H as Ed. injection H as <- <-. apply bool_decide_eq_false in Ed. exists (OutputDir (zdrop 13 arg)).
    rewrite orb_false_r. split_and!; try done. rewrite (starts_with_true _ _ E1) at 1. by constructor. }
  destruct (starts_with "--log-level=" arg) eqn:E2.
  { guard_in H as Ed. injection H as <- <-. apply negb_false_iff in Ed. exists (LogLevel (zdrop 12 arg)).
    rewrite orb_false_r. split_and!; try done. rewrite (starts_with_true _ _ E2) at 1. by constructor. }
  destruct (starts_with "--max-peers=" arg) eqn:E3.
  { inv_ok H. injection H as <- <-. apply parse_max_peers_ok in H0 as [Hv Hn]. exists (MaxPeers x).
    rewrite orb_false_r. split_and!; try done. rewrite (starts_with_true _ _ E3) at 1. by constructor. }
  destruct (starts_with "--peer=" arg) eqn:E4.
  { guard_in H as Ed. injection H as <- <-. apply bool_decide_eq_false in Ed. exists (Peer (zdrop 7 arg)).
    rewrite orb_false_r. split_and!; try done. rewrite (starts_with_true _ _ E4) at 1. by constructor. }
  destruct (starts_with "-" arg) eqn:E5; [done|]. destruct b; [done|]. injection H as <- <-.
  exists (TorrentFile arg). split_and!; try done. by constructor.
Qed.

Definition files_of (opts : list Opt) : list Opt := filter (λ o, is_file o = true) opts.

(** All of them. *)
Lemma parse_loop_says args c b c' b' :
  parse_loop args (c, b) = Ok (c', b') ↔
  ∃ opts, Forall2 says args opts ∧ zlen (files_of opts) + Z.b2z b ≤ 1 ∧
    c' = foldl apply_opt c opts ∧ b' = b || existsb is_file opts.
Proof.
  revert c b. induction args as [|arg args IH]; intros c b; cbn [parse_loop].
  { split.
    - intros [= <- <-]. exists []. split_and!; [constructor|by destruct b|done|by rewrite orb_false_r].
    - intros (opts & ->%Forall2_nil_inv_l & _ & -> & ->). simpl. by rewrite orb_false_r. }
  split.
  - intros H. inv_ok H. destruct x as [c1 b1].
    destruct (parse_argument_inv _ _ _ _ _ H0) as (o & Ho & Hb & -> & ->).
    apply IH in H as (opts & Hopts & Hn & -> & ->). exists (o :: opts). split; [by constructor|].
    split; [|split; [done|simpl; by rewrite orb_assoc]]. unfold files_of in *. rewrite filter_cons.
    case_decide as Hf; [rewrite zlen_cons; rewrite Hf in Hn, Hb; rewrite (Hb eq_refl) in *; simpl in *; lia|].
    apply not_true_is_false in Hf. by rewrite Hf, orb_false_r in Hn.
  - intros (opts & Hs & Hn & -> & ->). inversion Hs as [|? o ? opts' Ho Hopts]; subst.
    unfold files_of in Hn. rewrite filter_cons in Hn. fold (files_of opts') in Hn.
    assert (0 ≤ zlen (files_of opts')) by apply zlen_nonneg.
    rewrite (parse_argument_says o arg c b Ho).
    + cbn [mbind outcome_bind]. apply IH. exists opts'. split; [done|]. split; [|split; [done|by rewrite <- orb_assoc]].
      case_decide as Hf; [rewrite zlen_cons in Hn; rewrite Hf; destruct b; simpl in *; lia|].
      apply not_true_is_false in Hf. by rewrite Hf, orb_false_r.
    + intros Hf. rewrite decide_True in Hn by done. rewrite zlen_cons in Hn. destruct b; [simpl in Hn; lia|done].
Qed.

Lemma parse_max_peers_range val n : parse_max_peers val = Ok n → 1 ≤ n ≤ int_max.
Proof. intros [H Hn]%parse_max_peers_ok. apply stoi_range in H. lia. Qed.

Lemma parse_argument_wf arg c b c' b' :
  parse_argument arg (c, b) = Ok (c', b') → config_wf c → config_wf c'.
Proof.
  destruct c as [tp od ll mp pe he]. unfold parse_argument, config_wf.
  cbn [max_peers log_level output_dir]. intros H (Hm & Hl & Ho).
  repeat match type of H with (if ?x then _ else _) = _ => destruct x eqn:? end; try discriminate H.
  all: try (injection H as <- <-; cbn; split_and!; auto; try lia).
  - by match goal with H : bool_decide _ = false |- _ => apply bool_decide_eq_false in H end.
  - by apply negb_false_iff.
  - inv_ok H. injection H as <- <-. cbn. apply parse_max_peers_range in H0. auto.
Qed.

Lemma parse_loop_wf args st c b :
  parse_loop args st = Ok (c, b) → config_wf st.1 → config_wf c.
Proof.
  revert st. induction args as [|arg args IH]; intros st H Hst; cbn [parse_loop] in H; [by simplify_eq|].
  destruct st as [c0 b0]. inv_ok H. destruct x as [c1 b1]. apply (IH (c1, b1) H).
  by eapply parse_argument_wf.
Qed.

(** A torrent path comes from an argument, and is not an option. *)
Lemma parse_argument_path arg c b c' b' :
  parse_argument arg (c, b) = Ok (c', b') →
  (b' = b ∧ torrent_path c' = torrent_path c) ∨
  (b = false ∧ b' = true ∧ torrent_path c' = arg ∧ starts_with "-" arg = false).
Proof.
  destruct c as [tp od ll mp pe he]. unfold parse_argument. intros H.
  repeat match type of H with (if ?x then _ else _) = _ => destruct x eqn:? end; try discriminate H;
    try (injection H as <- <-; auto; fail).
  inv_ok H. injection H as <- <-. auto.
Qed.

Lemma parse_arguments_wf exists_ args c : parse_arguments exists_ args = Ok c → config_wf c.
Proof.
  unfold parse_arguments. intros H. inv_ok H. destruct x as [c1 b1].
  assert (c1 = c) as -> by (case_ifs_in H; congruence). by apply (parse_loop_wf _ _ _ _ H0).
Qed.

Lemma parse_loop_path args c b c' b' :
  parse_loop args (c, b) = Ok (c', b') →
  (b' = b ∧ torrent_path c' = torrent_path c) ∨
  (b' = true ∧ torrent_path c' ∈ args ∧ starts_with "-" (torrent_path c') = false).
Proof.
  revert c b. induction args as [|arg args IH]; intros c b H; cbn [parse_loop] in H; [simplify_eq; auto|].
  inv_ok H. destruct x as [c1 b1]. rewrite elem_of_cons.
  destruct (IH c1 b1 H) as [[-> E]|(-> & E & Es)]; [|auto 6].
  destruct (parse_argument_path _ _ _ _ _ H0) as [[-> E1]|(_ & -> & E1 & Es)]; [left; split; congruence|].
  right. rewrite E, E1. auto.
Qed.

Lemma parse_argument_defined arg st : defined (parse_argument arg st).
Proof.
  destruct st as [[tp od ll mp pe he] b]. unfold parse_argument. case_ifs; try done.
  apply defined_bind; [|done]. unfold parse_max_peers. case_ifs; try done.
  pose proof (stoi_defined (zdrop 12 arg)). destruct (stoi _) as [[v k]|e|w|]; try done. simpl. by case_ifs.
Qed.

Lemma parse_loop_defined args st : defined (parse_loop args st).
Proof.
  revert st. induction args as [|arg args IH]; intros st; simpl; [done|].
  apply defined_bind; auto using parse_argument_defined.
Qed.

(** C29: Whatever the arguments, [parse_arguments] returns or throws. It returns exactly
    when each argument says something (one of the options with an acceptable value, or a
    file), there is at most one file, and help is asked for or there is a file and it
    exists; and then it returns the defaults with what the arguments say applied in
    turn. Such a configuration is one the program can rely on: between one and 2^31-1
    peers, one of the four log levels, a non-empty output directory, and, unless help
    was asked for, a torrent path that is one of the arguments, is not an option and
    exists. An option written out says that option. *)
Theorem parse_arguments_spec (exists_ : list byte → bool) :
  (∀ args, defined (parse_arguments exists_ args)) ∧
  (∀ args c, parse_arguments exists_ args = Ok c ↔
     ∃ opts, Forall2 says args opts ∧ zlen (files_of opts) ≤ 1 ∧
       c = foldl apply_opt config_init opts ∧
       (show_help c = true ∨ existsb is_file opts = true ∧ exists_ (torrent_path c) = true)) ∧
  (∀ args c, parse_arguments exists_ args = Ok c →
     config_wf c ∧
     (show_help c = false → torrent_path c ∈ args ∧ exists_ (torrent_path c) = true ∧
        starts_with "-" (torrent_path c) = false)) ∧
  (∀ o, opt_ok o → says (render_opt o) o).
Proof.
  split_and!.
  - intros args. apply defined_bind; [apply parse_loop_defined|]. intros [c b] _. by case_ifs.
  - intros args c. unfold parse_arguments. split.
    + intros H. inv_ok H. destruct x as [c1 b1]. assert (c1 = c) as -> by (case_ifs_in H; congruence).
      apply parse_loop_says in H0 as (opts & Hs & Hn & -> & ->). exists opts. rewrite Z.add_0_r in Hn.
      split; [done|]. split; [done|]. split; [done|]. cbn [orb] in H.
      destruct (show_help _); [by left|right]. case_ifs_in H. by apply negb_false_iff in E, E0.
    + intros (opts & Hs & Hn & -> & Hc). rewrite (proj2 (parse_loop_says args config_init false (foldl apply_opt config_init opts)
        (false || existsb is_file opts))).
      2:{ exists opts. split_and!; [done|by rewrite Z.add_0_r|done|done]. }
      cbn [mbind outcome_bind orb]. destruct (show_help _); [done|].
      destruct Hc as [?|[-> ->]]; done.
  - intros args c H. split; [by eapply parse_arguments_wf|]. unfold parse_arguments in H. inv_ok H.
    destruct x as [c1 b1]. assert (c1 = c) as -> by (case_ifs_in H; congruence).
    intros Hh. rewrite Hh in H. destruct (parse_loop_path _ _ _ _ _ H0) as [[-> _]|(_ & ? & ?)];
      case_ifs_in H; [done|]. apply negb_false_iff in E0. auto.
  - exact says_render.
Qed.

(** ** Witness *)

Definition sample_args : list (list byte) :=
  [bs "--max-peers=+020"; bs "a.torrent"; bs "--log-level=warn"].
Definition sample_opts : list Opt :=
  [MaxPeers 20; TorrentFile (bs "a.torrent"); LogLevel (bs "warn")].
Definition sample_config : AppConfig :=
  mk_config (bs "a.torrent") (bs ".") (bs "warn") 20 [] false.

(** Arguments that are accepted, and two files, which are not. *)
Lemma parse_arguments_spec_witness :
  parse_arguments (λ _, true) sample_args = Ok sample_config ∧ config_wf sample_config ∧
  (∀ c, parse_arguments (λ _, true) [bs "a"; bs "b"] ≠ Ok c) ∧
  Forall2 says (render_opt <$> sample_opts) sample_opts.
Proof.
  destruct (parse_arguments_spec (λ _, true)) as (_ & Hiff & Hwf & Hrender).
  assert (parse_arguments (λ _, true) sample_args = Ok sample_config) as E.
  { apply Hiff. exists sample_opts. split; [|split; [vm_compute; discriminate|split; [reflexivity|right; split; reflexivity]]].
    constructor; [apply (says_max (bs "+020") 20); [vm_compute; reflexivity|lia]|].
    constructor; [apply says_file; reflexivity|].
    constructor; [apply (says_level (bs "warn")); reflexivity|]. constructor. }
  split; [exact E|]. split; [exact (proj1 (Hwf _ _ E))|]. split.
  - intros c Hc. vm_compute in Hc. discriminate Hc.
  - constructor; [apply Hrender; split; vm_compute; discriminate|]. constructor; [apply Hrender; reflexivity|].
    constructor; [apply Hrender; reflexivity|]. constructor.
Defined.
