(* ===== verification/Logger.v ===== *)
(** * Logger: [logger.hpp], [logger.cpp]

    How the default logger of spdlog is set up, and the severity it is kept at. What
    spdlog writes, and when, is its own affair: messages are not modelled.
    [std::transform] with [::tolower] reads each [char] as an [int], so most bytes above
    127 are undefined behaviour; the command line lets none of them through. *)

From S2P Require Import Prelude StdString Config.

(** The enumerators of [spdlog::level] that the sources name. *)
Inductive level := trace | debug | info | warn | err | critical.

(** [::tolower] in the C locale, on a [char] converted to [int]: it is defined on
    [unsigned char] values and [EOF], which is -1. *)
Definition tolower (c : byte) : outcome byte :=
  let i := swrap 8 (b2z c) in
  if (i <? 0) && negb (i =? -1) then UB "tolower of a negative char"
  else if (65 <=? i) && (i <=? 90) then Ok (z2b (i + 32)) else Ok c.

Definition level_of (normalised : list byte) : option level :=
  if bool_decide (normalised = bs "trace") then Some trace
  else if bool_decide (normalised = bs "debug") then Some debug
  else if bool_decide (normalised = bs "info") then Some info
  else if bool_decide (normalised = bs "warn") then Some warn
  else if bool_decide (normalised = bs "error") then Some err
  else if bool_decide (normalised = bs "critical") then Some critical
  else None.

Definition LOG_FILE_PATH : string := "logs/app_log.txt".

(** Where messages go, each sink with its pattern. *)
Inductive sink := ConsoleSink (pattern : string) | FileSink (path pattern : string).

(** The default logger: its sinks, the level from which it flushes, its level. *)
Record Log := mk_log { sinks : list sink; flush_on : level; log_at : level }.

Definition set_level (target : level) (l : Log) : Log := mk_log (sinks l) (flush_on l) target.

(** [init_logger]: making the directory can throw [directories], opening the file
    [file]. *)
Definition init_logger (directories file : option exn) : outcome Log :=
  _ ← may_throw directories;
  _ ← may_throw file;
  let console_sink := ConsoleSink "%^[%Y-%m-%d %H:%M:%S.%e] [%l] %v%$" in
  let file_sink := FileSink LOG_FILE_PATH "[%Y-%m-%d %H:%M:%S.%e] [%l] %v" in
  Ok (set_level info (mk_log [console_sink; file_sink] warn info)).

(** A name that is not known leaves the logger as it is. *)
Definition set_log_level (name : list byte) (current : Log) : outcome Log :=
  normalised ← mapM tolower name;
  match level_of normalised with
  | Some target => Ok (set_level target current)
  | None => Ok current
  end.

(** ** Lemmas *)

(** Lower case, on bytes below 128. *)
Definition lower (c : byte) : byte :=
  if (65 <=? b2z c) && (b2z c <=? 90) then z2b (b2z c + 32) else c.

Lemma tolower_ascii c : b2z c < 128 → tolower c = Ok (lower c).
Proof. by destruct c. Qed.

Lemma lower_lower c : lower (lower c) = lower c.
Proof. by destruct c. Qed.

Lemma lower_ascii c : b2z c < 128 → b2z (lower c) < 128.
Proof. by destruct c. Qed.

Lemma tolower_all l : Forall (λ c, b2z c < 128) l → mapM tolower l = Ok (lower <$> l).
Proof.
  induction 1 as [|c l Hc _ IH]; [done|]. cbn [mapM]. rewrite tolower_ascii by done.
  cbn [mbind outcome_bind]. by rewrite IH.
Qed.

Lemma set_log_level_ascii name current :
  Forall (λ c, b2z c < 128) name →
  set_log_level name current =
    Ok (from_option (λ l, set_level l current) current (level_of (lower <$> name))).
Proof.
  intros H. unfold set_log_level. rewrite tolower_all by done. cbn [mbind outcome_bind].
  by destruct (level_of _).
Qed.

(** The case of the letters does not matter. *)
Lemma set_log_level_case name current :
  Forall (λ c, b2z c < 128) name →
  set_log_level (lower <$> name) current = set_log_level name current.
Proof.
  intros H. rewrite !set_log_level_ascii; [|done|].
  - rewrite <- list_fmap_compose. do 3 f_equal. apply list_fmap_ext. intros _ c _. apply lower_lower.
  - by apply Forall_fmap, (Forall_impl _ _ _ H), lower_ascii.
Qed.

(** A byte above 127, but for the last, is undefined behaviour wherever it stands. *)
Lemma set_log_level_high name c rest current :
  Forall (λ c, b2z c < 128) name → 128 ≤ b2z c < 255 →
  set_log_level (name ++ c :: rest) current = UB "tolower of a negative char".
Proof.
  intros H Hc. unfold set_log_level. enough (mapM tolower (name ++ c :: rest) = UB "tolower of a negative char") as ->
    by done.
  assert (tolower c = UB "tolower of a negative char") as E by by (destruct Hc; destruct c).
  induction H as [|x l Hx _ IH]; cbn [mapM app]; [by rewrite E|].
  rewrite tolower_ascii by done. cbn [mbind outcome_bind]. by rewrite IH.
Qed.

(** A level the command line lets through is one the logger knows: the default does not
    matter, and neither [trace] nor [critical] can be asked for. *)
Lemma valid_level_set name :
  valid_level name = true →
  ∃ l, l ≠ trace ∧ l ≠ critical ∧ ∀ current, set_log_level name current = Ok (set_level l current).
Proof.
  unfold valid_level. rewrite !orb_true_iff, !bool_decide_eq_true.
  intros [[[-> | ->] | ->] | ->]; [exists debug|exists info|exists warn|exists err]; done.
Qed.

(** What [main] sets is defined, and one of the four. *)
Lemma parsed_level_set exists_ args c :
  parse_arguments exists_ args = Ok c →
  ∃ l, (∀ current, set_log_level (log_level c) current = Ok (set_level l current)) ∧
    l ≠ trace ∧ l ≠ critical.
Proof.
  intros (_ & Hl & _)%parse_arguments_wf. destruct (valid_level_set _ Hl) as (l & ? & ? & H).
  by exists l.
Qed.
