(* ===== verification/PieceManager.v ===== *)
(** * Piece manager: [piece_manager.hpp], [piece_manager.cpp]

    The pieces in progress, their blocks of 16 KiB and the buffer each is assembled
    in. Every member function is a definition; [in_progress_[i]] creates an entry, as
    in the source, also when [i] is no piece of the torrent. Lengths are [uint32_t],
    the length of the last piece is computed in [int64_t]. *)

From S2P Require Import Prelude StdString Bencode Bitfield Hasher Torrent.

Inductive BlockState := Pending | Requested | Received.

#[export] Instance block_state_eq_dec : EqDecision BlockState.
Proof. solve_decision. Defined.

Record Block := mk_block { b_piece : Z; b_begin : Z; b_length : Z; b_state : BlockState }.

#[export] Instance block_eq_dec : EqDecision Block.
Proof. solve_decision. Defined.

Definition set_state (s : BlockState) (b : Block) : Block :=
  mk_block (b_piece b) (b_begin b) (b_length b) s.

Record PieceState := mk_piece {
  ps_index : Z;
  ps_length : Z;
  ps_blocks : list Block;
  ps_data : list byte;
  ps_blocks_received : Z;
}.

Definition empty_piece : PieceState := mk_piece 0 0 [] [] 0.

Record PieceManager := mk_pm {
  metadata : TorrentMetadata;
  bitfield : Bitfield;
  in_progress : gmap Z PieceState;
}.

Definition with_in_progress (pm : PieceManager) (ip : gmap Z PieceState) : PieceManager :=
  mk_pm (metadata pm) (bitfield pm) ip.

(** The constructor. *)
Definition make_pm (m : TorrentMetadata) : PieceManager :=
  mk_pm m (Bitfield.make (u64 (num_pieces m))) ∅.

Definition has_piece (pm : PieceManager) (piece_idx : Z) : bool :=
  Bitfield.has (bitfield pm) piece_idx.

Definition mark_completed (pm : PieceManager) (piece_idx : Z) : PieceManager :=
  mk_pm (metadata pm) (Bitfield.set (bitfield pm) piece_idx true) (in_progress pm).

Definition get_piece_length (m : TorrentMetadata) (piece_idx : Z) : outcome Z :=
  if u64 (num_pieces m) <=? piece_idx then Ok 0
  else
    last ← int32 (num_pieces m - 1);
    if piece_idx <? u64 last then Ok (u32 (piece_length m))
    else
      before ← i64_mul last (piece_length m);
      last_piece_len ← i64_sub (total_length m) before;
      Ok (u32 last_piece_len).

Definition block_size : Z := 16384.

(** The [while (offset < state.length)] loop of [init_piece_state]. *)
Fixpoint blocks_loop (fuel : nat) (piece_idx len offset : Z) (blocks : list Block)
    : outcome (list Block) :=
  match fuel with
  | O => Fuel
  | S f =>
      if offset <? len then
        let l := Z.min block_size (u32 (len - offset)) in
        blocks_loop f piece_idx len (u32 (offset + l))
          (blocks ++ [mk_block (u32 piece_idx) offset l Pending])
      else Ok blocks
  end.

(** One round per block and one to leave the loop. *)
Definition blocks_fuel (len : Z) : nat := S (Z.to_nat ((len + (block_size - 1)) / block_size)).

(** [in_progress_[piece_idx]]. *)
Definition state_of (pm : PieceManager) (piece_idx : Z) : PieceState :=
  default empty_piece (in_progress pm !! piece_idx).

Definition put_state (pm : PieceManager) (piece_idx : Z) (st : PieceState) : PieceManager :=
  with_in_progress pm (<[piece_idx := st]> (in_progress pm)).

Definition init_piece_state (pm : PieceManager) (piece_idx : Z) : outcome PieceManager :=
  let state := state_of pm piece_idx in
  let pm := put_state pm piece_idx state in
  if negb (bool_decide (ps_blocks state = [])) then Ok pm
  else
    len ← get_piece_length (metadata pm) piece_idx;
    let data := resize len x00 (ps_data state) in
    blocks ← blocks_loop (blocks_fuel len) piece_idx len 0 (ps_blocks state);
    Ok (put_state pm piece_idx
          (mk_piece (u32 piece_idx) len blocks data (ps_blocks_received state))).

Definition with_blocks (st : PieceState) (blocks : list Block) : PieceState :=
  mk_piece (ps_index st) (ps_length st) blocks (ps_data st) (ps_blocks_received st).

Definition get_next_block (pm : PieceManager) (piece_idx : Z)
    : outcome (option Block * PieceManager) :=
  if has_piece pm piece_idx then Ok (None, pm)
  else
    pm ← init_piece_state pm piece_idx;
    let state := state_of pm piece_idx in
    match list_find (λ b, b_state b = Pending) (ps_blocks state) with
    | Some (i, block) =>
        let block := set_state Requested block in
        Ok (Some block, put_state pm piece_idx (with_blocks state (<[i := block]> (ps_blocks state))))
    | None => Ok (None, pm)
    end.

(** Store a block that was not received before; it is counted only if its bytes fit
    in the buffer. *)
Definition store_block (state : PieceState) (i : nat) (block : Block) (begin : Z)
    (block_data : list byte) : PieceState :=
  let state := with_blocks state (<[i := set_state Received block]> (ps_blocks state)) in
  if begin + zlen block_data <=? zlen (ps_data state) then
    mk_piece (ps_index state) (ps_length state) (ps_blocks state)
      (splice begin block_data (ps_data state)) (ps_blocks_received state + 1)
  else state.

Definition block_received (pm : PieceManager) (piece_idx begin : Z) (block_data : list byte)
    : outcome (bool * PieceManager) :=
  if has_piece pm piece_idx then Ok (false, pm)
  else
    pm ← init_piece_state pm piece_idx;
    let state := state_of pm piece_idx in
    let state :=
      match list_find (λ b, b_begin b = begin) (ps_blocks state) with
      | Some (i, b) =>
          if negb (bool_decide (b_state b = Received)) then store_block state i b begin block_data
          else state
      | None => state
      end in
    Ok (ps_blocks_received state =? zlen (ps_blocks state), put_state pm piece_idx state).

Definition piece_completed (pm : PieceManager) (piece_idx : Z) : PieceManager :=
  mk_pm (metadata pm) (Bitfield.set (bitfield pm) piece_idx true)
    (delete piece_idx (in_progress pm)).

Definition piece_failed (pm : PieceManager) (piece_idx : Z) : PieceManager :=
  with_in_progress pm (delete piece_idx (in_progress pm)).

Definition get_piece_data (pm : PieceManager) (piece_idx : Z) : list byte :=
  match in_progress pm !! piece_idx with Some st => ps_data st | None => [] end.

Definition is_in_progress (pm : PieceManager) (piece_idx : Z) : bool :=
  bool_decide (is_Some (in_progress pm !! piece_idx)).

Definition has_pending_blocks (pm : PieceManager) (piece_idx : Z) : bool :=
  if has_piece pm piece_idx then false
  else
    match in_progress pm !! piece_idx with
    | None => true
    | Some st => existsb (λ b, bool_decide (b_state b = Pending)) (ps_blocks st)
    end.

Definition block_request_failed (pm : PieceManager) (piece_idx begin : Z) : PieceManager :=
  match in_progress pm !! piece_idx with
  | None => pm
  | Some state =>
      match list_find (λ b, b_begin b = begin) (ps_blocks state) with
      | Some (i, b) =>
          if bool_decide (b_state b = Requested) then
            put_state pm piece_idx (with_blocks state (<[i := set_state Pending b]> (ps_blocks state)))
          else pm
      | None => pm
      end
  end.

(** [validate_piece]: the hash vector is indexed without a check. *)
Definition validate_piece `{C : CryptoSHA1} (pm : PieceManager) (piece_idx : Z) : outcome bool :=
  match in_progress pm !! piece_idx with
  | None => Ok false
  | Some st =>
      let computed_hash := hash (ps_data st) in
      match znth (piece_hashes (metadata pm)) piece_idx with
      | Some expected => Ok (bool_decide (computed_hash = expected))
      | None => UB "piece_hashes out of range"
      end
  end.

(** ** The blocks of a piece *)

(** The length of a piece, as the exact arithmetic has it. *)
Definition piece_len (m : TorrentMetadata) (i : Z) : Z :=
  if num_pieces m <=? i then 0
  else if i <? num_pieces m - 1 then piece_length m
  else total_length m - (num_pieces m - 1) * piece_length m.

Definition num_blocks (len : Z) : Z := (len + (block_size - 1)) / block_size.

(** The [k]th block of a piece of [len] bytes, and all of them. *)
Definition block_at (i len k : Z) : Block :=
  mk_block (u32 i) (k * block_size) (Z.min block_size (len - k * block_size)) Pending.
Definition layout (i len : Z) : list Block := block_at i len <$> seqZ 0 (num_blocks len).

Lemma num_blocks_spec len k :
  0 ≤ len → 0 ≤ k → k < num_blocks len ↔ k * block_size < len.
Proof.
  intros. unfold num_blocks, block_size in *.
  pose proof (Z.div_mod (len + (16384 - 1)) 16384). pose proof (Z.mod_pos_bound (len + (16384 - 1)) 16384).
  lia.
Qed.

Lemma num_blocks_nonneg len : 0 ≤ len → 0 ≤ num_blocks len.
Proof. intros. unfold num_blocks, block_size. apply Z.div_pos; lia. Qed.

Lemma piece_len_range m i : wf_metadata m → 0 ≤ i → 0 ≤ piece_len m i < 2 ^ 32.
Proof. intros (_ & ? & ? & ? & ? & _) Hi. unfold piece_len. case_ifs; lia. Qed.

Lemma piece_len_pos m i : wf_metadata m → 0 ≤ i < num_pieces m → 0 < piece_len m i.
Proof. intros (_ & ? & ? & ? & ? & _) Hi. unfold piece_len. case_ifs; lia. Qed.

Lemma get_piece_length_spec m i :
  wf_metadata m → 0 ≤ i → get_piece_length m i = Ok (piece_len m i).
Proof.
  intros Hw Hi. pose proof (piece_len_range m i Hw Hi) as Hr.
  destruct Hw as (_ & Hn & Hpl & Hp0 & Htot & _). unfold get_piece_length, piece_len in *.
  rewrite wrap_small by lia. case_ifs; [done| |].
  all: rewrite int32_in by (unfold int_max; lia); cbn [mbind outcome_bind];
    rewrite wrap_small by lia; rewrite E0.
  - by rewrite wrap_small by lia.
  - unfold i64_mul, i64_sub. rewrite i64_in by (unfold is_i64, int64_min, int64_max; nia).
    cbn [mbind outcome_bind]. rewrite i64_in by (unfold is_i64, int64_min, int64_max; nia).
    cbn [mbind outcome_bind]. by rewrite wrap_small by lia.
Qed.

(** The loop of [init_piece_state] builds [layout]; its bound is enough. *)
Lemma blocks_loop_spec f i len k blocks :
  0 ≤ len < 2 ^ 32 → 0 ≤ k ≤ num_blocks len → num_blocks len - k < Z.of_nat f →
  blocks_loop f i len (Z.min len (k * block_size)) blocks =
  Ok (blocks ++ (block_at i len <$> seqZ k (num_blocks len - k))).
Proof.
  intros Hlen. revert k blocks. induction f as [|f IH]; intros k blocks Hk Hf; [lia|].
  pose proof (num_blocks_spec len k ltac:(lia) ltac:(lia)) as Hs.
  simpl. unfold block_size in *. case_ifs; try apply Z.ltb_lt in E; try apply Z.ltb_ge in E.
  - rewrite Z.min_r in * by lia. rewrite (wrap_small 32 (len - _)) by lia.
    rewrite wrap_small by lia.
    replace (k * 16384 + Z.min 16384 (len - k * 16384)) with (Z.min len ((k + 1) * 16384)) by lia.
    rewrite IH by lia. rewrite <- app_assoc. do 2 f_equal.
    replace (num_blocks len - k) with (Z.succ (num_blocks len - (k + 1))) by lia.
    rewrite (seqZ_cons k) by lia. rewrite Z.pred_succ, Z.add_1_r. done.
  - replace (num_blocks len - k) with 0 by lia. simpl. by rewrite app_nil_r.
Qed.

Lemma blocks_loop_layout i len :
  0 ≤ len < 2 ^ 32 → blocks_loop (blocks_fuel len) i len 0 [] = Ok (layout i len).
Proof.
  intros Hlen. pose proof (num_blocks_nonneg len ltac:(lia)).
  pose proof (blocks_loop_spec (blocks_fuel len) i len 0 []) as H0.
  rewrite Z.min_r, Z.sub_0_r in H0 by lia. apply H0; try lia.
  unfold blocks_fuel. fold (num_blocks len). lia.
Qed.

Lemma layout_lookup i len k b :
  layout i len !! k = Some b ↔ b = block_at i len (Z.of_nat k) ∧ Z.of_nat k < num_blocks len.
Proof.
  unfold layout. rewrite list_lookup_fmap, fmap_Some. split.
  - intros (z & [-> Hz]%lookup_seqZ & ->). by rewrite Z.add_0_l.
  - intros [-> Hk]. exists (Z.of_nat k). split; [|done]. apply lookup_seqZ. lia.
Qed.

Lemma zlen_layout i len : 0 ≤ len → zlen (layout i len) = num_blocks len.
Proof.
  intros. pose proof (num_blocks_nonneg len). unfold layout, zlen.
  rewrite length_fmap, length_seqZ. lia.
Qed.

(** ** The class invariant *)

(** How many blocks are received. *)
Definition received (blocks : list Block) : Z :=
  zlen (filter (λ b, b_state b = Received) blocks).

(** An entry of [in_progress_]: its blocks are the layout of the piece with some
    states, its buffer has the length of the piece, and it counts at most the blocks
    that are received. *)
Definition piece_wf (m : TorrentMetadata) (i : Z) (st : PieceState) : Prop :=
  ps_index st = u32 i ∧ ps_length st = piece_len m i ∧ zlen (ps_data st) = piece_len m i ∧
  set_state Pending <$> ps_blocks st = layout i (piece_len m i) ∧
  0 ≤ ps_blocks_received st ≤ received (ps_blocks st).

Definition pm_wf (pm : PieceManager) : Prop :=
  wf_metadata (metadata pm) ∧ Bitfield.wf (bitfield pm) ∧
  num_bits (bitfield pm) = num_pieces (metadata pm) ∧
  map_Forall (λ i st, 0 ≤ i ∧ piece_wf (metadata pm) i st) (in_progress pm).

Definition fresh_piece (m : TorrentMetadata) (i : Z) : PieceState :=
  let len := piece_len m i in
  mk_piece (u32 i) len (layout i len) (replicate (Z.to_nat len) x00) 0.

(** The entry of a piece after [init_piece_state]. *)
Definition entry (pm : PieceManager) (i : Z) : PieceState :=
  default (fresh_piece (metadata pm) i) (in_progress pm !! i).

Lemma received_range blocks : 0 ≤ received blocks ≤ zlen blocks.
Proof. unfold received, zlen. pose proof (length_filter (λ b, b_state b = Received) blocks). lia. Qed.

Lemma received_insert blocks k b b' :
  blocks !! k = Some b →
  received (<[k := b']> blocks) =
  received blocks - (if decide (b_state b = Received) then 1 else 0)
                  + (if decide (b_state b' = Received) then 1 else 0).
Proof.
  revert k. induction blocks as [|x blocks IH]; intros [|k] Hk; [done|done| |].
  - injection Hk as ->. change (<[O := b']> (b :: blocks)) with (b' :: blocks). unfold received.
    rewrite !filter_cons. repeat case_decide; rewrite ?zlen_cons; lia.
  - specialize (IH k Hk). change (<[S k := b']> (x :: blocks)) with (x :: <[k := b']> blocks).
    unfold received in *. rewrite !filter_cons.
    destruct (decide (b_state x = Received)); rewrite ?zlen_cons; lia.
Qed.

Lemma received_layout i len : received (layout i len) = 0.
Proof.
  unfold received, layout. rewrite list_filter_fmap.
  induction (seqZ 0 (num_blocks len)) as [|z l IH]; [done|]. by rewrite filter_cons_False.
Qed.

(** Every block received means none is left. *)
Lemma received_all blocks k b :
  received blocks = zlen blocks → blocks !! k = Some b → b_state b = Received.
Proof.
  revert k. induction blocks as [|x blocks IH]; intros k Hr Hk; [done|].
  unfold received in Hr. rewrite filter_cons in Hr.
  pose proof (received_range blocks) as Hb. unfold received in Hb.
  case_decide; rewrite !zlen_cons in Hr; [|lia].
  destruct k as [|k]; [by injection Hk as ->|]. apply (IH k); [unfold received; lia|done].
Qed.

Lemma all_received blocks :
  (∀ (k : nat) b, blocks !! k = Some b → b_state b = Received) → received blocks = zlen blocks.
Proof.
  induction blocks as [|x blocks IH]; intros H; [done|]. unfold received in *.
  rewrite filter_cons, decide_True by (by apply (H O)). rewrite !zlen_cons, IH; [done|].
  intros k. apply (H (S k)).
Qed.

Lemma erase_insert (blocks : list Block) (k : nat) b s :
  blocks !! k = Some b →
  set_state Pending <$> <[k := set_state s b]> blocks = set_state Pending <$> blocks.
Proof.
  intros Hk. rewrite list_fmap_insert. apply list_insert_id.
  by rewrite list_lookup_fmap, Hk.
Qed.

(** A block of a well-formed entry. *)
Lemma piece_wf_block m i st k b :
  piece_wf m i st → ps_blocks st !! k = Some b →
  b = set_state (b_state b) (block_at i (piece_len m i) (Z.of_nat k)) ∧
  Z.of_nat k < num_blocks (piece_len m i).
Proof.
  intros (_ & _ & _ & He & _) Hk.
  assert ((set_state Pending <$> ps_blocks st) !! k = Some (set_state Pending b)) as Hp
    by (by rewrite list_lookup_fmap, Hk).
  rewrite He in Hp. apply layout_lookup in Hp as [Hp Hlt]. split; [|done].
  rewrite <- Hp. by destruct b.
Qed.

Lemma piece_wf_extent m i st k b :
  piece_wf m i st → ps_blocks st !! k = Some b →
  b_begin b = Z.of_nat k * block_size ∧
  b_length b = Z.min block_size (piece_len m i - Z.of_nat k * block_size).
Proof. intros Hst Hk. by destruct (piece_wf_block _ _ _ _ _ Hst Hk) as [-> _]. Qed.

Lemma piece_wf_length m i st :
  0 ≤ piece_len m i → piece_wf m i st → zlen (ps_blocks st) = num_blocks (piece_len m i).
Proof.
  intros Hl (_ & _ & _ & He & _). rewrite <- (zlen_layout i) by done. rewrite <- He.
  unfold zlen. by rewrite length_fmap.
Qed.

Lemma fresh_piece_wf m i : 0 ≤ piece_len m i → piece_wf m i (fresh_piece m i).
Proof.
  intros. unfold piece_wf, fresh_piece. simpl. rewrite zlen_replicate, received_layout by done.
  split_and!; try done. unfold layout. by rewrite <- list_fmap_compose.
Qed.

Lemma entry_wf pm i : pm_wf pm → 0 ≤ i → piece_wf (metadata pm) i (entry pm i).
Proof.
  intros (Hm & _ & _ & Hip) Hi. unfold entry. destruct (in_progress pm !! i) eqn:E.
  - by apply (Hip i).
  - by apply fresh_piece_wf, piece_len_range.
Qed.

Lemma put_state_wf pm i st :
  pm_wf pm → 0 ≤ i → piece_wf (metadata pm) i st → pm_wf (put_state pm i st).
Proof.
  intros (Hm & Hb & Hn & Hip) Hi Hst. split_and!; auto. by apply map_Forall_insert_2.
Qed.

Lemma state_of_put pm i st : state_of (put_state pm i st) i = st.
Proof. unfold state_of, put_state. simpl. by rewrite lookup_insert_eq. Qed.

Lemma put_put pm i st st' : put_state (put_state pm i st) i st' = put_state pm i st'.
Proof. unfold put_state, with_in_progress. simpl. by rewrite insert_insert_eq. Qed.

(** [init_piece_state] makes or keeps the entry of the piece. *)
Lemma init_piece_state_spec pm i :
  pm_wf pm → 0 ≤ i → init_piece_state pm i = Ok (put_state pm i (entry pm i)).
Proof.
  intros Hw Hi. pose proof (entry_wf pm i Hw Hi) as He. destruct Hw as (Hm & _).
  pose proof (piece_len_range _ i Hm Hi) as Hl.
  unfold init_piece_state, state_of, entry in *.
  destruct (in_progress pm !! i) as [st|] eqn:E; simpl default in *.
  - case_bool_decide as Eb; [|done]. cbn [negb].
    rewrite get_piece_length_spec by done. cbn [mbind outcome_bind].
    rewrite Eb, blocks_loop_layout by done. cbn [mbind outcome_bind].
    rewrite put_put. pose proof (piece_wf_length _ _ _ (proj1 Hl) He) as Hz.
    rewrite Eb in Hz. destruct He as (Ex & El & Ed & Ebl & _).
    cbn [metadata put_state with_in_progress]. do 2 f_equal. rewrite Eb in Ebl. simpl in Ebl. rewrite <- Ebl.
    destruct st; simpl in *. subst. f_equal.
    unfold resize. rewrite <- Ed, Z.sub_diag. simpl. rewrite app_nil_r.
    rewrite <- (app_nil_r ps_data0) at 2. by rewrite ztake_app.
  - rewrite bool_decide_eq_true_2 by done. cbn [negb].
    rewrite get_piece_length_spec by done. cbn [mbind outcome_bind].
    cbn [ps_blocks empty_piece]. rewrite blocks_loop_layout by done. cbn [mbind outcome_bind].
    rewrite put_put. do 2 f_equal. unfold fresh_piece. f_equal. simpl.
    unfold resize, ztake. rewrite take_nil. simpl. by rewrite Z.sub_0_r.
Qed.

Lemma get_next_block_eq pm i :
  pm_wf pm → 0 ≤ i → has_piece pm i = false →
  get_next_block pm i =
  Ok (match list_find (λ b, b_state b = Pending) (ps_blocks (entry pm i)) with
      | Some (k, b) =>
          (Some (set_state Requested b),
           put_state pm i (with_blocks (entry pm i)
             (<[k := set_state Requested b]> (ps_blocks (entry pm i)))))
      | None => (None, put_state pm i (entry pm i))
      end).
Proof.
  intros Hw Hi Hh. unfold get_next_block. rewrite Hh, init_piece_state_spec by done.
  cbn [mbind outcome_bind]. rewrite state_of_put.
  destruct (list_find _ _) as [[k b]|]; [|done]. by rewrite put_put.
Qed.

(** What [block_received] makes of the entry. *)
Definition receive (st : PieceState) (begin : Z) (d : list byte) : PieceState :=
  match list_find (λ b, b_begin b = begin) (ps_blocks st) with
  | Some (k, b) =>
      if bool_decide (b_state b = Received) then st else store_block st k b begin d
  | None => st
  end.

Lemma block_received_eq pm i begin d :
  pm_wf pm → 0 ≤ i → has_piece pm i = false →
  block_received pm i begin d =
  let st := receive (entry pm i) begin d in
  Ok (ps_blocks_received st =? zlen (ps_blocks st), put_state pm i st).
Proof.
  intros Hw Hi Hh. unfold block_received, receive. rewrite Hh, init_piece_state_spec by done.
  cbn [mbind outcome_bind]. rewrite state_of_put, put_put.
  destruct (list_find _ _) as [[k b]|]; [|done]. by case_bool_decide.
Qed.

(** ** Every operation preserves the invariant *)

(** The block of an offset is found by it: offsets are distinct. *)
Lemma find_begin m i st begin k b :
  piece_wf m i st →
  list_find (λ b, b_begin b = begin) (ps_blocks st) = Some (k, b) ↔
  ps_blocks st !! k = Some b ∧ begin = Z.of_nat k * block_size.
Proof.
  intros Hst. rewrite list_find_Some. split.
  - intros (Hk & <- & _). split; [done|].
    destruct (piece_wf_block _ _ _ _ _ Hst Hk) as [-> _]. done.
  - intros [Hk ->]. destruct (piece_wf_block _ _ _ _ _ Hst Hk) as [Eb _]. split_and!; [done| |].
    + by rewrite Eb.
    + intros j y Hj Hlt. destruct (piece_wf_block _ _ _ _ _ Hst Hj) as [-> _].
      simpl. unfold block_size. lia.
Qed.

Lemma find_begin_none m i st begin :
  piece_wf m i st → list_find (λ b, b_begin b = begin) (ps_blocks st) = None →
  ∀ k b, ps_blocks st !! k = Some b → begin ≠ Z.of_nat k * block_size.
Proof.
  intros Hst Hn k b Hk ->.
  by rewrite (proj2 (find_begin m i st _ k b Hst)) in Hn.
Qed.

(** Changing the state of one block keeps the entry well-formed, if the received
    ones still cover the count. *)
Lemma with_blocks_wf m i st k b s n data :
  piece_wf m i st → ps_blocks st !! k = Some b → zlen data = zlen (ps_data st) →
  0 ≤ n ≤ received (<[k := set_state s b]> (ps_blocks st)) →
  piece_wf m i
    (mk_piece (ps_index st) (ps_length st) (<[k := set_state s b]> (ps_blocks st)) data n).
Proof.
  intros (Hx & Hl & Hd & He & _) Hk Hdata Hn. unfold piece_wf. simpl.
  rewrite erase_insert by done. split_and!; congruence || lia.
Qed.

Lemma set_state_wf m i st k b s :
  piece_wf m i st → ps_blocks st !! k = Some b → b_state b ≠ Received → s ≠ Received →
  piece_wf m i (with_blocks st (<[k := set_state s b]> (ps_blocks st))).
Proof.
  intros Hst Hk Hb Hs. apply with_blocks_wf; auto. destruct Hst as (_ & _ & _ & _ & Hr).
  rewrite (received_insert _ _ b) by done. rewrite !decide_False by done. lia.
Qed.

Lemma store_block_wf m i st k b begin d :
  piece_wf m i st → ps_blocks st !! k = Some b → b_state b ≠ Received → 0 ≤ begin →
  piece_wf m i (store_block st k b begin d).
Proof.
  intros Hst Hk Hb Hbg. pose proof Hst as (_ & _ & _ & _ & Hr).
  assert (received (<[k := set_state Received b]> (ps_blocks st)) =
          received (ps_blocks st) + 1) as Er.
  { rewrite (received_insert _ _ b) by done. rewrite decide_False, decide_True by done. lia. }
  unfold store_block. case_ifs; apply Z.leb_le in E || apply Z.leb_gt in E;
    apply (with_blocks_wf m i st); auto using zlen_splice; simpl; lia.
Qed.

Lemma receive_wf m i st begin d :
  piece_wf m i st → 0 ≤ begin → piece_wf m i (receive st begin d).
Proof.
  intros Hst Hb. unfold receive. destruct (list_find _ _) as [[k b]|] eqn:E; [|done].
  case_bool_decide; [done|]. apply find_begin with (m := m) (i := i) in E as [Hk ->]; [|done].
  by apply store_block_wf.
Qed.

(** The operations that change state, with their arguments. *)
Inductive pm_op :=
| MarkCompleted (i : Z)
| GetNextBlock (i : Z)
| BlockReceived (i begin : Z) (d : list byte)
| PieceCompleted (i : Z)
| PieceFailed (i : Z)
| BlockRequestFailed (i begin : Z).

Definition pm_op_ok (op : pm_op) : Prop :=
  match op with
  | MarkCompleted i | GetNextBlock i | PieceCompleted i | PieceFailed i => 0 ≤ i
  | BlockReceived i begin _ | BlockRequestFailed i begin => 0 ≤ i ∧ 0 ≤ begin
  end.

Definition run_pm_op (pm : PieceManager) (op : pm_op) : outcome PieceManager :=
  match op with
  | MarkCompleted i => Ok (mark_completed pm i)
  | GetNextBlock i => '(_, pm) ← get_next_block pm i; Ok pm
  | BlockReceived i begin d => '(_, pm) ← block_received pm i begin d; Ok pm
  | PieceCompleted i => Ok (piece_completed pm i)
  | PieceFailed i => Ok (piece_failed pm i)
  | BlockRequestFailed i begin => Ok (block_request_failed pm i begin)
  end.

Fixpoint run_pm_ops (pm : PieceManager) (ops : list pm_op) : outcome PieceManager :=
  match ops with
  | [] => Ok pm
  | op :: ops => pm ← run_pm_op pm op; run_pm_ops pm ops
  end.

Lemma set_bit_wf pm i ip :
  pm_wf pm → 0 ≤ i → ip ⊆ in_progress pm →
  pm_wf (mk_pm (metadata pm) (Bitfield.set (bitfield pm) i true) ip).
Proof.
  intros (Hm & Hb & Hn & Hip) Hi Hsub. split_and!; simpl; auto using wf_set.
  - by rewrite num_bits_set.
  - intros j st Hj. apply (Hip j). by eapply lookup_weaken.
Qed.

Lemma delete_wf pm i : pm_wf pm → pm_wf (piece_failed pm i).
Proof.
  intros (Hm & Hb & Hn & Hip). split_and!; auto. simpl. by apply map_Forall_delete.
Qed.

Lemma get_next_block_wf pm i :
  pm_wf pm → 0 ≤ i → ∃ r pm', get_next_block pm i = Ok (r, pm') ∧ pm_wf pm'.
Proof.
  intros Hw Hi. destruct (has_piece pm i) eqn:E.
  { exists None, pm. unfold get_next_block. by rewrite E. }
  rewrite get_next_block_eq by done. pose proof (entry_wf pm i Hw Hi).
  destruct (list_find _ _) as [[k b]|] eqn:Ef; do 2 eexists; (split; [done|]);
    apply put_state_wf; auto.
  apply list_find_Some in Ef as (Hk & Hb & _). apply set_state_wf; congruence.
Qed.

Lemma block_received_wf pm i begin d :
  pm_wf pm → 0 ≤ i → 0 ≤ begin →
  ∃ r pm', block_received pm i begin d = Ok (r, pm') ∧ pm_wf pm'.
Proof.
  intros Hw Hi Hb. destruct (has_piece pm i) eqn:E.
  { exists false, pm. unfold block_received. by rewrite E. }
  rewrite block_received_eq by done. do 2 eexists. split; [done|].
  apply put_state_wf; auto. by apply receive_wf, Hb; apply entry_wf.
Qed.

Lemma block_request_failed_wf pm i begin :
  pm_wf pm → pm_wf (block_request_failed pm i begin).
Proof.
  intros Hw. unfold block_request_failed. destruct (in_progress pm !! i) as [st|] eqn:E; [|done].
  destruct Hw as (Hm & Hbf & Hn & Hip) eqn:Ew. clear Ew. destruct (Hip i st E) as [Hi Hst].
  destruct (list_find _ _) as [[k b]|] eqn:Ef; [|done].
  case_bool_decide as Es; [|done]. apply list_find_Some in Ef as (Hk & _ & _).
  apply put_state_wf; auto. apply set_state_wf; congruence.
Qed.

Lemma run_pm_op_wf pm op :
  pm_wf pm → pm_op_ok op → ∃ pm', run_pm_op pm op = Ok pm' ∧ pm_wf pm'.
Proof.
  intros Hw Hop. destruct op; simpl in *.
  - eexists. split; [done|]. by apply set_bit_wf.
  - destruct (get_next_block_wf pm i Hw Hop) as (r & pm' & -> & ?). by exists pm'.
  - destruct (block_received_wf pm i begin d Hw) as (r & pm' & -> & ?); try lia. by exists pm'.
  - eexists. split; [done|]. apply set_bit_wf; auto. apply delete_subseteq.
  - eexists. split; [done|]. by apply delete_wf.
  - eexists. split; [done|]. by apply block_request_failed_wf.
Qed.

Lemma make_pm_wf m : wf_metadata m → pm_wf (make_pm m).
Proof.
  intros Hm. pose proof Hm as (_ & Hn & _). unfold make_pm. split_and!; simpl; auto.
  - apply wf_make. rewrite wrap_small by lia. lia.
  - by rewrite wrap_small by lia.
  - apply map_Forall_empty.
Qed.

(** Any sequence of calls returns in a well-formed state. *)
Lemma run_pm_ops_total pm ops :
  pm_wf pm → Forall pm_op_ok ops → ∃ pm', run_pm_ops pm ops = Ok pm' ∧ pm_wf pm'.
Proof.
  intros Hw Hops. revert pm Hw.
  induction Hops as [|op ops Hop _ IH]; intros pm Hw; simpl; [eauto|].
  destruct (run_pm_op_wf pm op Hw Hop) as (pm' & -> & Hw'). apply (IH pm' Hw').
Qed.

(** All pieces are there. *)
Definition complete_download (pm : PieceManager) (m : TorrentMetadata) : Prop :=
  ∀ i, 0 ≤ i < num_pieces m → has_piece pm i = true.

(** ** Properties *)

(** C21: the operations are total and keep the class invariant: from a new manager
    any sequence of calls, with any indices, offsets and payloads, returns (no
    exception, no undefined behaviour, no endless loop) in a state where every entry
    has exactly the blocks of its piece, a buffer of the piece's length, and counts
    no more blocks than it received. *)
Theorem pm_invariant (m : TorrentMetadata) (ops : list pm_op) :
  wf_metadata m → Forall pm_op_ok ops →
  ∃ pm, run_pm_ops (make_pm m) ops = Ok pm ∧ pm_wf pm.
Proof. intros Hm Hops. by apply run_pm_ops_total; [apply make_pm_wf|]. Qed.

(** The blocks cover [off, stop) one after another, none empty or above 16 KiB. *)
Fixpoint tiles (off : Z) (blocks : list Block) (stop : Z) : Prop :=
  match blocks with
  | [] => off = stop
  | b :: blocks =>
      b_begin b = off ∧ 0 < b_length b ≤ block_size ∧ tiles (off + b_length b) blocks stop
  end.

Lemma tiles_erase off blocks stop :
  tiles off (set_state Pending <$> blocks) stop ↔ tiles off blocks stop.
Proof. revert off. induction blocks as [|b blocks IH]; intros off; simpl; [done|]. by rewrite IH. Qed.

Lemma tiles_layout i len : 0 ≤ len → tiles 0 (layout i len) len.
Proof.
  intros Hl. pose proof (num_blocks_nonneg len Hl) as Hn. unfold layout.
  cut (∀ n k, 0 ≤ k → k + Z.of_nat n = num_blocks len →
       tiles (Z.min len (k * block_size)) (block_at i len <$> seqZ k (Z.of_nat n)) len).
  { intros H. specialize (H (Z.to_nat (num_blocks len)) 0). rewrite Z2Nat.id in H by done.
    rewrite Z.min_r in H by (unfold block_size; lia). apply H; lia. }
  induction n as [|n IH]; intros k Hk E.
  - pose proof (num_blocks_spec len k Hl Hk). simpl. lia.
  - pose proof (num_blocks_spec len k Hl Hk). rewrite seqZ_cons by lia. cbn [fmap list_fmap tiles].
    cbn [block_at b_begin b_length]. unfold block_size in *.
    replace (Z.pred (Z.of_nat (S n))) with (Z.of_nat n) by lia.
    split_and!; try lia. replace (_ + _) with (Z.min len (Z.succ k * 16384)) by lia.
    apply IH; lia.
Qed.

Definition zsum (l : list Z) : Z := foldr Z.add 0 l.

Lemma zsum_app l k : zsum (l ++ k) = zsum l + zsum k.
Proof. induction l as [|x l IH]; simpl; [done|]. rewrite IH. lia. Qed.

Lemma zsum_const c k n : 0 ≤ n → ∀ f, (∀ i, k ≤ i < k + n → f i = c) →
  zsum (f <$> seqZ k n) = n * c.
Proof.
  intros Hn f. revert k. pattern n. apply natlike_ind; [simpl; lia| |done].
  intros x Hx IH k Hf. rewrite seqZ_cons by lia. rewrite Z.pred_succ. simpl.
  rewrite (Hf k), IH by lia || (intros; apply Hf; lia). lia.
Qed.

(** The pieces' lengths add up to the total. *)
Lemma piece_len_sum m :
  wf_metadata m → zsum (piece_len m <$> seqZ 0 (num_pieces m)) = total_length m.
Proof.
  intros (_ & Hn & Hpl & Ht0 & Ht & _).
  destruct (decide (num_pieces m = 0)) as [E|]; [rewrite E in *; simpl; lia|].
  replace (num_pieces m) with (num_pieces m - 1 + 1) at 1 by lia.
  rewrite seqZ_app, fmap_app, zsum_app, (zsum_const (piece_length m)) by
    (unfold piece_len; intros; case_ifs; lia).
  change (seqZ _ 1) with [0 + (num_pieces m - 1)]. cbn [fmap list_fmap zsum foldr].
  unfold piece_len. case_ifs; lia.
Qed.

(** C30: the download is partitioned twice: the pieces' lengths, as
    [get_piece_length] computes them in [int64_t] and truncates to [uint32_t], add up
    to the total length; and the blocks [init_piece_state] makes tile the piece,
    consecutive, none empty, none above 16 KiB. *)
Theorem pieces_and_blocks_tile (pm : PieceManager) (i : Z) :
  pm_wf pm → 0 ≤ i →
  let m := metadata pm in
  (∀ j, 0 ≤ j → get_piece_length m j = Ok (piece_len m j)) ∧
  zsum (piece_len m <$> seqZ 0 (num_pieces m)) = total_length m ∧
  ∃ pm', init_piece_state pm i = Ok pm' ∧
         tiles 0 (ps_blocks (state_of pm' i)) (piece_len m i).
Proof.
  intros Hw Hi m. pose proof Hw as (Hm & _). split_and!.
  - auto using get_piece_length_spec.
  - by apply piece_len_sum.
  - eexists. split; [by apply init_piece_state_spec|]. rewrite state_of_put.
    apply tiles_erase. pose proof (entry_wf pm i Hw Hi) as (_ & _ & _ & -> & _).
    by apply tiles_layout, piece_len_range.
Qed.

(** A piece not started has all its blocks pending. *)
Lemma has_pending_entry pm i :
  pm_wf pm → 0 ≤ i < num_pieces (metadata pm) → has_piece pm i = false →
  has_pending_blocks pm i =
  existsb (λ b, bool_decide (b_state b = Pending)) (ps_blocks (entry pm i)).
Proof.
  intros (Hm & _) Hi Eh. unfold has_pending_blocks, entry. rewrite Eh.
  destruct (in_progress pm !! i); [done|]. simpl.
  pose proof (piece_len_pos _ i Hm Hi) as Hp. pose proof (num_blocks_spec (piece_len (metadata pm) i) 0).
  unfold layout. rewrite seqZ_cons by lia. done.
Qed.

(** C31: [get_next_block] hands out the first pending block and marks it requested:
    of the piece's state only that block changes (its count of received blocks, its
    buffer, its length and index stay), and of the manager only that piece, whose state
    is laid out first if there was none. It returns no block exactly when the piece is
    complete or has none pending, which is what [has_pending_blocks] tells in advance.
    The block handed out is pending no longer, so that the next call hands out another. *)
Theorem get_next_block_first (pm : PieceManager) (i : Z) :
  pm_wf pm → 0 ≤ i < num_pieces (metadata pm) →
  ∃ r pm', get_next_block pm i = Ok (r, pm') ∧
  metadata pm' = metadata pm ∧ bitfield pm' = bitfield pm ∧
  (∀ j, j ≠ i → in_progress pm' !! j = in_progress pm !! j) ∧
  match r with
  | Some b =>
      has_pending_blocks pm i = true ∧
      ∃ before b0 after, ps_blocks (entry pm i) = before ++ b0 :: after ∧
        b_state b0 = Pending ∧ Forall (λ x, b_state x ≠ Pending) before ∧
        b = set_state Requested b0 ∧
        in_progress pm' !! i = Some (mk_piece (ps_index (entry pm i)) (ps_length (entry pm i))
          (before ++ b :: after) (ps_data (entry pm i)) (ps_blocks_received (entry pm i)))
  | None =>
      has_pending_blocks pm i = false ∧ entry pm' i = entry pm i
  end.
Proof.
  intros Hw Hi. pose proof Hw as (Hm & _).
  destruct (has_piece pm i) eqn:Eh.
  { exists None, pm. unfold get_next_block, has_pending_blocks. by rewrite Eh. }
  rewrite has_pending_entry by done.
  rewrite get_next_block_eq by (done || lia).
  assert (∀ st j, j ≠ i → in_progress (put_state pm i st) !! j = in_progress pm !! j) as Hput.
  { intros. simpl. by rewrite lookup_insert_ne. }
  destruct (list_find _ _) as [[k b]|] eqn:Ef; do 2 eexists; (split; [done|]); (split; [done|]);
    (split; [done|]); (split; [apply Hput|]).
  - apply list_find_Some in Ef as (Hk & Hb & Hlt). split.
    + apply existsb_exists. exists b. rewrite bool_decide_eq_true_2 by done. split; [|done].
      by eapply list_elem_of_In, list_elem_of_lookup_2.
    + exists (take k (ps_blocks (entry pm i))), b, (drop (S k) (ps_blocks (entry pm i))).
      split_and!; try done; [by rewrite take_drop_middle| |].
      * apply Forall_forall. intros x Hx. apply list_elem_of_lookup in Hx as [j Hj].
        apply lookup_take_Some in Hj as [Hj ?]. by eapply Hlt.
      * simpl. rewrite lookup_insert_eq. unfold with_blocks. do 2 f_equal. apply insert_take_drop.
        by eapply lookup_lt_Some.
  - split; [|unfold entry at 1; simpl; by rewrite lookup_insert_eq]. apply list_find_None in Ef. apply not_true_iff_false.
    intros (b & Hb & Ht)%existsb_exists. apply bool_decide_eq_true in Ht.
    rewrite Forall_forall in Ef. by apply (Ef b); [apply list_elem_of_In|].
Qed.

(** *** Reassembly *)

(** The bytes of block [k] in the content of a piece. *)
Definition block_bytes (content : list byte) (k : Z) : list byte :=
  slice (k * block_size) (Z.min block_size (zlen content - k * block_size)) content.

(** Operations under which piece [i] only receives bytes of [content]; the piece is
    not completed or dropped meanwhile. *)
Definition honest (content : list byte) (i : Z) (op : pm_op) : Prop :=
  pm_op_ok op ∧
  match op with
  | BlockReceived j begin d =>
      j = i → (∃ k, 0 ≤ k < num_blocks (zlen content) ∧ begin = k * block_size ∧
                    d = block_bytes content k) ∨
              (∀ k, begin ≠ k * block_size)
  | MarkCompleted j | PieceCompleted j | PieceFailed j => j ≠ i
  | _ => True
  end.

(** [ops] received block [k] of piece [i]. *)
Definition got (ops : list pm_op) (i k : Z) : Prop :=
  ∃ d, BlockReceived i (k * block_size) d ∈ ops.

(** After [ops] the entry [st] holds the bytes of [content] in the received blocks. *)
Definition assembling (content : list byte) (i : Z) (ops : list pm_op) (st : PieceState) : Prop :=
  ps_blocks_received st = received (ps_blocks st) ∧
  ∀ k b, ps_blocks st !! k = Some b →
    (b_state b = Received ↔ got ops i (Z.of_nat k)) ∧
    (b_state b = Received → ∀ j, 0 ≤ j < b_length b →
       znth (ps_data st) (b_begin b + j) = znth content (b_begin b + j)).

Lemma got_snoc ops op i k :
  got (ops ++ [op]) i k ↔ got ops i k ∨ ∃ d, op = BlockReceived i (k * block_size) d.
Proof.
  unfold got. setoid_rewrite elem_of_app. setoid_rewrite list_elem_of_singleton.
  split; [intros (d & [|]); [left|right]; eauto|intros [(d & ?)|(d & ->)]; eauto].
Qed.

(** An operation that is no receipt for [i] leaves what is assembled. *)
Lemma assembling_other content i ops op st :
  (∀ k d, op ≠ BlockReceived i (k * block_size) d) →
  assembling content i ops st → assembling content i (ops ++ [op]) st.
Proof.
  intros Hop [Hr Hb]. split; [done|]. intros k b Hk. destruct (Hb k b Hk) as [Hs Hd].
  split; [|done]. rewrite got_snoc, Hs. naive_solver.
Qed.

(** So does a change of a block that is not received to another such state. *)
Lemma assembling_set content i ops st k b s :
  ps_blocks st !! k = Some b → b_state b ≠ Received → s ≠ Received →
  assembling content i ops st →
  assembling content i ops (with_blocks st (<[k := set_state s b]> (ps_blocks st))).
Proof.
  intros Hk Hb Hs [Hr Hall]. split; simpl.
  { rewrite (received_insert _ _ b), !decide_False by done. lia. }
  intros j x [(<- & <- & Hlt)|[Hne Hj]]%list_lookup_insert_Some; simpl.
  - destruct (Hall k b Hk) as [Hg _]. rewrite <- Hg. done.
  - by apply Hall.
Qed.

Lemma block_bytes_length content k :
  0 ≤ k < num_blocks (zlen content) →
  zlen (block_bytes content k) = Z.min block_size (zlen content - k * block_size).
Proof.
  intros Hk. pose proof (zlen_nonneg content).
  pose proof (num_blocks_spec (zlen content) k ltac:(lia) ltac:(lia)).
  unfold block_bytes, block_size in *. apply zlen_slice; lia.
Qed.

(** Receiving an honest block records it. *)
Lemma assembling_receive content m i ops st k :
  piece_wf m i st → zlen content = piece_len m i → 0 ≤ k < num_blocks (zlen content) →
  assembling content i ops st →
  assembling content i (ops ++ [BlockReceived i (k * block_size) (block_bytes content k)])
    (receive st (k * block_size) (block_bytes content k)).
Proof.
  intros Hst Hc Hk Ha.
  pose proof (block_bytes_length content k Hk) as Hbl.
  pose proof (num_blocks_spec (zlen content) k (zlen_nonneg _) ltac:(lia)) as Hks.
  assert (zlen (ps_blocks st) = num_blocks (zlen content)) as Hlen.
  { rewrite Hc. apply (piece_wf_length m i); [rewrite <- Hc; apply zlen_nonneg|done]. }
  destruct (lookup_lt_is_Some_2 (ps_blocks st) (Z.to_nat k)) as [b Hb];
    [apply Nat2Z.inj_lt; fold (zlen (ps_blocks st)); lia|].
  assert (list_find (λ b, b_begin b = k * block_size) (ps_blocks st) = Some (Z.to_nat k, b)) as Ef.
  { apply (find_begin m i st); [done|]. split; [done|]. by rewrite Z2Nat.id by lia. }
  destruct (piece_wf_extent _ _ _ _ _ Hst Hb) as [Eb El]. rewrite Z2Nat.id in Eb, El by lia.
  unfold receive. rewrite Ef. destruct Ha as [Hr Hall].
  case_bool_decide as Es.
  { split; [done|]. intros j x Hj. destruct (Hall j x Hj) as [Hg Hd]. split; [|done].
    rewrite got_snoc, Hg. split; [by left|]. intros [|(d & [= E _])]; [done|].
    assert (j = Z.to_nat k) as -> by (unfold block_size in E; lia).
    rewrite Hb in Hj. injection Hj as <-. by apply Hg. }
  pose proof Hst as (_ & _ & Hd & _).
  unfold store_block. simpl ps_data. rewrite (proj2 (Z.leb_le _ _)) by lia.
  split; simpl.
  { rewrite (received_insert _ _ b), decide_False, decide_True by done. lia. }
  intros j x [(<- & <- & _)|[Hne Hj]]%list_lookup_insert_Some; simpl.
  - split; [rewrite got_snoc, Z2Nat.id by lia; naive_solver|]. intros _ o Ho.
    rewrite Eb, znth_splice by (unfold block_size in *; lia).
    replace (k * block_size + o - k * block_size) with o by lia.
    rewrite (proj2 (Z.leb_le _ _)), (proj2 (Z.ltb_lt _ _)) by lia. simpl.
    apply znth_slice; unfold block_size in *; lia.
  - destruct (Hall j x Hj) as [Hg Hdx]. split.
    + rewrite got_snoc, Hg. split; [by left|]. intros [|(d & [= E _])]; [done|].
      unfold block_size in E. lia.
    + intros Hx o Ho. rewrite <- Hdx by done.
      destruct (piece_wf_extent _ _ _ _ _ Hst Hj) as [Ex Elx]. unfold block_size in *.
      rewrite Ex, znth_splice by lia. case_ifs; [|done]. lia.
Qed.

Lemma entry_put pm i j st :
  entry (put_state pm j st) i = if decide (j = i) then st else entry pm i.
Proof.
  unfold entry. simpl. case_decide as E; [subst; by rewrite lookup_insert_eq|].
  by rewrite lookup_insert_ne.
Qed.

Lemma entry_delete pm i j bf : j ≠ i →
  entry (mk_pm (metadata pm) bf (delete j (in_progress pm))) i = entry pm i.
Proof. intros. unfold entry. simpl. by rewrite lookup_delete_ne. Qed.

Lemma has_piece_set pm i j ip : pm_wf pm → 0 ≤ j → j ≠ i →
  has_piece (mk_pm (metadata pm) (Bitfield.set (bitfield pm) j true) ip) i = has_piece pm i.
Proof.
  intros (_ & Hb & _) Hj Hne. unfold has_piece. simpl. rewrite has_set by done.
  by rewrite decide_False by naive_solver.
Qed.

(** What a call does to the entry of [i]. *)
Lemma block_received_entry pm i j begin d pm' r :
  pm_wf pm → 0 ≤ j → block_received pm j begin d = Ok (r, pm') →
  metadata pm' = metadata pm ∧ bitfield pm' = bitfield pm ∧
  entry pm' i = if decide (j = i ∧ has_piece pm j = false) then receive (entry pm i) begin d
                else entry pm i.
Proof.
  intros Hw Hj H. destruct (has_piece pm j) eqn:E.
  { unfold block_received in H. rewrite E in H. injection H as <- <-.
    by rewrite decide_False by naive_solver. }
  rewrite block_received_eq in H by done. injection H as _ <-. split_and!; try done.
  rewrite entry_put. repeat case_decide; naive_solver.
Qed.

Lemma block_request_failed_other pm i j begin :
  j ≠ i → entry (block_request_failed pm j begin) i = entry pm i.
Proof.
  intros Hj. unfold block_request_failed. destruct (in_progress pm !! j) as [st|]; [|done].
  destruct (list_find _ _) as [[k b]|]; [|done]. case_bool_decide; [|done].
  by rewrite entry_put, decide_False.
Qed.

Lemma block_request_failed_bitfield pm j begin :
  metadata (block_request_failed pm j begin) = metadata pm ∧
  bitfield (block_request_failed pm j begin) = bitfield pm.
Proof.
  unfold block_request_failed. destruct (in_progress pm !! j) as [st|]; [|done].
  destruct (list_find _ _) as [[k b]|]; [|done]. by case_bool_decide.
Qed.

(** An invariant of one entry, over the operations that change it: [P] is kept when
    a block that is not received changes state, and [Q op] when the operation stores
    a payload. *)
Lemma entry_step (P : PieceState → Prop) pm i op pm' :
  pm_wf pm → 0 ≤ i → pm_op_ok op → has_piece pm i = false →
  run_pm_op pm op = Ok pm' →
  (∀ j, op = MarkCompleted j ∨ op = PieceCompleted j ∨ op = PieceFailed j → j ≠ i) →
  (∀ st k b s, piece_wf (metadata pm) i st → ps_blocks st !! k = Some b → b_state b ≠ Received →
     s ≠ Received → P st → P (with_blocks st (<[k := set_state s b]> (ps_blocks st)))) →
  (∀ st begin d, op = BlockReceived i begin d → piece_wf (metadata pm) i st → P st →
     P (receive st begin d)) →
  P (entry pm i) →
  P (entry pm' i) ∧ has_piece pm' i = false ∧ metadata pm' = metadata pm.
Proof.
  intros Hw Hi Hop Hh H Hne Hset Hrec HP. pose proof (entry_wf pm i Hw Hi) as He.
  destruct op as [j|j|j begin d|j|j|j begin]; simpl in H, Hop.
  - injection H as <-. split_and!; [done| |done]. rewrite <- Hh.
    apply has_piece_set; auto.
  - destruct (has_piece pm j) eqn:Ej.
    { unfold get_next_block in H. rewrite Ej in H. by injection H as <-. }
    rewrite get_next_block_eq in H by done. cbn [mbind outcome_bind] in H.
    destruct (list_find _ _) as [[k b]|] eqn:Ef; injection H as <-;
      (split_and!; [|done|done]); rewrite entry_put; case_decide; subst; try done.
    apply list_find_Some in Ef as (Hk & Hb & _). apply Hset; congruence.
  - destruct (block_received pm j begin d) as [[r pm1]| | |] eqn:E; try done.
    injection H as <-. destruct (block_received_entry pm i j begin d pm1 r Hw (proj1 Hop) E)
      as (Em & Eb & Ee).
    split_and!; [|by unfold has_piece; rewrite Eb|done]. rewrite Ee.
    case_decide as Ed; [|done]. destruct Ed as [-> _]. by apply Hrec.
  - injection H as <-. split_and!; [|rewrite <- Hh; by apply has_piece_set; auto|done].
    unfold piece_completed. by rewrite entry_delete by auto.
  - injection H as <-. split_and!; try done. unfold piece_failed, with_in_progress.
    by rewrite entry_delete by auto.
  - injection H as <-. destruct (block_request_failed_bitfield pm j begin) as [Em Eb].
    split_and!; [|by unfold has_piece; rewrite Eb|done].
    destruct (decide (j = i)) as [->|]; [|by rewrite block_request_failed_other].
    unfold block_request_failed. unfold entry in HP, He |- *.
    destruct (in_progress pm !! i) as [st|] eqn:E; [|by rewrite E].
    destruct (list_find _ _) as [[k b]|] eqn:Ef; [|by rewrite E].
    case_bool_decide as Es; [|by rewrite E]. simpl. rewrite lookup_insert_eq. simpl.
    apply list_find_Some in Ef as (Hk & _ & _). apply Hset; auto; congruence.
Qed.

Lemma receive_none m i st begin d :
  piece_wf m i st → (∀ k, begin ≠ k * block_size) → receive st begin d = st.
Proof.
  intros Hst Hb. unfold receive. destruct (list_find _ _) as [[k b]|] eqn:E; [|done].
  apply (find_begin m i st) in E as [_ E]; [|done]. by destruct (Hb (Z.of_nat k)).
Qed.

Lemma assembling_step content i ops op pm pm' :
  pm_wf pm → 0 ≤ i → has_piece pm i = false → zlen content = piece_len (metadata pm) i →
  honest content i op → run_pm_op pm op = Ok pm' →
  assembling content i ops (entry pm i) →
  assembling content i (ops ++ [op]) (entry pm' i) ∧ has_piece pm' i = false ∧
  metadata pm' = metadata pm.
Proof.
  intros Hw Hi Hh Hc [Hop Hho] H Ha.
  assert ((∃ begin d, op = BlockReceived i begin d) ∨ ∀ begin d, op ≠ BlockReceived i begin d)
    as [(begin & d & ->)|Hn].
  { destruct op; try (right; done). destruct (decide (i0 = i)); naive_solver. }
  - simpl in H. destruct (block_received pm i begin d) as [[r pm1]| | |] eqn:E; try done.
    injection H as ->. destruct (block_received_entry pm i i begin d pm' r Hw Hi E)
      as (Em & Eb & ->).
    rewrite decide_True by done. split_and!; [|by unfold has_piece; rewrite Eb|done].
    pose proof (entry_wf pm i Hw Hi) as He.
    destruct (Hho eq_refl) as [(k & Hk & -> & ->)|Hb].
    + by apply (assembling_receive content (metadata pm)).
    + rewrite (receive_none (metadata pm) i) by done.
      apply assembling_other; [|done]. intros k d' [= E1 _]. by destruct (Hb k).
  - apply (entry_step (assembling content i (ops ++ [op])) pm i op); auto.
    + intros j [-> | [-> | ->]]; done.
    + intros. by apply assembling_set.
    + intros st begin d ->. by destruct (Hn begin d).
    + by apply assembling_other.
Qed.

Lemma assembling_run content m i ops pm :
  wf_metadata m → 0 ≤ i → zlen content = piece_len m i → Forall (honest content i) ops →
  run_pm_ops (make_pm m) ops = Ok pm →
  pm_wf pm ∧ has_piece pm i = false ∧ metadata pm = m ∧ assembling content i ops (entry pm i).
Proof.
  intros Hm Hi Hc Hops H.
  cut (∀ done pm0, pm_wf pm0 → has_piece pm0 i = false → metadata pm0 = m →
         assembling content i done (entry pm0 i) → run_pm_ops pm0 ops = Ok pm →
         pm_wf pm ∧ has_piece pm i = false ∧ metadata pm = m ∧
         assembling content i (done ++ ops) (entry pm i)).
  { intros Hcut. apply (Hcut [] (make_pm m)); auto using make_pm_wf.
    - pose proof Hm as (_ & Hn & _). unfold has_piece. simpl. rewrite wrap_small by lia.
      apply has_make; lia.
    - pose proof (piece_len_range m i Hm Hi) as Hl. unfold entry. simpl.
      split; [symmetry; apply received_layout|]. intros k b [-> _]%layout_lookup.
      simpl. unfold got. setoid_rewrite elem_of_nil. naive_solver. }
  clear H. induction Hops as [|op ops Hop _ IH]; intros done pm0 Hw Hh Hmd Ha H.
  { injection H as <-. by rewrite app_nil_r. }
  simpl in H. destruct (run_pm_op_wf pm0 op Hw (proj1 Hop)) as (pm1 & E1 & Hw1).
  rewrite E1 in H. simpl in H.
  destruct (assembling_step content i done op pm0 pm1) as (Ha1 & Hh1 & Hm1); auto.
  { by rewrite Hmd. }
  destruct (IH _ pm1 Hw1 Hh1 ltac:(congruence) Ha1 H) as (? & ? & ? & Har).
  by rewrite <- app_assoc in Har.
Qed.

(** Once every block is received the buffer is the content. *)
Lemma assembled content m i ops st :
  piece_wf m i st → zlen content = piece_len m i → assembling content i ops st →
  received (ps_blocks st) = zlen (ps_blocks st) → ps_data st = content.
Proof.
  intros Hst Hc [_ Hall] Hrec. pose proof Hst as (_ & _ & Hd & _).
  pose proof (zlen_nonneg content). rewrite <- Hc in Hd.
  pose proof (piece_wf_length m i st ltac:(lia) Hst) as Hl. rewrite <- Hc in Hl.
  apply znth_ext; [done|]. intros j Hj.
  pose proof (Z.div_mod j block_size) as Hdm. pose proof (Z.mod_pos_bound j block_size) as Hmp.
  pose proof (num_blocks_spec (zlen content) (j / block_size)) as Hs.
  unfold block_size in *.
  destruct (znth_is_Some (ps_blocks st) (j / 16384)) as [b Hb]; [lia|].
  unfold znth in Hb. rewrite (proj2 (Z.ltb_ge _ _)) in Hb by lia.
  destruct (piece_wf_extent m i st _ b Hst Hb) as [Eb El].
  rewrite Z2Nat.id in Eb, El by lia. unfold block_size in *.
  destruct (Hall _ b Hb) as [_ Hcopy].
  replace j with (b_begin b + j mod 16384) by lia.
  apply Hcopy; [by eapply received_all|lia].
Qed.

(** C8: reassembly: whatever calls are made on a new manager, in any order and with
    repetitions, as long as piece [i] only receives its own bytes, the next block
    received for it reports completion exactly when every block of the piece has been
    received, and the buffer is then the content of the piece, so that
    [validate_piece] compares the digest of the content with the expected hash. *)
Theorem reassembly `{C : CryptoSHA1} (m : TorrentMetadata) (i k : Z) (content : list byte)
    (ops : list pm_op) (pm : PieceManager) :
  wf_metadata m → 0 ≤ i < num_pieces m → zlen content = piece_len m i →
  Forall (honest content i) ops → run_pm_ops (make_pm m) ops = Ok pm →
  0 ≤ k < num_blocks (zlen content) →
  ∃ complete pm' expected,
    block_received pm i (k * block_size) (block_bytes content k) = Ok (complete, pm') ∧
    (complete = true ↔
     ∀ j, 0 ≤ j < num_blocks (zlen content) → j = k ∨ got ops i j) ∧
    znth (piece_hashes m) i = Some expected ∧
    (complete = true →
     get_piece_data pm' i = content ∧
     validate_piece pm' i = Ok (bool_decide (hash content = expected))).
Proof.
  intros Hm Hi Hc Hops Hrun Hk.
  destruct (assembling_run content m i ops pm Hm (proj1 Hi) Hc Hops Hrun) as (Hw & Hh & Hmd & Ha).
  destruct (znth_is_Some (piece_hashes m) i) as [expected He].
  { pose proof Hm as (<- & _). done. }
  rewrite block_received_eq by (done || lia). simpl.
  pose proof (entry_wf pm i Hw (proj1 Hi)) as Hst.
  set (op := BlockReceived i (k * block_size) (block_bytes content k)).
  assert (piece_wf m i (receive (entry pm i) (k * block_size) (block_bytes content k))) as Hst'.
  { rewrite <- Hmd. apply receive_wf; [done|]. unfold block_size. lia. }
  assert (assembling content i (ops ++ [op])
            (receive (entry pm i) (k * block_size) (block_bytes content k))) as Ha'.
  { apply (assembling_receive content (metadata pm)); try done. by rewrite Hmd. }
  revert Hst' Ha'. generalize (receive (entry pm i) (k * block_size) (block_bytes content k)).
  intros st Hst' [Hr Hall]. do 3 eexists. split; [done|].
  pose proof (piece_wf_length m i st ltac:(rewrite <- Hc; apply zlen_nonneg) Hst') as Hl.
  rewrite <- Hc in Hl. rewrite Hr, Z.eqb_eq. split; [split|split; [done|]].
  - intros Hrec j Hj. destruct (znth_is_Some (ps_blocks st) j) as [b Hb]; [lia|].
    unfold znth in Hb. rewrite (proj2 (Z.ltb_ge _ _)) in Hb by lia.
    pose proof (received_all _ _ _ Hrec Hb) as Hs. apply (Hall _ _ Hb) in Hs as Hg.
    rewrite Z2Nat.id, got_snoc in Hg by lia. destruct Hg as [|(d & [= E _])]; [by right|].
    left. unfold block_size in E. lia.
  - intros Hgot. apply all_received. intros j b Hj. apply (Hall j b Hj). rewrite got_snoc.
    apply lookup_lt_Some in Hj as Hlt. apply Nat2Z.inj_lt in Hlt.
    fold (zlen (ps_blocks st)) in Hlt.
    destruct (Hgot (Z.of_nat j) ltac:(lia)) as [->|]; [right; by eexists|by left].
  - intros Hrec. assert (ps_data st = content) as Ed by (by apply (assembled content m i (ops ++ [op]))).
    unfold get_piece_data, validate_piece. simpl. rewrite lookup_insert_eq, Ed, Hmd, He. done.
Qed.

(** *** Payloads the manager does not guard against *)

(** A block is received that is not counted. *)
Definition stuck (st : PieceState) : Prop :=
  ps_blocks_received st < received (ps_blocks st).

Lemma set_state_stuck st (k : nat) b s :
  ps_blocks st !! k = Some b → b_state b ≠ Received → s ≠ Received →
  stuck st → stuck (with_blocks st (<[k := set_state s b]> (ps_blocks st))).
Proof.
  intros Hk Hb Hs Hst. unfold stuck. simpl.
  rewrite (received_insert _ _ b), !decide_False by done. unfold stuck in Hst. lia.
Qed.

Lemma receive_stuck st begin d : stuck st → stuck (receive st begin d).
Proof.
  intros Hst. unfold receive. destruct (list_find _ _) as [[k b]|] eqn:E; [|done].
  case_bool_decide; [done|]. apply list_find_Some in E as (Hk & _ & _). unfold stuck in *.
  unfold store_block. case_ifs; simpl;
    rewrite (received_insert _ _ b), decide_False, decide_True by done; lia.
Qed.

Lemma stuck_incomplete st : stuck st → (ps_blocks_received st =? zlen (ps_blocks st)) = false.
Proof. unfold stuck. intros H. pose proof (received_range (ps_blocks st)). lia. Qed.

(** No operation but those that complete or drop the piece ends it. *)
Definition keeps (i : Z) (op : pm_op) : Prop :=
  pm_op_ok op ∧ ∀ j, op = MarkCompleted j ∨ op = PieceCompleted j ∨ op = PieceFailed j → j ≠ i.

Lemma run_stuck pm i ops pm' :
  pm_wf pm → 0 ≤ i → has_piece pm i = false → stuck (entry pm i) → Forall (keeps i) ops →
  run_pm_ops pm ops = Ok pm' → pm_wf pm' ∧ has_piece pm' i = false ∧ stuck (entry pm' i).
Proof.
  intros Hw Hi Hh Hs Hops. revert pm Hw Hh Hs.
  induction Hops as [|op ops [Hop Hk] _ IH]; intros pm Hw Hh Hs H; [by injection H as <-|].
  simpl in H. destruct (run_pm_op_wf pm op Hw Hop) as (pm1 & E & Hw1). rewrite E in H.
  destruct (entry_step stuck pm i op pm1) as (Hs1 & Hh1 & _); auto.
  - intros. by apply set_state_stuck.
  - intros. by apply receive_stuck.
  - by apply (IH pm1).
Qed.

(** A payload longer than what is left of the piece, at the offset of a block
    not received before, marks the block received without counting it. From then on
    the piece never completes: whatever is called, short of completing or dropping
    the piece from outside, [block_received] returns false. *)
Theorem oversized_block_wedges (pm pm1 pm2 : PieceManager) (i begin : Z) (k : nat) (b : Block)
    (d d' : list byte) (r : bool) (ops : list pm_op) :
  pm_wf pm → 0 ≤ i → has_piece pm i = false →
  ps_blocks (entry pm i) !! k = Some b → b_state b ≠ Received →
  piece_len (metadata pm) i < b_begin b + zlen d →
  block_received pm i (b_begin b) d = Ok (r, pm1) →
  Forall (keeps i) ops → run_pm_ops pm1 ops = Ok pm2 → 0 ≤ begin →
  r = false ∧ ∃ pm3, block_received pm2 i begin d' = Ok (false, pm3).
Proof.
  intros Hw Hi Hh Hk Hb Hlong H Hops Hrun Hbg. pose proof (entry_wf pm i Hw Hi) as He.
  destruct (piece_wf_extent _ _ _ _ _ He Hk) as [Eb _].
  assert (0 ≤ b_begin b) as Hb0 by (rewrite Eb; unfold block_size; lia).
  assert (stuck (receive (entry pm i) (b_begin b) d)) as Hs.
  { unfold receive. rewrite (proj2 (find_begin _ _ _ _ k b He)) by done.
    rewrite bool_decide_eq_false_2 by done. destruct He as (_ & _ & Hd & _ & Hr).
    unfold store_block, stuck. simpl ps_data. rewrite (proj2 (Z.leb_gt _ _)) by lia. simpl.
    rewrite (received_insert _ _ b), decide_False, decide_True by done. lia. }
  rewrite block_received_eq in H by done. injection H as <- <-. split; [by apply stuck_incomplete|].
  destruct (run_stuck (put_state pm i (receive (entry pm i) (b_begin b) d)) i ops pm2)
    as (Hw2 & Hh2 & Hs2); auto.
  - apply put_state_wf; auto. by apply receive_wf.
  - rewrite entry_put. by rewrite decide_True.
  - rewrite block_received_eq by done. simpl. eexists. do 2 f_equal.
    apply stuck_incomplete. by apply receive_stuck.
Qed.

Lemma unknown_piece_entry pm i :
  pm_wf pm → num_pieces (metadata pm) ≤ i → 0 ≤ i →
  has_piece pm i = false ∧ ps_blocks (entry pm i) = [] ∧ ps_blocks_received (entry pm i) = 0.
Proof.
  intros Hw Hn Hi. pose proof (entry_wf pm i Hw Hi) as (_ & _ & _ & Hb & Hr).
  destruct Hw as (_ & _ & Hnb & _). unfold piece_len in Hb.
  rewrite (proj2 (Z.leb_le _ _)) in Hb by lia. apply fmap_nil_inv in Hb. rewrite Hb in *.
  split_and!; [|done|change (received []) with 0 in Hr; lia].
  unfold has_piece, Bitfield.has. by rewrite (proj2 (Z.leb_le _ _)) by lia.
Qed.

(** A block for an index that is no piece of the torrent is not rejected: the manager
    reports the piece as complete at once (it has no blocks), and [validate_piece],
    which the caller is told to call next, indexes the hash vector out of range. *)
Lemma unknown_piece_out_of_range `{C : CryptoSHA1} (pm : PieceManager) (i begin : Z)
    (d : list byte) :
  pm_wf pm → num_pieces (metadata pm) ≤ i → 0 ≤ begin →
  ∃ pm', block_received pm i begin d = Ok (true, pm') ∧
         validate_piece pm' i = UB "piece_hashes out of range".
Proof.
  intros Hw Hn Hbg. pose proof Hw as ((Hnh & ? & _) & _).
  destruct (unknown_piece_entry pm i Hw Hn ltac:(lia)) as (Hh & Eb & Er).
  rewrite block_received_eq by (done || lia). simpl.
  assert (receive (entry pm i) begin d = entry pm i) as -> by (unfold receive; by rewrite Eb).
  rewrite Eb, Er. eexists. split; [done|]. unfold validate_piece. simpl. rewrite lookup_insert_eq.
  destruct (znth _ i) eqn:E; [|done]. apply znth_Some in E. lia.
Qed.

(** ** Witnesses *)

Lemma sample_metadata_wf : wf_metadata sample_metadata.
Proof. apply (from_bencode_wf sample_torrent); [exact sample_ok|split; done|done|done]. Qed.

(** A torrent of one piece of 40000 bytes, three blocks. *)
Definition big_metadata : TorrentMetadata :=
  mk_torrent (bs "n") (bs "u") [bs "u"] 65536 40000 1 [replicate 20 x11]
    [mk_file (bs "n") 40000 0] [].

Lemma big_metadata_wf : wf_metadata big_metadata.
Proof. unfold wf_metadata. simpl. split_and!; vm_compute; done. Qed.

Definition big_content : list byte := replicate (Z.to_nat 40000) x07.

Lemma big_content_length : zlen big_content = 40000.
Proof. by apply zlen_replicate. Qed.

(** The first and the last block of the piece are received, the first one twice. *)
Definition big_ops : list pm_op :=
  [GetNextBlock 0; BlockReceived 0 (0 * block_size) (block_bytes big_content 0);
   BlockReceived 0 (2 * block_size) (block_bytes big_content 2); BlockRequestFailed 0 0;
   BlockReceived 0 (0 * block_size) (block_bytes big_content 0)].

Lemma big_ops_honest : Forall (honest big_content 0) big_ops.
Proof.
  assert (∀ k, k = 0 ∨ k = 2 →
    honest big_content 0 (BlockReceived 0 (k * block_size) (block_bytes big_content k))) as H.
  { intros k Hk. split; [unfold block_size; simpl; lia|]. intros _. left. exists k.
    rewrite big_content_length. change (num_blocks 40000) with 3. split; [lia|done]. }
  unfold big_ops. repeat (constructor; [by auto|]). constructor.
Qed.

Lemma big_ops_ok : Forall pm_op_ok big_ops.
Proof. eapply Forall_impl; [apply big_ops_honest|]. by intros op []. Qed.

Lemma pm_invariant_witness :
  ∃ pm, run_pm_ops (make_pm big_metadata) big_ops = Ok pm ∧ pm_wf pm.
Proof. exact (pm_invariant big_metadata big_ops big_metadata_wf big_ops_ok). Defined.

Lemma pieces_and_blocks_tile_witness :
  let m := big_metadata in
  zsum (piece_len m <$> seqZ 0 (num_pieces m)) = 40000 ∧
  ∃ pm', init_piece_state (make_pm m) 0 = Ok pm' ∧ tiles 0 (ps_blocks (state_of pm' 0)) 40000.
Proof.
  destruct (pieces_and_blocks_tile (make_pm big_metadata) 0
              (make_pm_wf _ big_metadata_wf) (Z.le_refl 0)) as (_ & Hs & Hi).
  split; [exact Hs|exact Hi].
Defined.

(** From a manager that has asked for the first of three blocks, the second comes. *)
Definition asked_once : PieceManager :=
  match get_next_block (make_pm big_metadata) 0 with Ok (_, pm) => pm | _ => make_pm big_metadata end.

Lemma asked_once_wf : pm_wf asked_once.
Proof.
  destruct (get_next_block_wf (make_pm big_metadata) 0 (make_pm_wf _ big_metadata_wf) (Z.le_refl 0))
    as (r & pm' & E & Hw). unfold asked_once. by rewrite E.
Qed.

Lemma get_next_block_first_witness :
  ∃ b pm', get_next_block asked_once 0 = Ok (Some b, pm') ∧ b_begin b = 16384 ∧
    b_state b = Requested ∧ bitfield pm' = Bitfield.make 1.
Proof.
  destruct (get_next_block_first asked_once 0 asked_once_wf ltac:(split; vm_compute; done))
    as (r & pm' & H & _ & Hb & _ & Hr).
  assert (get_next_block asked_once 0 ≫= (λ x, Ok (fst x)) = Ok (Some (mk_block 0 16384 16384 Requested))) as E
    by (vm_compute; reflexivity).
  rewrite H in E. injection E as ->. exists (mk_block 0 16384 16384 Requested), pm'.
  split; [exact H|split; [reflexivity|split; [reflexivity|]]].
  rewrite Hb. vm_compute. reflexivity.
Defined.

Lemma reassembly_witness :
  ∃ pm pm', run_pm_ops (make_pm big_metadata) big_ops = Ok pm ∧
    block_received pm 0 (1 * block_size) (block_bytes big_content 1) = Ok (true, pm') ∧
    get_piece_data pm' 0 = big_content.
Proof.
  destruct (run_pm_ops_total (make_pm big_metadata) big_ops) as (pm & Hrun & _).
  { apply make_pm_wf, big_metadata_wf. } { apply big_ops_ok. }
  assert (num_blocks (zlen big_content) = 3) as En by (rewrite big_content_length; done).
  destruct (reassembly big_metadata 0 1 big_content big_ops pm big_metadata_wf
              ltac:(split; done) big_content_length big_ops_honest Hrun ltac:(lia))
    as (complete & pm' & e & H & Hc & _ & Hd).
  assert (complete = true) as ->.
  { apply Hc. rewrite En. intros j Hj.
    assert (j = 1 ∨ j = 0 ∨ j = 2) as [->|[->| ->]] by lia; [by left|right..].
    - exists (block_bytes big_content 0). apply list_elem_of_further, list_elem_of_here.
    - exists (block_bytes big_content 2).
      apply list_elem_of_further, list_elem_of_further, list_elem_of_here. }
  exists pm, pm'. split; [exact Hrun|]. split; [exact H|]. by apply Hd.
Defined.

Definition oversized : list byte := replicate (Z.to_nat 40001) x00.

Lemma oversized_length : zlen oversized = 40001.
Proof. by apply zlen_replicate. Qed.

Lemma oversized_block_wedges_witness :
  ∃ r pm1 pm3,
    block_received (make_pm big_metadata) 0 0 oversized = Ok (r, pm1) ∧
    r = false ∧ block_received pm1 0 16384 (block_bytes big_content 1) = Ok (false, pm3).
Proof.
  pose proof (make_pm_wf _ big_metadata_wf) as Hw.
  destruct (block_received_wf (make_pm big_metadata) 0 0 oversized Hw (Z.le_refl 0) (Z.le_refl 0))
    as (r & pm1 & H & _).
  assert (piece_len big_metadata 0 < 0 + zlen oversized) as Hl by (rewrite oversized_length; done).
  destruct (oversized_block_wedges (make_pm big_metadata) pm1 pm1 0 16384 0
              (block_at 0 40000 0) oversized (block_bytes big_content 1) r [] Hw (Z.le_refl 0)
              eq_refl eq_refl ltac:(discriminate) Hl H (Forall_nil_2 _) eq_refl ltac:(lia))
    as (Hr & pm3 & H3).
  exists r, pm1, pm3. split; [exact H|]. split; [exact Hr|exact H3].
Defined.
