(* ===== verification/Disk.v ===== *)
(** * Disk: [disk_io.hpp], [disk_io.cpp]

    The output files of a torrent. What file a path names is the file system's
    ([FileSystem]); a file is its bytes. How a write ends is read from a script. The
    contents survive an exception, so computations return the disk with their outcome.
    The theorems show the files of a torrent refine one array of bytes, of which a
    piece is a slice. *)

From S2P Require Import Prelude StdString Bencode Bitfield Hasher Torrent PieceManager.

(** The file a path names, if it can be opened, its parent directories being created
    where they are missing. *)
Class FileSystem := file_at : list byte → option Z.

(** How [fs.write] and the destructor of the stream end: all bytes written; the first
    [n] written and an error reported; the first [n] written and the error met only
    when the stream flushes its buffer in the destructor, which reports none. *)
Inductive WriteResult := Written | WriteFails (n : Z) | WriteLost (n : Z).

Record Disk := mk_disk {
  contents : gmap Z (list byte);
  script : list WriteResult;       (* of the writes to come; then they succeed *)
}.

(** A computation on the disk: it may end with an exception, and the disk stays. *)
Definition IO (A : Type) : Type := Disk → outcome A * Disk.

#[export] Instance IO_ret : MRet IO := λ A a d, (Ok a, d).
#[export] Instance IO_bind : MBind IO := λ A B f m d,
  match m d with
  | (Ok a, d) => f a d
  | (Throw e, d) => (Throw e, d)
  | (UB what, d) => (UB what, d)
  | (Fuel, d) => (Fuel, d)
  end.

Definition pure {A} (x : outcome A) : IO A := λ d, (x, d).
Definition throw {A} (e : exn) : IO A := λ d, (Throw e, d).

(** [try m; catch (...) handler]. *)
Definition try_catch {A} (m : IO A) (handler : IO A) : IO A := λ d,
  match m d with (Throw _, d) => handler d | r => r end.

Section DiskIO.
Context `{FS : FileSystem} `{C : CryptoSHA1}.

(** [std::filesystem::path::operator/] on POSIX. *)
Definition path_append (base rel : list byte) : list byte :=
  match head rel with
  | Some "/"%byte => rel
  | _ =>
      match last base with
      | None | Some "/"%byte => base ++ rel
      | _ => base ++ bs "/" ++ rel
      end
  end.

Record DiskIOManager := mk_disk_io { base_path : list byte; disk_metadata : TorrentMetadata }.

Definition get_full_path (io : DiskIOManager) (relative_path : list byte) : list byte :=
  path_append (base_path io) relative_path.

Definition set_content (ino : Z) (bytes : list byte) (d : Disk) : Disk :=
  mk_disk (<[ino := bytes]> (contents d)) (script d).

(** [filesystem::resize_file]: a length of 2^63 or more is no file size. *)
Definition resize_file (ino length : Z) : IO unit := λ d,
  if 2 ^ 63 <=? u64 length then (Throw (runtime_error "resize_file"), d)
  else (Ok tt, set_content ino (resize length x00 (default [] (contents d !! ino))) d).

(** One file of [preallocate_files]: its directories, the file, its length. *)
Definition preallocate (io : DiskIOManager) (file : FileInfo) : IO unit :=
  match file_at (get_full_path io (path file)) with
  | None => throw (runtime_error "failed to open/create file for pre-allocation")
  | Some ino =>
      _ ← (λ d, (Ok tt, set_content ino (default [] (contents d !! ino)) d));
      resize_file ino (length file)
  end.

Fixpoint preallocate_loop (io : DiskIOManager) (fs : list FileInfo) : IO unit :=
  match fs with
  | [] => mret tt
  | file :: fs => _ ← preallocate io file; preallocate_loop io fs
  end.

Definition preallocate_files (io : DiskIOManager) : IO unit :=
  preallocate_loop io (files (disk_metadata io)).

(** [seekp], then [write]: past the end of the file the gap is zeros. *)
Definition write_at (pos : Z) (data content : list byte) : list byte :=
  splice pos data (resize (Z.max (zlen content) (pos + zlen data)) x00 content).

(** Open for reading and writing, seek, write, close. *)
Definition write_file (full_path : list byte) (pos : Z) (data : list byte) : IO unit := λ d,
  match file_at full_path with
  | None => (Throw (runtime_error "failed to open file for writing"), d)
  | Some ino =>
      match contents d !! ino with
      | None => (Throw (runtime_error "failed to open file for writing"), d)
      | Some content =>
          let put n := mk_disk (<[ino := write_at pos (ztake n data) content]> (contents d))
                         (tail (script d)) in
          match default Written (head (script d)) with
          | Written => (Ok tt, put (zlen data))
          | WriteFails n => (Throw (runtime_error "failed writing to file"), put n)
          | WriteLost n => (Ok tt, put n)
          end
      end
  end.

(** Where a file and the range of a piece meet: the offsets in the file and in the
    piece and the length, or nothing. *)
Definition overlap (global_offset n : Z) (file : FileInfo) : outcome (option (Z * Z * Z)) :=
  let file_start := offset file in
  file_end ← i64_add (offset file) (length file);
  range_end ← i64_add global_offset n;
  if (range_end <=? file_start) || (file_end <=? global_offset) then Ok None
  else
    let overlap_start := Z.max global_offset file_start in
    let overlap_end := Z.min range_end file_end in
    overlap_len ← i64_sub overlap_end overlap_start;
    offset_in_file ← i64_sub overlap_start file_start;
    offset_in_data ← i64_sub overlap_start global_offset;
    Ok (Some (offset_in_file, offset_in_data, overlap_len)).

Fixpoint write_loop (io : DiskIOManager) (global_offset : Z) (data : list byte)
    (fs : list FileInfo) : IO unit :=
  match fs with
  | [] => mret tt
  | file :: fs =>
      o ← pure (overlap global_offset (zlen data) file);
      _ ← match o with
          | None => mret tt
          | Some (offset_in_file, offset_in_data, overlap_len) =>
              write_file (get_full_path io (path file)) offset_in_file
                (slice offset_in_data overlap_len data)
          end;
      write_loop io global_offset data fs
  end.

Definition write_piece (io : DiskIOManager) (piece_idx : Z) (data : list byte) : IO unit :=
  let m := disk_metadata io in
  if u64 (num_pieces m) <=? piece_idx then throw (out_of_range "piece index out of bounds")
  else
    global_offset ← pure (i64_mul piece_idx (piece_length m));
    write_loop io global_offset data (files m).

(** Open for reading, seek, read what there is into the buffer. *)
Definition read_file (full_path : list byte) (pos n : Z) : IO (list byte) := λ d,
  match file_at full_path ≫= λ ino, contents d !! ino with
  | None => (Throw (runtime_error "failed to open file for reading"), d)
  | Some content => (Ok (slice pos n content), d)
  end.

Fixpoint read_loop (io : DiskIOManager) (global_offset n : Z) (fs : list FileInfo)
    (data : list byte) : IO (list byte) :=
  match fs with
  | [] => mret data
  | file :: fs =>
      o ← pure (overlap global_offset n file);
      match o with
      | None => read_loop io global_offset n fs data
      | Some (offset_in_file, offset_in_data, overlap_len) =>
          bytes ← read_file (get_full_path io (path file)) offset_in_file overlap_len;
          read_loop io global_offset n fs (splice offset_in_data bytes data)
      end
  end.

Definition read_piece (io : DiskIOManager) (piece_idx : Z) : IO (list byte) :=
  let m := disk_metadata io in
  if u64 (num_pieces m) <=? piece_idx then throw (out_of_range "piece index out of bounds")
  else
    global_offset ← pure (i64_mul piece_idx (piece_length m));
    piece_size ← (if piece_idx =? u64 (num_pieces m - 1) then
                    before ← pure (i64_mul (num_pieces m - 1) (piece_length m));
                    pure (i64_sub (total_length m) before)
                  else mret (piece_length m));
    if 2 ^ 63 <=? u64 piece_size then throw (runtime_error "vector")
    else read_loop io global_offset piece_size (files m) (zeros piece_size).

Definition verify_piece (io : DiskIOManager) (piece_idx : Z) : IO bool :=
  let m := disk_metadata io in
  if u64 (num_pieces m) <=? piece_idx then mret false
  else
    try_catch
      (data ← read_piece io piece_idx;
       match znth (piece_hashes m) piece_idx with
       | Some expected => mret (bool_decide (hash data = expected))
       | None => pure (UB "piece_hashes out of range")
       end)
      (mret false).

(** The callback of [main] on a completed piece: a failure is logged. *)
Definition save_piece (io : DiskIOManager) (piece_idx : Z) (data : list byte) : IO unit :=
  try_catch (write_piece io piece_idx data) (mret tt).
End DiskIO.

(** ** The files as one array *)

Section Array.
Context `{FS : FileSystem} (io : DiskIOManager).

Definition inode (f : FileInfo) : option Z := file_at (get_full_path io (path f)).

Definition content_of (d : Disk) (f : FileInfo) : list byte :=
  default [] (inode f ≫= λ ino, contents d !! ino).

(** The bytes of the files, one after another. *)
Definition array (d : Disk) (fs : list FileInfo) : list byte := concat (content_of d <$> fs).

(** The files are there, with their lengths, and no two paths name one file. *)
Definition laid (d : Disk) (fs : list FileInfo) : Prop :=
  NoDup (inode <$> fs) ∧
  Forall (λ f, ∃ ino content, inode f = Some ino ∧ contents d !! ino = Some content ∧
                              zlen content = length f) fs.

(** No write fails. *)
Definition reliable (d : Disk) : Prop := Forall (λ r, r = Written) (script d).

Lemma content_of_eq d f ino content :
  inode f = Some ino → contents d !! ino = Some content → content_of d f = content.
Proof. intros Hi Hc. unfold content_of. by rewrite Hi; simpl; rewrite Hc. Qed.

Lemma laid_content d f fs :
  laid d (f :: fs) →
  ∃ ino content, inode f = Some ino ∧ contents d !! ino = Some content ∧
    zlen content = length f ∧ content_of d f = content ∧ laid d fs ∧ Some ino ∉ inode <$> fs.
Proof.
  intros [Hnd Hf]. apply NoDup_cons in Hnd as [Hni Hnd].
  apply Forall_cons in Hf as [(ino & content & Hi & Hc & Hl) Hf]. rewrite Hi in Hni.
  exists ino, content. split_and!; try done. by eapply content_of_eq.
Qed.

Lemma array_cons d f fs : array d (f :: fs) = content_of d f ++ array d fs.
Proof. done. Qed.

Lemma zlen_array d fs : laid d fs → zlen (array d fs) = sum_lengths fs.
Proof.
  induction fs as [|f fs IH]; intros Hl; [done|].
  destruct (laid_content d f fs Hl) as (ino & content & _ & _ & Hlen & Hcf & Hl' & _).
  rewrite array_cons, zlen_app, Hcf, IH, Hlen by done. done.
Qed.

(** Only the contents of the files named matter. *)
Lemma array_ext d d' fs :
  (∀ ino, Some ino ∈ inode <$> fs → contents d' !! ino = contents d !! ino) →
  array d' fs = array d fs.
Proof.
  intros H. unfold array. f_equal. apply list_fmap_ext. intros k f Hk. unfold content_of.
  destruct (inode f) as [ino|] eqn:E; [|done]. simpl. f_equal. apply H.
  apply list_elem_of_fmap. exists f. split; [done|]. by eapply list_elem_of_lookup_2.
Qed.

Lemma laid_ext d d' fs :
  (∀ ino, Some ino ∈ inode <$> fs → contents d' !! ino = contents d !! ino) →
  laid d fs → laid d' fs.
Proof.
  intros H [Hnd Hf]. split; [done|]. rewrite Forall_forall in Hf |- *. intros f Hin.
  destruct (Hf f Hin) as (ino & content & Hi & Hc & Hl). exists ino, content. split_and!; try done.
  rewrite H; [done|]. apply list_elem_of_fmap. by exists f.
Qed.

(** *** Where a range meets a file *)

Definition meets (off n s len : Z) : bool := negb ((off + n <=? s) || (s + len <=? off)).

Lemma overlap_eq off n f :
  0 ≤ off → 0 ≤ n → 0 ≤ offset f → 0 ≤ length f → off + n < 2 ^ 63 → offset f + length f < 2 ^ 63 →
  overlap off n f = Ok (if meets off n (offset f) (length f) then
    Some (Z.max off (offset f) - offset f, Z.max off (offset f) - off,
          Z.min (off + n) (offset f + length f) - Z.max off (offset f)) else None).
Proof.
  intros. unfold overlap, i64_add, i64_sub, meets.
  rewrite (i64_in (offset f + length f)) by in_i64. cbn [mbind outcome_bind].
  rewrite (i64_in (off + n)) by in_i64. cbn [mbind outcome_bind].
  destruct (_ || _) eqn:E; [done|]. cbn [negb].
  apply orb_false_iff in E as [E1%Z.leb_gt E2%Z.leb_gt].
  rewrite i64_in by in_i64. cbn [mbind outcome_bind].
  rewrite i64_in by in_i64. cbn [mbind outcome_bind].
  by rewrite i64_in by in_i64.
Qed.

(** The byte at [g] of the array of which [s] is the first position. *)
Lemma znth_array d f fs g :
  laid d (f :: fs) → 0 ≤ g →
  znth (array d (f :: fs)) g =
  if g <? length f then znth (content_of d f) g else znth (array d fs) (g - length f).
Proof.
  intros Hl Hg. destruct (laid_content d f fs Hl) as (ino & content & _ & _ & Hlen & Hcf & _).
  by rewrite array_cons, znth_app, Hcf, Hlen.
Qed.

(** *** Writing *)

Lemma write_at_inside pos data content :
  pos + zlen data ≤ zlen content → write_at pos data content = splice pos data content.
Proof.
  intros H. unfold write_at. rewrite Z.max_l by done. unfold resize.
  rewrite ztake_all, Z.sub_diag by done. simpl. by rewrite app_nil_r.
Qed.

Lemma write_file_run d f ino content pos data :
  inode f = Some ino → contents d !! ino = Some content → reliable d →
  0 ≤ pos → pos + zlen data ≤ zlen content →
  ∃ d', write_file (get_full_path io (path f)) pos data d = (Ok tt, d') ∧ reliable d' ∧
        contents d' = <[ino := splice pos data content]> (contents d).
Proof.
  intros Hi Hc Hr Hp Hl. unfold write_file. unfold inode in Hi. rewrite Hi, Hc.
  assert (default Written (head (script d)) = Written) as ->.
  { destruct (script d) as [|r s] eqn:E; [done|]. unfold reliable in Hr. rewrite E in Hr.
    apply Forall_cons in Hr. simpl. tauto. }
  eexists. split; [done|]. split.
  - unfold reliable in *. simpl. destruct (script d); [done|]. by apply Forall_cons in Hr as [_ ?].
  - simpl. rewrite ztake_all by done. by rewrite write_at_inside.
Qed.

(** One file of a write: the bytes of the range that fall into it. *)
Lemma write_step d f fs s off data :
  laid d (f :: fs) → reliable d → offset f = s → 0 ≤ s → 0 ≤ off → 0 ≤ length f →
  off + zlen data < 2 ^ 63 → s + length f < 2 ^ 63 →
  ∃ d', (o ← pure (overlap off (zlen data) f);
         match o with
         | None => mret tt
         | Some (offset_in_file, offset_in_data, overlap_len) =>
             write_file (get_full_path io (path f)) offset_in_file
               (slice offset_in_data overlap_len data)
         end) d = (Ok tt, d') ∧ reliable d' ∧
    (∀ ino, Some ino ≠ inode f → contents d' !! ino = contents d !! ino) ∧
    laid d' (f :: fs) ∧
    ∀ g, 0 ≤ g < length f →
      znth (content_of d' f) g =
      if (off <=? s + g) && (s + g <? off + zlen data) then znth data (s + g - off)
      else znth (content_of d f) g.
Proof.
  intros Hl Hr <- Hs Hoff Hlen Hmax Hmax'. pose proof (zlen_nonneg data) as Hd.
  destruct (laid_content d f fs Hl) as (ino & content & Hi & Hc & Hcl & Hcf & Hl' & Hni).
  unfold mbind, IO_bind, pure. rewrite overlap_eq by done. unfold meets.
  destruct ((off + zlen data <=? offset f) || (offset f + length f <=? off)) eqn:E; simpl.
  - exists d. split_and!; try done. intros g Hg.
    assert ((off <=? offset f + g) && (offset f + g <? off + zlen data) = false) as ->; [|done].
    apply andb_false_iff. apply orb_true_iff in E as [E%Z.leb_le|E%Z.leb_le];
      [right; apply Z.ltb_ge|left; apply Z.leb_gt]; lia.
  - apply orb_false_iff in E as [E1%Z.leb_gt E2%Z.leb_gt].
    set (pos := Z.max off (offset f) - offset f). set (from := Z.max off (offset f) - off).
    set (n := Z.min _ _ - _).
    assert (zlen (slice from n data) = n) as Hsl by (apply zlen_slice; lia).
    destruct (write_file_run d f ino content pos (slice from n data) Hi Hc Hr)
      as (d' & -> & Hr' & Ec); [lia|lia|].
    exists d'. split; [done|]. split; [done|].
    assert (∀ ino', Some ino' ≠ inode f → contents d' !! ino' = contents d !! ino') as Hother.
    { intros ino' Hne. rewrite Ec, lookup_insert_ne by congruence. done. }
    assert (content_of d' f = splice pos (slice from n data) content) as Ecf.
    { eapply content_of_eq; [done|]. by rewrite Ec, lookup_insert_eq. }
    split; [done|]. split.
    + destruct Hl as [Hnd _]. split; [done|]. apply Forall_cons. split.
      * exists ino, (splice pos (slice from n data) content). split_and!; [done| |].
        -- by rewrite Ec, lookup_insert_eq.
        -- rewrite zlen_splice by lia. done.
      * apply (laid_ext d); [|done]. intros ino' Hin. apply Hother. rewrite Hi. congruence.
    + intros g Hg. rewrite Ecf, Hcf, znth_splice, Hsl by lia.
      destruct (Z.leb_spec pos g), (Z.ltb_spec g (pos + n)); simpl.
      * rewrite (proj2 (Z.leb_le _ _)), (proj2 (Z.ltb_lt _ _)) by lia. simpl.
        rewrite znth_slice by lia. f_equal. lia.
      * rewrite (proj2 (Z.ltb_ge _ _)) by lia. by rewrite andb_false_r.
      * rewrite (proj2 (Z.leb_gt _ _)) by lia. done.
      * rewrite (proj2 (Z.leb_gt _ _)) by lia. done.
Qed.

Lemma write_loop_run d fs s off data :
  contiguous s fs → laid d fs → reliable d → 0 ≤ s → 0 ≤ off → Forall (λ f, 0 ≤ length f) fs →
  off + zlen data < 2 ^ 63 → s + sum_lengths fs < 2 ^ 63 →
  ∃ d', write_loop io off data fs d = (Ok tt, d') ∧ reliable d' ∧ laid d' fs ∧
    (∀ ino, Some ino ∉ inode <$> fs → contents d' !! ino = contents d !! ino) ∧
    ∀ g, 0 ≤ g < sum_lengths fs →
      znth (array d' fs) g =
      if (off <=? s + g) && (s + g <? off + zlen data) then znth data (s + g - off)
      else znth (array d fs) g.
Proof.
  revert d s. induction fs as [|f fs IH]; intros d s Hcont Hl Hr Hs Hoff Hpos Hmax Hsum.
  { exists d. split_and!; try done. simpl. lia. }
  destruct Hcont as [Hof Hcont]. apply Forall_cons in Hpos as [Hf0 Hpos]. simpl in Hsum.
  assert (0 ≤ sum_lengths fs) as Hsn.
  { clear -Hpos. induction Hpos; simpl; lia. }
  destruct (write_step d f fs s off data) as (d1 & E1 & Hr1 & Hoth1 & Hl1 & Hb1); try done; [lia|].
  destruct (laid_content d1 f fs Hl1) as (ino & content & Hi & Hc1 & Hlen1 & Hcf1 & Hl1' & Hni).
  destruct (IH d1 (s + length f)) as (d2 & E2 & Hr2 & Hl2 & Hoth2 & Hb2); try done; [lia|lia|].
  assert (contents d2 !! ino = Some content) as Hc2 by (by rewrite Hoth2).
  assert (laid d2 (f :: fs)) as Hl2'.
  { destruct Hl as [Hnd _], Hl2 as [_ Hl2]. split; [done|]. apply Forall_cons. split; [|done].
    by exists ino, content. }
  exists d2. split; [|split; [done|split; [done|split]]].
  - cbn [write_loop]. unfold mbind, IO_bind in *. unfold pure in *.
    destruct (overlap off (zlen data) f) as [o| | |]; try done. by rewrite E1.
  - intros ino' Hin. rewrite Hoth2, Hoth1; [done|..]; set_solver.
  - intros g Hg. simpl in Hg. rewrite !znth_array by (done || lia).
    destruct (Z.ltb_spec g (length f)).
    + rewrite (content_of_eq d2 f ino content Hi Hc2), <- Hcf1. apply Hb1. lia.
    + rewrite Hb2 by lia. replace (s + length f + (g - length f)) with (s + g) by lia.
      rewrite (array_ext d d1); [done|]. intros ino' Hin. apply Hoth1. rewrite Hi. congruence.
Qed.

(** *** Reading *)

Lemma read_step d f fs s off n data :
  laid d (f :: fs) → offset f = s → 0 ≤ s → 0 ≤ off → 0 ≤ length f → zlen data = n →
  off + n < 2 ^ 63 → s + length f < 2 ^ 63 →
  ∃ data', read_loop io off n (f :: fs) data d = read_loop io off n fs data' d ∧ zlen data' = n ∧
    ∀ k, 0 ≤ k < n → znth data' k =
      if (s <=? off + k) && (off + k <? s + length f) then znth (content_of d f) (off + k - s)
      else znth data k.
Proof.
  intros Hl <- Hs Hoff Hlen Hn Hmax Hmax'. pose proof (zlen_nonneg data) as Hd.
  destruct (laid_content d f fs Hl) as (ino & content & Hi & Hc & Hcl & Hcf & _ & _).
  cbn [read_loop]. unfold mbind at 1, IO_bind at 1, pure. rewrite overlap_eq by lia. unfold meets.
  destruct ((off + n <=? offset f) || (offset f + length f <=? off)) eqn:E; simpl.
  - exists data. split_and!; try done. intros k Hk.
    assert ((offset f <=? off + k) && (off + k <? offset f + length f) = false) as ->; [|done].
    apply andb_false_iff. apply orb_true_iff in E as [E%Z.leb_le|E%Z.leb_le];
      [left; apply Z.leb_gt|right; apply Z.ltb_ge]; lia.
  - apply orb_false_iff in E as [E1%Z.leb_gt E2%Z.leb_gt].
    set (pos := Z.max off (offset f) - offset f). set (from := Z.max off (offset f) - off).
    set (len := Z.min _ _ - _).
    assert (zlen (slice pos len content) = len) as Hsl by (apply zlen_slice; lia).
    exists (splice from (slice pos len content) data). split; [|split].
    + unfold mbind, IO_bind, read_file. unfold inode in Hi. rewrite Hi. simpl. by rewrite Hc.
    + rewrite zlen_splice by lia. done.
    + intros k Hk. rewrite znth_splice, Hsl, Hcf by lia.
      destruct (Z.leb_spec from k), (Z.ltb_spec k (from + len)); simpl.
      * rewrite (proj2 (Z.leb_le _ _)), (proj2 (Z.ltb_lt _ _)) by lia. simpl.
        rewrite znth_slice by lia. f_equal. lia.
      * rewrite (proj2 (Z.ltb_ge _ _)) by lia. by rewrite andb_false_r.
      * rewrite (proj2 (Z.leb_gt _ _)) by lia. done.
      * rewrite (proj2 (Z.leb_gt _ _)) by lia. done.
Qed.

Lemma read_loop_run d fs s off n data :
  contiguous s fs → laid d fs → 0 ≤ s → 0 ≤ off → Forall (λ f, 0 ≤ length f) fs →
  zlen data = n → off + n < 2 ^ 63 → s + sum_lengths fs < 2 ^ 63 →
  ∃ data', read_loop io off n fs data d = (Ok data', d) ∧ zlen data' = n ∧
    ∀ k, 0 ≤ k < n → znth data' k =
      if (s <=? off + k) && (off + k <? s + sum_lengths fs) then znth (array d fs) (off + k - s)
      else znth data k.
Proof.
  revert s data. induction fs as [|f fs IH]; intros s data Hcont Hl Hs Hoff Hpos Hn Hmax Hsum.
  { exists data. split_and!; try done. intros k Hk. simpl.
    destruct (Z.leb_spec s (off + k)), (Z.ltb_spec (off + k) (s + 0)); try done. lia. }
  destruct Hcont as [Hof Hcont]. apply Forall_cons in Hpos as [Hf0 Hpos]. simpl in Hsum.
  assert (0 ≤ sum_lengths fs) as Hsn by (clear -Hpos; induction Hpos; simpl; lia).
  destruct (read_step d f fs s off n data) as (data1 & E1 & Hn1 & Hb1); try done; [lia|].
  destruct (laid_content d f fs Hl) as (_ & _ & _ & _ & _ & _ & Hl' & _).
  destruct (IH (s + length f) data1) as (data2 & E2 & Hn2 & Hb2); try done; [lia|lia|].
  exists data2. rewrite E1. split; [done|]. split; [done|]. intros k Hk. rewrite Hb2 by done.
  simpl sum_lengths. destruct (Z.leb_spec (s + length f) (off + k)).
  - rewrite (proj2 (Z.leb_le s _)) by lia. simpl.
    replace (s + length f + sum_lengths fs) with (s + (length f + sum_lengths fs)) by lia.
    destruct (Z.ltb_spec (off + k) (s + (length f + sum_lengths fs))).
    + rewrite znth_array, (proj2 (Z.ltb_ge _ _)) by (done || lia). f_equal. lia.
    + rewrite Hb1, (proj2 (Z.ltb_ge _ (s + length f))) by lia. by rewrite andb_false_r.
  - simpl. rewrite Hb1 by done. destruct (Z.leb_spec s (off + k)); simpl; [|done].
    rewrite !(proj2 (Z.ltb_lt _ _)) by lia.
    by rewrite znth_array, (proj2 (Z.ltb_lt _ _)) by (done || lia).
Qed.
End Array.

(** ** Pieces *)

Section Pieces.
Context `{FS : FileSystem} `{C : CryptoSHA1} (io : DiskIOManager).
Abbreviation m := (disk_metadata io).

(** A torrent with lengths that are not negative, its files in place. *)
Definition ready (d : Disk) : Prop :=
  wf_metadata m ∧ Forall (λ f, 0 ≤ length f) (files m) ∧ laid io d (files m).

Lemma piece_extent i :
  wf_metadata m → 0 ≤ i < num_pieces m →
  0 ≤ i * piece_length m ∧ 0 < piece_len m i ∧
  i * piece_length m + piece_len m i ≤ total_length m < 2 ^ 63 ∧
  ∀ j, i < j → i * piece_length m + piece_len m i ≤ j * piece_length m.
Proof.
  intros Hm Hi. pose proof (piece_len_pos m i Hm Hi) as Hpos.
  destruct Hm as (_ & Hn & Hpl & Ht & Hb & _). unfold piece_len in *.
  rewrite (proj2 (Z.leb_gt _ _)) in * by lia.
  assert (num_pieces m * piece_length m < 2 ^ 63) by nia.
  destruct (Z.ltb_spec i (num_pieces m - 1)); split_and!; try nia.
Qed.

Lemma write_piece_run d i data :
  ready d → reliable d → 0 ≤ i < num_pieces m → zlen data = piece_len m i →
  ∃ d', write_piece io i data d = (Ok tt, d') ∧ ready d' ∧ reliable d' ∧
    (∀ ino, Some ino ∉ inode io <$> files m → contents d' !! ino = contents d !! ino) ∧
    ∀ g, 0 ≤ g < total_length m →
      znth (array io d' (files m)) g =
      if (i * piece_length m <=? g) && (g <? i * piece_length m + piece_len m i)
      then znth data (g - i * piece_length m) else znth (array io d (files m)) g.
Proof.
  intros (Hm & Hf & Hl) Hr Hi Hd. destruct (piece_extent i Hm Hi) as (H0 & Hp & Hb & _).
  pose proof Hm as (_ & Hn & _ & _ & _ & Hcont & Esum).
  destruct (write_loop_run io d (files m) 0 (i * piece_length m) data)
    as (d' & E & Hr' & Hl' & Ho & Hbytes); try done; [lia|lia|].
  exists d'. split; [|split; [done|split; [done|split; [done|]]]].
  - unfold write_piece. rewrite wrap_small, (proj2 (Z.leb_gt _ _)) by lia.
    unfold mbind, IO_bind, pure, i64_mul. by rewrite i64_in by in_i64.
  - intros g Hg. rewrite Hbytes by lia. rewrite Hd, Z.add_0_l. done.
Qed.

Lemma read_piece_run d i :
  ready d → 0 ≤ i < num_pieces m →
  ∃ data, read_piece io i d = (Ok data, d) ∧ zlen data = piece_len m i ∧
    ∀ k, 0 ≤ k < piece_len m i →
      znth data k = znth (array io d (files m)) (i * piece_length m + k).
Proof.
  intros (Hm & Hf & Hl) Hi. destruct (piece_extent i Hm Hi) as (H0 & Hp & Hb & _).
  pose proof Hm as (_ & Hn & Hpl & _ & _ & Hcont & Esum).
  destruct (read_loop_run io d (files m) 0 (i * piece_length m) (piece_len m i)
              (zeros (piece_len m i))) as (data & E & Hz & Hbytes); try done; try lia.
  { apply zlen_replicate. lia. }
  exists data. split; [|split; [done|]].
  - assert ((if i =? u64 (num_pieces m - 1) then
               before ← pure (i64_mul (num_pieces m - 1) (piece_length m));
               pure (i64_sub (total_length m) before)
             else mret (piece_length m)) d = (Ok (piece_len m i), d)) as Es.
    { unfold mbind, IO_bind, pure, i64_mul, i64_sub, piece_len.
      rewrite wrap_small, (proj2 (Z.leb_gt (num_pieces m) i)) by lia.
      destruct (Z.eqb_spec i (num_pieces m - 1)) as [->|].
      - assert (0 ≤ (num_pieces m - 1) * piece_length m ≤ total_length m) by nia.
        rewrite i64_in, i64_in by in_i64. by rewrite (proj2 (Z.ltb_ge _ _)) by lia.
      - by rewrite (proj2 (Z.ltb_lt _ _)) by lia. }
    unfold read_piece. rewrite (wrap_small 64 (num_pieces m)), (proj2 (Z.leb_gt _ _)) by lia.
    unfold mbind at 1, IO_bind at 1, pure at 1, i64_mul at 1. rewrite i64_in by in_i64.
    unfold mbind at 1, IO_bind at 1. rewrite Es.
    rewrite wrap_small, (proj2 (Z.leb_gt _ _)) by lia. exact E.
  - intros k Hk. rewrite Hbytes by done.
    rewrite (proj2 (Z.leb_le _ _)), (proj2 (Z.ltb_lt _ _)) by lia. simpl. f_equal. lia.
Qed.

(** A piece reads as the bytes of the array under it. *)
Lemma read_piece_eq d i data :
  ready d → 0 ≤ i < num_pieces m → zlen data = piece_len m i →
  (∀ k, 0 ≤ k < piece_len m i →
     znth data k = znth (array io d (files m)) (i * piece_length m + k)) →
  read_piece io i d = (Ok data, d).
Proof.
  intros Hd Hi Hz Hb. destruct (read_piece_run d i Hd Hi) as (data' & -> & Hz' & Hb').
  do 2 f_equal. apply znth_ext; [congruence|]. intros k Hk. rewrite Hb, Hb' by lia. done.
Qed.

(** Writing a piece changes what that piece reads as, and no other. *)
Lemma write_then_read d i data :
  ready d → reliable d → 0 ≤ i < num_pieces m → zlen data = piece_len m i →
  ∃ d', write_piece io i data d = (Ok tt, d') ∧ ready d' ∧ reliable d' ∧
    read_piece io i d' = (Ok data, d') ∧
    ∀ j, 0 ≤ j < num_pieces m → j ≠ i → (read_piece io j d').1 = (read_piece io j d).1.
Proof.
  intros Hd Hr Hi Hz. destruct (write_piece_run d i data Hd Hr Hi Hz)
    as (d' & E & Hd' & Hr' & _ & Hb). pose proof Hd as (Hm & _).
  destruct (piece_extent i Hm Hi) as (H0 & Hp & Ht & Hnext).
  exists d'. split; [done|]. split; [done|]. split; [done|]. split.
  - apply read_piece_eq; try done. intros k Hk. rewrite Hb by lia.
    rewrite (proj2 (Z.leb_le _ _)), (proj2 (Z.ltb_lt _ _)) by lia. simpl. f_equal. lia.
  - intros j Hj Hne. destruct (read_piece_run d j Hd Hj) as (data' & E' & Hz' & Hb').
    rewrite E'. rewrite (read_piece_eq d' j data'); try done. intros k Hk.
    destruct (piece_extent j Hm Hj) as (Hj0 & Hjp & Hjt & Hjnext). rewrite Hb, Hb' by lia.
    destruct (Z.leb_spec (i * piece_length m) (j * piece_length m + k)); simpl; [|done].
    rewrite (proj2 (Z.ltb_ge _ _)); [done|].
    destruct (Z.lt_ge_cases j i); [specialize (Hjnext i ltac:(lia)); lia|].
    specialize (Hnext j ltac:(lia)). lia.
Qed.

Lemma verify_piece_run d i data :
  ready d → 0 ≤ i < num_pieces m → read_piece io i d = (Ok data, d) →
  verify_piece io i d = (Ok (bool_decide (Some (hash data) = znth (piece_hashes m) i)), d).
Proof.
  intros (Hm & _) Hi E. pose proof Hm as (Hh & Hn & _). unfold verify_piece.
  rewrite wrap_small, (proj2 (Z.leb_gt _ _)) by lia. unfold try_catch, mbind, IO_bind.
  rewrite E. destruct (znth_is_Some (piece_hashes m) i) as [h Eh]; [lia|]. rewrite Eh.
  unfold mret, IO_ret. do 2 f_equal. apply bool_decide_ext. naive_solver.
Qed.
End Pieces.

(** ** Creating the files *)

Section Preallocate.
Context `{FS : FileSystem} (io : DiskIOManager).

(** The paths name different files, all of which can be opened or created. *)
Definition placeable (fs : list FileInfo) : Prop :=
  NoDup (inode io <$> fs) ∧ Forall (λ f, is_Some (inode io f) ∧ 0 ≤ length f < 2 ^ 63) fs.

Lemma zlen_resize {A} n (x : A) l : 0 ≤ n → zlen (resize n x l) = n.
Proof.
  intros. unfold resize, zlen, ztake. rewrite length_app, length_take, length_replicate. lia.
Qed.

Lemma preallocate_run f d :
  is_Some (inode io f) → 0 ≤ length f < 2 ^ 63 →
  ∃ ino d', inode io f = Some ino ∧ preallocate io f d = (Ok tt, d') ∧ script d' = script d ∧
    contents d' = <[ino := resize (length f) x00 (content_of io d f)]> (contents d).
Proof.
  intros [ino Hi] Hl. exists ino. unfold preallocate, resize_file. unfold inode in Hi. rewrite Hi.
  unfold mbind, IO_bind. rewrite wrap_small, (proj2 (Z.leb_gt _ _)) by lia.
  eexists. split; [done|]. split; [done|]. split; [done|]. simpl.
  rewrite lookup_insert_eq, insert_insert_eq. unfold content_of, inode. by rewrite Hi.
Qed.

Lemma preallocate_loop_run fs d :
  placeable fs →
  ∃ d', preallocate_loop io fs d = (Ok tt, d') ∧ script d' = script d ∧ laid io d' fs ∧
    (∀ ino, Some ino ∉ inode io <$> fs → contents d' !! ino = contents d !! ino) ∧
    ∀ f, f ∈ fs → content_of io d' f = resize (length f) x00 (content_of io d f).
Proof.
  revert d. induction fs as [|f fs IH]; intros d [Hnd Hf].
  { exists d. split_and!; try done. intros f Hin. by apply not_elem_of_nil in Hin. }
  apply NoDup_cons in Hnd as [Hni Hnd]. apply Forall_cons in Hf as [[Hs Hlen] Hf].
  destruct (preallocate_run f d Hs Hlen) as (ino & d1 & Hi & E1 & Es1 & Ec1).
  rewrite Hi in Hni.
  destruct (IH d1 (conj Hnd Hf)) as (d2 & E2 & Es2 & [_ Hl2] & Ho2 & Hb2).
  assert (contents d2 !! ino = Some (resize (length f) x00 (content_of io d f))) as Hc2.
  { rewrite Ho2, Ec1 by done. apply lookup_insert_eq. }
  assert (∀ ino', Some ino' ∈ inode io <$> fs → contents d1 !! ino' = contents d !! ino') as Ho1.
  { intros ino' Hin. rewrite Ec1, lookup_insert_ne; [done|]. by intros ->. }
  exists d2. split; [|split; [congruence|split; [|split]]].
  - cbn [preallocate_loop]. unfold mbind, IO_bind. by rewrite E1.
  - split; [apply NoDup_cons; by rewrite Hi|]. apply Forall_cons. split; [|done].
    exists ino, (resize (length f) x00 (content_of io d f)). split_and!; try done.
    apply zlen_resize. lia.
  - intros ino' Hin. rewrite Ho2 by set_solver. rewrite Ec1, lookup_insert_ne; [done|]. set_solver.
  - intros f' [->|Hin]%elem_of_cons; [by eapply content_of_eq|]. rewrite Hb2 by done. f_equal.
    unfold content_of. destruct (inode io f') as [ino'|] eqn:Ei; [|done]. simpl. f_equal.
    apply Ho1. apply list_elem_of_fmap. by exists f'.
Qed.
End Preallocate.

(** ** Theorems *)

Section Theorems.
Context `{FS : FileSystem} `{C : CryptoSHA1} (io : DiskIOManager).
Abbreviation m := (disk_metadata io).

(** Pieces saved one after another, as [main]'s callback does, and what was saved last
    for each. *)
Fixpoint save_all (l : list (Z * list byte)) : IO unit :=
  match l with
  | [] => mret tt
  | (i, data) :: l => _ ← save_piece io i data; save_all l
  end.

Definition saved (l : list (Z * list byte)) : gmap Z (list byte) :=
  foldl (λ g p, <[p.1 := p.2]> g) ∅ l.

Definition piece_data_ok (p : Z * list byte) : Prop :=
  0 ≤ p.1 < num_pieces m ∧ zlen p.2 = piece_len m p.1.

Lemma saved_app l i data : saved (l ++ [(i, data)]) = <[i := data]> (saved l).
Proof. unfold saved. by rewrite foldl_app. Qed.

Lemma saved_in l i : i ∈ l.*1 → ∃ data, saved l !! i = Some data ∧ (i, data) ∈ l.
Proof.
  induction l as [|[j x] l IH] using rev_ind; [by intros ?%not_elem_of_nil|].
  rewrite fmap_app, elem_of_app, saved_app. intros Hin. destruct (decide (j = i)) as [->|Hne].
  - exists x. rewrite lookup_insert_eq, elem_of_app. split; [done|]. right. by apply list_elem_of_singleton.
  - rewrite lookup_insert_ne by done. destruct Hin as [Hin|Hin%list_elem_of_singleton]; [|by destruct Hne].
    destruct (IH Hin) as (data & ? & ?). exists data. rewrite elem_of_app. auto.
Qed.

Lemma save_all_app l k d :
  save_all (l ++ k) d = (_ ← save_all l; save_all k) d.
Proof.
  revert d. induction l as [|[i data] l IH]; intros d; [done|]. cbn [app save_all].
  unfold mbind, IO_bind in *. by destruct (save_piece io i data d) as [[u| | |] d'].
Qed.

(** What a write throws is caught. *)
Lemma save_all_throws l d e : (save_all l d).1 ≠ Throw e.
Proof.
  revert d. induction l as [|[i data] l IH]; intros d; [done|]. cbn [save_all].
  unfold mbind, IO_bind, save_piece, try_catch in *. destruct (write_piece io i data d) as [[u| | |] d1]; try done; apply IH.
Qed.

Lemma save_all_run l d :
  ready io d → reliable d → Forall piece_data_ok l →
  ∃ d', save_all l d = (Ok tt, d') ∧ ready io d' ∧ reliable d' ∧
    ∀ i, 0 ≤ i < num_pieces m →
      read_piece io i d' =
        (match saved l !! i with Some data => Ok data | None => (read_piece io i d).1 end, d').
Proof.
  intros Hd Hr. induction l as [|[i data] l IH] using rev_ind; intros Hl.
  - exists d. split_and!; try done. intros i Hi. change (saved [] !! i) with (@None (list byte)).
    by destruct (read_piece_run io d i Hd Hi) as (x & -> & _).
  - apply Forall_app in Hl as [Hl [[Hi Hz] _]%Forall_cons]. simpl in Hi, Hz.
    destruct (IH Hl) as (d1 & E1 & Hd1 & Hr1 & Hread1).
    destruct (write_then_read io d1 i data Hd1 Hr1 Hi Hz) as (d2 & E2 & Hd2 & Hr2 & Hi2 & Ho2).
    exists d2. split; [|split; [done|split; [done|]]].
    + rewrite save_all_app. unfold mbind, IO_bind. rewrite E1. cbn [save_all].
      unfold mbind, IO_bind, save_piece, try_catch. by rewrite E2.
    + intros j Hj. rewrite saved_app. destruct (decide (i = j)) as [<-|Hne].
      * by rewrite lookup_insert_eq.
      * rewrite lookup_insert_ne by done. destruct (read_piece_run io d2 j Hd2 Hj) as (x & E & _).
        specialize (Ho2 j Hj (not_eq_sym Hne)). rewrite E in *. simpl in Ho2.
        rewrite Hread1 in Ho2 by done. simpl in Ho2. by rewrite Ho2.
Qed.

(** C11: The disk refines a map from pieces to bytes. Where the file names of a torrent
    name different files that can be created, preallocation succeeds from any disk and
    gives each file its length, keeping the bytes it had; after any sequence of pieces
    saved on reliable storage, in any order and any number of times, a piece reads as
    it was last saved, and a piece not saved reads as before, wherever the pieces cross
    the boundaries of the files. *)
Theorem disk_refines_pieces (d : Disk) (l : list (Z * list byte)) :
  wf_metadata m → placeable io (files m) → reliable d → Forall piece_data_ok l →
  ∃ d0 d', preallocate_files io d = (Ok tt, d0) ∧
    (∀ f, f ∈ files m → content_of io d0 f = resize (length f) x00 (content_of io d f)) ∧
    save_all l d0 = (Ok tt, d') ∧
    ∀ i, 0 ≤ i < num_pieces m →
      read_piece io i d' =
        (match saved l !! i with Some data => Ok data | None => (read_piece io i d0).1 end, d').
Proof.
  intros Hm Hp Hr Hl. destruct (preallocate_loop_run io (files m) d Hp)
    as (d0 & E0 & Es & Hl0 & _ & Hb). exists d0.
  destruct (save_all_run l d0) as (d' & E & _ & _ & Hread); try done.
  - split; [done|]. split; [|done]. destruct Hp as [_ Hp]. eapply Forall_impl; [exact Hp|].
    simpl. intros f [_ ?]. lia.
  - unfold reliable. by rewrite Es.
  - by exists d'.
Qed.

(** A write that fails at once leaves the files as they are. *)
Lemma write_file_fails d f ino content pos data s :
  inode io f = Some ino → contents d !! ino = Some content → script d = WriteFails 0 :: s →
  0 ≤ pos ≤ zlen content →
  ∃ d', write_file (get_full_path io (path f)) pos data d =
          (Throw (runtime_error "failed writing to file"), d') ∧ contents d' = contents d.
Proof.
  intros Hi Hc Hs Hp. unfold write_file. unfold inode in Hi. rewrite Hi, Hc, Hs. simpl.
  eexists. split; [done|]. simpl. apply insert_id. rewrite Hc. f_equal.
  change (ztake 0 data) with (@nil byte). rewrite write_at_inside by (change (zlen []) with 0; lia).
  unfold splice. change (zlen []) with 0. rewrite Z.add_0_r. by rewrite app_nil_l, ztake_zdrop.
Qed.

Lemma write_loop_fails d fs s off data w :
  contiguous s fs → laid io d fs → script d = WriteFails 0 :: w → 0 ≤ s ≤ off → 0 < zlen data →
  Forall (λ f, 0 ≤ length f) fs → off + zlen data ≤ s + sum_lengths fs < 2 ^ 63 →
  ∃ d', write_loop io off data fs d = (Throw (runtime_error "failed writing to file"), d') ∧
        contents d' = contents d.
Proof.
  revert s. induction fs as [|f fs IH]; intros s Hcont Hl Hs Hoff Hz Hpos Hsum;
    [simpl in Hsum; lia|].
  destruct Hcont as [<- Hcont]. apply Forall_cons in Hpos as [Hf0 Hpos]. simpl in Hsum.
  assert (0 ≤ sum_lengths fs) as Hsn by (clear -Hpos; induction Hpos; simpl; lia).
  destruct (laid_content io d f fs Hl) as (ino & content & Hi & Hc & Hcl & _ & Hl' & _).
  cbn [write_loop]. unfold mbind, IO_bind, pure. rewrite overlap_eq by lia. unfold meets.
  destruct ((off + zlen data <=? offset f) || (offset f + length f <=? off)) eqn:E; simpl.
  - apply orb_true_iff in E as [E%Z.leb_le|E%Z.leb_le]; [lia|].
    apply (IH (offset f + length f)); try done; lia.
  - apply orb_false_iff in E as [E1%Z.leb_gt E2%Z.leb_gt].
    destruct (write_file_fails d f ino content (off `max` offset f - offset f)
      (slice (off `max` offset f - off)
         ((off + zlen data) `min` (offset f + length f) - off `max` offset f) data) w)
      as (d' & -> & Ec); try done; [lia|]. by exists d'.
Qed.

(** A failed write goes unnoticed. When the storage refuses the bytes of a piece,
    [write_piece] throws and [main]'s callback logs and returns as if the piece were
    saved (the coordinator marks it complete and announces it next): no byte of the
    files changed. *)
Theorem failed_write_ignored (d : Disk) (i : Z) (data : list byte) w :
  ready io d → script d = WriteFails 0 :: w → 0 ≤ i < num_pieces m → zlen data = piece_len m i →
  ∃ d', write_piece io i data d = (Throw (runtime_error "failed writing to file"), d') ∧
    save_piece io i data d = (Ok tt, d') ∧ contents d' = contents d.
Proof.
  intros (Hm & Hf & Hl) Hs Hi Hz. destruct (piece_extent io i Hm Hi) as (H0 & Hp & Hb & _).
  pose proof Hm as (_ & Hn & _ & _ & _ & Hcont & Esum).
  destruct (write_loop_fails d (files m) 0 (i * piece_length m) data w)
    as (d' & E & Ec); try done; try lia.
  exists d'. assert (write_piece io i data d = (Throw (runtime_error "failed writing to file"), d'))
    as Ew; [|split; [done|split; [|done]]; unfold save_piece, try_catch; by rewrite Ew].
  unfold write_piece. rewrite wrap_small, (proj2 (Z.leb_gt _ _)) by lia.
  unfold mbind, IO_bind, pure, i64_mul. by rewrite i64_in by in_i64.
Qed.
End Theorems.

(** ** A path out of the output directory *)

(** A torrent of one file of 16 bytes, with the name given. *)
Definition named_torrent (nm : list byte) : list byte :=
  encode (BDict [(bs "announce", BString (bs "u"));
                 (bs "info", BDict [(bs "length", BInt 16); (bs "name", BString nm);
                                    (bs "piece length", BInt 16);
                                    (bs "pieces", BString (toy_digest (zeros 16)))])]).

(** The names of a torrent are not confined to the output directory: torrents are
    accepted whose file is the absolute path they name, whatever the output directory
    is, or a path that leads back up from it. *)
Theorem torrent_path_escapes `{C : CryptoSHA1} (base : list byte) :
  (∃ m f, from_bencode (named_torrent (bs "/etc/cron.d/x")) = Ok m ∧ files m = [f] ∧
     get_full_path (mk_disk_io base m) (path f) = bs "/etc/cron.d/x") ∧
  (∃ m f, from_bencode (named_torrent (bs "../x")) = Ok m ∧ files m = [f] ∧
     get_full_path (mk_disk_io (bs "out") m) (path f) = bs "out/../x").
Proof.
  split.
  - do 2 eexists. split; [vm_compute; reflexivity|]. split; [reflexivity|]. reflexivity.
  - do 2 eexists. split; [vm_compute; reflexivity|]. split; [reflexivity|].
    reflexivity.
Qed.

(** ** Witnesses *)

(** A file system in which a path's file is its first byte, and a torrent of two files
    whose second piece lies in both. *)
Definition first_byte : FileSystem := λ p, b2z <$> head p.

Definition two_files : TorrentMetadata :=
  mk_torrent (bs "n") (bs "u") [bs "u"] 16 40 3
    [toy_digest (zeros 16); toy_digest (zeros 16); toy_digest (zeros 8)]
    [mk_file (bs "a") 20 0; mk_file (bs "b") 20 20] [].

Definition two_files_io : DiskIOManager := mk_disk_io [] two_files.

Definition piece1 : list byte := replicate 16 x41.

Lemma two_files_wf : wf_metadata two_files.
Proof. unfold wf_metadata. simpl. split_and!; vm_compute; done. Qed.

Lemma two_files_placeable : @placeable first_byte two_files_io (files two_files).
Proof.
  split.
  - apply (bool_decide_unpack _). vm_compute. exact I.
  - repeat (constructor; [split; [eexists; vm_compute; reflexivity|split; vm_compute; done]|]).
    constructor.
Qed.

Lemma piece1_ok : Forall (piece_data_ok two_files_io) [(1, piece1)].
Proof. constructor; [|constructor]. split; [split; vm_compute; done|vm_compute; reflexivity]. Qed.

Definition empty_disk : Disk := mk_disk ∅ [].

Lemma disk_refines_pieces_witness :
  ∃ d0 d', @preallocate_files first_byte two_files_io empty_disk = (Ok tt, d0) ∧
    @save_all first_byte two_files_io [(1, piece1)] d0 = (Ok tt, d') ∧
    @read_piece first_byte two_files_io 1 d' = (Ok piece1, d').
Proof.
  destruct (@disk_refines_pieces first_byte two_files_io empty_disk [(1, piece1)] two_files_wf
              two_files_placeable) as (d0 & d' & E0 & _ & E & Hread);
    [apply Forall_nil_2|exact piece1_ok|].
  exists d0, d'. split; [exact E0|]. split; [exact E|].
  rewrite (Hread 1) by (split; vm_compute; done). reflexivity.
Defined.

(** The files in place, and the next write refused. *)
Definition full_disk : Disk :=
  mk_disk (<[97 := zeros 20]> (<[98 := zeros 20]> ∅)) [WriteFails 0].

Lemma failed_write_ignored_witness :
  ∃ d', @save_piece first_byte two_files_io 1 piece1 full_disk = (Ok tt, d') ∧
        contents d' = contents full_disk.
Proof.
  destruct (@failed_write_ignored first_byte two_files_io full_disk 1 piece1 [])
    as (d' & _ & E & Ec).
  - split; [exact two_files_wf|]. split.
    + repeat (constructor; [vm_compute; done|]). constructor.
    + split; [apply two_files_placeable|].
      constructor; [exists 97, (zeros 20); split_and!; vm_compute; reflexivity|].
      constructor; [exists 98, (zeros 20); split_and!; vm_compute; reflexivity|]. constructor.
  - reflexivity.
  - split; vm_compute; done.
  - vm_compute. reflexivity.
  - exists d'. split; [exact E|exact Ec].
Defined.
