(* ===== verification/PiecePicker.v ===== *)
(** * Piece picker: [piece_picker.hpp], [piece_picker.cpp]

    The availability histogram and the choice of the next piece. The sequential
    definitions read each atomic operation as one step; [Atomics] models the
    compare-exchange loop step by step, with other threads in between and spurious
    failures, and shows that it has the same effect as the sequential definition.
    The random engine is [std::mt19937] seeded from [std::random_device]: the
    interface [UniformRng], of which only the range is used. *)

From S2P Require Import Prelude Bitfield.

(** [std::uniform_int_distribution<size_t>(a, b)] applied to an engine. *)
Class UniformRng := {
  Rng : Type;
  dist : Z → Z → Rng → Z * Rng;
}.

Class UniformRngLaws (R : UniformRng) :=
  dist_range a b r : a ≤ b → a ≤ (dist a b r).1 ≤ b.

Section PiecePicker.
Context `{R : UniformRng}.

Record PiecePicker := mk_picker {
  pk_num_pieces : Z;
  availability_histogram : list Z;
  rng : Rng;
}.

Definition with_histogram (pk : PiecePicker) (h : list Z) : PiecePicker :=
  mk_picker (pk_num_pieces pk) h (rng pk).

(** The constructor; [seeded] is the engine it seeds. *)
Definition make_picker (num_pieces : Z) (seeded : Rng) : PiecePicker :=
  mk_picker num_pieces (replicate (Z.to_nat num_pieces) 0) seeded.

(** [load], [fetch_add(1)], and the loop that decrements unless zero. *)
Definition load (h : list Z) (i : Z) : Z := default 0 (znth h i).
Definition fetch_add1 (h : list Z) (i : Z) : list Z := zupd i (u32 (load h i + 1)) h.
Definition dec_if_positive (h : list Z) (i : Z) : list Z :=
  let val := load h i in
  if 0 <? val then zupd i (u32 (val - 1)) h else h.

Definition add_availability (pk : PiecePicker) (piece_idx : Z) : PiecePicker :=
  if pk_num_pieces pk <=? piece_idx then pk
  else with_histogram pk (fetch_add1 (availability_histogram pk) piece_idx).

Definition remove_availability (pk : PiecePicker) (piece_idx : Z) : PiecePicker :=
  if pk_num_pieces pk <=? piece_idx then pk
  else with_histogram pk (dec_if_positive (availability_histogram pk) piece_idx).

(** The loop [for (i = 0; i < num_pieces_ && i < bitfield.num_bits(); ++i)] over the
    pieces the bitfield has. *)
Definition for_pieces (pk : PiecePicker) (b : Bitfield) (f : list Z → Z → list Z) : PiecePicker :=
  with_histogram pk
    (foldl (λ h i, if Bitfield.has b i then f h i else h) (availability_histogram pk)
       (seqZ 0 (Z.min (pk_num_pieces pk) (num_bits b)))).

Definition add_peer_bitfield (pk : PiecePicker) (b : Bitfield) : PiecePicker :=
  for_pieces pk b fetch_add1.

Definition remove_peer_bitfield (pk : PiecePicker) (b : Bitfield) : PiecePicker :=
  for_pieces pk b dec_if_positive.

Definition get_availability (pk : PiecePicker) (piece_idx : Z) : Z :=
  if pk_num_pieces pk <=? piece_idx then 0 else load (availability_histogram pk) piece_idx.

Definition candidates (pk : PiecePicker) (peer ours : Bitfield) : list Z :=
  filter (λ i, Bitfield.has peer i && negb (Bitfield.has ours i) = true)
    (seqZ 0 (pk_num_pieces pk)).

(** One round of the search for the minimum. *)
Definition rarest_step (h : list Z) (acc : Z * list Z) (idx : Z) : Z * list Z :=
  let '(min_avail, rarest) := acc in
  let avail := load h idx in
  if avail <? min_avail then (avail, [idx])
  else if avail =? min_avail then (min_avail, rarest ++ [idx])
  else (min_avail, rarest).

Definition rarest_candidates (h : list Z) (cands : list Z) : list Z :=
  (foldl (rarest_step h) (2 ^ 32 - 1, []) cands).2.

(** [v[dist(rng_)]] for a distribution over the indices of [v]. *)
Definition choose (pk : PiecePicker) (v : list Z) : outcome (option Z * PiecePicker) :=
  let '(k, rng) := dist 0 (zlen v - 1) (rng pk) in
  match znth v k with
  | Some i => Ok (Some i, mk_picker (pk_num_pieces pk) (availability_histogram pk) rng)
  | None => UB "vector index out of range"
  end.

Definition pick_piece (pk : PiecePicker) (peer_bitfield our_bitfield : Bitfield)
    : outcome (option Z * PiecePicker) :=
  let cands := candidates pk peer_bitfield our_bitfield in
  if bool_decide (cands = []) then Ok (None, pk)
  else if Bitfield.count our_bitfield <? 4 then choose pk cands
  else
    let rarest := rarest_candidates (availability_histogram pk) cands in
    if bool_decide (rarest = []) then Ok (None, pk) else choose pk rarest.

(** ** Well-formed pickers *)

Definition picker_wf (pk : PiecePicker) : Prop :=
  0 ≤ pk_num_pieces pk ∧ zlen (availability_histogram pk) = pk_num_pieces pk ∧
  Forall is_u32 (availability_histogram pk).

Lemma zupd_Forall (P : Z → Prop) i x h : Forall P h → P x → Forall P (zupd i x h).
Proof. intros. unfold zupd. case_ifs; [done|]. by apply Forall_insert. Qed.

Lemma fetch_add1_wf h i : Forall is_u32 h → Forall is_u32 (fetch_add1 h i).
Proof. intros. apply zupd_Forall; [done|]. by apply wrap_range. Qed.

Lemma dec_if_positive_wf h i : Forall is_u32 h → Forall is_u32 (dec_if_positive h i).
Proof.
  intros. unfold dec_if_positive. case_ifs; [|done]. apply zupd_Forall; [done|]. by apply wrap_range.
Qed.

Lemma load_range h i : Forall is_u32 h → is_u32 (load h i).
Proof.
  intros H. unfold load, znth. case_ifs; [by vm_compute|].
  destruct (h !! _) eqn:Eh; [|by vm_compute]. by eapply Forall_lookup_1 in H.
Qed.

Lemma zlen_fetch_add1 h i : zlen (fetch_add1 h i) = zlen h.
Proof. apply zlen_zupd. Qed.
Lemma zlen_dec h i : zlen (dec_if_positive h i) = zlen h.
Proof. unfold dec_if_positive. case_ifs; [apply zlen_zupd|done]. Qed.

Lemma load_fetch_add1 h i j : 0 ≤ i < zlen h →
  load (fetch_add1 h i) j = if decide (i = j) then u32 (load h i + 1) else load h j.
Proof. intros. unfold fetch_add1, load at 1. rewrite znth_zupd by done. by case_decide. Qed.

Lemma load_dec h i j : 0 ≤ i < zlen h → Forall is_u32 h →
  load (dec_if_positive h i) j = if decide (i = j) then Z.max 0 (load h i - 1) else load h j.
Proof.
  intros Hi Hh. pose proof (load_range h i Hh) as Hr. unfold is_u32 in Hr.
  unfold dec_if_positive. destruct (Z.ltb_spec 0 (load h i)).
  - unfold load at 1. rewrite znth_zupd by done. case_decide; [|done]. simpl.
    rewrite wrap_small by lia. lia.
  - case_decide; [|done]. subst. lia.
Qed.

(** A loop over bitfield indices touches each of them once. *)
Lemma for_pieces_load f (g : Z → Z) h0 (b : Bitfield) n :
  (∀ h i j, zlen h = zlen h0 → Forall is_u32 h → 0 ≤ i < zlen h →
     load (f h i) j = if decide (i = j) then g (load h i) else load h j) →
  (∀ h i, zlen (f h i) = zlen h) → (∀ h i, Forall is_u32 h → Forall is_u32 (f h i)) →
  Forall is_u32 h0 → 0 ≤ n ≤ zlen h0 →
  let h := foldl (λ h i, if Bitfield.has b i then f h i else h) h0 (seqZ 0 n) in
  zlen h = zlen h0 ∧ Forall is_u32 h ∧
  ∀ j, load h j = if (0 <=? j) && (j <? n) && Bitfield.has b j then g (load h0 j) else load h0 j.
Proof.
  intros Hf Hlen Hwf Hh0 [Hn Hle]. revert Hle. pattern n. apply natlike_ind; [| |done].
  { simpl. intros _. split_and!; try done. intros j. destruct (Z.leb_spec 0 j); [|done].
    rewrite (proj2 (Z.ltb_ge j 0)) by lia. done. }
  intros x Hx IH Hle. destruct (IH ltac:(lia)) as (Hl & Hw & Hj). clear IH.
  replace (Z.succ x) with (x + 1) by lia. rewrite seqZ_app, foldl_app by lia.
  change (seqZ _ 1) with [0 + x]. rewrite Z.add_0_l. cbn [foldl]. cbv zeta.
  set (h := foldl _ h0 _) in *. destruct (Bitfield.has b x) eqn:Eb.
  - split_and!; [by rewrite Hlen|by apply Hwf|]. intros j. rewrite Hf by (done || lia).
    case_decide as E.
    + subst j. rewrite Hj. rewrite (proj2 (Z.leb_le 0 x)), (proj2 (Z.ltb_ge x x)),
        (proj2 (Z.ltb_lt x (x + 1))), Eb by lia. done.
    + rewrite Hj. by replace (j <? x + 1) with (j <? x) by lia.
  - split_and!; try done. intros j. rewrite Hj. destruct (decide (x = j)) as [->|].
    + by rewrite Eb, !andb_false_r.
    + by replace (j <? x + 1) with (j <? x) by lia.
Qed.

(** ** The histogram counts the peers that have a piece *)

Definition peers_with (l : list Bitfield) (i : Z) : Z :=
  zlen (filter (λ b, Bitfield.has b i = true) l).

(** The picker's histogram stands for the bitfields of the connected peers. *)
Definition tracks (pk : PiecePicker) (l : list Bitfield) : Prop :=
  picker_wf pk ∧ zlen l < 2 ^ 32 ∧
  ∀ i, 0 ≤ i < pk_num_pieces pk → load (availability_histogram pk) i = peers_with l i.

#[export] Instance peers_with_proper : Proper ((≡ₚ) ==> (=) ==> (=)) peers_with.
Proof. intros l k Hlk i ? <-. unfold peers_with, zlen. by rewrite Hlk. Qed.

#[export] Instance tracks_proper : Proper ((=) ==> (≡ₚ) ==> iff) tracks.
Proof.
  intros pk ? <- l k Hlk. unfold tracks. assert (zlen l = zlen k) as -> by (unfold zlen; by rewrite Hlk).
  by setoid_rewrite Hlk.
Qed.

Lemma peers_with_cons b l i :
  peers_with (b :: l) i = (if Bitfield.has b i then 1 else 0) + peers_with l i.
Proof.
  unfold peers_with. rewrite filter_cons. destruct (Bitfield.has b i); simpl; [|done].
  rewrite zlen_cons. lia.
Qed.

Lemma peers_with_range l i : 0 ≤ peers_with l i ≤ zlen l.
Proof.
  unfold peers_with, zlen. pose proof (length_filter (λ b, Bitfield.has b i = true) l). lia.
Qed.

Lemma has_in_bits b i : Bitfield.has b i = true → i < num_bits b.
Proof. intros H. pose proof (has_bit b i). case_ifs_in H0; [congruence|lia]. Qed.

Lemma tracks_make n seeded : 0 ≤ n → tracks (make_picker n seeded) [].
Proof.
  intros Hn. split_and!; [|done|].
  { split_and!; simpl; [done|by apply zlen_replicate|by apply Forall_replicate]. }
  simpl.
  intros i Hi. unfold load. rewrite znth_replicate, (proj2 (Z.leb_le _ _)), (proj2 (Z.ltb_lt _ _)) by lia.
  done.
Qed.

(** A pass over a bitfield [b] applies [g] to the pieces of [b]. *)
Lemma for_pieces_tracks f (g : Z → Z) pk b :
  (∀ h i j, zlen h = pk_num_pieces pk → Forall is_u32 h → 0 ≤ i < zlen h →
     load (f h i) j = if decide (i = j) then g (load h i) else load h j) →
  (∀ h i, zlen (f h i) = zlen h) → (∀ h i, Forall is_u32 h → Forall is_u32 (f h i)) →
  picker_wf pk → 0 ≤ num_bits b →
  picker_wf (for_pieces pk b f) ∧
  ∀ i, 0 ≤ i < pk_num_pieces pk →
    load (availability_histogram (for_pieces pk b f)) i =
    (if Bitfield.has b i then g (load (availability_histogram pk) i)
     else load (availability_histogram pk) i).
Proof.
  intros Hf Hlen Hwf (Hn & Hl & Hu) Hb.
  destruct (for_pieces_load f g (availability_histogram pk) b (Z.min (pk_num_pieces pk) (num_bits b)))
    as (Hl' & Hu' & Hj); auto; [by rewrite Hl|lia|].
  split; [split_and!; simpl; [done|by rewrite Hl'|done]|].
  intros i Hi. simpl. rewrite Hj. destruct (Bitfield.has b i) eqn:Eb.
  - apply has_in_bits in Eb. by rewrite (proj2 (Z.leb_le _ _)), (proj2 (Z.ltb_lt _ _)) by lia.
  - by rewrite !andb_false_r.
Qed.

Lemma tracks_join pk l b :
  tracks pk l → 0 ≤ num_bits b → zlen l + 1 < 2 ^ 32 → tracks (add_peer_bitfield pk b) (b :: l).
Proof.
  intros (Hw & Hl & Ht) Hb Hlen.
  destruct (for_pieces_tracks fetch_add1 (λ v, u32 (v + 1)) pk b) as [Hw' Hj];
    auto using load_fetch_add1, zlen_fetch_add1, fetch_add1_wf.
  split_and!; [done|rewrite zlen_cons; lia|]. intros i Hi. unfold add_peer_bitfield.
  rewrite Hj, Ht, peers_with_cons by done. pose proof (peers_with_range l i).
  destruct (Bitfield.has b i); [rewrite wrap_small by lia|]; lia.
Qed.

Lemma tracks_leave pk l b :
  tracks pk (b :: l) → 0 ≤ num_bits b → tracks (remove_peer_bitfield pk b) l.
Proof.
  intros (Hw & Hl & Ht) Hb.
  destruct (for_pieces_tracks dec_if_positive (λ v, Z.max 0 (v - 1)) pk b) as [Hw' Hj];
    auto using load_dec, zlen_dec, dec_if_positive_wf.
  rewrite zlen_cons in Hl. split_and!; [done|lia|]. intros i Hi. unfold remove_peer_bitfield.
  rewrite Hj, Ht, peers_with_cons by done. pose proof (peers_with_range l i).
  destruct (Bitfield.has b i); lia.
Qed.

Lemma tracks_have pk l b i :
  tracks pk (b :: l) → wf b → num_bits b = pk_num_pieces pk → 0 ≤ i →
  Bitfield.has b i = false →
  tracks (add_availability pk i) (Bitfield.set b i true :: l).
Proof.
  intros ((Hn & Hlh & Hu) & Hl & Ht) Hb Eb Hi Hh. unfold add_availability.
  rewrite zlen_cons in Hl. destruct (Z.leb_spec (pk_num_pieces pk) i).
  - rewrite set_out by lia. split_and!; try done. by rewrite zlen_cons.
  - split_and!; [|by rewrite zlen_cons|].
    { split_and!; simpl; [done|by rewrite zlen_fetch_add1|by apply fetch_add1_wf]. }
    simpl. intros j Hj. rewrite load_fetch_add1, !Ht, !peers_with_cons, has_set by (done || lia).
    pose proof (peers_with_range l i).
    destruct (decide (i = j)) as [->|]; [rewrite decide_True by (split; [done|lia])|
      rewrite decide_False by naive_solver; done].
    rewrite Hh. rewrite wrap_small; lia.
Qed.

(** The pickers reached by joins and leaves of peers and by their "have"s, with the
    bitfields of the peers connected. *)
Inductive av_reach (n : Z) : PiecePicker → list Bitfield → Prop :=
| av_start seeded : av_reach n (make_picker n seeded) []
| av_join pk l b :
    av_reach n pk l → wf b → num_bits b = n → zlen l + 1 < 2 ^ 32 →
    av_reach n (add_peer_bitfield pk b) (b :: l)
| av_leave pk l b k :
    av_reach n pk l → l ≡ₚ b :: k → av_reach n (remove_peer_bitfield pk b) k
| av_have pk l b k i :
    av_reach n pk l → l ≡ₚ b :: k → 0 ≤ i → Bitfield.has b i = false →
    av_reach n (add_availability pk i) (Bitfield.set b i true :: k)
| av_picked pk l peer ours r pk' :
    av_reach n pk l → pick_piece pk peer ours = Ok (r, pk') → av_reach n pk' l.

Lemma pick_piece_keeps pk peer ours r pk' :
  pick_piece pk peer ours = Ok (r, pk') →
  pk_num_pieces pk' = pk_num_pieces pk ∧ availability_histogram pk' = availability_histogram pk.
Proof.
  unfold pick_piece, choose. intros H. case_ifs_in H; try (by injection H as <- <-);
    destruct (dist _ _ _) as [k r']; destruct (znth _ k); try done; by injection H as <- <-.
Qed.

Lemma av_reach_tracks n pk l :
  0 ≤ n < 2 ^ 63 → av_reach n pk l →
  tracks pk l ∧ pk_num_pieces pk = n ∧ Forall (λ b, wf b ∧ num_bits b = n) l.
Proof.
  intros Hn H. induction H as [seeded|pk l b _ (Ht & En & Hl) Hb Eb Hlen
    |pk l b k _ (Ht & En & Hl) Hk|pk l b k i _ (Ht & En & Hl) Hk Hi Hh
    |pk l peer ours r pk' _ (Ht & En & Hl) Hp].
  - split_and!; [apply tracks_make; lia|done|done].
  - split_and!; [apply tracks_join; auto; lia|done|by constructor].
  - rewrite Hk in Ht, Hl. inversion_clear Hl as [|?? [Hb Eb] Hk']. split_and!; auto.
    apply tracks_leave; [done|lia].
  - rewrite Hk in Ht, Hl. inversion_clear Hl as [|?? [Hb Eb] Hk']. split_and!.
    + apply tracks_have; auto. by rewrite Eb.
    + unfold add_availability. by case_ifs.
    + constructor; [|done]. split; [by apply wf_set|by rewrite num_bits_set].
  - destruct (pick_piece_keeps _ _ _ _ _ Hp) as [E1 E2]. split_and!; [|congruence|done].
    unfold tracks, picker_wf in *. by rewrite E1, E2.
Qed.

(** ** The choice *)

Lemma elem_of_candidates pk peer ours i :
  i ∈ candidates pk peer ours ↔
  0 ≤ i < pk_num_pieces pk ∧ Bitfield.has peer i = true ∧ Bitfield.has ours i = false.
Proof.
  unfold candidates. rewrite list_elem_of_filter, elem_of_seqZ, andb_true_iff, negb_true_iff.
  naive_solver lia.
Qed.

(** The search keeps the candidates of the least availability seen. *)
Lemma rarest_fold h cands :
  Forall is_u32 h →
  let '(m, rs) := foldl (rarest_step h) (2 ^ 32 - 1, []) cands in
  m ≤ 2 ^ 32 - 1 ∧ (∀ i, i ∈ cands → m ≤ load h i) ∧
  (rs = [] → cands = [] ∧ m = 2 ^ 32 - 1) ∧
  ∀ i, i ∈ rs ↔ i ∈ cands ∧ load h i = m.
Proof.
  intros Hh. induction cands as [|c cands IH] using rev_ind; [simpl; set_solver by lia|].
  rewrite foldl_app. simpl. destruct (foldl _ _ cands) as [m rs].
  destruct IH as (Hm & Hmin & Hne & Hrs). pose proof (load_range h c Hh) as Hc. unfold is_u32 in Hc.
  simpl. destruct (Z.ltb_spec (load h c) m); [|destruct (Z.eqb_spec (load h c) m) as [E|E]].
  - split_and!; [lia| |done|].
    + intros i [Hi|Hi%list_elem_of_singleton]%elem_of_app; [|by subst].
      specialize (Hmin i Hi). lia.
    + intros i. rewrite list_elem_of_singleton, elem_of_app, list_elem_of_singleton. split.
      * intros ->. auto.
      * intros [[Hi|] ?]; [|done]. specialize (Hmin i Hi). lia.
  - split_and!; [done| |by intros []%app_eq_nil|].
    + intros i [Hi|Hi%list_elem_of_singleton]%elem_of_app; [auto|subst; lia].
    + intros i. rewrite !elem_of_app, !list_elem_of_singleton, Hrs. naive_solver.
  - split_and!; [done| | |].
    + intros i [Hi|Hi%list_elem_of_singleton]%elem_of_app; [auto|subst; lia].
    + intros [-> ->]%Hne. lia.
    + intros i. rewrite elem_of_app, list_elem_of_singleton, Hrs. naive_solver.
Qed.

Context `{!UniformRngLaws R}.

Lemma choose_spec pk v :
  v ≠ [] → ∃ i pk', choose pk v = Ok (Some i, pk') ∧ i ∈ v ∧
  pk_num_pieces pk' = pk_num_pieces pk ∧ availability_histogram pk' = availability_histogram pk.
Proof.
  intros Hv. assert (0 < zlen v) as Hl by (destruct v; [done|rewrite zlen_cons; pose proof (zlen_nonneg v); lia]).
  unfold choose. pose proof (dist_range 0 (zlen v - 1) (rng pk) ltac:(lia)) as Hd.
  destruct (dist _ _ _) as [k r]; simpl in Hd.
  destruct (znth_is_Some v k ltac:(lia)) as [i Hi]. rewrite Hi.
  do 2 eexists. split_and!; [done| |done|done].
  unfold znth in Hi. case_ifs_in Hi. by eapply list_elem_of_lookup_2.
Qed.

(** [pick_piece] returns, and finds a piece unless the peer has none we lack. *)
Lemma pick_piece_returns pk peer ours :
  picker_wf pk →
  ∃ r pk', pick_piece pk peer ours = Ok (r, pk') ∧
    match r with
    | None => candidates pk peer ours = []
    | Some i =>
        i ∈ candidates pk peer ours ∧
        (4 ≤ Bitfield.count ours → ∀ j, j ∈ candidates pk peer ours →
         load (availability_histogram pk) i ≤ load (availability_histogram pk) j)
    end.
Proof.
  intros (_ & _ & Hu). unfold pick_piece. case_bool_decide as Ec; [by exists None, pk|].
  destruct (Z.ltb_spec (Bitfield.count ours) 4).
  { destruct (choose_spec pk _ Ec) as (i & pk' & E & Hi & _). exists (Some i), pk'.
    split_and!; [done|done|lia]. }
  pose proof (rarest_fold (availability_histogram pk) (candidates pk peer ours) Hu) as Hf.
  unfold rarest_candidates. destruct (foldl _ _ _) as [mn rs]. simpl.
  destruct Hf as (_ & Hmin & Hne & Hrs).
  rewrite bool_decide_eq_false_2 by (by intros [? _]%Hne).
  destruct (choose_spec pk rs) as (i & pk' & E & Hi & _); [by intros [? _]%Hne|].
  apply Hrs in Hi as [Hi Ei]. exists (Some i), pk'. split_and!; [done|done|].
  intros _ j Hj. rewrite Ei. by apply Hmin.
Qed.

(** C18: [pick_piece] always returns, from within the vectors it indexes. It finds
    no piece exactly when the peer has none we lack; the piece it finds is one the
    peer has and we lack, and once our bitfield counts four pieces it is of least
    availability among those. The histogram is only read. *)
Theorem pick_piece_spec (pk : PiecePicker) (peer ours : Bitfield) :
  picker_wf pk →
  ∃ r pk', pick_piece pk peer ours = Ok (r, pk') ∧
    availability_histogram pk' = availability_histogram pk ∧
    match r with
    | None => ∀ j, 0 ≤ j < pk_num_pieces pk →
                   Bitfield.has peer j = true → Bitfield.has ours j = true
    | Some i =>
        (0 ≤ i < pk_num_pieces pk ∧ Bitfield.has peer i = true ∧ Bitfield.has ours i = false) ∧
        (4 ≤ Bitfield.count ours →
         ∀ j, 0 ≤ j < pk_num_pieces pk → Bitfield.has peer j = true →
              Bitfield.has ours j = false → get_availability pk i ≤ get_availability pk j)
    end.
Proof.
  intros Hw. destruct (pick_piece_returns pk peer ours Hw) as (r & pk' & E & Hr). exists r, pk'.
  split; [done|]. split; [by eapply pick_piece_keeps|]. destruct r as [i|].
  - destruct Hr as [Hi%elem_of_candidates Hmin]. split; [done|]. intros H4 j Hj Hp Ho.
    unfold get_availability. rewrite !(proj2 (Z.leb_gt _ _)) by lia.
    apply Hmin; [done|]. by apply elem_of_candidates.
  - intros j Hj Hp. apply not_false_iff_true. intros Ho.
    assert (j ∈ candidates pk peer ours) as Hin by (by apply elem_of_candidates).
    rewrite Hr in Hin. by apply not_elem_of_nil in Hin.
Qed.

(** The histogram is an exact count: after any sequence of peers joining with
    their bitfield, leaving with the bitfield they have by then, and announcing a
    piece not yet in it, [get_availability i] is the number of connected peers that
    have [i] (while fewer than 2^32 are connected). The decrement that stops at zero
    never loses a count. *)
Theorem availability_counts_peers (n : Z) (pk : PiecePicker) (l : list Bitfield) (i : Z) :
  0 ≤ n < 2 ^ 63 → av_reach n pk l → 0 ≤ i < n →
  get_availability pk i = zlen (filter (λ b, Bitfield.has b i = true) l).
Proof.
  intros Hn Hr Hi. destruct (av_reach_tracks n pk l Hn Hr) as ((_ & _ & Ht) & En & _).
  unfold get_availability. rewrite (proj2 (Z.leb_gt _ _)) by lia. apply Ht. lia.
Qed.
End PiecePicker.

(** ** The atomic operations, step by step *)

Module Atomics.

(** Where a thread is in [fetch_add] or in the loop of [remove_availability]:
    before the load, in the loop with the value last seen, or done. *)
Inductive pc := Add | Rem | RemLoop (val : Z) | Done.

(** One atomic step of a thread on the shared counter, with the counter after it.
    [compare_exchange_weak] may fail although the values agree; when it fails it
    reloads [val]. *)
Inductive step : Z → pc → Z → pc → Prop :=
| step_add c : step c Add (u32 (c + 1)) Done
| step_load c : step c Rem c (RemLoop c)
| step_exit c : step c (RemLoop 0) c Done
| step_cas c : 0 < c → step c (RemLoop c) (u32 (c - 1)) Done
| step_retry c val : 0 < val → step c (RemLoop val) c (RemLoop c).

(** The threads interleave. *)
Inductive steps : Z → list pc → Z → list pc → Prop :=
| steps_refl c ts : steps c ts c ts
| steps_one c ts i p c' p' c'' ts'' :
    ts !! i = Some p → step c p c' p' → steps c' (<[i := p']> ts) c'' ts'' →
    steps c ts c'' ts''.

(** The sequential effect of each operation on the counter. *)
Inductive op := OpAdd | OpRem.

Definition apply_op (c : Z) (o : op) : Z :=
  match o with
  | OpAdd => u32 (c + 1)
  | OpRem => if 0 <? c then u32 (c - 1) else c
  end.

(** The operation a thread has still to take effect with: a thread that saw zero
    took effect then. *)
Definition todo (p : pc) : list op :=
  match p with
  | Add => [OpAdd]
  | Rem => [OpRem]
  | RemLoop val => if 0 <? val then [OpRem] else []
  | Done => []
  end.

(** A step takes effect as one sequential operation, or not at all. *)
Lemma step_effect c p c' p' :
  is_u32 c → step c p c' p' →
  is_u32 c' ∧ ∃ l, todo p = l ++ todo p' ∧ foldl apply_op c l = c'.
Proof.
  unfold is_u32. intros Hc H. destruct H as [c|c|c|c Hp|c val Hv]; simpl todo.
  - split; [by apply wrap_range|]. by exists [OpAdd].
  - split; [done|]. destruct (Z.ltb_spec 0 c); [by exists []|]. exists [OpRem]. split; [done|].
    simpl. by rewrite (proj2 (Z.ltb_ge _ _)) by lia.
  - split; [done|]. by exists [].
  - split; [by apply wrap_range|]. rewrite (proj2 (Z.ltb_lt _ _)) by done. exists [OpRem].
    split; [done|]. simpl. by rewrite (proj2 (Z.ltb_lt _ _)) by done.
  - split; [done|]. rewrite (proj2 (Z.ltb_lt _ _)) by done.
    destruct (Z.ltb_spec 0 c); [by exists []|]. exists [OpRem]. split; [done|].
    simpl. by rewrite (proj2 (Z.ltb_ge _ _)) by lia.
Qed.

Lemma todo_update ts i p p' l :
  ts !! i = Some p → todo p = l ++ todo p' →
  concat (todo <$> ts) ≡ₚ l ++ concat (todo <$> <[i := p']> ts).
Proof.
  revert i. induction ts as [|t ts IH]; intros [|i] Hi E; [done|done| |].
  - injection Hi as ->. simpl. by rewrite E, <- app_assoc.
  - simpl. rewrite (IH i Hi E). by rewrite !app_assoc, (Permutation_app_comm (todo t)).
Qed.

Lemma steps_effect c ts c' ts' :
  is_u32 c → steps c ts c' ts' →
  ∃ l, concat (todo <$> ts) ≡ₚ l ++ concat (todo <$> ts') ∧ foldl apply_op c l = c'.
Proof.
  intros Hc H. induction H as [c ts|c ts i p c' p' c'' ts'' Hi Hs _ IH]; [by exists []|].
  destruct (step_effect c p c' p' Hc Hs) as (Hc' & l & El & Ef).
  destruct (IH Hc') as (k & Ek & Ek'). exists (l ++ k). split.
  - rewrite (todo_update ts i p p' l Hi El), Ek. by rewrite app_assoc.
  - by rewrite foldl_app, Ef.
Qed.

(** C27: the lock-free updates are linearizable: when all threads that add or remove
    availability of a piece have finished, however their loads and
    compare-exchanges interleaved and however often the weak exchange failed, the
    counter is what the same operations give one after another in some order, the
    decrement guarded by the test for zero. *)
Theorem histogram_linearizable (c c' : Z) (ops : list op) (ts' : list pc) :
  is_u32 c →
  steps c ((λ o, match o with OpAdd => Add | OpRem => Rem end) <$> ops) c' ts' →
  Forall (λ p, p = Done) ts' →
  ∃ order, order ≡ₚ ops ∧ foldl apply_op c order = c'.
Proof.
  intros Hc Hs Hd. destruct (steps_effect _ _ _ _ Hc Hs) as (l & El & Ef).
  exists l. split; [|done].
  assert (concat (todo <$> ts') = []) as Hd'.
  { clear - Hd. induction Hd as [|p ts -> _ IH]; [done|]. done. }
  rewrite Hd', app_nil_r in El. rewrite <- El.
  clear. induction ops as [|[] ops IH]; [done|..]; apply perm_skip, IH.
Qed.

Lemma histogram_linearizable_witness :
  ∃ order, order ≡ₚ [OpRem; OpAdd] ∧ foldl apply_op 1 order = 1.
Proof.
  apply (histogram_linearizable 1 1 [OpRem; OpAdd] [Done; Done]).
  - by vm_compute.
  - (* the remover loads 1, the adder makes it 2, the exchange fails, then succeeds *)
    eapply (steps_one _ _ 0); [done|apply step_load|].
    eapply (steps_one _ _ 1); [done|apply step_add|].
    eapply (steps_one _ _ 0); [done|apply step_retry; lia|].
    eapply (steps_one _ _ 0); [done|by apply step_cas|]. apply steps_refl.
  - by repeat constructor.
Defined.

End Atomics.

(** ** Witnesses *)

(** An engine that counts. *)
#[export] Instance counter_rng : UniformRng := {
  Rng := Z;
  dist a b r := (a + r mod (b - a + 1), r + 1);
}.

#[export] Instance counter_rng_laws : UniformRngLaws counter_rng.
Proof.
  intros a b r Hab. simpl. pose proof (Z.mod_pos_bound r (b - a + 1)). lia.
Defined.

Definition full4 : Bitfield := Bitfield.of_bytes [xf0] 8.
Definition peer_hi : Bitfield := Bitfield.of_bytes [x0f] 8.
Definition peer_last : Bitfield := Bitfield.of_bytes [x0e] 8.
Definition sample_picker : PiecePicker :=
  add_peer_bitfield (add_peer_bitfield (make_picker 8 5) peer_hi) peer_last.

Lemma sample_reach : av_reach 8 sample_picker [peer_last; peer_hi].
Proof.
  assert (wf peer_hi ∧ wf peer_last) as [Hh Hl] by (split; apply wf_of_bytes; lia).
  apply av_join; [apply av_join; [apply av_start|exact Hh|..]|exact Hl|..]; done.
Qed.

Lemma pick_piece_spec_witness :
  picker_wf sample_picker ∧
  ∃ r pk', pick_piece sample_picker peer_hi full4 = Ok (r, pk') ∧
           availability_histogram pk' = [0; 0; 0; 0; 2; 2; 2; 1].
Proof.
  assert (picker_wf sample_picker) as Hw
    by apply (av_reach_tracks 8 sample_picker _ ltac:(lia) sample_reach).
  split; [exact Hw|].
  destruct (pick_piece_spec sample_picker peer_hi full4 Hw) as (r & pk' & E & Eh & _).
  exists r, pk'. split; [exact E|rewrite Eh; vm_compute; reflexivity].
Defined.

Lemma availability_counts_peers_witness : get_availability sample_picker 4 = 2.
Proof.
  rewrite (availability_counts_peers 8 sample_picker [peer_last; peer_hi] 4
             ltac:(lia) sample_reach ltac:(lia)). vm_compute. reflexivity.
Defined.
