(* ===== verification/PeerMessage.v ===== *)
(** * Peer wire messages: [peer_message.hpp], [peer_message.cpp]

    The handshake and the length-prefixed messages: serialisation and
    deserialisation. Buffers are written and read through [copy_at] and [read_at], so
    that every [memcpy] past an end shows as undefined behaviour. Lengths are
    [uint32_t]: [4 + length] wraps, in [serialize] and in [deserialize]. *)

From S2P Require Import Prelude.

Inductive MessageId :=
| Choke | Unchoke | Interested | NotInterested | Have | BitfieldId | Request | PieceId | Cancel | Port.

Definition id_byte (id : MessageId) : byte :=
  match id with
  | Choke => x00 | Unchoke => x01 | Interested => x02 | NotInterested => x03 | Have => x04
  | BitfieldId => x05 | Request => x06 | PieceId => x07 | Cancel => x08 | Port => x09
  end.

(** [static_cast<MessageId>]; [None] for a value no enumerator has. *)
Definition message_id (b : byte) : option MessageId :=
  match b with
  | x00 => Some Choke | x01 => Some Unchoke | x02 => Some Interested | x03 => Some NotInterested
  | x04 => Some Have | x05 => Some BitfieldId | x06 => Some Request | x07 => Some PieceId
  | x08 => Some Cancel | x09 => Some Port | _ => None
  end.

Inductive PeerMessage :=
| KeepAliveMsg
| ChokeMsg
| UnchokeMsg
| InterestedMsg
| NotInterestedMsg
| HaveMsg (piece_index : Z)
| BitfieldMsg (bitfield : list byte)
| RequestMsg (piece_index begin length : Z)
| PieceMsg (piece_index begin : Z) (block : list byte)
| CancelMsg (piece_index begin length : Z)
| PortMsg (port : Z).

#[export] Instance peer_message_eq_dec : EqDecision PeerMessage.
Proof. solve_decision. Defined.

Record HandshakeMsg := mk_handshake {
  reserved : list byte;
  hs_info_hash : list byte;
  hs_peer_id : list byte;
}.

#[export] Instance handshake_eq_dec : EqDecision HandshakeMsg.
Proof. solve_decision. Defined.

(** [operator==]: the same alternative, with the same fields. *)
Definition peer_message_eqb (lhs rhs : PeerMessage) : bool :=
  match lhs, rhs with
  | KeepAliveMsg, KeepAliveMsg | ChokeMsg, ChokeMsg | UnchokeMsg, UnchokeMsg
  | InterestedMsg, InterestedMsg | NotInterestedMsg, NotInterestedMsg => true
  | HaveMsg i, HaveMsg i' => i =? i'
  | BitfieldMsg b, BitfieldMsg b' => bool_decide (b = b')
  | RequestMsg i b l, RequestMsg i' b' l' => (i =? i') && (b =? b') && (l =? l')
  | PieceMsg i b d, PieceMsg i' b' d' => (i =? i') && (b =? b') && bool_decide (d = d')
  | CancelMsg i b l, CancelMsg i' b' l' => (i =? i') && (b =? b') && (l =? l')
  | PortMsg p, PortMsg p' => p =? p'
  | _, _ => false
  end.

Definition handshake_eqb (lhs rhs : HandshakeMsg) : bool :=
  bool_decide (reserved lhs = reserved rhs) &&
  bool_decide (hs_info_hash lhs = hs_info_hash rhs) &&
  bool_decide (hs_peer_id lhs = hs_peer_id rhs).

(** ** Handshake *)

Definition protocol : list byte := bs "BitTorrent protocol".

Definition handshake_serialize (msg : HandshakeMsg) : outcome (list byte) :=
  let out := zeros 68 in
  out ← copy_at out 0 [x13];
  out ← copy_at out 1 protocol;
  out ← copy_at out 20 (ztake 8 (reserved msg));
  out ← copy_at out 28 (ztake 20 (hs_info_hash msg));
  copy_at out 48 (ztake 20 (hs_peer_id msg)).

Definition handshake_deserialize (data : list byte) : outcome (option HandshakeMsg) :=
  if zlen data <? 68 then Ok None
  else
    first ← read_at data 0 1;
    if negb (bool_decide (first = [x13])) then Ok None
    else
      name ← read_at data 1 19;
      if negb (bool_decide (name = protocol)) then Ok None
      else
        reserved ← read_at data 20 8;
        info_hash ← read_at data 28 20;
        peer_id ← read_at data 48 20;
        Ok (Some (mk_handshake reserved info_hash peer_id)).

(** ** Messages *)

(** The length prefix and the identifier, into a new buffer of [size] bytes. *)
Definition header (size len : Z) (id : MessageId) : outcome (list byte) :=
  out ← write_uint32_be (zeros size) 0 len;
  copy_at out 4 [id_byte id].

Definition serialize (msg : PeerMessage) : outcome (list byte) :=
  match msg with
  | KeepAliveMsg => Ok (zeros 4)
  | ChokeMsg => header 5 1 Choke
  | UnchokeMsg => header 5 1 Unchoke
  | InterestedMsg => header 5 1 Interested
  | NotInterestedMsg => header 5 1 NotInterested
  | HaveMsg piece_index =>
      out ← header 9 5 Have;
      write_uint32_be out 5 piece_index
  | BitfieldMsg bitfield =>
      let len := u32 (1 + u32 (zlen bitfield)) in
      out ← header (u32 (4 + len)) len BitfieldId;
      copy_at out 5 bitfield
  | RequestMsg piece_index begin length =>
      out ← header 17 13 Request;
      out ← write_uint32_be out 5 piece_index;
      out ← write_uint32_be out 9 begin;
      write_uint32_be out 13 length
  | PieceMsg piece_index begin block =>
      let len := u32 (9 + u32 (zlen block)) in
      out ← header (u32 (4 + len)) len PieceId;
      out ← write_uint32_be out 5 piece_index;
      out ← write_uint32_be out 9 begin;
      copy_at out 13 block
  | CancelMsg piece_index begin length =>
      out ← header 17 13 Cancel;
      out ← write_uint32_be out 5 piece_index;
      out ← write_uint32_be out 9 begin;
      write_uint32_be out 13 length
  | PortMsg port =>
      out ← header 7 3 Port;
      write_uint16_be out 5 port
  end.

(** The [switch] on the identifier; [length] is the prefix. *)
Definition deserialize_payload (data : list byte) (length : Z) (id : option MessageId)
    : outcome (option PeerMessage) :=
  let exactly n msg := if negb (length =? n) then Ok None else msg in
  let three build :=
    exactly 13
      (index ← read_uint32_be data 5;
       begin ← read_uint32_be data 9;
       len ← read_uint32_be data 13;
       Ok (Some (build index begin len))) in
  match id with
  | Some Choke => exactly 1 (Ok (Some ChokeMsg))
  | Some Unchoke => exactly 1 (Ok (Some UnchokeMsg))
  | Some Interested => exactly 1 (Ok (Some InterestedMsg))
  | Some NotInterested => exactly 1 (Ok (Some NotInterestedMsg))
  | Some Have => exactly 5 (idx ← read_uint32_be data 5; Ok (Some (HaveMsg idx)))
  | Some BitfieldId => field ← read_at data 5 (length - 1); Ok (Some (BitfieldMsg field))
  | Some Request => three RequestMsg
  | Some PieceId =>
      if length <? 9 then Ok None
      else
        index ← read_uint32_be data 5;
        begin ← read_uint32_be data 9;
        block ← read_at data 13 (length - 9);
        Ok (Some (PieceMsg index begin block))
  | Some Cancel => three CancelMsg
  | Some Port => exactly 3 (port_val ← read_uint16_be data 5; Ok (Some (PortMsg port_val)))
  | None => Ok None
  end.

(** The message, if any, and [consumed]. *)
Definition deserialize (data : list byte) : outcome (option PeerMessage * Z) :=
  if zlen data <? 4 then Ok (None, 0)
  else
    length ← read_uint32_be data 0;
    if length =? 0 then Ok (Some KeepAliveMsg, 4)
    else if zlen data <? u32 (4 + length) then Ok (None, 0)
    else
      let consumed := u32 (4 + length) in
      id ← read_at data 4 1;
      msg ← deserialize_payload data length (head id ≫= message_id);
      Ok (msg, consumed).

(** ** Lemmas *)

Lemma peer_message_eqb_eq a b : peer_message_eqb a b = true ↔ a = b.
Proof.
  split.
  - destruct a, b; simpl; rewrite ?andb_true_iff, ?Z.eqb_eq, ?bool_decide_eq_true; naive_solver.
  - intros <-. destruct a; simpl; rewrite ?Z.eqb_refl, ?bool_decide_eq_true_2; done.
Qed.

Lemma handshake_eqb_eq a b : handshake_eqb a b = true ↔ a = b.
Proof.
  unfold handshake_eqb. rewrite !andb_true_iff, !bool_decide_eq_true. destruct a, b; naive_solver.
Qed.

Lemma id_byte_message_id id : message_id (id_byte id) = Some id.
Proof. by destruct id. Qed.

Lemma message_id_byte b id : message_id b = Some id → b = id_byte id.
Proof. destruct b; simpl; intros H; try done; by injection H as <-. Qed.

(** Messages as the code builds them: fields in their types, payloads below 4 GiB. *)
Definition wf_msg (msg : PeerMessage) : Prop :=
  match msg with
  | HaveMsg i => is_u32 i
  | BitfieldMsg b => zlen b + 5 < 2 ^ 32
  | RequestMsg i b l | CancelMsg i b l => is_u32 i ∧ is_u32 b ∧ is_u32 l
  | PieceMsg i b d => is_u32 i ∧ is_u32 b ∧ zlen d + 13 < 2 ^ 32
  | PortMsg p => is_u16 p
  | _ => True
  end.

(** The identifier and payload a message has on the wire; none for a keep-alive. *)
Definition body (msg : PeerMessage) : list byte :=
  match msg with
  | KeepAliveMsg => []
  | ChokeMsg => [id_byte Choke]
  | UnchokeMsg => [id_byte Unchoke]
  | InterestedMsg => [id_byte Interested]
  | NotInterestedMsg => [id_byte NotInterested]
  | HaveMsg i => id_byte Have :: be_bytes 4 i
  | BitfieldMsg b => id_byte BitfieldId :: b
  | RequestMsg i b l => id_byte Request :: be_bytes 4 i ++ be_bytes 4 b ++ be_bytes 4 l
  | PieceMsg i b d => id_byte PieceId :: be_bytes 4 i ++ be_bytes 4 b ++ d
  | CancelMsg i b l => id_byte Cancel :: be_bytes 4 i ++ be_bytes 4 b ++ be_bytes 4 l
  | PortMsg p => id_byte Port :: be_bytes 2 p
  end.

Definition wire (msg : PeerMessage) : list byte := be_bytes 4 (zlen (body msg)) ++ body msg.

Create Rewrite HintDb wire.
#[local] Hint Rewrite zlen_be_bytes @zlen_app @zlen_cons : wire.
Ltac zlens := autorewrite with wire; change (zlen (@nil byte)) with 0.
Ltac zlens_in H := autorewrite with wire in H; change (zlen (@nil byte)) with 0 in H.

(** The next write of a buffer filled from the front. *)
Lemma fill_next pre src n pos :
  pos = zlen pre → zlen src ≤ n →
  copy_at (pre ++ zeros n) pos src = Ok ((pre ++ src) ++ zeros (n - zlen src)).
Proof. intros ->. apply copy_at_fill. Qed.

Lemma zeros_0 l n : n = 0 → l ++ zeros n = l.
Proof. intros ->. apply app_nil_r. Qed.

Lemma header_ok size len id :
  5 ≤ size → header size len id = Ok ((be_bytes 4 len ++ [id_byte id]) ++ zeros (size - 5)).
Proof.
  intros. unfold header, write_uint32_be.
  change (zeros size) with ([] ++ zeros size).
  rewrite fill_next by (done || zlens; lia).
  cbn [mbind outcome_bind app].
  rewrite (fill_next (be_bytes 4 len) [id_byte id]) by (zlens; lia). zlens. do 3 f_equal. lia.
Qed.

(** One write after another: the step of the proofs below. *)
Ltac fill :=
  unfold write_uint32_be, write_uint16_be;
  repeat (rewrite fill_next by (zlens; lia); cbn [mbind outcome_bind]).

Lemma serialize_wire msg : wf_msg msg → serialize msg = Ok (wire msg).
Proof.
  intros Hw. unfold wire. destruct msg; cbn [serialize body wf_msg] in Hw |- *; try done.
  all: unfold is_u32, is_u16 in *.
  all: try match goal with l : list byte |- _ =>
      pose proof (zlen_nonneg l); rewrite ?(wrap_small 32 (zlen l)), ?wrap_small by
        (rewrite ?wrap_small; lia)
    end.
  all: rewrite header_ok by lia; cbn [mbind outcome_bind]; fill.
  all: rewrite zeros_0 by (zlens; lia); rewrite <- ?app_assoc; do 2 f_equal; f_equal; try (f_equal; zlens; lia).
Qed.

(** Messages of a fixed length are written whatever their fields are. *)
Definition fixed_length (msg : PeerMessage) : Prop :=
  match msg with BitfieldMsg _ | PieceMsg _ _ _ => False | _ => True end.

Lemma serialize_fixed msg : fixed_length msg → serialize msg = Ok (wire msg).
Proof.
  intros Hf. unfold wire. destruct msg; cbn [serialize body] in Hf |- *; try done.
  all: rewrite header_ok by lia; cbn [mbind outcome_bind]; fill.
  all: rewrite zeros_0 by (zlens; lia); rewrite <- ?app_assoc; do 2 f_equal; f_equal; try (f_equal; zlens; lia).
Qed.

Lemma wire_nonempty msg : wire msg ≠ [].
Proof.
  unfold wire. intros E. apply (f_equal zlen) in E. rewrite zlen_app, zlen_be_bytes in E.
  pose proof (zlen_nonneg (body msg)). change (zlen (@nil byte)) with 0 in E. lia.
Qed.

(** *** Reading a message back *)

Lemma read_next pre src post pos n :
  pos = zlen pre → n = zlen src → read_at (pre ++ src ++ post) pos n = Ok src.
Proof. intros -> ->. apply read_at_app. Qed.

Lemma read_u32_next pre v post pos :
  pos = zlen pre → is_u32 v → read_uint32_be (pre ++ be_bytes 4 v ++ post) pos = Ok v.
Proof.
  intros Hp Hv. unfold read_uint32_be. rewrite read_next by (done || by rewrite zlen_be_bytes).
  cbn [mbind outcome_bind]. by rewrite be_value_bytes by (unfold is_u32 in Hv; simpl; lia).
Qed.

Lemma read_front src post n : n = zlen src → read_at (src ++ post) 0 n = Ok src.
Proof. by apply (read_next []). Qed.

Lemma read_u32_front v post : is_u32 v → read_uint32_be (be_bytes 4 v ++ post) 0 = Ok v.
Proof. by apply (read_u32_next []). Qed.

(** The two and three integers after a five-byte header. *)
Lemma read_fields hd i b post :
  zlen hd = 5 → is_u32 i → is_u32 b →
  read_uint32_be (hd ++ be_bytes 4 i ++ be_bytes 4 b ++ post) 5 = Ok i ∧
  read_uint32_be (hd ++ be_bytes 4 i ++ be_bytes 4 b ++ post) 9 = Ok b.
Proof.
  intros Hh Hi Hb. split; [by apply read_u32_next|].
  rewrite app_assoc. apply read_u32_next; [zlens; lia|done].
Qed.

Lemma read_third hd i b l post :
  zlen hd = 5 → is_u32 l →
  read_uint32_be (hd ++ be_bytes 4 i ++ be_bytes 4 b ++ be_bytes 4 l ++ post) 13 = Ok l.
Proof. intros Hh Hl. rewrite !app_assoc, <- app_assoc. apply read_u32_next; [zlens; lia|done]. Qed.

Lemma read_rest hd i b d post :
  zlen hd = 5 →
  read_at (hd ++ be_bytes 4 i ++ be_bytes 4 b ++ d ++ post) 13 (zlen d) = Ok d.
Proof. intros Hh. rewrite !app_assoc, <- app_assoc. apply read_next; [zlens; lia|done]. Qed.

Lemma body_length msg : wf_msg msg → 0 ≤ zlen (body msg) ∧ zlen (body msg) + 4 < 2 ^ 32.
Proof.
  intros Hw. split; [apply zlen_nonneg|].
  destruct msg; cbn [body wf_msg] in *; zlens; lia.
Qed.

Lemma cons_eq {A} (x y : A) l k : x :: l = y :: k → x = y ∧ l = k.
Proof. by intros [= -> ->]. Qed.

Lemma deserialize_payload_body len id p post msg :
  wf_msg msg → body msg = id_byte id :: p → len = zlen p + 1 →
  deserialize_payload (be_bytes 4 len ++ [id_byte id] ++ p ++ post) len (Some id) =
  Ok (Some msg).
Proof.
  intros Hw Hb Hl. rewrite app_assoc. set (hd := be_bytes 4 len ++ [id_byte id]).
  assert (zlen hd = 5) as Hh by (unfold hd; zlens; lia). clearbody hd.
  destruct msg; cbn [wf_msg] in Hw; cbn [body] in Hb; try discriminate Hb;
    apply cons_eq in Hb as [Hid <-]; apply (f_equal message_id) in Hid;
    rewrite !id_byte_message_id in Hid; injection Hid as <-.
  all: zlens_in Hl; unfold deserialize_payload; rewrite ?(proj2 (Z.eqb_eq _ _)) by lia; cbn [negb]; try done.
  - by rewrite read_u32_next by done.
  - rewrite read_next by (done || lia). done.
  - destruct Hw as (Hi & Hbg & Hlen). rewrite <- !app_assoc.
    destruct (read_fields hd piece_index begin (be_bytes 4 length ++ post) Hh Hi Hbg) as [-> ->].
    cbn [mbind outcome_bind]. by rewrite read_third.
  - destruct Hw as (Hi & Hbg & Hlen). rewrite <- !app_assoc. rewrite (proj2 (Z.ltb_ge _ _)) by
      (pose proof (zlen_nonneg block); lia).
    destruct (read_fields hd piece_index begin (block ++ post) Hh Hi Hbg) as [-> ->].
    cbn [mbind outcome_bind]. replace (_ - 9) with (zlen block) by lia. by rewrite read_rest.
  - destruct Hw as (Hi & Hbg & Hlen). rewrite <- !app_assoc.
    destruct (read_fields hd piece_index begin (be_bytes 4 length ++ post) Hh Hi Hbg) as [-> ->].
    cbn [mbind outcome_bind]. by rewrite read_third.
  - unfold read_uint16_be. rewrite read_next by (done || by zlens).
    cbn [mbind outcome_bind]. by rewrite be_value_bytes by (unfold is_u16 in Hw; simpl; lia).
Qed.

(** Any four bytes, any two, are an integer's. *)
Lemma bytes4 l : zlen l = 4 → ∃ v, is_u32 v ∧ l = be_bytes 4 v.
Proof.
  intros Hl. exists (be_value l). split.
  - pose proof (be_value_range l). rewrite Hl in H. done.
  - rewrite <- (be_bytes_value l) at 1. f_equal. unfold zlen in Hl. lia.
Qed.

Lemma bytes2 l : zlen l = 2 → ∃ v, is_u16 v ∧ l = be_bytes 2 v.
Proof.
  intros Hl. exists (be_value l). split.
  - pose proof (be_value_range l). rewrite Hl in H. done.
  - rewrite <- (be_bytes_value l) at 1. f_equal. unfold zlen in Hl. lia.
Qed.

Lemma split_at n (l : list byte) :
  0 ≤ n ≤ zlen l → ∃ a b, l = a ++ b ∧ zlen a = n ∧ zlen b = zlen l - n.
Proof.
  intros Hn. exists (ztake n l), (zdrop n l).
  rewrite ztake_zdrop, zlen_ztake, zlen_zdrop by lia. done.
Qed.

Lemma two_integers p :
  8 ≤ zlen p → ∃ i b d, is_u32 i ∧ is_u32 b ∧ zlen d = zlen p - 8 ∧
                        p = be_bytes 4 i ++ be_bytes 4 b ++ d.
Proof.
  intros Hp. destruct (split_at 4 p) as (x & r & -> & Hx & Hr); [lia|].
  destruct (split_at 4 r) as (y & d & -> & Hy & Hd); [lia|].
  destruct (bytes4 x Hx) as (i & Hi & ->). destruct (bytes4 y Hy) as (b & Hb & ->).
  exists i, b, d. split_and!; auto. lia.
Qed.

Lemma three_integers p :
  zlen p = 12 → ∃ i b l, is_u32 i ∧ is_u32 b ∧ is_u32 l ∧
                         p = be_bytes 4 i ++ be_bytes 4 b ++ be_bytes 4 l.
Proof.
  intros Hp. destruct (two_integers p) as (i & b & d & Hi & Hb & Hd & ->); [lia|].
  destruct (bytes4 d) as (l & Hl & ->); [lia|]. exists i, b, l. done.
Qed.

(** An identifier and payload are a message's, or are refused without being read. *)
Lemma payload_shape id p data len :
  len = zlen p + 1 → len + 4 < 2 ^ 32 →
  (∃ msg, wf_msg msg ∧ body msg = id_byte id :: p) ∨
  deserialize_payload data len (Some id) = Ok None.
Proof.
  intros Hl Hmax. pose proof (zlen_nonneg p).
  destruct id; unfold deserialize_payload.
  all: try (destruct (Z.eqb_spec len 1); [|by right];
            assert (p = []) as -> by (destruct p; [done|rewrite zlen_cons in *; pose proof (zlen_nonneg p); lia]);
            left).
  - by exists ChokeMsg.
  - by exists UnchokeMsg.
  - by exists InterestedMsg.
  - by exists NotInterestedMsg.
  - destruct (Z.eqb_spec len 5); [|by right]. left.
    destruct (bytes4 p) as (i & Hi & ->); [lia|]. by exists (HaveMsg i).
  - left. exists (BitfieldMsg p). split; [simpl; lia|done].
  - destruct (Z.eqb_spec len 13); [|by right]. left.
    destruct (three_integers p) as (i & b & l & ? & ? & ? & ->); [lia|]. by exists (RequestMsg i b l).
  - destruct (Z.ltb_spec len 9); [by right|]. left.
    destruct (two_integers p) as (i & b & d & ? & ? & Hd & ->); [lia|].
    exists (PieceMsg i b d). split; [simpl; split_and!; auto; lia|done].
  - destruct (Z.eqb_spec len 13); [|by right]. left.
    destruct (three_integers p) as (i & b & l & ? & ? & ? & ->); [lia|]. by exists (CancelMsg i b l).
  - destruct (Z.eqb_spec len 3); [|by right]. left.
    destruct (bytes2 p) as (v & Hv & ->); [lia|]. by exists (PortMsg v).
Qed.

(** [deserialize] on a complete frame. *)
Lemma deserialize_frame len b p post :
  len = zlen p + 1 → len + 4 < 2 ^ 32 →
  deserialize (be_bytes 4 len ++ [b] ++ p ++ post) =
  (msg ← deserialize_payload (be_bytes 4 len ++ [b] ++ p ++ post) len (message_id b);
   Ok (msg, 4 + len)).
Proof.
  intros Hl Hmax. pose proof (zlen_nonneg p). pose proof (zlen_nonneg post). unfold deserialize.
  rewrite (proj2 (Z.ltb_ge _ _)) by (zlens; lia).
  rewrite read_u32_front by (unfold is_u32; lia). cbn [mbind outcome_bind].
  rewrite (proj2 (Z.eqb_neq _ _)) by lia. rewrite wrap_small by lia.
  rewrite (proj2 (Z.ltb_ge _ _)) by (zlens; lia).
  by rewrite (read_next (be_bytes 4 len) [b]) by (zlens; lia).
Qed.

Lemma wire_length msg : zlen (wire msg) = 4 + zlen (body msg).
Proof. unfold wire. zlens. lia. Qed.

Lemma body_cons msg : msg = KeepAliveMsg ∨ ∃ id p, body msg = id_byte id :: p.
Proof. destruct msg; [by left|right; do 2 eexists; reflexivity..]. Qed.

(** A message is read back, whatever follows it. *)
Lemma deserialize_wire msg rest :
  wf_msg msg → deserialize (wire msg ++ rest) = Ok (Some msg, zlen (wire msg)).
Proof.
  intros Hw. pose proof (body_length msg Hw) as [_ Hmax]. rewrite wire_length. unfold wire.
  destruct (body_cons msg) as [->|(id & p & Hb)].
  { change (body KeepAliveMsg) with (@nil byte). rewrite app_nil_r. unfold deserialize.
    rewrite (proj2 (Z.ltb_ge _ _)) by (zlens; pose proof (zlen_nonneg rest); lia).
    by rewrite read_u32_front. }
  rewrite Hb, zlen_cons in *. rewrite <- app_assoc.
  change ((id_byte id :: p) ++ rest) with ([id_byte id] ++ p ++ rest).
  rewrite deserialize_frame by lia. rewrite id_byte_message_id.
  by rewrite (deserialize_payload_body _ id p rest msg).
Qed.

(** The wire is a prefix code: what a stream starts with tells the messages apart. *)
Lemma wire_inj a b rest rest' :
  wf_msg a → wf_msg b → wire a ++ rest = wire b ++ rest' → peer_message_eqb a b = true ∧ rest = rest'.
Proof.
  intros Ha Hb E. pose proof (deserialize_wire a rest Ha) as E1. rewrite E, deserialize_wire in E1 by done.
  injection E1 as Em El. subst b. apply app_inv_head in E. split; [|done]. by apply peer_message_eqb_eq.
Qed.

(** A message that has not come whole is waited for. *)
Lemma deserialize_part msg n :
  wf_msg msg → 0 ≤ n < zlen (wire msg) → deserialize (ztake n (wire msg)) = Ok (None, 0).
Proof.
  intros Hw Hn.
  pose proof (body_length msg Hw) as [H0 Hmax]. rewrite wire_length in Hn. unfold deserialize.
  rewrite zlen_ztake by (rewrite wire_length; lia). destruct (Z.ltb_spec n 4); [done|].
  assert (ztake n (wire msg) = be_bytes 4 (zlen (body msg)) ++ ztake (n - 4) (body msg)) as ->.
  { unfold wire, ztake. rewrite take_app_ge by (pose proof (zlen_be_bytes 4 (zlen (body msg))); unfold zlen in *; lia).
    do 2 f_equal. pose proof (zlen_be_bytes 4 (zlen (body msg))). unfold zlen in *. lia. }
  rewrite read_u32_front by (unfold is_u32; lia). cbn [mbind outcome_bind].
  destruct (Z.eqb_spec (zlen (body msg)) 0); [lia|]. rewrite wrap_small by lia.
  by rewrite (proj2 (Z.ltb_lt _ _)) by lia.
Qed.

(** The length prefix, as read. *)
Definition prefix (data : list byte) : Z := be_value (ztake 4 data).

Lemma prefix_range data : 4 ≤ zlen data → is_u32 (prefix data).
Proof.
  intros. unfold prefix. pose proof (be_value_range (ztake 4 data)).
  by rewrite zlen_ztake in * by lia.
Qed.

Lemma data_prefix data : 4 ≤ zlen data → data = be_bytes 4 (prefix data) ++ zdrop 4 data.
Proof.
  intros Hd. rewrite <- (ztake_zdrop data 4) at 1. f_equal. unfold prefix.
  rewrite <- (be_bytes_value (ztake 4 data)) at 1. f_equal.
  pose proof (zlen_ztake data 4). unfold zlen in *. lia.
Qed.

Lemma read_prefix data : 4 ≤ zlen data → read_uint32_be data 0 = Ok (prefix data).
Proof.
  intros Hd. pose proof (prefix_range data Hd). rewrite (data_prefix data Hd) at 1.
  by apply read_u32_front.
Qed.

(** The cases of a complete frame of [4 + prefix data] bytes. *)
Lemma deserialize_complete data :
  4 ≤ zlen data → prefix data + 4 < 2 ^ 32 → 4 + prefix data ≤ zlen data →
  ∃ r, deserialize data = Ok (r, 4 + prefix data) ∧
  ((r = None ∧ ∀ msg, wf_msg msg → wire msg ≠ ztake (4 + prefix data) data) ∨
   ∃ msg, r = Some msg ∧ wf_msg msg ∧ wire msg = ztake (4 + prefix data) data).
Proof.
  intros Hd Hmax Hlen. pose proof (prefix_range data Hd) as Hp. unfold is_u32 in Hp.
  set (len := prefix data) in *.
  assert (∃ p post, data = be_bytes 4 len ++ p ++ post ∧ zlen p = len) as (p & post & E & Hpl).
  { destruct (split_at len (zdrop 4 data)) as (p & post & E & Hpl & _).
    - rewrite zlen_zdrop by lia. lia.
    - exists p, post. rewrite <- E. split; [by apply data_prefix|done]. }
  assert (ztake (4 + len) data = be_bytes 4 len ++ p) as Et.
  { rewrite E, app_assoc. replace (4 + len) with (zlen (be_bytes 4 len ++ p)) by (zlens; lia).
    apply ztake_app. }
  rewrite Et. clear Et.
  assert (∀ msg, wf_msg msg → wire msg = be_bytes 4 len ++ p →
            deserialize data = Ok (Some msg, 4 + len)) as Hw.
  { intros msg Hw Ew. rewrite E, app_assoc, <- Ew, deserialize_wire by done.
    rewrite Ew. zlens. do 2 f_equal. lia. }
  assert (∀ msg, body msg = p → wire msg = be_bytes 4 len ++ p) as Hwb.
  { intros msg Hb. unfold wire. by rewrite Hb, Hpl. }
  assert ((∃ msg, wf_msg msg ∧ body msg = p) ∨ deserialize data = Ok (None, 4 + len))
    as [(msg & Hwf & Hb)|Hn].
  { destruct p as [|b p].
    - left. by exists KeepAliveMsg.
    - rewrite zlen_cons in Hpl. change ((b :: p) ++ post) with ([b] ++ p ++ post) in E.
      destruct (message_id b) as [id|] eqn:Eid.
      + apply message_id_byte in Eid as ->.
        destruct (payload_shape id p data len) as [?|Hn]; [lia|lia|by left|right].
        rewrite E in Hn |- *. rewrite deserialize_frame, id_byte_message_id by lia.
        by rewrite Hn.
      + right. rewrite E, deserialize_frame by lia. by rewrite Eid. }
  - exists (Some msg). split; [auto|]. right. exists msg. auto.
  - exists None. split; [done|]. left. split; [done|]. intros msg Hwf Ew.
    rewrite (Hw msg Hwf Ew) in Hn. done.
Qed.

(** What [deserialize] does with a prefix so large that [4 + length] wraps. *)
Lemma deserialize_wrapped data b post :
  data = ztake 4 data ++ [b] ++ post → 4 < zlen data → 2 ^ 32 - 4 ≤ prefix data →
  deserialize data =
  (msg ← deserialize_payload data (prefix data) (message_id b);
   Ok (msg, prefix data + 4 - 2 ^ 32)).
Proof.
  intros E Hd Hbig. pose proof (prefix_range data ltac:(lia)) as Hp. unfold is_u32 in Hp.
  unfold deserialize. rewrite (proj2 (Z.ltb_ge _ _)) by lia. rewrite read_prefix by lia.
  cbn [mbind outcome_bind]. rewrite (proj2 (Z.eqb_neq _ _)) by lia.
  assert (u32 (4 + prefix data) = prefix data + 4 - 2 ^ 32) as ->.
  { unfold wrap. rewrite <- (Z_mod_plus_full _ (-1)), Z.mod_small by lia. lia. }
  rewrite (proj2 (Z.ltb_ge _ _)) by lia. rewrite E at 1.
  by rewrite read_next by (rewrite ?zlen_ztake by lia; done || lia).
Qed.

Lemma read_u32_cases data pos :
  (∃ v, read_uint32_be data pos = Ok v) ∨
  read_uint32_be data pos = UB "read past the end of a buffer".
Proof. unfold read_uint32_be, read_at. case_ifs; [left; by eexists|by right]. Qed.

(** ** Properties *)

(** C13: round trip: every message with fields in range and a payload below 4 GiB is
    serialised without writing past its buffer; [deserialize] reads it back from the
    front of any stream, consuming exactly its bytes, and waits for more as long as
    one byte of it is missing. *)
Theorem message_roundtrip (msg : PeerMessage) :
  wf_msg msg →
  ∃ bytes, serialize msg = Ok bytes ∧
    (∀ rest, deserialize (bytes ++ rest) = Ok (Some msg, zlen bytes)) ∧
    (∀ n, 0 ≤ n < zlen bytes → deserialize (ztake n bytes) = Ok (None, 0)).
Proof.
  intros Hw. exists (wire msg). split; [by apply serialize_wire|].
  split; [intros rest; by apply deserialize_wire|]. intros n. by apply deserialize_part.
Qed.

(** C23: [deserialize] on any bytes whose length prefix leaves room for the four
    bytes before it: it asks for more exactly while the frame is incomplete; on a
    complete frame it consumes the frame, reads no byte outside the data, and
    returns the one message whose encoding the frame is, or nothing when it is no
    message's (an unknown identifier, a length the identifier does not have). *)
Theorem deserialize_spec (data : list byte) :
  (4 ≤ zlen data → prefix data + 4 < 2 ^ 32) →
  (zlen data < 4 ∨ zlen data < 4 + prefix data → deserialize data = Ok (None, 0)) ∧
  (4 ≤ zlen data → 4 + prefix data ≤ zlen data →
   ∃ r, deserialize data = Ok (r, 4 + prefix data) ∧
        ∀ msg, wf_msg msg → r = Some msg ↔ serialize msg = Ok (ztake (4 + prefix data) data)).
Proof.
  intros Hmax. split.
  - intros Hinc. unfold deserialize. destruct (Z.ltb_spec (zlen data) 4); [done|].
    pose proof (prefix_range data ltac:(lia)) as Hp. unfold is_u32 in Hp.
    rewrite read_prefix by lia. cbn [mbind outcome_bind].
    destruct (Z.eqb_spec (prefix data) 0); [lia|]. rewrite wrap_small by lia.
    by rewrite (proj2 (Z.ltb_lt _ _)) by lia.
  - intros Hd Hlen. destruct (deserialize_complete data Hd (Hmax Hd) Hlen)
      as (r & E & [[-> Hn]|(m & -> & Hm & Hwm)]).
    + exists None. split; [done|]. intros msg Hw. rewrite serialize_wire by done.
      split; [done|]. intros [= Ew]. by apply Hn in Ew.
    + exists (Some m). split; [done|]. intros msg Hw. rewrite serialize_wire by done. split.
      * intros [= <-]. by rewrite Hwm.
      * intros [= Ew]. f_equal. pose proof (deserialize_wire m [] Hm) as E1.
        pose proof (deserialize_wire msg [] Hw) as E2. rewrite Hwm, <- Ew in E1.
        rewrite E2 in E1. by injection E1.
Qed.

(** A length prefix of 2^32 - 4 or more defeats the completeness check, because
    [4 + length] wraps to at most 3: with five bytes received, a bitfield or piece
    message then copies four gigabytes from the receive buffer, past its end; with
    four bytes received the identifier is read past the end; with another identifier
    at most three bytes are consumed, none when the prefix is exactly 2^32 - 4. *)
Theorem length_prefix_wraps (data : list byte) (b : byte) :
  4 ≤ zlen data < 2 ^ 32 → 2 ^ 32 - 4 ≤ prefix data →
  (zlen data = 4 → deserialize data = UB "read past the end of a buffer") ∧
  (znth data 4 = Some b →
   deserialize data =
   if bool_decide (b = id_byte BitfieldId ∨ b = id_byte PieceId)
   then UB "read past the end of a buffer"
   else Ok (None, prefix data + 4 - 2 ^ 32)).
Proof.
  intros Hd Hbig. pose proof (prefix_range data ltac:(lia)) as Hp. unfold is_u32 in Hp. split.
  - intros H4. unfold deserialize. rewrite H4. cbn [Z.ltb Z.compare Pos.compare Pos.compare_cont].
    rewrite read_prefix by lia. cbn [mbind outcome_bind].
    destruct (Z.eqb_spec (prefix data) 0); [lia|].
    assert (u32 (4 + prefix data) = prefix data + 4 - 2 ^ 32) as ->.
    { unfold wrap. rewrite <- (Z_mod_plus_full _ (-1)), Z.mod_small by lia. lia. }
    rewrite (proj2 (Z.ltb_ge _ _)) by lia. unfold read_at.
    by rewrite (proj2 (Z.leb_gt _ _)) by lia.
  - intros Hb. apply znth_Some in Hb as Hlt.
    assert (data = ztake 4 data ++ [b] ++ zdrop 5 data) as E.
    { rewrite (slice_split 4 1 data) at 1 by lia. do 2 f_equal.
      apply znth_ext; [by rewrite zlen_slice by lia|]. intros i Hi. rewrite zlen_slice in Hi by lia.
      assert (i = 0) as -> by lia. by rewrite znth_slice by lia. }
    rewrite (deserialize_wrapped data b (zdrop 5 data)) by (done || lia).
    assert (∀ pos n, zlen data < pos + n → read_at data pos n = UB "read past the end of a buffer")
      as Hub by (intros; unfold read_at; by rewrite (proj2 (Z.leb_gt _ _)) by lia).
    destruct (message_id b) as [id|] eqn:Eid.
    + apply message_id_byte in Eid as ->.
      destruct id; unfold deserialize_payload;
        rewrite ?(proj2 (Z.eqb_neq (prefix data) _)), ?(proj2 (Z.ltb_ge (prefix data) 9)) by lia;
        cbn [negb]; try done.
      * rewrite Hub by lia. done.
      * destruct (read_u32_cases data 5) as [[i ->] | ->]; [|done]. cbn [mbind outcome_bind].
        destruct (read_u32_cases data 9) as [[bg ->] | ->]; [|done]. cbn [mbind outcome_bind].
        by rewrite Hub by lia.
    + rewrite bool_decide_eq_false_2; [done|]. intros [-> | ->]; done.
Qed.

(** An array of the handshake has its size. *)
Definition wf_handshake (h : HandshakeMsg) : Prop :=
  zlen (reserved h) = 8 ∧ zlen (hs_info_hash h) = 20 ∧ zlen (hs_peer_id h) = 20.

Definition handshake_wire (h : HandshakeMsg) : list byte :=
  [x13] ++ protocol ++ reserved h ++ hs_info_hash h ++ hs_peer_id h.

Lemma zlen_protocol : zlen protocol = 19.
Proof. done. Qed.
#[local] Hint Rewrite zlen_protocol : wire.

Lemma handshake_serialize_wire h :
  wf_handshake h → handshake_serialize h = Ok (handshake_wire h).
Proof.
  intros (Hr & Hi & Hp). unfold handshake_serialize, handshake_wire.
  rewrite !ztake_all by lia. change (zeros 68) with ([] ++ zeros 68). fill.
  rewrite zeros_0 by (zlens; lia). cbn [app]. by rewrite <- !app_assoc.
Qed.

Lemma handshake_wire_length h : wf_handshake h → zlen (handshake_wire h) = 68.
Proof. intros (Hr & Hi & Hp). unfold handshake_wire. zlens. lia. Qed.

Lemma handshake_deserialize_wire h rest :
  wf_handshake h → handshake_deserialize (handshake_wire h ++ rest) = Ok (Some h).
Proof.
  intros Hw. pose proof (handshake_wire_length h Hw) as H68. pose proof (zlen_nonneg rest).
  destruct Hw as (Hr & Hi & Hp). unfold handshake_deserialize.
  rewrite (proj2 (Z.ltb_ge _ _)) by (rewrite zlen_app; lia). unfold handshake_wire.
  rewrite <- !app_assoc.
  rewrite read_front by done. cbn [mbind outcome_bind].
  rewrite bool_decide_eq_true_2 by done. cbn [negb].
  rewrite (read_next [x13] protocol _ 1 19) by done. cbn [mbind outcome_bind].
  rewrite bool_decide_eq_true_2 by done. cbn [negb].
  rewrite (app_assoc [x13]).
  rewrite (read_next _ (reserved h) _ 20 8) by (zlens; lia). cbn [mbind outcome_bind].
  rewrite (app_assoc _ (reserved h)).
  rewrite (read_next _ (hs_info_hash h) _ 28 20) by (zlens; lia). cbn [mbind outcome_bind].
  rewrite (app_assoc _ (hs_info_hash h)).
  rewrite (read_next _ (hs_peer_id h) _ 48 20) by (zlens; lia). cbn [mbind outcome_bind].
  by destruct h.
Qed.

Lemma handshake_deserialize_defined data : defined (handshake_deserialize data).
Proof.
  unfold handshake_deserialize. destruct (Z.ltb_spec (zlen data) 68); [done|].
  assert (∀ pos n, pos + n ≤ 68 → read_at data pos n = Ok (slice pos n data)) as Hrd
    by (intros; by apply read_at_ok; split; [done|lia]).
  rewrite !Hrd by lia. cbn [mbind outcome_bind]. by case_ifs.
Qed.

(** C36: the handshake round trip: serialisation gives 68 bytes, and deserialisation
    accepts exactly the data that starts with such an encoding, returning the
    handshake encoded. *)
Theorem handshake_roundtrip (data : list byte) (h : HandshakeMsg) :
  (wf_handshake h → ∃ bytes, handshake_serialize h = Ok bytes ∧ zlen bytes = 68) ∧
  defined (handshake_deserialize data) ∧
  (handshake_deserialize data = Ok (Some h) ↔
   wf_handshake h ∧ ∃ bytes rest, handshake_serialize h = Ok bytes ∧ data = bytes ++ rest).
Proof.
  split_and!.
  - intros Hw. exists (handshake_wire h). auto using handshake_serialize_wire, handshake_wire_length.
  - apply handshake_deserialize_defined.
  - split.
    + intros H. unfold handshake_deserialize in H. guard_in H as E. apply Z.ltb_ge in E.
      inv_ok H. guard_in H as E0. inv_ok H. guard_in H as E1. do 3 inv_ok H. injection H as <-.
      apply negb_false_iff, bool_decide_eq_true in E0, E1. subst x x0.
      apply read_at_ok in H0 as [E0 _], H1 as [E1 _], H2 as [-> _], H3 as [-> _], H4 as [-> _].
      split.
      { split_and!; apply zlen_slice; lia. }
      exists (ztake 68 data), (zdrop 68 data). rewrite ztake_zdrop. split; [|done].
      rewrite handshake_serialize_wire by (split_and!; apply zlen_slice; lia).
      f_equal. unfold handshake_wire. cbn [reserved hs_info_hash hs_peer_id]. rewrite E0, E1.
      change (ztake 68 data) with (slice 0 68 data).
      rewrite !slice_adjacent by lia. done.
    + intros (Hw & bytes & rest & Eb & ->). rewrite handshake_serialize_wire in Eb by done.
      injection Eb as <-. by apply handshake_deserialize_wire.
Qed.

(** ** Witnesses *)

Lemma message_roundtrip_witness :
  deserialize (wire (RequestMsg 7 16384 16384) ++ [x00]) = Ok (Some (RequestMsg 7 16384 16384), 17).
Proof.
  destruct (message_roundtrip (RequestMsg 7 16384 16384)) as (bytes & E & H & _); [done|].
  injection E as <-. exact (H [x00]).
Defined.

Lemma deserialize_spec_witness :
  ∃ r, deserialize [x00; x00; x00; x05; x04; x00; x00; x01; x02; xff] = Ok (r, 9) ∧
       r = Some (HaveMsg 258).
Proof.
  destruct (deserialize_spec [x00; x00; x00; x05; x04; x00; x00; x01; x02; xff]) as [_ H];
    [done|].
  destruct H as (r & E & Hm); [done|done|]. exists r. split; [exact E|].
  apply Hm; [done|reflexivity].
Defined.

Lemma length_prefix_wraps_witness :
  deserialize [xff; xff; xff; xfc; x05] = UB "read past the end of a buffer".
Proof. apply (length_prefix_wraps [xff; xff; xff; xfc; x05] x05); vm_compute; split || idtac; done. Defined.
