(* ===== verification/Socket.v ===== *)
(** * TCP sockets: [tcp_connection.hpp], [tcp_connection.cpp]

    [TcpConnection] owns one descriptor; it is moved, never copied. The kernel is a
    parameter that answers each call with a return value and [errno]; the model keeps
    which descriptors are open, which do not block, and whether every call was made on
    an open one. A program is a sequence of member calls on a table of objects. *)

From S2P Require Import Prelude.

Inductive ConnectStatus := Connected | InProgress | ConnectError.
#[export] Instance connect_status_eq_dec : EqDecision ConnectStatus.
Proof. solve_decision. Defined.

Module TcpConnection.
Inductive SocketStatus := Success | WouldBlock | Closed | Error.

Record IoResult := mk_io { status : SocketStatus; bytes_transferred : Z }.

(** ** The kernel *)

Definition O_NONBLOCK : Z := 2048.
Definition EAGAIN : Z := 11.
Definition EPIPE : Z := 32.
Definition ECONNRESET : Z := 104.
Definition EINPROGRESS : Z := 115.

Inductive SysCall :=
| SysSocket
| SysGetFl (fd : Z)
| SysSetFl (fd flags : Z)
| SysConnect (fd addr port : Z)
| SysSend (fd : Z) (data : list byte)
| SysRecv (fd len : Z)
| SysClose (fd : Z).

(** [used_open]: no call so far named a descriptor that was not open. *)
Record Os := mk_os { opened : gset Z; nonblocking : gset Z; used_open : bool }.

Definition Sys (A : Type) : Type := Os → A * Os.
#[export] Instance Sys_ret : MRet Sys := λ A a s, (a, s).
#[export] Instance Sys_bind : MBind Sys := λ A B f m s, let '(a, s) := m s in f a s.

Definition named (c : SysCall) : option Z :=
  match c with
  | SysSocket => None
  | SysGetFl fd | SysSetFl fd _ | SysConnect fd _ _ | SysSend fd _ | SysRecv fd _
  | SysClose fd => Some fd
  end.

Section Socket.
(** The kernel's answers, and [inet_pton(AF_INET, ...)]. *)
Variable answer : Os → SysCall → Z * Z.
Variable inet_pton : list byte → option Z.

(** What a call does to the descriptors. *)
Definition effect (c : SysCall) (ret : Z) (s : Os) : Os :=
  let used := used_open s && match named c with Some fd => bool_decide (fd ∈ opened s) | None => true end in
  match c with
  | SysSocket =>
      if 0 <=? ret then mk_os ({[ret]} ∪ opened s) (nonblocking s ∖ {[ret]}) used
      else mk_os (opened s) (nonblocking s) used
  | SysSetFl fd flags =>
      if 0 <=? ret then
        mk_os (opened s)
          (if Z.testbit flags 11 then {[fd]} ∪ nonblocking s else nonblocking s ∖ {[fd]}) used
      else mk_os (opened s) (nonblocking s) used
  | SysClose fd => mk_os (opened s ∖ {[fd]}) (nonblocking s ∖ {[fd]}) used
  | _ => mk_os (opened s) (nonblocking s) used
  end.

Definition sys (c : SysCall) : Sys (Z * Z) := λ s, (answer s c, effect c (answer s c).1 s).

(** ** The members of [TcpConnection]; the object is its [fd_] *)

Definition is_open (fd_ : Z) : bool := negb (fd_ =? -1).

Definition close (fd_ : Z) : Sys Z :=
  if is_open fd_ then _ ← sys (SysClose fd_); mret (-1) else mret fd_.

(** [std::string(ip).c_str()]: up to the first null byte. *)
Fixpoint c_str (s : list byte) : list byte :=
  match s with [] => [] | b :: s => if bool_decide (b = x00) then [] else b :: c_str s end.

Definition connect_async (ip : list byte) (port : Z) (fd_ : Z) : Sys (ConnectStatus * Z) :=
  _ ← close fd_;
  '(fd_, _) ← sys SysSocket;
  if fd_ <? 0 then mret (ConnectError, fd_)
  else
    '(flags, _) ← sys (SysGetFl fd_);
    nonblock ← (if flags <? 0 then mret (-1, 0) else sys (SysSetFl fd_ (Z.lor flags O_NONBLOCK)));
    if nonblock.1 <? 0 then fd_ ← close fd_; mret (ConnectError, fd_)
    else
      match inet_pton (c_str ip) with
      | None => fd_ ← close fd_; mret (ConnectError, fd_)
      | Some addr =>
          '(ret, errno) ← sys (SysConnect fd_ addr port);
          if ret =? 0 then mret (Connected, fd_)
          else if errno =? EINPROGRESS then mret (InProgress, fd_)
          else fd_ ← close fd_; mret (ConnectError, fd_)
      end.

Definition send (data : list byte) (fd_ : Z) : Sys IoResult :=
  if fd_ =? -1 then mret (mk_io Error 0)
  else if bool_decide (data = []) then mret (mk_io Success 0)
  else
    '(ret, errno) ← sys (SysSend fd_ data);
    mret (if 0 <=? ret then mk_io Success ret
          else if errno =? EAGAIN then mk_io WouldBlock 0
          else if (errno =? EPIPE) || (errno =? ECONNRESET) then mk_io Closed 0
          else mk_io Error 0).

(** [len]: the size of the buffer. *)
Definition recv (len : Z) (fd_ : Z) : Sys IoResult :=
  if fd_ =? -1 then mret (mk_io Error 0)
  else if len =? 0 then mret (mk_io Success 0)
  else
    '(ret, errno) ← sys (SysRecv fd_ len);
    mret (if 0 <? ret then mk_io Success ret
          else if ret =? 0 then mk_io Closed 0
          else if errno =? EAGAIN then mk_io WouldBlock 0
          else if errno =? ECONNRESET then mk_io Closed 0
          else mk_io Error 0).

(** ** Programs over a table of objects *)

(** The member calls: the constructors, the two moves, the operations and the
    destructor. [Wrap] is given a descriptor someone else opened, as [accept] does. *)
Inductive Op :=
| Default (id : nat)
| Wrap (id : nat) (fd : Z)
| MoveNew (id other : nat)
| MoveAssign (id other : nat)
| ConnectAsync (id : nat) (ip : list byte) (port : Z)
| Send (id : nat) (data : list byte)
| Recv (id : nat) (len : Z)
| Close (id : nat)
| Destroy (id : nat).

Abbreviation Objects := (gmap nat Z).

(** [None]: not a C++ program (an object that does not exist, or exists already). *)
Definition exec (op : Op) (st : Objects * Os) : option (Objects * Os) :=
  let '(objs, s) := st in
  match op with
  | Default id => match objs !! id with None => Some (<[id := -1]> objs, s) | Some _ => None end
  | Wrap id fd =>
      if bool_decide (objs !! id = None ∧ 0 ≤ fd ∧ fd ∉ opened s) then
        Some (<[id := fd]> objs, mk_os ({[fd]} ∪ opened s) (nonblocking s) (used_open s))
      else None
  | MoveNew id other =>
      match objs !! id, objs !! other with
      | None, Some fd => Some (<[id := fd]> (<[other := -1]> objs), s)
      | _, _ => None
      end
  | MoveAssign id other =>
      match objs !! id, objs !! other with
      | Some fd_, Some fd =>
          if bool_decide (id = other) then Some (objs, s)
          else let '(_, s) := close fd_ s in Some (<[id := fd]> (<[other := -1]> objs), s)
      | _, _ => None
      end
  | ConnectAsync id ip port =>
      fd_ ← objs !! id; let '(_, fd_, s) := connect_async ip port fd_ s in Some (<[id := fd_]> objs, s)
  | Send id data => fd_ ← objs !! id; Some (objs, (send data fd_ s).2)
  | Recv id len => fd_ ← objs !! id; Some (objs, (recv len fd_ s).2)
  | Close id => fd_ ← objs !! id; let '(fd_, s) := close fd_ s in Some (<[id := fd_]> objs, s)
  | Destroy id => fd_ ← objs !! id; Some (delete id objs, (close fd_ s).2)
  end.

Fixpoint exec_all (ops : list Op) (st : Objects * Os) : option (Objects * Os) :=
  match ops with [] => Some st | op :: ops => st ← exec op st; exec_all ops st end.

(** No objects, and nothing open. *)
Definition init : Objects * Os := (∅, mk_os ∅ ∅ true).

(** ** Ownership *)

(** A new socket gets a descriptor that is not in use, or none. *)
Hypothesis socket_fresh : ∀ s,
  (answer s SysSocket).1 = -1 ∨ (0 ≤ (answer s SysSocket).1 ∧ (answer s SysSocket).1 ∉ opened s).

(** The descriptor an object owns, and the one it owns while in use. *)
Definition own (fd : Z) : gset Z := if bool_decide (fd = -1) then ∅ else {[fd]}.
Definition holds (fd : Z) (s : Os) : Prop := fd = -1 ∨ (0 ≤ fd ∧ fd ∈ opened s).

(** The open descriptors are exactly those of the objects, each of one object, and
    every call so far was on an open one. *)
Definition owns (st : Objects * Os) : Prop :=
  (∀ id fd, st.1 !! id = Some fd → holds fd st.2) ∧
  (∀ id id' fd, st.1 !! id = Some fd → st.1 !! id' = Some fd → fd ≠ -1 → id = id') ∧
  (∀ fd, fd ∈ opened st.2 → 0 ≤ fd ∧ ∃ id, st.1 !! id = Some fd) ∧
  used_open st.2 = true.

(** One object's descriptor, [fd], was closed and [fd'] taken instead. *)
Definition swapped (fd fd' : Z) (s s' : Os) : Prop :=
  (fd' = -1 ∨ 0 ≤ fd' ∧ fd' ∉ opened s ∖ own fd) ∧
  opened s' = own fd' ∪ (opened s ∖ own fd) ∧ used_open s' = true.

Lemma own_none : own (-1) = ∅.
Proof. done. Qed.
Lemma own_some fd : 0 ≤ fd → own fd = {[fd]}.
Proof. intros H. unfold own. rewrite bool_decide_eq_false_2 by lia. done. Qed.

Lemma close_run fd s :
  holds fd s → used_open s = true →
  ∃ s', close fd s = (-1, s') ∧ opened s' = opened s ∖ own fd ∧ used_open s' = true ∧
    nonblocking s' = nonblocking s ∖ own fd.
Proof.
  unfold close, is_open. intros Hh Hu. destruct (Z.eqb_spec fd (-1)) as [->|Hne]; simpl.
  - rewrite own_none. exists s. split_and!; set_solver.
  - destruct Hh as [?|[H0 Ho]]; [done|]. rewrite own_some by done.
    eexists. split; [reflexivity|]. simpl. by rewrite Hu, bool_decide_eq_true_2.
Qed.

(** A call on an open descriptor, other than closing it. *)
Lemma sys_run c fd s :
  named c = Some fd → c ≠ SysClose fd → fd ∈ opened s → used_open s = true →
  ∃ s', sys c s = (answer s c, s') ∧ opened s' = opened s ∧ used_open s' = true ∧
    match c with
    | SysSetFl _ flags =>
        0 ≤ (answer s c).1 → Z.testbit flags 11 = true → fd ∈ nonblocking s'
    | _ => nonblocking s' = nonblocking s
    end.
Proof.
  intros Hn Hc Ho Hu. unfold sys. eexists. split; [reflexivity|].
  destruct c; simplify_eq/=; rewrite Hu; try (by rewrite bool_decide_eq_true_2); [].
  case_ifs; simpl; rewrite bool_decide_eq_true_2 by done; split_and!; try done; [set_solver|].
  intros. lia.
Qed.

(** Giving up a descriptor just taken. *)
Lemma abandon new s1 s fd_out :
  0 ≤ new → new ∉ opened s1 → opened s = {[new]} ∪ opened s1 → used_open s = true →
  fd_out = opened s1 →
  ∃ s', close new s = (-1, s') ∧ opened s' = fd_out ∧ used_open s' = true.
Proof.
  intros H0 Hnew Ho Hu ->. destruct (close_run new s) as (s' & E & Ho' & Hu' & _).
  - right. set_solver.
  - done.
  - exists s'. split_and!; try done. rewrite Ho', own_some, Ho by done. set_solver.
Qed.

(** [connect_async] closes what the object had and takes a new descriptor, which does
    not block, or none; it has one exactly when it does not return an error. *)
Lemma connect_async_run ip port fd s :
  holds fd s → used_open s = true →
  ∃ status fd' s', connect_async ip port fd s = (status, fd', s') ∧ swapped fd fd' s s' ∧
    (status = ConnectError ↔ fd' = -1) ∧ (fd' ≠ -1 → fd' ∈ nonblocking s').
Proof.
  intros Hh Hu. destruct (close_run fd s Hh Hu) as (s1 & E1 & Ho1 & Hu1 & _).
  assert (∀ s', opened s' = opened s1 → used_open s' = true → swapped fd (-1) s s') as Hnone.
  { intros s' Ho' Hu'. unfold swapped. rewrite own_none, Ho', Ho1. split; [by left|]. split; [set_solver|done]. }
  unfold connect_async, mbind, Sys_bind, mret, Sys_ret. rewrite E1. unfold sys at 1.
  pose proof (socket_fresh s1) as Hf. destruct (answer s1 SysSocket) as [new e]. simpl in Hf.
  cbn [fst]. destruct (Z.ltb_spec new 0).
  { destruct Hf as [->|[? _]]; [|lia]. do 3 eexists. split; [reflexivity|].
    split; [|done]. apply Hnone; [done|]. simpl. by rewrite Hu1. }
  destruct Hf as [?|[_ Hf]]; [lia|].
  set (s2 := effect SysSocket new s1).
  assert (opened s2 = {[new]} ∪ opened s1 ∧ used_open s2 = true) as [Ho2 Hu2].
  { unfold s2, effect. rewrite (proj2 (Z.leb_le 0 new)) by lia. simpl. by rewrite Hu1. }
  assert (∀ s', opened s' = {[new]} ∪ opened s1 → used_open s' = true → swapped fd new s s') as Hnew.
  { intros s' Ho' Hu'. unfold swapped. rewrite (own_some new), Ho', <- Ho1 by done.
    split; [by right|done]. }
  clearbody s2.
  destruct (sys_run (SysGetFl new) new s2) as (s3 & E3 & Ho3 & Hu3 & _); [done|done|set_solver|done|].
  assert (∀ s', opened s' = {[new]} ∪ opened s1 → used_open s' = true →
    ∃ status fd' s'', (let '(fd_, s'') := close new s' in (ConnectError, fd_, s'')) =
      (status, fd', s'') ∧ swapped fd fd' s s'' ∧ (status = ConnectError ↔ fd' = -1) ∧
      (fd' ≠ -1 → fd' ∈ nonblocking s'')) as Hgive.
  { intros s' Ho' Hu'. destruct (abandon new s1 s' (opened s1)) as (s'' & E & Ho'' & Hu''); try done.
    rewrite E. do 3 eexists. split; [reflexivity|]. split; [by apply Hnone|done]. }
  rewrite E3. destruct (answer s2 _) as [flags e3]. destruct (Z.ltb_spec flags 0); [simpl|].
  { apply Hgive; [congruence|done]. }
  destruct (sys_run (SysSetFl new (Z.lor flags O_NONBLOCK)) new s3) as (s4 & E4 & Ho4 & Hu4 & Hnb);
    [done|done|set_solver|done|].
  rewrite E4. destruct (answer s3 _) as [ok e4]. cbn [fst] in Hnb |- *.
  destruct (Z.ltb_spec ok 0); [apply Hgive; [congruence|done]|].
  specialize (Hnb ltac:(lia)). rewrite Z.lor_spec in Hnb.
  specialize (Hnb (orb_true_r _)).
  destruct (inet_pton _) as [addr|]; [|apply Hgive; [congruence|done]].
  destruct (sys_run (SysConnect new addr port) new s4) as (s5 & E5 & Ho5 & Hu5 & Hnb5);
    [done|done|set_solver|done|].
  rewrite E5. destruct (answer s4 _) as [ret errno].
  assert (new ≠ -1 ∧ swapped fd new s s5) as [Hne Hsw] by (split; [lia|apply Hnew; [congruence|done]]).
  destruct (ret =? 0); [|destruct (errno =? EINPROGRESS)].
  1-2: (do 3 eexists; split; [reflexivity|]; split; [done|]; split; [done|by rewrite Hnb5]).
  apply Hgive; [congruence|done].
Qed.

Lemma send_run data fd s : holds fd s → used_open s = true →
  ∃ r s', send data fd s = (r, s') ∧ opened s' = opened s ∧ used_open s' = true.
Proof.
  intros Hh Hu. unfold send. destruct (Z.eqb_spec fd (-1)); [by exists (mk_io Error 0), s|].
  case_bool_decide; [by exists (mk_io Success 0), s|].
  destruct Hh as [?|[_ Ho]]; [done|].
  destruct (sys_run (SysSend fd data) fd s) as (s' & E & Ho' & Hu' & _); [done..|].
  unfold mbind, Sys_bind. rewrite E. destruct (answer s _). eauto.
Qed.

Lemma recv_run len fd s : holds fd s → used_open s = true →
  ∃ r s', recv len fd s = (r, s') ∧ opened s' = opened s ∧ used_open s' = true.
Proof.
  intros Hh Hu. unfold recv. destruct (Z.eqb_spec fd (-1)); [by exists (mk_io Error 0), s|].
  destruct (len =? 0); [by exists (mk_io Success 0), s|].
  destruct Hh as [?|[_ Ho]]; [done|].
  destruct (sys_run (SysRecv fd len) fd s) as (s' & E & Ho' & Hu' & _); [done..|].
  unfold mbind, Sys_bind. rewrite E. destruct (answer s _). eauto.
Qed.

(** Replacing the descriptor of one object keeps ownership. *)
Lemma owns_swap objs s s' id fd fd' :
  owns (objs, s) → objs !! id = Some fd → swapped fd fd' s s' → owns (<[id := fd']> objs, s').
Proof.
  intros (Hh & Hi & Ho & _) Hid (Hfd & Ho' & Hu). unfold owns, holds in *; simpl in *.
  assert (∀ j g, objs !! j = Some g → j ≠ id → g ≠ -1 → g ∈ opened s ∖ own fd ∧ 0 ≤ g) as Hother.
  { intros j g Hj Hne Hg. destruct (Hh j g Hj) as [?|[? ?]]; [done|]. split; [|done].
    apply elem_of_difference. split; [done|]. unfold own. case_bool_decide; [set_solver|].
    intros ->%elem_of_singleton. by eapply Hne, Hi. }
  assert (fd' ≠ -1 → fd' ∈ own fd') as Hown.
  { intros. unfold own. rewrite bool_decide_eq_false_2 by done. set_solver. }
  rewrite Ho'. split_and!; [| | |done].
  - intros j g [[<- <-]|[Hne Hj]]%lookup_insert_Some.
    + destruct Hfd as [?|[? _]]; [by left|]. right. split; [done|]. apply elem_of_union_l, Hown. lia.
    + destruct (decide (g = -1)); [by left|]. right. destruct (Hother j g); auto. split; [done|set_solver].
  - intros j k g Hj Hk Hg.
    apply lookup_insert_Some in Hj as [[Ej Eg]|[Hj1 Hj]];
      apply lookup_insert_Some in Hk as [[Ek Eg']|[Hk1 Hk]]; [congruence|subst id g|subst id g|].
    + destruct Hfd as [?|[_ Hfd]]; [done|]. by destruct (Hother k fd').
    + destruct Hfd as [?|[_ Hfd]]; [done|]. by destruct (Hother j fd').
    + by eapply Hi.
  - intros g [Hg|Hg]%elem_of_union.
    + unfold own in Hg. case_bool_decide; [set_solver|]. apply elem_of_singleton in Hg as ->.
      split; [lia|]. exists id. apply lookup_insert_eq.
    + apply elem_of_difference in Hg as [Hg Hnot]. destruct (Ho g Hg) as [H0 [j Hj]].
      split; [done|]. exists j.
      rewrite lookup_insert_ne; [done|]. intros ->. rewrite Hid in Hj. injection Hj as ->.
      apply Hnot. rewrite own_some by done. set_solver.
Qed.

(** An object without a descriptor may come and go. *)
Lemma owns_empty objs s id :
  objs !! id = None → owns (objs, s) → owns (<[id := -1]> objs, s).
Proof.
  intros Hid (Hh & Hi & Ho & Hu). unfold owns; simpl in *. split_and!; [| | |done].
  - intros j g [[_ <-]|[_ Hj]]%lookup_insert_Some; [by left|eauto].
  - intros j k g Hj Hk Hg. rewrite lookup_insert_Some in Hj. rewrite lookup_insert_Some in Hk.
    destruct Hj as [[_ ?]|[_ Hj]], Hk as [[_ ?]|[_ Hk]]; try congruence. eauto.
  - intros g Hg. destruct (Ho g Hg) as [? [j Hj]]. split; [done|]. exists j.
    rewrite lookup_insert_ne; [done|congruence].
Qed.

Lemma owns_delete objs s id :
  objs !! id = Some (-1) → owns (objs, s) → owns (delete id objs, s).
Proof.
  intros Hid (Hh & Hi & Ho & Hu). unfold owns; simpl in *. split_and!; [| | |done].
  - intros j g [_ Hj]%lookup_delete_Some. eauto.
  - intros j k g [_ Hj]%lookup_delete_Some [_ Hk]%lookup_delete_Some. eauto.
  - intros g Hg. destruct (Ho g Hg) as [? [j Hj]]. split; [done|]. exists j.
    rewrite lookup_delete_ne; [done|]. intros ->. assert (g = -1) by congruence. lia.
Qed.

(** A descriptor moves to an object that has none. *)
Lemma owns_move objs s id other fd :
  owns (objs, s) → objs !! other = Some fd → id ≠ other →
  objs !! id = None ∨ objs !! id = Some (-1) →
  owns (<[id := fd]> (<[other := -1]> objs), s).
Proof.
  intros (Hh & Hi & Ho & Hu) Hother Hne Hid. unfold owns; simpl in *.
  assert (∀ j g, <[id := fd]> (<[other := -1]> objs) !! j = Some g → g ≠ -1 →
    ∃ j', objs !! j' = Some g ∧ (j = id ↔ j' = other) ∧ (j ≠ id → j' = j)) as Hinv.
  { intros j g [[<- <-]|[Hj1 [[<- <-]|[Hj2 Hj]]%lookup_insert_Some]]%lookup_insert_Some Hg; [|done|].
    - by exists other.
    - exists j. split_and!; [done|split; congruence|done]. }
  split_and!; [| | |done].
  - intros j g Hj. destruct (decide (g = -1)); [by left|].
    destruct (Hinv j g) as (j' & Hj' & _); [done..|]. eauto.
  - intros j k g Hj Hk Hg.
    destruct (Hinv j g) as (j' & Hj' & Ej & Nj); [done..|].
    destruct (Hinv k g) as (k' & Hk' & Ek & Nk); [done..|].
    pose proof (Hi _ _ _ Hj' Hk' Hg) as Ejk. destruct (decide (j = id)), (decide (k = id)); naive_solver.
  - intros g Hg. destruct (Ho g Hg) as [? [j Hj]]. split; [done|].
    destruct (decide (j = other)) as [->|Hjo].
    + exists id. rewrite lookup_insert_eq. congruence.
    + exists j. rewrite !lookup_insert_ne; [done|congruence|]. intros <-.
      destruct Hid as [Hid|Hid]; rewrite Hid in Hj; [done|]. injection Hj as <-. lia.
Qed.

(** The parts of ownership an operation on one object uses. *)
Lemma owns_holds objs s id fd :
  owns (objs, s) → objs !! id = Some fd → holds fd s ∧ used_open s = true.
Proof. intros (Hh & _ & _ & Hu) Hid. split; [by eapply Hh|done]. Qed.

Lemma owns_same objs s s' :
  owns (objs, s) → opened s' = opened s → used_open s' = true → owns (objs, s').
Proof. intros (Hh & Hi & Ho & _) E Hu. unfold owns, holds in *. simpl in *. by rewrite E. Qed.

Lemma owns_close objs s id fd s' :
  owns (objs, s) → objs !! id = Some fd → close fd s = (-1, s') → owns (<[id := -1]> objs, s').
Proof.
  intros H Hid E. destruct (owns_holds _ _ _ _ H Hid) as [Hh Hu].
  destruct (close_run fd s Hh Hu) as (s1 & E1 & Ho & Hu1 & _). rewrite E1 in E. injection E as <-.
  eapply owns_swap; [done..|]. unfold swapped. rewrite own_none, Ho.
  split; [by left|]. split; [set_solver|done].
Qed.

Lemma exec_owns op st st' : owns st → exec op st = Some st' → owns st'.
Proof.
  destruct st as [objs s]. intros H E.
  destruct op as [id|id fd|id other|id other|id ip port|id data|id len|id|id]; cbn [exec] in E;
    destruct (objs !! id) as [fd_|] eqn:Eid; cbn [mbind option_bind] in E; try done;
    try destruct (owns_holds _ _ _ _ H Eid) as [Hh Hu].
  - injection E as <-. by apply owns_empty.
  - case_bool_decide as Hv; [|done]. destruct Hv as (_ & H0 & Hfd). injection E as <-.
    rewrite <- (insert_insert_eq objs id fd (-1)).
    eapply owns_swap; [by apply owns_empty|apply lookup_insert_eq|].
    unfold swapped. simpl. rewrite own_none, own_some by done.
    split; [right; set_solver|]. split; [set_solver|]. by destruct H as (_ & _ & _ & ?).
  - destruct (objs !! other) as [fd|] eqn:Eo; [|done]. injection E as <-.
    apply owns_move; [done..|congruence|by left].
  - destruct (objs !! other) as [fd|] eqn:Eo; [|done].
    case_bool_decide as Hio; [by simplify_eq|].
    destruct (close_run fd_ s Hh Hu) as (s1 & E1 & _). rewrite E1 in E. injection E as <-.
    rewrite <- (insert_insert_eq (<[other := -1]> objs) id fd (-1)), (insert_insert_ne objs id other) by done.
    apply owns_move; [by eapply owns_close|by rewrite lookup_insert_ne|done|].
    right. apply lookup_insert_eq.
  - destruct (connect_async_run ip port fd_ s Hh Hu) as (st & fd' & s1 & E1 & Hsw & _).
    rewrite E1 in E. injection E as <-. by eapply owns_swap.
  - destruct (send_run data fd_ s Hh Hu) as (r & s1 & E1 & Ho & Hu1). rewrite E1 in E.
    injection E as <-. by eapply owns_same.
  - destruct (recv_run len fd_ s Hh Hu) as (r & s1 & E1 & Ho & Hu1). rewrite E1 in E.
    injection E as <-. by eapply owns_same.
  - destruct (close_run fd_ s Hh Hu) as (s1 & E1 & _). rewrite E1 in E. injection E as <-.
    by eapply owns_close.
  - destruct (close_run fd_ s Hh Hu) as (s1 & E1 & _). rewrite E1 in E. injection E as <-.
    rewrite <- (delete_insert_eq objs id (-1)). apply owns_delete; [apply lookup_insert_eq|].
    by eapply owns_close.
Qed.

Lemma exec_all_owns ops st st' : owns st → exec_all ops st = Some st' → owns st'.
Proof.
  revert st. induction ops as [|op ops IH]; intros st H E; cbn [exec_all] in E; [congruence|].
  destruct (exec op st) as [st1|] eqn:E1; [|done]. eapply IH; [|exact E]. by eapply exec_owns.
Qed.

Lemma init_owns : owns init.
Proof. unfold owns, init. simpl. split_and!; [done..| |done]. set_solver. Qed.

(** C35: Descriptors are owned. Whatever the program does with its connections, moves
    included, each open descriptor belongs to exactly one object, no call was ever made
    on a descriptor already closed, and once the objects are gone nothing stays open.
    A connection attempt closes what the object had and ends with a descriptor exactly
    when it does not report an error; that descriptor does not block. *)
Theorem descriptors_owned (ops : list Op) (objs : Objects) (s : Os) :
  exec_all ops init = Some (objs, s) →
  owns (objs, s) ∧ (objs = ∅ → opened s = ∅) ∧
  ∀ id ip port fd, objs !! id = Some fd →
    ∃ status fd' s', connect_async ip port fd s = (status, fd', s') ∧
      (status = ConnectError ↔ fd' = -1) ∧ (fd' ≠ -1 → fd' ∈ nonblocking s') ∧
      opened s' = own fd' ∪ (opened s ∖ own fd) ∧ used_open s' = true.
Proof.
  intros E. pose proof (exec_all_owns _ _ _ init_owns E) as H. split; [done|]. split.
  - intros ->. apply set_eq. intros fd. split; [|set_solver]. intros Hfd.
    destruct H as (_ & _ & Ho & _). by destruct (Ho fd Hfd) as [_ [id Hid]].
  - intros id ip port fd Hid. destruct (owns_holds _ _ _ _ H Hid) as [Hh Hu].
    destruct (connect_async_run ip port fd s Hh Hu) as (st & fd' & s' & E' & (_ & Ho & Hu') & He & Hn).
    by exists st, fd', s'.
Qed.
End Socket.

(** ** Witness *)

(** A kernel with two descriptors to give, in which connections are under way. *)
Definition two_descriptors (s : Os) (c : SysCall) : Z * Z :=
  match c with
  | SysSocket =>
      if bool_decide (3 ∈ opened s) then if bool_decide (4 ∈ opened s) then (-1, 24) else (4, 0)
      else (3, 0)
  | SysConnect _ _ _ => (-1, EINPROGRESS)
  | SysSend _ data => (zlen data, 0)
  | _ => (0, 0)
  end.

Definition loopback (ip : list byte) : option Z := Some 2130706433.

(** Two connections, the first moved over the second and used. *)
Definition moves : list Op :=
  [Default 1; ConnectAsync 1 (bs "127.0.0.1") 6881; Default 2;
   ConnectAsync 2 (bs "127.0.0.1") 6882; MoveAssign 2 1; Send 2 (bs "x"); Send 1 (bs "x");
   MoveNew 3 2; ConnectAsync 1 (bs "127.0.0.1") 6883; Destroy 2].

Definition after_moves : gmap nat Z * Os :=
  default init (exec_all two_descriptors loopback moves init).

Lemma two_descriptors_fresh s :
  (two_descriptors s SysSocket).1 = -1 ∨
  (0 ≤ (two_descriptors s SysSocket).1 ∧ (two_descriptors s SysSocket).1 ∉ opened s).
Proof. simpl. repeat case_bool_decide; simpl; auto with lia. Qed.

Lemma descriptors_owned_witness :
  exec_all two_descriptors loopback moves init = Some after_moves ∧
  after_moves.1 = {[1%nat := 4; 3%nat := 3]} ∧ owns after_moves.
Proof.
  assert (exec_all two_descriptors loopback moves init = Some after_moves) as E
    by (vm_compute; reflexivity).
  split; [exact E|]. split; [vm_compute; reflexivity|].
  rewrite (surjective_pairing after_moves) in E |- *.
  destruct (descriptors_owned two_descriptors loopback two_descriptors_fresh moves
    after_moves.1 after_moves.2 E) as [H _]. exact H.
Defined.
End TcpConnection.
