(* ===== verification/EventLoop.v ===== *)
(** * Event loop: [event_loop.hpp], [event_loop.cpp]

    The descriptors the loop watches and their callbacks ([A] stands for what a
    callback is). The answer of [epoll_ctl] to an addition is an argument; its
    failures on modification and deletion are ignored by the callers. *)

From S2P Require Import Prelude.

(** The bits of [struct epoll_event::events]. *)
Definition EPOLLIN : Z := 1.
Definition EPOLLOUT : Z := 4.
Definition EPOLLERR : Z := 8.
Definition EPOLLHUP : Z := 16.
Definition EPOLLRDHUP : Z := 8192.

(** [events & mask]. *)
Definition any_of (events mask : Z) : bool := negb (Z.land events mask =? 0).

(** The constructor: [epoll_fd] is the answer of [epoll_create1]. *)
Definition create_loop (epoll_fd : Z) : outcome Z :=
  if epoll_fd <? 0 then Throw (runtime_error "EventLoop: failed to create epoll instance")
  else Ok epoll_fd.

Section Fds.
Context {A : Type}.

(** [fd_callbacks_], and the events epoll has for each descriptor. *)
Record Fds := mk_fds { fd_callbacks : gmap Z A; interests : gmap Z Z }.

Definition no_fds : Fds := mk_fds ∅ ∅.

(** A callback is always given in these sources. [ctl_ok]: [EPOLL_CTL_ADD] succeeds. *)
Definition register_fd (ctl_ok : bool) (fd events : Z) (callback : A) (l : Fds) : bool * Fds :=
  if fd <? 0 then (false, l)
  else if negb ctl_ok then (false, l)
  else (true, mk_fds (<[fd := callback]> (fd_callbacks l)) (<[fd := events]> (interests l))).

Definition modify_fd (fd events : Z) (l : Fds) : Fds :=
  if (fd <? 0) || bool_decide (fd_callbacks l !! fd = None) then l
  else mk_fds (fd_callbacks l) (<[fd := events]> (interests l)).

Definition unregister_fd (fd : Z) (l : Fds) : Fds :=
  if fd <? 0 then l
  else
    match fd_callbacks l !! fd with
    | None => l
    | Some _ => mk_fds (delete fd (fd_callbacks l)) (delete fd (interests l))
    end.

(** The descriptors with a callback are the ones epoll watches. *)
Definition fds_wf (l : Fds) : Prop := dom (fd_callbacks l) = dom (interests l).

Lemma register_fd_wf ok fd ev cb l : fds_wf l → fds_wf (register_fd ok fd ev cb l).2.
Proof. unfold fds_wf, register_fd. intros H. case_ifs; simpl; rewrite ?dom_insert_L, ?H; done. Qed.

Lemma modify_fd_wf fd ev l : fds_wf l → fds_wf (modify_fd fd ev l).
Proof.
  unfold fds_wf, modify_fd. intros H. destruct (_ || _) eqn:E; [done|]. simpl. rewrite dom_insert_L.
  apply orb_false_iff in E as [_ E%bool_decide_eq_false].
  assert (fd ∈ dom (fd_callbacks l)) by (apply elem_of_dom; destruct (fd_callbacks l !! fd); done).
  set_solver.
Qed.

Lemma unregister_fd_wf fd l : fds_wf l → fds_wf (unregister_fd fd l).
Proof.
  unfold fds_wf, unregister_fd. intros H. destruct (fd <? 0); [done|].
  destruct (_ !! fd); [|done]. simpl. rewrite !dom_delete_L. congruence.
Qed.

Lemma unregister_fd_gone fd l : 0 ≤ fd → fd_callbacks (unregister_fd fd l) !! fd = None.
Proof.
  intros. unfold unregister_fd. rewrite (proj2 (Z.ltb_ge _ _)) by lia.
  destruct (fd_callbacks l !! fd) eqn:E; [|done]. apply lookup_delete_eq.
Qed.

End Fds.
Arguments Fds A : clear implicits.
