(* ===== verification/Timers.v ===== *)
(** * Event loop: timers and the polling loop of [event_loop.cpp]

    [std::priority_queue] is the interface [TimerQueue]: of timers with equal deadlines
    the standard does not say which comes first, so the theorems hold for every choice.
    What a callback does is a function on the loop, with an outcome; it may register and
    cancel timers and descriptors and shut the loop down. The descriptors' callbacks are
    part of the rest of the program, whose type is a parameter. [steady_clock::now()] is read from a
    monotone sequence, in nanoseconds, and what [epoll_wait] answers from a script. *)

From S2P Require Import Prelude EventLoop.

Section Timer.
Context {CB : Type}.
Record Timer := mk_timer { t_id : Z; deadline : Z; callback : CB }.

(** [std::priority_queue<Timer, std::vector<Timer>, std::greater<Timer>>]. *)
Class TimerQueue := {
  queue : Type;
  queue_empty : queue;
  push : Timer → queue → queue;
  top : queue → option Timer;
  pop : queue → queue;
  elems : queue → list Timer;
  elems_empty : elems queue_empty = [];
  elems_push t q : elems (push t q) ≡ₚ t :: elems q;
  top_none q : top q = None → elems q = [];
  top_pop q t : top q = Some t → elems q ≡ₚ t :: elems (pop q);
  top_least q t u : top q = Some t → u ∈ elems q → deadline t ≤ deadline u;
}.
End Timer.
Arguments Timer CB : clear implicits.
Arguments TimerQueue CB : clear implicits.

(** ** The loop *)

Section Loop.
Context {CB W : Type} `{TQ : TimerQueue CB}.

(** The members of [EventLoop] but for the descriptors (EventLoop.v), the rest of the
    program, and how many times the clock was read. *)
Record Loop := mk_loop {
  running : bool;
  next_timer_id : Z;
  timers : queue;
  cancelled_timers : gset Z;
  rest : W;
  reads : Z;
}.

Variable clock : Z → Z.

Definition now_ (l : Loop) : Z * Loop :=
  (clock (reads l),
   mk_loop (running l) (next_timer_id l) (timers l) (cancelled_timers l) (rest l)
     (reads l + 1)).

(** A delay of [ms] milliseconds; [None] is an empty [std::function]. *)
Definition register_timer (ms : Z) (cb : option CB) (l : Loop) : Z * Loop :=
  match cb with
  | None => (0, l)
  | Some cb =>
      let id := next_timer_id l in
      let '(now, l) := now_ l in
      let deadline := now + ms * 1000000 in
      (id, mk_loop (running l) (u64 (id + 1)) (push (mk_timer id deadline cb) (timers l))
             (cancelled_timers l) (rest l) (reads l))
  end.

Definition cancel_timer (timer_id : Z) (l : Loop) : Loop :=
  if 0 <? timer_id then
    mk_loop (running l) (next_timer_id l) (timers l) ({[timer_id]} ∪ cancelled_timers l)
      (rest l) (reads l)
  else l.

Definition set_running (b : bool) (l : Loop) : Loop :=
  mk_loop b (next_timer_id l) (timers l) (cancelled_timers l) (rest l) (reads l).
Definition shutdown : Loop → Loop := set_running false.

Definition set_rest (w : W) (l : Loop) : Loop :=
  mk_loop (running l) (next_timer_id l) (timers l) (cancelled_timers l) w (reads l).
Definition set_timers (q : queue) (c : gset Z) (l : Loop) : Loop :=
  mk_loop (running l) (next_timer_id l) q c (rest l) (reads l).

(** Running a timer's callback. *)
Variable fire : CB → Loop → outcome Loop.

(** What the timer phase did: a callback called at a time, a cancelled timer dropped. *)
Inductive TimerEvent := Fired (t : Timer CB) (now : Z) | Pruned (t : Timer CB).

(** The inner loop of [run]: the timeout for the poll. *)
Fixpoint timer_phase (fuel : nat) (now : Z) (l : Loop) (log : list TimerEvent)
    : outcome (Z * Z * Loop * list TimerEvent) :=
  match fuel with
  | O => Fuel
  | S f =>
      if running l then
        match top (timers l) with
        | None => Ok (-1, now, l, log)
        | Some next_timer =>
            if bool_decide (t_id next_timer ∈ cancelled_timers l) then
              timer_phase f now
                (set_timers (pop (timers l)) (cancelled_timers l ∖ {[t_id next_timer]}) l)
                (log ++ [Pruned next_timer])
            else if deadline next_timer <=? now then
              let l := set_timers (pop (timers l)) (cancelled_timers l) l in
              l ← fire (callback next_timer) l;
              let log := log ++ [Fired next_timer now] in
              let '(now, l) := now_ l in
              timer_phase f now l log
            else
              Ok (i32 (Z.quot (deadline next_timer - now) 1000000), now, l, log)
        end
      else Ok (-1, now, l, log)
  end.

(** ** Polling *)

Section Polling.
(** The descriptors' callbacks, what one of them does with what else the kernel has for
    it ([X]), and the signal handler. *)
Context {FdCB X : Type}.
Variable fds_of : W → Fds FdCB.
Variable fire_fd : FdCB → Z → Z → X → Loop → outcome Loop.
Variable on_signal : W → W.

(** What [epoll_wait] answers. *)
Inductive Wait := WaitEvents (evs : list (Z * Z * X)) | WaitInterrupted | WaitFailed.

(** Each event goes to the callback its descriptor has by then, if any. *)
Fixpoint dispatch (evs : list (Z * Z * X)) (l : Loop) : outcome Loop :=
  match evs with
  | [] => Ok l
  | (fd, epoll_evs, x) :: evs =>
      l ← match fd_callbacks (fds_of (rest l)) !! fd with
          | Some callback => fire_fd callback fd epoll_evs x l
          | None => Ok l
          end;
      dispatch evs l
  end.

(** [run]: one turn of the outer loop for each answer of [epoll_wait], which comes with
    whether the signal was caught meanwhile. [fuel] bounds each timer phase; [None]
    after the last answer means the loop still polls. *)
Fixpoint run_loop (fuel : nat) (waits : list (bool * Wait)) (l : Loop) : outcome (option Loop) :=
  if running l then
    let '(now, l) := now_ l in
    '(timeout_ms, now, l, log) ← timer_phase fuel now l [];
    if negb (running l) then Ok (Some l)
    else
      match waits with
      | [] => Ok None
      | (signal, w) :: waits =>
          let l := if (signal : bool) then set_rest (on_signal (rest l)) l else l in
          match w with
          | WaitFailed => Ok (Some l)
          | WaitInterrupted => run_loop fuel waits l
          | WaitEvents evs => l ← dispatch evs l; run_loop fuel waits l
          end
      end
  else Ok (Some l).

Definition run (fuel : nat) (waits : list (bool * Wait)) (l : Loop) : outcome (option Loop) :=
  run_loop fuel waits (set_running true l).
End Polling.

(** ** Callbacks use the loop's functions *)

(** The ids in the queue. *)
Definition ids (l : Loop) : list Z := t_id <$> elems (timers l).

(** Any sequence of calls of the loop's member functions, with delays that are not
    negative and fewer than 2^64 timers in all; the rest of the program may change at
    will. *)
Inductive calls : Loop → Loop → Prop :=
| calls_nil l : calls l l
| calls_timer l ms cb l' :
    0 ≤ ms → next_timer_id l + 1 < 2 ^ 64 → calls (register_timer ms cb l).2 l' → calls l l'
| calls_cancel l id l' : calls (cancel_timer id l) l' → calls l l'
| calls_shutdown l l' : calls (shutdown l) l' → calls l l'
| calls_rest l w l' : calls (set_rest w l) l' → calls l l'.

(** Timers have distinct ids, below the next. *)
Definition loop_wf (l : Loop) : Prop :=
  0 < next_timer_id l ∧ NoDup (ids l) ∧ ∀ i, i ∈ ids l → 0 < i < next_timer_id l.

(** ** What a callback can have done *)

Definition elems_of (l : Loop) : list (Timer CB) := elems (timers l).

(** [l'] comes from [l] by calls of the loop's functions: the queue only gained timers,
    with fresh ids, due no earlier than the clock was. *)
Definition grows (l l' : Loop) : Prop :=
  next_timer_id l ≤ next_timer_id l' ∧ reads l ≤ reads l' ∧
  cancelled_timers l ⊆ cancelled_timers l' ∧
  ∃ new, elems_of l' ≡ₚ new ++ elems_of l ∧
    ∀ u, u ∈ new → next_timer_id l ≤ t_id u ∧ clock (reads l) ≤ deadline u.

Hypothesis clock_mono : ∀ i j, i ≤ j → clock i ≤ clock j.
(** A callback registers at most [k] timers. *)
Variable k : Z.
Hypothesis fire_calls : ∀ cb l l', fire cb l = Ok l' →
  0 < next_timer_id l → next_timer_id l + k < 2 ^ 64 →
  calls l l' ∧ next_timer_id l' ≤ next_timer_id l + k.
Hypothesis k_pos : 0 ≤ k.

Lemma grows_refl l : grows l l.
Proof. split_and!; try done. exists []. split; [done|]. intros u Hu. by apply elem_of_nil in Hu. Qed.

Lemma grows_trans l1 l2 l3 : grows l1 l2 → grows l2 l3 → grows l1 l3.
Proof.
  intros (Hn1 & Hr1 & Hc1 & new1 & He1 & H1) (Hn2 & Hr2 & Hc2 & new2 & He2 & H2).
  split_and!; [lia|lia|set_solver|]. exists (new2 ++ new1). split.
  { by rewrite He2, He1, app_assoc. }
  intros u [Hu|Hu]%elem_of_app; [|auto]. destruct (H2 u Hu).
  pose proof (clock_mono (reads l1) (reads l2) ltac:(lia)). lia.
Qed.

Lemma grows_id l l' :
  next_timer_id l' = next_timer_id l → reads l ≤ reads l' →
  cancelled_timers l ⊆ cancelled_timers l' → timers l' = timers l → grows l l'.
Proof.
  intros Hn Hr Hc Ht. split_and!; [lia|done|done|]. exists []. unfold elems_of.
  rewrite Ht. split; [done|]. intros u Hu. by apply elem_of_nil in Hu.
Qed.

Lemma register_grows ms cb l :
  0 ≤ ms → 0 < next_timer_id l → next_timer_id l + 1 < 2 ^ 64 → loop_wf l →
  loop_wf (register_timer ms cb l).2 ∧ grows l (register_timer ms cb l).2.
Proof.
  intros Hms Hpos Hw (_ & Hnd & Hids). destruct cb as [cb|]; [|by split; [|apply grows_refl]].
  simpl. unfold loop_wf, grows, ids, elems_of. simpl. rewrite wrap_small by lia.
  split_and!; try lia; try done.
  - rewrite elems_push, fmap_cons. apply NoDup_cons. split; [|done].
    intros H. apply Hids in H. simpl in H. lia.
  - intros i. rewrite elems_push, fmap_cons, elem_of_cons.
    intros [->|H]; [simpl; lia|]. apply Hids in H. lia.
  - eexists [_]. split; [apply elems_push|]. intros u Hu%list_elem_of_singleton.
    subst. simpl. lia.
Qed.

Lemma calls_grows l l' : calls l l' → loop_wf l → loop_wf l' ∧ grows l l'.
Proof.
  induction 1 as [l|l ms cb l' Hms Hw _ IH|l id l' _ IH|l l' _ IH|l w l' _ IH];
    intros Hwf.
  - split; [done|apply grows_refl].
  - destruct (register_grows ms cb l Hms (proj1 Hwf) Hw Hwf) as [Hwf' Hg].
    destruct (IH Hwf') as [? ?]. split; [done|]. by eapply grows_trans.
  - destruct IH as [? ?]; [by unfold cancel_timer; case_ifs|]. split; [done|].
    eapply grows_trans; [|done]. unfold cancel_timer. case_ifs; [|apply grows_refl].
    apply grows_id; simpl; try lia; set_solver.
  - destruct (IH Hwf). split; [done|]. eapply grows_trans; [|done]. by apply grows_id.
  - destruct (IH Hwf). split; [done|]. eapply grows_trans; [|done]. by apply grows_id.
Qed.

(** ** The timer phase *)

Definition event_timer (e : TimerEvent) : Timer CB :=
  match e with Fired t _ | Pruned t => t end.
Definition fired (log : list TimerEvent) : list (Timer CB * Z) :=
  omap (λ e, match e with Fired t now => Some (t, now) | Pruned _ => None end) log.

Lemma elem_of_fired t now log : (t, now) ∈ fired log ↔ Fired t now ∈ log.
Proof.
  unfold fired. rewrite list_elem_of_omap. split; [|by exists (Fired t now)].
  intros ([t' n|t'] & He & [= -> ->]). done.
Qed.

(** The invariant of a phase that started in [l0]. *)
Record phase_inv (l0 : Loop) (now : Z) (l : Loop) (log : list TimerEvent) : Prop := {
  pi_wf : loop_wf l;
  pi_now : now ≤ clock (reads l);
  pi_due : ∀ t n, (t, n) ∈ fired log → deadline t ≤ n ≤ now;
  pi_min : ∀ t n u, (t, n) ∈ fired log → u ∈ elems_of l → deadline t ≤ deadline u;
  pi_sorted : StronglySorted (λ a b, deadline a.1 ≤ deadline b.1) (fired log);
  pi_once : NoDup ((λ e, t_id (event_timer e)) <$> log);
  pi_gone : ∀ e, e ∈ log → t_id (event_timer e) < next_timer_id l ∧ t_id (event_timer e) ∉ ids l;
  pi_kept : ∀ t, t ∈ elems_of l0 → t ∈ elems_of l ∨ t ∈ event_timer <$> log;
  pi_next : next_timer_id l0 ≤ next_timer_id l;
  pi_cancelled : ∀ i, i ∈ cancelled_timers l0 →
    i ∈ cancelled_timers l ∨ (i < next_timer_id l ∧ i ∉ ids l);
  pi_not_fired : ∀ t n, (t, n) ∈ fired log → t_id t ∉ cancelled_timers l0;
}.

Lemma phase_start l : loop_wf l → phase_inv l (clock (reads l)) (now_ l).2 [].
Proof.
  intros Hwf. split; try done; simpl; try (by intros ??; apply not_elem_of_nil); auto.
  - apply clock_mono. lia.
  - intros t n H. by apply elem_of_nil in H.
  - intros t n u H. by apply elem_of_nil in H.
  - constructor.
  - constructor.
  - intros e H. by apply elem_of_nil in H.
  - intros t n H. by apply elem_of_nil in H.
Qed.

Lemma elem_ids l t : t ∈ elems_of l → t_id t ∈ ids l.
Proof. intros H. unfold ids. apply list_elem_of_fmap. eauto. Qed.

(** Taking the top off. *)
Lemma popped l t c :
  loop_wf l → top (timers l) = Some t →
  let l1 := set_timers (pop (timers l)) c l in
  loop_wf l1 ∧ t_id t < next_timer_id l ∧ (t_id t ∉ ids l1) ∧
  (∀ u, u ∈ elems_of l ↔ u = t ∨ u ∈ elems_of l1) ∧
  (∀ i, i ∈ ids l1 → i ∈ ids l) ∧ ∀ u, u ∈ elems_of l1 → deadline t ≤ deadline u.
Proof.
  intros (Hpos & Hnd & Hids) Ht l1. pose proof (top_pop _ _ Ht) as Hp.
  assert (ids l ≡ₚ t_id t :: ids l1) as Hi by (unfold ids; by rewrite Hp).
  assert (∀ u, u ∈ elems_of l ↔ u = t ∨ u ∈ elems_of l1) as He.
  { intros u. unfold elems_of. rewrite Hp. apply elem_of_cons. }
  rewrite Hi, NoDup_cons in Hnd. destruct Hnd as [Hnew Hnd].
  assert (∀ i, i ∈ ids l1 → i ∈ ids l) as Hsub by (intros i H; rewrite Hi; by constructor).
  split; [by split_and!; auto; intros i H; apply Hids, Hsub|].
  split; [apply Hids; rewrite Hi; by constructor|]. split_and!; auto.
  intros u Hu. eapply top_least; [exact Ht|]. apply He. auto.
Qed.

Lemma fired_app a b : fired (a ++ b) = fired a ++ fired b.
Proof. apply omap_app. Qed.

(** An event at the end of the log, its timer off the queue and its id out of use. *)
Lemma once_snoc log e l :
  NoDup ((λ e, t_id (event_timer e)) <$> log) →
  (∀ e', e' ∈ log → t_id (event_timer e') ∉ ids l) →
  t_id (event_timer e) ∈ ids l →
  NoDup ((λ e, t_id (event_timer e)) <$> (log ++ [e])).
Proof.
  intros Hnd Hgone He. rewrite fmap_app. apply NoDup_app. split_and!; [done| |apply NoDup_singleton].
  intros i (e' & -> & He')%list_elem_of_fmap Hi%list_elem_of_singleton. apply (Hgone e'); [done|].
  by rewrite Hi.
Qed.

Lemma phase_pruned l0 now l log t :
  phase_inv l0 now l log → top (timers l) = Some t → t_id t ∈ cancelled_timers l →
  phase_inv l0 now (set_timers (pop (timers l)) (cancelled_timers l ∖ {[t_id t]}) l)
    (log ++ [Pruned t]).
Proof.
  intros [Hwf Hnow Hdue Hmin Hsort Honce Hgone Hkept Hnext Hcan Hnf] Ht Hc.
  destruct (popped l t (cancelled_timers l ∖ {[t_id t]}) Hwf Ht)
    as (Hwf1 & Hlt & Hnew & He & Hsub & _).
  assert (t ∈ elems_of l) as Hin by (apply He; auto).
  assert (fired (log ++ [Pruned t]) = fired log) as Ef by (rewrite fired_app; apply app_nil_r).
  split; rewrite ?Ef; auto.
  - intros u n v Hu Hv. eapply Hmin; [done|]. apply He. auto.
  - eapply once_snoc; [done| |by apply elem_ids]. intros e H. by apply Hgone.
  - intros e [H|H%list_elem_of_singleton]%elem_of_app; [|by subst].
    destruct (Hgone e H). split; [done|]. auto.
  - intros u Hu. rewrite fmap_app, elem_of_app. destruct (Hkept u Hu) as [H|H]; [|auto].
    apply He in H as [->|H]; [|auto]. right. right. by apply list_elem_of_singleton.
  - intros i Hi. destruct (Hcan i Hi) as [H|[H1 H2]]; [|right; split; auto].
    destruct (decide (i = t_id t)) as [->|]; [auto|]. left. simpl. set_solver.
Qed.

(** After the callback of the top timer: it is gone, and what is new is fresh and due no
    earlier than the clock was. *)
Lemma after_fire l t l2 :
  loop_wf l → top (timers l) = Some t → next_timer_id l + k < 2 ^ 64 →
  fire (callback t) (set_timers (pop (timers l)) (cancelled_timers l) l) = Ok l2 →
  loop_wf l2 ∧ next_timer_id l ≤ next_timer_id l2 ≤ next_timer_id l + k ∧ reads l ≤ reads l2 ∧
  cancelled_timers l ⊆ cancelled_timers l2 ∧
  (∀ u, u ∈ elems_of l2 →
     clock (reads l) ≤ deadline u ∨ (u ∈ elems_of l ∧ deadline t ≤ deadline u)) ∧
  (∀ u, u ∈ elems_of l → u = t ∨ u ∈ elems_of l2) ∧
  (∀ i, i ∈ ids l2 → next_timer_id l ≤ i ∨ (i ∈ ids l ∧ i ≠ t_id t)) ∧
  t_id t < next_timer_id l ∧ t_id t ∈ ids l.
Proof.
  intros Hwf Ht Hk El2. destruct (popped l t (cancelled_timers l) Hwf Ht)
    as (Hwf1 & Hlt & Hnew & He & Hsub & Hleast).
  set (l1 := set_timers (pop (timers l)) (cancelled_timers l) l) in *.
  destruct (fire_calls (callback t) l1 l2 El2 (proj1 Hwf1) Hk) as [Hcalls Hk2].
  destruct (calls_grows l1 l2 Hcalls Hwf1) as (Hwf2 & Hn2 & Hr2 & Hc2 & new & He2 & Hnew2).
  assert (∀ u, u ∈ elems_of l2 ↔ u ∈ new ∨ u ∈ elems_of l1) as He2'.
  { intros u. rewrite He2. apply elem_of_app. }
  split_and!; auto; try done.
  - intros u [Hu|Hu]%He2'; [left; by apply Hnew2|]. right. rewrite He. auto.
  - intros u Hu. rewrite He2'. apply He in Hu. naive_solver.
  - intros i (u & -> & [Hu|Hu]%He2')%list_elem_of_fmap; [left; by apply Hnew2|].
    apply elem_ids in Hu. right. split; [auto|congruence].
  - apply elem_ids, He. auto.
Qed.

Lemma phase_fired l0 now l log t l2 :
  phase_inv l0 now l log → top (timers l) = Some t → t_id t ∉ cancelled_timers l →
  deadline t ≤ now → next_timer_id l + k < 2 ^ 64 →
  fire (callback t) (set_timers (pop (timers l)) (cancelled_timers l) l) = Ok l2 →
  phase_inv l0 (clock (reads l2)) (now_ l2).2 (log ++ [Fired t now]).
Proof.
  intros [Hwf Hnow Hdue Hmin Hsort Honce Hgone Hkept Hnext Hcan Hnf] Ht Hc Hd Hk El2.
  destruct (after_fire l t l2 Hwf Ht Hk El2) as (Hwf2 & Hn2 & Hr2 & Hc2 & He2 & He & Hi2 & Hlt & Hin).
  assert (fired (log ++ [Fired t now]) = fired log ++ [(t, now)]) as Ef by apply fired_app.
  assert (now ≤ clock (reads l2)) as Hnow2.
  { pose proof (clock_mono (reads l) (reads l2) Hr2). lia. }
  split; rewrite ?Ef; auto.
  - apply clock_mono. simpl. lia.
  - intros u n [Hu|Hu%list_elem_of_singleton]%elem_of_app; [apply Hdue in Hu; lia|].
    injection Hu as -> ->. lia.
  - intros u n v [Hu|Hu%list_elem_of_singleton]%elem_of_app Hv; apply He2 in Hv as [Hv|[Hv Htv]].
    + apply Hdue in Hu. lia.
    + by eapply Hmin.
    + injection Hu as -> ->. lia.
    + by injection Hu as -> ->.
  - apply StronglySorted_app. split_and!; [|done|repeat constructor].
    intros [u n] v Hu ->%list_elem_of_singleton. simpl. eapply Hmin; [done|].
    unfold elems_of. rewrite (top_pop _ _ Ht). constructor.
  - eapply once_snoc; [done| |done]. intros e H. by apply Hgone.
  - intros e [H|H%list_elem_of_singleton]%elem_of_app; [destruct (Hgone e H)|subst];
      simpl in *; (split; [lia|]); intros [Ho|[Ho Hne]]%Hi2; auto; lia.
  - intros u Hu. rewrite fmap_app, elem_of_app. destruct (Hkept u Hu) as [H|H]; [|auto].
    apply He in H as [->|H]; [right; right; by apply list_elem_of_singleton|]. left. exact H.
  - simpl. lia.
  - intros i Hi. destruct (Hcan i Hi) as [H|[H1 H2]]; [left; simpl; set_solver|].
    right. simpl. split; [lia|]. intros [H|[H _]]%Hi2; [lia|auto].
  - intros u n [Hu|Hu%list_elem_of_singleton]%elem_of_app; [by eapply Hnf|].
    injection Hu as -> ->. intros Hi. by destruct (Hcan _ Hi) as [H|[_ H]].
Qed.

(** How a phase ends: stopped, nothing to wait for, or the time to the earliest timer. *)
Definition phase_end (timeout_ms now : Z) (l : Loop) : Prop :=
  running l = false ∨
  (timeout_ms = -1 ∧ elems_of l = []) ∨
  ∃ t, t ∈ elems_of l ∧ (t_id t ∉ cancelled_timers l) ∧
    (∀ u, u ∈ elems_of l → now < deadline t ≤ deadline u) ∧
    (deadline t - now < 2 ^ 31 * 1000000 → 0 ≤ timeout_ms ∧
       timeout_ms * 1000000 ≤ deadline t - now < (timeout_ms + 1) * 1000000).

Lemma timeout_floor d now :
  now < d → d - now < 2 ^ 31 * 1000000 →
  let timeout_ms := i32 (Z.quot (d - now) 1000000) in
  0 ≤ timeout_ms ∧ timeout_ms * 1000000 ≤ d - now < (timeout_ms + 1) * 1000000.
Proof.
  intros Hlt Hsmall. cbv zeta. rewrite Z.quot_div_nonneg by lia.
  pose proof (Z.div_pos (d - now) 1000000). pose proof (Z.div_lt_upper_bound (d - now) 1000000 (2 ^ 31)).
  pose proof (Z.div_mod (d - now) 1000000). pose proof (Z.mod_pos_bound (d - now) 1000000).
  rewrite swrap_small by (simpl; lia). lia.
Qed.

Lemma timer_phase_run fuel l0 now l log timeout_ms now' l' log' :
  phase_inv l0 now l log → next_timer_id l + k * Z.of_nat fuel < 2 ^ 64 →
  timer_phase fuel now l log = Ok (timeout_ms, now', l', log') →
  phase_inv l0 now' l' log' ∧ phase_end timeout_ms now' l'.
Proof.
  revert now l log. induction fuel as [|f IH]; intros now l log Hinv Hk; [done|]. cbn [timer_phase].
  destruct (running l) eqn:Er; [|intros [= <- <- <- <-]; split; [done|by left]].
  destruct (top (timers l)) as [t|] eqn:Et.
  2:{ intros [= <- <- <- <-]. split; [done|]. right. left. split; [done|]. by apply top_none. }
  case_bool_decide as Hc; [apply IH; [by apply phase_pruned|simpl in *; nia]|].
  destruct (Z.leb_spec (deadline t) now) as [Hd|Hd].
  { assert (next_timer_id l + k < 2 ^ 64) as Hk1 by nia. intros H. inv_ok H.
    revert H. apply IH; [by eapply phase_fired|].
    destruct (after_fire l t _ (pi_wf _ _ _ _ Hinv) Et Hk1 H0) as (_ & Hn2 & _). simpl in *. nia. }
  intros [= <- <- <- <-]. split; [done|]. right. right. exists t. split_and!; [|done| |].
  - unfold elems_of. rewrite (top_pop _ _ Et). constructor.
  - intros u Hu. split; [lia|]. by eapply top_least.
  - intros Hs. by apply timeout_floor.
Qed.

(** ** Termination of the phase *)

Lemma elems_NoDup l : loop_wf l → NoDup (elems_of l).
Proof. intros (_ & H & _). by apply (NoDup_fmap_1 t_id). Qed.

(** The timers due by [horizon]. *)
Definition due (horizon : Z) (l : Loop) : list (Timer CB) :=
  filter (λ u, deadline u ≤ horizon) (elems_of l).

Lemma due_le horizon l l' :
  loop_wf l' → (∀ u, u ∈ elems_of l' → deadline u ≤ horizon → u ∈ elems_of l) →
  (List.length (due horizon l') ≤ List.length (due horizon l))%nat.
Proof.
  intros Hwf H. apply submseteq_length, NoDup_submseteq; [by apply NoDup_filter, elems_NoDup|].
  intros u [Hd Hu]%list_elem_of_filter. apply list_elem_of_filter. auto.
Qed.

Lemma due_lt horizon l l' t :
  loop_wf l' → (∀ u, u ∈ elems_of l' → deadline u ≤ horizon → u ∈ elems_of l) →
  t ∈ elems_of l → t ∉ elems_of l' → deadline t ≤ horizon →
  (List.length (due horizon l') < List.length (due horizon l))%nat.
Proof.
  intros Hwf H Ht Hnt Hd.
  assert (List.length (t :: due horizon l') ≤ List.length (due horizon l))%nat; [|simpl in *; lia].
  apply submseteq_length, NoDup_submseteq.
  - apply NoDup_cons. split; [|by apply NoDup_filter, elems_NoDup].
    intros [_ Hu]%list_elem_of_filter. done.
  - intros u [->|[Hdu Hu]%list_elem_of_filter]%elem_of_cons; apply list_elem_of_filter; auto.
Qed.

(** [delay]: the least delay with which a callback registers a timer; [r]: how often it
    may read the clock. *)
Variables delay r : Z.
Hypothesis fire_ends : ∀ cb l, fire cb l ≠ Fuel.
Hypothesis fire_reads : ∀ cb l l', fire cb l = Ok l' → reads l' ≤ reads l + r.
Hypothesis fire_delay : ∀ cb l l' u, fire cb l = Ok l' → u ∈ elems_of l' →
  u ∈ elems_of l ∨ clock (reads l) + delay ≤ deadline u.

Lemma fire_due horizon l t l2 :
  loop_wf l → top (timers l) = Some t → deadline t ≤ horizon → horizon < clock (reads l) + delay →
  next_timer_id l + k < 2 ^ 64 →
  fire (callback t) (set_timers (pop (timers l)) (cancelled_timers l) l) = Ok l2 →
  (List.length (due horizon (now_ l2).2) < List.length (due horizon l))%nat.
Proof.
  intros Hwf Ht Hd Hhor Hk El2. destruct (popped l t (cancelled_timers l) Hwf Ht) as (_ & _ & _ & He & _).
  destruct (after_fire l t l2 Hwf Ht Hk El2) as (Hwf2 & _ & _ & _ & _ & _ & Hi2 & Hlt & _).
  apply (due_lt horizon l _ t); auto.
  - intros u Hu Hdu. apply He. destruct (fire_delay _ _ _ _ El2 Hu) as [H|H]; [auto|]. simpl in H. lia.
  - apply He. auto.
  - intros H. apply elem_ids in H. apply Hi2 in H as [?|[_ ?]]; [lia|done].
Qed.

Lemma due_top horizon l t :
  top (timers l) = Some t → deadline t ≤ horizon → (0 < List.length (due horizon l))%nat.
Proof.
  intros Et Hd. assert (t ∈ due horizon l) as Hin.
  { apply list_elem_of_filter. split; [done|]. unfold elems_of. rewrite (top_pop _ _ Et). constructor. }
  destruct (due horizon l); [by apply elem_of_nil in Hin|simpl; lia].
Qed.

(** A timer that is due runs; if its callback does not return, the phase ends there. *)
Lemma due_runs now l log t :
  running l = true → top (timers l) = Some t → t_id t ∉ cancelled_timers l → deadline t ≤ now →
  timer_phase 1 now l log ≠ Fuel ∨
  ∃ l2, fire (callback t) (set_timers (pop (timers l)) (cancelled_timers l) l) = Ok l2.
Proof.
  intros Er Et Hc Hd.
  pose proof (fire_ends (callback t) (set_timers (pop (timers l)) (cancelled_timers l) l)) as Hf.
  cbn [timer_phase]. rewrite Er, Et, bool_decide_eq_false_2 by done.
  rewrite (proj2 (Z.leb_le _ _)) by done. destruct (fire _ _); [eauto|by left..|done].
Qed.

(** If the callbacks of the timers due finish before [delay] is over, the phase does not
    run out of fuel: each is called once. *)
Lemma timer_phase_ends horizon n l0 now l log :
  phase_inv l0 now l log → now ≤ horizon → horizon < now + delay →
  (List.length (due horizon l) ≤ n)%nat →
  (∀ i, i < reads l + (r + 1) * Z.of_nat n → clock i ≤ horizon) →
  next_timer_id l + k * Z.of_nat n < 2 ^ 64 →
  ∃ fuel, timer_phase fuel now l log ≠ Fuel.
Proof.
  revert now l log.
  induction n as [n IHn] using lt_wf_ind. intros now l log. remember (List.length (elems_of l)) as sz.
  revert now l log Heqsz. induction sz as [sz IHk] using lt_wf_ind.
  intros now l log -> Hinv Hnow Hhor Hn Hclock Hkn.
  destruct (running l) eqn:Er; [|exists 1%nat; simpl; by rewrite Er].
  destruct (top (timers l)) as [t|] eqn:Et; [|exists 1%nat; simpl; by rewrite Er, Et].
  pose proof (top_pop _ _ Et) as Hpop. pose proof (pi_wf _ _ _ _ Hinv) as Hwf.
  destruct (decide (t_id t ∈ cancelled_timers l)) as [Hc|Hc].
  { destruct (popped l t (cancelled_timers l ∖ {[t_id t]}) Hwf Et) as (Hwf1 & _ & _ & He & _).
    edestruct IHk as (fuel & E); [|reflexivity|by eapply phase_pruned|done..| | |exact Hkn|].
    - unfold elems_of. rewrite Hpop. simpl. lia.
    - etrans; [apply due_le; [exact Hwf1|]|exact Hn]. intros u Hu _. apply He. auto.
    - exact Hclock.
    - exists (S fuel). cbn [timer_phase]. rewrite Er, Et, bool_decide_eq_true_2 by done. exact E. }
  destruct (Z.leb_spec (deadline t) now) as [Hd|Hd].
  2:{ exists 1%nat. cbn [timer_phase]. rewrite Er, Et, bool_decide_eq_false_2 by done.
      by rewrite (proj2 (Z.leb_gt _ _)) by done. }
  pose proof (pi_now _ _ _ _ Hinv) as Hnow'.
  assert (1 ≤ Z.of_nat n) as Hn1 by (pose proof (due_top horizon l t Et ltac:(lia)); lia).
  assert (next_timer_id l + k < 2 ^ 64) as Hk by nia.
  destruct (due_runs now l log t Er Et Hc Hd) as [Hstop|[l2 El2]]; [by exists 1%nat|].
  destruct (after_fire l t l2 Hwf Et Hk El2) as (_ & Hn2 & Hr2 & _).
  pose proof (fire_due horizon l t l2 Hwf Et ltac:(lia) ltac:(lia) Hk El2) as Hdue.
  pose proof (phase_fired _ _ _ _ _ _ Hinv Et Hc Hd Hk El2) as Hinv2.
  pose proof (fire_reads _ _ _ El2) as Hr.
  simpl in Hr. pose proof (clock_mono (reads l) (reads l2) Hr2).
  set (d := List.length (due horizon (now_ l2).2)) in *.
  assert ((r + 1) * (Z.of_nat d + 1) ≤ (r + 1) * Z.of_nat n) by (apply Z.mul_le_mono_nonneg_l; lia).
  pose proof (Z.mul_nonneg_nonneg (r + 1) (Z.of_nat d) ltac:(lia) ltac:(lia)).
  edestruct (IHn d) as (fuel & E); [lia|exact Hinv2| |lia|done| | |].
  - apply Hclock. lia.
  - intros i Hi. apply Hclock. change (reads (now_ l2).2) with (reads l2 + 1) in Hi. lia.
  - change (next_timer_id (now_ l2).2) with (next_timer_id l2).
    assert (k * (Z.of_nat d + 1) ≤ k * Z.of_nat n) by (apply Z.mul_le_mono_nonneg_l; lia). lia.
  - exists (S fuel). cbn [timer_phase]. rewrite Er, Et, bool_decide_eq_false_2 by done.
    rewrite (proj2 (Z.leb_le _ _)), El2 by done. exact E.
Qed.
End Loop.

(** ** An implementation of the queue *)

Section ListQueue.
Context {CB : Type}.

(** The earliest timer of a list, and the others. *)
Fixpoint extract (q : list (Timer CB)) : option (Timer CB * list (Timer CB)) :=
  match q with
  | [] => None
  | t :: q' =>
      match extract q' with
      | None => Some (t, [])
      | Some (u, r) => if deadline t <=? deadline u then Some (t, q') else Some (u, t :: r)
      end
  end.

Lemma extract_none q : extract q = None → q = [].
Proof. destruct q as [|t q]; simpl; [done|]. destruct (extract q) as [[]|]; case_ifs; done. Qed.

Lemma extract_some q t r :
  extract q = Some (t, r) → q ≡ₚ t :: r ∧ ∀ u, u ∈ q → deadline t ≤ deadline u.
Proof.
  revert t r. induction q as [|x q IH]; intros t r; simpl; [done|].
  destruct (extract q) as [[u r']|] eqn:E.
  2:{ intros [= <- <-]. apply extract_none in E as ->. split; [done|].
      intros u Hu%list_elem_of_singleton. by subst. }
  destruct (IH u r' eq_refl) as [Hp Hl]. destruct (Z.leb_spec (deadline x) (deadline u)); intros [= <- <-].
  - split; [done|]. intros v [->|Hv]%elem_of_cons; [lia|]. specialize (Hl v Hv). lia.
  - split; [rewrite Hp; constructor|]. intros v [->|Hv]%elem_of_cons; [lia|auto].
Qed.

#[export, program] Instance list_queue : TimerQueue CB := {
  queue := list (Timer CB);
  queue_empty := [];
  push t q := t :: q;
  top q := fst <$> extract q;
  pop q := default [] (snd <$> extract q);
  elems q := q;
}.
Next Obligation. done. Qed.
Next Obligation. done. Qed.
Next Obligation. intros q. simpl. destruct (extract q) as [[]|] eqn:E; [done|]. intros _. by apply extract_none. Qed.
Next Obligation.
  intros q t. simpl. destruct (extract q) as [[u r]|] eqn:E; simpl; [|done]. intros [= <-].
  by apply extract_some.
Qed.
Next Obligation.
  intros q t u. simpl. destruct (extract q) as [[v r]|] eqn:E; simpl; [|done]. intros [= <-] Hu.
  by eapply extract_some.
Qed.
End ListQueue.

(** ** Properties *)

(** C14: A timer phase fires timers in the order of their deadlines, none before it is
    due, none twice and none that was cancelled; no timer is lost, and when it ends with
    the loop running every timer that is due has been taken off the queue and the poll's
    timeout is the whole milliseconds left until the earliest one. It does
    not spin if the callbacks due finish before the least delay with which they
    register timers is over. This for every queue and whatever the callbacks do through the loop's own
    functions. *)
Theorem timers_fire_in_order {CB W : Type} {TQ : TimerQueue CB} (clock : Z → Z)
    (fire : CB → Loop (W := W) → outcome (Loop (W := W))) (k : Z) (l : Loop (W := W))
    (clock_mono : ∀ i j, i ≤ j → clock i ≤ clock j) (k_pos : 0 ≤ k)
    (fire_calls : ∀ cb l l', fire cb l = Ok l' →
       0 < next_timer_id l → next_timer_id l + k < 2 ^ 64 →
       calls clock l l' ∧ next_timer_id l' ≤ next_timer_id l + k)
    (Hwf : loop_wf l) :
  (∀ fuel timeout_ms now l' log,
     next_timer_id l + k * Z.of_nat fuel < 2 ^ 64 →
     timer_phase clock fire fuel (clock (reads l)) (now_ clock l).2 [] =
       Ok (timeout_ms, now, l', log) →
     StronglySorted (λ a b, deadline a.1 ≤ deadline b.1) (fired log) ∧
     (∀ t n, (t, n) ∈ fired log → deadline t ≤ n ≤ now ∧ t_id t ∉ cancelled_timers l) ∧
     NoDup ((λ e, t_id (event_timer e)) <$> log) ∧
     (∀ t, t ∈ elems_of l → t ∈ elems_of l' ∨ t ∈ event_timer <$> log) ∧
     (running l' = true → ∀ t, t ∈ elems_of l → deadline t ≤ now → t ∈ event_timer <$> log) ∧
     phase_end timeout_ms now l') ∧
  (∀ delay r horizon,
     (∀ cb l, fire cb l ≠ Fuel) →
     (∀ cb l l', fire cb l = Ok l' → reads l' ≤ reads l + r) →
     (∀ cb l l' u, fire cb l = Ok l' → u ∈ elems_of l' →
        u ∈ elems_of l ∨ clock (reads l) + delay ≤ deadline u) →
     clock (reads l) ≤ horizon → horizon < clock (reads l) + delay →
     (∀ i, i < reads l + 1 + (r + 1) * zlen (due horizon l) → clock i ≤ horizon) →
     next_timer_id l + k * zlen (due horizon l) < 2 ^ 64 →
     ∃ fuel, timer_phase clock fire fuel (clock (reads l)) (now_ clock l).2 [] ≠ Fuel).
Proof.
  pose proof (phase_start clock clock_mono l Hwf) as Hstart. split.
  - intros fuel timeout_ms now l' log Hk Hrun.
    destruct (timer_phase_run clock fire clock_mono k fire_calls k_pos _ _ _ _ _ _ _ _ _
      Hstart Hk Hrun)
      as [[? ? Hdue _ Hsort Honce _ Hkept _ _ Hnf] Hend].
    split_and!; auto; [intros t n Ht; split; [by apply Hdue|by eapply Hnf]|].
    intros Hr t Ht Hd. destruct (Hkept t Ht) as [H|H]; [exfalso|done].
    destruct Hend as [E|[[_ E]|(u & _ & _ & Hmin & _)]]; [congruence| |].
    + rewrite E in H. by apply elem_of_nil in H.
    + destruct (Hmin t H). lia.
  - intros delay r horizon Hends Hreads Hdelay Hnow Hhor Hclock Hk.
    by eapply (timer_phase_ends clock fire clock_mono k fire_calls k_pos delay r Hends Hreads Hdelay horizon).
Qed.

(** ** Witness *)

(** Ten milliseconds between readings. Callback [true] registers itself again after
    250 ms, callback [false] cancels timer 2. *)
Definition sample_clock (i : Z) : Z := i * 10000000.
Abbreviation SampleLoop := (Loop (CB := bool) (W := unit)).
Definition sample_fire (cb : bool) (l : SampleLoop) : outcome SampleLoop :=
  Ok (if cb then (register_timer sample_clock 250 (Some true) l).2 else cancel_timer 2 l).
Definition sample_loop : SampleLoop :=
  let l := mk_loop true 1 queue_empty ∅ tt 0 in
  let l := (register_timer sample_clock 10 (Some true) l).2 in
  let l := (register_timer sample_clock 20 (Some true) l).2 in
  (register_timer sample_clock 5 (Some false) l).2.

(** Timer 1 is due first, timer 3 next, and cancels timer 2. *)
Definition sample_log : list (TimerEvent (CB := bool)) :=
  [Fired (mk_timer 1 10000000 true) 30000000; Fired (mk_timer 3 25000000 false) 50000000;
   Pruned (mk_timer 2 30000000 true)].

Lemma sample_clock_mono i j : i ≤ j → sample_clock i ≤ sample_clock j.
Proof. unfold sample_clock. lia. Qed.

Lemma sample_fire_calls cb l l' :
  sample_fire cb l = Ok l' → 0 < next_timer_id l → next_timer_id l + 1 < 2 ^ 64 →
  calls sample_clock l l' ∧ next_timer_id l' ≤ next_timer_id l + 1.
Proof.
  intros [= <-] Hp H. destruct cb; simpl; split; try lia.
  - eapply (calls_timer _ _ 250 (Some true)); [lia|done|apply calls_nil].
  - rewrite wrap_small; lia.
  - eapply (calls_cancel _ _ 2), calls_nil.
Qed.

Lemma sample_loop_wf : loop_wf sample_loop.
Proof.
  assert (ids sample_loop = [3; 2; 1]) as E by done.
  assert (next_timer_id sample_loop = 4) as En by done.
  unfold loop_wf. rewrite E, En. split; [done|]. split.
  - apply (bool_decide_unpack _). by vm_compute.
  - intros i Hi. rewrite !elem_of_cons, elem_of_nil in Hi. lia.
Qed.

Lemma timers_fire_in_order_witness :
  (∃ timeout_ms now l',
     timer_phase sample_clock sample_fire 5 (sample_clock (reads sample_loop))
       (now_ sample_clock sample_loop).2 [] = Ok (timeout_ms, now, l', sample_log) ∧
     phase_end timeout_ms now l') ∧
  ∃ fuel, timer_phase sample_clock sample_fire fuel (sample_clock (reads sample_loop))
    (now_ sample_clock sample_loop).2 [] ≠ Fuel.
Proof.
  destruct (timers_fire_in_order sample_clock sample_fire 1 sample_loop sample_clock_mono
    ltac:(lia) sample_fire_calls sample_loop_wf) as [Hok Hends]. split.
  - eexists _, _, _. split; [vm_compute; reflexivity|].
    eapply (Hok 5%nat); [vm_compute; reflexivity|vm_compute; reflexivity].
  - apply (Hends 250000000 1 100000000).
    + done.
    + intros [] l l' [= <-]; simpl; lia.
    + intros [] l l' u [= <-]; simpl; [|auto]. intros [->|H]%elem_of_cons; [right; simpl; lia|auto].
    + by vm_compute.
    + by vm_compute.
    + replace (reads sample_loop + 1 + _) with 10 by done. intros i Hi. unfold sample_clock. lia.
    + by vm_compute.
Defined.
