(* ===== verification/Latency.v ===== *)
(** * Event loop: the dispatch latencies of [event_loop.cpp]

    What [run] records for each callback it dispatches, which does not change what is
    dispatched (Timers.v leaves it out), and the percentiles that
    [print_latency_stats] prints. A sample is a [double] made from a count of
    microseconds, which it holds exactly below 2^53, so it is that integer here;
    the average, which sums the doubles, is not modelled. *)

From S2P Require Import Prelude EventLoop Timers.

(** [duration_cast<microseconds>(callback_start - wait_end).count()]; the clock is read
    in nanoseconds and need not be monotone. *)
Definition sample (wait_end callback_start : Z) : Z := Z.quot (callback_start - wait_end) 1000.

Section Dispatch.
Context {CB W FdCB X : Type} `{TQ : TimerQueue CB}.
Implicit Types l : Loop (CB := CB) (W := W).
Variable fds_of : W → Fds FdCB.
Variable fire_fd : FdCB → Z → Z → X → Loop (CB := CB) (W := W) → outcome (Loop (CB := CB) (W := W)).
(** The readings of [high_resolution_clock]. *)
Variable hr_clock : Z → Z.

(** The loop over the events of a poll that ended at [wait_end], with [latencies_us_]
    and how often the clock was read. *)
Fixpoint timed_dispatch (wait_end : Z) (evs : list (Z * Z * X)) l (reads : Z) (latencies_us_ : list Z)
    : outcome (Loop (CB := CB) (W := W) * Z * list Z) :=
  match evs with
  | [] => Ok (l, reads, latencies_us_)
  | (fd, epoll_evs, x) :: evs =>
      match fd_callbacks (fds_of (rest l)) !! fd with
      | Some callback =>
          let latency := sample wait_end (hr_clock reads) in
          l ← fire_fd callback fd epoll_evs x l;
          timed_dispatch wait_end evs l (reads + 1) (latencies_us_ ++ [latency])
      | None => timed_dispatch wait_end evs l reads latencies_us_
      end
  end.

(** The samples have no part in what is dispatched. *)
Lemma timed_dispatch_erases wait_end evs l reads latencies :
  (x ← timed_dispatch wait_end evs l reads latencies; Ok x.1.1) = dispatch fds_of fire_fd evs l.
Proof.
  revert l reads latencies. induction evs as [|[[fd e] x] evs IH]; intros l reads latencies; [done|].
  cbn [timed_dispatch dispatch]. destruct (_ !! fd) as [callback|]; [|apply IH].
  destruct (fire_fd callback fd e x l) as [l'| | |]; [apply IH|done..].
Qed.

(** One sample for each callback that was called, at most one per event. *)
Lemma timed_dispatch_samples wait_end evs l reads latencies l' reads' latencies' :
  timed_dispatch wait_end evs l reads latencies = Ok (l', reads', latencies') →
  reads ≤ reads' ≤ reads + zlen evs ∧
  latencies' = latencies ++ ((λ i, sample wait_end (hr_clock i)) <$> seqZ reads (reads' - reads)).
Proof.
  revert l reads latencies. induction evs as [|[[fd e] x] evs IH]; intros l reads latencies H; simpl in H.
  - injection H as -> -> ->. rewrite Z.sub_diag. split; [unfold zlen; simpl; lia|]. by rewrite app_nil_r.
  - rewrite zlen_cons. destruct (_ !! fd) as [callback|]; [|apply IH in H as [? ?]; split; [lia|done]].
    apply bind_ok in H as (l1 & _ & H). apply IH in H as [? ->]. split; [lia|].
    rewrite (seqZ_cons reads (reads' - reads)) by lia. rewrite fmap_cons, <- app_assoc. simpl. do 4 f_equal; lia.
Qed.

(** With a clock that does not go back, no sample is negative. *)
Lemma sample_nonneg wait_end start : wait_end ≤ start → 0 ≤ sample wait_end start.
Proof. intros. unfold sample. apply Z.quot_pos; lia. Qed.
End Dispatch.

(** What is printed, without the average. *)
Record latency_stats := mk_stats { stat_n : Z; stat_p50 : Z; stat_p95 : Z; stat_p99 : Z }.

(** [sorted[n * k / 100]]. *)
Definition percentile (sorted : list Z) (k : Z) : outcome Z :=
  match znth sorted (u64 (zlen sorted * k) / 100) with
  | Some x => Ok x
  | None => UB "vector index out of range"
  end.

(** [None]: no events were recorded. *)
Definition print_latency_stats (latencies_us_ : list Z) : outcome (option latency_stats) :=
  if bool_decide (latencies_us_ = []) then Ok None
  else
    let sorted := merge_sort Z.le latencies_us_ in
    p50 ← percentile sorted 50;
    p95 ← percentile sorted 95;
    p99 ← percentile sorted 99;
    Ok (Some (mk_stats (zlen sorted) p50 p95 p99)).

(** ** Lemmas *)

(** [x] stands [i] places from the least of [l]: [i] others are at most [x], and the
    rest at least. *)
Definition ranked (l : list Z) (i x : Z) : Prop :=
  i < zlen (filter (λ y, y ≤ x) l) ∧ zlen l - i ≤ zlen (filter (λ y, x ≤ y) l).

Lemma zlen_Permutation {A} (l k : list A) : l ≡ₚ k → zlen l = zlen k.
Proof. intros H. unfold zlen. by rewrite H. Qed.

Lemma filter_all (P : Z → Prop) `{∀ x, Decision (P x)} (l : list Z) :
  (∀ x, x ∈ l → P x) → filter P l = l.
Proof.
  induction l as [|x l IH]; [done|]. intros HP. rewrite filter_cons_True by (apply HP; left).
  rewrite IH; [done|]. intros y Hy. apply HP. by right.
Qed.

Lemma sorted_ranked s i x : StronglySorted Z.le s → znth s i = Some x → ranked s i x.
Proof.
  intros Hs Hx. pose proof (znth_Some _ _ _ Hx) as Hi. unfold znth in Hx. case_ifs_in Hx.
  apply list_elem_of_split_length in Hx as (l1 & l2 & -> & El). unfold ranked, zlen in *.
  rewrite length_app in Hi |- *. simpl in *. rewrite !filter_app, !filter_cons, !length_app.
  rewrite !decide_True by lia. simpl.
  assert (filter (λ y, y ≤ x) l1 = l1) as ->.
  { apply filter_all. intros y Hy. apply (StronglySorted_app_1_elem_of _ _ _ _ _ Hs Hy). left. }
  assert (filter (λ y, x ≤ y) l2 = l2) as ->.
  { apply filter_all. intros y Hy.
    apply StronglySorted_app_1_r, StronglySorted_cons in Hs as [Hf _]. by rewrite Forall_forall in Hf; apply Hf. }
  lia.
Qed.

Lemma ranked_Permutation l k i x : l ≡ₚ k → ranked l i x → ranked k i x.
Proof.
  intros H. unfold ranked.
  assert (∀ P (D : ∀ y : Z, Decision (P y)), zlen (filter P l) = zlen (filter P k)) as E.
  { intros P D. by apply zlen_Permutation, filter_Permutation. }
  by rewrite !E, (zlen_Permutation _ _ H).
Qed.

(** A later place holds a value at least as great. *)
Lemma sorted_monotone s i j x y :
  StronglySorted Z.le s → znth s i = Some x → znth s j = Some y → i ≤ j → x ≤ y.
Proof.
  unfold znth. intros Hs Hx Hy Hij. case_ifs_in Hx. case_ifs_in Hy.
  destruct (decide (i = j)) as [->|]; [rewrite Hx in Hy; by injection Hy as ->|].
  apply list_elem_of_split_length in Hx as (l1 & l2 & -> & El).
  rewrite lookup_app_r in Hy by lia. rewrite lookup_cons_ne_0 in Hy by lia.
  apply StronglySorted_app_1_r, StronglySorted_cons in Hs as [Hf _].
  rewrite Forall_forall in Hf. by apply Hf, (list_elem_of_lookup_2 _ _ _ Hy).
Qed.

Lemma percentile_ok l k :
  l ≠ [] → zlen l < 2 ^ 57 → 0 ≤ k < 100 →
  ∃ x, percentile (merge_sort Z.le l) k = Ok x ∧
    znth (merge_sort Z.le l) (zlen l * k / 100) = Some x ∧ ranked l (zlen l * k / 100) x.
Proof.
  intros Hl Hn Hk. pose proof (merge_sort_Permutation Z.le l) as Hp.
  assert (0 < zlen l) by (destruct l as [|x l]; [done|]; rewrite zlen_cons; pose proof (zlen_nonneg l); lia).
  unfold percentile. rewrite (zlen_Permutation _ _ Hp), wrap_small by nia.
  destruct (znth_is_Some (merge_sort Z.le l) (zlen l * k / 100)) as [x Hx].
  { rewrite (zlen_Permutation _ _ Hp). split; [apply Z.div_pos; nia|apply Z.div_lt_upper_bound; nia]. }
  rewrite Hx. exists x. split_and!; [done..|]. apply (ranked_Permutation _ _ _ _ Hp).
  apply sorted_ranked; [by apply (StronglySorted_merge_sort Z.le)|done].
Qed.

(** The statistics of any samples are printed: none if there are none, and else the
    three percentiles, in order, each with its share of the samples at or below it.
    So many samples that [n * 99] wraps do not fit in memory. *)
Lemma print_latency_stats_spec l :
  zlen l < 2 ^ 57 →
  (l = [] → print_latency_stats l = Ok None) ∧
  (l ≠ [] → ∃ s, print_latency_stats l = Ok (Some s) ∧ stat_n s = zlen l ∧
     stat_p50 s ≤ stat_p95 s ≤ stat_p99 s ∧
     ranked l (zlen l * 50 / 100) (stat_p50 s) ∧ ranked l (zlen l * 95 / 100) (stat_p95 s) ∧
     ranked l (zlen l * 99 / 100) (stat_p99 s)).
Proof.
  intros Hn. split; [by intros ->|]. intros Hl. unfold print_latency_stats.
  rewrite bool_decide_eq_false_2 by done.
  destruct (percentile_ok l 50) as (a & -> & Ha & ?); [done..|].
  destruct (percentile_ok l 95) as (b & -> & Hb & ?); [done..|].
  destruct (percentile_ok l 99) as (c & -> & Hc & ?); [done..|]. cbn [mbind outcome_bind].
  eexists. split; [done|]. simpl. pose proof (zlen_nonneg l).
  assert (StronglySorted Z.le (merge_sort Z.le l)) as Hs by apply (StronglySorted_merge_sort Z.le).
  split_and!; try done.
  - apply zlen_Permutation, merge_sort_Permutation.
  - apply (sorted_monotone _ _ _ _ _ Hs Ha Hb). apply Z.div_le_mono; lia.
  - apply (sorted_monotone _ _ _ _ _ Hs Hb Hc). apply Z.div_le_mono; lia.
Qed.
