(* ===== verification/World.v ===== *)
(** * The state the running program keeps

    The objects [main] wires together: the connections with their buffers and
    callbacks, the event loop's descriptors, the coordinator's [peers_], the peer
    manager's tables, the piece manager and the picker, in one record; and the
    state-and-error monad [M] the handlers are written in. What the kernel answers
    ([send], [connect], [epoll_ctl]) is read from scripts. *)

From S2P Require Import Prelude StdString Bencode Bitfield Hasher Torrent PieceManager.
From S2P Require Import PiecePicker PeerMessage Socket EventLoop.

Inductive ConnectionState := Idle | Connecting | Handshaking | Active | Disconnected.
#[export] Instance connection_state_eq_dec : EqDecision ConnectionState.
Proof. solve_decision. Defined.

(** What one call of [::send] does: it takes up to [n] of the bytes offered, none, or
    fails with [EINTR], [EAGAIN] or another error. *)
Inductive SendResult := Sends (n : Z) | SendsNone | SendInterrupted | SendWouldBlock | SendFails.

(** The two functions a connection's [on_disconnect_cb_] can hold: the one
    [PeerManager::connect_to_peer] installs, for its key, and the one
    [DownloadCoordinator::register_peer] installs. *)
Inductive DisconnectCb := ManagerCb (key : list byte) | CoordinatorCb.

(** [PeerConnection]. The handshake callback is the peer manager's, the message
    callback the coordinator's, where set. *)
Record Conn := mk_conn {
  c_ip : list byte;
  c_port : Z;
  c_fd : Z;
  c_state : ConnectionState;
  am_choking : bool;
  am_interested : bool;
  peer_choking : bool;
  peer_interested : bool;
  rx_buffer : list byte;
  tx_buffer : list byte;
  on_handshake : bool;
  on_message : bool;
  on_disconnect : option DisconnectCb;
}.

Definition new_conn (ip : list byte) (port : Z) : Conn :=
  mk_conn ip port (-1) Idle true false true false [] [] false false None.

Definition with_fd (fd : Z) (c : Conn) : Conn :=
  mk_conn (c_ip c) (c_port c) fd (c_state c) (am_choking c) (am_interested c) (peer_choking c)
    (peer_interested c) (rx_buffer c) (tx_buffer c) (on_handshake c) (on_message c)
    (on_disconnect c).
Definition with_state (s : ConnectionState) (c : Conn) : Conn :=
  mk_conn (c_ip c) (c_port c) (c_fd c) s (am_choking c) (am_interested c) (peer_choking c)
    (peer_interested c) (rx_buffer c) (tx_buffer c) (on_handshake c) (on_message c)
    (on_disconnect c).
Definition with_am (choking interested : bool) (c : Conn) : Conn :=
  mk_conn (c_ip c) (c_port c) (c_fd c) (c_state c) choking interested (peer_choking c)
    (peer_interested c) (rx_buffer c) (tx_buffer c) (on_handshake c) (on_message c)
    (on_disconnect c).
Definition with_peer (choking interested : bool) (c : Conn) : Conn :=
  mk_conn (c_ip c) (c_port c) (c_fd c) (c_state c) (am_choking c) (am_interested c) choking
    interested (rx_buffer c) (tx_buffer c) (on_handshake c) (on_message c) (on_disconnect c).
Definition with_rx (rx : list byte) (c : Conn) : Conn :=
  mk_conn (c_ip c) (c_port c) (c_fd c) (c_state c) (am_choking c) (am_interested c)
    (peer_choking c) (peer_interested c) rx (tx_buffer c) (on_handshake c) (on_message c)
    (on_disconnect c).
Definition with_tx (tx : list byte) (c : Conn) : Conn :=
  mk_conn (c_ip c) (c_port c) (c_fd c) (c_state c) (am_choking c) (am_interested c)
    (peer_choking c) (peer_interested c) (rx_buffer c) tx (on_handshake c) (on_message c)
    (on_disconnect c).
Definition with_callbacks (handshake message : bool) (disconnect : option DisconnectCb) (c : Conn)
    : Conn :=
  mk_conn (c_ip c) (c_port c) (c_fd c) (c_state c) (am_choking c) (am_interested c)
    (peer_choking c) (peer_interested c) (rx_buffer c) (tx_buffer c) handshake message disconnect.

(** [DownloadCoordinator::RequestedBlock] and [PeerState]. *)
Record RequestedBlock := mk_request { r_piece : Z; r_begin : Z; r_length : Z }.

Record PeerState := mk_peer {
  p_bitfield : Bitfield;
  outstanding : list RequestedBlock;
  active_piece : option Z;
}.

(** Iteration over an [unordered_map] visits its keys in an order of its own. *)
Class MapOrder := {
  order : gmap Z PeerState → list Z;
  order_keys m : order m ≡ₚ (map_to_list m).*1;
}.

(** What the objects are constructed with. *)
Class Params := {
  info_hash_ : list byte;
  our_peer_id_ : list byte;
  max_connections_ : Z;
  num_pieces_ : Z;
}.

Section World.
Context `{R : UniformRng}.

Record World := mk_world {
  conns : gmap Z Conn;                    (* the objects, by address *)
  fds : Fds Z;                            (* the event loop's: whose handle_events to call *)
  peers : gmap Z PeerState;               (* DownloadCoordinator::peers_ *)
  pm : PieceManager;
  picker : PiecePicker;
  active_peers : gmap (list byte) Z;      (* PeerManager::active_peers_ *)
  blacklist : gset (list byte);
  completed : list (Z * list byte);       (* the calls of on_piece_completed_cb_, oldest first *)
  sends : list SendResult;                (* what ::send will answer; then it would block *)
  connects : list (ConnectStatus * Z * bool); (* connect_async: status and descriptor; EPOLL_CTL_ADD *)
}.

Definition set_conns f (w : World) : World :=
  mk_world (f (conns w)) (fds w) (peers w) (pm w) (picker w)
    (active_peers w) (blacklist w) (completed w) (sends w) (connects w).
Definition set_fds f (w : World) : World :=
  mk_world (conns w) (f (fds w)) (peers w) (pm w) (picker w)
    (active_peers w) (blacklist w) (completed w) (sends w) (connects w).
Definition set_peers f (w : World) : World :=
  mk_world (conns w) (fds w) (f (peers w)) (pm w) (picker w)
    (active_peers w) (blacklist w) (completed w) (sends w) (connects w).
Definition set_pm x (w : World) : World :=
  mk_world (conns w) (fds w) (peers w) x (picker w)
    (active_peers w) (blacklist w) (completed w) (sends w) (connects w).
Definition set_picker x (w : World) : World :=
  mk_world (conns w) (fds w) (peers w) (pm w) x
    (active_peers w) (blacklist w) (completed w) (sends w) (connects w).
Definition set_active f (w : World) : World :=
  mk_world (conns w) (fds w) (peers w) (pm w) (picker w)
    (f (active_peers w)) (blacklist w) (completed w) (sends w) (connects w).
Definition set_blacklist f (w : World) : World :=
  mk_world (conns w) (fds w) (peers w) (pm w) (picker w)
    (active_peers w) (f (blacklist w)) (completed w) (sends w) (connects w).
Definition set_completed f (w : World) : World :=
  mk_world (conns w) (fds w) (peers w) (pm w) (picker w)
    (active_peers w) (blacklist w) (f (completed w)) (sends w) (connects w).
Definition set_sends x (w : World) : World :=
  mk_world (conns w) (fds w) (peers w) (pm w) (picker w)
    (active_peers w) (blacklist w) (completed w) x (connects w).
Definition set_connects x (w : World) : World :=
  mk_world (conns w) (fds w) (peers w) (pm w) (picker w)
    (active_peers w) (blacklist w) (completed w) (sends w) x.

(** ** The monad of the handlers *)

Definition M (A : Type) : Type := World → outcome (A * World).

#[export] Instance M_ret : MRet M := λ A a w, Ok (a, w).
#[export] Instance M_bind : MBind M := λ A B f m w,
  match m w with
  | Ok (a, w) => f a w
  | Throw e => Throw e
  | UB what => UB what
  | Fuel => Fuel
  end.

Definition gets {A} (f : World → A) : M A := λ w, Ok (f w, w).
Definition modify (f : World → World) : M unit := λ w, Ok (tt, f w).
Definition lift {A} (m : outcome A) : M A := λ w,
  match m with
  | Ok a => Ok (a, w)
  | Throw e => Throw e
  | UB what => UB what
  | Fuel => Fuel
  end.
Definition ub {A} (what : string) : M A := λ _, UB what.
Definition out_of_fuel {A} : M A := λ _, Fuel.
Definition when (b : bool) (m : M unit) : M unit := if b then m else mret tt.

(** The connection at an address; there is one, or the program is not what it was
    compiled from. *)
Definition conn (p : Z) : M Conn := λ w,
  match conns w !! p with Some c => Ok (c, w) | None => UB "no object at the address" end.
Definition upd_conn (p : Z) (f : Conn → Conn) : M unit := modify (set_conns (alter f p)).

(** [state] in the coordinator: a reference into [peers_], dangling once the entry is
    erased. *)
Definition peer_state (p : Z) : M PeerState := λ w,
  match peers w !! p with
  | Some st => Ok (st, w)
  | None => UB "reference to an erased element of peers_"
  end.
Definition put_peer (p : Z) (st : PeerState) : M unit := modify (set_peers <[p := st]>).

(** ** Runs that return *)

Lemma bindM_ok {A B} (m : M A) (f : A → M B) w b w' :
  (m ≫= f) w = Ok (b, w') ↔ ∃ a w1, m w = Ok (a, w1) ∧ f a w1 = Ok (b, w').
Proof.
  unfold mbind, M_bind. destruct (m w) as [[a w1]| | |]; split; try done; [eauto|..];
    intros (a' & w1' & E & H); by simplify_eq.
Qed.

Lemma lift_ok {A} (m : outcome A) w a w' : lift m w = Ok (a, w') ↔ m = Ok a ∧ w' = w.
Proof. unfold lift. destruct m; naive_solver. Qed.

Lemma conn_ok p w c w' : conn p w = Ok (c, w') ↔ conns w !! p = Some c ∧ w' = w.
Proof. unfold conn. destruct (conns w !! p); naive_solver. Qed.

Lemma peer_state_ok p w st w' : peer_state p w = Ok (st, w') ↔ peers w !! p = Some st ∧ w' = w.
Proof. unfold peer_state. destruct (peers w !! p); naive_solver. Qed.

Lemma when_ok b m w u w' :
  when b m w = Ok (u, w') ↔ (b = true ∧ m w = Ok (u, w')) ∨ (b = false ∧ w' = w).
Proof.
  unfold when. destruct u, b; split; auto.
  - intros [[_ H] | [H _]]; done.
  - intros H. injection H as <-. by right.
  - intros [[H _] | [_ ->]]; done.
Qed.

End World.
Arguments M {R} A.

(** [inv_m H] takes apart [H : (x ← m; k x) w = Ok (b, w')], or what a primitive
    returned. *)
Ltac inv_m H :=
  lazymatch type of H with
  | (_ ≫= _) _ = Ok _ =>
      let x := fresh "x" in let w1 := fresh "w" in let H1 := fresh H in
      apply bindM_ok in H as (x & w1 & H1 & H)
  | gets _ _ = Ok _ => injection H as <- <-
  | modify _ _ = Ok _ => injection H as <- <-
  | upd_conn _ _ _ = Ok _ => injection H as <- <-
  | put_peer _ _ _ = Ok _ => injection H as <- <-
  | mret _ _ = Ok _ => injection H as ? <-; try subst
  | conn _ _ = Ok _ => apply conn_ok in H as [H ->]
  | peer_state _ _ = Ok _ => apply peer_state_ok in H as [H ->]
  | lift _ _ = Ok _ => apply lift_ok in H as [H ->]
  end.
