(* ===== verification/PeerConnection.v ===== *)
(** * Peer connections: [peer_connection.hpp], [peer_connection.cpp]

    The connection state machine: connecting, the handshake, sending, receiving and
    disconnecting. The callbacks are the interfaces [DisconnectHandler] and
    [MessageHandler]: what the peer manager and the coordinator install is in their
    files, and the theorems here hold for any handlers. *)

From S2P Require Import Prelude StdString Bencode Bitfield Hasher Torrent PieceManager.
From S2P Require Import PiecePicker PeerMessage Socket EventLoop World.

(** Calling [on_disconnect_cb_]. *)
Class DisconnectHandler `{R : UniformRng} := run_on_disconnect : Z → DisconnectCb → M unit.

(** Calling [on_handshake_cb_] and [on_message_cb_]. *)
Class MessageHandler `{R : UniformRng} := {
  run_on_handshake : Z → HandshakeMsg → M unit;
  run_on_message : Z → PeerMessage → M unit;
}.

(** What one call of [::recv] does. *)
Inductive RecvResult := Received (bytes : list byte) | RecvClosed | RecvWouldBlock
                      | RecvInterrupted | RecvFails.

Section PeerConnection.
Context `{R : UniformRng} {prm : Params} {DH : DisconnectHandler}.

(** [if (on_disconnect_cb_) on_disconnect_cb_();] *)
Definition call_on_disconnect (p : Z) : M unit :=
  c ← conn p;
  match on_disconnect c with Some cb => run_on_disconnect p cb | None => mret tt end.

Definition disconnect (p : Z) : M unit :=
  c ← conn p;
  if bool_decide (c_state c = Disconnected) then mret tt
  else
    _ ← upd_conn p (with_state Disconnected);
    _ ← when (negb (c_fd c =? -1))
          (_ ← modify (set_fds (unregister_fd (c_fd c)));
           upd_conn p (with_fd (-1)));
    _ ← upd_conn p (with_rx []);
    _ ← upd_conn p (with_tx []);
    call_on_disconnect p.

Definition update_epoll_interests (p : Z) : M unit :=
  c ← conn p;
  if bool_decide (c_state c = Disconnected ∨ c_state c = Idle) then mret tt
  else
    let events := Z.lor (Z.lor EPOLLIN EPOLLRDHUP) (Z.lor EPOLLERR EPOLLHUP) in
    let events :=
      if negb (bool_decide (tx_buffer c = [])) || bool_decide (c_state c = Connecting)
      then Z.lor events EPOLLOUT else events in
    modify (set_fds (modify_fd (c_fd c) events)).

(** The loop over [::send]: the bytes sent, whether it failed, and what is left of
    the script. An empty script would block. *)
Fixpoint send_loop (script : list SendResult) (size total_sent : Z) : Z * bool * list SendResult :=
  if size <=? total_sent then (total_sent, false, script)
  else
    match script with
    | [] => (total_sent, false, [])
    | Sends n :: s =>
        send_loop s size (if 0 <? n then total_sent + Z.min n (size - total_sent) else total_sent)
    | SendsNone :: s | SendInterrupted :: s => send_loop s size total_sent
    | SendWouldBlock :: s => (total_sent, false, s)
    | SendFails :: s => (total_sent, true, s)
    end.

Definition handle_write (p : Z) : M unit :=
  c ← conn p;
  if bool_decide (tx_buffer c = []) then update_epoll_interests p
  else
    script ← gets sends;
    (* a closed descriptor fails with EBADF *)
    let '(total_sent, error, script) :=
      if c_fd c =? -1 then (0, true, script) else send_loop script (zlen (tx_buffer c)) 0 in
    _ ← modify (set_sends script);
    _ ← when (0 <? total_sent) (upd_conn p (with_tx (zdrop total_sent (tx_buffer c))));
    if error then disconnect p else update_epoll_interests p.

(** The flags [send_message] records. *)
Definition sent_flags (msg : PeerMessage) (c : Conn) : Conn :=
  match msg with
  | ChokeMsg => with_am true (am_interested c) c
  | UnchokeMsg => with_am false (am_interested c) c
  | InterestedMsg => with_am (am_choking c) true c
  | NotInterestedMsg => with_am (am_choking c) false c
  | _ => c
  end.

Definition send_message (p : Z) (msg : PeerMessage) : M unit :=
  c ← conn p;
  if bool_decide (c_state c = Disconnected) then mret tt
  else
    _ ← upd_conn p (sent_flags msg);
    bytes ← lift (serialize msg);
    _ ← upd_conn p (with_tx (tx_buffer c ++ bytes));
    if bool_decide (c_state c = Handshaking ∨ c_state c = Active) then handle_write p
    else mret tt.

Definition send_handshake (p : Z) : M unit :=
  bytes ← lift (handshake_serialize (mk_handshake (zeros 8) info_hash_ our_peer_id_));
  c ← conn p;
  _ ← upd_conn p (with_tx (tx_buffer c ++ bytes));
  handle_write p.

(** [connect], once [register_fd] answered. *)
Definition registered (p : Z) (status : ConnectStatus) (reg_ok : bool) : M unit :=
  if negb reg_ok then
    _ ← upd_conn p (with_state Disconnected);
    _ ← upd_conn p (with_fd (-1));
    call_on_disconnect p
  else
    _ ← match status with
        | Connected =>
            _ ← upd_conn p (with_state Handshaking);
            send_handshake p
        | _ => mret tt
        end;
    update_epoll_interests p.

(** The status and descriptor [connect_async] gives, and whether epoll takes the
    descriptor, come from the script. *)
Definition connect (p : Z) : M unit :=
  c ← conn p;
  if negb (bool_decide (c_state c = Idle)) then mret tt
  else
    _ ← upd_conn p (with_state Connecting);
    script ← gets connects;
    let '(status, fd, ctl_ok) := default (ConnectError, -1, false) (head script) in
    _ ← modify (set_connects (tail script));
    match status with
    | ConnectError =>
        _ ← upd_conn p (with_state Disconnected);
        call_on_disconnect p
    | _ =>
        _ ← upd_conn p (with_fd fd);
        l ← gets fds;
        let '(reg_ok, l) := register_fd ctl_ok fd
          (Z.lor (Z.lor EPOLLIN EPOLLOUT) (Z.lor EPOLLRDHUP (Z.lor EPOLLERR EPOLLHUP))) p l in
        _ ← modify (set_fds (λ _, l));
        registered p status reg_ok
    end.

(** [create_with_socket]: an object over a connected socket. What [register_fd]
    answers is ignored. *)
Definition create_with_socket (socket_fd : Z) (ctl_ok : bool) : M Z :=
  p ← gets (λ w, fresh (dom (conns w)));
  _ ← modify (set_conns <[p :=
        with_state Handshaking (with_fd socket_fd (new_conn (bs "127.0.0.1") 0))]>);
  l ← gets fds;
  let '(_, l) := register_fd ctl_ok socket_fd
    (Z.lor (Z.lor EPOLLIN EPOLLOUT) (Z.lor EPOLLRDHUP (Z.lor EPOLLERR EPOLLHUP))) p l in
  _ ← modify (set_fds (λ _, l));
  _ ← send_handshake p;
  _ ← update_epoll_interests p;
  mret p.

Section Receiving.
Context {MH : MessageHandler}.

(** The flags a received message sets. *)
Definition received_flags (msg : PeerMessage) (c : Conn) : Conn :=
  match msg with
  | ChokeMsg => with_peer true (peer_interested c) c
  | UnchokeMsg => with_peer false (peer_interested c) c
  | InterestedMsg => with_peer (peer_choking c) true c
  | NotInterestedMsg => with_peer (peer_choking c) false c
  | _ => c
  end.

(** One round of the loop of [process_rx_buffer]: whether to go on. *)
Definition process_round (p : Z) : M bool :=
  c ← conn p;
  match c_state c with
  | Handshaking =>
      if zlen (rx_buffer c) <? 68 then mret false
      else
        handshake_opt ← lift (handshake_deserialize (ztake 68 (rx_buffer c)));
        match handshake_opt with
        | None => _ ← disconnect p; mret false
        | Some handshake =>
            _ ← upd_conn p (with_rx (zdrop 68 (rx_buffer c)));
            _ ← upd_conn p (with_state Active);
            _ ← when (on_handshake c) (run_on_handshake p handshake);
            mret true
        end
  | Active =>
      '(msg_opt, consumed) ← lift (deserialize (rx_buffer c));
      if bool_decide (msg_opt = None) && (consumed =? 0) then mret false
      else
        _ ← when (0 <? consumed) (upd_conn p (with_rx (zdrop consumed (rx_buffer c))));
        match msg_opt with
        | None => mret true
        | Some msg =>
            _ ← upd_conn p (received_flags msg);
            _ ← when (on_message c) (run_on_message p msg);
            mret true
        end
  | _ => _ ← upd_conn p (with_rx []); mret false
  end.

Fixpoint process_loop (fuel : nat) (p : Z) : M unit :=
  match fuel with
  | O => out_of_fuel
  | S f =>
      c ← conn p;
      if bool_decide (rx_buffer c = []) then mret tt
      else
        continue ← process_round p;
        if (continue : bool) then process_loop f p else mret tt
  end.

(** Every round that goes on takes a byte off the buffer. *)
Definition process_rx_buffer (p : Z) : M unit :=
  c ← conn p;
  process_loop (S (List.length (rx_buffer c))) p.

(** The loop over [::recv]: the bytes, and whether it ended in end of file or failure.
    An empty script would block. *)
Fixpoint recv_loop (script : list RecvResult) (rx : list byte) : list byte * bool * bool :=
  match script with
  | [] | RecvWouldBlock :: _ => (rx, false, false)
  | Received bytes :: s => recv_loop s (rx ++ bytes)
  | RecvInterrupted :: s => recv_loop s rx
  | RecvClosed :: _ => (rx, true, false)
  | RecvFails :: _ => (rx, false, true)
  end.

Definition handle_read (recvs : list RecvResult) (p : Z) : M unit :=
  c ← conn p;
  (* a closed descriptor fails with EBADF *)
  let recvs := if c_fd c =? -1 then [RecvFails] else recvs in
  let '(rx, closed, error) := recv_loop recvs (rx_buffer c) in
  _ ← upd_conn p (with_rx rx);
  if closed then disconnect p
  else if error then disconnect p
  else process_rx_buffer p.

(** [handle_events]; [so_error]: [getsockopt(SO_ERROR)] fails or reports an error. *)
Definition handle_events (events : Z) (so_error : bool) (recvs : list RecvResult) (p : Z) : M unit :=
  if any_of events (Z.lor EPOLLERR EPOLLHUP) then disconnect p
  else if any_of events EPOLLRDHUP then disconnect p
  else
    c ← conn p;
    if bool_decide (c_state c = Connecting) && any_of events EPOLLOUT && so_error then disconnect p
    else
      _ ← when (bool_decide (c_state c = Connecting) && any_of events EPOLLOUT)
            (_ ← upd_conn p (with_state Handshaking); send_handshake p);
      _ ← when (any_of events EPOLLIN) (handle_read recvs p);
      when (any_of events EPOLLOUT) (handle_write p).

End Receiving.
End PeerConnection.
