(* ===== verification/Coordinator.v ===== *)
(** * Download coordinator and peer manager: [download_coordinator.*], [peer_manager.*]

    Which blocks are asked of whom, what is done with the blocks that come, and which
    peers are connected to; wired together as [main] does. The references into
    [peers_] that the handlers hold are modelled: using one after its element was
    erased is undefined behaviour, and so is going on with an iteration over [peers_]
    whose current element was erased. *)

From S2P Require Import Prelude StdString Bencode Bitfield Hasher Torrent PieceManager.
From S2P Require Import PiecePicker PeerMessage Socket EventLoop World PeerConnection Tracker.

Section Coordinator.
Context `{C : CryptoSHA1} `{R : UniformRng} {prm : Params} {MO : MapOrder}.

(** ** Unregistering, and the callbacks of a disconnection *)

Definition request_failed (req : RequestedBlock) : M unit :=
  modify (λ w, set_pm (block_request_failed (pm w) (r_piece req) (r_begin req)) w).

(** [for (const auto& x : v) f(x);] *)
Fixpoint for_each {A} (v : list A) (f : A → M unit) : M unit :=
  match v with [] => mret tt | x :: v => _ ← f x; for_each v f end.

Definition unregister_peer (p : Z) : M unit :=
  found ← gets (λ w, peers w !! p);
  match found with
  | None => mret tt
  | Some state =>
      _ ← modify (λ w, set_picker (remove_peer_bitfield (picker w) (p_bitfield state)) w);
      _ ← for_each (outstanding state) request_failed;
      modify (set_peers (delete p))
  end.

(** The callback [connect_to_peer] installs, with [on_peer_disconnected_cb_] as [main]
    sets it, and the one [register_peer] installs. *)
#[export] Instance on_disconnect_callbacks : DisconnectHandler := λ p cb,
  match cb with
  | ManagerCb key =>
      _ ← unregister_peer p;
      modify (set_active (delete key))
  | CoordinatorCb => unregister_peer p
  end.

(** ** Peer manager *)

Definition make_peer_key (ip : list byte) (port : Z) : list byte :=
  ip ++ bs ":" ++ to_string port.

Definition is_blacklisted (ip : list byte) (port : Z) (w : World) : bool :=
  bool_decide (make_peer_key ip port ∈ blacklist w).

Definition connect_to_peer (ip : list byte) (port : Z) : M unit :=
  active ← gets active_peers;
  if max_connections_ <=? Z.of_nat (size active) then mret tt
  else
    black ← gets (is_blacklisted ip port);
    if (black : bool) then mret tt
    else
      let key := make_peer_key ip port in
      if bool_decide (is_Some (active !! key)) then mret tt
      else
        p ← gets (λ w, fresh (dom (conns w)));
        _ ← modify (set_conns <[p := new_conn ip port]>);
        _ ← modify (set_active <[key := p]>);
        _ ← upd_conn p (λ c, with_callbacks true (on_message c) (Some (ManagerCb key)) c);
        connect p.

Fixpoint add_peers (infos : list PeerInfo) : M unit :=
  match infos with
  | [] => mret tt
  | info :: infos =>
      active ← gets active_peers;
      if max_connections_ <=? Z.of_nat (size active) then mret tt
      else
        black ← gets (is_blacklisted (ip info) (port info));
        if (black : bool) then add_peers infos
        else if bool_decide (is_Some (active !! make_peer_key (ip info) (port info))) then
          add_peers infos
        else
          _ ← connect_to_peer (ip info) (port info);
          add_peers infos
  end.

Definition blacklist_peer (ip : list byte) (port : Z) : M unit :=
  let key := make_peer_key ip port in
  _ ← modify (set_blacklist (λ b, {[key]} ∪ b));
  active ← gets active_peers;
  match active !! key with
  | Some peer => disconnect peer
  | None => mret tt
  end.

(** ** Coordinator *)

Definition register_peer (p : Z) : M unit :=
  _ ← put_peer p (mk_peer (Bitfield.make num_pieces_) [] None);
  upd_conn p (λ c, with_callbacks (on_handshake c) true (Some CoordinatorCb) c).

Definition with_outstanding (o : list RequestedBlock) (st : PeerState) : PeerState :=
  mk_peer (p_bitfield st) o (active_piece st).
Definition with_active_piece (a : option Z) (st : PeerState) : PeerState :=
  mk_peer (p_bitfield st) (outstanding st) a.
Definition with_bitfield (b : Bitfield) (st : PeerState) : PeerState :=
  mk_peer b (outstanding st) (active_piece st).

(** Our bitfield with the pieces added that have no pending block. *)
Definition completed_or_full (pm : PieceManager) : Bitfield :=
  foldl (λ b i, if has_pending_blocks pm i then b else Bitfield.set b i true)
    (bitfield pm) (seqZ 0 num_pieces_).

(** The active piece of the peer, picked if there is none. *)
Definition pick_active (p : Z) (state : PeerState) : M (option Z) :=
  match active_piece state with
  | Some i => mret (Some i)
  | None =>
      manager ← gets pm;
      pk ← gets picker;
      '(picked, pk) ← lift (pick_piece pk (p_bitfield state) (completed_or_full manager));
      _ ← modify (set_picker pk);
      match picked with
      | None => mret None
      | Some i => _ ← put_peer p (with_active_piece (Some i) state); mret (Some i)
      end
  end.

(** Ask for a block of the active piece, or give it up when none is pending. *)
Definition request_block (p : Z) (state : PeerState) (i : Z) : M unit :=
  manager ← gets pm;
  '(block_opt, manager) ← lift (get_next_block manager i);
  _ ← modify (set_pm manager);
  match block_opt with
  | None => put_peer p (with_active_piece None state)
  | Some block =>
      let req := mk_request (b_piece block) (b_begin block) (b_length block) in
      _ ← put_peer p (mk_peer (p_bitfield state) (outstanding state ++ [req]) (Some i));
      send_message p (RequestMsg (b_piece block) (b_begin block) (b_length block))
  end.

(** One round of the loop of [fill_request_pipeline] with the pipeline not full:
    whether to go on. *)
Definition fill_round (p : Z) : M bool :=
  state ← peer_state p;
  picked ← pick_active p state;
  match picked with
  | None => mret false
  | Some i => _ ← request_block p state i; mret true
  end.

Fixpoint fill_loop (fuel : nat) (p : Z) : M unit :=
  match fuel with
  | O => out_of_fuel
  | S f =>
      state ← peer_state p;
      if 5 <=? zlen (outstanding state) then mret tt
      else
        continue ← fill_round p;
        if (continue : bool) then fill_loop f p else mret tt
  end.

(** A round asks for a block, or drops the active piece; then the next round asks:
    two rounds per request, and two to find the end. *)
Definition fill_request_pipeline (p : Z) : M unit :=
  c ← conn p;
  if peer_choking c then mret tt
  else
    found ← gets (λ w, peers w !! p);
    match found with None => mret tt | Some _ => fill_loop 12 p end.

(** The loop of [cancel_piece_requests] over the requests of one peer: those kept so
    far and those to come. After each [send_message] the entry must still be there. *)
Fixpoint cancel_requests (piece_idx p : Z) (kept rest : list RequestedBlock) : M unit :=
  match rest with
  | [] => mret tt
  | r :: rest =>
      if r_piece r =? piece_idx then
        _ ← send_message p (CancelMsg (r_piece r) (r_begin r) (r_length r));
        state ← peer_state p;
        _ ← put_peer p (with_outstanding (kept ++ rest) state);
        cancel_requests piece_idx p kept rest
      else cancel_requests piece_idx p (kept ++ [r]) rest
  end.

(** [for (auto& [p, state] : peers_) body]: the element the loop stands on must not be
    erased by its body. *)
Fixpoint for_peers (keys : list Z) (body : Z → M unit) : M unit :=
  match keys with
  | [] => mret tt
  | p :: keys =>
      _ ← body p;
      _ ← peer_state p;
      for_peers keys body
  end.

Definition cancel_piece_requests (piece_idx : Z) : M unit :=
  keys ← gets (λ w, order (peers w));
  for_peers keys (λ p,
    state ← peer_state p;
    _ ← cancel_requests piece_idx p [] (outstanding state);
    state ← peer_state p;
    when (bool_decide (active_piece state = Some piece_idx))
      (put_peer p (with_active_piece None state))).

Definition broadcast_have (piece_idx : Z) : M unit :=
  keys ← gets (λ w, order (peers w));
  for_peers keys (λ p, send_message p (HaveMsg (u32 piece_idx))).

(** [on_peer_corrupted_cb_], as [main] sets it. *)
Definition on_peer_corrupted (p : Z) : M unit :=
  c ← conn p;
  blacklist_peer (c_ip c) (c_port c).

(** Drop the first request for the block. *)
Fixpoint erase_request (piece_idx begin : Z) (reqs : list RequestedBlock) : list RequestedBlock :=
  match reqs with
  | [] => []
  | r :: reqs =>
      if (r_piece r =? piece_idx) && (r_begin r =? begin) then reqs
      else r :: erase_request piece_idx begin reqs
  end.

(** [if (state.active_piece == piece_idx) state.active_piece = nullopt;] *)
Definition reset_active_piece (p piece_idx : Z) : M unit :=
  state ← peer_state p;
  when (bool_decide (active_piece state = Some piece_idx))
    (put_peer p (with_active_piece None state)).

(** A piece whose blocks are all received: verified and announced, or dropped and the
    peer reported. *)
Definition piece_received (p piece_idx : Z) : M unit :=
  manager ← gets pm;
  valid ← lift (validate_piece manager piece_idx);
  _ ← (if (valid : bool) then
         _ ← modify (set_completed (λ l, l ++ [(piece_idx, get_piece_data manager piece_idx)]));
         _ ← modify (set_pm (piece_completed manager piece_idx));
         _ ← cancel_piece_requests piece_idx;
         broadcast_have piece_idx
       else
         _ ← modify (set_pm (piece_failed manager piece_idx));
         on_peer_corrupted p);
  reset_active_piece p piece_idx.

(** [if (!peer->is_peer_choking()) fill_request_pipeline(peer);] *)
Definition top_off (p : Z) : M unit :=
  c ← conn p;
  when (negb (peer_choking c)) (fill_request_pipeline p).

(** [interested && !peer->is_interested()]: tell the peer. *)
Definition express_interest (p : Z) (interested : bool) : M unit :=
  c ← conn p;
  when (interested && negb (am_interested c)) (send_message p InterestedMsg).

Definition handle_choke (p : Z) (state : PeerState) : M unit :=
  _ ← for_each (outstanding state) request_failed;
  put_peer p (mk_peer (p_bitfield state) [] None).

(** The old bitfield out of the picker, the new one in; whether it has a piece we
    miss. *)
Definition replace_bitfield (p : Z) (state : PeerState) (bits : list byte) : M bool :=
  _ ← modify (λ w, set_picker (remove_peer_bitfield (picker w) (p_bitfield state)) w);
  let bf := Bitfield.of_bytes bits num_pieces_ in
  _ ← put_peer p (with_bitfield bf state);
  _ ← modify (λ w, set_picker (add_peer_bitfield (picker w) bf) w);
  manager ← gets pm;
  mret (existsb (λ i, Bitfield.has bf i && negb (has_piece manager i)) (seqZ 0 num_pieces_)).

Definition handle_bitfield (p : Z) (state : PeerState) (bits : list byte) : M unit :=
  interested ← replace_bitfield p state bits;
  _ ← express_interest p interested;
  top_off p.

Definition handle_have (p : Z) (state : PeerState) (idx : Z) : M unit :=
  if idx <? num_pieces_ then
    _ ← when (negb (Bitfield.has (p_bitfield state) idx))
          (_ ← put_peer p (with_bitfield (Bitfield.set (p_bitfield state) idx true) state);
           modify (λ w, set_picker (add_availability (picker w) idx) w));
    manager ← gets pm;
    express_interest p (negb (has_piece manager idx))
  else mret tt.

(** A block: the request off the list, the bytes to the piece manager, and what
    follows when they complete the piece. *)
Definition receive_block (p : Z) (state : PeerState) (piece_idx begin : Z) (block : list byte)
    : M unit :=
  _ ← put_peer p (with_outstanding (erase_request piece_idx begin (outstanding state)) state);
  manager ← gets pm;
  '(completed, manager) ← lift (block_received manager piece_idx begin block);
  _ ← modify (set_pm manager);
  when completed (piece_received p piece_idx).

Definition handle_piece (p : Z) (state : PeerState) (piece_idx begin : Z) (block : list byte)
    : M unit :=
  _ ← receive_block p state piece_idx begin block;
  top_off p.

Definition handle_peer_message (p : Z) (msg : PeerMessage) : M unit :=
  found ← gets (λ w, peers w !! p);
  match found with
  | None => mret tt
  | Some state =>
      match msg with
      | ChokeMsg => handle_choke p state
      | UnchokeMsg => fill_request_pipeline p
      | BitfieldMsg bits => handle_bitfield p state bits
      | HaveMsg idx => handle_have p state idx
      | PieceMsg piece_idx begin block => handle_piece p state piece_idx begin block
      | _ => mret tt
      end
  end.

(** The callbacks of a connection: the peer manager's on the handshake, with
    [on_peer_connected_cb_] as [main] sets it, and the coordinator's on a message. *)
#[export] Instance on_message_callbacks : MessageHandler := {
  run_on_handshake p _ := _ ← register_peer p; send_message p InterestedMsg;
  run_on_message := handle_peer_message;
}.

(** Test helpers of the coordinator. *)
Definition outstanding_request_count (p : Z) (w : World) : Z :=
  match peers w !! p with Some st => zlen (outstanding st) | None => 0 end.

Definition peer_active_piece (p : Z) (w : World) : option Z := peers w !! p ≫= active_piece.

Definition get_peer_bitfield (p : Z) (w : World) : option Bitfield := p_bitfield <$> peers w !! p.

(** Queries of the peer manager. *)
Definition active_connection_count (w : World) : Z := Z.of_nat (size (active_peers w)).

Definition get_active_peers (w : World) : list (list byte * Z) :=
  omap (λ kp, (λ c, (c_ip c, c_port c)) <$> conns w !! kp.2) (map_to_list (active_peers w)).

(** [~PeerManager]: the table is moved out, then each connection loses its callbacks
    and is disconnected. *)
Definition destroy_peer_manager : M unit :=
  active ← gets active_peers;
  _ ← modify (set_active (λ _, ∅));
  for_each (map_to_list active).*2 (λ p,
    _ ← upd_conn p (λ c, with_callbacks false (on_message c) None c);
    disconnect p).

Definition established_connection_count (w : World) : Z :=
  zlen (filter (λ kp, (c_state <$> conns w !! kp.2) = Some Active) (map_to_list (active_peers w))).

(** ** The program's steps *)

Definition start (m : TorrentMetadata) (seeded : Rng) : World :=
  mk_world ∅ no_fds ∅ (make_pm m) (make_picker (u64 (num_pieces m)) seeded) ∅ ∅ [] [] [].

(** What happens between two returns to the event loop: peers are added, a
    descriptor has events for its connection, or the kernel's next answers become
    known. *)
Inductive event :=
| AddPeers (infos : list PeerInfo)
| ConnectTo (ip : list byte) (port : Z)
| Events (fd events : Z) (so_error : bool) (recvs : list RecvResult)
| Kernel (sends : list SendResult) (connects : list (ConnectStatus * Z * bool)).

Definition run_event (e : event) : M unit :=
  match e with
  | AddPeers infos => add_peers infos
  | ConnectTo ip port => connect_to_peer ip port
  | Events fd events so_error recvs =>
      cb ← gets (λ w, fd_callbacks (fds w) !! fd);
      match cb with
      | Some p => handle_events events so_error recvs p
      | None => mret tt
      end
  | Kernel s c => modify (λ w, set_sends s (set_connects c w))
  end.

Fixpoint run_events (es : list event) : M unit :=
  match es with [] => mret tt | e :: es => _ ← run_event e; run_events es end.

End Coordinator.
