(* ===== verification/Keeps.v ===== *)
(** * Relations the handlers preserve

    [keeps Rel x]: if the computation [x] returns, its first and last world are related
    by [Rel]. The closure under the monad's operations, and the tactic that follows the
    structure of a handler; a file that tracks a relation gives the cases of its own
    primitives as hints. *)

From S2P Require Import Prelude Bitfield PiecePicker World Coordinator.

(** A computation that moves the world along a relation. *)
Definition keeps `{R : UniformRng} (Rel : World → World → Prop) {A} (x : M A) : Prop :=
  ∀ w a w', x w = Ok (a, w') → Rel w w'.

(** [keeps] is closed under the monad's operations when the relation is a preorder. *)
Section Keeps.
Context `{R : UniformRng} (Rel : World → World → Prop) `{!PreOrder Rel}.

Lemma keeps_bind {A B} (x : M A) (f : A → M B) :
  keeps Rel x → (∀ a, keeps Rel (f a)) → keeps Rel (x ≫= f).
Proof. intros Hx Hf w b w' H. inv_m H. etrans; [by eapply Hx|by eapply Hf]. Qed.

Lemma keeps_same {A} (x : M A) : (∀ w a w', x w = Ok (a, w') → w' = w) → keeps Rel x.
Proof. intros Hx w a w' H. by rewrite (Hx w a w' H). Qed.

Lemma keeps_ret {A} (a : A) : keeps Rel (mret a).
Proof. apply keeps_same. intros w b w' H. by inv_m H. Qed.
Lemma keeps_gets {A} (f : World → A) : keeps Rel (gets f).
Proof. apply keeps_same. intros w b w' H. by inv_m H. Qed.
Lemma keeps_lift {A} (x : outcome A) : keeps Rel (lift x).
Proof. apply keeps_same. intros w b w' H. by inv_m H. Qed.
Lemma keeps_conn p : keeps Rel (conn p).
Proof. apply keeps_same. intros w b w' H. by inv_m H. Qed.
Lemma keeps_peer_state p : keeps Rel (peer_state p).
Proof. apply keeps_same. intros w b w' H. by inv_m H. Qed.
Lemma keeps_when b x : keeps Rel x → keeps Rel (when b x).
Proof. destruct b; [done|]. intros _. apply keeps_ret. Qed.
Lemma keeps_modify f : (∀ w, Rel w (f w)) → keeps Rel (modify f).
Proof. intros Hf w b w' H. by inv_m H. Qed.
Lemma keeps_for_each {A} (l : list A) (f : A → M unit) :
  (∀ a, keeps Rel (f a)) → keeps Rel (for_each l f).
Proof.
  intros Hf. induction l as [|a l IH]; cbn [for_each]; [apply keeps_ret|].
  apply keeps_bind; [apply Hf|done].
Qed.
End Keeps.

(** Bind by bind, branch by branch; [tac] closes what is left. *)
Ltac keep_with tac :=
  repeat first
    [ solve [tac]
    | lazymatch goal with
      | |- keeps _ (_ ≫= _) => apply keeps_bind; [try solve [tac]| |intros ?]
      | |- keeps _ (when _ _) => apply keeps_when; [try solve [tac]|]
      | |- keeps _ (for_each _ _) => apply keeps_for_each; [try solve [tac]|intros ?]
      | |- keeps _ (match ?x with _ => _ end) => destruct x
      | |- keeps _ (let _ := _ in _) => cbv zeta
      | |- keeps _ (λ w, _) => intros ? ? ?
      end ].
