(* ===== verification/System.v ===== *)
(** * The running program: invariants

    The invariant of the world, in four parts, kept by every handler that returns:
    the piece manager and what was completed, the availability histogram, the
    connections and the tables they are in, and the outstanding requests. *)

From S2P Require Import Prelude StdString Bencode Bitfield Hasher Torrent PieceManager.
From S2P Require Import PiecePicker PeerMessage EventLoop World PeerConnection Coordinator.

(** What [main] passes to the constructors, for a torrent [m]. *)
Class ParamsFor (prm : Params) (m : TorrentMetadata) := {
  params_metadata : wf_metadata m;
  params_num_pieces : num_pieces_ = num_pieces m;
  params_max : 0 ≤ max_connections_ < 2 ^ 31;
}.

Section System.
Context `{C : CryptoSHA1} `{R : UniformRng} {prm : Params} {MO : MapOrder} {m : TorrentMetadata}
  {PF : ParamsFor prm m}.

(** ** Pieces: what was completed is verified *)

(** Every piece handed to [on_piece_completed_cb_] had the bytes the torrent's hash
    is of, none was handed over twice, and the bits of the bitfield are those pieces. *)
Definition verified (manager : PieceManager) (done : list (Z * list byte)) : Prop :=
  NoDup done.*1 ∧
  (∀ i d, (i, d) ∈ done →
     0 ≤ i < num_pieces m ∧ zlen d = piece_len m i ∧ znth (piece_hashes m) i = Some (hash d)) ∧
  ∀ i, 0 ≤ i → has_piece manager i = true ↔ i ∈ done.*1.

Definition pieces_ok (manager : PieceManager) (done : list (Z * list byte)) : Prop :=
  pm_wf manager ∧ metadata manager = m ∧ verified manager done.

(** ** Availability *)

Definition bitfields (ps : gmap Z PeerState) : list Bitfield :=
  p_bitfield <$> (map_to_list ps).*2.

(** An entry of [peers_]: a bitfield of the torrent's size, an active piece of the
    torrent. *)
Definition active_ok (st : PeerState) : Prop :=
  ∀ i, active_piece st = Some i → 0 ≤ i < num_pieces_.

Definition peer_ok (st : PeerState) : Prop :=
  wf (p_bitfield st) ∧ num_bits (p_bitfield st) = num_pieces_ ∧ active_ok st.

Definition avail_ok (pk : PiecePicker) (ps : gmap Z PeerState) : Prop :=
  pk_num_pieces pk = num_pieces_ ∧ tracks pk (bitfields ps) ∧
  map_Forall (λ _ st, peer_ok st) ps.

(** ** Connections *)

Definition key_of (c : Conn) : list byte := make_peer_key (c_ip c) (c_port c).

(** A registered peer has the coordinator's callbacks, sits in [active_peers_] under
    its own key, and is past its handshake, unless [dropping]. Every connection that is
    not disconnected sits there; it has the peer manager's callback until the
    coordinator replaces it. *)
Definition net_ok (dropping : Z → Prop) (cs : gmap Z Conn) (act : gmap (list byte) Z)
    (registered : gset Z) : Prop :=
  Z.of_nat (size act) ≤ max_connections_ ∧
  (∀ p, p ∈ registered → ∃ c, cs !! p = Some c ∧ on_disconnect c = Some CoordinatorCb ∧
     act !! key_of c = Some p ∧ (dropping p ∨ c_state c = Active)) ∧
  (∀ p c, cs !! p = Some c → c_state c ≠ Disconnected → act !! key_of c = Some p ∧
     (on_disconnect c = Some (ManagerCb (key_of c)) ∨
      on_disconnect c = Some CoordinatorCb ∧ c_state c = Active)).

(** ** Requests *)

Definition rkey (r : RequestedBlock) : Z * Z := (r_piece r, r_begin r).

(** The block asked for is known and not up for being asked again. *)
Definition live (manager : PieceManager) (r : RequestedBlock) : Prop :=
  ∃ st (k : nat) b, in_progress manager !! r_piece r = Some st ∧ ps_blocks st !! k = Some b ∧
    b_begin b = r_begin r ∧ b_state b ≠ Pending.

(** At most five requests per peer, none twice, none at two peers; and all live,
    unless [stale]. *)
Definition requests_ok (stale : Z → RequestedBlock → Prop) (manager : PieceManager)
    (ps : gmap Z PeerState) : Prop :=
  (∀ p st, ps !! p = Some st → zlen (outstanding st) ≤ 5 ∧ NoDup (rkey <$> outstanding st)) ∧
  (∀ p q sp sq r r', p ≠ q → ps !! p = Some sp → ps !! q = Some sq →
     r ∈ outstanding sp → r' ∈ outstanding sq → rkey r ≠ rkey r') ∧
  (∀ p st r, ps !! p = Some st → r ∈ outstanding st → stale p r ∨ live manager r).

Definition Inv (dropping : Z → Prop) (stale : Z → RequestedBlock → Prop) (w : World) : Prop :=
  pieces_ok (pm w) (completed w) ∧ avail_ok (picker w) (peers w) ∧
  net_ok dropping (conns w) (active_peers w) (dom (peers w)) ∧
  requests_ok stale (pm w) (peers w).

Definition nobody : Z → Prop := λ _, False.
Definition nothing : Z → RequestedBlock → Prop := λ _ _, False.

(** ** The parts, under the updates of the handlers *)

Lemma bitfields_insert ps p st :
  ps !! p = None → bitfields (<[p := st]> ps) ≡ₚ p_bitfield st :: bitfields ps.
Proof. intros Hp. unfold bitfields. by rewrite map_to_list_insert. Qed.

Lemma bitfields_delete ps p st :
  ps !! p = Some st → bitfields ps ≡ₚ p_bitfield st :: bitfields (delete p ps).
Proof. intros Hp. unfold bitfields. by rewrite <- (map_to_list_delete ps p st Hp). Qed.

Lemma bitfields_update ps p st st' :
  ps !! p = Some st →
  bitfields (<[p := st']> ps) ≡ₚ p_bitfield st' :: bitfields (delete p ps).
Proof. intros Hp. rewrite <- insert_delete_eq. apply bitfields_insert, lookup_delete_eq. Qed.

Lemma zlen_bitfields ps : zlen (bitfields ps) = Z.of_nat (size ps).
Proof. unfold bitfields, zlen. by rewrite !length_fmap, length_map_to_list. Qed.

(** A new entry with the same bitfield changes nothing for the picker. *)
Lemma avail_same_bitfield pk ps p st st' :
  avail_ok pk ps → ps !! p = Some st → p_bitfield st' = p_bitfield st → active_ok st' →
  avail_ok pk (<[p := st']> ps).
Proof.
  intros (Hn & Ht & Hf) Hp E Ha. split; [done|split].
  - by rewrite (bitfields_update ps p st) by done; rewrite E, <- bitfields_delete.
  - apply map_Forall_insert_2; [|done]. destruct (Hf p st Hp) as (? & ? & _).
    unfold peer_ok. by rewrite E.
Qed.

Lemma avail_remove pk ps p st :
  avail_ok pk ps → ps !! p = Some st →
  avail_ok (remove_peer_bitfield pk (p_bitfield st)) (delete p ps).
Proof.
  intros (Hn & Ht & Hf) Hp. destruct (Hf p st Hp) as [(Hb & _) [Eb _]]. split; [done|split].
  - apply tracks_leave; [by rewrite <- bitfields_delete|lia].
  - by apply map_Forall_delete.
Qed.

(** A new bitfield for a peer whose old one was removed. *)
Lemma avail_replace pk ps p st st' :
  avail_ok pk ps → ps !! p = Some st → wf (p_bitfield st') →
  num_bits (p_bitfield st') = num_pieces_ → active_ok st' →
  avail_ok (add_peer_bitfield (remove_peer_bitfield pk (p_bitfield st)) (p_bitfield st'))
    (<[p := st']> ps).
Proof.
  intros Ha Hp Hw En Hact. pose proof Ha as (_ & (_ & Hl & _) & _).
  rewrite (bitfields_delete ps p st Hp), zlen_cons in Hl.
  destruct (avail_remove pk ps p st Ha Hp) as (Hn & Ht & Hf). split; [done|split].
  - rewrite (bitfields_update ps p st) by done. apply tracks_join; [done| |done].
    destruct Hw as [? _]. lia.
  - rewrite <- insert_delete_eq. apply map_Forall_insert_2; [done|]. exact Hf.
Qed.

Lemma avail_have pk ps p st i :
  avail_ok pk ps → ps !! p = Some st → 0 ≤ i → Bitfield.has (p_bitfield st) i = false →
  avail_ok (add_availability pk i) (<[p := with_bitfield (Bitfield.set (p_bitfield st) i true) st]> ps).
Proof.
  intros (Hn & Ht & Hf) Hp Hi Hh. destruct (Hf p st Hp) as (Hw & En & Hact).
  split; [|split].
  - unfold add_availability. by case_ifs.
  - rewrite (bitfields_update ps p st) by done. simpl.
    rewrite (bitfields_delete ps p st Hp) in Ht. apply tracks_have; auto. by rewrite Hn.
  - apply map_Forall_insert_2; [|done]. unfold peer_ok. simpl.
    by rewrite num_bits_set; auto using wf_set.
Qed.

(** A peer that registers has no piece yet. *)
Lemma avail_register pk ps p st :
  avail_ok pk ps → ps !! p = None → p_bitfield st = Bitfield.make num_pieces_ → active_piece st = None →
  Z.of_nat (size ps) + 1 < 2 ^ 32 → avail_ok pk (<[p := st]> ps).
Proof.
  intros (Hn & (Hw & Hl & Ht) & Hf) Hp Eb Eact Hs. pose proof params_metadata as (_ & Hr & _).
  pose proof params_num_pieces as En. rewrite zlen_bitfields in Hl.
  split; [done|split].
  - rewrite bitfields_insert by done. split_and!; [done|rewrite zlen_cons, zlen_bitfields; lia|].
    intros i Hi. rewrite Ht, peers_with_cons, Eb, has_make by (done || lia). done.
  - apply map_Forall_insert_2; [|done]. unfold peer_ok, active_ok. rewrite Eb, Eact.
    split; [apply wf_make; lia|done].
Qed.

Lemma avail_picked pk ps peer ours r pk' :
  avail_ok pk ps → pick_piece pk peer ours = Ok (r, pk') → avail_ok pk' ps.
Proof.
  intros (Hn & Ht & Hf) H. destruct (pick_piece_keeps _ _ _ _ _ H) as [E1 E2].
  split_and!; [congruence| |done]. unfold tracks, picker_wf in *. by rewrite E1, E2.
Qed.

(** *** Connections *)

Lemma alter_twice (f g : Conn → Conn) (cs : gmap Z Conn) p :
  alter f p (alter g p cs) = alter (λ c, f (g c)) p cs.
Proof.
  apply map_eq. intros q. destruct (decide (q = p)) as [->|].
  - rewrite !lookup_alter_eq. by destruct (cs !! p).
  - by rewrite !lookup_alter_ne.
Qed.

Lemma net_alter D D' cs act reg p f :
  net_ok D cs act reg → (∀ q, D q → D' q) →
  (∀ c, cs !! p = Some c → key_of (f c) = key_of c ∧ on_disconnect (f c) = on_disconnect c ∧
     (c_state c = Active → c_state (f c) = Active ∨ D' p ∧ c_state (f c) = Disconnected) ∧
     (c_state c = Disconnected → c_state (f c) = Disconnected)) →
  net_ok D' (alter f p cs) act reg.
Proof.
  intros (Hs & Hr & Hm) HD Hf. split_and!; [done| |].
  - intros q Hq. destruct (Hr q Hq) as (c & Hc & Hcb & Hk & Hd).
    destruct (decide (q = p)) as [->|].
    + rewrite lookup_alter_eq, Hc. destruct (Hf c Hc) as (Ek & Ecb & Ea & _).
      exists (f c). rewrite Ek, Ecb. split_and!; auto. destruct Hd as [?|Hd]; [left; auto|].
      destruct (Ea Hd) as [?|[? _]]; auto.
    + rewrite lookup_alter_ne by done. exists c. split_and!; auto. destruct Hd; auto.
  - intros q c. destruct (decide (q = p)) as [->|].
    + rewrite lookup_alter_eq. intros Hc Hst. destruct (cs !! p) as [c0|] eqn:E; [|done].
      injection Hc as <-. destruct (Hf c0 eq_refl) as (Ek & Ecb & Ea & Ed).
      rewrite Ek, Ecb. destruct (Hm p c0 E) as [Hk [?|[? Hact]]]; [by intros E0; apply Hst, Ed|auto|].
      split; [done|]. right. destruct (Ea Hact) as [?|[_ ?]]; done.
    + rewrite lookup_alter_ne by done. apply Hm.
Qed.

(** Buffers, flags and descriptors do not matter. *)
Lemma net_dynamic D cs act reg p f :
  net_ok D cs act reg →
  (∀ c, key_of (f c) = key_of c ∧ on_disconnect (f c) = on_disconnect c ∧ c_state (f c) = c_state c) →
  net_ok D (alter f p cs) act reg.
Proof.
  intros H Hf. apply (net_alter D D); auto. intros c _. destruct (Hf c) as (? & ? & E).
  rewrite E. split_and!; auto.
Qed.

(** A connection that goes down. *)
Lemma net_drop D cs act reg p :
  net_ok D cs act reg → net_ok (λ q, D q ∨ q = p) (alter (with_state Disconnected) p cs) act reg.
Proof. intros H. apply (net_alter D); auto. intros c _. simpl. split_and!; auto. Qed.

Lemma net_unregister D cs act reg p :
  net_ok (λ q, D q ∨ q = p) cs act reg → net_ok D cs act (reg ∖ {[p]}).
Proof.
  intros (Hs & Hr & Hm). split_and!; auto. intros q [Hq Hne]%elem_of_difference.
  destruct (Hr q Hq) as (c & ? & ? & ? & [[?|?]|?]); [|set_solver|]; exists c; auto.
Qed.

(** The peer manager forgets a connection that went down before its handshake. *)
Lemma net_forget D cs act reg p c key :
  net_ok D cs act reg → cs !! p = Some c → on_disconnect c = Some (ManagerCb key) →
  c_state c = Disconnected → act !! key = Some p → net_ok D cs (delete key act) reg.
Proof.
  intros (Hs & Hr & Hm) Hc Hcb Hst Hk. split_and!.
  - rewrite map_size_delete, Hk. simpl. lia.
  - intros q Hq. destruct (Hr q Hq) as (cq & Hcq & Hcbq & Hkq & Hd). exists cq. split_and!; auto.
    rewrite lookup_delete_ne; [done|]. intros E. rewrite <- E, Hk in Hkq. injection Hkq as ->.
    rewrite Hc in Hcq. injection Hcq as <-. congruence.
  - intros q cq Hcq Hstq. destruct (Hm q cq Hcq Hstq) as [Hkq Hcbq].
    split; [|done]. rewrite lookup_delete_ne; [done|]. intros E.
    rewrite <- E, Hk in Hkq. injection Hkq as ->. congruence.
Qed.

(** *** Requests *)

Lemma live_other manager i begin r :
  pm_wf manager → live manager r → rkey r ≠ (i, begin) →
  live (block_request_failed manager i begin) r.
Proof.
  intros Hw (st & k & b & Hst & Hk & Hb & Hs) Hne. unfold block_request_failed.
  destruct (in_progress manager !! i) as [st'|] eqn:E; [|by exists st, k, b].
  destruct (list_find _ _) as [[j b']|] eqn:Ef; [|by exists st, k, b].
  case_bool_decide; [|by exists st, k, b]. unfold live. simpl.
  destruct (decide (r_piece r = i)) as [Ei|].
  - rewrite Ei in *. rewrite E in Hst. injection Hst as <-. rewrite lookup_insert_eq.
    eexists _, k, b. split_and!; try done. simpl. apply list_find_Some in Ef as (Hj & Hbj & _).
    rewrite list_lookup_insert_ne; [done|]. intros ->. rewrite Hk in Hj. injection Hj as <-.
    apply Hne. unfold rkey. congruence.
  - rewrite lookup_insert_ne by done. by exists st, k, b.
Qed.

(** Live requests are for pieces of the torrent. *)
Lemma live_range manager r :
  pm_wf manager → live manager r → 0 ≤ r_piece r < num_pieces (metadata manager).
Proof.
  intros (Hm & _ & _ & Hip) (st & k & b & Hst & Hk & _). destruct (Hip _ _ Hst) as [Hi Hw].
  destruct (piece_wf_block _ _ _ _ _ Hw Hk) as [_ Hlt]. split; [done|].
  destruct (Z.lt_ge_cases (r_piece r) (num_pieces (metadata manager))) as [?|Hge]; [done|].
  unfold piece_len, num_blocks, block_size in Hlt. rewrite (proj2 (Z.leb_le _ _)) in Hlt by done.
  change ((0 + (16384 - 1)) / 16384) with 0 in Hlt. lia.
Qed.

Lemma requests_failed S manager ps p st r :
  pm_wf manager → requests_ok S manager ps → ps !! p = Some st → r ∈ outstanding st →
  requests_ok (λ q r', S q r' ∨ q = p) (block_request_failed manager (r_piece r) (r_begin r)) ps.
Proof.
  intros Hw (H5 & Hd & Hl) Hp Hr. split_and!; [done|done|]. intros q sq r' Hq Hr'.
  destruct (decide (q = p)) as [->|Hne]; [by left; right|].
  destruct (Hl q sq r' Hq Hr') as [?|?]; [by left; left|]. right. apply live_other; [done|done|].
  by apply (Hd q p sq st).
Qed.

Lemma requests_weaken (S S' : Z → RequestedBlock → Prop) manager ps :
  (∀ p r, S p r → S' p r) → requests_ok S manager ps → requests_ok S' manager ps.
Proof.
  intros HS (H5 & Hd & Hl). split_and!; [done|done|]. intros p st r Hp Hr.
  destruct (Hl p st r Hp Hr); auto.
Qed.

Lemma requests_delete S manager ps p :
  requests_ok (λ q r', S q r' ∨ q = p) manager ps → requests_ok S manager (delete p ps).
Proof.
  intros (H5 & Hd & Hl). split_and!.
  - intros q st [_ Hq]%lookup_delete_Some. by apply (H5 q).
  - intros q q' sq sq' r r' Hne [_ Hq]%lookup_delete_Some [_ Hq']%lookup_delete_Some. by apply (Hd q q').
  - intros q st r [Hqp Hq]%lookup_delete_Some Hr. destruct (Hl q st r Hq Hr) as [[?|?]|?]; auto. done.
Qed.

(** Fewer requests of one peer. *)
Lemma requests_fewer (S S' : Z → RequestedBlock → Prop) manager ps p st st' :
  requests_ok S manager ps → ps !! p = Some st → outstanding st' `sublist_of` outstanding st →
  (∀ q r, q ≠ p → S q r → S' q r) → (∀ r, r ∈ outstanding st' → S p r → S' p r) →
  requests_ok S' manager (<[p := st']> ps).
Proof.
  intros (H5 & Hd & Hl) Hp Hsub HS HSp. destruct (H5 p st Hp) as [Hlen Hnd].
  assert (∀ r, r ∈ outstanding st' → r ∈ outstanding st) as Hin.
  { intros r Hr. eapply elem_of_submseteq; [done|by apply sublist_submseteq]. }
  assert (∀ q sq, <[p := st']> ps !! q = Some sq →
            ∃ s0, ps !! q = Some s0 ∧ (∀ r, r ∈ outstanding sq → r ∈ outstanding s0)) as Hold.
  { intros q sq [[<- <-]|[Hne Hq]]%lookup_insert_Some; [by exists st|]. by exists sq. }
  split_and!.
  - intros q sq [[<- <-]|[Hne Hq]]%lookup_insert_Some; [|by apply (H5 q)]. split.
    + apply sublist_length in Hsub. unfold zlen in *. lia.
    + eapply sublist_NoDup; [exact Hnd|]. by apply fmap_sublist.
  - intros q q' sq sq' r r' Hne Hq Hq' Hr Hr'.
    destruct (Hold q sq Hq) as (s0 & Hq0 & H0). destruct (Hold q' sq' Hq') as (s1 & Hq1 & H1).
    by apply (Hd q q' s0 s1); auto.
  - intros q sq r [[<- <-]|[Hne Hq]]%lookup_insert_Some Hr.
    + destruct (Hl p st r Hp (Hin r Hr)); auto.
    + destruct (Hl q sq r Hq Hr); auto.
Qed.

(** *** The piece manager's operations *)

Lemma pieces_same manager manager' done :
  pieces_ok manager done → pm_wf manager' → metadata manager' = metadata manager →
  bitfield manager' = bitfield manager → pieces_ok manager' done.
Proof.
  intros (Hw & Hm & Hnd & Hv & Hb) Hw' Em Eb. split_and!; [done|congruence|]. split_and!; auto.
  unfold has_piece. by rewrite Eb.
Qed.

Lemma get_next_block_frame manager i r manager' :
  pm_wf manager → 0 ≤ i → get_next_block manager i = Ok (r, manager') →
  pm_wf manager' ∧ metadata manager' = metadata manager ∧ bitfield manager' = bitfield manager.
Proof.
  intros Hw Hi H. destruct (get_next_block_wf manager i Hw Hi) as (r0 & m0 & E & Hw').
  rewrite E in H. injection H as -> ->. split; [done|].
  destruct (has_piece manager i) eqn:Eh.
  { unfold get_next_block in E. rewrite Eh in E. by injection E as <- <-. }
  rewrite get_next_block_eq in E by done. destruct (list_find _ _) as [[k b]|]; by injection E as <- <-.
Qed.

Lemma block_received_frame manager i begin d r manager' :
  pm_wf manager → 0 ≤ i → 0 ≤ begin → block_received manager i begin d = Ok (r, manager') →
  pm_wf manager' ∧ metadata manager' = metadata manager ∧ bitfield manager' = bitfield manager.
Proof.
  intros Hw Hi Hb H. destruct (block_received_wf manager i begin d Hw Hi Hb) as (r0 & m0 & E & Hw').
  rewrite E in H. injection H as -> ->. split; [done|].
  by destruct (block_received_entry manager 0 i begin d manager' r Hw Hi E) as (? & ? & _).
Qed.

(** A live request stays live when the entry of a piece only changes in ways that
    make no block pending. *)
Lemma live_put manager i st r :
  (∀ st0, in_progress manager !! i = Some st0 →
     ∀ (k : nat) b, ps_blocks st0 !! k = Some b → b_state b ≠ Pending →
     ∃ b', ps_blocks st !! k = Some b' ∧ b_begin b' = b_begin b ∧ b_state b' ≠ Pending) →
  live manager r → live (put_state manager i st) r.
Proof.
  intros Hst (st0 & k & b & Hs & Hk & Hb & Hp). unfold live. simpl.
  destruct (decide (r_piece r = i)) as [<-|].
  - rewrite lookup_insert_eq. destruct (Hst st0 Hs k b Hk Hp) as (b' & ? & ? & ?).
    exists st, k, b'. split_and!; congruence.
  - rewrite lookup_insert_ne by done. by exists st0, k, b.
Qed.

Lemma set_block_not_pending (blocks : list Block) (k j : nat) b b0 s :
  blocks !! k = Some b0 → s ≠ Pending → blocks !! j = Some b → b_state b ≠ Pending →
  ∃ b', <[k := set_state s b0]> blocks !! j = Some b' ∧ b_begin b' = b_begin b ∧
        b_state b' ≠ Pending.
Proof.
  intros Hk Hs Hj Hb. destruct (decide (k = j)) as [->|].
  - rewrite list_lookup_insert_eq by (by eapply lookup_lt_Some). eexists. split; [done|].
    rewrite Hk in Hj. by injection Hj as ->.
  - rewrite list_lookup_insert_ne by done. by exists b.
Qed.

Lemma entry_same manager i st0 : in_progress manager !! i = Some st0 → entry manager i = st0.
Proof. intros E. unfold entry. by rewrite E. Qed.

Lemma live_next manager i r res manager' :
  pm_wf manager → 0 ≤ i → get_next_block manager i = Ok (res, manager') →
  live manager r → live manager' r.
Proof.
  intros Hw Hi H Hl. destruct (has_piece manager i) eqn:Eh.
  { unfold get_next_block in H. rewrite Eh in H. by injection H as <- <-. }
  rewrite get_next_block_eq in H by done.
  destruct (list_find _ _) as [[k b]|] eqn:Ef; injection H as _ <-; apply live_put; auto;
    intros st0 <-%entry_same j b' Hj Hb'; [|by exists b'].
  apply list_find_Some in Ef as (Hk & _ & _). by apply set_block_not_pending.
Qed.

Lemma live_received manager i begin d c r manager' :
  pm_wf manager → 0 ≤ i → block_received manager i begin d = Ok (c, manager') →
  live manager r → live manager' r.
Proof.
  intros Hw Hi H Hl. destruct (has_piece manager i) eqn:Eh.
  { unfold block_received in H. rewrite Eh in H. by injection H as <- <-. }
  rewrite block_received_eq in H by done. injection H as _ <-. apply live_put; auto.
  intros st0 <-%entry_same j b' Hj Hb'. unfold receive.
  destruct (list_find _ _) as [[k b]|] eqn:Ef; [|by exists b'].
  case_bool_decide; [by exists b'|]. apply list_find_Some in Ef as (Hk & _ & _).
  unfold store_block. case_ifs; simpl; by apply set_block_not_pending.
Qed.

(** The block handed out is requested by nobody. *)
Lemma next_block_new manager i b manager' :
  pm_wf manager → 0 ≤ i < 2 ^ 32 → get_next_block manager i = Ok (Some b, manager') →
  let req := mk_request (b_piece b) (b_begin b) (b_length b) in
  r_piece req = i ∧ live manager' req ∧ ∀ r, live manager r → rkey r ≠ rkey req.
Proof.
  intros Hw Hi H. simpl. destruct (has_piece manager i) eqn:Eh.
  { unfold get_next_block in H. by rewrite Eh in H. }
  rewrite get_next_block_eq in H by (done || lia). pose proof (entry_wf manager i Hw (proj1 Hi)) as He.
  destruct (list_find _ _) as [[k b0]|] eqn:Ef; [|done]. injection H as <- <-.
  apply list_find_Some in Ef as (Hk & Hp & _).
  destruct (piece_wf_block _ _ _ _ _ He Hk) as [Eb _].
  assert (b_piece b0 = i) as Ei by (rewrite Eb; simpl; apply wrap_small; lia).
  simpl. split; [done|]. split.
  - exists (with_blocks (entry manager i) (<[k := set_state Requested b0]> (ps_blocks (entry manager i)))),
      k, (set_state Requested b0). simpl. rewrite Ei, lookup_insert_eq.
    split_and!; try done. simpl. apply list_lookup_insert_eq. by eapply lookup_lt_Some.
  - intros r (st & j & b & Hst & Hj & Hb & Hnp) E. unfold rkey in E. simpl in E. injection E as Er Ebg.
    rewrite Er, Ei in Hst. apply entry_same in Hst as <-.
    destruct (piece_wf_extent _ _ _ _ _ He Hk) as [E1 _].
    destruct (piece_wf_extent _ _ _ _ _ He Hj) as [E2 _].
    assert (j = k) as -> by (unfold block_size in *; lia). rewrite Hk in Hj.
    injection Hj as ->. done.
Qed.

Lemma requests_next manager i b manager' ps p st st' :
  pm_wf manager → 0 ≤ i < 2 ^ 32 → requests_ok nothing manager ps → ps !! p = Some st →
  get_next_block manager i = Ok (Some b, manager') → zlen (outstanding st) < 5 →
  outstanding st' = outstanding st ++ [mk_request (b_piece b) (b_begin b) (b_length b)] →
  requests_ok nothing manager' (<[p := st']> ps).
Proof.
  intros Hw Hi (H5 & Hd & Hl) Hp Hb Hlen Est.
  destruct (next_block_new manager i b manager' Hw Hi Hb) as (_ & Hnew & Hfresh).
  set (req := mk_request _ _ _) in *.
  assert (∀ q sq r, ps !! q = Some sq → r ∈ outstanding sq → live manager r) as Hlive.
  { intros q sq r Hq Hr. by destruct (Hl q sq r Hq Hr). }
  assert (∀ q sq r, <[p := st']> ps !! q = Some sq → r ∈ outstanding sq →
            (∃ s0, ps !! q = Some s0 ∧ r ∈ outstanding s0) ∨ (q = p ∧ r = req)) as Hold.
  { intros q sq r [[<- <-]|[Hne Hq]]%lookup_insert_Some Hr; [|left; by exists sq].
    rewrite Est in Hr. apply elem_of_app in Hr as [Hr|Hr%list_elem_of_singleton]; [left; by exists st|].
    by right. }
  split_and!.
  - intros q sq [[<- <-]|[Hne Hq]]%lookup_insert_Some; [|by apply (H5 q)].
    destruct (H5 p st Hp) as [_ Hnd]. rewrite Est. split; [rewrite zlen_app; change (zlen [req]) with 1; lia|].
    rewrite fmap_app. apply NoDup_app. split_and!; [done| |by apply NoDup_singleton].
    intros x (r & -> & Hr)%list_elem_of_fmap Hx%list_elem_of_singleton.
    by apply (Hfresh r); [eapply Hlive|].
  - intros q q' sq sq' r r' Hne Hq Hq' Hr Hr'.
    destruct (Hold q sq r Hq Hr) as [(s0 & Hq0 & H0)|[-> ->]];
      destruct (Hold q' sq' r' Hq' Hr') as [(s1 & Hq1 & H1)|[-> ->]]; try done.
    + by apply (Hd q q' s0 s1).
    + apply Hfresh. by eapply Hlive.
    + apply not_eq_sym, Hfresh. by eapply Hlive.
  - intros q sq r Hq Hr. right. destruct (Hold q sq r Hq Hr) as [(s0 & Hq0 & H0)|[-> ->]]; [|done].
    apply (live_next manager i r (Some b)); [done|lia|done|]. by eapply Hlive.
Qed.

(** A change of the piece manager that keeps live requests live. *)
Lemma requests_manager S manager manager' ps :
  requests_ok S manager ps → (∀ r, live manager r → live manager' r) → requests_ok S manager' ps.
Proof.
  intros (H5 & Hd & Hl) Hlive. split_and!; [done|done|]. intros p st r Hp Hr.
  destruct (Hl p st r Hp Hr); auto.
Qed.

(** The same requests in a new entry. *)
Lemma requests_same S manager ps p st st' :
  requests_ok S manager ps → ps !! p = Some st → outstanding st' = outstanding st →
  requests_ok S manager (<[p := st']> ps).
Proof.
  intros H Hp E. eapply requests_fewer; [done|done|by rewrite E|auto|auto].
Qed.

(** Completing a piece leaves its requests behind. *)
Lemma requests_completed manager i ps :
  requests_ok nothing manager ps →
  requests_ok (λ _ r, r_piece r = i) (piece_completed manager i) ps.
Proof.
  intros (H5 & Hd & Hl). split_and!; [done|done|]. intros p st r Hp Hr.
  destruct (Hl p st r Hp Hr) as [[]|(s0 & k & b & Hs & Hk & Hb & Hnp)].
  destruct (decide (r_piece r = i)); [by left|right]. exists s0, k, b. simpl.
  by rewrite lookup_delete_ne.
Qed.

Lemma pieces_completed manager done i :
  pieces_ok manager done → 0 ≤ i → has_piece manager i = false →
  validate_piece manager i = Ok true →
  pieces_ok (piece_completed manager i) (done ++ [(i, get_piece_data manager i)]).
Proof.
  intros (Hw & Hm & Hnd & Hv & Hb) Hi Hh Hval. unfold validate_piece in Hval.
  destruct (in_progress manager !! i) as [st|] eqn:Est; [|done].
  destruct (znth _ i) as [h|] eqn:Eh; [|done]. injection Hval as Hval.
  apply bool_decide_eq_true in Hval. pose proof Hw as (Hmw & Hbw & Hnb & Hip).
  destruct (Hip i st Est) as [_ (_ & _ & Hlen & _)].
  rewrite Hm in *. pose proof Hmw as (Ehn & _). apply znth_Some in Eh as Hlt.
  split_and!; [apply set_bit_wf; auto; apply delete_subseteq|done|]. split_and!.
  - rewrite fmap_app. apply NoDup_app. split_and!; [done| |apply NoDup_singleton].
    intros j Hj Hj'%list_elem_of_singleton. simpl in Hj'. subst j. apply Hb in Hj; congruence.
  - intros j d [Hj|Hj%list_elem_of_singleton]%elem_of_app; [by apply Hv|].
    injection Hj as -> ->. unfold get_piece_data. rewrite Est. split_and!; [lia|lia|done|congruence].
  - intros j Hj. rewrite fmap_app, elem_of_app. change ([_].*1) with [i].
    rewrite list_elem_of_singleton, <- Hb by done.
    unfold has_piece. simpl. rewrite has_set by done. destruct (decide (i = j ∧ _)) as [[-> _]|Hn].
    + naive_solver.
    + split; [by left|intros [?|Hji]; [done|]]. subst j. exfalso. apply Hn.
      rewrite Hnb. split; [done|lia].
Qed.

Lemma pieces_failed manager done i :
  pieces_ok manager done → pieces_ok (piece_failed manager i) done.
Proof. intros H. eapply pieces_same; [done| |done|done]. apply delete_wf, H. Qed.
End System.

(** The four parts of the invariant. *)
Ltac inv_parts := split; [|split; [|split]].
