(* ===== verification/Handlers.v ===== *)
(** * Every handler keeps the invariant

    Each operation of the connections, the coordinator and the peer manager, from the
    bottom up: if it returns, the invariant of [System] holds again, and what it may
    have changed is bounded by [shrinks]. *)

From S2P Require Import Prelude StdString Bencode Bitfield Hasher Torrent PieceManager.
From S2P Require Import PiecePicker PeerMessage EventLoop World PeerConnection Coordinator.
From S2P Require Import System.

Section Handlers.
Context `{C : CryptoSHA1} `{R : UniformRng} {prm : Params} {MO : MapOrder} {m : TorrentMetadata}
  {PF : ParamsFor prm m}.

Implicit Types (w : World).
Abbreviation Inv := (Inv (m := m)).

(** Sending may lose peers, and with them their requests; nothing else. *)
Definition shrinks w w' : Prop :=
  peers w' ⊆ peers w ∧ completed w' = completed w ∧ bitfield (pm w') = bitfield (pm w).

#[export] Instance shrinks_preorder : PreOrder shrinks.
Proof.
  split; [done|]. intros w1 w2 w3 (Hp & ? & ?) (Hq & ? & ?).
  split_and!; [by etrans|congruence..].
Qed.

Lemma Inv_weaken (D D' : Z → Prop) (S S' : Z → RequestedBlock → Prop) w :
  (∀ p, D p → D' p) → (∀ p r, S p r → S' p r) → Inv D S w → Inv D' S' w.
Proof.
  intros HD HS (? & ? & (Hs & Hr & Hm) & ?). inv_parts; try done.
  - split; [done|]. split; [|done]. intros p Hp.
    destruct (Hr p Hp) as (c & ? & ? & ? & [?|?]); exists c; split_and!; auto.
  - by eapply requests_weaken.
Qed.

(** ** Unregistering *)

(** Giving up the requests of a peer only touches the piece manager. *)
Lemma for_each_failed S w w' u p st l :
  pieces_ok (m := m) (pm w) (completed w) → requests_ok (λ q r, S q r ∨ q = p) (pm w) (peers w) →
  peers w !! p = Some st → l ⊆ outstanding st → for_each l request_failed w = Ok (u, w') →
  ∃ manager, w' = set_pm manager w ∧ pieces_ok (m := m) manager (completed w) ∧
    requests_ok (λ q r, S q r ∨ q = p) manager (peers w) ∧ bitfield manager = bitfield (pm w).
Proof.
  revert w. induction l as [|r l IH]; intros w Hp Hr Hst Hl H; cbn [for_each] in H.
  { inv_m H. exists (pm w). split_and!; try done. by destruct w. }
  inv_m H. unfold request_failed in H0. inv_m H0.
  destruct (block_request_failed_bitfield (pm w) (r_piece r) (r_begin r)) as [Em Eb].
  destruct (IH (set_pm (block_request_failed (pm w) (r_piece r) (r_begin r)) w))
    as (mg & -> & Hpm & Hrm & Ebm); simpl; auto.
  - eapply pieces_same; [done| |done|done]. apply block_request_failed_wf, Hp.
  - eapply requests_weaken; [|eapply (requests_failed _ _ _ p); [apply Hp|done|done|]].
    + naive_solver.
    + apply Hl. left.
  - intros y Hy. apply Hl. by right.
  - exists mg. split_and!; [done|done|done|]. simpl in Ebm. congruence.
Qed.

Lemma unregister_inv D S w w' u p :
  Inv (λ q, D q ∨ q = p) S w → unregister_peer p w = Ok (u, w') →
  Inv D S w' ∧ shrinks w w' ∧ peers w' = delete p (peers w) ∧
  conns w' = conns w ∧ active_peers w' = active_peers w.
Proof.
  intros (Hp & Ha & Hn & Hr) H. unfold unregister_peer in H. inv_m H. inv_m H0.
  destruct (peers w !! p) as [st|] eqn:Hst.
  - inv_m H. inv_m H0. inv_m H. inv_m H.
    apply (for_each_failed S _ _ _ p st) in H0 as (mg & -> & Hpm & Hrm & Eb); simpl in *; auto.
    2:{ eapply requests_weaken; [|done]. auto. }
    split; [inv_parts; simpl; try done|split_and!; try done; split_and!; try done].
    + by apply avail_remove.
    + rewrite dom_delete_L. by apply net_unregister.
    + by apply requests_delete.
    + apply delete_subseteq.
  - inv_m H. rewrite delete_id by done.
    split; [|done]. inv_parts; try done.
    replace (dom (peers w)) with (dom (peers w) ∖ {[p]}).
    + by apply net_unregister.
    + apply not_elem_of_dom in Hst. set_solver.
Qed.

(** ** Connections *)

(** Updates of buffers, flags and descriptors. *)
Lemma upd_conn_inv D S w w' u p f :
  (∀ c, key_of (f c) = key_of c ∧ on_disconnect (f c) = on_disconnect c ∧ c_state (f c) = c_state c) →
  Inv D S w → upd_conn p f w = Ok (u, w') → Inv D S w' ∧ shrinks w w' ∧ peers w' = peers w.
Proof.
  intros Hf (Hp & Ha & Hn & Hr) H. inv_m H. split; [|done]. inv_parts; try done.
  simpl. by apply net_dynamic.
Qed.

(** The callback of a connection that went down. *)
Lemma dropped_inv D S w w' u p c :
  Inv (λ q, D q ∨ q = p) S w → conns w !! p = Some c → c_state c = Disconnected →
  (∀ key, on_disconnect c = Some (ManagerCb key) → active_peers w !! key = Some p) →
  call_on_disconnect p w = Ok (u, w') →
  Inv D S w' ∧ shrinks w w' ∧ (on_disconnect c = Some CoordinatorCb → peers w' !! p = None).
Proof.
  intros Hi Hc Est Hkey H. unfold call_on_disconnect in H. inv_m H. inv_m H0.
  rewrite Hc in H0. injection H0 as <-. destruct (on_disconnect c) as [[key|]|] eqn:Ecb.
  - unfold run_on_disconnect, on_disconnect_callbacks in H. inv_m H.
    destruct (unregister_inv _ _ _ _ _ _ Hi H0) as (Hi1 & Hs1 & _ & Ec1 & Ea1).
    inv_m H. split; [|done]. destruct Hi1 as (Hp & Ha & Hn & Hr). inv_parts; try done. simpl.
    eapply net_forget; [done|by rewrite Ec1|done|done|]. rewrite Ea1. by apply Hkey.
  - unfold run_on_disconnect, on_disconnect_callbacks in H.
    destruct (unregister_inv _ _ _ _ _ _ Hi H) as (Hi1 & Hs1 & Ep1 & _).
    split; [done|]. split; [done|]. intros _. rewrite Ep1. apply lookup_delete_eq.
  - inv_m H. split; [|done]. (* no callback: not registered *)
    destruct Hi as (Hp & Ha & (Hs & Hrg & Hm) & Hr). inv_parts; try done.
    split; [done|]. split; [|done]. intros q Hq.
    destruct (Hrg q Hq) as (cq & Hcq & Hcbq & ? & [[?| ->]|?]); [exists cq; split_and!; auto| |
      exists cq; split_and!; auto]. congruence.
Qed.

Lemma disconnect_inv D S w w' u p :
  Inv D S w → disconnect p w = Ok (u, w') →
  Inv D S w' ∧ shrinks w w' ∧
  ∀ c, conns w !! p = Some c → c_state c ≠ Disconnected → on_disconnect c = Some CoordinatorCb →
       peers w' !! p = None.
Proof.
  intros Hi H. unfold disconnect in H. inv_m H. inv_m H0. rename x into c.
  case_bool_decide as Es.
  { inv_m H. split; [done|]. split; [done|]. intros c' Hc' Hst _. congruence. }
  inv_m H. inv_m H1. inv_m H. inv_m H. inv_m H2. inv_m H. inv_m H2.
  (* the state with the connection down and emptied *)
  assert (∃ f, conns w0 = alter f p (conns w) ∧ pm w0 = pm w ∧ picker w0 = picker w ∧
            peers w0 = peers w ∧ active_peers w0 = active_peers w ∧ completed w0 = completed w ∧
            ∀ c, key_of (f c) = key_of c ∧ on_disconnect (f c) = on_disconnect c ∧
                 c_state (f c) = Disconnected) as (f & Ec & Epm & Epk & Eps & Eac & Eco & Hf).
  { apply when_ok in H1 as [[_ H1]|[_ ->]].
    - inv_m H1. inv_m H2. inv_m H1. simpl. eexists. split; [apply alter_twice|]. done.
    - simpl. by eexists. }
  set (w2 := set_conns _ (set_conns _ w0)) in H.
  assert (conns w2 = alter (λ c, with_tx [] (with_rx [] (f c))) p (conns w)) as Ec2.
  { simpl. rewrite Ec, !alter_twice. done. }
  assert (Inv (λ q, D q ∨ q = p) S w2) as Hi2.
  { destruct Hi as (Hp & Ha & Hn & Hr).
    inv_parts; rewrite ?Ec2; simpl; rewrite ?Epm, ?Epk, ?Eps, ?Eac, ?Eco; try done.
    apply (net_alter D); auto. intros c' _. destruct (Hf c') as (? & ? & Ed). simpl.
    split_and!; auto. }
  destruct (Hf c) as (Ek & Ecb & Ed).
  eapply dropped_inv in H as (Hi3 & Hs3 & Hgone); [|exact Hi2|by rewrite Ec2, lookup_alter_eq, H0|done|].
  - split; [done|]. split; [etrans; [|done]; unfold shrinks; simpl; by rewrite Eps, Eco, Epm|].
    intros c' Hc' _ Hcb. apply Hgone. simpl. congruence.
  - simpl. rewrite Ecb, Eac. intros key Hcb. destruct Hi as (_ & _ & (_ & _ & Hm) & _).
    destruct (Hm p c H0 Es) as [Hk [E|[E _]]]; congruence.
Qed.

(** What the event loop, the scripts and the blacklist hold does not matter. *)
Lemma Inv_same D S w w' :
  Inv D S w → pm w' = pm w → picker w' = picker w → peers w' = peers w → conns w' = conns w →
  active_peers w' = active_peers w → completed w' = completed w →
  Inv D S w' ∧ shrinks w w'.
Proof.
  intros (Hp & Ha & Hn & Hr) E1 E2 E3 E4 E5 E6.
  split; [inv_parts; by rewrite ?E1, ?E2, ?E3, ?E4, ?E5, ?E6|].
  unfold shrinks. by rewrite E1, E3, E6.
Qed.

Lemma update_epoll_inv D S w w' u p :
  Inv D S w → update_epoll_interests p w = Ok (u, w') → Inv D S w' ∧ shrinks w w'.
Proof.
  intros Hi H. unfold update_epoll_interests in H. inv_m H. inv_m H0.
  case_bool_decide; inv_m H; by eapply Inv_same.
Qed.

Lemma handle_write_inv D S w w' u p :
  Inv D S w → handle_write p w = Ok (u, w') → Inv D S w' ∧ shrinks w w'.
Proof.
  intros Hi H. unfold handle_write in H. inv_m H. inv_m H0.
  case_bool_decide as Et; [by eapply update_epoll_inv|]. inv_m H. inv_m H1.
  destruct (if c_fd x =? -1 then _ else _) as [[total error] script].
  inv_m H. inv_m H1. inv_m H.
  assert (Inv D S w0 ∧ shrinks w w0) as [Hi0 Hs0].
  { destruct (Inv_same D S w (set_sends script w) Hi) as [Hi1 Hs1]; try done.
    apply when_ok in H1 as [[_ H1]|[_ ->]]; [|done].
    destruct (upd_conn_inv D S _ _ _ _ (with_tx _) ltac:(done) Hi1 H1) as (Hi2 & Hs2 & _).
    split; [done|by etrans]. }
  destruct error.
  - destruct (disconnect_inv _ _ _ _ _ _ Hi0 H) as (Hi1 & Hs1 & _). split; [done|by etrans].
  - destruct (update_epoll_inv _ _ _ _ _ _ Hi0 H) as (Hi1 & Hs1). split; [done|by etrans].
Qed.

Lemma send_message_inv D S w w' u p msg :
  Inv D S w → send_message p msg w = Ok (u, w') → Inv D S w' ∧ shrinks w w'.
Proof.
  intros Hi H. unfold send_message in H. inv_m H. inv_m H0.
  case_bool_decide as Es; [by inv_m H|]. inv_m H.
  assert (∀ c, key_of (sent_flags msg c) = key_of c ∧
            on_disconnect (sent_flags msg c) = on_disconnect c ∧
            c_state (sent_flags msg c) = c_state c) as Hf by (intros c; by destruct msg).
  destruct (upd_conn_inv D S _ _ _ _ _ Hf Hi H1) as (Hi1 & Hs1 & _).
  inv_m H. inv_m H2. inv_m H.
  destruct (upd_conn_inv D S _ _ _ _ (with_tx _) ltac:(done) Hi1 H3) as (Hi2 & Hs2 & _).
  case_bool_decide.
  - destruct (handle_write_inv _ _ _ _ _ _ Hi2 H) as [Hi3 Hs3].
    split; [done|]. by do 2 (etrans; [done|]).
  - inv_m H. split; [done|by etrans].
Qed.

Lemma send_handshake_inv D S w w' u p :
  Inv D S w → send_handshake p w = Ok (u, w') → Inv D S w' ∧ shrinks w w'.
Proof.
  intros Hi H. unfold send_handshake in H. inv_m H. inv_m H0. inv_m H. inv_m H1. inv_m H.
  destruct (upd_conn_inv D S _ _ _ _ (with_tx _) ltac:(done) Hi H2) as (Hi1 & Hs1 & _).
  destruct (handle_write_inv _ _ _ _ _ _ Hi1 H) as [Hi2 Hs2]. split; [done|by etrans].
Qed.

(** ** Requesting *)

(** The pieces completed stay the same. *)
Definition same_done w w' : Prop :=
  completed w' = completed w ∧ bitfield (pm w') = bitfield (pm w).

#[export] Instance same_done_preorder : PreOrder same_done.
Proof. split; [done|]. intros w1 w2 w3 [? ?] [? ?]. split; congruence. Qed.

Lemma shrinks_done w w' : shrinks w w' → same_done w w'.
Proof. intros (_ & ? & ?). done. Qed.
#[local] Hint Resolve shrinks_done : core.

(** A new entry for a registered peer with the same bitfield and requests. *)
Lemma put_same_inv D S w w' u p st st' :
  Inv D S w → peers w !! p = Some st → p_bitfield st' = p_bitfield st →
  outstanding st' = outstanding st → active_ok st' → put_peer p st' w = Ok (u, w') →
  Inv D S w' ∧ same_done w w'.
Proof.
  intros (Hp & Ha & Hn & Hr) Hst Eb Eo Hact H. inv_m H. split; [inv_parts|done]; simpl; try done.
  - by eapply avail_same_bitfield.
  - rewrite dom_insert_lookup_L by done. done.
  - by eapply requests_same.
Qed.

Lemma num_pieces_range : 0 ≤ num_pieces m < 2 ^ 31 ∧ num_pieces_ = num_pieces m.
Proof. split; [apply params_metadata|apply params_num_pieces]. Qed.

Lemma pick_candidate pk peer ours i pk' :
  pick_piece pk peer ours = Ok (Some i, pk') → i ∈ candidates pk peer ours.
Proof.
  unfold pick_piece. intros H. case_bool_decide; [done|].
  assert (∀ v, choose pk v = Ok (Some i, pk') → i ∈ v) as Hc.
  { intros v Hv. unfold choose in Hv. destruct (dist _ _ _) as [k r].
    destruct (znth v k) eqn:E; [|done]. injection Hv as -> <-.
    unfold znth in E. case_ifs_in E. by eapply list_elem_of_lookup_2. }
  assert (∀ l acc, i ∈ (foldl (rarest_step (availability_histogram pk)) acc l).2 →
            i ∈ acc.2 ∨ i ∈ l) as Hf.
  { induction l as [|x l IH]; intros [mn rs] Hin; [by left|]. cbn [foldl] in Hin.
    apply IH in Hin as [Hin|Hin]; [|right; by right]. unfold rarest_step in Hin.
    case_ifs_in Hin; simpl in Hin |- *; set_solver. }
  case_ifs_in H; [by apply Hc|]. case_bool_decide; [done|]. apply Hc in H.
  apply Hf in H as [H|H]; [by apply not_elem_of_nil in H|done].
Qed.

Lemma pick_range pk peer ours i pk' :
  pick_piece pk peer ours = Ok (Some i, pk') → 0 ≤ i < pk_num_pieces pk.
Proof. intros H%pick_candidate%elem_of_candidates. apply H. Qed.

Lemma state_ok D S w p st :
  Inv D S w → peers w !! p = Some st → peer_ok st.
Proof. intros (_ & (_ & _ & Hf) & _) Hp. by apply (Hf p). Qed.

Lemma active_none st : active_ok (with_active_piece None st).
Proof. by intros i. Qed.
#[local] Hint Resolve active_none : core.

Lemma pick_active_inv D w w' x p st :
  Inv D nothing w → peers w !! p = Some st → pick_active p st w = Ok (x, w') →
  Inv D nothing w' ∧ same_done w w' ∧ pm w' = pm w ∧
  ∀ i, x = Some i → 0 ≤ i < num_pieces_ ∧
    ∃ st1, peers w' !! p = Some st1 ∧ p_bitfield st1 = p_bitfield st ∧
      outstanding st1 = outstanding st.
Proof.
  intros Hi Hst H. unfold pick_active in H. destruct (active_piece st) as [i|] eqn:Ea.
  { inv_m H. split_and!; try done. intros j [= <-]. pose proof (state_ok _ _ _ _ _ Hi Hst) as (_ & _ & Hact).
    split; [by apply Hact|]. by exists st. }
  inv_m H. inv_m H0. inv_m H. inv_m H0. inv_m H. inv_m H0. destruct x0 as [picked pk].
  inv_m H. inv_m H1.
  assert (Inv D nothing (set_picker pk w)) as Hi1.
  { destruct Hi as (Hp & Hav & Hn & Hr). inv_parts; try done. by eapply avail_picked. }
  destruct picked as [i|]; [|inv_m H; by split_and!].
  inv_m H. inv_m H1. inv_m H.
  assert (0 ≤ i < num_pieces_) as Hir.
  { destruct Hi as (_ & (<- & _) & _). by eapply pick_range. }
  destruct (put_same_inv D nothing _ (set_peers <[p := with_active_piece (Some i) st]> (set_picker pk w))
              tt p st (with_active_piece (Some i) st) Hi1) as [Hi2 Hd2]; try done.
  { by intros j [= <-]. }
  split_and!; try done. intros j [= <-]. split; [done|]. exists (with_active_piece (Some i) st).
  simpl. by rewrite lookup_insert_eq.
Qed.

Lemma request_block_inv D w w' u p i st st1 :
  Inv D nothing w → peers w !! p = Some st1 → p_bitfield st1 = p_bitfield st →
  outstanding st1 = outstanding st → 0 ≤ i < num_pieces_ → zlen (outstanding st) < 5 →
  request_block p st i w = Ok (u, w') → Inv D nothing w' ∧ same_done w w'.
Proof.
  intros (Hp & Hav & Hn & Hr) Hst1 Eb1 Eo1 Hir Hlen H. unfold request_block in H.
  inv_m H. inv_m H0. inv_m H. inv_m H0. destruct x as [block manager]. inv_m H. inv_m H1.
  destruct num_pieces_range as [Hnp Enp].
  destruct (get_next_block_frame (pm w) i block manager) as (Hwm & Emm & Ebm); [apply Hp|lia|done|].
  assert (pieces_ok (m := m) manager (completed w)) as Hpm by (by eapply pieces_same).
  assert (same_done w (set_pm manager w)) as Hd1 by (split; simpl; congruence).
  destruct block as [bl|].
  - inv_m H. inv_m H1. set (st2 := mk_peer _ _ _) in H.
    assert (Inv D nothing (set_peers <[p := st2]> (set_pm manager w))) as Hi2.
    { inv_parts; simpl; try done.
      - eapply avail_same_bitfield; [done|done|simpl; congruence|]. by intros j [= <-].
      - rewrite dom_insert_lookup_L by done. done.
      - eapply (requests_next (pm w) i bl); try done; [apply Hp|lia|by rewrite Eo1|].
        simpl. by rewrite Eo1. }
    destruct (send_message_inv _ _ _ _ _ _ _ Hi2 H) as [Hi3 Hs3]. split; [done|].
    etrans; [exact Hd1|]. etrans; [|apply shrinks_done, Hs3]. done.
  - assert (Inv D nothing (set_pm manager w)) as Hi1.
    { inv_parts; try done. simpl. eapply requests_manager; [done|]. intros r.
      apply (live_next (pm w) i r None); [apply Hp|lia|done]. }
    destruct (put_same_inv D nothing _ w' u p st1 (with_active_piece None st) Hi1) as [Hi2 Hd2]; try done.
    split; [done|by etrans].
Qed.

Lemma fill_round_inv D w w' b p st :
  Inv D nothing w → peers w !! p = Some st → zlen (outstanding st) < 5 →
  fill_round p w = Ok (b, w') → Inv D nothing w' ∧ same_done w w'.
Proof.
  intros Hi Hst Hlen H. unfold fill_round in H. inv_m H. inv_m H0.
  rewrite Hst in H0. injection H0 as <-. inv_m H.
  destruct (pick_active_inv _ _ _ _ _ _ Hi Hst H0) as (Hi0 & Hd0 & _ & Hx).
  destruct x as [i|]; [|by inv_m H]. destruct (Hx i eq_refl) as (Hir & st1 & Hst1 & Eb1 & Eo1).
  inv_m H. destruct (request_block_inv D _ _ _ p i st st1 Hi0 Hst1 Eb1 Eo1 Hir Hlen H1) as [Hi1 Hd1].
  inv_m H. split; [done|by etrans].
Qed.

Lemma fill_loop_inv D f w w' u p :
  Inv D nothing w → fill_loop f p w = Ok (u, w') → Inv D nothing w' ∧ same_done w w'.
Proof.
  revert w. induction f as [|f IH]; intros w Hi H; [done|]. cbn [fill_loop] in H.
  inv_m H. inv_m H0. destruct (Z.leb_spec 5 (zlen (outstanding x))); [by inv_m H|].
  inv_m H. destruct (fill_round_inv D w w0 x0 p x) as [Hi1 Hd1]; auto.
  destruct x0; [|by inv_m H]. destruct (IH w0 Hi1 H) as [Hi2 Hd2]. split; [done|by etrans].
Qed.

Lemma fill_request_pipeline_inv D w w' u p :
  Inv D nothing w → fill_request_pipeline p w = Ok (u, w') → Inv D nothing w' ∧ same_done w w'.
Proof.
  intros Hi H. unfold fill_request_pipeline in H. inv_m H. inv_m H0.
  destruct (peer_choking x); [by inv_m H|]. inv_m H. inv_m H1.
  destruct (peers w !! p); [|by inv_m H]. by eapply fill_loop_inv.
Qed.

(** ** Cancelling and announcing *)

(** Fewer requests in a new entry with the same bitfield. *)
Lemma put_fewer_inv D S (S' : Z → RequestedBlock → Prop) w w' u p st st' :
  Inv D S w → peers w !! p = Some st → p_bitfield st' = p_bitfield st → active_ok st' →
  outstanding st' `sublist_of` outstanding st →
  (∀ q r, q ≠ p → S q r → S' q r) → (∀ r, r ∈ outstanding st' → S p r → S' p r) →
  put_peer p st' w = Ok (u, w') → Inv D S' w' ∧ same_done w w'.
Proof.
  intros (Hp & Ha & Hn & Hr) Hst Eb Hact Hsub HS HSp H. inv_m H.
  split; [inv_parts|done]; simpl; try done.
  - by eapply avail_same_bitfield.
  - rewrite dom_insert_lookup_L by done. done.
  - by eapply requests_fewer.
Qed.

Lemma cancel_requests_inv D S w w' u i p kept rest st :
  Inv D S w → peers w !! p = Some st → outstanding st = kept ++ rest →
  Forall (λ r, r_piece r ≠ i) kept → cancel_requests i p kept rest w = Ok (u, w') →
  Inv D S w' ∧ same_done w w' ∧
  ∃ st', peers w' !! p = Some st' ∧ Forall (λ r, r_piece r ≠ i) (outstanding st').
Proof.
  revert w st kept. induction rest as [|r rest IH]; intros w st kept Hi Hst Eo Hk H;
    cbn [cancel_requests] in H.
  { inv_m H. split; [done|]. split; [done|]. exists st. rewrite Eo, app_nil_r. done. }
  destruct (Z.eqb_spec (r_piece r) i) as [Er|Er].
  - inv_m H. destruct (send_message_inv _ _ _ _ _ _ _ Hi H0) as [Hi1 Hs1].
    inv_m H. inv_m H1. inv_m H.
    assert (x0 = st) as ->.
    { destruct Hs1 as (Hsub & _). assert (peers w !! p = Some x0) by (by eapply lookup_weaken).
      congruence. }
    destruct (put_fewer_inv D S S w0 w1 x1 p st (with_outstanding (kept ++ rest) st)) as [Hi2 Hd2];
      auto.
    { apply (state_ok _ _ _ _ _ Hi1 H1). }
    { simpl. rewrite Eo. apply sublist_app; [done|]. by constructor. }
    inv_m H2.
    destruct (IH _ (with_outstanding (kept ++ rest) st) kept Hi2) as (Hi3 & Hd3 & Hst3); auto.
    { simpl. apply lookup_insert_eq. }
    split; [done|]. split; [|done]. etrans; [by apply shrinks_done|by etrans].
  - apply (IH w st (kept ++ [r])); auto.
    + by rewrite <- app_assoc.
    + apply Forall_app. auto.
Qed.

(** The stale requests of [cancel_piece_requests]: those of the piece, at the peers
    not visited yet. *)
Definition unvisited (i : Z) (keys : list Z) : Z → RequestedBlock → Prop :=
  λ q r, r_piece r = i ∧ q ∈ keys.

Lemma cancel_piece_inv D w w' u i :
  Inv D (λ _ r, r_piece r = i) w → cancel_piece_requests i w = Ok (u, w') →
  Inv D nothing w' ∧ same_done w w'.
Proof.
  intros Hi H. unfold cancel_piece_requests in H. inv_m H. inv_m H0.
  assert (Inv D (unvisited i (order (peers w))) w) as Hi0.
  { destruct Hi as (Hp & Ha & Hn & (H5 & Hd & Hl)). inv_parts; try done. split_and!; try done.
    intros q st r Hq Hr. destruct (Hl q st r Hq Hr) as [E|?]; [left|by right]. split; [done|].
    rewrite order_keys. apply list_elem_of_fmap. exists (q, st). split; [done|].
    by apply elem_of_map_to_list. }
  clear Hi. revert H Hi0. generalize (order (peers w)). intros keys. revert w.
  induction keys as [|p keys IH]; intros w H Hi; cbn [for_peers] in H.
  { inv_m H. split; [|done]. eapply Inv_weaken; [| |done]; [done|].
    intros q r [_ Hq]. by apply not_elem_of_nil in Hq. }
  inv_m H. inv_m H0. inv_m H1. inv_m H0.
  destruct (cancel_requests_inv D (unvisited i (p :: keys)) w w1 x1 i p [] (outstanding x0) x0)
    as (Hi1 & Hd1 & st1 & Hst1 & Hno); auto.
  inv_m H0. inv_m H3. rewrite Hst1 in H3. injection H3 as <-.
  assert (Inv D (unvisited i keys) w0 ∧ same_done w1 w0) as [Hi2 Hd2].
  { assert (∀ r, r ∈ outstanding st1 → unvisited i (p :: keys) p r → unvisited i keys p r) as Hp.
    { intros r Hr [E _]. rewrite Forall_forall in Hno. by destruct (Hno r Hr). }
    assert (∀ q r, q ≠ p → unvisited i (p :: keys) q r → unvisited i keys q r) as Hq.
    { intros q r Hne [E Hin]. split; [done|]. by apply elem_of_cons in Hin as [?|?]. }
    apply when_ok in H0 as [[_ H0]|[_ ->]].
    - eapply (put_fewer_inv D _ _ w1 w0 _ p st1 (with_active_piece None st1)); eauto.
    - split; [|done]. destruct Hi1 as (Hpp & Ha & Hn & (H5 & Hd & Hl)). inv_parts; try done.
      split_and!; try done. intros q st r Hqs Hr. destruct (Hl q st r Hqs Hr) as [E|?]; [|by right].
      left. destruct (decide (q = p)) as [->|]; [|by apply Hq]. apply Hp; [|done]. congruence. }
  inv_m H. inv_m H3. destruct (IH w0 H Hi2) as [Hi3 Hd3].
  split; [done|]. etrans; [exact Hd1|]. by etrans.
Qed.

Lemma broadcast_inv D w w' u i :
  Inv D nothing w → broadcast_have i w = Ok (u, w') → Inv D nothing w' ∧ same_done w w'.
Proof.
  intros Hi H. unfold broadcast_have in H. inv_m H. inv_m H0. revert H.
  generalize (order (peers w)). intros keys. revert w Hi.
  induction keys as [|p keys IH]; intros w Hi H; cbn [for_peers] in H; [by inv_m H|].
  inv_m H. destruct (send_message_inv _ _ _ _ _ _ _ Hi H0) as [Hi1 Hs1].
  inv_m H. inv_m H1. destruct (IH w0 Hi1 H) as [Hi2 Hd2].
  split; [done|]. etrans; [by apply shrinks_done|done].
Qed.

(** ** Pieces *)

Lemma reset_active_inv D S w w' u p i :
  Inv D S w → reset_active_piece p i w = Ok (u, w') → Inv D S w' ∧ same_done w w'.
Proof.
  intros Hi H. unfold reset_active_piece in H. inv_m H. inv_m H0.
  apply when_ok in H as [[_ H]|[_ ->]]; [|done].
  eapply (put_same_inv D S w w' u p _ (with_active_piece None _)); eauto.
Qed.

(** A failed piece ends the program: the peer that sent its last block is registered
    and active, so reporting it unregisters it, and the handler goes on to use its
    entry. *)
Lemma corrupted_unregisters S w w' u p :
  Inv nobody S w → p ∈ dom (peers w) → on_peer_corrupted p w = Ok (u, w') → peers w' !! p = None.
Proof.
  intros (Hp & Ha & Hn & Hr) Hin H. unfold on_peer_corrupted in H. inv_m H. inv_m H0.
  unfold blacklist_peer in H. inv_m H. inv_m H1. inv_m H. inv_m H1.
  destruct Hn as (Hsz & Hreg & Hmgr). destruct (Hreg p Hin) as (c & Hc & Hcb & Hkey & [[]|Hact]).
  rewrite H0 in Hc. injection Hc as ->. cbn [active_peers set_blacklist] in H.
  unfold key_of in Hkey. rewrite Hkey in H.
  assert (Inv nobody S (set_blacklist (λ b, {[make_peer_key (c_ip c) (c_port c)]} ∪ b) w)) as Hi by done.
  destruct (disconnect_inv _ _ _ _ _ _ Hi H) as (_ & _ & Hgone).
  apply (Hgone c); [done|by rewrite Hact|done].
Qed.

Lemma piece_received_inv w w' u p i :
  Inv nobody nothing w → p ∈ dom (peers w) → 0 ≤ i → has_piece (pm w) i = false →
  piece_received p i w = Ok (u, w') → Inv nobody nothing w'.
Proof.
  intros Hi Hin Hir Hh H. unfold piece_received in H. inv_m H. inv_m H0. inv_m H. inv_m H0.
  destruct x; inv_m H.
  - inv_m H1. inv_m H2. inv_m H1. inv_m H2. inv_m H1.
    destruct Hi as (Hp & Ha & Hn & Hr).
    set (wc := set_pm _ _) in H2.
    assert (Inv nobody (λ _ r, r_piece r = i) wc) as Hi1.
    { inv_parts; try done; simpl; [by apply pieces_completed|by apply requests_completed]. }
    destruct (cancel_piece_inv _ _ _ _ _ Hi1 H2) as [Hi2 _].
    destruct (broadcast_inv _ _ _ _ _ Hi2 H1) as [Hi3 _].
    by destruct (reset_active_inv _ _ _ _ _ _ _ Hi3 H).
  - exfalso. inv_m H1. inv_m H2. destruct Hi as (Hp & Ha & Hn & Hr).
    set (wf := set_pm _ _) in H1.
    assert (Inv nobody (λ _ _, True) wf) as Hi1.
    { inv_parts; try done; simpl; [by apply pieces_failed|]. destruct Hr as (H5 & Hd & _).
      split_and!; try done. by left. }
    pose proof (corrupted_unregisters _ _ _ _ _ Hi1 Hin H1) as Hgone.
    unfold reset_active_piece in H. inv_m H. inv_m H2. congruence.
Qed.

(** ** Messages *)

(** The indices of a message are [uint32_t]s. *)
Definition msg_ok (msg : PeerMessage) : Prop :=
  match msg with
  | HaveMsg i => 0 ≤ i
  | PieceMsg i begin _ => 0 ≤ i ∧ 0 ≤ begin
  | _ => True
  end.

Lemma read_u32_nonneg data pos v : read_uint32_be data pos = Ok v → 0 ≤ v.
Proof.
  unfold read_uint32_be. intros H. inv_ok H. injection H as <-. apply be_value_range.
Qed.

Lemma deserialize_msg_ok data msg consumed :
  deserialize data = Ok (Some msg, consumed) → msg_ok msg.
Proof.
  unfold deserialize. intros H. case_ifs_in H. inv_ok H.
  destruct (x =? 0); [by injection H as <- _|]. guard_in H as E1.
  inv_ok H. inv_ok H. injection H as -> _. unfold deserialize_payload in H2.
  destruct (head x0 ≫= message_id) as [[]|]; try done; case_ifs_in H2;
    repeat (let H' := fresh in apply bind_ok in H2 as (? & H' & H2); try apply read_u32_nonneg in H');
    injection H2 as <-; done.
Qed.

Lemma erase_request_sublist i begin reqs : erase_request i begin reqs `sublist_of` reqs.
Proof. induction reqs as [|r reqs IH]; simpl; [done|]. case_ifs; by constructor. Qed.

Lemma top_off_inv D w w' u p :
  Inv D nothing w → top_off p w = Ok (u, w') → Inv D nothing w' ∧ same_done w w'.
Proof.
  intros Hi H. unfold top_off in H. inv_m H. inv_m H0.
  apply when_ok in H as [[_ H]|[_ ->]]; [|done]. by eapply fill_request_pipeline_inv.
Qed.

Lemma express_interest_inv D S w w' u p b :
  Inv D S w → express_interest p b w = Ok (u, w') → Inv D S w' ∧ shrinks w w'.
Proof.
  intros Hi H. unfold express_interest in H. inv_m H. inv_m H0.
  apply when_ok in H as [[_ H]|[_ ->]]; [|done]. by eapply send_message_inv.
Qed.

Lemma handle_choke_inv w w' u p st :
  Inv nobody nothing w → peers w !! p = Some st → handle_choke p st w = Ok (u, w') →
  Inv nobody nothing w'.
Proof.
  intros (Hp & Ha & Hn & Hr) Hst H. unfold handle_choke in H. inv_m H.
  apply (for_each_failed nothing _ _ _ p st) in H0 as (mg & -> & Hpm & Hrm & Eb); auto.
  2:{ eapply requests_weaken; [|done]. auto. }
  inv_m H. inv_parts; simpl; try done.
  - by eapply avail_same_bitfield.
  - rewrite dom_insert_lookup_L by done. done.
  - eapply requests_fewer; [exact Hrm|done|apply sublist_nil_l| |].
    + by intros q r Hq [?|?].
    + intros r Hin. by apply not_elem_of_nil in Hin.
Qed.

Lemma replace_bitfield_inv w w' b p st bits :
  Inv nobody nothing w → peers w !! p = Some st → replace_bitfield p st bits w = Ok (b, w') →
  Inv nobody nothing w'.
Proof.
  intros (Hp & Ha & Hn & Hr) Hst H. unfold replace_bitfield in H.
  inv_m H. inv_m H0. inv_m H. inv_m H0. inv_m H. inv_m H0. inv_m H. inv_m H0. inv_m H.
  destruct num_pieces_range as [Hnp Enp]. inv_parts; simpl; try done.
  - eapply (avail_replace _ _ _ _ (with_bitfield _ st)); try done.
    + simpl. apply wf_of_bytes. lia.
    + destruct Ha as (_ & _ & Hf). by apply (Hf p st).
  - rewrite dom_insert_lookup_L by done. done.
  - by eapply requests_same.
Qed.

Lemma handle_bitfield_inv w w' u p st bits :
  Inv nobody nothing w → peers w !! p = Some st → handle_bitfield p st bits w = Ok (u, w') →
  Inv nobody nothing w'.
Proof.
  intros Hi Hst H. unfold handle_bitfield in H. inv_m H.
  pose proof (replace_bitfield_inv _ _ _ _ _ _ Hi Hst H0) as Hi0.
  inv_m H. destruct (express_interest_inv _ _ _ _ _ _ _ Hi0 H1) as [Hi1 _].
  by destruct (top_off_inv _ _ _ _ _ Hi1 H).
Qed.

Lemma handle_have_inv w w' u p st idx :
  Inv nobody nothing w → peers w !! p = Some st → 0 ≤ idx → handle_have p st idx w = Ok (u, w') →
  Inv nobody nothing w'.
Proof.
  intros Hi Hst Hidx H. unfold handle_have in H. destruct (idx <? num_pieces_); [|by inv_m H].
  inv_m H. assert (Inv nobody nothing w0) as Hi0.
  { apply when_ok in H0 as [[Hh H0]|[_ ->]]; [|done]. inv_m H0. inv_m H1. inv_m H0.
    destruct Hi as (Hp & Ha & Hn & Hr). apply negb_true_iff in Hh. inv_parts; simpl; try done.
    - by apply avail_have.
    - rewrite dom_insert_lookup_L by done. done.
    - by eapply requests_same. }
  inv_m H. inv_m H1. by destruct (express_interest_inv _ _ _ _ _ _ _ Hi0 H).
Qed.

Lemma receive_block_inv w w' u p st i begin block :
  Inv nobody nothing w → peers w !! p = Some st → 0 ≤ i → 0 ≤ begin →
  receive_block p st i begin block w = Ok (u, w') → Inv nobody nothing w'.
Proof.
  intros Hi Hst Hir Hb H. unfold receive_block in H. inv_m H.
  destruct (put_fewer_inv nobody nothing nothing w w0 x p st
              (with_outstanding (erase_request i begin (outstanding st)) st)) as [Hi0 Hd0]; auto.
  { apply (state_ok _ _ _ _ _ Hi Hst). } { apply erase_request_sublist. }
  inv_m H0. inv_m H. inv_m H0. inv_m H. inv_m H0. destruct x as [complete manager].
  inv_m H. inv_m H1. destruct Hi0 as (Hp & Ha & Hn & Hr).
  destruct (block_received_frame _ i begin block complete manager ltac:(apply Hp) Hir Hb H0)
    as (Hwm & Emm & Ebm).
  set (wr := set_pm manager _) in H.
  assert (Inv nobody nothing wr) as Hi1.
  { inv_parts; simpl; try done; [by eapply pieces_same|]. eapply requests_manager; [done|].
    intros r. eapply (live_received _ i begin block complete); [apply Hp|done|done]. }
  apply when_ok in H as [[-> H]|[_ ->]]; [|done].
  apply (piece_received_inv _ _ _ _ _ Hi1) in H; try done.
  - simpl. rewrite dom_insert_L. set_solver.
  - unfold has_piece. simpl. rewrite Ebm. simpl.
    destruct (Bitfield.has (bitfield (pm w)) i) eqn:Eh; [|done].
    unfold block_received, has_piece in H0. simpl in H0. rewrite Eh in H0. done.
Qed.

Lemma handle_piece_inv w w' u p st i begin block :
  Inv nobody nothing w → peers w !! p = Some st → 0 ≤ i → 0 ≤ begin →
  handle_piece p st i begin block w = Ok (u, w') → Inv nobody nothing w'.
Proof.
  intros Hi Hst Hir Hb H. unfold handle_piece in H. inv_m H.
  pose proof (receive_block_inv _ _ _ _ _ _ _ _ Hi Hst Hir Hb H0) as Hi0.
  by destruct (top_off_inv _ _ _ _ _ Hi0 H).
Qed.

Lemma handle_peer_message_inv w w' u p msg :
  Inv nobody nothing w → msg_ok msg → handle_peer_message p msg w = Ok (u, w') →
  Inv nobody nothing w'.
Proof.
  intros Hi Hm H. unfold handle_peer_message in H. inv_m H. inv_m H0.
  destruct (peers w !! p) as [st|] eqn:Hst; [|by inv_m H].
  destruct msg; try (by inv_m H).
  - by eapply (handle_choke_inv _ _ u).
  - by destruct (fill_request_pipeline_inv _ _ _ _ _ Hi H).
  - by eapply handle_have_inv.
  - by eapply handle_bitfield_inv.
  - destruct Hm as [Hi0 Hb0]. exact (handle_piece_inv _ _ _ _ _ _ _ _ Hi Hst Hi0 Hb0 H).
Qed.
End Handlers.
