(* ===== verification/Steps.v ===== *)
(** * Every step keeps the invariant

    Receiving and connecting: the handshake that registers a peer, the loop over the
    received bytes, the events of a descriptor, and the additions of peers. With them
    the invariant of [System] holds in every world the program reaches. *)

From S2P Require Import Prelude StdString Bencode Bitfield Hasher Torrent PieceManager.
From S2P Require Import PiecePicker PeerMessage EventLoop World PeerConnection Coordinator.
From S2P Require Import System Handlers.

Section Steps.
Context `{C : CryptoSHA1} `{R : UniformRng} {prm : Params} {MO : MapOrder} {m : TorrentMetadata}
  {PF : ParamsFor prm m}.

Implicit Types (w : World).
Abbreviation Inv := (Inv (m := m)).

(** What holds between two steps. *)
Abbreviation Good := (Inv nobody nothing).

(** ** The handshake *)

(** Registered peers are in [active_peers_], each under a key of its own. *)
Lemma registered_size D cs act reg : net_ok D cs act reg → (size reg ≤ size act)%nat.
Proof.
  intros (_ & Hr & _). apply values_size; [apply NoDup_elements|].
  intros p Hp%elem_of_elements. destruct (Hr p Hp) as (c & _ & _ & Hk & _). by eexists.
Qed.

Lemma requests_register S manager ps p st :
  requests_ok S manager ps → outstanding st = [] → requests_ok S manager (<[p := st]> ps).
Proof.
  intros (H5 & Hd & Hl) E. split_and!.
  - intros q sq [[<- <-]|[_ Hq]]%lookup_insert_Some; [|by apply (H5 q)]. rewrite E.
    split; [done|apply NoDup_nil_2].
  - intros q q' sq sq' r r' Hne [[<- <-]|[_ Hq]]%lookup_insert_Some
      [[<- <-]|[_ Hq']]%lookup_insert_Some Hr Hr'; try done.
    + rewrite E in Hr. by apply not_elem_of_nil in Hr.
    + rewrite E in Hr'. by apply not_elem_of_nil in Hr'.
    + by apply (Hd q q' sq sq').
  - intros q sq r [[<- <-]|[_ Hq]]%lookup_insert_Some Hr; [|by apply (Hl q sq)].
    rewrite E in Hr. by apply not_elem_of_nil in Hr.
Qed.

Lemma net_register D cs act reg p c f :
  net_ok D cs act reg → cs !! p = Some c → c_state c = Active →
  key_of (f c) = key_of c → c_state (f c) = c_state c → on_disconnect (f c) = Some CoordinatorCb →
  net_ok D (alter f p cs) act ({[p]} ∪ reg).
Proof.
  intros (Hs & Hr & Hm) Hc Hst Ek Est Ecb. destruct (Hm p c Hc) as [Hk _]; [congruence|].
  split_and!; [done| |].
  - intros q Hq. destruct (decide (q = p)) as [->|].
    + rewrite lookup_alter_eq, Hc. exists (f c). split_and!; [done|done|congruence|right; congruence].
    + rewrite lookup_alter_ne by done. apply Hr. set_solver.
  - intros q cq. destruct (decide (q = p)) as [->|].
    + rewrite lookup_alter_eq, Hc. intros [= <-] _. split; [congruence|]. right. split; congruence.
    + rewrite lookup_alter_ne by done. apply Hm.
Qed.

Lemma register_peer_inv w w' u p c :
  Good w → conns w !! p = Some c → c_state c = Active → p ∉ dom (peers w) →
  register_peer p w = Ok (u, w') → Good w'.
Proof.
  intros (Hp & Ha & Hn & Hr) Hc Hst Hnin H. unfold register_peer in H.
  inv_m H. inv_m H0. inv_m H. pose proof (registered_size _ _ _ _ Hn) as Hsz.
  pose proof Hn as (Hmax & _). pose proof params_max as Hm31. rewrite size_dom in Hsz.
  inv_parts; simpl; try done.
  - apply avail_register; try done; [by apply not_elem_of_dom|lia].
  - rewrite dom_insert_L. by eapply net_register.
  - by apply requests_register.
Qed.

(** A connection whose handshake came. *)
Lemma state_active_inv w p c :
  Good w → conns w !! p = Some c → c_state c = Handshaking →
  Good (set_conns (alter (with_state Active) p) w).
Proof.
  intros (Hp & Ha & Hn & Hr) Hc Hst. inv_parts; try done. simpl.
  apply (net_alter nobody); auto. intros c' Hc'. rewrite Hc in Hc'. injection Hc' as <-.
  simpl. split_and!; auto. congruence.
Qed.

Lemma handshaking_unregistered D S w p c :
  Inv D S w → ¬ D p → conns w !! p = Some c → c_state c ≠ Active → p ∉ dom (peers w).
Proof.
  intros (_ & _ & (_ & Hr & _) & _) HD Hc Hst Hin. destruct (Hr p Hin) as (c' & Hc' & _ & _ & [?|?]);
    [done|]. congruence.
Qed.

Lemma on_handshake_inv w w' u p c h :
  Good w → conns w !! p = Some c → c_state c = Active → p ∉ dom (peers w) →
  run_on_handshake p h w = Ok (u, w') → Good w'.
Proof.
  intros Hi Hc Hst Hnin H. simpl in H. inv_m H.
  apply (register_peer_inv _ _ _ _ c) in H0; try done.
  by destruct (send_message_inv _ _ _ _ _ _ _ H0 H).
Qed.

(** ** Receiving *)

Lemma process_round_inv w w' b p : Good w → process_round p w = Ok (b, w') → Good w'.
Proof.
  intros Hi H. unfold process_round in H. inv_m H. inv_m H0. rename x into c.
  destruct (c_state c) eqn:Est.
  - inv_m H. inv_m H. by destruct (upd_conn_inv _ _ _ _ _ _ (with_rx []) ltac:(done) Hi H1).
  - inv_m H. inv_m H. by destruct (upd_conn_inv _ _ _ _ _ _ (with_rx []) ltac:(done) Hi H1).
  - destruct (_ <? _); [by inv_m H|]. inv_m H. inv_m H1. destruct x as [h|].
    + inv_m H. destruct (upd_conn_inv _ _ _ _ _ _ (with_rx _) ltac:(done) Hi H2) as (Hi1 & _ & Ep1).
      inv_m H2. inv_m H. inv_m H2. inv_m H. inv_m H.
      assert (p ∉ dom (peers w)) as Hnin
        by (eapply handshaking_unregistered; [exact Hi|by intros []|done|congruence]).
      eapply state_active_inv in Hi1; [|simpl; by rewrite lookup_alter_eq, H0|done].
      apply when_ok in H2 as [[_ H2]|[_ ->]]; [|done].
      eapply on_handshake_inv; [exact Hi1| | |exact Hnin|exact H2]; simpl;
        [by rewrite !lookup_alter_eq, H0|done].
    + inv_m H. inv_m H. by destruct (disconnect_inv _ _ _ _ _ _ Hi H2).
  - inv_m H. inv_m H1. destruct x as [msg_opt consumed].
    destruct (_ && _); [by inv_m H|]. inv_m H.
    assert (Good w0) as Hi0.
    { apply when_ok in H2 as [[_ H2]|[_ ->]]; [|done].
      by destruct (upd_conn_inv _ _ _ _ _ _ (with_rx _) ltac:(done) Hi H2). }
    destruct msg_opt as [msg|]; [|by inv_m H]. apply deserialize_msg_ok in H1.
    inv_m H. destruct (upd_conn_inv _ _ _ _ _ _ (received_flags msg)
      ltac:(intros c'; by destruct msg) Hi0 H3) as [Hi1 _].
    inv_m H. inv_m H. apply when_ok in H4 as [[_ H4]|[_ ->]]; [|done].
    exact (handle_peer_message_inv _ _ _ _ _ Hi1 H1 H4).
  - inv_m H. inv_m H. by destruct (upd_conn_inv _ _ _ _ _ _ (with_rx []) ltac:(done) Hi H1).
Qed.

Lemma process_loop_inv f w w' u p : Good w → process_loop f p w = Ok (u, w') → Good w'.
Proof.
  revert w. induction f as [|f IH]; intros w Hi H; [done|]. cbn [process_loop] in H.
  inv_m H. inv_m H0. case_bool_decide as E; [by inv_m H|]. inv_m H.
  apply process_round_inv in H1; [|done]. destruct x0; [by eapply IH|by inv_m H].
Qed.

Lemma handle_read_inv w w' u p recvs : Good w → handle_read recvs p w = Ok (u, w') → Good w'.
Proof.
  intros Hi H. unfold handle_read in H. inv_m H. inv_m H0. destruct (recv_loop _ _) as [[rx cl] er].
  inv_m H. destruct (upd_conn_inv _ _ _ _ _ _ (with_rx rx) ltac:(done) Hi H1) as [Hi1 _].
  destruct cl; [by destruct (disconnect_inv _ _ _ _ _ _ Hi1 H)|].
  destruct er; [by destruct (disconnect_inv _ _ _ _ _ _ Hi1 H)|].
  unfold process_rx_buffer in H. inv_m H. inv_m H2. by eapply process_loop_inv.
Qed.

(** A connection established: nothing changes for the tables. *)
Lemma state_handshaking_inv D S w w' u p c :
  Inv D S w → conns w !! p = Some c → c_state c ≠ Active → c_state c ≠ Disconnected →
  upd_conn p (with_state Handshaking) w = Ok (u, w') → Inv D S w'.
Proof.
  intros (Hp & Ha & Hn & Hr) Hc Hst Hst' H. inv_m H. inv_parts; try done. simpl.
  apply (net_alter D); auto. intros c' Hc'. rewrite Hc in Hc'. injection Hc' as <-.
  simpl. split_and!; auto; intros; congruence.
Qed.

Lemma handle_events_inv w w' u p ev err recvs :
  Good w → handle_events ev err recvs p w = Ok (u, w') → Good w'.
Proof.
  intros Hi H. unfold handle_events in H.
  destruct (any_of ev _); [by destruct (disconnect_inv _ _ _ _ _ _ Hi H)|].
  destruct (any_of ev EPOLLRDHUP); [by destruct (disconnect_inv _ _ _ _ _ _ Hi H)|].
  inv_m H. inv_m H0. destruct (_ && _ && _); [by destruct (disconnect_inv _ _ _ _ _ _ Hi H)|].
  inv_m H. assert (Good w0) as Hi0.
  { apply when_ok in H1 as [[E H1]|[_ ->]]; [|done]. apply andb_true_iff in E as [E%bool_decide_eq_true _].
    inv_m H1. eapply state_handshaking_inv in H2; [|done|done|congruence|congruence].
    by destruct (send_handshake_inv _ _ _ _ _ _ H2 H1). }
  inv_m H. assert (Good w1) as Hi1.
  { apply when_ok in H2 as [[_ H2]|[_ ->]]; [|done]. by eapply handle_read_inv. }
  apply when_ok in H as [[_ H]|[_ ->]]; [|done]. by destruct (handle_write_inv _ _ _ _ _ _ Hi1 H).
Qed.

(** ** Connecting *)

(** A connection that is given up before it had a descriptor. *)
Lemma connect_fails_inv D S w w1 w' u p c f :
  Inv D S w → conns w !! p = Some c → c_state c ≠ Disconnected →
  w1 = set_conns (alter f p) w →
  (∀ c, key_of (f c) = key_of c ∧ on_disconnect (f c) = on_disconnect c ∧
        c_state (f c) = Disconnected) →
  call_on_disconnect p w1 = Ok (u, w') → Inv D S w' ∧ shrinks w w'.
Proof.
  intros Hi Hc Hst -> Hf H. destruct (Hf c) as (Ek & Ecb & Ed).
  pose proof Hi as (_ & _ & (_ & _ & Hm) & _). destruct (Hm p c Hc Hst) as [Hk Hcb].
  eapply dropped_inv in H as (Hi1 & Hs1 & _); [done| | |exact Ed|].
  - destruct Hi as (Hp & Ha & Hn & Hr). inv_parts; try done. simpl.
    apply (net_alter D); auto. intros c' _. destruct (Hf c') as (? & ? & ?). split_and!; auto.
  - simpl. by rewrite lookup_alter_eq, Hc.
  - simpl. rewrite Ecb. intros key E. destruct Hcb as [E'|[E' _]]; congruence.
Qed.

Lemma state_connecting_inv D S w p c :
  Inv D S w → conns w !! p = Some c → c_state c = Idle →
  Inv D S (set_conns (alter (with_state Connecting) p) w).
Proof.
  intros (Hp & Ha & Hn & Hr) Hc Hst. inv_parts; try done. simpl.
  apply (net_alter D); auto. intros c' Hc'. rewrite Hc in Hc'. injection Hc' as <-.
  simpl. split_and!; auto; intros; congruence.
Qed.

Lemma registered_inv D S w w' u p c status reg_ok :
  Inv D S w → conns w !! p = Some c → c_state c = Connecting →
  registered p status reg_ok w = Ok (u, w') → Inv D S w' ∧ shrinks w w'.
Proof.
  intros Hi Hc Hst H. unfold registered in H. destruct reg_ok; simpl in H.
  - inv_m H. assert (Inv D S w0 ∧ shrinks w w0) as [Hi1 Hs1].
    { destruct status; try by inv_m H0. inv_m H0.
      pose proof (state_handshaking_inv _ _ _ _ _ _ _ Hi Hc ltac:(congruence) ltac:(congruence) H1)
        as Hi1.
      inv_m H1. by destruct (send_handshake_inv _ _ _ _ _ _ Hi1 H0). }
    destruct (update_epoll_inv _ _ _ _ _ _ Hi1 H) as [Hi2 Hs2]. split; [done|by etrans].
  - inv_m H. inv_m H0. inv_m H. inv_m H0.
    eapply (connect_fails_inv D S w _ w' u p c (λ c, with_fd (-1) (with_state Disconnected c)));
      [exact Hi|exact Hc|congruence| |done|exact H]. unfold set_conns. f_equal. apply alter_twice.
Qed.

Lemma connect_inv D S w w' u p :
  Inv D S w → connect p w = Ok (u, w') → Inv D S w' ∧ shrinks w w'.
Proof.
  intros Hi H. unfold connect in H. inv_m H. inv_m H0. rename x into c.
  case_bool_decide as Est; simpl in H; [|by inv_m H]. inv_m H. inv_m H1.
  pose proof (state_connecting_inv _ _ _ _ _ Hi H0 Est) as Hi1.
  inv_m H. inv_m H1. destruct (default _ _) as [[status fd] ctl_ok].
  inv_m H. inv_m H1. set (wc := set_connects _ _) in H.
  destruct (Inv_same D S _ wc Hi1) as [Hi2 _]; try done.
  assert (conns wc !! p = Some (with_state Connecting c)) as Hc2
    by (simpl; by rewrite lookup_alter_eq, H0).
  destruct status; [| |].
  1,2: inv_m H; destruct (upd_conn_inv D S _ _ _ _ (with_fd fd) ltac:(done) Hi2 H1) as (Hi3 & _);
    inv_m H1; inv_m H; inv_m H1; destruct (register_fd _ _ _ _ _) as [reg_ok l];
    inv_m H; inv_m H1; set (wr := set_fds _ _) in H;
    destruct (Inv_same D S _ wr Hi3) as [Hi4 _]; try done;
    eapply registered_inv in H as [Hi5 Hs5]; [done|exact Hi4| |];
    [simpl; by rewrite !lookup_alter_eq, H0|done].
  inv_m H. inv_m H1.
  by eapply (connect_fails_inv D S wc _ w' u p _ (with_state Disconnected)) in H as [Hi3 Hs3].
Qed.

(** ** Adding peers *)

Lemma net_fresh D cs act reg p c :
  net_ok D cs act reg → cs !! p = None → act !! key_of c = None →
  on_disconnect c = Some (ManagerCb (key_of c)) → Z.of_nat (size act) < max_connections_ →
  net_ok D (<[p := c]> cs) (<[key_of c := p]> act) reg.
Proof.
  intros (Hs & Hr & Hm) Hp Hk Hcb Hlt. split_and!.
  - rewrite map_size_insert_None by done. lia.
  - intros q Hq. destruct (Hr q Hq) as (cq & Hcq & Hcbq & Hkq & Hd). exists cq.
    rewrite !lookup_insert_ne by congruence. done.
  - intros q cq [[<- <-]|[Hne Hcq]]%lookup_insert_Some Hst.
    + rewrite lookup_insert_eq. auto.
    + destruct (Hm q cq Hcq Hst) as [Hkq ?]. rewrite lookup_insert_ne by congruence. done.
Qed.

Lemma connect_to_peer_inv D S w w' u ip port :
  Inv D S w → connect_to_peer ip port w = Ok (u, w') → Inv D S w' ∧ shrinks w w'.
Proof.
  intros Hi H. unfold connect_to_peer in H. inv_m H. inv_m H0.
  destruct (Z.leb_spec max_connections_ (Z.of_nat (size (active_peers w)))); [by inv_m H|].
  inv_m H. inv_m H1. destruct (is_blacklisted ip port w); [by inv_m H|].
  case_bool_decide as Ek; [by inv_m H|]. inv_m H. inv_m H1.
  inv_m H. inv_m H1. inv_m H. inv_m H1. inv_m H. inv_m H1.
  set (p := fresh (dom (conns w))) in *. set (key := make_peer_key ip port) in *.
  set (c := with_callbacks true false (Some (ManagerCb key)) (new_conn ip port)).
  set (wc := set_conns (alter _ p) _) in H.
  assert (conns wc = <[p := c]> (conns w)) as Ec.
  { simpl. apply map_eq. intros q. destruct (decide (q = p)) as [->|].
    - by rewrite lookup_alter_eq, !lookup_insert_eq.
    - by rewrite lookup_alter_ne, !lookup_insert_ne. }
  assert (Inv D S wc) as Hi1.
  { destruct Hi as (Hp & Ha & Hn & Hr). inv_parts; try done. rewrite Ec. simpl.
    apply (net_fresh D _ _ _ p c); try done.
    - apply not_elem_of_dom, is_fresh.
    - by apply eq_None_not_Some. }
  by destruct (connect_inv _ _ _ _ _ _ Hi1 H).
Qed.

Lemma add_peers_inv D S w w' u infos :
  Inv D S w → add_peers infos w = Ok (u, w') → Inv D S w' ∧ shrinks w w'.
Proof.
  revert w. induction infos as [|info infos IH]; intros w Hi H; cbn [add_peers] in H; [by inv_m H|].
  inv_m H. inv_m H0. destruct (_ <=? _); [by inv_m H|]. inv_m H. inv_m H0.
  destruct (is_blacklisted _ _ w); [by apply IH|]. case_bool_decide; [by apply IH|].
  inv_m H. destruct (connect_to_peer_inv _ _ _ _ _ _ _ Hi H1) as [Hi1 Hs1].
  destruct (IH w0 Hi1 H) as [Hi2 Hs2]. split; [done|by etrans].
Qed.

(** ** Runs *)

Lemma run_event_inv e w w' u : Good w → run_event e w = Ok (u, w') → Good w'.
Proof.
  intros Hi H. destruct e; unfold run_event in H.
  - by destruct (add_peers_inv _ _ _ _ _ _ Hi H).
  - by destruct (connect_to_peer_inv _ _ _ _ _ _ _ Hi H).
  - inv_m H. inv_m H0. destruct (fd_callbacks _ !! _); [by eapply handle_events_inv|by inv_m H].
  - inv_m H. by eapply Inv_same.
Qed.

Lemma run_events_inv es w w' u : Good w → run_events es w = Ok (u, w') → Good w'.
Proof.
  revert w. induction es as [|e es IH]; intros w Hi H; cbn [run_events] in H; [by inv_m H|].
  inv_m H. eapply IH; [|exact H]. by eapply run_event_inv.
Qed.

Lemma start_inv seeded : Good (start m seeded).
Proof.
  destruct num_pieces_range as [Hnp Enp]. inv_parts; simpl.
  - split_and!; [apply make_pm_wf, params_metadata|done|]. split_and!.
    + apply NoDup_nil_2.
    + intros i d Hin. by apply not_elem_of_nil in Hin.
    + intros i Hi. unfold has_piece. simpl. rewrite has_make. split; [done|].
      intros Hin. by apply not_elem_of_nil in Hin.
  - assert (u64 (num_pieces m) = num_pieces_) as -> by (rewrite Enp; apply wrap_small; lia).
    split_and!; [done|apply tracks_make; lia|done].
  - pose proof params_max as [? _]. split_and!; try done.
  - done.
Qed.

(** The worlds the program reaches from its start, for whatever peers and kernel do. *)
Definition reachable (w : World) : Prop :=
  ∃ seeded es u, run_events es (start m seeded) = Ok (u, w).

Lemma reachable_inv w : reachable w → Good w.
Proof. intros (seeded & es & u & H). eapply run_events_inv; [apply start_inv|done]. Qed.
End Steps.
