(* ===== verification/Termination.v ===== *)
(** * No event makes a loop spin, or throws

    The two loops that could spin: the one that fills a peer's pipeline, where a round
    either asks for a block or gives up a piece that has none left, and the one over
    the received bytes, where a round takes bytes off the buffer and no handler puts
    any back. *)

From S2P Require Import Prelude StdString Bencode Bitfield Hasher Torrent PieceManager.
From S2P Require Import PiecePicker PeerMessage EventLoop World PeerConnection Coordinator.
From S2P Require Import Keeps System Handlers Steps.

(** Neither out of fuel nor an exception. *)
Definition ends {A} (r : outcome A) : Prop :=
  match r with Ok _ | UB _ => True | Throw _ | Fuel => False end.

Section Termination.
Context `{C : CryptoSHA1} `{R : UniformRng} {prm : Params} {MO : MapOrder} {m : TorrentMetadata}
  {PF : ParamsFor prm m}.

Implicit Types (w : World).
Abbreviation Good := (Inv (m := m) nobody nothing).

(** ** Buffers do not grow under the handlers *)

Definition rx_len (w : World) (p : Z) : nat :=
  match conns w !! p with Some c => List.length (rx_buffer c) | None => O end.

Definition rx_le w w' : Prop := ∀ p, (rx_len w' p ≤ rx_len w p)%nat.

#[local] Instance rx_le_preorder : PreOrder rx_le.
Proof. split; [by intros w p|]. intros w1 w2 w3 H1 H2 p. etrans; [apply H2|apply H1]. Qed.

(** Peers are only lost. *)
Definition peers_le w w' : Prop := peers w' ⊆ peers w.

#[local] Instance peers_le_preorder : PreOrder peers_le.
Proof. unfold peers_le. split; [by intros w|]. intros w1 w2 w3 H1 H2. by etrans. Qed.

Lemma rx_le_same w w' : conns w' = conns w → rx_le w w'.
Proof. intros E p. unfold rx_len. by rewrite E. Qed.

Lemma keeps_upd_conn p f :
  (∀ c, List.length (rx_buffer (f c)) ≤ List.length (rx_buffer c))%nat → keeps rx_le (upd_conn p f).
Proof.
  intros Hf w u w' H q. inv_m H. unfold rx_len. simpl. destruct (decide (q = p)) as [->|].
  - rewrite lookup_alter_eq. destruct (conns w !! p); simpl; [apply Hf|done].
  - by rewrite lookup_alter_ne.
Qed.

Create HintDb keeps.
#[local] Hint Resolve keeps_ret keeps_gets keeps_lift keeps_conn keeps_peer_state keeps_when
  keeps_for_each rx_le_preorder peers_le_preorder : keeps.
#[local] Hint Extern 1 (keeps rx_le (modify _)) =>
  (apply keeps_modify; intros ?; by apply rx_le_same) : keeps.
#[local] Hint Extern 1 (keeps rx_le (put_peer _ _)) =>
  (apply keeps_modify; intros ?; by apply rx_le_same) : keeps.
#[local] Hint Extern 1 (keeps rx_le (upd_conn _ _)) =>
  (apply keeps_upd_conn; intros ?; simpl; lia) : keeps.
#[local] Hint Extern 1 (keeps peers_le (modify (set_peers (delete _)))) =>
  (apply keeps_modify; intros ?; apply delete_subseteq) : keeps.
#[local] Hint Extern 2 (keeps peers_le (modify _)) =>
  (apply keeps_modify; intros ?; unfold peers_le; done) : keeps.
#[local] Hint Extern 1 (keeps peers_le (upd_conn _ _)) =>
  (apply keeps_modify; intros ?; unfold peers_le; done) : keeps.

Ltac keep := keep_with ltac:(eauto with keeps).

(** What sending does, it does along both. *)
Definition sends_along (Rel : World → World → Prop) : Prop := Rel = rx_le ∨ Rel = peers_le.
#[local] Hint Extern 1 (sends_along _) => (by left) : keeps.
#[local] Hint Extern 1 (sends_along _) => (by right) : keeps.

Lemma keeps_request_failed r Rel : sends_along Rel → keeps Rel (request_failed r).
Proof. intros [-> | ->]; unfold request_failed; keep. Qed.
#[local] Hint Resolve keeps_request_failed : keeps.

Lemma keeps_unregister p Rel : sends_along Rel → keeps Rel (unregister_peer p).
Proof. intros [-> | ->]; unfold unregister_peer; keep. Qed.
#[local] Hint Resolve keeps_unregister : keeps.

Lemma keeps_disconnect p Rel : sends_along Rel → keeps Rel (disconnect p).
Proof.
  intros [-> | ->]; unfold disconnect, call_on_disconnect, run_on_disconnect, on_disconnect_callbacks; keep.
Qed.
#[local] Hint Resolve keeps_disconnect : keeps.

Lemma keeps_update_epoll p Rel : sends_along Rel → keeps Rel (update_epoll_interests p).
Proof. intros [-> | ->]; unfold update_epoll_interests; keep. Qed.
#[local] Hint Resolve keeps_update_epoll : keeps.

Lemma keeps_handle_write p Rel : sends_along Rel → keeps Rel (handle_write p).
Proof. intros [-> | ->]; unfold handle_write; keep. Qed.
#[local] Hint Resolve keeps_handle_write : keeps.

Lemma keeps_send_message p msg Rel : sends_along Rel → keeps Rel (send_message p msg).
Proof.
  intros [-> | ->]; unfold send_message; keep. apply keeps_upd_conn. intros c. by destruct msg.
Qed.
#[local] Hint Resolve keeps_send_message : keeps.

Lemma keeps_send_handshake p : keeps rx_le (send_handshake p).
Proof. unfold send_handshake. keep. Qed.

Lemma keeps_fill_loop f p : keeps rx_le (fill_loop f p).
Proof.
  induction f as [|f IH]; cbn [fill_loop]; [by intros w a w'|]. unfold fill_round, pick_active, request_block. keep.
Qed.
#[local] Hint Resolve keeps_fill_loop : keeps.

Lemma keeps_fill_request_pipeline p : keeps rx_le (fill_request_pipeline p).
Proof. unfold fill_request_pipeline. keep. Qed.
#[local] Hint Resolve keeps_fill_request_pipeline : keeps.

Lemma keeps_for_peers keys body : (∀ p, keeps rx_le (body p)) → keeps rx_le (for_peers keys body).
Proof. intros Hb. induction keys as [|p keys IH]; cbn [for_peers]; keep. Qed.

Lemma keeps_cancel_requests i p kept rest : keeps rx_le (cancel_requests i p kept rest).
Proof. revert kept. induction rest as [|r rest IH]; intros kept; cbn [cancel_requests]; keep. Qed.
#[local] Hint Resolve keeps_cancel_requests : keeps.

Lemma keeps_piece_received p i : keeps rx_le (piece_received p i).
Proof.
  unfold piece_received, cancel_piece_requests, broadcast_have, on_peer_corrupted, blacklist_peer,
    reset_active_piece. keep; apply keeps_for_peers; intros q; keep.
Qed.
#[local] Hint Resolve keeps_piece_received : keeps.

Lemma keeps_top_off p : keeps rx_le (top_off p).
Proof. unfold top_off. keep. Qed.
#[local] Hint Resolve keeps_top_off : keeps.

Lemma keeps_handle_peer_message p msg : keeps rx_le (handle_peer_message p msg).
Proof.
  unfold handle_peer_message, handle_choke, handle_bitfield, replace_bitfield, handle_have,
    handle_piece, receive_block, express_interest. keep.
Qed.

Lemma keeps_on_handshake p h : keeps rx_le (run_on_handshake p h).
Proof. simpl. unfold register_peer. keep. Qed.
#[local] Hint Resolve keeps_handle_peer_message keeps_on_handshake : keeps.

(** ** Handlers that end whatever the world is *)

Definition quiet {A} (x : M A) : Prop := ∀ w, ends (x w).

Lemma quiet_at {A} (x : M A) w : quiet x → ends (x w).
Proof. intros Hx. apply Hx. Qed.

Lemma ends_bind {A B} (x : M A) (f : A → M B) w :
  ends (x w) → (∀ a w', x w = Ok (a, w') → ends (f a w')) → ends ((x ≫= f) w).
Proof. unfold mbind, M_bind. destruct (x w) as [[a w']| | |]; simpl; auto. Qed.

Lemma quiet_bind {A B} (x : M A) (f : A → M B) : quiet x → (∀ a, quiet (f a)) → quiet (x ≫= f).
Proof. intros Hx Hf w. apply ends_bind; [apply Hx|]. intros. apply Hf. Qed.

Lemma quiet_conn p : quiet (conn p).
Proof. intros w. unfold conn. by destruct (conns w !! p). Qed.
Lemma quiet_peer_state p : quiet (peer_state p).
Proof. intros w. unfold peer_state. by destruct (peers w !! p). Qed.
Lemma quiet_lift {A} (x : outcome A) : ends x → quiet (lift x).
Proof. intros Hx w. unfold lift. by destruct x. Qed.
Lemma quiet_when b x : quiet x → quiet (when b x).
Proof. destruct b; [done|]. by intros _ w. Qed.
Lemma quiet_done {A} (f : World → A * World) : quiet (λ w, Ok (f w)).
Proof. by intros w. Qed.

Lemma ends_bind_outcome {A B} (x : outcome A) (f : A → outcome B) :
  ends x → (∀ a, ends (f a)) → ends (x ≫= f).
Proof. destruct x; simpl; auto. Qed.

Lemma ends_copy_at dst pos src : ends (copy_at dst pos src).
Proof. unfold copy_at. by case_ifs. Qed.
Lemma ends_read_at src pos n : ends (read_at src pos n).
Proof. unfold read_at. by case_ifs. Qed.

Create HintDb quiet.
#[local] Hint Resolve quiet_conn quiet_peer_state quiet_lift quiet_when ends_copy_at ends_read_at : quiet.
#[local] Hint Extern 1 (quiet (mret _)) => (by intros ?) : quiet.
#[local] Hint Extern 1 (quiet (gets _)) => (by intros ?) : quiet.
#[local] Hint Extern 1 (quiet (modify _)) => (by intros ?) : quiet.
#[local] Hint Extern 1 (quiet (put_peer _ _)) => (by intros ?) : quiet.
#[local] Hint Extern 1 (quiet (upd_conn _ _)) => (by intros ?) : quiet.

Ltac hush :=
  repeat first
    [ solve [eauto with quiet]
    | lazymatch goal with
      | |- quiet (_ ≫= _) => apply quiet_bind; [|intros ?]
      | |- quiet (when _ _) => apply quiet_when
      | |- quiet (lift _) => apply quiet_lift
      | |- quiet (match ?x with _ => _ end) => destruct x
      | |- quiet (let _ := _ in _) => cbv zeta
      | |- ends (_ ≫= _) => apply ends_bind_outcome; [|intros ?]
      | |- ends (match ?x with _ => _ end) => destruct x
      | |- ends (let _ := _ in _) => cbv zeta
      | |- ends (Ok _) => exact I
      | |- ends (UB _) => exact I
      end ].

Lemma ends_serialize msg : ends (serialize msg).
Proof. unfold serialize, header, write_uint32_be, write_uint16_be. hush. Qed.

Lemma ends_handshake_serialize h : ends (handshake_serialize h).
Proof. unfold handshake_serialize. hush. Qed.

Lemma ends_handshake_deserialize data : ends (handshake_deserialize data).
Proof. unfold handshake_deserialize. hush. Qed.

Lemma ends_deserialize data : ends (deserialize data).
Proof.
  unfold deserialize, deserialize_payload, read_uint32_be, read_uint16_be. hush.
Qed.

Lemma ends_pick_piece pk peer ours : ends (pick_piece pk peer ours).
Proof. unfold pick_piece, choose. hush. Qed.

Lemma ends_validate_piece manager i : ends (validate_piece manager i).
Proof. unfold validate_piece. hush. Qed.
#[local] Hint Resolve ends_serialize ends_handshake_serialize ends_handshake_deserialize
  ends_deserialize ends_pick_piece ends_validate_piece : quiet.

Lemma quiet_for_each {A} (l : list A) (f : A → M unit) : (∀ a, quiet (f a)) → quiet (for_each l f).
Proof. intros Hf. induction l as [|a l IH]; cbn [for_each]; hush. Qed.

Lemma quiet_request_failed r : quiet (request_failed r).
Proof. unfold request_failed. hush. Qed.
#[local] Hint Resolve quiet_for_each quiet_request_failed : quiet.

Lemma quiet_call_on_disconnect p : quiet (call_on_disconnect p).
Proof.
  unfold call_on_disconnect, run_on_disconnect, on_disconnect_callbacks, unregister_peer. hush.
Qed.
#[local] Hint Resolve quiet_call_on_disconnect : quiet.

Lemma quiet_disconnect p : quiet (disconnect p).
Proof. unfold disconnect. hush. Qed.

Lemma quiet_update_epoll p : quiet (update_epoll_interests p).
Proof. unfold update_epoll_interests. hush. Qed.
#[local] Hint Resolve quiet_disconnect quiet_update_epoll : quiet.

Lemma quiet_handle_write p : quiet (handle_write p).
Proof. unfold handle_write. hush. Qed.
#[local] Hint Resolve quiet_handle_write : quiet.

Lemma quiet_send_message p msg : quiet (send_message p msg).
Proof. unfold send_message. hush. Qed.

Lemma quiet_send_handshake p : quiet (send_handshake p).
Proof. unfold send_handshake. hush. Qed.
#[local] Hint Resolve quiet_send_message quiet_send_handshake : quiet.

Lemma quiet_connect_to_peer ip port : quiet (connect_to_peer ip port).
Proof. unfold connect_to_peer, connect, registered. hush. Qed.
#[local] Hint Resolve quiet_connect_to_peer : quiet.

Lemma quiet_add_peers infos : quiet (add_peers infos).
Proof. induction infos as [|info infos IH]; cbn [add_peers]; hush. Qed.

Lemma quiet_for_peers keys body : (∀ p, quiet (body p)) → quiet (for_peers keys body).
Proof. intros Hb. induction keys as [|p keys IH]; cbn [for_peers]; hush. Qed.

Lemma quiet_cancel_requests i p kept rest : quiet (cancel_requests i p kept rest).
Proof. revert kept. induction rest as [|r rest IH]; intros kept; cbn [cancel_requests]; hush. Qed.
#[local] Hint Resolve quiet_cancel_requests : quiet.

Lemma quiet_piece_received p i : quiet (piece_received p i).
Proof.
  unfold piece_received, cancel_piece_requests, broadcast_have, on_peer_corrupted, blacklist_peer,
    reset_active_piece. hush; apply quiet_for_peers; intros q; hush.
Qed.
#[local] Hint Resolve quiet_piece_received : quiet.

Lemma quiet_on_handshake p h : quiet (run_on_handshake p h).
Proof. simpl. unfold register_peer. hush. Qed.
#[local] Hint Resolve quiet_on_handshake : quiet.

(** ** The pipeline *)

(** A piece is only picked while it has a block pending, so the next round asks for
    one. *)
Lemma pending_next manager i :
  pm_wf manager → 0 ≤ i < num_pieces (metadata manager) → has_pending_blocks manager i = true →
  ∃ b manager', get_next_block manager i = Ok (Some b, manager').
Proof.
  intros Hw Hi Hp. unfold has_pending_blocks in Hp. destruct (has_piece manager i) eqn:Eh; [done|].
  rewrite get_next_block_eq by (done || lia).
  assert (∃ b, b ∈ ps_blocks (entry manager i) ∧ b_state b = Pending) as (b & Hb & Es).
  { destruct Hw as (Hm & _). unfold entry. destruct (in_progress manager !! i) as [st|]; simpl.
    - apply existsb_exists in Hp as (b & Hb & Es%bool_decide_eq_true). exists b.
      by rewrite list_elem_of_In.
    - pose proof (piece_len_pos _ i Hm Hi). exists (block_at i (piece_len (metadata manager) i) 0).
      split; [|done]. apply (list_elem_of_lookup_2 _ 0), layout_lookup. split; [done|].
      unfold num_blocks, block_size. apply Z.div_str_pos. lia. }
  destruct (list_find_elem_of (λ b, b_state b = Pending) _ b Hb Es) as [[k b'] ->].
  by do 2 eexists.
Qed.

Lemma completed_or_full_pending manager i :
  Bitfield.wf (bitfield manager) → num_bits (bitfield manager) = num_pieces_ → 0 ≤ i < num_pieces_ →
  Bitfield.has (completed_or_full manager) i = false → has_pending_blocks manager i = true.
Proof.
  intros Hw En Hi Hh. destruct (has_pending_blocks manager i) eqn:Ep; [done|]. exfalso.
  enough (∀ l b, Bitfield.wf b → num_bits b = num_pieces_ → Forall (λ j, 0 ≤ j) l →
    (i ∈ l ∨ Bitfield.has b i = true) →
    Bitfield.has (foldl (λ b j, if has_pending_blocks manager j then b else Bitfield.set b j true) b l) i
      = true) as H.
  { unfold completed_or_full in Hh. rewrite H in Hh; try done.
    - apply Forall_forall. intros j Hj%elem_of_seqZ. lia.
    - left. apply elem_of_seqZ. lia. }
  clear Hh Hw En. induction l as [|j l IH]; intros b Hb Hn Hl Hin; cbn [foldl].
  - by destruct Hin as [?%not_elem_of_nil|].
  - apply Forall_cons in Hl as [Hj Hl]. apply IH; [..|done|].
    + case_ifs; auto using wf_set.
    + case_ifs; [done|]. by rewrite num_bits_set.
    + destruct Hin as [[->|?]%elem_of_cons|Hin]; [|by left|].
      * right. rewrite Ep, has_set by (done || lia). rewrite decide_True by lia. done.
      * right. case_ifs; [done|]. rewrite has_set by done. by case_decide.
Qed.

(** Twice the requests still to make, and one for an active piece. *)
Definition rounds (st : PeerState) : Z :=
  2 * (5 - zlen (outstanding st)) + match active_piece st with Some _ => 1 | None => 0 end.

(** A piece picked now has a block to ask for. *)
Lemma picked_pending w w' x p st i :
  Good w → active_piece st = None → pick_active p st w = Ok (x, w') → x = Some i →
  ∃ b manager, get_next_block (pm w) i = Ok (Some b, manager).
Proof.
  intros ((Hw & Em & _) & (Epk & _) & _) Ea H ->. unfold pick_active in H. rewrite Ea in H.
  inv_m H. inv_m H0. inv_m H. inv_m H0. inv_m H. inv_m H0. destruct x as [picked pk].
  inv_m H. inv_m H1. destruct picked as [j|]; [|inv_m H; discriminate]. inv_m H. inv_m H1.
  assert (j = i) as -> by (unfold mret, M_ret in H; congruence).
  apply pick_candidate, elem_of_candidates in H0 as (Hir & _ & Hh).
  destruct num_pieces_range as [Hnp Enp]. pose proof Hw as (_ & Hbw & Hbn & _).
  apply pending_next; [done|rewrite Em; lia|].
  apply completed_or_full_pending; [done|rewrite Hbn, Em; lia|lia|done].
Qed.

Lemma fill_round_decreases w w' b p st st' :
  Good w → peers w !! p = Some st → zlen (outstanding st) < 5 → fill_round p w = Ok (b, w') →
  b = true → peers w' !! p = Some st' → rounds st' < rounds st.
Proof.
  intros Hi Hst Hlen H Hb Hst'. unfold fill_round in H. inv_m H. inv_m H0.
  rewrite Hst in H0. injection H0 as <-. inv_m H.
  destruct (pick_active_inv _ _ _ _ _ _ Hi Hst H0) as (_ & _ & Epm & _).
  destruct x as [i|]; [|inv_m H; discriminate Hb]. inv_m H. inv_m H.
  unfold request_block in H1. inv_m H1. inv_m H2. inv_m H1. inv_m H2. rewrite Epm in H2.
  destruct x0 as [block manager]. inv_m H1. inv_m H3. destruct block as [bl|].
  - inv_m H1. inv_m H3. set (st2 := mk_peer _ _ _) in H1.
    assert (st' = st2) as ->.
    { assert (peers w1 ⊆ <[p := st2]> (peers w0)) as Hsub
        by exact (keeps_send_message _ _ peers_le (or_intror eq_refl) _ _ _ H1).
      eapply lookup_weaken in Hst'; [|exact Hsub]. rewrite lookup_insert_eq in Hst'. congruence. }
    unfold rounds, st2. simpl. rewrite zlen_app. change (zlen [_]) with 1. case_match; lia.
  - inv_m H1. simpl in Hst'. rewrite lookup_insert_eq in Hst'.
    injection Hst' as <-. unfold rounds. simpl. destruct (active_piece st) eqn:Ea; [lia|].
    destruct (picked_pending _ _ _ _ _ i Hi Ea H0 eq_refl) as (b & mg & E). congruence.
Qed.

Lemma ends_fill_round w p st :
  Good w → peers w !! p = Some st → ends (fill_round p w).
Proof.
  intros Hi Hst. unfold fill_round. apply ends_bind; [apply quiet_peer_state|].
  intros st' w' H. inv_m H. rewrite Hst in H. injection H as <-.
  apply ends_bind; [apply quiet_at; unfold pick_active; hush|]. intros picked w1 H1.
  destruct (pick_active_inv _ _ _ _ _ _ Hi Hst H1) as (Hi1 & _ & _ & Hx).
  destruct picked as [i|]; [|done]. destruct (Hx i eq_refl) as [Hir _].
  apply ends_bind; [|done]. unfold request_block. apply ends_bind; [done|]. intros manager w2 H2. inv_m H2.
  destruct (get_next_block_wf (pm w1) i) as (r & mg & E & _); [apply Hi1|lia|].
  apply ends_bind; [unfold lift; by rewrite E|]. intros [b mg'] w2 _. apply quiet_at. hush.
Qed.

Lemma ends_fill_loop f w p :
  Good w → (∀ st, peers w !! p = Some st → rounds st < Z.of_nat f) → (0 < f)%nat →
  ends (fill_loop f p w).
Proof.
  revert w. induction f as [|f IH]; intros w Hi Hf H0; [lia|]. cbn [fill_loop].
  apply ends_bind; [apply quiet_peer_state|]. intros st w' H. inv_m H.
  destruct (Z.leb_spec 5 (zlen (outstanding st))); [done|].
  apply ends_bind; [by eapply ends_fill_round|]. intros [] w' Hr; [|done].
  destruct (fill_round_inv nobody w w' true p st) as [Hi' _]; auto. specialize (Hf st H).
  assert (1 ≤ rounds st) by (unfold rounds; case_match; lia).
  apply IH; [done| |lia]. intros st' Hst'.
  pose proof (fill_round_decreases w w' true p st st' Hi H ltac:(done) Hr eq_refl Hst'). lia.
Qed.

Lemma ends_fill_request_pipeline w p : Good w → ends (fill_request_pipeline p w).
Proof.
  intros Hi. unfold fill_request_pipeline. apply ends_bind; [apply quiet_conn|].
  intros c w' H. inv_m H. destruct (peer_choking c); [done|].
  apply ends_bind; [done|]. intros found w' H'. inv_m H'.
  destruct (peers w !! p) as [st|] eqn:Hst; [|done]. apply ends_fill_loop; [done| |lia].
  intros st' Hst'. rewrite Hst in Hst'. injection Hst' as <-. unfold rounds.
  pose proof (zlen_nonneg (outstanding st)). case_match; lia.
Qed.

(** ** Messages *)

Lemma ends_top_off w p : Good w → ends (top_off p w).
Proof.
  intros Hi. unfold top_off. apply ends_bind; [apply quiet_conn|]. intros c w' H. inv_m H.
  destruct (peer_choking c); [done|]. by apply ends_fill_request_pipeline.
Qed.

Lemma ends_receive_block w p st i begin block :
  Good w → 0 ≤ i → 0 ≤ begin → ends (receive_block p st i begin block w).
Proof.
  intros Hi Hir Hb. unfold receive_block. apply ends_bind; [done|]. intros u w1 H. inv_m H.
  apply ends_bind; [done|]. intros manager w2 H. inv_m H.
  destruct (block_received_wf (pm w) i begin block) as (r & mg & E & _); [apply Hi|done|done|].
  apply ends_bind; [unfold lift; simpl; by rewrite E|]. intros [complete mg'] w3 _.
  apply quiet_at. hush.
Qed.

Lemma ends_handle_peer_message w p msg :
  Good w → msg_ok msg → ends (handle_peer_message p msg w).
Proof.
  intros Hi Hm. unfold handle_peer_message. apply ends_bind; [done|]. intros found w' H. inv_m H.
  destruct (peers w !! p) as [st|] eqn:Hst; [|done]. destruct msg; try done.
  - apply quiet_at. unfold handle_choke. hush.
  - by apply ends_fill_request_pipeline.
  - apply quiet_at. unfold handle_have, express_interest. hush.
  - unfold handle_bitfield. apply ends_bind; [apply quiet_at; unfold replace_bitfield; hush|].
    intros b w1 H1. apply (replace_bitfield_inv _ _ _ _ _ _ Hi Hst) in H1.
    apply ends_bind; [apply quiet_at; unfold express_interest; hush|].
    intros u w2 H2. apply (express_interest_inv _ _ _ _ _ _ _ H1) in H2 as [Hi2 _].
    by apply ends_top_off.
  - destruct Hm as [Hir Hb]. unfold handle_piece. apply ends_bind; [by apply ends_receive_block|].
    intros u w1 H1. apply (receive_block_inv _ _ _ _ _ _ _ _ Hi Hst Hir Hb) in H1.
    by apply ends_top_off.
Qed.

(** ** The received bytes *)

Lemma ends_process_round w p : Good w → ends (process_round p w).
Proof.
  intros Hi. unfold process_round. apply ends_bind; [apply quiet_conn|]. intros c w' H. inv_m H.
  destruct (c_state c); try (apply quiet_at; hush; fail).
  apply ends_bind; [apply quiet_at; hush|]. intros [msg_opt consumed] w1 H1. inv_m H1.
  destruct (_ && _); [done|]. apply ends_bind; [apply quiet_at; hush|]. intros u w2 H2.
  assert (Good w2) as Hi2.
  { apply when_ok in H2 as [[_ H2]|[_ ->]]; [|done].
    by destruct (upd_conn_inv _ _ _ _ _ _ (with_rx _) ltac:(done) Hi H2). }
  destruct msg_opt as [msg|]; [|done]. apply deserialize_msg_ok in H1.
  apply ends_bind; [done|]. intros u' w3 H3.
  destruct (upd_conn_inv _ _ _ _ _ _ (received_flags msg) ltac:(intros c'; by destruct msg) Hi2 H3)
    as [Hi3 _].
  apply ends_bind; [|done]. destruct (on_message c); [|done]. by apply ends_handle_peer_message.
Qed.

(** A message takes bytes off a buffer of less than 4 GiB. (In a longer one, a length
    prefix of 2^32 - 4 gives a message and takes none.) *)
Lemma deserialize_progress data msg_opt consumed :
  deserialize data = Ok (msg_opt, consumed) → zlen data < 2 ^ 32 →
  bool_decide (msg_opt = None) && (consumed =? 0) = false → 0 < consumed.
Proof.
  intros H Hlen Hgo. unfold deserialize in H. case_ifs_in H.
  { injection H as <- <-. done. }
  inv_ok H. apply read_u32_nonneg in H0. destruct (x =? 0); [by injection H as <- <-|].
  guard_in H as E1; [by injection H as <- <-|]. inv_ok H. inv_ok H. injection H as <- <-.
  destruct (Z.eq_dec (u32 (4 + x)) 0) as [Ew|]; [|pose proof (wrap_range 32 (4 + x)); lia].
  rewrite Ew, andb_true_r in Hgo. exfalso. apply bool_decide_eq_false in Hgo. apply Hgo.
  assert (2 ^ 32 - 4 ≤ x) as Hx.
  { destruct (Z.lt_ge_cases x (2 ^ 32 - 4)); [|done]. rewrite wrap_small in Ew by lia. lia. }
  clear - H2 Hx Hlen. unfold deserialize_payload in H2.
  destruct (head _ ≫= message_id) as [[]|]; try rewrite (proj2 (Z.eqb_neq _ _)) in H2 by lia;
    try (by injection H2 as <-).
  - apply bind_ok in H2 as (field & [_ Hr]%read_at_ok & _). lia.
  - rewrite (proj2 (Z.ltb_ge _ _)) in H2 by lia.
    apply bind_ok in H2 as (? & _ & H2). apply bind_ok in H2 as (? & _ & H2).
    apply bind_ok in H2 as (block & [_ Hr]%read_at_ok & _). lia.
Qed.

Lemma rx_len_upd w p c f :
  conns w !! p = Some c → rx_len (set_conns (alter f p) w) p = List.length (rx_buffer (f c)).
Proof. intros Hc. unfold rx_len. simpl. by rewrite lookup_alter_eq, Hc. Qed.

Lemma process_round_decreases w w' b p :
  process_round p w = Ok (b, w') → b = true → Z.of_nat (rx_len w p) < 2 ^ 32 →
  (0 < rx_len w p)%nat → (rx_len w' p < rx_len w p)%nat.
Proof.
  intros H Hb Hlen Hpos. unfold process_round in H. inv_m H. inv_m H0. rename x into c.
  assert (rx_len w p = List.length (rx_buffer c)) as El by (unfold rx_len; by rewrite H0).
  rewrite El in *. destruct (c_state c).
  1,2,5: by inv_m H; inv_m H; discriminate Hb.
  - destruct (Z.ltb_spec (zlen (rx_buffer c)) 68) as [E|E]; [by inv_m H; discriminate Hb|]. inv_m H. inv_m H1.
    destruct x as [h|]; [|by inv_m H; inv_m H; discriminate Hb].
    inv_m H. inv_m H2. inv_m H. inv_m H2. inv_m H. inv_m H.
    set (w1 := set_conns _ (set_conns _ w)) in H2.
    assert (∀ w2, when (on_handshake c) (run_on_handshake p h) w1 = Ok (tt, w2) → rx_le w1 w2) as Hle.
    { intros w2 H3. eapply (keeps_when rx_le); [apply keeps_on_handshake|exact H3]. }
    destruct x. eapply Nat.le_lt_trans; [exact (Hle _ H2 p)|]. unfold w1.
    erewrite rx_len_upd by (simpl; by rewrite lookup_alter_eq, H0). simpl.
    unfold zdrop, zlen in *. rewrite length_drop. lia.
  - inv_m H. inv_m H1. destruct x as [msg_opt consumed].
    destruct (_ && _) eqn:Eg; [by inv_m H; discriminate Hb|].
    apply deserialize_progress in H1; [|unfold zlen; lia|done]. inv_m H.
    rewrite (proj2 (Z.ltb_lt _ _)) in H2 by done. simpl in H2. inv_m H2.
    set (w1 := set_conns _ w) in H.
    assert (rx_le w1 w') as Hle.
    { destruct msg_opt as [msg|]; [|inv_m H; reflexivity]. inv_m H.
      etrans; [eapply (keeps_upd_conn p (received_flags msg)); [|exact H2]; intros c'; by destruct msg|].
      inv_m H. inv_m H. eapply (keeps_when rx_le); [apply keeps_handle_peer_message|exact H3]. }
    eapply Nat.le_lt_trans; [exact (Hle p)|]. unfold w1. erewrite rx_len_upd by done. simpl.
    unfold zdrop. rewrite length_drop. lia.
Qed.

Lemma process_loop_ends f w p :
  Good w → Z.of_nat (rx_len w p) < 2 ^ 32 → (rx_len w p < f)%nat → ends (process_loop f p w).
Proof.
  revert w. induction f as [|f IH]; intros w Hi Hlen Hf; [lia|]. cbn [process_loop].
  apply ends_bind; [apply quiet_conn|]. intros c w' H. inv_m H.
  assert (rx_len w p = List.length (rx_buffer c)) as El by (unfold rx_len; by rewrite H).
  case_bool_decide as E; [done|]. apply ends_bind; [by apply ends_process_round|].
  intros b w1 H1. destruct b; [|done]. pose proof (process_round_inv _ _ _ _ Hi H1) as Hi1.
  assert (0 < rx_len w p)%nat by (rewrite El; destruct (rx_buffer c); [done|simpl; lia]).
  pose proof (process_round_decreases _ _ _ _ H1 eq_refl Hlen ltac:(done)). apply IH; [done|lia|lia].
Qed.

(** What the calls of [recv] add to the buffer. *)
Definition received (recvs : list RecvResult) : list byte := (recv_loop recvs []).1.1.

Lemma recv_loop_app recvs rx : (recv_loop recvs rx).1.1 = rx ++ received recvs.
Proof.
  unfold received. revert rx. induction recvs as [|[] recvs IH]; intros rx; simpl;
    rewrite ?app_nil_r; auto.
  rewrite IH, (IH bytes). by rewrite app_assoc.
Qed.

Lemma ends_handle_read w p recvs :
  Good w → Z.of_nat (rx_len w p) + zlen (received recvs) < 2 ^ 32 → ends (handle_read recvs p w).
Proof.
  intros Hi Hlen. unfold handle_read. apply ends_bind; [apply quiet_conn|]. intros c w' H. inv_m H.
  assert (rx_len w p = List.length (rx_buffer c)) as El by (unfold rx_len; by rewrite H).
  set (rs := if c_fd c =? -1 then [RecvFails] else recvs).
  assert (zlen (recv_loop rs (rx_buffer c)).1.1 < 2 ^ 32) as Hrx.
  { rewrite recv_loop_app, zlen_app. unfold rs. pose proof (zlen_nonneg (received recvs)).
    destruct (c_fd c =? -1); [change (zlen (received [RecvFails])) with 0|]; unfold zlen in *; lia. }
  destruct (recv_loop rs (rx_buffer c)) as [[rx cl] er]. simpl in Hrx.
  apply ends_bind; [done|]. intros u w1 H1.
  destruct (upd_conn_inv _ _ _ _ _ _ (with_rx rx) ltac:(done) Hi H1) as [Hi1 _]. inv_m H1.
  destruct cl; [apply quiet_disconnect|]. destruct er; [apply quiet_disconnect|].
  unfold process_rx_buffer. apply ends_bind; [apply quiet_conn|]. intros c1 w2 H2.
  assert (rx_len (set_conns (alter (with_rx rx) p) w) p = List.length rx) as Elr
    by (by erewrite rx_len_upd by done).
  inv_m H2. simpl in H2. rewrite lookup_alter_eq, H in H2. injection H2 as <-.
  apply process_loop_ends; [done| |]; rewrite Elr; [unfold zlen in Hrx; lia|simpl; lia].
Qed.

Lemma ends_handle_events w p ev err recvs :
  Good w → Z.of_nat (rx_len w p) + zlen (received recvs) < 2 ^ 32 →
  ends (handle_events ev err recvs p w).
Proof.
  intros Hi Hlen. unfold handle_events.
  destruct (any_of ev _); [apply quiet_disconnect|].
  destruct (any_of ev EPOLLRDHUP); [apply quiet_disconnect|].
  apply ends_bind; [apply quiet_conn|]. intros c w' H. inv_m H.
  destruct (_ && _ && _); [apply quiet_disconnect|].
  apply ends_bind; [apply quiet_at; hush|]. intros u w1 H1.
  assert (Good w1 ∧ rx_le w w1) as [Hi1 Hle1].
  { apply when_ok in H1 as [[E H1]|[_ ->]]; [|by split].
    apply andb_true_iff in E as [E%bool_decide_eq_true _]. inv_m H1.
    assert (rx_le w w0) as Hle by (eapply keeps_upd_conn; [|exact H0]; done).
    eapply state_handshaking_inv in H0; [|done|done|congruence|congruence].
    split; [by destruct (send_handshake_inv _ _ _ _ _ _ H0 H1)|]. etrans; [exact Hle|].
    by eapply keeps_send_handshake. }
  apply ends_bind.
  - destruct (any_of ev EPOLLIN); [|done]. apply ends_handle_read; [done|].
    specialize (Hle1 p). lia.
  - intros u' w2 _. apply quiet_at. hush.
Qed.

(** The bytes that come with an event, with those waiting, are less than 4 GiB. *)
Definition small_event (e : event) (w : World) : Prop :=
  match e with
  | Events _ _ _ recvs => ∀ p, Z.of_nat (rx_len w p) + zlen (received recvs) < 2 ^ 32
  | _ => True
  end.

Lemma ends_run_event e w : Good w → small_event e w → ends (run_event e w).
Proof.
  intros Hi Hs. destruct e; unfold run_event.
  - apply quiet_add_peers.
  - apply quiet_connect_to_peer.
  - apply ends_bind; [done|]. intros cb w' H. inv_m H.
    destruct (fd_callbacks _ !! _); [|done]. by apply ends_handle_events.
  - done.
Qed.
End Termination.
