(* ===== verification/Safe.v ===== *)
(** * Handlers that do not go wrong

    A logic for showing that a computation reaches no undefined behaviour: [safe x Q w]
    says that [x], run in [w], does not reach any, and ends, if it returns, in a world
    that satisfies [Q]. With [ends] of [Termination] it returns. And the sending of
    messages while the kernel does not fail a [send]: it leaves everything but the
    buffers of the connections in place. *)

From S2P Require Import Prelude StdString Bencode Bitfield Hasher Torrent PieceManager.
From S2P Require Import PiecePicker PeerMessage EventLoop World PeerConnection Coordinator.
From S2P Require Import Keeps System Handlers Steps Termination.

Section Logic.
Context `{R : UniformRng}.

Definition safe {A} (x : M A) (Q : A → World → Prop) (w : World) : Prop :=
  match x w with
  | Ok (a, w') => Q a w'
  | UB _ => False
  | Throw _ | Fuel => True
  end.

Lemma safe_returns {A} (x : M A) Q w : safe x Q w → ends (x w) → ∃ a w', x w = Ok (a, w') ∧ Q a w'.
Proof. unfold safe. destruct (x w) as [[a w']| | |]; try done. by exists a, w'. Qed.

Lemma safe_bind {A B} (x : M A) (f : A → M B) Q w :
  safe x (λ a, safe (f a) Q) w → safe (x ≫= f) Q w.
Proof. unfold safe, mbind, M_bind. by destruct (x w) as [[a w']| | |]. Qed.

Lemma safe_mono {A} (x : M A) (P Q : A → World → Prop) w :
  safe x P w → (∀ a w', x w = Ok (a, w') → P a w' → Q a w') → safe x Q w.
Proof. unfold safe. destruct (x w) as [[a w']| | |]; auto. Qed.

Lemma safe_conn p w c Q : conns w !! p = Some c → Q c w → safe (conn p) Q w.
Proof. intros E H. unfold safe, conn. by rewrite E. Qed.

Lemma safe_peer_state p w st Q : peers w !! p = Some st → Q st w → safe (peer_state p) Q w.
Proof. intros E H. unfold safe, peer_state. by rewrite E. Qed.

Lemma safe_ret {A} (a : A) (Q : A → World → Prop) w : Q a w → safe (mret a) Q w.
Proof. done. Qed.
Lemma safe_gets {A} (f : World → A) (Q : A → World → Prop) w : Q (f w) w → safe (gets f) Q w.
Proof. done. Qed.
Lemma safe_modify f (Q : unit → World → Prop) w : Q tt (f w) → safe (modify f) Q w.
Proof. done. Qed.

Lemma safe_lift {A} (x : outcome A) a Q w : x = Ok a → Q a w → safe (lift x) Q w.
Proof. intros -> H. done. Qed.

Lemma safe_when b x Q w :
  (b = true → safe x Q w) → (b = false → Q tt w) → safe (when b x) Q w.
Proof. intros Ht Hf. destruct b; [by apply Ht|by apply Hf]. Qed.

(** A loop over [peers_] whose body keeps an invariant under which the entries are
    there. *)
Lemma safe_for_peers keys body (I : World → Prop) w :
  I w → (∀ w p, I w → p ∈ keys → is_Some (peers w !! p)) →
  (∀ w p, I w → p ∈ keys → safe (body p) (λ _, I) w) → safe (for_peers keys body) (λ _, I) w.
Proof.
  revert w. induction keys as [|p keys IH]; intros w Hi Hk Hb; cbn [for_peers]; [done|].
  apply safe_bind. eapply safe_mono; [apply Hb; [done|left]|]. intros u w1 _ Hi1.
  destruct (Hk w1 p Hi1) as [st Hst]; [left|]. apply safe_bind. eapply safe_peer_state; [done|].
  apply IH; [done| |]; intros w2 q H2 Hq; [apply Hk|apply Hb]; auto; by right.
Qed.
End Logic.

(** The next step of a computation. *)
Ltac safe_step :=
  lazymatch goal with
  | |- safe (_ ≫= _) _ _ => apply safe_bind
  | |- safe (mret _) _ _ => apply safe_ret
  | |- safe (gets _) _ _ => apply safe_gets
  | |- safe (modify _) _ _ => apply safe_modify
  | |- safe (upd_conn _ _) _ _ => apply safe_modify
  | |- safe (put_peer _ _) _ _ => apply safe_modify
  | H : conns ?w !! ?p = Some _ |- safe (conn ?p) _ ?w => eapply safe_conn; [exact H|]
  | H : peers ?w !! ?p = Some _ |- safe (peer_state ?p) _ ?w => eapply safe_peer_state; [exact H|]
  end.

(** ** Sending when no send fails *)

Section Sending.
Context `{C : CryptoSHA1} `{R : UniformRng} {prm : Params} {MO : MapOrder}.

Implicit Types (w : World).

(** What sending does not change of a connection, and of an entry of [peers_]. *)
Definition link (c : Conn) : Conn := with_tx [] (with_am true true c).
Definition requests (st : PeerState) : PeerState := with_active_piece None st.

(** The kernel fails no [send]. *)
Definition willing w : Prop := Forall (λ s, s ≠ SendFails) (sends w).

Record calm w w' : Prop := {
  calm_conns : link <$> conns w' = link <$> conns w;
  calm_fds : fd_callbacks (fds w') = fd_callbacks (fds w);
  calm_peers : requests <$> peers w' = requests <$> peers w;
  calm_pm : pm w' = pm w;
  calm_completed : completed w' = completed w;
  calm_connects : connects w' = connects w;
  calm_willing : willing w → willing w';
}.

#[export] Instance calm_preorder : PreOrder calm.
Proof. split; [done|]. intros w1 w2 w3 [] []. constructor; congruence || auto. Qed.

(** Updates that do not show. *)
Lemma calm_upd_conn w p f : (∀ c, link (f c) = link c) → calm w (set_conns (alter f p) w).
Proof.
  intros Hf. constructor; try done. simpl. apply map_eq. intros q. rewrite !lookup_fmap.
  destruct (decide (q = p)) as [->|].
  - rewrite lookup_alter_eq. destruct (conns w !! p); [|done]. simpl. by rewrite Hf.
  - by rewrite lookup_alter_ne.
Qed.

Lemma calm_put_peer w p st st' :
  peers w !! p = Some st → requests st' = requests st → calm w (set_peers <[p := st']> w).
Proof.
  intros Hst E. constructor; try done. simpl. rewrite fmap_insert, E.
  apply insert_id. by rewrite lookup_fmap, Hst.
Qed.

Lemma calm_conn w w' p c :
  calm w w' → conns w !! p = Some c → ∃ c', conns w' !! p = Some c' ∧ link c' = link c.
Proof.
  intros Hc E. pose proof (f_equal (lookup p) (calm_conns _ _ Hc)) as H.
  rewrite !lookup_fmap, E in H. simpl in H. apply fmap_Some in H as (c' & ? & ?). by exists c'.
Qed.

Lemma calm_peer w w' p st :
  calm w w' → peers w !! p = Some st →
  ∃ st', peers w' !! p = Some st' ∧ requests st' = requests st.
Proof.
  intros Hc E. pose proof (f_equal (lookup p) (calm_peers _ _ Hc)) as H.
  rewrite !lookup_fmap, E in H. simpl in H. apply fmap_Some in H as (st' & ? & ?). by exists st'.
Qed.

Lemma calm_peers_inv w w' p st' :
  calm w w' → peers w' !! p = Some st' →
  ∃ st, peers w !! p = Some st ∧ requests st' = requests st.
Proof.
  intros Hc E. pose proof (f_equal (lookup p) (calm_peers _ _ Hc)) as H.
  rewrite !lookup_fmap, E in H. simpl in H. symmetry in H. apply fmap_Some in H as (st & ? & ?). by exists st.
Qed.

(** Connections that look the same agree on all but what is sent. *)
Lemma link_inv c c' :
  link c = link c' →
  c_ip c = c_ip c' ∧ c_port c = c_port c' ∧ c_fd c = c_fd c' ∧ c_state c = c_state c' ∧
  peer_choking c = peer_choking c' ∧ rx_buffer c = rx_buffer c' ∧
  on_handshake c = on_handshake c' ∧ on_message c = on_message c' ∧ on_disconnect c = on_disconnect c'.
Proof. destruct c, c'. intros H. injection H. intros. by split_and!. Qed.

Lemma requests_inv st st' :
  requests st = requests st' → p_bitfield st = p_bitfield st' ∧ outstanding st = outstanding st'.
Proof. destruct st, st'. intros H. injection H. intros. by split_and!. Qed.

Lemma send_loop_willing script size total :
  Forall (λ s, s ≠ SendFails) script →
  ∃ sent script', send_loop script size total = (sent, false, script') ∧
    Forall (λ s, s ≠ SendFails) script'.
Proof.
  intros H. revert total. induction H as [|s script Hs Hf IH]; intros total; cbn [send_loop].
  { case_ifs; do 2 eexists; by split. }
  destruct (size <=? total); [do 2 eexists; split; [done|by constructor]|].
  destruct s; try apply IH; [|done]. do 2 eexists. by split.
Qed.

Lemma safe_update_epoll w p c :
  conns w !! p = Some c → safe (update_epoll_interests p) (λ _, calm w) w.
Proof.
  intros Hc. unfold update_epoll_interests. safe_step. safe_step. case_bool_decide; [by safe_step|].
  safe_step. constructor; try done. simpl. unfold modify_fd. by case_ifs.
Qed.

Lemma safe_handle_write w p c :
  conns w !! p = Some c → c_fd c ≠ -1 → willing w → safe (handle_write p) (λ _, calm w) w.
Proof.
  intros Hc Hfd Hw. unfold handle_write. safe_step. safe_step.
  case_bool_decide; [by eapply safe_update_epoll|]. safe_step. safe_step.
  rewrite (proj2 (Z.eqb_neq _ _)) by done.
  destruct (send_loop_willing (sends w) (zlen (tx_buffer c)) 0 Hw) as (sent & script & -> & Hs).
  safe_step. safe_step. safe_step.
  assert (calm w (set_sends script w)) as H1 by (by constructor).
  assert (∀ w1, calm w w1 → safe (update_epoll_interests p) (λ _, calm w) w1) as Hend.
  { intros w1 Hcalm. destruct (calm_conn _ _ _ _ Hcalm Hc) as (c1 & Hc1 & _).
    eapply safe_mono; [by eapply safe_update_epoll|]. intros u w2 _ ?. by etrans. }
  apply safe_when; [|by auto]. intros _. safe_step. apply Hend.
  etrans; [exact H1|]. by apply calm_upd_conn.
Qed.

Lemma safe_send_message w p c msg :
  conns w !! p = Some c → c_fd c ≠ -1 → willing w → fixed_length msg →
  safe (send_message p msg) (λ _, calm w) w.
Proof.
  intros Hc Hfd Hw Hb%serialize_fixed. unfold send_message. safe_step. safe_step.
  case_bool_decide; [by safe_step|]. safe_step. safe_step. safe_step.
  eapply safe_lift; [exact Hb|]. safe_step. safe_step.
  set (w1 := set_conns (alter (sent_flags msg) p) w).
  assert (calm w w1) as H1 by (apply calm_upd_conn; intros c'; by destruct msg).
  assert (calm w (set_conns (alter (with_tx (tx_buffer c ++ wire msg)) p) w1)) as H2
    by (etrans; [exact H1|by apply calm_upd_conn]).
  case_bool_decide; [|by safe_step]. destruct (calm_conn _ _ _ _ H2 Hc) as (c2 & Hc2 & El).
  apply link_inv in El as (_ & _ & Efd & _).
  eapply safe_mono; [eapply safe_handle_write; [exact Hc2|congruence|by apply H2]|].
  intros u w3 _ H3. by etrans.
Qed.
End Sending.
