(* ===== verification/Progress.v ===== *)
(** * What is left of a download

    Of the piece manager: which blocks are asked for, how many are still to come, and
    what a block that comes from a peer with the right bytes changes. [content] is what
    the pieces of the torrent are. *)

From S2P Require Import Prelude StdString Bencode Bitfield Hasher Torrent PieceManager.
From S2P Require Import PiecePicker World System.

Section Progress.
Context `{C : CryptoSHA1}.
Variable content : Z → list byte.

Implicit Types (pm : PieceManager).

(** The pieces the torrent lists the digests of. *)
Definition content_of (m : TorrentMetadata) : Prop :=
  ∀ i, 0 ≤ i < num_pieces m →
    zlen (content i) = piece_len m i ∧ znth (piece_hashes m) i = Some (hash (content i)).

(** A piece we do not have. *)
Definition wanted pm (i : Z) : Prop := 0 ≤ i < num_pieces (metadata pm) ∧ has_piece pm i = false.

(** The request for a block, and the blocks handed out and not received. *)
Definition req_of (i : Z) (b : Block) : RequestedBlock := mk_request i (b_begin b) (b_length b).

Definition requested pm (r : RequestedBlock) : Prop :=
  wanted pm (r_piece r) ∧
  ∃ (k : nat) b, ps_blocks (entry pm (r_piece r)) !! k = Some b ∧ b_state b = Requested ∧
    r = req_of (r_piece r) b.

(** The blocks up for being handed out. *)
Definition pending pm (r : RequestedBlock) : Prop :=
  wanted pm (r_piece r) ∧
  ∃ (k : nat) b, ps_blocks (entry pm (r_piece r)) !! k = Some b ∧ b_state b = Pending ∧
    r_begin r = b_begin b ∧ r_length r = b_length b.

(** Every piece in progress holds the right bytes in the blocks received, and lacks
    one. *)
Definition assembling_ok pm : Prop :=
  ∀ i, wanted pm i →
    (∃ ops, assembling (content i) i ops (entry pm i)) ∧
    received (ps_blocks (entry pm i)) < zlen (ps_blocks (entry pm i)).

(** The blocks still to come. *)
Definition missing pm (i : Z) : Z :=
  if has_piece pm i then 0
  else zlen (ps_blocks (entry pm i)) - received (ps_blocks (entry pm i)).
Definition todo pm : Z := zsum (missing pm <$> seqZ 0 (num_pieces (metadata pm))).

(** Nothing becomes pending. *)
Definition pending_le pm pm' : Prop :=
  ∀ i, 0 ≤ i < num_pieces (metadata pm) →
    has_pending_blocks pm i = false → has_pending_blocks pm' i = false.

(** The bytes that answer a request. *)
Definition answer (r : RequestedBlock) : list byte :=
  slice (r_begin r) (r_length r) (content (r_piece r)).

Lemma wanted_put pm i st j : wanted (put_state pm i st) j ↔ wanted pm j.
Proof. done. Qed.

Lemma no_pending pm i :
  pm_wf pm → 0 ≤ i < num_pieces (metadata pm) →
  has_pending_blocks pm i = false ↔
  (has_piece pm i = false → ∀ (k : nat) b, ps_blocks (entry pm i) !! k = Some b → b_state b ≠ Pending).
Proof.
  intros Hw Hi. destruct (has_piece pm i) eqn:Eh.
  { unfold has_pending_blocks. rewrite Eh. naive_solver. }
  rewrite has_pending_entry by done. rewrite <- not_true_iff_false, existsb_exists. split.
  - intros Hn _ k b Hk Hs. apply Hn. exists b. rewrite bool_decide_eq_true. split; [|done].
    by eapply list_elem_of_In, list_elem_of_lookup_2.
  - intros Hn (b & Hb & Hs%bool_decide_eq_true). apply list_elem_of_In, list_elem_of_lookup in Hb as [k Hk].
    by apply (Hn eq_refl k b).
Qed.

(** ** A block that changes state *)

Section OneBlock.
Variables (pm : PieceManager) (i : Z) (k : nat) (b : Block) (s : BlockState) (st : PieceState).
Hypotheses (Hw : pm_wf pm) (Hi : wanted pm i).
Hypothesis Hk : ps_blocks (entry pm i) !! k = Some b.
Hypothesis Hst : ps_blocks st = <[k := set_state s b]> (ps_blocks (entry pm i)).

(** Blocks are told apart by their offset. *)
Lemma block_begin_inj (j : nat) b' :
  ps_blocks (entry pm i) !! j = Some b' → b_begin b' = b_begin b → j = k.
Proof.
  intros Hj E. pose proof (entry_wf pm i Hw (proj1 (proj1 Hi))) as He.
  destruct (piece_wf_extent _ _ _ _ _ He Hk) as [Ek _].
  destruct (piece_wf_extent _ _ _ _ _ He Hj) as [Ej _]. unfold block_size in *. lia.
Qed.

Lemma requested_put r :
  requested (put_state pm i st) r ↔
  s = Requested ∧ r = req_of i b ∨ requested pm r ∧ rkey r ≠ rkey (req_of i b).
Proof.
  unfold requested. rewrite wanted_put, entry_put. destruct (decide (i = r_piece r)) as [Ei|Ei].
  - rewrite <- Ei, Hst. split.
    + intros (Hwt & j & x & [(<- & <- & _)|[Hne Hj]]%list_lookup_insert_Some & Hs & Er).
      * left. simpl in Hs. split; [done|]. rewrite Er. done.
      * right. split; [by split; [|exists j, x]|]. rewrite Er. unfold rkey, req_of. simpl.
        intros [= E]. by apply Hne, eq_sym, (block_begin_inj j x).
    + intros [[-> Er]|[(Hwt & j & x & Hj & Hs & Er) Hne]]; (split; [done|]).
      * exists k, (set_state Requested b). split_and!; [|done|by rewrite Er].
        apply list_lookup_insert_eq. by eapply lookup_lt_Some.
      * exists j, x. split_and!; [|done|done]. rewrite list_lookup_insert_ne; [done|].
        intros <-. rewrite Hk in Hj. injection Hj as <-. by rewrite Er in Hne.
  - split.
    + intros H. right. split; [done|]. unfold rkey, req_of. simpl. congruence.
    + intros [[_ E]|[H _]]; [|done]. by rewrite E in Ei.
Qed.

Lemma missing_put j :
  missing (put_state pm i st) j =
  missing pm j - (if decide (i = j) then
                    (if decide (s = Received) then 1 else 0) -
                    (if decide (b_state b = Received) then 1 else 0) else 0).
Proof.
  unfold missing. change (has_piece (put_state pm i st) j) with (has_piece pm j).
  rewrite entry_put. destruct (decide (i = j)) as [<-|]; [|destruct (has_piece pm j); lia].
  rewrite (proj2 Hi), Hst, (received_insert _ _ b) by done.
  unfold zlen. rewrite length_insert. simpl. lia.
Qed.

Lemma pending_le_put : s ≠ Pending → pm_wf (put_state pm i st) → pending_le pm (put_state pm i st).
Proof.
  intros Hs Hw' j Hj. rewrite !no_pending by done.
  change (has_piece (put_state pm i st) j) with (has_piece pm j). intros H Hh.
  rewrite entry_put. case_decide as E; [subst j|by apply H]. rewrite Hst.
  intros n x [(<- & <- & _)|[_ Hn]]%list_lookup_insert_Some; [done|]. by eapply H.
Qed.
End OneBlock.

Lemma zsum_cons x l : zsum (x :: l) = x + zsum l.
Proof. done. Qed.

Lemma zsum_one (f g : Z → Z) n i d :
  0 ≤ i < n → (∀ j, g j = f j - (if decide (i = j) then d else 0)) →
  zsum (g <$> seqZ 0 n) = zsum (f <$> seqZ 0 n) - d.
Proof.
  intros Hi Hg. replace n with (i + (1 + (n - i - 1))) by lia.
  rewrite !(seqZ_app 0), !(seqZ_app (0 + i)) by lia. change (seqZ (0 + i) 1) with [0 + i].
  rewrite !fmap_app, !zsum_app. cbn [fmap list_fmap zsum foldr]. rewrite !Z.add_0_l, (Hg i), decide_True by done.
  assert (∀ a l, (∀ j, j ∈ seqZ a l → i ≠ j) → zsum (g <$> seqZ a l) = zsum (f <$> seqZ a l)) as H.
  { intros a l. induction (seqZ a l) as [|j js IH]; intros Hne; [done|].
    rewrite !fmap_cons, !zsum_cons. rewrite Hg, decide_False by (apply Hne; left).
    rewrite IH by (intros; apply Hne; by right). lia. }
  rewrite !H; [lia|..]; intros j Hj%elem_of_seqZ; lia.
Qed.

Lemma todo_put pm i k b s st :
  wanted pm i → ps_blocks (entry pm i) !! k = Some b →
  ps_blocks st = <[k := set_state s b]> (ps_blocks (entry pm i)) → b_state b ≠ Received →
  todo (put_state pm i st) = todo pm - (if decide (s = Received) then 1 else 0).
Proof.
  intros Hi Hk Hst Hb. unfold todo. apply (zsum_one _ _ _ i); [apply Hi|]. intros j.
  rewrite (missing_put pm i k b s st) by done. rewrite (decide_False (P := b_state b = Received)) by done.
  repeat case_decide; lia.
Qed.

(** ** Asking for a block *)

Lemma next_block_progress pm i b pm' :
  pm_wf pm → wanted pm i → assembling_ok pm → get_next_block pm i = Ok (Some b, pm') →
  req_of i b = mk_request (b_piece b) (b_begin b) (b_length b) ∧
  (∀ r, requested pm' r ↔ requested pm r ∨ r = req_of i b) ∧
  assembling_ok pm' ∧ todo pm' = todo pm ∧ pending_le pm pm'.
Proof.
  intros Hw Hi Ha H. pose proof (entry_wf pm i Hw (proj1 (proj1 Hi))) as He.
  destruct (get_next_block_frame pm i (Some b) pm' Hw (proj1 (proj1 Hi)) H) as (Hw' & _).
  rewrite get_next_block_eq in H by (done || apply Hi).
  destruct (list_find _ _) as [[k b0]|] eqn:Ef; [|done]. injection H as <- <-.
  apply list_find_Some in Ef as (Hk & Hb & _). set (st := with_blocks _ _) in *.
  assert (ps_blocks st = <[k := set_state Requested b0]> (ps_blocks (entry pm i))) as Hst by done.
  split_and!.
  - unfold req_of. simpl. f_equal. destruct (piece_wf_block _ _ _ _ _ He Hk) as [-> _]. simpl.
    destruct Hw as ((_ & Hn & _) & _). destruct Hi as [Hi _]. rewrite wrap_small by lia. done.
  - intros r. rewrite (requested_put pm i k b0 Requested st) by done. split.
    + intros [[_ ->]|[Hr _]]; [by right|by left].
    + intros [Hr| ->]; [|by left]. right. split; [done|]. intros E.
      destruct Hr as (_ & j & x & Hj & Hs & Er). unfold rkey, req_of in E. simpl in E. injection E as Ep Eb.
      rewrite Ep in Hj. rewrite Er in Eb. simpl in Eb.
      assert (j = k) as -> by (by eapply (block_begin_inj pm i k b0)). congruence.
  - intros j Hj. rewrite entry_put. case_decide as E; [subst j|by apply Ha].
    destruct (Ha i Hi) as [[ops Hops] Hlt]. split.
    + exists ops. apply assembling_set; [done|congruence|done|done].
    + simpl. rewrite (received_insert _ _ b0), !decide_False by (done || congruence).
      unfold zlen in *. rewrite length_insert. lia.
  - rewrite (todo_put pm i k b0 Requested st) by (done || congruence). rewrite decide_False by done. lia.
  - by apply (pending_le_put pm i k b0 Requested st).
Qed.

(** Looking for a block where there is none changes nothing. *)
Lemma no_block_progress pm i pm' :
  pm_wf pm → 0 ≤ i < num_pieces (metadata pm) → assembling_ok pm → get_next_block pm i = Ok (None, pm') →
  (∀ r, requested pm' r ↔ requested pm r) ∧ assembling_ok pm' ∧ todo pm' = todo pm ∧
  pending_le pm pm'.
Proof.
  intros Hw Hi Ha H. destruct (has_piece pm i) eqn:Eh.
  { unfold get_next_block in H. rewrite Eh in H. injection H as <-. split_and!; [done..|by intros ? ?]. }
  destruct (get_next_block_frame pm i None pm' Hw (proj1 Hi) H) as (Hw' & _).
  rewrite get_next_block_eq in H by (done || lia).
  destruct (list_find _ _) as [[k b0]|] eqn:Ef; [done|]. injection H as <-.
  assert (∀ j, entry (put_state pm i (entry pm i)) j = entry pm j) as E.
  { intros j. rewrite entry_put. case_decide; by subst. }
  split_and!.
  - intros r. unfold requested. by rewrite E, wanted_put.
  - intros j Hj. rewrite E. by apply Ha.
  - unfold todo, missing. simpl. f_equal. apply list_fmap_ext. intros n j _. by rewrite E.
  - intros j Hj. rewrite !no_pending by done. by rewrite E.
Qed.

(** ** Giving blocks back *)

Lemma failed_put pm r :
  pm_wf pm → requested pm r →
  ∃ (k : nat) b st, ps_blocks (entry pm (r_piece r)) !! k = Some b ∧ b_state b = Requested ∧
    r = req_of (r_piece r) b ∧
    st = with_blocks (entry pm (r_piece r))
           (<[k := set_state Pending b]> (ps_blocks (entry pm (r_piece r)))) ∧
    block_request_failed pm (r_piece r) (r_begin r) = put_state pm (r_piece r) st.
Proof.
  intros Hw (Hi & k & b & Hk & Hs & Er). exists k, b. eexists. do 4 (split; [done|]).
  pose proof (entry_wf pm _ Hw (proj1 (proj1 Hi))) as He.
  destruct (piece_wf_extent _ _ _ _ _ He Hk) as [Eb _].
  assert (in_progress pm !! r_piece r = Some (entry pm (r_piece r))) as E.
  { unfold entry in *. destruct (in_progress pm !! r_piece r); [done|].
    apply layout_lookup in Hk as [-> _]. done. }
  assert (r_begin r = Z.of_nat k * block_size) as Erb by (by rewrite Er).
  unfold block_request_failed. rewrite E, (proj2 (find_begin _ _ _ _ k b He)) by done.
  by rewrite bool_decide_eq_true_2.
Qed.

Lemma block_given_back pm r :
  pm_wf pm → assembling_ok pm → requested pm r →
  let pm' := block_request_failed pm (r_piece r) (r_begin r) in
  assembling_ok pm' ∧ (∀ r', requested pm' r' ↔ requested pm r' ∧ rkey r' ≠ rkey r) ∧
  todo pm' = todo pm.
Proof.
  intros Hw Ha Hr pm'. destruct (failed_put pm r Hw Hr) as (k & b & st & Hk & Hs & Er & Est & E).
  unfold pm'. rewrite E. pose proof (proj1 Hr) as Hi.
  assert (ps_blocks st = <[k := set_state Pending b]> (ps_blocks (entry pm (r_piece r)))) as Hst by (by rewrite Est).
  split_and!.
  - intros j Hj. rewrite entry_put. case_decide as Ej; [subst j|by apply Ha].
    destruct (Ha _ Hi) as [[ops Hops] Hlt]. split.
    + exists ops. rewrite Est. apply assembling_set; [done|congruence|done|done].
    + rewrite Hst, (received_insert _ _ b), !decide_False by (done || congruence).
      unfold zlen in *. rewrite length_insert. lia.
  - intros r'. rewrite (requested_put pm _ k b Pending st), <- Er by done.
    split; [by intros [[? _]|?]|by right].
  - rewrite (todo_put pm _ k b Pending st), decide_False by (done || congruence). lia.
Qed.

(** The blocks of several requests. *)
Definition give_back pm (l : list RequestedBlock) : PieceManager :=
  foldl (λ pm r, block_request_failed pm (r_piece r) (r_begin r)) pm l.

Lemma blocks_given_back pm l :
  pm_wf pm → assembling_ok pm → NoDup (rkey <$> l) → (∀ r, r ∈ l → requested pm r) →
  let pm' := give_back pm l in
  pm_wf pm' ∧ metadata pm' = metadata pm ∧ bitfield pm' = bitfield pm ∧ assembling_ok pm' ∧
  (∀ r', requested pm' r' ↔ requested pm r' ∧ rkey r' ∉ rkey <$> l) ∧ todo pm' = todo pm.
Proof.
  revert pm. induction l as [|r l IH]; intros pm Hw Ha Hnd Hl pm'.
  { split_and!; try done. intros r'. split; [|by intros [? _]]. split; [done|apply not_elem_of_nil]. }
  apply NoDup_cons in Hnd as [Hnin Hnd].
  destruct (block_given_back pm r Hw Ha) as (Ha1 & Hr1 & Ht1); [apply Hl; left|].
  destruct (block_request_failed_bitfield pm (r_piece r) (r_begin r)) as [Em1 Eb1].
  destruct (IH (block_request_failed pm (r_piece r) (r_begin r))) as (Hw2 & Em2 & Eb2 & Ha2 & Hr2 & Ht2);
    [by apply block_request_failed_wf|done|done| |].
  { intros r' Hr'. apply Hr1. split; [apply Hl; by right|]. intros E. apply Hnin. rewrite <- E.
    by apply list_elem_of_fmap_2. }
  change pm' with (give_back (block_request_failed pm (r_piece r) (r_begin r)) l).
  do 4 (split; [done || congruence|]). split; [|congruence].
  intros r'. rewrite Hr2, Hr1, fmap_cons, not_elem_of_cons. tauto.
Qed.

(** A block given back is pending, and stays so when others are. *)
Lemma failed_pending pm r :
  pm_wf pm → requested pm r → pending (block_request_failed pm (r_piece r) (r_begin r)) r.
Proof.
  intros Hw Hr. destruct (failed_put pm r Hw Hr) as (k & b & st & Hk & Hs & Er & -> & ->).
  split; [apply Hr|]. exists k, (set_state Pending b). rewrite entry_put, decide_True by done. simpl.
  split_and!; [|done|by rewrite Er|by rewrite Er]. apply list_lookup_insert_eq. by eapply lookup_lt_Some.
Qed.

Lemma pending_failed pm r i begin : pending pm r → pending (block_request_failed pm i begin) r.
Proof.
  intros (Hi & k & b & Hk & Hs & E). unfold block_request_failed.
  destruct (in_progress pm !! i) as [st|] eqn:Est; [|by split; [|exists k, b]].
  destruct (list_find _ _) as [[j b0]|] eqn:Ef; [|by split; [|exists k, b]].
  case_bool_decide as Eb; [|by split; [|exists k, b]]. split; [done|]. exists k, b.
  rewrite entry_put. case_decide as Ei; [|done]. split; [|done]. cbn [ps_blocks with_blocks].
  subst i. rewrite (entry_same _ _ _ Est) in Hk. apply list_find_Some in Ef as (Hj & _ & _).
  rewrite list_lookup_insert_ne; [done|]. intros ->. rewrite Hk in Hj. injection Hj as ->. congruence.
Qed.

Lemma given_back_pending pm l r :
  pm_wf pm → assembling_ok pm → NoDup (rkey <$> l) → (∀ r, r ∈ l → requested pm r) → r ∈ l →
  pending (give_back pm l) r.
Proof.
  revert pm. induction l as [|r0 l IH]; intros pm Hw Ha Hnd Hl Hr; [by apply not_elem_of_nil in Hr|].
  apply NoDup_cons in Hnd as [Hnin Hnd].
  destruct (block_given_back pm r0 Hw Ha) as (Ha1 & Hr1 & _); [apply Hl; left|].
  change (give_back pm (r0 :: l)) with (give_back (block_request_failed pm (r_piece r0) (r_begin r0)) l).
  apply elem_of_cons in Hr as [->|Hr].
  - assert (pending (block_request_failed pm (r_piece r0) (r_begin r0)) r0) as Hp
      by (apply failed_pending; [done|apply Hl; left]).
    clear - Hp. revert Hp. generalize (block_request_failed pm (r_piece r0) (r_begin r0)). clear pm.
    induction l as [|r1 l IH]; intros pm Hp; [done|]. by apply IH, pending_failed.
  - apply IH; [by apply block_request_failed_wf|done|done| |done]. intros r' Hr'. apply Hr1.
    split; [apply Hl; by right|]. intros E. apply Hnin. rewrite <- E. by apply list_elem_of_fmap_2.
Qed.

Lemma pending_has pm r :
  pm_wf pm → pending pm r → has_pending_blocks pm (r_piece r) = true.
Proof.
  intros Hw ((Hi & Hh) & k & b & Hk & Hs & _). rewrite has_pending_entry by done.
  apply existsb_exists. exists b. rewrite bool_decide_eq_true_2 by done. split; [|done].
  by eapply list_elem_of_In, list_elem_of_lookup_2.
Qed.

(** ** Receiving a block asked for *)

Lemma requested_block pm r :
  pm_wf pm → content_of (metadata pm) → requested pm r →
  ∃ (k : nat) b, ps_blocks (entry pm (r_piece r)) !! k = Some b ∧ b_state b = Requested ∧
    r = req_of (r_piece r) b ∧ r_begin r = Z.of_nat k * block_size ∧
    Z.of_nat k < num_blocks (zlen (content (r_piece r))) ∧
    answer r = block_bytes (content (r_piece r)) (Z.of_nat k).
Proof.
  intros Hw Hc (Hi & k & b & Hk & Hs & Er). exists k, b.
  pose proof (entry_wf pm _ Hw (proj1 (proj1 Hi))) as He. destruct (Hc _ (proj1 Hi)) as [El _].
  destruct (piece_wf_block _ _ _ _ _ He Hk) as [_ Hlt].
  destruct (piece_wf_extent _ _ _ _ _ He Hk) as [Eb Ebl].
  assert (r_begin r = Z.of_nat k * block_size ∧
          r_length r = Z.min block_size (piece_len (metadata pm) (r_piece r) - Z.of_nat k * block_size))
    as [Erb Erl] by (split; [rewrite <- Eb|rewrite <- Ebl]; by rewrite Er).
  split_and!; [done|done|done|done|by rewrite El|]. unfold answer, block_bytes. by rewrite Erb, Erl, El.
Qed.

Lemma blocks_stored st k b begin d :
  ps_blocks (store_block st k b begin d) = <[k := set_state Received b]> (ps_blocks st).
Proof. unfold store_block. by case_ifs. Qed.

(** The entry of the piece once the answer to [r] is in, and the manager. *)
Definition answered_state pm (r : RequestedBlock) : PieceState :=
  receive (entry pm (r_piece r)) (r_begin r) (answer r).
Definition answered_pm pm (r : RequestedBlock) : PieceManager :=
  put_state pm (r_piece r) (answered_state pm r).

Lemma block_answered pm r :
  pm_wf pm → content_of (metadata pm) → assembling_ok pm → requested pm r →
  let st := answered_state pm r in
  block_received pm (r_piece r) (r_begin r) (answer r) =
    Ok (received (ps_blocks st) =? zlen (ps_blocks st), answered_pm pm r) ∧
  pm_wf (answered_pm pm r) ∧ (∃ ops, assembling (content (r_piece r)) (r_piece r) ops st) ∧
  (∀ r', requested (answered_pm pm r) r' ↔ requested pm r' ∧ rkey r' ≠ rkey r) ∧
  todo (answered_pm pm r) = todo pm - 1 ∧ pending_le pm (answered_pm pm r).
Proof.
  intros Hw Hc Ha Hr. destruct (requested_block pm r Hw Hc Hr) as (k & b & Hk & Hs & Er & Eb & Hlt & Ed).
  destruct Hr as [Hi _]. destruct (Ha _ Hi) as [[ops Hops] _]. destruct (Hc _ (proj1 Hi)) as [El _].
  pose proof (entry_wf pm _ Hw (proj1 (proj1 Hi))) as He. intros st.
  assert (ps_blocks st = <[k := set_state Received b]> (ps_blocks (entry pm (r_piece r)))) as Hst.
  { unfold st, answered_state, receive. rewrite (proj2 (find_begin _ _ _ _ k b He)) by done.
    rewrite bool_decide_eq_false_2 by congruence. apply blocks_stored. }
  assert (assembling (content (r_piece r)) (r_piece r)
            (ops ++ [BlockReceived (r_piece r) (Z.of_nat k * block_size)
                       (block_bytes (content (r_piece r)) (Z.of_nat k))]) st) as Has.
  { unfold st, answered_state. rewrite Ed, Eb.
    apply (assembling_receive _ (metadata pm)); try done. lia. }
  assert (0 ≤ r_begin r) as Hb0 by (rewrite Eb; unfold block_size; lia).
  assert (pm_wf (answered_pm pm r)) as Hw'.
  { apply put_state_wf; [done|apply Hi|]. by apply receive_wf. }
  split_and!; [|done|by eexists| | |].
  - rewrite block_received_eq by (done || apply Hi). cbv zeta. fold (answered_state pm r).
    by rewrite <- (proj1 Has).
  - intros r'. change (answered_pm pm r) with (put_state pm (r_piece r) st). rewrite (requested_put pm _ k b Received st), <- Er by done. split; [by intros [[? _]|?]|by right].
  - change (answered_pm pm r) with (put_state pm (r_piece r) st). by rewrite (todo_put pm _ k b Received st) by (done || congruence).
  - by apply (pending_le_put pm _ k b Received st).
Qed.

(** A block is missing still. *)
Lemma answered_unfinished pm r :
  assembling_ok pm → (∃ ops, assembling (content (r_piece r)) (r_piece r) ops (answered_state pm r)) →
  received (ps_blocks (answered_state pm r)) ≠ zlen (ps_blocks (answered_state pm r)) →
  assembling_ok (answered_pm pm r).
Proof.
  intros Ha Hops Hne j Hj. unfold answered_pm. rewrite entry_put. case_decide as E; [subst j|by apply Ha].
  split; [done|]. pose proof (received_range (ps_blocks (answered_state pm r))). lia.
Qed.

(** The piece is complete: its bytes are the right ones, nothing of it is asked for,
    and what is left of the others does not change when it is marked. *)
Lemma piece_complete_data pm i ops :
  pm_wf pm → content_of (metadata pm) → wanted pm i → is_Some (in_progress pm !! i) →
  assembling (content i) i ops (entry pm i) →
  received (ps_blocks (entry pm i)) = zlen (ps_blocks (entry pm i)) →
  get_piece_data pm i = content i ∧ validate_piece pm i = Ok true.
Proof.
  intros Hw Hc Hi [st Hst] Hops Hall. destruct (Hc i (proj1 Hi)) as [El Eh].
  pose proof (entry_wf pm i Hw (proj1 (proj1 Hi))) as He.
  pose proof (assembled _ _ _ _ _ He El Hops Hall) as Ed.
  unfold get_piece_data, validate_piece. rewrite (entry_same pm i st Hst) in Ed.
  rewrite Hst, Ed, Eh. split; [done|]. by rewrite bool_decide_eq_true_2.
Qed.

Lemma piece_complete_progress pm i :
  pm_wf pm → wanted pm i → received (ps_blocks (entry pm i)) = zlen (ps_blocks (entry pm i)) →
  (∀ j, j ≠ i → wanted pm j → (∃ ops, assembling (content j) j ops (entry pm j)) ∧
     received (ps_blocks (entry pm j)) < zlen (ps_blocks (entry pm j))) →
  let pm' := piece_completed pm i in
  (∀ r, requested pm r → r_piece r ≠ i) ∧ (∀ r, requested pm' r ↔ requested pm r) ∧
  assembling_ok pm' ∧ todo pm' = todo pm ∧ pending_le pm pm'.
Proof.
  intros Hw Hi Hall Ha pm'. pose proof Hi as [Hir Hh].
  assert (pm_wf pm') as Hw' by (apply set_bit_wf; [done|lia|apply delete_subseteq]).
  assert (∀ j, j ≠ i → entry pm' j = entry pm j ∧ has_piece pm' j = has_piece pm j) as Eo.
  { intros j Hj. split; [apply entry_delete|apply has_piece_set]; auto; lia. }
  assert (has_piece pm' i = true) as Ehi.
  { unfold has_piece. simpl. destruct Hw as (_ & Hb & Hn & _). rewrite has_set by (done || lia).
    by rewrite decide_True by lia. }
  assert (∀ r, requested pm r → r_piece r ≠ i) as Hno.
  { intros r (_ & k & b & Hk & Hs & _) E. rewrite E in Hk.
    pose proof (received_all _ _ _ Hall Hk). congruence. }
  split_and!; [done| | | |].
  - intros r. destruct (decide (r_piece r = i)) as [E|E].
    + split; [|intros Hr; by apply Hno in Hr]. intros ((_ & H) & _). rewrite E in H. congruence.
    + unfold requested, wanted. destruct (Eo _ E) as [-> ->]. done.
  - intros j [Hj Hhj]. destruct (decide (j = i)) as [->|E]; [congruence|].
    destruct (Eo j E) as [-> Ehj]. apply Ha; [done|]. split; [done|congruence].
  - unfold todo. change (metadata pm') with (metadata pm).
    rewrite (zsum_one (missing pm) (missing pm') _ i 0); [lia|done|].
    intros j. unfold missing. destruct (decide (i = j)) as [<-|E].
    + rewrite Ehi, Hh, Hall. lia.
    + destruct (Eo j) as [-> ->]; [done|]. lia.
  - intros j Hj. rewrite !no_pending by done.
    intros H Hhj. destruct (decide (j = i)) as [->|E]; [congruence|].
    destruct (Eo j E) as [-> Ehj]. apply H. congruence.
Qed.

(** ** The end *)

Lemma missing_range pm j : 0 ≤ missing pm j.
Proof. unfold missing. pose proof (received_range (ps_blocks (entry pm j))). case_ifs; lia. Qed.

Lemma missing_sum pm l : 0 ≤ zsum (missing pm <$> l).
Proof.
  induction l as [|j l IH]; [done|]. rewrite fmap_cons, zsum_cons. pose proof (missing_range pm j). lia.
Qed.

Lemma todo_nonneg pm : 0 ≤ todo pm.
Proof. apply missing_sum. Qed.

Lemma todo_zero pm :
  pm_wf pm → assembling_ok pm → todo pm = 0 ↔ complete_download pm (metadata pm).
Proof.
  intros Hw Ha. unfold todo, complete_download.
  assert (∀ j, wanted pm j → missing pm j ≠ 0) as Hm.
  { intros j Hj. unfold missing. rewrite (proj2 Hj). destruct (Ha j Hj) as [_ ?]. lia. }
  assert (∀ l, zsum (missing pm <$> l) = 0 ↔ ∀ j, j ∈ l → missing pm j = 0) as Hz.
  { induction l as [|j l IH]; [split; [intros _ j Hj; by apply not_elem_of_nil in Hj|done]|].
    rewrite fmap_cons, zsum_cons. pose proof (missing_range pm j). pose proof (missing_sum pm l).
    setoid_rewrite elem_of_cons. split.
    - intros E x [->|Hx]; [lia|]. apply IH; [lia|done].
    - intros E. rewrite (E j), (proj2 IH) by auto. done. }
  rewrite Hz. split.
  - intros E i Hi. destruct (has_piece pm i) eqn:Eh; [done|].
    destruct (Hm i); [by split|]. apply E, elem_of_seqZ. lia.
  - intros E j Hj%elem_of_seqZ. unfold missing. by rewrite E by lia.
Qed.

(** When no block is pending and none is asked for, all have come. *)
Lemma idle_complete pm :
  pm_wf pm → assembling_ok pm →
  (∀ i, 0 ≤ i < num_pieces (metadata pm) → has_pending_blocks pm i = false) →
  (∀ r, ¬ requested pm r) → complete_download pm (metadata pm).
Proof.
  intros Hw Ha Hp Hr i Hi. destruct (has_piece pm i) eqn:Eh; [done|]. exfalso.
  assert (wanted pm i) as Hwt by done. destruct (Ha i Hwt) as [_ Hlt].
  enough (received (ps_blocks (entry pm i)) = zlen (ps_blocks (entry pm i))) by lia.
  apply all_received. intros k b Hk. destruct (b_state b) eqn:Es; [| |done].
  - by destruct (proj1 (no_pending pm i Hw Hi) (Hp i Hi) Eh k b Hk).
  - destruct (Hr (req_of i b)). split; [done|]. by exists k, b.
Qed.
End Progress.
