(* ===== verification/Swarm.v ===== *)
(** * A download that cannot be disturbed

    The handlers, on worlds where the peers send the blocks they are asked for, with
    the bytes of the torrent, and the kernel fails no [send]. Each handler returns (no
    reference into [peers_] dangles, since no peer is lost), the blocks asked for are
    exactly those outstanding at a peer, and each block that comes is one less to
    come. *)

From S2P Require Import Prelude StdString Bencode Bitfield Hasher Torrent PieceManager.
From S2P Require Import PiecePicker PeerMessage EventLoop World PeerConnection Coordinator.
From S2P Require Import System Handlers Steps Termination Safe Progress.

Section Swarm.
Context `{C : CryptoSHA1} `{R : UniformRng} `{!UniformRngLaws R} {prm : Params} {MO : MapOrder}
  {m : TorrentMetadata} {PF : ParamsFor prm m}.
Variable content : Z → list byte.
Hypothesis content_ok : content_of content m.

Implicit Types (w : World).
Abbreviation Good := (Inv (m := m) nobody nothing).

(** A registered peer's connection: open, watched, and with its messages handled. *)
Definition open_link w (p : Z) : Prop :=
  ∃ c, conns w !! p = Some c ∧ c_state c = Active ∧ c_fd c ≠ -1 ∧ on_message c = true ∧
    fd_callbacks (fds w) !! c_fd c = Some p.

(** [r] is outstanding at some peer. *)
Definition asked (ps : gmap Z PeerState) (r : RequestedBlock) : Prop :=
  ∃ p st, ps !! p = Some st ∧ r ∈ outstanding st.

Record sound w : Prop := {
  sound_pm : pm_wf (pm w) ∧ metadata (pm w) = m;
  sound_links : ∀ p, is_Some (peers w !! p) → open_link w p;
  sound_willing : willing w;
  sound_pieces : assembling_ok content (pm w);
  sound_accounted : ∀ r, asked (peers w) r ↔ requested (pm w) r;
  sound_completed : ∀ i d, (i, d) ∈ completed w → d = content i;
}.

Definition healthy w : Prop := Good w ∧ sound w.

(** ** What sending leaves *)

Lemma asked_same ps ps' r : requests <$> ps' = requests <$> ps → asked ps r → asked ps' r.
Proof.
  intros E (p & st & Hst & Hr). pose proof (f_equal (lookup p) E) as Ep.
  rewrite !lookup_fmap, Hst in Ep. apply fmap_Some in Ep as (st' & Hst' & Er). exists p, st'.
  split; [done|]. apply requests_inv in Er as [_ <-]. done.
Qed.

Lemma calm_sound w w' : calm w w' → sound w → sound w'.
Proof.
  intros Hc [Hpm Hl Hw Ha Hr Hd]. pose proof Hc as [_ Ef Ep Epm Eco _ Hwi].
  constructor; rewrite ?Epm, ?Eco; auto.
  - intros p [st' Hst']. destruct (calm_peers_inv _ _ _ _ Hc Hst') as (st & Hst & _).
    destruct (Hl p) as (c & Hcp & Hs & Hfd & Hm & Hcb); [by eexists|].
    destruct (calm_conn _ _ _ _ Hc Hcp) as (c' & Hc' & El).
    apply link_inv in El as (_ & _ & E1 & E2 & _ & _ & _ & E3 & _).
    exists c'. rewrite Ef. split_and!; congruence.
  - intros r. rewrite <- Hr. split; apply asked_same; congruence.
Qed.

Lemma safe_send w p msg :
  sound w → is_Some (peers w !! p) → fixed_length msg →
  safe (send_message p msg) (λ _ w', calm w w' ∧ sound w') w.
Proof.
  intros Hs Hp Hf. destruct (sound_links w Hs p Hp) as (c & Hc & _ & Hfd & _).
  eapply safe_mono; [eapply safe_send_message; [done|done|apply Hs|done]|].
  intros u w' _ Hcalm. split; [done|by apply (calm_sound w)].
Qed.

(** A world with other requests, pieces and completed pieces. *)
Lemma sound_change w w' :
  sound w → conns w' = conns w → fds w' = fds w → sends w' = sends w →
  (∀ p, is_Some (peers w' !! p) → is_Some (peers w !! p)) →
  pm_wf (pm w') → metadata (pm w') = m → assembling_ok content (pm w') →
  (∀ r, asked (peers w') r ↔ requested (pm w') r) →
  (∀ i d, (i, d) ∈ completed w' → d = content i) → sound w'.
Proof.
  intros [_ Hl Hw _ _ _] Ec Ef Es Hdom ?????. constructor; auto.
  - intros p Hp. unfold open_link. rewrite Ec, Ef. by apply Hl, Hdom.
  - unfold willing. by rewrite Es.
Qed.

(** ** Moving on *)

(** What the handling of peer [q] may change, when it brings [n] blocks: requests of
    [q] only, and nothing becomes pending. *)
Record moves (q n : Z) w w' : Prop := {
  moves_others : ∀ p, p ≠ q → requests <$> (peers w' !! p) = requests <$> (peers w !! p);
  moves_mine : p_bitfield <$> (peers w' !! q) = p_bitfield <$> (peers w !! q);
  moves_metadata : metadata (pm w') = metadata (pm w);
  moves_pending : pending_le (pm w) (pm w');
  moves_todo : todo (pm w') = todo (pm w) - n;
}.

Definition same_links w w' : Prop := link <$> conns w' = link <$> conns w.

Lemma moves_trans q n k l w1 w2 w3 :
  moves q n w1 w2 → moves q k w2 w3 → l = n + k → moves q l w1 w3.
Proof.
  intros [H1 H2 H3 H4 H5] [K1 K2 K3 K4 K5] ->. constructor; [| | | |lia]; try congruence.
  - intros p Hp. by rewrite K1, H1.
  - intros i Hi H. apply K4; [by rewrite H3|]. by apply H4.
Qed.

Lemma calm_moves q w w' : calm w w' → moves q 0 w w' ∧ same_links w w'.
Proof.
  intros Hc. pose proof Hc as [Ec _ Ep Epm _ _ _]. split; [|done].
  assert (∀ p, requests <$> (peers w' !! p) = requests <$> (peers w !! p)) as Hp.
  { intros p. by rewrite <- !lookup_fmap, Ep. }
  constructor; rewrite ?Epm; [auto| |done|by intros ? ?|lia]. specialize (Hp q).
  destruct (peers w' !! q) as [st'|], (peers w !! q) as [st|]; try done. simpl in Hp |- *.
  apply (inj Some), requests_inv in Hp as [-> _]. done.
Qed.

(** The requests of [q] that stay outstanding. *)
Definition keeps_asked (q : Z) (P : RequestedBlock → Prop) w w' : Prop :=
  ∀ st r, peers w !! q = Some st → r ∈ outstanding st → P r →
    ∃ st', peers w' !! q = Some st' ∧ r ∈ outstanding st'.

Lemma calm_keeps_asked q P w w' : calm w w' → keeps_asked q P w w'.
Proof.
  intros Hc st r Hst Hr _. destruct (calm_peer _ _ _ _ Hc Hst) as (st' & ? & E).
  apply requests_inv in E as [_ E]. exists st'. by rewrite E.
Qed.

Lemma keeps_asked_trans q P w1 w2 w3 :
  keeps_asked q P w1 w2 → keeps_asked q P w2 w3 → keeps_asked q P w1 w3.
Proof. intros H K st r Hst Hr HP. destruct (H st r Hst Hr HP) as (st' & ? & ?). eauto. Qed.

(** ** The pipeline *)

(** The peer has no piece with a block to ask for; or its pipeline is full. *)
Definition dry w (p : Z) : Prop :=
  ∀ st i, peers w !! p = Some st → 0 ≤ i < num_pieces m → Bitfield.has (p_bitfield st) i = true →
    has_pending_blocks (pm w) i = false.

Definition topped w (p : Z) : Prop :=
  dry w p ∨ ∃ st, peers w !! p = Some st ∧ 5 ≤ zlen (outstanding st).

Lemma completed_or_full_has manager i :
  Bitfield.wf (bitfield manager) → num_bits (bitfield manager) = num_pieces_ → 0 ≤ i < num_pieces_ →
  Bitfield.has (completed_or_full manager) i = true → has_pending_blocks manager i = false.
Proof.
  intros Hw En Hi. unfold completed_or_full.
  enough (∀ l b, Bitfield.wf b → Forall (λ j, 0 ≤ j) l →
    (Bitfield.has b i = true → has_pending_blocks manager i = false) →
    Bitfield.has (foldl (λ b j, if has_pending_blocks manager j then b else Bitfield.set b j true) b l) i
      = true → has_pending_blocks manager i = false) as H.
  { apply H; [done| |].
    - apply Forall_forall. intros j Hj%elem_of_seqZ. lia.
    - intros Hh. unfold has_pending_blocks, has_piece. by rewrite Hh. }
  clear Hw En. induction l as [|j l IH]; intros b Hb Hl Hin; [done|]. cbn [foldl].
  apply Forall_cons in Hl as [Hj Hl]. destruct (has_pending_blocks manager j) eqn:Ej; [by apply IH|].
  apply IH; [by apply wf_set|done|]. rewrite has_set by done. case_decide as E; [|done].
  destruct E as [<- _]. done.
Qed.

Lemma safe_pick_active w p st :
  Good w → peers w !! p = Some st →
  safe (pick_active p st)
    (λ picked w', calm w w' ∧
       match picked with Some i => 0 ≤ i < num_pieces m | None => dry w p end) w.
Proof.
  intros Hi Hst. pose proof (state_ok _ _ _ _ _ Hi Hst) as (_ & _ & Hact).
  destruct num_pieces_range as [_ En]. unfold active_ok in Hact. rewrite En in Hact.
  unfold pick_active. destruct (active_piece st) as [i|] eqn:Ea; [by split; [|apply Hact]|].
  repeat safe_step. destruct Hi as (Hp & (Epk & (Hpw & _) & _) & _).
  destruct (pick_piece_returns (picker w) (p_bitfield st) (completed_or_full (pm w)) Hpw)
    as (picked & pk & E & Hpick).
  eapply safe_lift; [exact E|]. repeat safe_step.
  destruct picked as [i|].
  - repeat safe_step. destruct Hpick as [[Hir _]%elem_of_candidates _]. rewrite Epk, En in Hir. split; [|done].
    etrans; [|by apply (calm_put_peer _ p st)]. by constructor.
  - safe_step. split; [by constructor|]. intros st' i Hst' Hir Hh.
    rewrite Hst in Hst'. injection Hst' as <-. destruct Hp as ((_ & Hb & Hn & _) & Em & _).
    apply completed_or_full_has; [done|by rewrite Hn, Em|by rewrite En|].
    apply not_false_iff_true. intros Ho.
    enough (i ∈ []) as Hin by (by apply not_elem_of_nil in Hin).
    rewrite <- Hpick. apply elem_of_candidates. by rewrite Epk, En.
Qed.

Lemma asked_put ps p st st' r :
  ps !! p = Some st →
  asked (<[p := st']> ps) r ↔ r ∈ outstanding st' ∨ asked (delete p ps) r.
Proof.
  intros Hst. unfold asked. split.
  - intros (q & sq & [[<- <-]|[Hne Hq]]%lookup_insert_Some & Hr); [by left|]. right. exists q, sq.
    by rewrite lookup_delete_ne.
  - intros [Hr|(q & sq & [Hne Hq]%lookup_delete_Some & Hr)].
    + exists p, st'. by rewrite lookup_insert_eq.
    + exists q, sq. by rewrite lookup_insert_ne.
Qed.

Lemma asked_split ps p st r :
  ps !! p = Some st → asked ps r ↔ r ∈ outstanding st ∨ asked (delete p ps) r.
Proof. intros Hst. rewrite <- (asked_put ps p st st) by done. by rewrite insert_id. Qed.

Lemma put_registered (ps : gmap Z PeerState) p q st st' :
  ps !! p = Some st → is_Some (<[p := st']> ps !! q) → is_Some (ps !! q).
Proof. intros Hst. rewrite lookup_insert_is_Some. intros [<-|[_ ?]]; [by eexists|done]. Qed.

(** An update of an entry that leaves its requests. *)
Lemma put_sound w w' q st st' :
  sound w → peers w !! q = Some st → outstanding st' = outstanding st →
  peers w' = <[q := st']> (peers w) → conns w' = conns w → fds w' = fds w → sends w' = sends w →
  pm w' = pm w → completed w' = completed w → sound w'.
Proof.
  intros Hs Hst Eo Ep Ec Ef Es Epm Eco. pose proof Hs as [[? ?] _ _ ? Hacc ?].
  apply (sound_change w); try done; rewrite ?Ep, ?Epm, ?Eco; try done.
  - intros p. by apply put_registered with st.
  - intros r. by rewrite (asked_put _ q st), Eo, <- Hacc, (asked_split (peers w) q st).
Qed.

Lemma safe_express_interest w p b :
  sound w → is_Some (peers w !! p) →
  safe (express_interest p b) (λ _ w', calm w w' ∧ sound w') w.
Proof.
  intros Hs Hp. unfold express_interest. destruct (sound_links _ Hs p Hp) as (c & Hc & _).
  do 2 safe_step. apply safe_when; intros _; [|done]. by apply safe_send.
Qed.

(** An update of the entry of [q]. *)
Lemma put_moves q w st st' n manager :
  peers w !! q = Some st → p_bitfield st' = p_bitfield st → metadata manager = metadata (pm w) →
  pending_le (pm w) manager → todo manager = todo (pm w) - n →
  moves q n w (set_peers <[q := st']> (set_pm manager w)).
Proof.
  intros Hst Eb Em Hp Ht. constructor; simpl; try done.
  - intros p Hne. by rewrite lookup_insert_ne.
  - rewrite lookup_insert_eq, Hst. simpl. by rewrite Eb.
Qed.

Lemma safe_request_block w p st st1 i :
  sound w → peers w !! p = Some st1 → p_bitfield st = p_bitfield st1 →
  outstanding st = outstanding st1 → 0 ≤ i < num_pieces m →
  safe (request_block p st i)
    (λ _ w', sound w' ∧ moves p 0 w w' ∧ same_links w w' ∧ keeps_asked p (λ _, True) w w') w.
Proof.
  intros Hs Hst Eb Eo Hi. pose proof Hs as [[Hw Em] _ _ Ha Hacc Hd]. unfold request_block.
  rewrite <- Em in Hi. destruct (get_next_block_wf (pm w) i Hw (proj1 Hi)) as (r & manager & E & Hw').
  destruct (get_next_block_frame _ _ _ _ Hw (proj1 Hi) E) as (_ & Em' & _).
  do 3 safe_step. eapply safe_lift; [exact E|]. repeat safe_step. destruct r as [b|].
  - assert (wanted (pm w) i) as Hwt.
    { split; [done|]. destruct (has_piece (pm w) i) eqn:Eh; [|done].
      unfold get_next_block in E. by rewrite Eh in E. }
    destruct (next_block_progress content _ _ _ _ Hw Hwt Ha E) as (Er & Hr & Ha' & Ht & Hpl).
    rewrite <- Er. repeat safe_step. set (w1 := set_peers _ _).
    assert (sound w1) as Hs1.
    { apply (sound_change w); simpl; auto; [|congruence|].
      - intros q. by apply put_registered with st1.
      - intros r. rewrite (asked_put _ p st1), Hr, <- Hacc, (asked_split (peers w) p st1) by done.
        cbn [outstanding]. rewrite Eo, elem_of_app, list_elem_of_singleton. naive_solver. }
    assert (moves p 0 w w1) as Hm1 by (by apply (put_moves _ _ st1); [..|lia]).
    assert (keeps_asked p (λ _, True) w w1) as Hk1.
    { intros s r Hsp Hin _. rewrite Hst in Hsp. injection Hsp as <-.
      eexists. split; [apply lookup_insert_eq|]. cbn [outstanding]. rewrite Eo. by apply elem_of_app; left. }
    eapply safe_mono; [apply safe_send; [done|simpl; rewrite lookup_insert_eq; by eexists|done]|].
    intros u w2 _ [Hc2 Hs2]. destruct (calm_moves p _ _ Hc2) as [Hm2 Hl2].
    split_and!; [done|by eapply moves_trans|done|].
    by eapply keeps_asked_trans, calm_keeps_asked.
  - destruct (no_block_progress content _ _ _ Hw Hi Ha E) as (Hr & Ha' & Ht & Hpl).
    repeat safe_step. set (w1 := set_peers _ _). split_and!.
    + apply (sound_change w); simpl; auto; [|congruence|].
      * intros q. by apply put_registered with st1.
      * intros r. rewrite (asked_put _ p st1), Hr, <- Hacc, (asked_split (peers w) p st1) by done.
        simpl. by rewrite Eo.
    + by apply (put_moves _ _ st1); [..|lia].
    + done.
    + intros s r Hsp Hin _. rewrite Hst in Hsp. injection Hsp as <-.
      eexists. split; [apply lookup_insert_eq|]. simpl. by rewrite Eo.
Qed.

(** A step of [q]'s that brings [n] blocks, keeps the requests in [P], and leaves the
    links alone. *)
Definition advances (q n : Z) (P : RequestedBlock → Prop) w w' : Prop :=
  sound w' ∧ moves q n w w' ∧ same_links w w' ∧ keeps_asked q P w w'.

Lemma calm_advances q P w w' : sound w → calm w w' → advances q 0 P w w'.
Proof.
  intros Hs Hc. destruct (calm_moves q _ _ Hc). split_and!; [by eapply calm_sound|done..|].
  by apply calm_keeps_asked.
Qed.

Lemma advances_trans q n k l P w1 w2 w3 :
  advances q n P w1 w2 → advances q k P w2 w3 → l = n + k → advances q l P w1 w3.
Proof.
  intros (_ & H1 & H2 & H3) (Hs & K1 & K2 & K3) ->. split_and!; [done|by eapply moves_trans| |].
  - unfold same_links in *. congruence.
  - by eapply keeps_asked_trans.
Qed.

Lemma dry_moves q n w w' : moves q n w w' → metadata (pm w) = m → dry w q → dry w' q.
Proof.
  intros [_ Hb _ Hp _] Em Hd st' i Hst' Hi Hh. rewrite Hst' in Hb. simpl in Hb.
  symmetry in Hb. apply fmap_Some in Hb as (st & Hst & Eb).
  apply Hp; [by rewrite Em|]. apply (Hd st); [done|done|by rewrite <- Eb].
Qed.

Abbreviation any := (λ _ : RequestedBlock, True).

Lemma safe_fill_round w p st :
  healthy w → peers w !! p = Some st → zlen (outstanding st) < 5 →
  safe (fill_round p) (λ b w', Good w' ∧ advances p 0 any w w' ∧ (b = false → dry w' p)) w.
Proof.
  intros Hh Hst Hlen. pose proof Hh as [Hi Hs].
  eapply (safe_mono _ (λ b w', advances p 0 any w w' ∧ (b = false → dry w' p))).
  2:{ intros b w' H [Ha Hd]. split; [|done]. by eapply (fill_round_inv nobody w w' b p st). }
  unfold fill_round. do 2 safe_step. safe_step. eapply safe_mono; [by apply safe_pick_active|].
  intros picked w1 _ [Hc1 Hp1]. pose proof (calm_advances p any _ _ Hs Hc1) as Ha1. destruct picked as [i|].
  - destruct (calm_peer _ _ _ _ Hc1 Hst) as (st1 & Hst1 & [Eb Eo]%requests_inv).
    safe_step. eapply safe_mono; [by apply (safe_request_block w1 p st st1); [apply Ha1|..]|].
    intros u w2 _ Ha2. safe_step. split; [|done]. by apply (advances_trans p 0 0 _ _ _ w1).
  - safe_step. split; [done|]. intros _. eapply (dry_moves p 0 w); [apply Ha1|apply Hs|done].
Qed.

Lemma safe_fill_loop f w p :
  healthy w → is_Some (peers w !! p) →
  safe (fill_loop f p) (λ _ w', Good w' ∧ advances p 0 any w w' ∧ topped w' p) w.
Proof.
  revert w. induction f as [|f IH]; intros w Hh [st Hst]; [done|]. cbn [fill_loop].
  pose proof Hh as [Hi Hs]. assert (advances p 0 any w w) as H0 by (by apply calm_advances).
  do 2 safe_step. destruct (Z.leb_spec 5 (zlen (outstanding st))).
  { safe_step. split; [done|]. split; [done|]. right. by exists st. }
  safe_step. eapply safe_mono; [by eapply safe_fill_round|]. intros b w1 _ (Hi1 & Ha1 & Hd1).
  destruct b; [|safe_step; split; [done|split; [done|left; by apply Hd1]]].
  pose proof Ha1 as (Hs1 & Hm1 & _). eapply safe_mono; [apply IH; [done|]|].
  - apply moves_mine in Hm1. rewrite Hst in Hm1. apply fmap_Some in Hm1 as (st1 & ? & _). by eexists.
  - intros u w2 _ (Hi2 & Ha2 & Ht2). split; [done|]. split; [by apply (advances_trans p 0 0 _ _ _ w1)|done].
Qed.

Lemma safe_top_off w p c :
  healthy w → is_Some (peers w !! p) → conns w !! p = Some c →
  safe (top_off p) (λ _ w', Good w' ∧ advances p 0 any w w' ∧
    (peer_choking c = false → topped w' p)) w.
Proof.
  intros Hh Hst Hc. pose proof Hh as [Hi Hs].
  assert (advances p 0 any w w) as H0 by (by apply calm_advances).
  unfold top_off. do 2 safe_step. apply safe_when; intros E; [|by rewrite negb_false_iff in E; rewrite E].
  apply negb_true_iff in E. unfold fill_request_pipeline. do 2 safe_step. rewrite E.
  do 2 safe_step. destruct (peers w !! p) as [st|] eqn:Hp; [|by destruct Hst].
  eapply safe_mono; [apply safe_fill_loop; [done|by eexists]|]. by intros u w' _ (? & ? & ?).
Qed.

(** ** A piece completed *)

Lemma order_registered (ps : gmap Z PeerState) p : p ∈ order ps → is_Some (ps !! p).
Proof.
  rewrite order_keys. intros ([q st] & -> & Hin)%list_elem_of_fmap. apply elem_of_map_to_list in Hin.
  by eexists.
Qed.

Lemma calm_registered w w' p : calm w w' → is_Some (peers w !! p) → is_Some (peers w' !! p).
Proof. intros Hc [st Hst]. destruct (calm_peer _ _ _ _ Hc Hst) as (st' & ? & _). by eexists. Qed.

(** A loop over [peers_] whose body does not show. *)
Lemma safe_calm_loop w body :
  sound w →
  (∀ w' p, calm w w' → sound w' → is_Some (peers w' !! p) → safe (body p) (λ _, calm w') w') →
  safe (for_peers (order (peers w)) body) (λ _, calm w) w.
Proof.
  intros Hs Hb. apply safe_for_peers; [done|..].
  - intros w' p Hc Hp%order_registered. by eapply calm_registered.
  - intros w' p Hc Hp%order_registered.
    eapply safe_mono; [apply Hb; [done|by eapply calm_sound|by eapply calm_registered]|].
    intros u w2 _ Hc2. by transitivity w'.
Qed.

Lemma cancel_requests_nothing i p kept rest w :
  Forall (λ r, r_piece r ≠ i) rest → cancel_requests i p kept rest w = Ok (tt, w).
Proof.
  intros H. revert kept. induction H as [|r rest Hr _ IH]; intros kept; cbn [cancel_requests]; [done|].
  by rewrite (proj2 (Z.eqb_neq _ _)).
Qed.

Lemma safe_reset_active w p i :
  is_Some (peers w !! p) → safe (reset_active_piece p i) (λ _, calm w) w.
Proof.
  intros [st Hst]. unfold reset_active_piece. do 2 safe_step. apply safe_when; [|done]. intros _.
  safe_step. by apply (calm_put_peer _ _ st).
Qed.

Lemma safe_cancel_piece w i :
  sound w → (∀ r, asked (peers w) r → r_piece r ≠ i) →
  safe (cancel_piece_requests i) (λ _, calm w) w.
Proof.
  intros Hs Hno. unfold cancel_piece_requests. do 2 safe_step. apply safe_calm_loop; [done|].
  intros w' p Hc Hs' [st Hst]. destruct (calm_peers_inv _ _ _ _ Hc Hst) as (st0 & Hst0 & [_ Eo]%requests_inv).
  do 3 safe_step. unfold safe at 1. rewrite cancel_requests_nothing.
  2:{ apply Forall_forall. intros r Hr. apply Hno. exists p, st0. by rewrite <- Eo. }
  apply (safe_reset_active w' p i). by eexists.
Qed.

Lemma safe_broadcast w i : sound w → safe (broadcast_have i) (λ _, calm w) w.
Proof.
  intros Hs. unfold broadcast_have. do 2 safe_step. apply safe_calm_loop; [done|].
  intros w' p _ Hs' Hp. eapply safe_mono; [by apply safe_send|]. by intros u w2 _ [? _].
Qed.

Lemma safe_piece_received w q i d :
  let w2 := set_pm (piece_completed (pm w) i) (set_completed (λ l, l ++ [(i, d)]) w) in
  validate_piece (pm w) i = Ok true → get_piece_data (pm w) i = d → sound w2 →
  is_Some (peers w !! q) → (∀ r, asked (peers w) r → r_piece r ≠ i) →
  safe (piece_received q i) (λ _, calm w2) w.
Proof.
  intros w2 Hv Hd Hs2 Hq Hno. unfold piece_received. do 3 safe_step. eapply safe_lift; [exact Hv|].
  do 5 safe_step. rewrite Hd. fold w2. safe_step.
  eapply safe_mono; [by apply safe_cancel_piece|]. intros u w3 _ Hc3.
  eapply safe_mono; [apply safe_broadcast; by apply (calm_sound w2)|]. intros u' w4 _ Hc4.
  assert (calm w2 w4) as Hc by (by transitivity w3).
  eapply safe_mono; [apply safe_reset_active; by apply (calm_registered w2)|].
  intros u'' w5 _ Hc5. by transitivity w4.
Qed.

(** ** A block that was asked for *)

Lemma NoDup_key_inj (l : list RequestedBlock) r r' :
  NoDup (rkey <$> l) → r ∈ l → r' ∈ l → rkey r = rkey r' → r = r'.
Proof.
  intros Hnd [i Hi]%list_elem_of_lookup [j Hj]%list_elem_of_lookup E.
  assert (i = j) as ->; [|congruence].
  eapply NoDup_lookup; [exact Hnd|by rewrite list_lookup_fmap, Hi|]. by rewrite list_lookup_fmap, Hj, E.
Qed.

Lemma elem_of_erase_request r r' (reqs : list RequestedBlock) :
  NoDup (rkey <$> reqs) → r ∈ reqs →
  r' ∈ erase_request (r_piece r) (r_begin r) reqs ↔ r' ∈ reqs ∧ rkey r' ≠ rkey r.
Proof.
  induction reqs as [|x reqs IH]; intros Hnd Hr; [by apply not_elem_of_nil in Hr|].
  rewrite fmap_cons in Hnd. apply NoDup_cons in Hnd as [Hx Hnd].
  assert (∀ y, y ∈ reqs → rkey y ≠ rkey x) as Hne.
  { intros y Hy E. apply Hx. rewrite <- E. by apply list_elem_of_fmap_2. }
  cbn [erase_request]. destruct (_ && _) eqn:E.
  - apply andb_true_iff in E as [Ep%Z.eqb_eq Eb%Z.eqb_eq].
    assert (rkey r = rkey x) as Ek by (unfold rkey; congruence). rewrite Ek, elem_of_cons.
    split; [intros Hy; split; [by right|by apply Hne]|]. intros [[->|?] ?]; done.
  - assert (rkey x ≠ rkey r) as Ek.
    { unfold rkey. intros [= Ep Eb]. by rewrite Ep, Eb, !Z.eqb_refl in E. }
    apply elem_of_cons in Hr as [->|Hr]; [done|]. rewrite !elem_of_cons, IH by done.
    split; [intros [->|[? ?]]; auto|intros [[->|?] ?]; auto].
Qed.

(** The world once the answer to [r] is noted, and what [accounted] says of it. *)
Definition noted (q : Z) (st : PeerState) (r : RequestedBlock) w : World :=
  set_pm (answered_pm content (pm w) r)
    (set_peers <[q := with_outstanding (erase_request (r_piece r) (r_begin r) (outstanding st)) st]> w).

Lemma noted_accounted w q st r :
  healthy w → peers w !! q = Some st → r ∈ outstanding st →
  (∀ r', requested (answered_pm content (pm w) r) r' ↔ requested (pm w) r' ∧ rkey r' ≠ rkey r) →
  ∀ r', asked (peers (noted q st r w)) r' ↔ requested (pm (noted q st r w)) r'.
Proof.
  intros [(_ & _ & _ & (H5 & Hex & _)) Hs] Hst Hr Hreq r'. cbn [noted pm set_pm]. rewrite Hreq.
  cbn [peers set_peers set_pm noted]. rewrite (asked_put _ q st), <- (sound_accounted _ Hs) by done.
  rewrite (asked_split (peers w) q st) by done. cbn [outstanding with_outstanding].
  rewrite elem_of_erase_request by (done || by apply (H5 q)).
  assert (asked (delete q (peers w)) r' → rkey r' ≠ rkey r) as Hother.
  { intros (p & sp & [Hne Hp]%lookup_delete_Some & Hin). by apply (Hex p q sp st). }
  tauto.
Qed.

Lemma noted_keeps w q st r :
  healthy w → peers w !! q = Some st → r ∈ outstanding st →
  keeps_asked q (λ r', r' ≠ r) w (noted q st r w).
Proof.
  intros [(_ & _ & _ & (H5 & _)) _] Hst Hr s r' Hs Hr' Hne. rewrite Hst in Hs. injection Hs as <-.
  eexists. split; [apply lookup_insert_eq|]. cbn [outstanding with_outstanding].
  destruct (H5 q st Hst) as [_ Hnd]. apply elem_of_erase_request; [done..|]. split; [done|].
  intros E. by apply Hne, (NoDup_key_inj (outstanding st)).
Qed.

Lemma keeps_weaken q (P P' : RequestedBlock → Prop) w w' :
  (∀ r, P' r → P r) → keeps_asked q P w w' → keeps_asked q P' w w'.
Proof. intros HP H st r Hst Hr Hr'. by apply (H st r Hst Hr), HP. Qed.

Lemma safe_receive_block w q st r :
  healthy w → peers w !! q = Some st → r ∈ outstanding st →
  safe (receive_block q st (r_piece r) (r_begin r) (answer content r))
    (λ _ w', advances q 1 (λ r', r' ≠ r) w w') w.
Proof.
  intros Hh Hst Hr. pose proof Hh as [_ Hs]. pose proof Hs as [[Hw Em] _ _ Ha Hacc Hd].
  assert (content_of content (metadata (pm w))) as Hc by (by rewrite Em).
  assert (requested (pm w) r) as Hreq by (apply Hacc; by exists q, st).
  destruct (block_answered content _ _ Hw Hc Ha Hreq) as (E & Hw' & Hops & Hr' & Ht & Hpl).
  set (w1 := noted q st r w). set (sr := answered_state content (pm w) r) in *.
  pose proof (noted_accounted w q st r Hh Hst Hr Hr') as Hacc1. fold w1 in Hacc1.
  assert (moves q 1 w w1) as Hm1 by (by apply (put_moves _ _ st)).
  pose proof (noted_keeps w q st r Hh Hst Hr) as Hk1. fold w1 in Hk1.
  assert (∀ p, is_Some (peers w1 !! p) → is_Some (peers w !! p)) as Hdom.
  { intros p. by apply put_registered with st. }
  unfold receive_block. repeat safe_step. eapply safe_lift; [exact E|]. repeat safe_step.
  change (set_pm (answered_pm content (pm w) r) _) with w1. apply safe_when.
  - intros Hall%Z.eqb_eq. pose proof (proj1 Hreq) as Hwt. destruct Hops as [ops Hops].
    assert (entry (pm w1) (r_piece r) = sr) as Ee by (cbn [noted w1 pm set_pm]; unfold answered_pm; rewrite entry_put; by rewrite decide_True).
    destruct (piece_complete_data content (pm w1) (r_piece r) ops) as [Ed Ev];
      rewrite ?Ee; try done; [simpl; rewrite lookup_insert_eq; by eexists|].
    destruct (piece_complete_progress content (pm w1) (r_piece r)) as (Hno & Hr2 & Ha2 & Ht2 & Hpl2);
      rewrite ?Ee; try done.
    { intros j Hj Hwj. cbn [noted w1 pm set_pm]. unfold answered_pm. rewrite entry_put, decide_False by done.
      by apply Ha. }
    set (w2 := set_pm (piece_completed (pm w1) (r_piece r)) (set_completed (λ l, l ++ [(r_piece r, content (r_piece r))]) w1)).
    assert (sound w2) as Hs2.
    { apply (sound_change w); try done.
      - apply set_bit_wf; [done|apply Hwt|apply delete_subseteq].
      - intros r'. cbn [w2 peers pm set_pm set_completed]. by rewrite Hacc1, Hr2.
      - intros i d. cbn [w2 completed set_pm set_completed w1 noted set_peers].
        rewrite elem_of_app, list_elem_of_singleton. intros [?|[= -> ->]]; [by apply Hd|done]. }
    assert (advances q 1 (λ r', r' ≠ r) w w2) as Ha12.
    { split_and!; [done| |done|exact Hk1]. destruct Hm1. constructor; try done.
      - intros i Hi Hp. by apply Hpl2, Hpl.
      - cbn [w2 pm set_pm]. by rewrite Ht2. }
    eapply safe_mono; [apply (safe_piece_received w1 q _ (content (r_piece r))); try done|].
    + simpl. rewrite lookup_insert_eq. by eexists.
    + intros r' Ha'. by apply Hno, Hacc1.
    + intros u w3 _ Hc3. eapply (advances_trans q 1 0); [done| |done]. by apply calm_advances.
  - intros Hne%Z.eqb_neq. split_and!; try done. apply (sound_change w); try done.
    by apply answered_unfinished.
Qed.

Lemma safe_handle_piece w q st c r :
  healthy w → peers w !! q = Some st → conns w !! q = Some c → r ∈ outstanding st →
  safe (handle_piece q st (r_piece r) (r_begin r) (answer content r))
    (λ _ w', Good w' ∧ advances q 1 (λ r', r' ≠ r) w w' ∧ (peer_choking c = false → topped w' q)) w.
Proof.
  intros Hh Hst Hc Hr. pose proof Hh as [Hi Hs].
  assert (requested (pm w) r) as Hreq by (apply Hs; by exists q, st).
  destruct Hs as [[Hw Em] _ _ _ _ _]. pose proof (proj1 Hreq) as [Hir _].
  assert (0 ≤ r_begin r) as Hb.
  { destruct (requested_block content (pm w) r) as (k & b & _ & _ & _ & -> & _); [done|by rewrite Em|done|].
    unfold block_size. lia. }
  unfold handle_piece. safe_step. eapply safe_mono; [by apply safe_receive_block|].
  intros u w1 H1 Ha1. apply (receive_block_inv _ _ _ _ _ _ _ _ Hi Hst (proj1 Hir) Hb) in H1 as Hi1.
  pose proof Ha1 as (Hs1 & Hm1 & Hl1 & _).
  assert (is_Some (peers w1 !! q)) as Hq1.
  { apply moves_mine in Hm1. rewrite Hst in Hm1. apply fmap_Some in Hm1 as (st1 & ? & _). by eexists. }
  assert (∃ c1, conns w1 !! q = Some c1 ∧ link c1 = link c) as (c1 & Hc1 & El).
  { pose proof (f_equal (lookup q) Hl1) as E. rewrite !lookup_fmap, Hc in E.
    apply fmap_Some in E as (c1 & ? & ?). by exists c1. }
  eapply safe_mono; [by apply safe_top_off|]. intros u2 w2 _ (Hi2 & Ha2 & Ht2). split; [done|].
  destruct Ha2 as (? & ? & ? & Hk2). split.
  - apply (advances_trans q 1 0 _ _ w w1); [exact Ha1| |done]. split_and!; try done.
    by apply (keeps_weaken q any).
  - apply link_inv in El as (_ & _ & _ & _ & <- & _). done.
Qed.
End Swarm.
