(* ===== verification/Failures.v ===== *)
(** * What becomes of failures

    Disconnecting a peer, and the uses of an entry of [peers_] that a disconnection
    erased: they follow a failed send while requests or announcements go out, and a
    piece whose hash does not match. *)

From S2P Require Import Prelude StdString Bencode Bitfield Hasher Torrent PieceManager.
From S2P Require Import PiecePicker PeerMessage EventLoop World PeerConnection Coordinator.
From S2P Require Import System Handlers Steps Progress.

Section Failures.
Context `{C : CryptoSHA1} `{R : UniformRng} {prm : Params} {MO : MapOrder} {m : TorrentMetadata}
  {PF : ParamsFor prm m}.

Implicit Types (w : World).
Abbreviation Inv := (Inv (m := m)).
Abbreviation Good := (Inv nobody nothing).

Lemma bindM_run {A B} (x : M A) (f : A → M B) w a w1 : x w = Ok (a, w1) → (x ≫= f) w = f a w1.
Proof. unfold mbind, M_bind. by intros ->. Qed.

Lemma bindM_ub {A B} (x : M A) (f : A → M B) w s : x w = UB s → (x ≫= f) w = UB s.
Proof. unfold mbind, M_bind. by intros ->. Qed.

Lemma conn_run p w c : conns w !! p = Some c → conn p w = Ok (c, w).
Proof. unfold conn. by intros ->. Qed.

Lemma peer_state_run p w st : peers w !! p = Some st → peer_state p w = Ok (st, w).
Proof. unfold peer_state. by intros ->. Qed.

(** ** Disconnecting a registered peer *)

Lemma for_each_failed_run l w :
  for_each l request_failed w = Ok (tt, set_pm (give_back (pm w) l) w).
Proof.
  revert w. induction l as [|r l IH]; intros w; cbn [for_each]; [by destruct w|].
  unfold request_failed at 1, modify. rewrite (bindM_run _ _ _ tt _ eq_refl).
  exact (IH (set_pm (block_request_failed (pm w) (r_piece r) (r_begin r)) w)).
Qed.

(** A world without the entry of [p], whose blocks are given back. *)
Definition without (p : Z) (st : PeerState) w : World :=
  set_peers (delete p) (set_pm (give_back (pm w) (outstanding st))
    (set_picker (remove_peer_bitfield (picker w) (p_bitfield st)) w)).

Lemma unregister_run w p st :
  peers w !! p = Some st → unregister_peer p w = Ok (tt, without p st w).
Proof.
  intros Hst. unfold unregister_peer, gets, modify. rewrite (bindM_run _ _ _ _ _ eq_refl), Hst.
  rewrite (bindM_run _ _ _ _ _ eq_refl).
  by erewrite bindM_run by apply for_each_failed_run.
Qed.

(** A connection closed: its descriptor is given back. *)
Definition closed (w : World) (p : Z) (c : Conn) : World :=
  set_fds (λ l, if negb (c_fd c =? -1) then unregister_fd (c_fd c) l else l)
    (set_conns (alter (λ c, with_tx [] (with_rx [] (with_fd (-1) (with_state Disconnected c)))) p) w).

Lemma disconnect_run w p c :
  conns w !! p = Some c → c_state c ≠ Disconnected →
  ∃ w', disconnect p w = call_on_disconnect p w' ∧ w' = closed w p c.
Proof.
  intros Hc Hst. eexists. split; [|done]. unfold disconnect.
  rewrite (bindM_run _ _ _ _ _ (conn_run _ _ _ Hc)), bool_decide_eq_false_2 by done.
  unfold upd_conn, modify, closed. rewrite (bindM_run _ _ _ _ _ eq_refl).
  destruct (Z.eqb_spec (c_fd c) (-1)) as [E|E]; simpl when.
  - do 3 rewrite (bindM_run _ _ _ _ _ eq_refl). f_equal. unfold set_conns, set_fds. simpl. f_equal.
    rewrite !alter_twice. apply alter_ext. intros c' Hc'. rewrite Hc in Hc'. injection Hc' as <-.
    unfold with_fd, with_state, with_rx, with_tx. simpl. by rewrite E.
  - rewrite (bindM_run _ _ _ tt _ eq_refl).
    do 2 rewrite (bindM_run _ _ _ _ _ eq_refl). f_equal. unfold set_conns, set_fds. simpl. f_equal.
    by rewrite !alter_twice.
Qed.

(** The connection of a registered peer. *)
Lemma registered_conn S w p st :
  Inv nobody S w → peers w !! p = Some st →
  ∃ c, conns w !! p = Some c ∧ on_disconnect c = Some CoordinatorCb ∧ c_state c = Active ∧
    active_peers w !! key_of c = Some p.
Proof.
  intros (_ & _ & (_ & Hr & _) & _) Hst. destruct (Hr p) as (c & ? & ? & ? & [[]|?]).
  - by eapply elem_of_dom_2.
  - by exists c.
Qed.

Lemma disconnect_registered w p c st :
  conns w !! p = Some c → c_state c = Active → on_disconnect c = Some CoordinatorCb →
  peers w !! p = Some st → disconnect p w = Ok (tt, without p st (closed w p c)).
Proof.
  intros Hc Hact Hcb Hst. destruct (disconnect_run w p c Hc) as (w' & -> & ->); [congruence|].
  unfold call_on_disconnect. erewrite bindM_run; [|apply conn_run; simpl; by rewrite lookup_alter_eq, Hc].
  simpl. rewrite Hcb. by apply unregister_run.
Qed.

(** ** Hashes that do not match *)

(** The peer is blacklisted and disconnected, and so its entry erased. *)
Lemma on_peer_corrupted_run S w p st :
  Inv nobody S w → peers w !! p = Some st →
  ∃ w', on_peer_corrupted p w = Ok (tt, w') ∧ peers w' = delete p (peers w).
Proof.
  intros Hi Hst. destruct (registered_conn _ _ _ _ Hi Hst) as (c & Hc & Hcb & Hact & Hk).
  set (wb := set_blacklist (λ b, {[make_peer_key (c_ip c) (c_port c)]} ∪ b) w).
  pose proof (disconnect_registered wb p c st Hc Hact Hcb Hst) as E.
  eexists. split; [|shelve]. unfold on_peer_corrupted.
  rewrite (bindM_run _ _ _ _ _ (conn_run _ _ _ Hc)). unfold blacklist_peer, modify, gets.
  do 2 rewrite (bindM_run _ _ _ _ _ eq_refl). fold wb.
  change (active_peers wb !! _) with (active_peers w !! key_of c). rewrite Hk. exact E.
  Unshelve. done.
Qed.

Lemma piece_received_corrupted w p st i :
  Inv nobody nothing w → peers w !! p = Some st → validate_piece (pm w) i = Ok false →
  piece_received p i w = UB "reference to an erased element of peers_".
Proof.
  intros (Hp & Ha & Hn & Hr) Hst Hv. unfold piece_received, gets, modify.
  rewrite (bindM_run _ _ _ _ _ eq_refl).
  erewrite bindM_run; [|unfold lift; by rewrite Hv]. cbv iota.
  assert (Inv nobody (λ _ _, True) (set_pm (piece_failed (pm w) i) w)) as Hi.
  { split; [|split; [|split]]; try done; simpl; [by apply pieces_failed|].
    destruct Hr as (H5 & Hd & _). split_and!; try done. by left. }
  destruct (on_peer_corrupted_run _ _ p st Hi Hst) as (w' & E & Ep).
  erewrite bindM_run; [|rewrite (bindM_run _ _ _ _ _ eq_refl); exact E].
  unfold reset_active_piece. erewrite bindM_ub; [done|].
  unfold peer_state. by rewrite Ep, lookup_delete_eq.
Qed.

(** The last block of a piece that fails its check. *)
Lemma piece_message_corrupted w p st i begin block manager :
  Good w → peers w !! p = Some st → 0 ≤ i → 0 ≤ begin →
  block_received (pm w) i begin block = Ok (true, manager) →
  validate_piece manager i = Ok false →
  handle_peer_message p (PieceMsg i begin block) w =
    UB "reference to an erased element of peers_".
Proof.
  intros Hinv Hst Hi Hb Hrec Hval.
  unfold handle_peer_message, gets. rewrite (bindM_run _ _ _ _ _ eq_refl), Hst. unfold handle_piece.
  apply bindM_ub. unfold receive_block.
  set (st' := with_outstanding _ st). set (w1 := set_peers <[p := st']> w).
  rewrite (bindM_run _ _ _ tt w1 eq_refl). unfold gets. rewrite (bindM_run _ _ _ _ _ eq_refl).
  erewrite bindM_run; [|unfold lift; change (pm w1) with (pm w); by rewrite Hrec]. cbv iota beta.
  rewrite (bindM_run _ _ _ _ _ eq_refl). simpl when.
  destruct (put_fewer_inv nobody nothing nothing w w1 tt p st st' Hinv Hst) as [Hi1 _]; try done.
  { apply (state_ok _ _ _ _ _ Hinv Hst). } { apply erase_request_sublist. }
  destruct Hi1 as (Hp & Ha & Hn & Hr).
  destruct (block_received_frame _ i begin block true manager ltac:(apply Hp) Hi Hb Hrec)
    as (Hwm & Emm & Ebm).
  apply (piece_received_corrupted _ _ st'); simpl; [|apply lookup_insert_eq|done].
  split; [|split; [|split]]; simpl; try done; [by eapply pieces_same|].
  eapply requests_manager; [done|].
  intros r. eapply (live_received _ i begin block true); [apply Hp|done|done].
Qed.

(** ** Sends that fail *)

Definition send_fails (w : World) (c : Conn) : Prop :=
  c_fd c = -1 ∨ ∃ s, sends w = SendFails :: s.

(** What a registered peer is sent is lost with the peer. *)
Lemma send_message_fails S w p st c msg :
  Inv nobody S w → peers w !! p = Some st → conns w !! p = Some c → send_fails w c →
  fixed_length msg → ∃ w', send_message p msg w = Ok (tt, w') ∧ peers w' = delete p (peers w).
Proof.
  intros Hi Hst Hc Hf Hb%serialize_fixed. pose proof (wire_nonempty msg) as Hne.
  set (bytes := wire msg) in *. destruct (registered_conn _ _ _ _ Hi Hst) as (c' & Hc' & Hcb & Hact & _).
  rewrite Hc in Hc'. injection Hc' as <-.
  unfold send_message. rewrite (bindM_run _ _ _ _ _ (conn_run _ _ _ Hc)).
  rewrite bool_decide_eq_false_2 by congruence. unfold upd_conn at 1, modify.
  rewrite (bindM_run _ _ _ _ _ eq_refl).
  erewrite bindM_run; [|unfold lift; by rewrite Hb]. unfold upd_conn, modify.
  rewrite (bindM_run _ _ _ _ _ eq_refl), bool_decide_eq_true_2 by auto.
  set (wt := set_conns _ (set_conns _ w)).
  set (ct := with_tx (tx_buffer c ++ bytes) (sent_flags msg c)).
  assert (conns wt !! p = Some ct) as Hct by (simpl; by rewrite !lookup_alter_eq, Hc).
  assert (tx_buffer ct ≠ []) as Htx by (simpl; intros E; apply app_eq_nil in E as [_ ?]; done).
  assert (c_fd ct = c_fd c ∧ c_state ct = Active ∧ on_disconnect ct = Some CoordinatorCb)
    as (Efd & Hact' & Hcb') by (destruct msg; by split_and!).
  unfold handle_write. rewrite (bindM_run _ _ _ _ _ (conn_run _ _ _ Hct)).
  rewrite bool_decide_eq_false_2 by done. unfold gets. rewrite (bindM_run _ _ _ _ _ eq_refl).
  assert (∃ s, (if c_fd ct =? -1 then (0, true, sends wt)
                else send_loop (sends wt) (zlen (tx_buffer ct)) 0) = (0, true, s)) as [s ->].
  { rewrite Efd. destruct (Z.eqb_spec (c_fd c) (-1)); [by eexists|].
    destruct Hf as [?|[s Hs]]; [done|]. change (sends wt) with (sends w). rewrite Hs. cbn [send_loop].
    destruct (Z.leb_spec (zlen (tx_buffer ct)) 0); [|by eexists].
    exfalso. apply Htx. destruct (tx_buffer ct); [done|]. rewrite zlen_cons in *.
    pose proof (zlen_nonneg l). lia. }
  unfold modify. rewrite (bindM_run _ _ _ _ _ eq_refl). simpl when.
  rewrite (bindM_run _ _ _ tt _ eq_refl).
  pose proof (disconnect_registered (set_sends s wt) p ct st Hct Hact' Hcb' Hst) as E.
  eexists. split; [exact E|done].
Qed.

(** A request that cannot be sent: the next look at [state.outstanding] is at an erased
    entry. *)
Lemma fill_round_fails w p st c i b manager :
  Inv nobody nothing w → peers w !! p = Some st → conns w !! p = Some c → send_fails w c →
  active_piece st = Some i → get_next_block (pm w) i = Ok (Some b, manager) →
  zlen (outstanding st) < 5 →
  ∃ w', fill_round p w = Ok (true, w') ∧ peers w' !! p = None.
Proof.
  intros Hi Hst Hc Hf Hact Hb Hlen. pose proof (state_ok _ _ _ _ _ Hi Hst) as (_ & _ & Hact').
  specialize (Hact' i Hact). destruct num_pieces_range as [Hnp Enp].
  set (st2 := mk_peer (p_bitfield st)
                (outstanding st ++ [mk_request (b_piece b) (b_begin b) (b_length b)]) (Some i)).
  set (w2 := set_peers <[p := st2]> (set_pm manager w)).
  assert (Inv nobody nothing w2) as Hi2.
  { destruct Hi as (Hp & Ha & Hn & Hr). split; [|split; [|split]]; simpl; try done.
    - destruct (get_next_block_frame (pm w) i (Some b) manager) as (? & ? & ?);
        [apply Hp|lia|done|]. by eapply pieces_same.
    - eapply avail_same_bitfield; [done|done|done|]. by intros j [= <-].
    - rewrite dom_insert_lookup_L by done. done.
    - eapply (requests_next (pm w) i b); try done; [apply Hp|lia]. }
  destruct (send_message_fails nothing w2 p st2 c
    (RequestMsg (b_piece b) (b_begin b) (b_length b)) Hi2) as (w' & E & Ep); try done.
  { apply lookup_insert_eq. }
  exists w'. split; [|by rewrite Ep, lookup_delete_eq].
  unfold fill_round. rewrite (bindM_run _ _ _ _ _ (peer_state_run _ _ _ Hst)).
  unfold pick_active. rewrite Hact, (bindM_run _ _ _ _ _ eq_refl).
  erewrite bindM_run; [done|]. unfold request_block. rewrite (bindM_run _ _ _ _ _ eq_refl).
  erewrite bindM_run; [|unfold lift; by rewrite Hb]. cbv iota beta.
  do 2 rewrite (bindM_run _ _ _ _ _ eq_refl). exact E.
Qed.

Lemma fill_request_pipeline_fails w p st c i b manager :
  Inv nobody nothing w → peers w !! p = Some st → conns w !! p = Some c → send_fails w c →
  peer_choking c = false → active_piece st = Some i →
  get_next_block (pm w) i = Ok (Some b, manager) → zlen (outstanding st) < 5 →
  fill_request_pipeline p w = UB "reference to an erased element of peers_".
Proof.
  intros Hi Hst Hc Hf Hch Hact Hb Hlen. unfold fill_request_pipeline.
  rewrite (bindM_run _ _ _ _ _ (conn_run _ _ _ Hc)), Hch.
  rewrite (bindM_run _ _ _ _ _ eq_refl), Hst. cbn [fill_loop].
  rewrite (bindM_run _ _ _ _ _ (peer_state_run _ _ _ Hst)), (proj2 (Z.leb_gt _ _)) by done.
  destruct (fill_round_fails w p st c i b manager) as (w' & E & Ep); try done.
  rewrite (bindM_run _ _ _ _ _ E). apply bindM_ub. unfold peer_state. by rewrite Ep.
Qed.

(** The announcement of a piece that cannot be sent to the first peer: the iterator
    the loop stands on is gone. *)
Lemma broadcast_have_fails w p keys st c i :
  Inv nobody nothing w → order (peers w) = p :: keys → peers w !! p = Some st →
  conns w !! p = Some c → send_fails w c →
  broadcast_have i w = UB "reference to an erased element of peers_".
Proof.
  intros Hi Ho Hst Hc Hf. unfold broadcast_have. rewrite (bindM_run _ _ _ _ _ eq_refl), Ho.
  cbn [for_peers]. destruct (send_message_fails nothing w p st c (HaveMsg (u32 i)) Hi)
    as (w' & E & Ep); try done.
  rewrite (bindM_run _ _ _ _ _ E). apply bindM_ub. unfold peer_state.
  by rewrite Ep, lookup_delete_eq.
Qed.
End Failures.
