(* ===== verification/Wiring.v ===== *)
(** * Connections, descriptors and slots

    What every handler keeps of the connections: one that is neither idle nor
    disconnected has a descriptor, a descriptor's callback is for a connection that
    exists, and, once the connection of a registered peer has gone down, the slot in
    [active_peers_] it has stays its own, whatever happens later. *)

From S2P Require Import Prelude StdString Bencode Bitfield Hasher Torrent PieceManager.
From S2P Require Import PiecePicker PeerMessage Socket EventLoop World PeerConnection Coordinator.
From S2P Require Import Keeps System Handlers Steps Termination Safe Failures.

Section Wiring.
Context `{C : CryptoSHA1} `{R : UniformRng} {prm : Params} {MO : MapOrder} {m : TorrentMetadata}
  {PF : ParamsFor prm m}.

Implicit Types (w : World) (c : Conn).

(** The slots that are taken for good, and by whom. *)
Variable stuck : list byte → Z → Prop.

Definition opened c : Prop := c_state c = Idle ∨ c_state c = Disconnected ∨ c_fd c ≠ -1.

(** The slot at [key] is that of [p], which is down, and no connection that is up would
    give it back when it goes down. *)
Definition barred w (key : list byte) (p : Z) : Prop :=
  active_peers w !! key = Some p ∧ (∃ c, conns w !! p = Some c ∧ c_state c = Disconnected) ∧
  ∀ q c, conns w !! q = Some c → on_disconnect c = Some (ManagerCb key) → c_state c = Disconnected.

Record wired w : Prop := {
  wired_opened : ∀ q c, conns w !! q = Some c → opened c;
  wired_watched : ∀ fd q, fd_callbacks (fds w) !! fd = Some q → is_Some (conns w !! q);
  wired_barred : ∀ key p, stuck key p → barred w key p;
}.

(** A step of a connection: what is down stays down, what is up has a descriptor. *)
Definition steps_to c c' : Prop :=
  (opened c → opened c') ∧ (c_state c = Disconnected → c_state c' = Disconnected) ∧
  (on_disconnect c' = on_disconnect c ∨ on_disconnect c' = Some CoordinatorCb).

Lemma wired_alter w q f :
  wired w → (∀ c, conns w !! q = Some c → steps_to c (f c)) → wired (set_conns (alter f q) w).
Proof.
  intros [Ho Hw Hb] Hf.
  assert (∀ p c', alter f q (conns w) !! p = Some c' → ∃ c, conns w !! p = Some c ∧ steps_to c c') as Hold.
  { intros p c' Hp. destruct (decide (p = q)) as [->|Hne].
    - rewrite lookup_alter_eq in Hp. apply fmap_Some in Hp as (c & Hc & ->). exists c. split; [done|by apply Hf].
    - rewrite lookup_alter_ne in Hp by done. exists c'. split; [done|]. split; [done|split; [done|by left]]. }
  constructor; simpl.
  - intros p c' Hp. destruct (Hold p c' Hp) as (c & Hc & Hs & _). by apply Hs, (Ho p).
  - intros fd p Hfd. destruct (Hw fd p Hfd) as [c Hc]. destruct (decide (p = q)) as [->|];
      [rewrite lookup_alter_eq, Hc|rewrite lookup_alter_ne, Hc by done]; by eexists.
  - intros key p Hk. destruct (Hb key p Hk) as (Ha & (c & Hc & Hd) & Hcb). split; [done|]. split.
    + destruct (alter f q (conns w) !! p) as [c'|] eqn:Hp.
      * exists c'. split; [done|]. destruct (Hold p c' Hp) as (c0 & Hc0 & _ & Hs & _).
        rewrite Hc in Hc0. injection Hc0 as <-. by apply Hs.
      * exfalso. destruct (decide (p = q)) as [->|];
          [rewrite lookup_alter_eq, Hc in Hp|rewrite lookup_alter_ne, Hc in Hp by done]; done.
    + intros p' c' Hp' Ecb. destruct (Hold p' c' Hp') as (c0 & Hc0 & _ & Hs & [E|E]); [|congruence].
      apply Hs, (Hcb p' c0 Hc0). congruence.
Qed.

(** Other tables change: the callbacks of descriptors to existing connections, the slots
    that are not stuck. *)
Lemma wired_tables w w' :
  wired w → conns w' = conns w →
  (∀ fd q, fd_callbacks (fds w') !! fd = Some q →
     fd_callbacks (fds w) !! fd = Some q ∨ is_Some (conns w !! q)) →
  (∀ key p, stuck key p → active_peers w' !! key = active_peers w !! key) → wired w'.
Proof.
  intros [Ho Hw Hb] Ec Hf Ha. constructor; rewrite ?Ec; [done| |].
  - intros fd q Hfd. destruct (Hf fd q Hfd); [by eapply Hw|done].
  - intros key p Hk. unfold barred. rewrite Ec, (Ha key p Hk). by apply Hb.
Qed.

Lemma wired_same w w' :
  wired w → conns w' = conns w → fds w' = fds w → active_peers w' = active_peers w → wired w'.
Proof. intros H Ec Ef Ea. apply (wired_tables w); rewrite ?Ef, ?Ea; auto. Qed.

(** ** The handlers *)

(** What a handler keeps: the wiring, that no [send] fails, and the objects. *)
Record wires w w' : Prop := {
  wires_wired : wired w → wired w';
  wires_willing : willing w → willing w';
  wires_conns : dom (conns w) ⊆ dom (conns w');
}.

#[export] Instance wires_preorder : PreOrder wires.
Proof. split; [done|]. intros w1 w2 w3 [] []. split; auto. by etrans. Qed.

Lemma wires_rest w w' :
  conns w' = conns w → fds w' = fds w → active_peers w' = active_peers w → sends w' = sends w →
  wires w w'.
Proof.
  intros Ec ?? E. split; [intros; by eapply wired_same|unfold willing; by rewrite E|by rewrite Ec].
Qed.

Lemma wires_upd w p f : (∀ c, steps_to c (f c)) → wires w (set_conns (alter f p) w).
Proof. intros Hf. split; [|done|simpl; by rewrite dom_alter_L]. intros Hw. by apply wired_alter. Qed.

Lemma wires_upd_at w p c f :
  conns w !! p = Some c → steps_to c (f c) → wires w (set_conns (alter f p) w).
Proof.
  intros Hc Hf. split; [|done|simpl; by rewrite dom_alter_L]. intros Hw. apply wired_alter; [done|].
  intros c' Hc'. congruence.
Qed.

Create HintDb wires.
#[local] Hint Resolve keeps_ret keeps_gets keeps_lift keeps_conn keeps_peer_state keeps_when
  keeps_for_each wires_preorder : wires.
#[local] Hint Extern 1 (keeps wires (modify _)) =>
  (apply keeps_modify; intros ?; by apply wires_rest) : wires.
#[local] Hint Extern 1 (keeps wires (put_peer _ _)) =>
  (apply keeps_modify; intros ?; by apply wires_rest) : wires.
#[local] Hint Extern 1 (keeps wires (upd_conn _ _)) =>
  (apply keeps_modify; intros ?; apply wires_upd; intros ?; split; [done|split; [done|by left]]) : wires.

Ltac keep := keep_with ltac:(eauto with wires).

(** [H]: a computation that starts with a bind ran; it keeps the relation. *)
Ltac keep_in H := eapply (keeps_bind wires); [..|exact H]; [|intros ?; cbv beta]; keep.

Lemma wires_request_failed r : keeps wires (request_failed r).
Proof. unfold request_failed. keep. Qed.
#[local] Hint Resolve wires_request_failed : wires.

Lemma wires_unregister p : keeps wires (unregister_peer p).
Proof. unfold unregister_peer. keep. Qed.
#[local] Hint Resolve wires_unregister : wires.

Lemma dropped_rest p w u w' :
  call_on_disconnect p w = Ok (u, w') →
  (willing w → willing w') ∧ dom (conns w) ⊆ dom (conns w').
Proof.
  intros H. unfold call_on_disconnect in H. inv_m H. inv_m H0.
  destruct (on_disconnect x) as [[key|]|]; [|by apply wires_unregister in H as []|by inv_m H].
  unfold run_on_disconnect, on_disconnect_callbacks in H. inv_m H. apply wires_unregister in H1.
  inv_m H. split; apply H1.
Qed.

(** Going down: a connection that was up does not hold the callback of a stuck slot. *)
Lemma wires_dropped w w' p c u :
  (∀ key q, stuck key q → on_disconnect c ≠ Some (ManagerCb key)) → conns w !! p = Some c →
  call_on_disconnect p w = Ok (u, w') → wires w w'.
Proof.
  intros Hcb Hc H. unfold call_on_disconnect in H. inv_m H. inv_m H0. rewrite Hc in H0. injection H0 as <-.
  destruct (on_disconnect c) as [[key|]|]; [|by eapply wires_unregister|by inv_m H].
  unfold run_on_disconnect, on_disconnect_callbacks in H. inv_m H. apply wires_unregister in H0.
  inv_m H. etrans; [exact H0|]. split; [|done..]. intros Hw.
  apply (wired_tables w0); auto. intros key' q Hk. simpl. rewrite lookup_delete_ne; [done|].
  intros ->. by eapply Hcb.
Qed.

Lemma up_not_stuck w p c :
  wired w → conns w !! p = Some c → c_state c ≠ Disconnected →
  ∀ key q, stuck key q → on_disconnect c ≠ Some (ManagerCb key).
Proof. intros Hw Hc Hst key q Hk E. destruct (wired_barred _ Hw key q Hk) as (_ & _ & H). by apply Hst, (H p). Qed.

Lemma wires_disconnect p : keeps wires (disconnect p).
Proof.
  intros w u w' H. destruct (conns w !! p) as [c|] eqn:Hc.
  2:{ unfold disconnect in H. inv_m H. inv_m H0. congruence. }
  destruct (decide (c_state c = Disconnected)) as [E|E].
  { unfold disconnect in H. inv_m H. inv_m H0. rewrite Hc in H0. injection H0 as <-.
    rewrite bool_decide_eq_true_2 in H by done. by inv_m H. }
  destruct (disconnect_run w p c Hc E) as (w1 & E1 & ->). rewrite E1 in H.
  assert (wires w (closed w p c)) as H1.
  { etrans; [apply (wires_upd w p (λ c, with_tx [] (with_rx [] (with_fd (-1) (with_state Disconnected c)))))|].
    - intros c'. split; [by right; left|]. split; [done|by left].
    - split; [|done..]. intros Hw. apply (wired_tables _ _ Hw); [done| |done]. intros fd q. simpl.
      destruct (negb _); [|by left]. unfold unregister_fd. destruct (_ <? _); [by left|].
      destruct (fd_callbacks (fds w) !! _) eqn:Ef; [|by left]. simpl. intros [_ ?]%lookup_delete_Some. by left. }
  destruct (dropped_rest _ _ _ _ H) as [Hs Hd]. destruct H1 as [H1 H1' H1''].
  split; [|by intros ?%H1'%Hs|by etrans]. intros Hw.
  eapply (wires_dropped (closed w p c)); [|simpl; rewrite lookup_alter_eq, Hc; reflexivity|exact H|by apply H1].
  simpl. by eapply up_not_stuck.
Qed.

(** ** Sending *)

Lemma wires_set_fds w f : fd_callbacks (f (fds w)) = fd_callbacks (fds w) → wires w (set_fds f w).
Proof.
  intros E. split; [|done..]. intros Hw. apply (wired_tables w); simpl; auto. rewrite E. auto.
Qed.

Lemma wires_update_epoll p : keeps wires (update_epoll_interests p).
Proof.
  unfold update_epoll_interests. keep. apply keeps_modify. intros w. apply wires_set_fds.
  unfold modify_fd. by case_ifs.
Qed.
#[local] Hint Resolve wires_disconnect wires_update_epoll : wires.

Lemma wires_handle_write p : keeps wires (handle_write p).
Proof.
  intros w u w' H. unfold handle_write in H. inv_m H. inv_m H0.
  case_bool_decide as Et; [by eapply wires_update_epoll|]. inv_m H. inv_m H1.
  assert (∀ total error script, (if c_fd x =? -1 then (0, true, sends w)
            else send_loop (sends w) (zlen (tx_buffer x)) 0) = (total, error, script) →
            wires w (set_sends script w)) as Hs.
  { intros total error script E. split; [intros Hw; by apply (wired_same w)| |done]. intros Hw.
    case_ifs_in E; [by injection E as <- <- <-|].
    destruct (send_loop_willing (sends w) (zlen (tx_buffer x)) 0 Hw) as (? & s & E' & ?).
    rewrite E in E'. by injection E' as _ _ ->. }
  destruct (if c_fd x =? -1 then _ else _) as [[total error] script]. specialize (Hs _ _ _ eq_refl).
  etrans; [exact Hs|]. inv_m H. inv_m H1. keep_in H.
Qed.
#[local] Hint Resolve wires_handle_write : wires.

Lemma wires_send_message p msg : keeps wires (send_message p msg).
Proof.
  unfold send_message. keep. apply keeps_modify. intros w. apply wires_upd. intros c.
  destruct msg; (split; [done|split; [done|by left]]).
Qed.
#[local] Hint Resolve wires_send_message : wires.

Lemma wires_send_handshake p : keeps wires (send_handshake p).
Proof. unfold send_handshake. keep. Qed.
#[local] Hint Resolve wires_send_handshake : wires.

(** ** Requesting and completing *)

Lemma wires_fill_loop f p : keeps wires (fill_loop f p).
Proof.
  induction f as [|f IH]; cbn [fill_loop]; [by intros w a w'|]. unfold fill_round, pick_active, request_block. keep.
Qed.
#[local] Hint Resolve wires_fill_loop : wires.

Lemma wires_fill_request_pipeline p : keeps wires (fill_request_pipeline p).
Proof. unfold fill_request_pipeline. keep. Qed.
#[local] Hint Resolve wires_fill_request_pipeline : wires.

Lemma wires_for_peers keys body : (∀ p, keeps wires (body p)) → keeps wires (for_peers keys body).
Proof. intros Hb. induction keys as [|p keys IH]; cbn [for_peers]; keep. Qed.

Lemma wires_cancel_requests i p kept rest : keeps wires (cancel_requests i p kept rest).
Proof. revert kept. induction rest as [|r rest IH]; intros kept; cbn [cancel_requests]; keep. Qed.
#[local] Hint Resolve wires_cancel_requests : wires.

Lemma wires_piece_received p i : keeps wires (piece_received p i).
Proof.
  unfold piece_received, cancel_piece_requests, broadcast_have, on_peer_corrupted, blacklist_peer,
    reset_active_piece.
  keep; apply wires_for_peers; intros ?; keep.
Qed.
#[local] Hint Resolve wires_piece_received : wires.

Lemma wires_message p msg : keeps wires (handle_peer_message p msg).
Proof.
  unfold handle_peer_message, handle_choke, handle_bitfield, replace_bitfield, handle_have,
    handle_piece, receive_block, express_interest, top_off. keep.
Qed.

Lemma wires_handshake p h : keeps wires (run_on_handshake p h).
Proof.
  simpl. unfold register_peer. keep. apply keeps_modify. intros w. apply wires_upd. intros c.
  split; [done|split; [done|by right]].
Qed.
#[local] Hint Resolve wires_message wires_handshake : wires.

(** ** Receiving *)

Lemma steps_received msg c : steps_to c (received_flags msg c).
Proof. destruct msg; (split; [done|split; [done|by left]]). Qed.

Lemma wires_process_round p : keeps wires (process_round p).
Proof.
  intros w b w' H. unfold process_round in H. inv_m H. inv_m H0. destruct (c_state x) eqn:Est.
  1,2,5: by keep_in H.
  - destruct (_ <? _); [by inv_m H|]. inv_m H. inv_m H1. destruct x0 as [h|].
    + inv_m H. inv_m H2. inv_m H. inv_m H2.
      etrans; [apply (wires_upd w p (with_rx (zdrop 68 (rx_buffer x))))|].
      { intros c. split; [done|split; [done|by left]]. }
      etrans; [eapply (wires_upd_at _ p _ (with_state Active)); [simpl; by rewrite lookup_alter_eq, H0|]|].
      { split; [|split; [simpl; intros; congruence|by left]]. intros [E|[E|E]]; simpl in E; [congruence..|by do 2 right]. }
      keep_in H.
    + inv_m H. inv_m H. by eapply wires_disconnect.
  - keep_in H. apply keeps_modify. intros w1. apply wires_upd. apply steps_received.
Qed.
#[local] Hint Resolve wires_process_round : wires.

Lemma wires_process_loop f p : keeps wires (process_loop f p).
Proof. induction f as [|f IH]; cbn [process_loop]; [by intros w a w'|]. keep. Qed.
#[local] Hint Resolve wires_process_loop : wires.

Lemma wires_handle_read recvs p : keeps wires (handle_read recvs p).
Proof. unfold handle_read, process_rx_buffer. keep. Qed.
#[local] Hint Resolve wires_handle_read : wires.

Lemma wires_handshaking p c w :
  conns w !! p = Some c → c_state c = Connecting → wires w (set_conns (alter (with_state Handshaking) p) w).
Proof.
  intros Hc Hst. eapply wires_upd_at; [done|]. split; [|split; [simpl; intros; congruence|by left]].
  intros [E|[E|E]]; simpl in E; [congruence..|by do 2 right].
Qed.

Lemma wires_handle_events ev err recvs p : keeps wires (handle_events ev err recvs p).
Proof.
  intros w u w' H. unfold handle_events in H.
  destruct (any_of ev _); [by eapply wires_disconnect|].
  destruct (any_of ev EPOLLRDHUP); [by eapply wires_disconnect|].
  inv_m H. inv_m H0. destruct (_ && _ && _); [by eapply wires_disconnect|]. inv_m H.
  assert (wires w w0) as H1'.
  { apply when_ok in H1 as [[E H1]|[_ ->]]; [|done]. apply andb_true_iff in E as [E%bool_decide_eq_true _].
    inv_m H1. inv_m H2. etrans; [by eapply wires_handshaking|by eapply wires_send_handshake]. }
  etrans; [exact H1'|]. keep_in H.
Qed.

(** ** Connecting *)

(** A connection that was up is closed, with its callback called. *)
Lemma wires_given_up w w1 p c f u w' :
  conns w !! p = Some c → c_state c ≠ Disconnected → on_disconnect (f c) = on_disconnect c →
  wires w w1 → conns w1 = alter f p (conns w) → call_on_disconnect p w1 = Ok (u, w') → wires w w'.
Proof.
  intros Hc Hst Ecb [H1 H1' H1''] Ec H. destruct (dropped_rest _ _ _ _ H) as [Hs Hd].
  split; [|by intros ?%H1'%Hs|by etrans]. intros Hw.
  eapply (wires_dropped w1); [|by rewrite Ec, lookup_alter_eq, Hc|exact H|by apply H1].
  rewrite Ecb. by eapply up_not_stuck.
Qed.

Lemma wires_tables w w' :
  conns w' = conns w → active_peers w' = active_peers w → sends w' = sends w →
  (∀ fd q, fd_callbacks (fds w') !! fd = Some q →
     fd_callbacks (fds w) !! fd = Some q ∨ is_Some (conns w !! q)) → wires w w'.
Proof.
  intros Ec Ea Es Hf. split; [|unfold willing; by rewrite Es|by rewrite Ec]. intros Hw.
  apply (wired_tables w); [done..|]. by rewrite Ea.
Qed.

Lemma wires_registered p status c :
  ∀ w u w', conns w !! p = Some c → c_state c = Connecting →
  registered p status true w = Ok (u, w') → wires w w'.
Proof.
  intros w u w' Hc Hst H. unfold registered in H. simpl in H. inv_m H.
  assert (wires w w0) as H1.
  { destruct status; try by inv_m H0. inv_m H0. inv_m H1.
    etrans; [by eapply wires_handshaking|by eapply wires_send_handshake]. }
  etrans; [exact H1|by eapply wires_update_epoll].
Qed.

(** [connect] with a descriptor, watched or given back. *)
Lemma wires_watched w p c fd ctl_ok ev status cs reg_ok l u w' :
  conns w !! p = Some c → c_state c = Idle → register_fd ctl_ok fd ev p (fds w) = (reg_ok, l) →
  registered p status reg_ok
    (set_fds (λ _, l) (set_conns (alter (with_fd fd) p)
       (set_connects cs (set_conns (alter (with_state Connecting) p) w)))) = Ok (u, w') → wires w w'.
Proof.
  intros Hc Hst El H. set (w1 := set_fds _ _) in H.
  assert (conns w1 = alter (λ c, with_fd fd (with_state Connecting c)) p (conns w)) as Ec
    by (simpl; apply alter_twice).
  unfold register_fd in El. destruct (Z.ltb_spec fd 0) as [Hfd|Hfd]; [|destruct (negb ctl_ok)]; injection El as <- <-.
  3:{ transitivity w1.
      - etrans; [apply (wires_upd_at w p c (λ c, with_fd fd (with_state Connecting c))); [done|]|].
        { split; [intros _; do 2 right; simpl; lia|]. split; [simpl; congruence|by left]. }
        apply wires_tables; try done. intros fd' q. simpl. intros [[<- <-]|[_ ?]]%lookup_insert_Some; [|by left].
        right. by rewrite lookup_alter_eq, Hc.
      - eapply (wires_registered p status); [rewrite Ec, lookup_alter_eq, Hc; done|done|exact H]. }
  all: unfold registered in H; simpl in H; inv_m H; inv_m H0; inv_m H; inv_m H0;
    eapply (wires_given_up w _ p c (λ c, with_fd (-1) (with_state Disconnected (with_fd fd (with_state Connecting c)))));
    [done|congruence|done| | |exact H];
    [etrans; [apply (wires_upd_at w p c (λ c, with_fd (-1) (with_state Disconnected (with_fd fd (with_state Connecting c))))); [done|]|]|];
    [by split; [right; left|split; [done|left]]|apply wires_tables; auto|]; simpl; by rewrite !alter_twice.
Qed.

Lemma wires_connect p : keeps wires (connect p).
Proof.
  intros w u w' H. unfold connect in H. inv_m H. inv_m H0. rename x into c.
  case_bool_decide as Est; simpl in H; [|by inv_m H]. inv_m H. inv_m H1.
  inv_m H. inv_m H1. destruct (default _ _) as [[status fd] ctl_ok].
  inv_m H. inv_m H1. destruct status.
  3:{ inv_m H. inv_m H1.
      eapply (wires_given_up w _ p c (λ c, with_state Disconnected (with_state Connecting c)) u w');
        [done|congruence|done| | |exact H]; [|simpl; apply alter_twice].
      etrans; [apply (wires_upd_at w p c (λ c, with_state Disconnected (with_state Connecting c))); [done|]|].
      { by split; [right; left|split; [done|left]]. }
      apply wires_tables; auto. simpl. apply alter_twice. }
  all: inv_m H; inv_m H1; inv_m H; inv_m H1; destruct (register_fd _ _ _ _ _) as [reg_ok l] eqn:El;
    inv_m H; inv_m H1; by eapply wires_watched.
Qed.
#[local] Hint Resolve wires_connect : wires.

(** A new connection, under a key that nobody has. *)
Lemma wired_new w w' p c key :
  wired w → conns w !! p = None → active_peers w !! key = None → c_state c = Idle →
  on_disconnect c = Some (ManagerCb key) → conns w' = <[p := c]> (conns w) → fds w' = fds w →
  active_peers w' = <[key := p]> (active_peers w) → wired w'.
Proof.
  intros [Ho Hw Hb] Hp Hk Hst Ecb Ec Ef Ea.
  assert (∀ q, is_Some (conns w !! q) → q ≠ p) as Hne by (intros q [? ?] ->; congruence).
  constructor; rewrite ?Ec, ?Ef.
  - intros q c' [[<- <-]|[_ Hc']]%lookup_insert_Some; [by left|by apply (Ho q)].
  - intros fd q Hfd. rewrite lookup_insert_ne by (by apply not_eq_sym, Hne, (Hw fd)). by apply (Hw fd).
  - intros key' q Hs. destruct (Hb key' q Hs) as (Ha & (cq & Hcq & Hd) & Hcb).
    assert (key' ≠ key) as Hkk by congruence. unfold barred. rewrite Ea, Ec.
    rewrite lookup_insert_ne by done. split; [done|]. split.
    + exists cq. rewrite lookup_insert_ne by (apply not_eq_sym, Hne; by eexists). done.
    + intros q' c' [[<- <-]|[_ Hc']]%lookup_insert_Some Ecb'; [congruence|by apply (Hcb q')].
Qed.

Lemma wires_connect_to_peer ip port : keeps wires (connect_to_peer ip port).
Proof.
  intros w u w' H. unfold connect_to_peer in H. inv_m H. inv_m H0.
  destruct (_ <=? _); [by inv_m H|]. inv_m H. inv_m H0.
  destruct (is_blacklisted ip port w); [by inv_m H|]. case_bool_decide as Ek; [by inv_m H|].
  inv_m H. inv_m H0. inv_m H. inv_m H0. inv_m H. inv_m H0. inv_m H. inv_m H0.
  etrans; [|by eapply wires_connect].
  split; [|done|simpl; rewrite dom_alter_L, dom_insert_L; set_solver]. intros Hw.
  set (p := fresh (dom (conns w))). set (key := make_peer_key ip port) in *.
  apply (wired_new w _ p (with_callbacks true false (Some (ManagerCb key)) (new_conn ip port)) key);
    try done; [apply not_elem_of_dom, is_fresh|by apply eq_None_not_Some|].
  simpl. apply map_eq. intros q. destruct (decide (q = p)) as [->|].
  - by rewrite lookup_alter_eq, !lookup_insert_eq.
  - by rewrite lookup_alter_ne, !lookup_insert_ne.
Qed.
#[local] Hint Resolve wires_connect_to_peer : wires.

(** ** Runs *)

Lemma wires_add_peers infos : keeps wires (add_peers infos).
Proof. induction infos as [|info infos IH]; cbn [add_peers]; keep. Qed.

(** What the kernel will answer is not the handlers' to choose. *)
Lemma wired_run_event e w u w' : wired w → run_event e w = Ok (u, w') → wired w'.
Proof.
  intros Hw H. destruct e; unfold run_event in H.
  - apply wires_add_peers in H. by apply H.
  - apply wires_connect_to_peer in H. by apply H.
  - inv_m H. inv_m H0. destruct (fd_callbacks _ !! _); [|by inv_m H].
    apply wires_handle_events in H. by apply H.
  - inv_m H. by apply (wired_same w).
Qed.

Lemma wired_run_events es w u w' : wired w → run_events es w = Ok (u, w') → wired w'.
Proof.
  revert w. induction es as [|e es IH]; intros w Hw H; cbn [run_events] in H; [by inv_m H|].
  inv_m H. eapply IH; [|exact H]. by eapply wired_run_event.
Qed.

Lemma start_wired seeded : (∀ key p, ¬ stuck key p) → wired (start m seeded).
Proof. intros Hs. constructor; simpl; [done..|]. intros key p Hk. by destruct (Hs key p). Qed.
End Wiring.

Section Reachable.
Context `{C : CryptoSHA1} `{R : UniformRng} {prm : Params} {MO : MapOrder} {m : TorrentMetadata}
  {PF : ParamsFor prm m}.

Definition nowhere : list byte → Z → Prop := λ _ _, False.

Lemma reachable_wired w : reachable (m := m) w → wired nowhere w.
Proof.
  intros (seeded & es & u & H). eapply wired_run_events; [|exact H]. apply start_wired. by intros ? ? [].
Qed.

(** Once a registered peer has gone down, its slot is barred. *)
Lemma wired_left w w' p c :
  Inv (m := m) nobody nothing w → wired nowhere w → conns w !! p = Some c →
  is_Some (peers w !! p) → disconnect p w = Ok (tt, w') →
  wired (λ key q, key = key_of c ∧ q = p) w'.
Proof.
  intros Hi Hw Hc [st Hst] H. destruct (registered_conn _ _ _ _ Hi Hst) as (c' & Hc' & Hcb & Hact & Hk).
  rewrite Hc in Hc'. injection Hc' as <-.
  rewrite (disconnect_registered w p c st Hc Hact Hcb Hst) in H. injection H as <-.
  pose proof (wires_disconnect nowhere p w tt _ (disconnect_registered w p c st Hc Hact Hcb Hst)) as [H' _ _].
  destruct (H' Hw) as [Ho Hf _]. constructor; [done..|]. intros key q [-> ->]. split; [done|]. simpl. split.
  - rewrite lookup_alter_eq, Hc. eexists. by split.
  - intros q' c' Hq' Ecb'. destruct (decide (q' = p)) as [->|Hne].
    + rewrite lookup_alter_eq, Hc in Hq'. by injection Hq' as <-.
    + rewrite lookup_alter_ne in Hq' by done. destruct (decide (c_state c' = Disconnected)); [done|].
      destruct Hi as (_ & _ & (_ & _ & Hm) & _). destruct (Hm q' c' Hq') as [Hk' [E|[E _]]]; [done| |congruence].
      rewrite Ecb' in E. injection E as E. rewrite <- E, Hk in Hk'. congruence.
Qed.

(** A barred address is not connected to. *)
Lemma connect_refused w ip port :
  is_Some (active_peers w !! make_peer_key ip port) → connect_to_peer ip port w = Ok (tt, w).
Proof.
  intros Hk. unfold connect_to_peer, gets. rewrite (bindM_run _ _ _ _ _ eq_refl).
  destruct (_ <=? _); [done|]. rewrite (bindM_run _ _ _ _ _ eq_refl).
  destruct (is_blacklisted _ _ _); [done|]. by rewrite bool_decide_eq_true_2.
Qed.
End Reachable.
