(* ===== verification/Handled.v ===== *)
(** * Events that are handled to the end

    The handlers in worlds where no [send] fails, whatever the peers send, right or
    wrong. No reference into [peers_] dangles as long as no piece fails its check: a
    handler then loses no registered peer. What remains of undefined behaviour are the
    two kinds of message that [harmful] describes, and every other event is handled. *)

From S2P Require Import Prelude StdString Bencode Bitfield Hasher Torrent PieceManager.
From S2P Require Import PiecePicker PeerMessage Socket EventLoop World PeerConnection Coordinator.
From S2P Require Import Keeps System Handlers Steps Termination Safe Progress Swarm Failures Wiring.

Section Handled.
Context `{C : CryptoSHA1} `{R : UniformRng} `{!UniformRngLaws R} {prm : Params} {MO : MapOrder}
  {m : TorrentMetadata} {PF : ParamsFor prm m}.

Implicit Types (w : World).
Abbreviation Good := (Inv (m := m) nobody nothing).

(** No [send] fails, and registered peers have a descriptor to send on. *)
Definition linked w : Prop :=
  willing w ∧ ∀ q, is_Some (peers w !! q) → ∃ c, conns w !! q = Some c ∧ c_fd c ≠ -1.

(** That is so still, and no registered peer is lost. *)
Definition stays w w' : Prop :=
  linked w' ∧ ∀ q, is_Some (peers w !! q) → is_Some (peers w' !! q).

Lemma stays_refl w : linked w → stays w w.
Proof. by split. Qed.

Lemma stays_trans w1 w2 w3 : stays w1 w2 → stays w2 w3 → stays w1 w3.
Proof. intros [_ H1] [? H2]. split; auto. Qed.

Lemma calm_stays w w' : linked w → calm w w' → stays w w'.
Proof.
  intros [Hw Hl] Hc. split; [split; [by apply Hc|]|].
  - intros q [st' Hq]. destruct (calm_peers_inv _ _ _ _ Hc Hq) as (st & Hst & _).
    destruct (Hl q) as (c & Hcq & Hfd); [by eexists|].
    destruct (calm_conn _ _ _ _ Hc Hcq) as (c' & Hc' & (_ & _ & E & _)%link_inv). exists c'. split; congruence.
  - intros q [st Hq]. destruct (calm_peer _ _ _ _ Hc Hq) as (st' & ? & _). by eexists.
Qed.

(** Entries are updated, other tables change. *)
Lemma stays_same w w' :
  linked w → conns w' = conns w → sends w' = sends w →
  (∀ q, is_Some (peers w' !! q) ↔ is_Some (peers w !! q)) → stays w w'.
Proof.
  intros [Hw Hl] Ec Es Hd. split; [split|]; [unfold willing; by rewrite Es| |by intros q ?%Hd].
  intros q ?%Hd. rewrite Ec. by apply Hl.
Qed.

Lemma put_peers_dom (ps : gmap Z PeerState) p q st :
  is_Some (ps !! p) → is_Some (<[p := st]> ps !! q) ↔ is_Some (ps !! q).
Proof.
  intros Hp. rewrite lookup_insert_is_Some. split; [by intros [<-|[_ ?]]|].
  intros Hq. destruct (decide (p = q)); [by left|by right].
Qed.

Lemma stays_put w w' p st :
  linked w → is_Some (peers w !! p) → peers w' = <[p := st]> (peers w) → conns w' = conns w →
  sends w' = sends w → stays w w'.
Proof. intros Hl Hp E ??. apply stays_same; try done. intros q. rewrite E. by apply put_peers_dom. Qed.

(** A step that stays, and the rest. *)
Lemma safe_then {A B} (x : M A) (f : A → M B) w :
  safe x (λ _, stays w) w → (∀ a w', x w = Ok (a, w') → stays w w' → safe (f a) (λ _, stays w') w') →
  safe (x ≫= f) (λ _, stays w) w.
Proof.
  intros Hx Hf. apply safe_bind. eapply safe_mono; [exact Hx|]. intros a w1 E H1.
  eapply safe_mono; [by apply Hf|]. intros b w2 _ H2. exact (stays_trans _ _ _ H1 H2).
Qed.

Lemma safe_told w q msg :
  linked w → is_Some (peers w !! q) → fixed_length msg → safe (send_message q msg) (λ _, stays w) w.
Proof.
  intros Hl Hq Hf. destruct (proj2 Hl q Hq) as (c & Hc & Hfd).
  eapply safe_mono; [eapply safe_send_message; [exact Hc|done|apply Hl|done]|]. intros u w' _. by apply calm_stays.
Qed.

(** ** Asking for blocks *)

Lemma safe_ask w p st i :
  Good w → linked w → is_Some (peers w !! p) → 0 ≤ i →
  safe (request_block p st i) (λ _, stays w) w.
Proof.
  intros Hi Hl Hp Hir. unfold request_block.
  destruct (get_next_block_wf (pm w) i (proj1 (proj1 Hi)) Hir) as (r & manager & E & _).
  do 3 safe_step. eapply safe_lift; [exact E|]. repeat safe_step. destruct r as [b|].
  - repeat safe_step. set (w1 := set_peers _ _).
    assert (stays w w1) as H1 by (by eapply stays_put).
    eapply safe_mono; [apply (safe_told w1); [apply H1|by apply H1|done]|].
    intros u w2 _ H2. exact (stays_trans _ _ _ H1 H2).
  - safe_step. by eapply stays_put.
Qed.

Lemma safe_filling_round w p st :
  Good w → linked w → peers w !! p = Some st → safe (fill_round p) (λ _, stays w) w.
Proof.
  intros Hi Hl Hst. unfold fill_round. do 2 safe_step. safe_step.
  eapply safe_mono; [by apply (safe_pick_active (m := m))|]. intros picked w1 E [Hc Hp].
  apply (calm_stays w) in Hc as H1; [|done]. destruct picked as [i|]; [|by safe_step].
  destruct (pick_active_inv nobody w w1 (Some i) p st Hi Hst E) as (Hi1 & _).
  safe_step. eapply safe_mono; [apply (safe_ask w1 p st i Hi1); [apply H1|apply H1; by eexists|lia]|].
  intros u w2 _ H2. safe_step. by eapply stays_trans.
Qed.

Lemma safe_filling f w p :
  Good w → linked w → is_Some (peers w !! p) → safe (fill_loop f p) (λ _, stays w) w.
Proof.
  revert w. induction f as [|f IH]; intros w Hi Hl [st Hst]; [done|]. cbn [fill_loop].
  do 2 safe_step. destruct (Z.leb_spec 5 (zlen (outstanding st))); [safe_step; by apply stays_refl|].
  apply safe_then; [by eapply safe_filling_round|]. intros b w1 E H1.
  destruct (fill_round_inv nobody w w1 b p st) as [Hi1 _]; [done..|].
  destruct b; [|safe_step; apply stays_refl, H1]. apply IH; [done|apply H1|apply H1; by eexists].
Qed.

Lemma safe_fill_pipeline w p :
  Good w → linked w → is_Some (conns w !! p) → safe (fill_request_pipeline p) (λ _, stays w) w.
Proof.
  intros Hi Hl [c Hc]. unfold fill_request_pipeline. do 2 safe_step.
  destruct (peer_choking c); [safe_step; by apply stays_refl|]. do 2 safe_step.
  destruct (peers w !! p) eqn:Hst; [|safe_step; by apply stays_refl]. apply safe_filling; [done|done|by eexists].
Qed.

Lemma safe_top_up w p :
  Good w → linked w → is_Some (peers w !! p) → safe (top_off p) (λ _, stays w) w.
Proof.
  intros Hi Hl Hp. destruct (proj2 Hl p Hp) as (c & Hc & _). unfold top_off. do 2 safe_step.
  apply safe_when; intros _; [|by apply stays_refl]. apply safe_fill_pipeline; [done|done|by eexists].
Qed.

Lemma safe_interest w p b :
  linked w → is_Some (peers w !! p) → safe (express_interest p b) (λ _, stays w) w.
Proof.
  intros Hl Hp. destruct (proj2 Hl p Hp) as (c & Hc & _). unfold express_interest. do 2 safe_step.
  apply safe_when; intros _; [by apply safe_told|by apply stays_refl].
Qed.

(** ** A piece that passes its check *)

(** A loop over [peers_] whose body loses no peer. *)
Lemma safe_visits w body :
  linked w →
  (∀ w' p, linked w' → is_Some (peers w' !! p) → safe (body p) (λ _, stays w') w') →
  safe (for_peers (order (peers w)) body) (λ _, stays w) w.
Proof.
  intros Hl Hb. apply safe_for_peers; [by apply stays_refl|..].
  - intros w' p H Hp%order_registered. by apply H.
  - intros w' p H Hp%order_registered. eapply safe_mono; [apply Hb; [apply H|by apply H]|].
    intros u w2 _ H2. exact (stays_trans _ _ _ H H2).
Qed.

Lemma safe_reset w p i :
  linked w → is_Some (peers w !! p) → safe (reset_active_piece p i) (λ _, stays w) w.
Proof.
  intros Hl [st Hst]. unfold reset_active_piece. do 2 safe_step. apply safe_when; intros _; [|by apply stays_refl].
  safe_step. eapply stays_put; [done|by eexists|done..].
Qed.

Lemma safe_cancels w i p kept rest :
  linked w → is_Some (peers w !! p) → safe (cancel_requests i p kept rest) (λ _, stays w) w.
Proof.
  revert w kept. induction rest as [|r rest IH]; intros w kept Hl Hp; cbn [cancel_requests];
    [safe_step; by apply stays_refl|].
  destruct (r_piece r =? i); [|by apply IH]. apply safe_then; [by apply safe_told|].
  intros u w1 _ [Hl1 H1]. destruct (H1 p Hp) as [st Hst]. do 2 safe_step. apply safe_then.
  - safe_step. eapply stays_put; [done|by eexists|done..].
  - intros u' w2 _ [Hl2 H2]. apply IH; [done|]. apply H2. by eexists.
Qed.

Lemma safe_cancel_all w i : linked w → safe (cancel_piece_requests i) (λ _, stays w) w.
Proof.
  intros Hl. unfold cancel_piece_requests. do 2 safe_step. apply safe_visits; [done|].
  intros w' p Hl' [st Hst]. do 2 safe_step. apply safe_then; [apply safe_cancels; [done|by eexists]|].
  intros u w1 _ [Hl1 H1]. apply (safe_reset w1 p i); [done|]. apply H1. by eexists.
Qed.

Lemma safe_announce w i : linked w → safe (broadcast_have i) (λ _, stays w) w.
Proof. intros Hl. unfold broadcast_have. do 2 safe_step. apply safe_visits; [done|]. intros. by apply safe_told. Qed.

Lemma safe_valid_piece w p i :
  linked w → is_Some (peers w !! p) → validate_piece (pm w) i = Ok true →
  safe (piece_received p i) (λ _, stays w) w.
Proof.
  intros Hl Hp Hv. unfold piece_received. do 3 safe_step. eapply safe_lift; [exact Hv|].
  apply safe_then; [|intros u w1 _ [Hl1 H1]; apply safe_reset; [done|by apply H1]].
  do 4 safe_step. set (w2 := set_pm _ _).
  assert (stays w w2) as H2 by (by apply stays_same).
  eapply (safe_mono _ (λ _, stays w2)); [|intros u w3 _ H3; exact (stays_trans _ _ _ H2 H3)].
  apply safe_then; [apply safe_cancel_all, H2|]. intros u w3 _ [Hl3 _]. by apply safe_announce.
Qed.

(** ** Messages *)

Lemma safe_choked w p st :
  linked w → is_Some (peers w !! p) → safe (handle_choke p st) (λ _, stays w) w.
Proof.
  intros Hl Hp. unfold handle_choke. safe_step. unfold safe at 1. rewrite for_each_failed_run.
  safe_step. by eapply stays_put.
Qed.

Lemma safe_bits w p st bits :
  Good w → linked w → peers w !! p = Some st → safe (handle_bitfield p st bits) (λ _, stays w) w.
Proof.
  intros Hi Hl Hst. unfold handle_bitfield. apply safe_then.
  - unfold replace_bitfield. repeat safe_step. eapply stays_put; [done|by eexists|done..].
  - intros b w1 E1 [Hl1 H1]. apply (replace_bitfield_inv _ _ _ _ _ _ Hi Hst) in E1 as Hi1.
    assert (is_Some (peers w1 !! p)) as Hp1 by (apply H1; by eexists).
    apply safe_then; [by apply safe_interest|]. intros u w2 E2 [Hl2 H2].
    destruct (express_interest_inv _ _ _ _ _ _ _ Hi1 E2) as [Hi2 _]. apply safe_top_up; [done|done|by apply H2].
Qed.

Lemma safe_has w p st idx :
  linked w → peers w !! p = Some st → safe (handle_have p st idx) (λ _, stays w) w.
Proof.
  intros Hl Hst. unfold handle_have. destruct (_ <? _); [|by apply stays_refl]. apply safe_then.
  - apply safe_when; intros _; [|by apply stays_refl]. repeat safe_step. eapply stays_put; [done|by eexists|done..].
  - intros u w1 _ [Hl1 H1]. do 2 safe_step. apply safe_interest; [done|]. apply H1. by eexists.
Qed.

(** A block that does not complete a piece that fails its check. *)
Definition block_fine w (i begin : Z) (block : list byte) : Prop :=
  ∀ manager, block_received (pm w) i begin block = Ok (true, manager) → validate_piece manager i = Ok true.

Lemma safe_block w p st i begin block :
  Good w → linked w → peers w !! p = Some st → 0 ≤ i → 0 ≤ begin → block_fine w i begin block →
  safe (handle_piece p st i begin block) (λ _, stays w) w.
Proof.
  intros Hi Hl Hst Hir Hb Hf. unfold handle_piece. apply safe_then.
  - unfold receive_block. destruct (block_received_wf (pm w) i begin block) as (r & manager & E & _);
      [apply Hi|done|done|].
    repeat safe_step. eapply safe_lift; [exact E|]. cbv iota beta. repeat safe_step.
    set (w1 := set_pm manager _).
    assert (stays w w1) as H1 by (eapply stays_put; [done|by eexists|done..]).
    apply safe_when; intros Er; [|done]. subst r.
    eapply safe_mono; [apply (safe_valid_piece w1); [apply H1|apply H1; by eexists|by apply Hf]|].
    intros u w2 _ H2. exact (stays_trans _ _ _ H1 H2).
  - intros u w1 E [Hl1 H1]. apply (receive_block_inv _ _ _ _ _ _ _ _ Hi Hst Hir Hb) in E as Hi1.
    apply safe_top_up; [done|done|]. apply H1. by eexists.
Qed.

Definition message_fine w (msg : PeerMessage) : Prop :=
  match msg with PieceMsg i begin block => block_fine w i begin block | _ => True end.

Lemma safe_any_message w p msg :
  Good w → linked w → msg_ok msg → (is_Some (peers w !! p) → message_fine w msg) →
  safe (handle_peer_message p msg) (λ _, stays w) w.
Proof.
  intros Hi Hl Hm Hf. unfold handle_peer_message. do 2 safe_step.
  destruct (peers w !! p) as [st|] eqn:Hst; [|by apply stays_refl]. specialize (Hf (mk_is_Some _ _ eq_refl)).
  destruct (proj2 Hl p) as (c & Hc & _); [by eexists|].
  destruct msg; try by apply stays_refl.
  - apply safe_choked; [done|by eexists].
  - apply safe_fill_pipeline; [done|done|by eexists].
  - by apply safe_has.
  - by apply safe_bits.
  - destruct Hm. by apply safe_block.
Qed.

(** ** Connections *)

(** No undefined behaviour is reached. *)
Definition sure {A} (x : M A) w : Prop := safe x (λ _ _, True) w.

Lemma sure_bind {A B} (x : M A) (f : A → M B) w :
  sure x w → (∀ a w', x w = Ok (a, w') → sure (f a) w') → sure (x ≫= f) w.
Proof. intros Hx Hf. apply safe_bind. eapply safe_mono; [exact Hx|]. intros a w' E _. by apply Hf. Qed.

Lemma safe_sure {A} (x : M A) Q w : safe x Q w → sure x w.
Proof. intros H. eapply safe_mono; [exact H|]. done. Qed.

Lemma sure_when b x w : (b = true → sure x w) → sure (when b x) w.
Proof. intros H. by apply safe_when. Qed.

Lemma sure_unregister p w : sure (unregister_peer p) w.
Proof.
  destruct (peers w !! p) as [st|] eqn:E.
  - unfold sure, safe. by rewrite (unregister_run w p st E).
  - unfold sure, unregister_peer. do 2 safe_step. by rewrite E.
Qed.

Lemma sure_call_off p w : is_Some (conns w !! p) → sure (call_on_disconnect p) w.
Proof.
  intros [c Hc]. unfold sure, call_on_disconnect. do 2 safe_step.
  destruct (on_disconnect c) as [[key|]|]; [|apply sure_unregister|done].
  unfold run_on_disconnect, on_disconnect_callbacks. apply sure_bind; [apply sure_unregister|done].
Qed.

Lemma altered (cs : gmap Z Conn) p q f : is_Some (cs !! q) → is_Some (alter f p cs !! q).
Proof. rewrite lookup_alter_is_Some. done. Qed.

Lemma sure_disconnect p w : is_Some (conns w !! p) → sure (disconnect p) w.
Proof.
  intros [c Hc]. destruct (decide (c_state c = Disconnected)) as [E|E].
  - unfold sure, disconnect. do 2 safe_step. by rewrite bool_decide_eq_true_2.
  - destruct (disconnect_run w p c Hc E) as (w1 & Ew & ->). unfold sure, safe. rewrite Ew.
    apply sure_call_off. apply altered. by eexists.
Qed.

Lemma sure_update_epoll p w : is_Some (conns w !! p) → sure (update_epoll_interests p) w.
Proof. intros [c Hc]. eapply safe_sure. by eapply safe_update_epoll. Qed.

Lemma sure_handle_write p w : is_Some (conns w !! p) → sure (handle_write p) w.
Proof.
  intros [c Hc]. unfold sure, handle_write. do 2 safe_step.
  case_bool_decide; [apply sure_update_epoll; by eexists|]. do 2 safe_step.
  destruct (if c_fd c =? -1 then _ else _) as [[total error] script]. apply sure_bind; [done|].
  intros u w1 E. inv_m E. apply sure_bind; [by apply sure_when|]. intros u w2 E.
  assert (is_Some (conns w2 !! p)) as H2.
  { apply when_ok in E as [[_ E]|[_ ->]]; [|by eexists]. inv_m E. apply altered. by eexists. }
  destruct error; [by apply sure_disconnect|by apply sure_update_epoll].
Qed.

Hypothesis info_hash_length : zlen info_hash_ = 20.
Hypothesis peer_id_length : zlen our_peer_id_ = 20.

Lemma sure_send_handshake p w : is_Some (conns w !! p) → sure (send_handshake p) w.
Proof.
  intros [c Hc]. unfold sure, send_handshake. safe_step. eapply safe_lift.
  { apply handshake_serialize_wire. by split_and!. }
  do 4 safe_step. apply sure_handle_write, altered. by eexists.
Qed.

Lemma sure_registered p status reg_ok w : is_Some (conns w !! p) → sure (registered p status reg_ok) w.
Proof.
  intros Hc. unfold registered. destruct reg_ok; simpl.
  - apply sure_bind.
    + destruct status; try done. unfold sure. do 2 safe_step. by apply sure_send_handshake, altered.
    + intros u w1 E. apply sure_update_epoll. apply elem_of_dom. destruct status; try (inv_m E; by apply elem_of_dom).
      inv_m E. inv_m E0. apply (wires_send_handshake nowhere) in E as [_ _ Hd]. apply Hd, elem_of_dom.
      by apply altered.
  - unfold sure. do 4 safe_step. by apply sure_call_off, altered, altered.
Qed.

Lemma sure_connect p w : is_Some (conns w !! p) → sure (connect p) w.
Proof.
  intros Hp. pose proof Hp as [c Hc]. unfold sure, connect. do 2 safe_step.
  case_bool_decide; [|done]. simpl. do 4 safe_step.
  destruct (default _ _) as [[status fd] ctl_ok]. do 2 safe_step. destruct status.
  3:{ do 2 safe_step. by apply sure_call_off, altered, altered. }
  all: do 4 safe_step; destruct (register_fd _ _ _ _ _) as [reg_ok l]; do 2 safe_step;
    by apply sure_registered, altered, altered.
Qed.

Lemma sure_connect_to_peer ip port w : sure (connect_to_peer ip port) w.
Proof.
  unfold sure, connect_to_peer. do 2 safe_step. destruct (_ <=? _); [done|]. do 2 safe_step.
  destruct (is_blacklisted _ _ _); [done|]. case_bool_decide; [done|]. do 8 safe_step.
  apply sure_connect, altered. simpl. rewrite lookup_insert_eq. by eexists.
Qed.

Lemma sure_add_peers infos w : sure (add_peers infos) w.
Proof.
  revert w. induction infos as [|info infos IH]; intros w; cbn [add_peers]; [done|].
  unfold sure. do 2 safe_step. destruct (_ <=? _); [done|]. do 2 safe_step.
  destruct (is_blacklisted _ _ _); [apply IH|]. case_bool_decide; [apply IH|].
  apply sure_bind; [apply sure_connect_to_peer|]. intros u w1 _. apply IH.
Qed.

(** ** Receiving *)

(** What holds between two rounds of the message loop. *)
Definition apt w : Prop := Good w ∧ wired nowhere w ∧ willing w.

Lemma apt_linked w : apt w → linked w.
Proof.
  intros (Hi & Hw & Hs). split; [done|]. intros q [st Hst].
  destruct (registered_conn _ _ _ _ Hi Hst) as (c & Hc & _ & Hact & _). exists c. split; [done|].
  destruct (wired_opened _ _ Hw q c Hc) as [E|[E|?]]; congruence.
Qed.

Lemma wires_apt w w' : apt w → wires nowhere w w' → Good w' → apt w'.
Proof. intros (_ & Hw & Hs) [H1 H2 _] Hi. split_and!; auto. Qed.

Lemma wires_object w w' p : wires nowhere w w' → is_Some (conns w !! p) → is_Some (conns w' !! p).
Proof. intros [_ _ Hd]. rewrite <- !elem_of_dom. apply Hd. Qed.

Lemma linked_upd w p f : (∀ c, c_fd (f c) = c_fd c) → linked w → linked (set_conns (alter f p) w).
Proof.
  intros Hf [Hw Hl]. split; [done|]. intros q Hq. destruct (Hl q Hq) as (c & Hc & Hfd). simpl.
  destruct (decide (q = p)) as [->|]; [|exists c; by rewrite lookup_alter_ne].
  exists (f c). rewrite lookup_alter_eq, Hc. split; [done|congruence].
Qed.

(** The next message of [p] is one the program cannot handle: its length prefix is too
    large for the arithmetic of [deserialize], or it is the last block of a piece that
    fails its check, or that the torrent does not have. *)
Definition harmful w (p : Z) : bool :=
  match conns w !! p with
  | Some c =>
      bool_decide (c_state c = Active) &&
      match deserialize (rx_buffer c) with
      | Ok (Some (PieceMsg i begin block), _) =>
          bool_decide (is_Some (peers w !! p)) && on_message c &&
          match block_received (pm w) i begin block with
          | Ok (true, manager) => match validate_piece manager i with Ok true => false | _ => true end
          | _ => false
          end
      | UB _ => true
      | _ => false
      end
  | None => false
  end.

Lemma sure_handshake w p c h :
  linked w → conns w !! p = Some c → c_fd c ≠ -1 → sure (run_on_handshake p h) w.
Proof.
  intros [Hs Hl] Hc Hfd. simpl. unfold register_peer, sure. do 4 safe_step.
  set (f := λ c, with_callbacks (on_handshake c) true (Some CoordinatorCb) c). set (w1 := set_conns _ _).
  eapply safe_sure, (safe_told w1); [|simpl; rewrite lookup_insert_eq; by eexists|done]. split; [done|].
  intros q Hq. simpl. destruct (decide (q = p)) as [->|Hne].
  - exists (f c). by rewrite lookup_alter_eq, Hc.
  - rewrite lookup_alter_ne by done. apply Hl. simpl in Hq. by rewrite lookup_insert_ne in Hq by done.
Qed.

Lemma sure_shaking w p c :
  apt w → conns w !! p = Some c → c_state c = Handshaking → sure (process_round p) w.
Proof.
  intros Ha Hc Hst. unfold sure, process_round. do 2 safe_step. rewrite Hst.
  destruct (_ <? _); [done|].
  destruct (handshake_deserialize (ztake 68 (rx_buffer c))) as [h| | |] eqn:E.
  2,4: by unfold safe, lift, mbind, M_bind.
  2:{ pose proof (handshake_deserialize_defined (ztake 68 (rx_buffer c))) as H. by rewrite E in H. }
  safe_step. eapply safe_lift; [done|]. destruct h as [h|].
  - do 4 safe_step. apply sure_bind; [|done]. apply sure_when. intros _.
    eapply sure_handshake; [do 2 (apply linked_upd; [done|]); by apply apt_linked| |].
    + simpl. by rewrite !lookup_alter_eq, Hc.
    + simpl. destruct Ha as (_ & Hw & _). destruct (wired_opened _ _ Hw p c Hc) as [?|[?|?]]; congruence.
  - apply sure_bind; [apply sure_disconnect; by eexists|done].
Qed.

Lemma sure_active w p c :
  apt w → conns w !! p = Some c → c_state c = Active → harmful w p = false → sure (process_round p) w.
Proof.
  intros Ha Hc Hst Hh. unfold harmful in Hh. rewrite Hc, bool_decide_eq_true_2 in Hh by done.
  unfold sure, process_round. do 2 safe_step. rewrite Hst. destruct (deserialize (rx_buffer c)) as [[msg_opt n]|e|what|] eqn:E.
  2,4: by unfold safe, lift, mbind, M_bind. 2:{ done. }
  safe_step. eapply safe_lift; [done|]. cbv iota beta.
  destruct (bool_decide (msg_opt = None) && (n =? 0)); [done|].
  set (w1 := if 0 <? n then set_conns (alter (with_rx (zdrop n (rx_buffer c))) p) w else w).
  assert (Good w1 ∧ linked w1 ∧ peers w1 = peers w ∧ pm w1 = pm w) as (Hi1 & Hl1 & Ep & Em).
  { unfold w1. apply apt_linked in Ha as Hl. destruct Ha as (Hi & _). destruct (0 <? n); [|done].
    split_and!; [|by apply linked_upd|done..].
    by destruct (upd_conn_inv (m := m) _ _ w _ tt p (with_rx (zdrop n (rx_buffer c))) ltac:(done) Hi eq_refl). }
  apply safe_bind. eapply (safe_mono _ (λ _ w', w' = w1));
    [apply safe_when; unfold w1; intros ->; done|]. intros u w' _ ->.
  destruct msg_opt as [msg|]; [|done]. do 2 safe_step. apply sure_bind; [|done].
  apply sure_when. intros Hm. eapply safe_sure, safe_any_message.
  - by destruct (upd_conn_inv (m := m) _ _ w1 _ tt p (received_flags msg) ltac:(intros []; by destruct msg) Hi1 eq_refl).
  - apply linked_upd; [|done]. intros c'. by destruct msg.
  - by eapply deserialize_msg_ok.
  - simpl. rewrite Ep. intros Hp. destruct msg as [| | | | | | | |i begin block| |]; try done.
    intros manager Hb. simpl in Hb. rewrite Em in Hb. cbn [andb] in Hh.
    rewrite bool_decide_eq_true_2, Hm, Hb in Hh by done. by destruct (validate_piece manager i) as [[]| | |].
Qed.

Lemma sure_round w p : apt w → is_Some (conns w !! p) → harmful w p = false → sure (process_round p) w.
Proof.
  intros Ha [c Hc] Hh. destruct (c_state c) eqn:Hst.
  3:{ by eapply sure_shaking. }
  3:{ by eapply sure_active. }
  all: unfold sure, process_round; do 2 safe_step; by rewrite Hst.
Qed.

(** The worlds the rounds of the message loop of [p] go through. *)
Inductive reads (p : Z) : World → World → Prop :=
| reads_here w : reads p w w
| reads_on w w1 w2 : process_round p w = Ok (true, w1) → reads p w1 w2 → reads p w w2.

Lemma sure_loop f w p :
  apt w → is_Some (conns w !! p) → (∀ w2, reads p w w2 → harmful w2 p = false) → sure (process_loop f p) w.
Proof.
  revert w. induction f as [|f IH]; intros w Ha Hp Hh; [done|]. pose proof Hp as [c Hc].
  unfold sure. cbn [process_loop]. do 2 safe_step. case_bool_decide; [done|].
  apply sure_bind; [apply sure_round; [done|done|apply Hh; constructor]|]. intros b w1 E.
  destruct b; [|done]. apply (wires_process_round nowhere) in E as Hw1.
  apply IH; [eapply wires_apt; [exact Ha|done|apply (process_round_inv _ _ _ _ (proj1 Ha) E)]|by eapply wires_object|].
  intros w2 H2. apply Hh. by econstructor.
Qed.

(** ** Events *)

(** A connection that was being established sends its handshake. *)
Definition greets (events p : Z) : M unit :=
  c ← conn p;
  when (bool_decide (c_state c = Connecting) && any_of events EPOLLOUT)
    (_ ← upd_conn p (with_state Handshaking); send_handshake p).

(** The event brings bytes: to which connection, and the world the message loop starts
    in. *)
Definition brings w (e : event) : option (Z * World) :=
  match e with
  | Events fd events so_error recvs =>
      p ← fd_callbacks (fds w) !! fd;
      c ← conns w !! p;
      if any_of events (Z.lor EPOLLERR EPOLLHUP) || any_of events EPOLLRDHUP
         || bool_decide (c_state c = Connecting) && any_of events EPOLLOUT && so_error
         || negb (any_of events EPOLLIN) then None
      else
        match greets events p w with
        | Ok (_, w0) =>
            c0 ← conns w0 !! p;
            if c_fd c0 =? -1 then None
            else
              match recv_loop recvs (rx_buffer c0) with
              | (rx, false, false) => Some (p, set_conns (alter (with_rx rx) p) w0)
              | _ => None
              end
        | _ => None
        end
  | _ => None
  end.

(** None of the messages an event brings is harmful when its turn comes. *)
Definition harmless w (e : event) : Prop :=
  ∀ p w1 w2, brings w e = Some (p, w1) → reads p w1 w2 → harmful w2 p = false.

Lemma sure_greets w p ev : is_Some (conns w !! p) → sure (greets ev p) w.
Proof.
  intros [c Hc]. unfold sure, greets. do 2 safe_step. apply sure_when. intros _. unfold sure. do 2 safe_step.
  apply sure_send_handshake, altered. by eexists.
Qed.

Lemma greets_apt w p ev w0 :
  apt w → greets ev p w = Ok (tt, w0) → apt w0 ∧ (is_Some (conns w !! p) → is_Some (conns w0 !! p)).
Proof.
  intros Ha H. unfold greets in H. inv_m H. inv_m H0. apply when_ok in H as [[E H]|[_ ->]]; [|done].
  apply andb_true_iff in E as [E%bool_decide_eq_true _]. inv_m H.
  assert (wires nowhere w w0) as Hw.
  { etrans; [by eapply (wires_handshaking nowhere p x)|]. inv_m H1. by eapply wires_send_handshake. }
  split; [|by apply wires_object]. eapply wires_apt; [exact Ha|done|].
  eapply state_handshaking_inv in H1; [|apply Ha|done|congruence|congruence].
  by destruct (send_handshake_inv _ _ _ _ _ _ H1 H).
Qed.

Lemma sure_read w p recvs :
  apt w → is_Some (conns w !! p) →
  (∀ c rx w2, conns w !! p = Some c → c_fd c ≠ -1 → recv_loop recvs (rx_buffer c) = (rx, false, false) →
     reads p (set_conns (alter (with_rx rx) p) w) w2 → harmful w2 p = false) →
  sure (handle_read recvs p) w.
Proof.
  intros Ha [c Hc] Hh. unfold sure, handle_read. do 2 safe_step.
  destruct (Z.eqb_spec (c_fd c) (-1)) as [Efd|Efd].
  { cbn [recv_loop]. do 2 safe_step. apply sure_disconnect, altered. by eexists. }
  destruct (recv_loop recvs (rx_buffer c)) as [[rx cl] er] eqn:Er. do 2 safe_step.
  set (w1 := set_conns _ w). assert (is_Some (conns w1 !! p)) as Hp by (apply altered; by eexists).
  destruct cl; [by apply sure_disconnect|]. destruct er; [by apply sure_disconnect|].
  unfold process_rx_buffer. destruct Hp as [c1 Hc1]. do 2 safe_step. apply sure_loop; [|by eexists|].
  - apply (wires_apt w); [done| |].
    + apply (wires_upd nowhere). intros c'. split; [done|split; [done|by left]].
    + by destruct (upd_conn_inv (m := m) _ _ w _ tt p (with_rx rx) ltac:(done) (proj1 Ha) eq_refl).
  - intros w2 H2. by apply (Hh c rx).
Qed.

Lemma sure_events w fd p ev err recvs :
  apt w → fd_callbacks (fds w) !! fd = Some p →
  harmless w (Events fd ev err recvs) →
  sure (handle_events ev err recvs p) w.
Proof.
  intros Ha Hfd Hh. pose proof Ha as (_ & Hw & _). pose proof (wired_watched _ _ Hw fd p Hfd) as Hp.
  pose proof Hp as [c Hc]. unfold handle_events.
  destruct (any_of ev (Z.lor EPOLLERR EPOLLHUP)) eqn:E1; [by apply sure_disconnect|].
  destruct (any_of ev EPOLLRDHUP) eqn:E2; [by apply sure_disconnect|].
  unfold sure. do 2 safe_step.
  destruct (bool_decide (c_state c = Connecting) && any_of ev EPOLLOUT && err) eqn:E3; [by apply sure_disconnect|].
  assert (greets ev p w = when (bool_decide (c_state c = Connecting) && any_of ev EPOLLOUT)
      (_ ← upd_conn p (with_state Handshaking); send_handshake p) w) as Hg.
  { unfold greets. by rewrite (bindM_run _ _ _ _ _ (conn_run _ _ _ Hc)). }
  apply sure_bind.
  { pose proof (sure_greets w p ev Hp) as Hs. unfold sure, safe in Hs |- *. by rewrite <- Hg. }
  intros [] w0 E. rewrite <- Hg in E. destruct (greets_apt _ _ _ _ Ha E) as [Ha0 Hp0]. specialize (Hp0 Hp).
  apply sure_bind.
  - apply sure_when. intros Ein. apply sure_read; [done|done|]. intros c0 rx w2 Hc0 Efd Er. apply Hh.
    unfold brings. rewrite Hfd. cbn [mbind option_bind]. rewrite Hc. cbn [mbind option_bind].
    rewrite E1, E2, E3, Ein. cbn [orb negb]. rewrite E, Hc0. cbn [mbind option_bind].
    by rewrite (proj2 (Z.eqb_neq _ _)), Er.
  - intros [] w1 E'. apply sure_when. intros _. apply sure_handle_write.
    apply when_ok in E' as [[_ E']|[_ ->]]; [|done].
    apply (wires_handle_read nowhere) in E'. by eapply wires_object.
Qed.

Lemma sure_run_event w e :
  apt w → harmless w e → sure (run_event e) w.
Proof.
  intros Ha Hh. destruct e; unfold run_event.
  - apply sure_add_peers.
  - apply sure_connect_to_peer.
  - unfold sure. do 2 safe_step. destruct (fd_callbacks (fds w) !! fd) as [p|] eqn:Hfd; [|done].
    by eapply sure_events.
  - done.
Qed.

(** ** Harmful messages *)

(** A block for a piece the program cannot check. *)
Lemma piece_message_ub w p i begin block manager :
  Good w → is_Some (peers w !! p) → 0 ≤ i → 0 ≤ begin →
  block_received (pm w) i begin block = Ok (true, manager) → validate_piece manager i ≠ Ok true →
  ∃ what, handle_peer_message p (PieceMsg i begin block) w = UB what.
Proof.
  intros Hi [st Hst] Hir Hb Hrec Hval. destruct (validate_piece manager i) as [[]|e|what|] eqn:Hv; [done| | | |].
  - eexists. by eapply piece_message_corrupted.
  - pose proof (ends_validate_piece manager i) as H. by rewrite Hv in H.
  - exists what. unfold handle_peer_message, gets. rewrite (bindM_run _ _ _ _ _ eq_refl), Hst. unfold handle_piece.
    apply bindM_ub. unfold receive_block. erewrite bindM_run by done.
    unfold gets. rewrite (bindM_run _ _ _ _ _ eq_refl).
    erewrite bindM_run; [|unfold lift; simpl; by rewrite Hrec]. cbv iota beta.
    rewrite (bindM_run _ _ _ _ _ eq_refl). simpl when. unfold piece_received, gets.
    rewrite (bindM_run _ _ _ _ _ eq_refl). apply bindM_ub. unfold lift. simpl. by rewrite Hv.
  - pose proof (ends_validate_piece manager i) as H. by rewrite Hv in H.
Qed.

Lemma harmful_round w p : Good w → harmful w p = true → ∃ what, process_round p w = UB what.
Proof.
  intros Hi Hh. unfold harmful in Hh. destruct (conns w !! p) as [c|] eqn:Hc; [|done].
  apply andb_true_iff in Hh as [Hst%bool_decide_eq_true Hh]. unfold process_round.
  rewrite (bindM_run _ _ _ _ _ (conn_run _ _ _ Hc)), Hst.
  destruct (deserialize (rx_buffer c)) as [[[msg|] n]|e|what|] eqn:E; try done.
  2:{ exists what. apply bindM_ub. unfold lift. done. }
  destruct msg as [| | | | | | | |i begin block| |]; try done. apply deserialize_msg_ok in E as [Hir Hb].
  apply andb_true_iff in Hh as [[Hp%bool_decide_eq_true Hm]%andb_true_iff Hh].
  destruct (block_received (pm w) i begin block) as [[[] manager]| | |] eqn:Hrec; try done.
  erewrite bindM_run; [|unfold lift; done]. cbv iota beta. cbn [andb].
  rewrite (bool_decide_eq_false_2 (Some (PieceMsg i begin block) = None)) by done. cbn [andb].
  set (w1 := if 0 <? n then set_conns (alter (with_rx (zdrop n (rx_buffer c))) p) w else w).
  assert (Good w1 ∧ peers w1 = peers w ∧ pm w1 = pm w) as (Hi1 & Ep & Em).
  { unfold w1. destruct (0 <? n); [|done]. split; [|done].
    by destruct (upd_conn_inv (m := m) _ _ w _ tt p (with_rx (zdrop n (rx_buffer c))) ltac:(done) Hi eq_refl). }
  rewrite (bindM_run _ _ _ tt w1) by (unfold w1; by destruct (0 <? n)).
  set (w2 := set_conns (alter (received_flags (PieceMsg i begin block)) p) w1).
  rewrite (bindM_run _ _ _ tt w2) by done. rewrite Hm. cbn [when].
  destruct (piece_message_ub w2 p i begin block manager) as [what Hub]; try done.
  - by destruct (upd_conn_inv (m := m) _ _ w1 _ tt p (received_flags (PieceMsg i begin block)) ltac:(done) Hi1 eq_refl).
  - simpl. by rewrite Ep.
  - simpl. by rewrite Em.
  - intros Hv. by rewrite Hv in Hh.
  - exists what. by apply bindM_ub.
Qed.

(** With nothing left in the buffer there is nothing to go on with. *)
Lemma idle_round w p c :
  conns w !! p = Some c → rx_buffer c = [] →
  harmful w p = false ∧ ∀ w1, process_round p w ≠ Ok (true, w1).
Proof.
  intros Hc Erx. split.
  - unfold harmful. rewrite Hc, Erx. by destruct (bool_decide _).
  - intros w1. unfold process_round. rewrite (bindM_run _ _ _ _ _ (conn_run _ _ _ Hc)), Erx.
    by destruct (c_state c).
Qed.

Lemma harmful_loop f p w w2 :
  reads p w w2 → Good w → harmful w2 p = true →
  process_loop f p w = Fuel ∨ ∃ what, process_loop f p w = UB what.
Proof.
  intros H. revert f. induction H as [w|w w1 w2 E H IH]; intros [|f] Hi Hh; try (by left).
  - right. destruct (harmful_round w p Hi Hh) as [what Eub]. exists what. cbn [process_loop].
    destruct (conns w !! p) as [c|] eqn:Hc; [|unfold harmful in Hh; by rewrite Hc in Hh].
    rewrite (bindM_run _ _ _ _ _ (conn_run _ _ _ Hc)).
    rewrite bool_decide_eq_false_2; [by apply bindM_ub|].
    intros Erx. destruct (idle_round w p c Hc Erx). congruence.
  - cbn [process_loop]. destruct (conns w !! p) as [c|] eqn:Hc.
    2:{ unfold process_round in E. inv_m E. inv_m E0. congruence. }
    rewrite (bindM_run _ _ _ _ _ (conn_run _ _ _ Hc)). rewrite bool_decide_eq_false_2.
    + rewrite (bindM_run _ _ _ _ _ E). apply IH; [by eapply process_round_inv|done].
    + intros Erx. by apply (idle_round w p c Hc Erx) in E.
Qed.

Lemma bindM_fuel_ub {A B} (x : M A) (f : A → M B) w :
  (x w = Fuel ∨ ∃ what, x w = UB what) → (x ≫= f) w = Fuel ∨ ∃ what, (x ≫= f) w = UB what.
Proof. unfold mbind, M_bind. intros [->|[what ->]]; [by left|right; by exists what]. Qed.

(** A harmful message ends in undefined behaviour. *)
Lemma harmful_event w e p w1 w2 :
  Good w → ends (run_event e w) → brings w e = Some (p, w1) → reads p w1 w2 → harmful w2 p = true →
  ∃ what, run_event e w = UB what.
Proof.
  intros Hi He Hb H2 Hh. enough (run_event e w = Fuel ∨ ∃ what, run_event e w = UB what) as [E|?];
    [by rewrite E in He|done|].
  destruct e as [| |fd ev err recvs|]; try done. unfold brings in Hb.
  destruct (fd_callbacks (fds w) !! fd) as [p'|] eqn:Hfd; [|done]. cbn [mbind option_bind] in Hb.
  destruct (conns w !! p') as [c|] eqn:Hc; [|done]. cbn [mbind option_bind] in Hb.
  destruct (any_of ev (Z.lor EPOLLERR EPOLLHUP)) eqn:E1; [done|].
  destruct (any_of ev EPOLLRDHUP) eqn:E2; [done|]. cbn [orb] in Hb.
  destruct (_ && _ && err) eqn:E3; [done|]. destruct (any_of ev EPOLLIN) eqn:E4; [|done]. cbn [orb negb] in Hb.
  destruct (greets ev p' w) as [[[] w0]| | |] eqn:Eg; try done.
  destruct (conns w0 !! p') as [c0|] eqn:Hc0; [|done]. cbn [mbind option_bind] in Hb.
  destruct (c_fd c0 =? -1) eqn:Efd; [done|].
  destruct (recv_loop recvs (rx_buffer c0)) as [[rx []] []] eqn:Er; try done. injection Hb as -> <-.
  assert (Good w0) as Hi0.
  { unfold greets in Eg. inv_m Eg. inv_m Eg0. apply when_ok in Eg as [[E Eg]|[_ ->]]; [|done].
    apply andb_true_iff in E as [E%bool_decide_eq_true _]. inv_m Eg.
    eapply state_handshaking_inv in Eg1; [|done|done|congruence|congruence].
    by destruct (send_handshake_inv _ _ _ _ _ _ Eg1 Eg). }
  unfold run_event, gets. rewrite (bindM_run _ _ _ _ _ eq_refl), Hfd. unfold handle_events. rewrite E1, E2.
  rewrite (bindM_run _ _ _ _ _ (conn_run _ _ _ Hc)), E3.
  unfold greets in Eg. rewrite (bindM_run _ _ _ _ _ (conn_run _ _ _ Hc)) in Eg. rewrite (bindM_run _ _ _ _ _ Eg).
  apply bindM_fuel_ub. rewrite E4. cbn [when]. unfold handle_read.
  rewrite (bindM_run _ _ _ _ _ (conn_run _ _ _ Hc0)), Efd, Er. erewrite bindM_run by done.
  unfold process_rx_buffer. erewrite bindM_run; [|apply conn_run; simpl; by rewrite lookup_alter_eq, Hc0].
  eapply harmful_loop; [exact H2| |done].
  by destruct (upd_conn_inv (m := m) _ _ w0 _ tt p (with_rx rx) ltac:(done) Hi0 eq_refl).
Qed.

(** Whether an event is harmless can be tried out, for as many rounds as there are. *)
Fixpoint clean (fuel : nat) (p : Z) w : bool :=
  negb (harmful w p) &&
  match process_round p w, fuel with
  | Ok (true, w1), S f => clean f p w1
  | Ok (true, _), O => false
  | _, _ => true
  end.

Lemma clean_reads fuel p w w2 : clean fuel p w = true → reads p w w2 → harmful w2 p = false.
Proof.
  intros Hc H. revert fuel Hc. induction H as [w|w w1 w2 E H IH]; intros fuel Hc.
  - destruct fuel; apply andb_true_iff in Hc as [Hc _]; by apply negb_true_iff in Hc.
  - destruct fuel as [|fuel]; cbn [clean] in Hc; apply andb_true_iff in Hc as [_ Hc]; rewrite E in Hc; [done|].
    by apply (IH fuel).
Qed.

Lemma clean_harmless fuel w e :
  match brings w e with Some (p, w1) => clean fuel p w1 | None => true end = true → harmless w e.
Proof. intros H p w1 w2 E. rewrite E in H. by apply clean_reads with fuel. Qed.
End Handled.
