(* ===== verification/Sample.v ===== *)
(** * A small torrent and a run over it

    Concrete instances of the program's parameters and the worlds a short download
    goes through, on which the theorems about reachable worlds are applied. *)

From S2P Require Import Prelude StdString Bencode Bitfield Hasher Torrent PieceManager.
From S2P Require Import PiecePicker PeerMessage Socket EventLoop World PeerConnection Coordinator.
From S2P Require Import System Handlers Steps.

(** Two pieces of 16 and 14 bytes; no 14 bytes have the second digest. *)
Definition tiny_metadata : TorrentMetadata :=
  mk_torrent (bs "n") (bs "u") [bs "u"] 16 30 2 [toy_digest (zeros 16); replicate 20 x11]
    [mk_file (bs "n") 30 0] [].

#[export] Instance tiny_params : Params := {
  info_hash_ := replicate 20 x22;
  our_peer_id_ := replicate 20 x33;
  max_connections_ := 2;
  num_pieces_ := 2;
}.

#[export] Instance key_order : MapOrder := {
  order m := (map_to_list m).*1;
  order_keys m := Permutation_refl _;
}.

#[export] Instance tiny_params_for : ParamsFor tiny_params tiny_metadata.
Proof.
  constructor; [|done|done]. unfold wf_metadata. simpl. split_and!; vm_compute; done.
Qed.

Definition their_handshake : list byte :=
  x13 :: protocol ++ zeros 8 ++ replicate 20 x22 ++ replicate 20 x44.

Definition run_from (w : World) (es : list event) : World :=
  match run_events es w with Ok (_, w) => w | _ => w end.

(** A peer connects at once, shakes hands, has both pieces and unchokes us: the two
    blocks are asked for. *)
Definition joining : list event :=
  [Kernel (replicate 12 (Sends 1000)) [(Connected, 5, true)];
   ConnectTo (bs "1.2.3.4") 6881;
   Events 5 EPOLLIN false [Received their_handshake];
   Events 5 EPOLLIN false [Received (wire (BitfieldMsg [xc0])); Received (wire UnchokeMsg)]].

Definition joined : World := run_from (start tiny_metadata 0) joining.

(** The first piece comes. *)
Definition first_piece : event :=
  Events 5 EPOLLIN false [Received (wire (PieceMsg 0 0 (zeros 16)))].

Definition downloaded : World := run_from joined [first_piece].

(** The peer's address in these worlds. *)
Definition peer1 : Z := 0.

Lemma joined_ok : run_events joining (start tiny_metadata 0) = Ok (tt, joined).
Proof. vm_compute. reflexivity. Qed.

Lemma downloaded_ok : run_events [first_piece] joined = Ok (tt, downloaded).
Proof. vm_compute. reflexivity. Qed.

(** The kernel will fail the next send. *)
Definition broken : World := run_from joined [Kernel [SendFails] []].
