(* ===== verification/Persist.v ===== *)
(** * What is on disk is verified

    [main] writes each piece to disk from the callback the coordinator calls when the
    piece is complete. Here an event is run and the pieces it completed are written;
    the world and the disk a run reaches are related by rule induction over its steps.
    The writes touch no other state, so carrying them out when the event ends is the
    same as from within it. *)

From S2P Require Import Prelude StdString Bencode Bitfield Hasher Torrent PieceManager Disk.
From S2P Require Import PiecePicker PeerMessage EventLoop World PeerConnection Coordinator.
From S2P Require Import Keeps System Handlers Steps Sample.

Section Persist.
Context `{C : CryptoSHA1} `{R : UniformRng} {prm : Params} {MO : MapOrder} {m : TorrentMetadata}
  {PF : ParamsFor prm m}.

Implicit Types (w : World).

(** ** Completed pieces are only added *)

Definition done_le w w' : Prop := completed w `prefix_of` completed w'.

#[local] Instance done_le_preorder : PreOrder done_le.
Proof. unfold done_le. split; [by intros w|]. intros w1 w2 w3 H1 H2. by etrans. Qed.

Create HintDb done.
#[local] Hint Resolve keeps_ret keeps_gets keeps_lift keeps_conn keeps_peer_state done_le_preorder : done.
#[local] Hint Extern 1 (keeps done_le (put_peer _ _)) =>
  (apply keeps_modify; intros ?; unfold done_le; done) : done.
#[local] Hint Extern 1 (keeps done_le (upd_conn _ _)) =>
  (apply keeps_modify; intros ?; unfold done_le; done) : done.
#[local] Hint Extern 1 (keeps done_le (modify (set_completed _))) =>
  (apply keeps_modify; intros ?; by apply prefix_app_r) : done.
#[local] Hint Extern 2 (keeps done_le (modify _)) =>
  (apply keeps_modify; intros ?; unfold done_le; done) : done.
#[local] Hint Extern 1 (keeps done_le (ub _)) => (by intros ? ? ?) : done.
#[local] Hint Extern 1 (keeps done_le out_of_fuel) => (by intros ? ? ?) : done.

Ltac keep := keep_with ltac:(eauto with done).

Lemma done_request_failed r : keeps done_le (request_failed r).
Proof. unfold request_failed. keep. Qed.
#[local] Hint Resolve done_request_failed : done.

Lemma done_call_on_disconnect p : keeps done_le (call_on_disconnect p).
Proof. unfold call_on_disconnect, run_on_disconnect, on_disconnect_callbacks, unregister_peer. keep. Qed.
#[local] Hint Resolve done_call_on_disconnect : done.

Lemma done_disconnect p : keeps done_le (disconnect p).
Proof. unfold disconnect. keep. Qed.
#[local] Hint Resolve done_disconnect : done.

Lemma done_send_message p msg : keeps done_le (send_message p msg).
Proof. unfold send_message, handle_write, update_epoll_interests. keep. Qed.
#[local] Hint Resolve done_send_message : done.

Lemma done_fill_loop f p : keeps done_le (fill_loop f p).
Proof. induction f as [|f IH]; cbn [fill_loop]; [by intros w a w'|]. unfold fill_round, pick_active, request_block. keep. Qed.

#[local] Hint Resolve done_fill_loop : done.

Lemma done_fill_request_pipeline p : keeps done_le (fill_request_pipeline p).
Proof. unfold fill_request_pipeline. keep. Qed.
#[local] Hint Resolve done_fill_request_pipeline : done.

Lemma done_for_peers keys body :
  (∀ p, keeps done_le (body p)) → keeps done_le (for_peers keys body).
Proof. intros Hb. induction keys as [|p keys IH]; cbn [for_peers]; keep. Qed.

Lemma done_cancel_requests i p kept rest : keeps done_le (cancel_requests i p kept rest).
Proof. revert kept. induction rest as [|r rest IH]; intros kept; cbn [cancel_requests]; keep. Qed.
#[local] Hint Resolve done_cancel_requests : done.

Lemma done_piece_received p i : keeps done_le (piece_received p i).
Proof.
  unfold piece_received, cancel_piece_requests, broadcast_have, on_peer_corrupted, blacklist_peer,
    reset_active_piece. keep; apply done_for_peers; intros q; keep.
Qed.
#[local] Hint Resolve done_piece_received : done.

Lemma done_handle_peer_message p msg : keeps done_le (handle_peer_message p msg).
Proof.
  unfold handle_peer_message, handle_choke, handle_bitfield, replace_bitfield, handle_have,
    handle_piece, receive_block, express_interest, top_off. keep.
Qed.
#[local] Hint Resolve done_handle_peer_message : done.

Lemma done_process_round p : keeps done_le (process_round p).
Proof. unfold process_round. simpl. unfold register_peer. keep. Qed.
#[local] Hint Resolve done_process_round : done.

Lemma done_process_loop f p : keeps done_le (process_loop f p).
Proof. induction f as [|f IH]; cbn [process_loop]; [by intros w a w'|]. keep. Qed.
#[local] Hint Resolve done_process_loop : done.

Lemma done_send_handshake p : keeps done_le (send_handshake p).
Proof. unfold send_handshake, handle_write, update_epoll_interests. keep. Qed.
#[local] Hint Resolve done_send_handshake : done.

Lemma done_handle_events events so recvs p : keeps done_le (handle_events events so recvs p).
Proof. unfold handle_events, handle_read, process_rx_buffer, handle_write, update_epoll_interests. keep. Qed.
#[local] Hint Resolve done_handle_events : done.

Lemma done_connect_to_peer ip port : keeps done_le (connect_to_peer ip port).
Proof. unfold connect_to_peer, connect, registered, update_epoll_interests. keep. Qed.
#[local] Hint Resolve done_connect_to_peer : done.

Lemma done_add_peers infos : keeps done_le (add_peers infos).
Proof. induction infos as [|info infos IH]; cbn [add_peers]; keep. Qed.
#[local] Hint Resolve done_add_peers : done.

Lemma done_run_event e : keeps done_le (run_event e).
Proof. destruct e; cbn [run_event]; keep. Qed.

(** ** The world and the disk *)

Section Disk.
Context `{FS : FileSystem} (io : DiskIOManager).

(** An event, and the writes of the pieces it completed. *)
Definition main_event (e : event) (wd : World * Disk) : outcome (World * Disk) :=
  '(_, w') ← run_event e wd.1;
  match save_all io (drop (List.length (completed wd.1)) (completed w')) wd.2 with
  | (Ok _, d') => Ok (w', d')
  | (Throw e, _) => Throw e
  | (UB what, _) => UB what
  | (Fuel, _) => Fuel
  end.

(** The worlds and disks a run reaches from a disk [d]. *)
Inductive running_on (d : Disk) : World * Disk → Prop :=
| running_start seeded d0 :
    preallocate_files io d = (Ok tt, d0) → running_on d (start m seeded, d0)
| running_event e wd wd' :
    running_on d wd → main_event e wd = Ok wd' → running_on d wd'.

Lemma run_events_app es fs w u w1 :
  run_events es w = Ok (u, w1) → run_events (es ++ fs) w = run_events fs w1.
Proof.
  revert w u. induction es as [|e es IH]; intros w u H; cbn [run_events app] in *; [by inv_m H|].
  inv_m H. unfold mbind, M_bind. rewrite H0. by eapply IH.
Qed.

Fixpoint main_events (es : list event) (wd : World * Disk) : outcome (World * Disk) :=
  match es with [] => Ok wd | e :: es => wd ← main_event e wd; main_events es wd end.

Lemma running_events es d wd wd' :
  running_on d wd → main_events es wd = Ok wd' → running_on d wd'.
Proof.
  revert wd. induction es as [|e es IH]; intros wd Hrun H; cbn [main_events] in H; [by simplify_eq|].
  inv_ok H. eapply IH; [|exact H]. by eapply running_event.
Qed.

(** A run's world is reachable, and its disk is the preallocated one with the completed
    pieces saved. *)
Lemma running_saved d wd :
  running_on d wd →
  reachable (m := m) wd.1 ∧
  ∃ d0, preallocate_files io d = (Ok tt, d0) ∧ save_all io (completed wd.1) d0 = (Ok tt, wd.2).
Proof.
  induction 1 as [seeded d0 E|e wd wd' _ [(seeded & es & u & Hes) (d0 & E0 & E)] Hev].
  - split; [by exists seeded, [], tt|]. by exists d0.
  - unfold main_event in Hev. inv_ok Hev. destruct x as [u1 w'].
    destruct (save_all io _ wd.2) as [[u2|e2|w2|] d'] eqn:Es; simplify_eq. simpl. split.
    + exists seeded, (es ++ [e]), tt. rewrite (run_events_app _ _ _ _ _ Hes). cbn [run_events].
      unfold mbind, M_bind. by rewrite Hev0.
    + exists d0. split; [done|]. destruct (done_run_event e _ _ _ Hev0) as [new Hnew].
      rewrite Hnew in *. rewrite drop_app_length in Es. rewrite save_all_app.
      unfold mbind, IO_bind. rewrite E. by destruct u2.
Qed.

(** What the run did to the disk: a piece that was saved reads as it was completed. *)
Lemma running_reads d w d' :
  disk_metadata io = m → placeable io (files m) → reliable d → running_on d (w, d') →
  ready io d' ∧ reliable d' ∧
  ∀ i x, 0 ≤ i < num_pieces m → saved (completed w) !! i = Some x → read_piece io i d' = (Ok x, d').
Proof.
  intros Em Hpl Hr Hrun. pose proof params_metadata as Hm. rewrite <- Em in Hpl, Hm.
  destruct (running_saved d _ Hrun) as [Hw (d0 & E0 & E)]. simpl in *.
  destruct (reachable_inv w Hw) as ((_ & _ & (_ & Hv & _)) & _).
  destruct (preallocate_loop_run io _ d Hpl) as (d1 & E1 & Es & Hl0 & _).
  unfold preallocate_files in E0. rewrite E1 in E0. injection E0 as <-.
  destruct (save_all_run io (completed w) d1) as (d2 & E2 & Hd2 & Hr2 & Hread).
  - split; [done|]. split; [|done]. destruct Hpl as [_ Hp]. eapply Forall_impl; [exact Hp|].
    simpl. intros f [_ ?]. lia.
  - unfold reliable. by rewrite Es.
  - apply Forall_forall. intros [j x] Hin. destruct (Hv j x Hin) as (? & ? & _).
    unfold piece_data_ok. by rewrite Em.
  - rewrite E in E2. injection E2 as <-. split_and!; [done..|]. intros i x Hi Hx.
    rewrite <- Em in Hi. specialize (Hread i Hi). by rewrite Hx in Hread.
Qed.

(** On reliable storage the writes of an event succeed. *)
Lemma main_event_runs d w d1 e w' :
  disk_metadata io = m → placeable io (files m) → reliable d → running_on d (w, d1) →
  run_event e w = Ok (tt, w') → ∃ d2, main_event e (w, d1) = Ok (w', d2).
Proof.
  intros Em Hpl Hr Hrun Ev. destruct (running_reads d w d1 Em Hpl Hr Hrun) as (Hd1 & Hr1 & _).
  destruct (running_saved d _ Hrun) as [(seeded & es & u & Hes) _]. simpl in Hes.
  assert (reachable (m := m) w') as Hw'.
  { exists seeded, (es ++ [e]), tt. rewrite (run_events_app _ _ _ _ _ Hes). cbn [run_events].
    unfold mbind, M_bind. by rewrite Ev. }
  destruct (reachable_inv w' Hw') as ((_ & _ & (_ & Hv & _)) & _).
  destruct (save_all_run io (drop (List.length (completed w)) (completed w')) d1) as (d2 & E2 & _);
    [done|done| |].
  - apply Forall_forall. intros [j x] Hin. destruct (Hv j x) as (? & ? & _);
      [|by unfold piece_data_ok; rewrite Em].
    rewrite <- (take_drop (List.length (completed w)) (completed w')). apply elem_of_app. by right.
  - exists d2. unfold main_event. simpl. rewrite Ev. cbn [mbind outcome_bind]. by rewrite E2.
Qed.

Lemma running_next d w d1 e w' :
  disk_metadata io = m → placeable io (files m) → reliable d → running_on d (w, d1) →
  run_event e w = Ok (tt, w') → ∃ d2, running_on d (w', d2).
Proof.
  intros Em Hpl Hr Hrun Ev. destruct (main_event_runs d w d1 e w' Em Hpl Hr Hrun Ev) as [d2 E2].
  exists d2. by eapply running_event.
Qed.

Lemma running_pieces_verify_run d w d' i :
  disk_metadata io = m → placeable io (files m) → reliable d →
  running_on d (w, d') → 0 ≤ i → has_piece (pm w) i = true →
  verify_piece io i d' = (Ok true, d').
Proof.
  intros Em Hpl Hr Hrun Hi Hh. destruct (running_reads d w d' Em Hpl Hr Hrun) as (Hd' & _ & Hread).
  destruct (running_saved d _ Hrun) as [Hw _]. simpl in Hw.
  destruct (reachable_inv w Hw) as ((_ & _ & (_ & Hv & Hbits)) & _).
  apply Hbits in Hh; [|done]. apply saved_in in Hh as (x & Hx & Hin).
  destruct (Hv i x Hin) as (Hir & _ & Eh). specialize (Hread i x Hir Hx). rewrite <- Em in Hir, Eh.
  rewrite (verify_piece_run io d' i x) by done. by rewrite bool_decide_eq_true_2.
Qed.

(** C5: At every moment of a run what is on disk is verified. From files preallocated
    on reliable storage, whatever events are handled, each piece whose bit is set reads
    back from the files with the digest the torrent lists: the check [main] makes at
    the end, [verify_piece], holds all along. *)
Theorem running_pieces_verify d w d' i :
  disk_metadata io = m → placeable io (files m) → reliable d →
  running_on d (w, d') → 0 ≤ i → has_piece (pm w) i = true →
  verify_piece io i d' = (Ok true, d').
Proof. apply running_pieces_verify_run. Qed.
End Disk.
End Persist.

(** ** Witness *)

(** All paths name one file: the torrent has one. *)
Definition one_file : FileSystem := λ _, Some 0.
Definition tiny_io : DiskIOManager := mk_disk_io (bs "out") tiny_metadata.

(** The disk after the run of [Sample]. *)
Definition tiny_disk : Disk := mk_disk {[0 := zeros 30]} [].

Lemma tiny_running :
  @running_on _ counter_rng _ _ tiny_metadata one_file tiny_io empty_disk (downloaded, tiny_disk).
Proof.
  eapply (@running_events _ counter_rng _ _ tiny_metadata one_file tiny_io (joining ++ [first_piece])).
  - apply (@running_start _ counter_rng _ _ tiny_metadata one_file tiny_io empty_disk 0).
    vm_compute. reflexivity.
  - vm_compute. reflexivity.
Qed.

Lemma running_pieces_verify_witness :
  has_piece (pm downloaded) 0 = true ∧
  @verify_piece one_file _ tiny_io 0 tiny_disk = (Ok true, tiny_disk).
Proof.
  split; [vm_compute; reflexivity|].
  apply (@running_pieces_verify _ _ _ _ tiny_metadata _ one_file tiny_io empty_disk downloaded
    tiny_disk 0 eq_refl); [|apply Forall_nil_2|exact tiny_running|done|vm_compute; reflexivity].
  split; [apply (bool_decide_unpack _); vm_compute; exact I|].
  repeat (constructor; [split; [eexists; reflexivity|split; vm_compute; done]|]). constructor.
Defined.
