(* ===== verification/Program.v ===== *)
(** * The running program: theorems

    What holds in every world the program reaches, whatever the peers send, the kernel
    answers and the random engine draws; what becomes of an event, and of the slot of a
    connection; and the places where a run goes wrong. *)

From S2P Require Import Prelude StdString Bencode Bitfield Hasher Torrent PieceManager.
From S2P Require Import PiecePicker PeerMessage EventLoop World PeerConnection Coordinator.
From S2P Require Import System Handlers Steps Termination Safe Failures Wiring Handled Sample.

Section Program.
Context `{C : CryptoSHA1} `{R : UniformRng} {prm : Params} {MO : MapOrder} (m : TorrentMetadata)
  {PF : ParamsFor prm m}.

Implicit Types (w : World).

(** C6: Integrity. In every world the program reaches, each piece that was handed to
    [on_piece_completed_cb_] is a piece of the torrent, has that piece's length, and
    its digest is the one the torrent lists; no piece was handed over twice; and the
    pieces whose bit is set are exactly those handed over. *)
Theorem completed_pieces_verified w :
  reachable (m := m) w →
  NoDup (completed w).*1 ∧
  (∀ i d, (i, d) ∈ completed w →
     0 ≤ i < num_pieces m ∧ zlen d = piece_len m i ∧ znth (piece_hashes m) i = Some (hash d)) ∧
  (∀ i, 0 ≤ i → has_piece (pm w) i = true ↔ i ∈ (completed w).*1).
Proof. intros Hw. by destruct (reachable_inv w Hw) as ((_ & _ & Hv) & _). Qed.

(** C16: The histogram the picker chooses by is exact in every world the program
    reaches: the availability of a piece is the number of registered peers whose
    bitfield has it. *)
Theorem availability_counts_registered w i :
  reachable (m := m) w → 0 ≤ i < num_pieces m →
  get_availability (picker w) i =
  Z.of_nat (size (filter (λ kv : Z * PeerState, Bitfield.has (p_bitfield kv.2) i = true) (peers w))).
Proof.
  intros Hw Hi. destruct (reachable_inv w Hw) as (_ & (En & (_ & _ & Ht) & _) & _).
  pose proof params_num_pieces as Enp. unfold get_availability.
  rewrite (proj2 (Z.leb_gt _ _)), Ht, size_filter_map by lia.
  unfold peers_with, bitfields. by rewrite !zlen_filter_fmap.
Qed.

(** C9: Requests. In every world the program reaches, a peer has at most five
    requests outstanding and none of them twice, no block is asked of two peers at a
    time, and a block that is asked for is not one [get_next_block] could hand out. *)
Theorem requests_exclusive w p st :
  reachable (m := m) w → peers w !! p = Some st →
  zlen (outstanding st) ≤ 5 ∧ NoDup (rkey <$> outstanding st) ∧
  ∀ r, r ∈ outstanding st →
    (∀ q sq r', q ≠ p → peers w !! q = Some sq → r' ∈ outstanding sq → rkey r' ≠ rkey r) ∧
    ∀ b manager, get_next_block (pm w) (r_piece r) = Ok (Some b, manager) → b_begin b ≠ r_begin r.
Proof.
  intros Hw Hst. destruct (reachable_inv w Hw) as ((Hwf & _) & _ & _ & (H5 & Hd & Hl)).
  destruct (H5 p st Hst) as [? ?]. split_and!; try done. intros r Hr. split.
  - intros q sq r' Hq Hsq Hr'. by apply (Hd q p sq st).
  - intros b mg Hb E. destruct (Hl p st r Hst Hr) as [[]|Hlive].
    destruct (live_range _ _ Hwf Hlive) as [Hr0 Hlt]. pose proof Hwf as ((_ & Hn & _) & _).
    destruct (next_block_new (pm w) (r_piece r) b mg Hwf ltac:(lia) Hb) as (Ep & _ & Hfresh).
    apply (Hfresh r Hlive). unfold rkey. simpl in *. congruence.
Qed.

(** C17: Connections. In every world the program reaches, at most [max_connections_]
    connections are not disconnected, each of them under its own address and port in
    [active_peers_]; and the registered peers are connections past their handshake. *)
Theorem connections_bounded w :
  reachable (m := m) w →
  Z.of_nat (size (filter (λ pc : Z * Conn, c_state pc.2 ≠ Disconnected) (conns w))) ≤
    max_connections_ ∧
  (∀ p c, conns w !! p = Some c → c_state c ≠ Disconnected →
     active_peers w !! make_peer_key (c_ip c) (c_port c) = Some p) ∧
  (∀ p st, peers w !! p = Some st → ∃ c, conns w !! p = Some c ∧ c_state c = Active).
Proof.
  intros Hw. destruct (reachable_inv w Hw) as (_ & _ & Hn & _).
  pose proof Hn as (Hs & Hr & Hm). split; [|split].
  - enough (size (filter (λ pc : Z * Conn, c_state pc.2 ≠ Disconnected) (conns w)) ≤
            size (active_peers w))%nat by lia.
    rewrite <- size_dom. apply values_size; [apply NoDup_elements|].
    intros p (c & [Hc Hst]%map_lookup_filter_Some)%elem_of_elements%elem_of_dom.
    eexists. by apply (Hm p c).
  - intros p c Hc Hst. apply (Hm p c Hc Hst).
  - intros p st Hst. destruct (Hr p) as (c & Hc & _ & _ & [[]|Hact]); [by eapply elem_of_dom_2|].
    by exists c.
Qed.

(** C40: A piece whose hash does not match ends in undefined behaviour: when the last
    block of a piece comes and the piece fails its check, the handler reports the peer,
    which erases the peer's entry of [peers_], and goes on to use that entry. *)
Theorem failed_piece_use_after_erase w p st i begin block manager :
  reachable (m := m) w → peers w !! p = Some st → 0 ≤ i → 0 ≤ begin →
  block_received (pm w) i begin block = Ok (true, manager) →
  validate_piece manager i = Ok false →
  handle_peer_message p (PieceMsg i begin block) w =
    UB "reference to an erased element of peers_".
Proof. intros Hw. apply (piece_message_corrupted (m := m)), (reachable_inv w Hw). Qed.

(** A send that fails while requests or announcements go out is undefined
    behaviour: it disconnects the peer, which erases its entry of [peers_], and both
    the loop that fills the pipeline and the loop over [peers_] go on with the
    entry. *)
Theorem failed_send_use_after_erase w p st c :
  reachable (m := m) w → peers w !! p = Some st → conns w !! p = Some c → send_fails w c →
  (∀ i b manager, peer_choking c = false → active_piece st = Some i →
     get_next_block (pm w) i = Ok (Some b, manager) → zlen (outstanding st) < 5 →
     fill_request_pipeline p w = UB "reference to an erased element of peers_") ∧
  (∀ i keys, order (peers w) = p :: keys →
     broadcast_have i w = UB "reference to an erased element of peers_").
Proof.
  intros Hw Hst Hc Hf. pose proof (reachable_inv w Hw) as Hi. split.
  - intros i b mg Hch Hact Hb Hlen. by eapply fill_request_pipeline_fails.
  - intros i keys Ho. by eapply broadcast_have_fails.
Qed.

(** C39: The slot of a peer. A connection that goes down before its handshake leaves
    [active_peers_]. One that goes down after it was registered stays there for good,
    since the coordinator's callback replaced the peer manager's: after whatever events
    follow, the entry is still that of the connection, which is still down, so that it
    counts towards [max_connections_], and a new connection to the same address is
    refused. *)
Theorem disconnect_slots w p c :
  reachable (m := m) w → conns w !! p = Some c → c_state c ≠ Disconnected →
  (c_state c ≠ Active →
   ∃ w', disconnect p w = Ok (tt, w') ∧
         active_peers w' = delete (make_peer_key (c_ip c) (c_port c)) (active_peers w)) ∧
  (is_Some (peers w !! p) →
   ∃ w', disconnect p w = Ok (tt, w') ∧ peers w' !! p = None ∧
         active_peers w' = active_peers w ∧
         ∀ es w'', run_events es w' = Ok (tt, w'') →
           active_peers w'' !! make_peer_key (c_ip c) (c_port c) = Some p ∧
           (∃ c'', conns w'' !! p = Some c'' ∧ c_state c'' = Disconnected) ∧
           connect_to_peer (c_ip c) (c_port c) w'' = Ok (tt, w'')).
Proof.
  intros Hw Hc Hst. pose proof (reachable_inv w Hw) as Hi. split.
  - intros Hact. destruct (disconnect_run w p c Hc Hst) as (w1 & -> & ->).
    pose proof Hi as (_ & _ & (_ & Hr & Hm) & _). destruct (Hm p c Hc Hst) as [Hk [Hcb|[_ ?]]]; [|done].
    unfold call_on_disconnect. eexists. split; [|shelve].
    erewrite bindM_run; [|apply conn_run; simpl; by rewrite lookup_alter_eq, Hc]. simpl.
    rewrite Hcb. unfold run_on_disconnect, on_disconnect_callbacks.
    erewrite bindM_run; [done|]. unfold unregister_peer, gets.
    erewrite bindM_run by done. cbn [peers closed set_fds set_conns].
    pose proof (handshaking_unregistered _ _ _ _ _ Hi ltac:(by intros []) Hc Hact) as Hn.
    apply not_elem_of_dom in Hn. rewrite Hn. done.
    Unshelve. done.
  - intros [st Hp]. destruct (registered_conn _ _ _ _ Hi Hp) as (c' & Hc' & Hcb & Hact & _).
    rewrite Hc in Hc'. injection Hc' as <-.
    pose proof (disconnect_registered w p c st Hc Hact Hcb Hp) as E.
    eexists. split; [exact E|]. split; [apply lookup_delete_eq|]. split; [done|]. intros es w'' Hes.
    pose proof (wired_left w _ p c Hi (reachable_wired w Hw) Hc (mk_is_Some _ _ Hp) E) as Hl.
    apply (wired_run_events _ _ _ _ _ Hl) in Hes. destruct (wired_barred _ _ Hes (key_of c) p) as (Ha & Hd & _); [done|].
    split; [exact Ha|]. split; [exact Hd|]. apply connect_refused. by eexists.
Qed.

(** Unknown pieces. A registered peer ends the program with undefined behaviour by
    a message for a piece the torrent does not have, whatever its bytes: the piece
    counts as complete at once and its hash is looked up out of range. *)
Theorem unknown_piece_message w p i begin block :
  reachable (m := m) w → is_Some (peers w !! p) → num_pieces m ≤ i → 0 ≤ begin →
  handle_peer_message p (PieceMsg i begin block) w = UB "piece_hashes out of range".
Proof.
  intros Hw [st Hst] Hi Hb. pose proof (reachable_inv w Hw) as ((Hwf & Em & _) & _).
  destruct (unknown_piece_out_of_range (pm w) i begin block Hwf) as (mg & Hrec & Hval);
    [congruence|done|].
  unfold handle_peer_message, gets. rewrite (bindM_run _ _ _ _ _ eq_refl), Hst. unfold handle_piece.
  apply bindM_ub. unfold receive_block. erewrite bindM_run by done.
  unfold gets. rewrite (bindM_run _ _ _ _ _ eq_refl).
  erewrite bindM_run; [|unfold lift; simpl; by rewrite Hrec]. cbv iota beta.
  rewrite (bindM_run _ _ _ _ _ eq_refl). simpl when. unfold piece_received, gets.
  rewrite (bindM_run _ _ _ _ _ eq_refl). apply bindM_ub. unfold lift. simpl. by rewrite Hval.
Qed.

(** C15: What becomes of an event. In a world the program reaches, the handling of an
    event that brings the connection's buffer to less than 4 GiB ends: it throws nothing
    and no loop spins, at most twelve rounds of the request pipeline and no more rounds
    of the message loop than there are bytes. If a message the event brings is harmful
    when its turn comes, it ends in undefined behaviour: a length prefix that wraps, or
    the last block of a piece that fails its check or that the torrent does not have. If
    none is and the kernel fails no [send], the event is handled and control returns to
    the event loop, whatever the peers send. *)
Theorem events_handled `{!UniformRngLaws R} w e :
  reachable (m := m) w → small_event e w →
  ends (run_event e w) ∧
  (∀ p w1 w2, brings w e = Some (p, w1) → reads p w1 w2 → harmful w2 p = true →
   ∃ what, run_event e w = UB what) ∧
  (zlen info_hash_ = 20 → zlen our_peer_id_ = 20 → willing w → harmless w e →
   ∃ w', run_event e w = Ok (tt, w')).
Proof.
  intros Hw Hs. pose proof (reachable_inv w Hw) as Hi. pose proof (ends_run_event e w Hi Hs) as He.
  split; [done|]. split; [intros p w1 w2; by apply (harmful_event (m := m))|]. intros Hih Hid Hwi Hh.
  assert (apt (m := m) w) as Ha by (split_and!; [done|by apply (reachable_wired (m := m))|done]).
  destruct (safe_returns _ _ _ (sure_run_event (m := m) Hih Hid w e Ha Hh) He) as ([] & w' & E & _).
  by exists w'.
Qed.
End Program.

(** ** Witnesses *)

Lemma joined_reachable : reachable (m := tiny_metadata) joined.
Proof. exists 0, joining, tt. exact joined_ok. Defined.

Lemma downloaded_reachable : reachable (m := tiny_metadata) downloaded.
Proof.
  exists 0, (joining ++ [first_piece]), tt. vm_compute. reflexivity.
Defined.

Lemma completed_pieces_verified_witness :
  completed downloaded = [(0, zeros 16)] ∧ znth (piece_hashes tiny_metadata) 0 = Some (hash (zeros 16)).
Proof.
  split; [vm_compute; reflexivity|].
  destruct (completed_pieces_verified tiny_metadata downloaded downloaded_reachable) as (_ & Hv & _).
  apply Hv. vm_compute. left.
Defined.

Lemma availability_counts_registered_witness :
  reachable (m := tiny_metadata) joined ∧ get_availability (picker joined) 1 = 1.
Proof.
  split; [exact joined_reachable|].
  rewrite (availability_counts_registered tiny_metadata joined 1 joined_reachable);
    [vm_compute; reflexivity|split; vm_compute; done].
Defined.

(** The registered peer's entry in these worlds. *)
Definition state_in (w : World) : PeerState :=
  default (mk_peer (Bitfield.make 0) [] None) (peers w !! peer1).

Definition conn_in (w : World) : Conn := default (new_conn [] 0) (conns w !! peer1).

Lemma requests_exclusive_witness :
  List.length (outstanding (state_in joined)) = 2%nat ∧ zlen (outstanding (state_in joined)) ≤ 5.
Proof.
  split; [vm_compute; reflexivity|].
  apply (requests_exclusive tiny_metadata joined peer1 (state_in joined) joined_reachable).
  vm_compute. reflexivity.
Defined.

Lemma connections_bounded_witness :
  reachable (m := tiny_metadata) joined ∧
  active_peers joined !! make_peer_key (bs "1.2.3.4") 6881 = Some peer1.
Proof.
  split; [exact joined_reachable|].
  destruct (connections_bounded tiny_metadata joined joined_reachable) as (_ & Hl & _).
  apply (Hl peer1 (conn_in joined)); [vm_compute; reflexivity|vm_compute; discriminate].
Defined.

Lemma failed_piece_use_after_erase_witness :
  handle_peer_message peer1 (PieceMsg 1 0 (zeros 14)) downloaded =
    UB "reference to an erased element of peers_".
Proof.
  assert (∃ manager, block_received (pm downloaded) 1 0 (zeros 14) = Ok (true, manager) ∧
                     validate_piece manager 1 = Ok false) as (manager & Hb & Hv).
  { eexists. split; vm_compute; reflexivity. }
  apply (failed_piece_use_after_erase tiny_metadata downloaded peer1 (state_in downloaded) 1 0
           (zeros 14) manager downloaded_reachable); [vm_compute; reflexivity|done|done|exact Hb|exact Hv].
Defined.

Lemma failed_send_use_after_erase_witness :
  broadcast_have 0 broken = UB "reference to an erased element of peers_".
Proof.
  assert (reachable (m := tiny_metadata) broken) as Hb.
  { exists 0, (joining ++ [Kernel [SendFails] []]), tt. vm_compute. reflexivity. }
  apply (failed_send_use_after_erase tiny_metadata broken peer1 (state_in broken) (conn_in broken) Hb)
    with (keys := []); try (vm_compute; reflexivity).
  right. exists []. vm_compute. reflexivity.
Defined.

Lemma disconnect_slots_witness :
  ∃ w', disconnect peer1 joined = Ok (tt, w') ∧ peers w' !! peer1 = None ∧
        active_peers w' = active_peers joined ∧
        ∀ es w'', run_events es w' = Ok (tt, w'') →
          active_peers w'' !! make_peer_key (c_ip (conn_in joined)) (c_port (conn_in joined)) = Some peer1 ∧
          (∃ c'', conns w'' !! peer1 = Some c'' ∧ c_state c'' = Disconnected) ∧
          connect_to_peer (c_ip (conn_in joined)) (c_port (conn_in joined)) w'' = Ok (tt, w'').
Proof.
  apply (disconnect_slots tiny_metadata joined peer1 (conn_in joined) joined_reachable);
    [vm_compute; reflexivity|vm_compute; discriminate|].
  eexists. vm_compute. reflexivity.
Defined.

Lemma unknown_piece_message_witness :
  handle_peer_message peer1 (PieceMsg 2 0 []) joined = UB "piece_hashes out of range".
Proof.
  apply (unknown_piece_message tiny_metadata joined peer1 2 0 [] joined_reachable);
    [eexists; vm_compute; reflexivity|vm_compute; done|done].
Defined.

Lemma events_handled_witness : ∃ w', run_event first_piece joined = Ok (tt, w').
Proof.
  assert (small_event first_piece joined) as Hs.
  { intros p. unfold rx_len. destruct (conns joined !! p) as [c|] eqn:E; [|vm_compute; done].
    assert (map_Forall (λ _ c, rx_buffer c = []) (conns joined)) as Hf.
    { apply (bool_decide_unpack _). vm_compute. exact I. }
    rewrite (Hf p c E). vm_compute. done. }
  destruct (events_handled tiny_metadata joined first_piece joined_reachable Hs) as (_ & _ & H).
  apply H; [vm_compute; reflexivity|vm_compute; reflexivity| |].
  - vm_compute. repeat (constructor; [discriminate|]). constructor.
  - apply (clean_harmless 3). vm_compute. reflexivity.
Defined.
