(* ===== verification/Main.v ===== *)
(** * The program: [main.cpp], [peer_id.cpp]

    What [main] does before it enters the event loop, the two timers it runs, and the
    progress it reports. The command line, the torrent file, the tracker, the disk and
    the kernel are read from an environment; every early return is an exit code. *)

From S2P Require Import Prelude StdString Bencode Bitfield Hasher Torrent Tracker TrackerUdp.
From S2P Require Import Config Logger PieceManager Disk PiecePicker PeerMessage Socket EventLoop Timers.
From S2P Require Import World PeerConnection Coordinator System Handlers Steps Termination Sample Persist.

(** ** Peer ids *)

Definition charset : list byte :=
  bs "0123456789ABCDEFGHIJKLMNOPQRSTUVWXYZabcdefghijklmnopqrstuvwxyz".

(** [charset[i]] for an index in range. *)
Definition charset_at (i : Z) : byte := default x00 (znth charset i).

(** [generate_peer_id]: [dist i] is the [i]-th draw, uniform in [0, 61]. *)
Definition generate_peer_id (dist : Z → Z) : list byte :=
  bs "-DT0001-" ++ ((λ i, charset_at (dist i)) <$> seqZ 8 12).

(** The peer id [main] makes itself, from [std::rand()]. *)
Definition our_peer_id (rand : Z → Z) : list byte :=
  bs "-DT0001-" ++ ((λ i, charset_at (u64 (rand i) mod 62)) <$> seqZ 8 12).

Lemma zlen_peer_id f : zlen (bs "-DT0001-" ++ (f <$> seqZ 8 12)) = 20.
Proof. done. Qed.

Lemma charset_at_ok i : 0 ≤ i < 62 → unreserved (charset_at i) = true.
Proof.
  intros Hi. assert (Forall (λ b, unreserved b = true) charset) as Hc by by repeat constructor.
  unfold charset_at. destruct (znth_is_Some charset i) as [b Hb]; [by change (zlen charset) with 62|].
  rewrite Hb. rewrite Forall_forall in Hc. apply Hc. unfold znth in Hb. case_ifs_in Hb.
  by eapply list_elem_of_lookup_2.
Qed.

(** ** Progress *)

(** The loop of [get_downloaded_bytes] over the piece indices. *)
Fixpoint bytes_loop (pieces : list Z) (pm : PieceManager) (meta : TorrentMetadata) (total : Z)
    : outcome Z :=
  match pieces with
  | [] => Ok total
  | i :: pieces =>
      if has_piece pm i then
        last ← int32 (num_pieces meta - 1);
        if i =? u64 last then
          before ← i64_mul last (piece_length meta);
          n ← i64_sub (total_length meta) before;
          bytes_loop pieces pm meta (u64 (total + u64 n))
        else bytes_loop pieces pm meta (u64 (total + u64 (piece_length meta)))
      else bytes_loop pieces pm meta total
  end.

Definition get_downloaded_bytes (pm : PieceManager) (meta : TorrentMetadata) : outcome Z :=
  bytes_loop (seqZ 0 (u64 (num_pieces meta))) pm meta 0.

(** The pieces of a list that are there. *)
Definition held (pm : PieceManager) (pieces : list Z) : list Z :=
  filter (λ i, has_piece pm i = true) pieces.

Lemma zsum_held_le pm m l :
  (∀ i, i ∈ l → 0 ≤ piece_len m i) →
  0 ≤ zsum (piece_len m <$> held pm l) ≤ zsum (piece_len m <$> l).
Proof.
  induction l as [|i l IH]; intros Hl; [done|]. unfold held in *. rewrite filter_cons.
  assert (0 ≤ piece_len m i) by (apply Hl; constructor).
  destruct IH; [intros j Hj; apply Hl; by constructor|].
  case_decide; rewrite ?fmap_cons; simpl; lia.
Qed.

Lemma bytes_loop_ok pm m l total :
  wf_metadata m → (∀ i, i ∈ l → 0 ≤ i < num_pieces m) → 0 ≤ total →
  total + zsum (piece_len m <$> l) < 2 ^ 63 →
  bytes_loop l pm m total = Ok (total + zsum (piece_len m <$> held pm l)).
Proof.
  intros Hm. revert total. induction l as [|i l IH]; intros total Hl Ht Hsum.
  { cbn. by rewrite Z.add_0_r. }
  assert (∀ j, j ∈ l → 0 ≤ j < num_pieces m) as Hl' by (intros j Hj; apply Hl; by constructor).
  destruct (Hl i ltac:(constructor)) as [Hi0 Hi].
  pose proof (piece_len_pos m i Hm ltac:(lia)) as Hpos.
  assert (0 ≤ zsum (piece_len m <$> l)) as Hs0.
  { destruct (zsum_held_le pm m l); [|lia]. intros j Hj. pose proof (piece_len_pos m j Hm (Hl' j Hj)). lia. }
  rewrite fmap_cons in Hsum. simpl in Hsum.
  unfold held in *. rewrite filter_cons. cbn [bytes_loop].
  destruct (has_piece pm i) eqn:Eh; [rewrite decide_True by done|rewrite decide_False by done].
  2:{ apply IH; auto; lia. }
  rewrite fmap_cons. change (zsum (?x :: ?l)) with (x + zsum l).
  pose proof Hm as (En & Hn & Hpl & Ht0 & Hb & _).
  assert (num_pieces m * piece_length m < 2 ^ 63) by nia.
  assert (0 ≤ (num_pieces m - 1) * piece_length m) by nia.
  rewrite int32_in by (unfold int_max; lia).
  cbn [mbind outcome_bind]. rewrite (wrap_small 64 (num_pieces m - 1)) by lia.
  assert (piece_len m i = if i <? num_pieces m - 1 then piece_length m
                          else total_length m - (num_pieces m - 1) * piece_length m) as El.
  { unfold piece_len. by rewrite (proj2 (Z.leb_gt _ _)) by lia. }
  destruct (Z.eqb_spec i (num_pieces m - 1)) as [Ei|Hne].
  - rewrite (proj2 (Z.ltb_ge _ _)) in El by lia. unfold i64_mul, i64_sub.
    rewrite i64_in by in_i64. cbn [mbind outcome_bind]. rewrite i64_in by in_i64.
    cbn [mbind outcome_bind]. rewrite <- El.
    rewrite (wrap_small 64 (piece_len m i)), wrap_small by lia. rewrite IH by (auto; lia). f_equal. lia.
  - rewrite (proj2 (Z.ltb_lt _ _)) in El by lia. rewrite <- El.
    rewrite (wrap_small 64 (piece_len m i)), wrap_small by lia.
    rewrite IH by (auto; lia). f_equal. lia.
Qed.

(** ** Timers of [main] *)

(** The two callbacks [main] registers. *)
Inductive MainTimer := CheckShutdown | RenderProgress.

(** The parameters of the peer manager and the coordinator. *)
Definition main_params (cfg : AppConfig) (m : TorrentMetadata) (id : list byte) : Params := {|
  info_hash_ := info_hash m;
  our_peer_id_ := id;
  max_connections_ := u64 (max_peers cfg);
  num_pieces_ := u64 (num_pieces m);
|}.

Section Main.
Context `{C : CryptoSHA1} `{R : UniformRng} {MO : MapOrder} `{FS : FileSystem}
  `{TQ : TimerQueue MainTimer}.

(** [curl] and [udp]: what the tracker's URLs answer; [clock]: the steady clock. *)
Variable curl : list byte → CurlResult.
Variable udp : nat → UdpEnv.
Variable clock : Z → Z.

(** The objects of [main] the timers refer to. [validated]: what the check of the disk
    reported, once made. *)
Record MainState := mk_main {
  ms_config : AppConfig;
  ms_tracker : TrackerClient;
  ms_io : DiskIOManager;
  ms_world : World;
  ms_disk : Disk;
  last_bytes : Z;
  g_shutdown_requested : bool;
  validated : option bool;
}.

Abbreviation MainLoop := (Loop (CB := MainTimer) (W := MainState)).

Definition meta (st : MainState) : TorrentMetadata := torrent_ (ms_tracker st).

Definition check_shutdown (l : MainLoop) : MainLoop :=
  if g_shutdown_requested (rest l) then shutdown l
  else (register_timer clock 250 (Some CheckShutdown) l).2.

(** The loop over [verify_piece]: every piece is checked, whatever the others gave. *)
Fixpoint verify_loop (pieces : list Z) (io : DiskIOManager) (all_ok : bool) (d : Disk)
    : outcome bool * Disk :=
  match pieces with
  | [] => (Ok all_ok, d)
  | i :: pieces =>
      match verify_piece io i d with
      | (Ok b, d) => verify_loop pieces io (if b then all_ok else false) d
      | (Throw e, d) => (Throw e, d)
      | (UB w, d) => (UB w, d)
      | (Fuel, d) => (Fuel, d)
      end
  end.

(** The text of the estimated time. *)
Definition eta_str (bytes_left bytes_this_sec : Z) : list byte :=
  if 0 <? bytes_this_sec then
    let eta_secs := bytes_left / bytes_this_sec in
    to_string (eta_secs / 60) ++ bs "m " ++ to_string (eta_secs mod 60) ++ bs "s"
  else bs "N/A".

(** [render_progress]. The percentage is a quotient of [double]s; without pieces it is
    not a number, and its conversion to [int] for the bar is undefined. What is printed
    is left out but for the estimated time. *)
Definition render_progress (l : MainLoop) : outcome (list byte * MainLoop) :=
  let st := rest l in
  let m := meta st in
  current_bytes ← get_downloaded_bytes (pm (ms_world st)) m;
  let completed_pieces := Bitfield.count (bitfield (pm (ms_world st))) in
  _ ← (if num_pieces m =? 0 then UB "conversion of a NaN to int" else Ok tt);
  let bytes_this_sec :=
    if last_bytes st <? current_bytes then current_bytes - last_bytes st else 0 in
  let bytes_left := u64 (u64 (total_length m) - current_bytes) in
  let eta := eta_str bytes_left bytes_this_sec in
  if completed_pieces =? u64 (num_pieces m) then
    match verify_loop (seqZ 0 (u64 (num_pieces m))) (ms_io st) true (ms_disk st) with
    | (Ok all_ok, d) =>
        let st := mk_main (ms_config st) (ms_tracker st) (ms_io st) (ms_world st) d current_bytes
                    (g_shutdown_requested st) (Some all_ok) in
        match (announce curl udp (ms_tracker st) 6881 current_bytes 0 0
                 (Some (bs "completed")) []).2 with
        | UB w => UB w
        | Fuel => Fuel
        | _ => Ok (eta, shutdown (set_rest st l))
        end
    | (Throw e, _) => Throw e
    | (UB w, _) => UB w
    | (Fuel, _) => Fuel
    end
  else
    let st := mk_main (ms_config st) (ms_tracker st) (ms_io st) (ms_world st) (ms_disk st) current_bytes
                (g_shutdown_requested st) (validated st) in
    Ok (eta, (register_timer clock 1000 (Some RenderProgress) (set_rest st l)).2).

(** What the loop calls for a timer. *)
Definition fire (cb : MainTimer) (l : MainLoop) : outcome MainLoop :=
  match cb with
  | CheckShutdown => Ok (check_shutdown l)
  | RenderProgress => '(_, l) ← render_progress l; Ok l
  end.

(** The descriptors' callbacks are those of the connections. *)
Definition main_fds (st : MainState) : Fds Z := fds (ms_world st).

(** What the loop calls for the events of a descriptor. [x]: whether the socket has an
    error, and what [recv] returns. *)
Definition fire_fd (p fd epoll_evs : Z) (x : bool * list RecvResult) (l : MainLoop)
    : outcome MainLoop :=
  let st := rest l in
  let _ := main_params (ms_config st) (meta st) (peer_id_ (ms_tracker st)) in
  wd ← main_event (ms_io st) (Events fd epoll_evs x.1 x.2) (ms_world st, ms_disk st);
  Ok (set_rest (mk_main (ms_config st) (ms_tracker st) (ms_io st) wd.1 wd.2 (last_bytes st)
                  (g_shutdown_requested st) (validated st)) l).

(** [handle_sigint]. *)
Definition handle_sigint (st : MainState) : MainState :=
  mk_main (ms_config st) (ms_tracker st) (ms_io st) (ms_world st) (ms_disk st) (last_bytes st)
    true (validated st).
End Main.

(** ** Progress is exact *)

Lemma length_filter_all {A} (P : A → Prop) `{!∀ x, Decision (P x)} (l : list A) :
  List.length (filter P l) = List.length l ↔ Forall P l.
Proof.
  induction l as [|x l IH]; [done|]. rewrite filter_cons, Forall_cons, <- IH.
  pose proof (length_filter P l). case_decide; simpl; intuition lia.
Qed.

Lemma filter_id {A} (P : A → Prop) `{!∀ x, Decision (P x)} (l : list A) :
  Forall P l → filter P l = l.
Proof. induction 1 as [|x l Hx _ IH]; [done|]. by rewrite filter_cons, decide_True, IH. Qed.

Lemma count_complete pm m :
  pm_wf pm → metadata pm = m →
  Bitfield.count (bitfield pm) = num_pieces m ↔ complete_download pm m.
Proof.
  intros (Hm & Hb & En & _) <-. rewrite Bitfield.count_pieces by done.
  unfold Bitfield.pieces. rewrite size_list_to_set by (apply NoDup_filter, NoDup_seqZ).
  rewrite En. pose proof Hm as (_ & Hn & _).
  replace (num_pieces (metadata pm)) with (Z.of_nat (List.length (seqZ 0 (num_pieces (metadata pm)))))
    at 2 by (rewrite length_seqZ; lia).
  rewrite Nat2Z.inj_iff, length_filter_all, Forall_forall. unfold complete_download, has_piece.
  split; intros H i Hi; apply H; [apply elem_of_seqZ|apply elem_of_seqZ in Hi]; lia.
Qed.

Lemma zsum_held_lt pm m l i :
  (∀ i, i ∈ l → 0 < piece_len m i) → i ∈ l → has_piece pm i ≠ true →
  zsum (piece_len m <$> held pm l) < zsum (piece_len m <$> l).
Proof.
  intros Hl Hi Hh. induction l as [|j l IH]; [by apply elem_of_nil in Hi|].
  assert (∀ i, i ∈ l → 0 < piece_len m i) as Hl' by (intros k Hk; apply Hl; by constructor).
  assert (0 < piece_len m j) by (apply Hl; constructor).
  destruct (zsum_held_le pm m l) as [_ Hle]; [intros k Hk; specialize (Hl' k Hk); lia|].
  unfold held in *. rewrite filter_cons, fmap_cons.
  apply elem_of_cons in Hi as [<-|Hi].
  - rewrite decide_False by done. simpl. lia.
  - specialize (IH Hl' Hi). case_decide; rewrite ?fmap_cons; simpl; lia.
Qed.

(** The bytes reported are the lengths of the pieces held, never more than the total,
    and the total exactly when all are there. *)
Lemma downloaded_bytes pm m :
  pm_wf pm → metadata pm = m →
  ∃ n, get_downloaded_bytes pm m = Ok n ∧
    n = zsum (piece_len m <$> held pm (seqZ 0 (num_pieces m))) ∧
    0 ≤ n ≤ total_length m ∧ (n = total_length m ↔ complete_download pm m).
Proof.
  intros (Hm & _) E. rewrite E in Hm. pose proof Hm as (_ & Hn & Hpl & Ht0 & Hb & _).
  pose proof (piece_len_sum m Hm) as Hsum.
  assert (∀ i, i ∈ seqZ 0 (num_pieces m) → 0 ≤ i < num_pieces m) as Hin.
  { intros i Hi%elem_of_seqZ. lia. }
  assert (∀ i, i ∈ seqZ 0 (num_pieces m) → 0 < piece_len m i) as Hpos.
  { intros i Hi. by apply piece_len_pos, Hin. }
  assert (num_pieces m * piece_length m < 2 ^ 63) by nia.
  eexists. unfold get_downloaded_bytes. rewrite wrap_small, bytes_loop_ok by (auto; lia).
  rewrite Z.add_0_l. split; [done|]. split; [done|].
  pose proof (zsum_held_le pm m (seqZ 0 (num_pieces m))) as Hle.
  split; [rewrite <- Hsum; apply Hle; intros i Hi; specialize (Hpos i Hi); lia|]. split.
  - intros Et i Hi. destruct (has_piece pm i) eqn:Eh; [done|]. exfalso.
    pose proof (zsum_held_lt pm m (seqZ 0 (num_pieces m)) i Hpos) as Hlt.
    rewrite Et, Hsum in Hlt. enough (total_length m < total_length m) by lia.
    apply Hlt; [by apply elem_of_seqZ|congruence].
  - intros Hall. rewrite <- Hsum. f_equal. f_equal. unfold held.
    apply filter_id, Forall_forall. intros i Hi. by apply Hall, Hin.
Qed.

(** ** The timers' effects *)

Section Timers.
Context `{C : CryptoSHA1} `{R : UniformRng} {prm : Params} {MO : MapOrder} (m : TorrentMetadata)
  {PF : ParamsFor prm m} `{FS : FileSystem} `{TQ : TimerQueue MainTimer}.
Variable curl : list byte → CurlResult.
Variable udp : nat → UdpEnv.
Variable clock : Z → Z.

Abbreviation MainLoop := (Loop (CB := MainTimer) (W := MainState)).

Lemma verify_loop_ok io d l :
  (∀ i, i ∈ l → verify_piece io i d = (Ok true, d)) → verify_loop l io true d = (Ok true, d).
Proof.
  induction l as [|i l IH]; intros Hl; [done|]. cbn [verify_loop].
  rewrite (Hl i) by constructor. apply IH. intros j Hj. apply Hl. by constructor.
Qed.

(** The state of [main] in a run from a disk [d]. *)
Definition main_state_ok (d : Disk) (st : MainState) : Prop :=
  torrent_ (ms_tracker st) = m ∧ disk_metadata (ms_io st) = m ∧
  placeable (ms_io st) (files m) ∧ reliable d ∧
  running_on (m := m) (ms_io st) d (ms_world st, ms_disk st).

(** The progress timer when all pieces are there, and before. *)
Lemma render_complete (d : Disk) (l : MainLoop) :
  main_state_ok d (rest l) →
  defined (announce curl udp (ms_tracker (rest l)) 6881 (total_length m) 0 0
             (Some (bs "completed")) []).2 →
  num_pieces m ≠ 0 → complete_download (pm (ms_world (rest l))) m →
  ∃ eta n, render_progress curl udp clock l =
    Ok (eta, shutdown (set_rest (mk_main (ms_config (rest l)) (ms_tracker (rest l)) (ms_io (rest l))
      (ms_world (rest l)) (ms_disk (rest l)) n (g_shutdown_requested (rest l)) (Some true)) l)).
Proof.
  intros (Et & Ei & Hpl & Hr & Hrun) Hdef Hne Hall.
  destruct (running_saved _ _ _ Hrun) as [Hw _]. simpl in Hw.
  destruct (reachable_inv _ Hw) as ((Hwf & Em & _) & _).
  destruct (downloaded_bytes _ m Hwf Em) as (n & En & _ & _ & Htot).
  pose proof (count_complete _ m Hwf Em) as Hcount. pose proof params_metadata as (_ & Hnp & _).
  unfold render_progress, meta. rewrite Et, En. cbn [mbind outcome_bind].
  rewrite (wrap_small 64 (num_pieces m)) by lia.
  rewrite (proj2 (Z.eqb_neq (num_pieces m) 0)) by done. cbn [mbind outcome_bind].
  rewrite (proj2 Hcount Hall), Z.eqb_refl, verify_loop_ok.
  - rewrite (proj2 Htot Hall). revert Hdef.
    destruct (announce _ _ _ _ _ _ _ _ _) as [calls [x|e|w|]]; intros Hdef; try done;
      (do 2 eexists; reflexivity).
  - intros i Hi%elem_of_seqZ.
    apply (running_pieces_verify_run (m := m) _ d _ _ i Ei Hpl Hr Hrun); [lia|apply Hall; lia].
Qed.

Lemma render_incomplete (d : Disk) (l : MainLoop) :
  main_state_ok d (rest l) → ¬ complete_download (pm (ms_world (rest l))) m →
  ∃ eta n, render_progress curl udp clock l =
    Ok (eta, (register_timer clock 1000 (Some RenderProgress) (set_rest
      (mk_main (ms_config (rest l)) (ms_tracker (rest l)) (ms_io (rest l)) (ms_world (rest l))
        (ms_disk (rest l)) n (g_shutdown_requested (rest l)) (validated (rest l))) l)).2).
Proof.
  intros (Et & Ei & Hpl & Hr & Hrun) Hnot.
  destruct (running_saved _ _ _ Hrun) as [Hw _]. simpl in Hw.
  destruct (reachable_inv _ Hw) as ((Hwf & Em & _) & _).
  destruct (downloaded_bytes _ m Hwf Em) as (n & En & _).
  pose proof (count_complete _ m Hwf Em) as Hcount. pose proof params_metadata as (_ & Hnp & _).
  unfold render_progress, meta. rewrite Et, En. cbn [mbind outcome_bind].
  rewrite (wrap_small 64 (num_pieces m)) by lia.
  destruct (Z.eqb_spec (num_pieces m) 0) as [E0|_].
  { exfalso. apply Hnot. intros i Hi. lia. }
  cbn [mbind outcome_bind]. rewrite (proj2 (Z.eqb_neq _ _)) by by rewrite Hcount.
  do 2 eexists. reflexivity.
Qed.

(** C19: Progress and the end. In every state a run reaches, the progress timer reports
    the bytes of the pieces held, at most the total, without overflow. When all pieces
    are there it checks each of them on disk, finds them all valid and shuts the loop
    down; as long as one is missing it keeps the loop running and registers itself for
    a second later. A torrent without pieces makes it convert a NaN to an integer. *)
Theorem completion_reported (d : Disk) (l : MainLoop) :
  main_state_ok d (rest l) →
  defined (announce curl udp (ms_tracker (rest l)) 6881 (total_length m) 0 0
             (Some (bs "completed")) []).2 →
  let r := render_progress curl udp clock l in
  let pm := pm (ms_world (rest l)) in
  (∃ n, get_downloaded_bytes pm m = Ok n ∧ 0 ≤ n ≤ total_length m ∧
        n = zsum (piece_len m <$> held pm (seqZ 0 (num_pieces m)))) ∧
  (num_pieces m ≠ 0 → complete_download pm m →
     ∃ eta l', r = Ok (eta, l') ∧ running l' = false ∧ validated (rest l') = Some true ∧
               timers l' = timers l) ∧
  (¬ complete_download pm m →
     ∃ eta l', r = Ok (eta, l') ∧ running l' = running l ∧ ms_world (rest l') = ms_world (rest l) ∧
       timers l' = push (mk_timer (next_timer_id l) (clock (reads l) + 1000000000) RenderProgress)
                     (timers l)) ∧
  (num_pieces m = 0 → r = UB "conversion of a NaN to int").
Proof.
  intros Hok Hdef. cbv zeta. pose proof Hok as (Et & _ & _ & _ & Hrun).
  destruct (running_saved _ _ _ Hrun) as [Hw _]. simpl in Hw.
  destruct (reachable_inv _ Hw) as ((Hwf & Em & _) & _).
  destruct (downloaded_bytes _ m Hwf Em) as (n & En & Hsum & Hle & _). split_and!.
  - by exists n.
  - intros Hne Hall. destruct (render_complete d l Hok Hdef Hne Hall) as (eta & n' & ->).
    do 2 eexists. split; [done|]. by split_and!.
  - intros Hnot. destruct (render_incomplete d l Hok Hnot) as (eta & n' & ->).
    do 2 eexists. split; [done|]. by split_and!.
  - intros E0. unfold render_progress, meta. rewrite Et, En. cbn [mbind outcome_bind]. by rewrite E0.
Qed.
End Timers.

(** ** Interrupts *)

Section Interrupt.
Context `{C : CryptoSHA1} `{R : UniformRng} {prm : Params} {MO : MapOrder} (m : TorrentMetadata)
  {PF : ParamsFor prm m} `{FS : FileSystem} `{TQ : TimerQueue MainTimer}.
Variable curl : list byte → CurlResult.
Variable udp : nat → UdpEnv.
Variable clock : Z → Z.
Hypothesis clock_mono : ∀ i j, i ≤ j → clock i ≤ clock j.

Abbreviation MainLoop := (Loop (CB := MainTimer) (W := MainState)).
Abbreviation on_timer := (fire curl udp clock).

(** A check that is due at [now], unless the loop has stopped. *)
Definition check_due (now : Z) (l : MainLoop) : Prop :=
  running l = false ∨
  ∃ t, t ∈ elems_of l ∧ callback t = CheckShutdown ∧ deadline t ≤ now ∧
       t_id t ∉ cancelled_timers l.

(** How many timers were due at [a]. Each round of the phase takes one off, and what a
    callback registers comes due later. *)
Definition due_by (a : Z) (ts : list (Timer MainTimer)) : nat :=
  List.length (filter (λ t, deadline t ≤ a) ts).

#[local] Instance due_by_perm a : Proper (Permutation ==> eq) (due_by a).
Proof. intros l k H. unfold due_by. by rewrite H. Qed.

Lemma due_by_cons a t ts :
  due_by a (t :: ts) = if decide (deadline t ≤ a) then S (due_by a ts) else due_by a ts.
Proof. unfold due_by. rewrite filter_cons. by case_decide. Qed.

Lemma complete_or_not d st :
  main_state_ok m d st →
  complete_download (pm (ms_world st)) m ∨ ¬ complete_download (pm (ms_world st)) m.
Proof.
  intros (_ & _ & _ & _ & Hrun). destruct (running_saved _ _ _ Hrun) as [Hw _].
  destruct (reachable_inv _ Hw) as ((Hwf & Em & _) & _). simpl in *.
  rewrite <- (count_complete _ m Hwf Em). destruct (Z.eqb_spec (Bitfield.count (bitfield (pm (ms_world st)))) (num_pieces m)); auto.
Qed.

(** The loop after an interrupt: a state of a run of [main] from the disk [d], whose
    final announce does not go wrong. *)
Definition interrupted (d : Disk) (l : MainLoop) : Prop :=
  main_state_ok m d (rest l) ∧ g_shutdown_requested (rest l) = true ∧
  defined (announce curl udp (ms_tracker (rest l)) 6881 (total_length m) 0 0 (Some (bs "completed")) []).2.

(** Firing a timer then: it returns, and the due check still is, or the loop stops. *)
Lemma fire_interrupted d a cb l :
  num_pieces m ≠ 0 → interrupted d l → a ≤ clock (reads l) → check_due a l ∨ cb = CheckShutdown →
  ∃ l', on_timer cb l = Ok l' ∧ interrupted d l' ∧ reads l ≤ reads l' ∧ check_due a l' ∧
    (running l' = false ∨ due_by a (elems_of l') = due_by a (elems_of l)).
Proof.
  intros Hne (Hok & Hflag & Hann) Ha Hdue. destruct cb; cbn [fire].
  - eexists. split; [reflexivity|]. unfold check_shutdown. rewrite Hflag.
    split; [done|]. split; [done|]. split; left; done.
  - destruct Hdue as [Hdue|]; [|done]. destruct (complete_or_not d _ Hok) as [Hall|Hnot].
    + destruct (render_complete m curl udp clock d l Hok Hann Hne Hall) as (eta & n & ->).
      eexists. split; [reflexivity|]. split; [done|]. split; [done|]. split; by left.
    + destruct (render_incomplete m curl udp clock d l Hok Hnot) as (eta & n & ->).
      eexists. split; [reflexivity|]. split; [done|]. split; [simpl; lia|]. split.
      * destruct Hdue as [Hs|(t & Ht & Hcb & Hd & Hcan)]; [by left|right]. exists t.
        split; [|done]. unfold elems_of. simpl. rewrite elems_push. by right.
      * right. unfold elems_of. simpl. rewrite elems_push, due_by_cons. rewrite decide_False by (simpl; lia). done.
Qed.

Lemma phase_stops d a fuel now l log :
  num_pieces m ≠ 0 → interrupted d l → a ≤ now ≤ clock (reads l) → check_due a l →
  (due_by a (elems_of l) < fuel)%nat →
  ∃ timeout_ms now' l' log', timer_phase clock on_timer fuel now l log = Ok (timeout_ms, now', l', log') ∧
    running l' = false.
Proof.
  intros Hne. revert now l log. induction fuel as [|f IH]; intros now l log Hi Hnow Hdue Hf; [lia|].
  cbn [timer_phase]. destruct (running l) eqn:Er; [|by do 4 eexists].
  destruct Hdue as [Hs|(t & Ht & Hcb & Hd & Hcan)]; [congruence|].
  destruct (top (timers l)) as [u|] eqn:Etop.
  2:{ unfold elems_of in Ht. rewrite (top_none _ Etop) in Ht. by apply elem_of_nil in Ht. }
  pose proof (top_pop _ _ Etop) as Hpop. pose proof (top_least _ _ _ Etop Ht) as Hleast.
  assert (t = u ∨ t ∈ elems (pop (timers l))) as Htu.
  { unfold elems_of in Ht. rewrite Hpop in Ht. by apply elem_of_cons in Ht. }
  assert (due_by a (elems_of l) = S (due_by a (elems (pop (timers l))))) as Eby.
  { unfold elems_of. rewrite Hpop, due_by_cons, decide_True by lia. done. }
  case_bool_decide as Hc.
  - apply IH; [exact Hi|done| |unfold elems_of; simpl; lia]. right. exists t. simpl.
    destruct Htu as [->|Htu]; [done|]. split_and!; auto. set_solver.
  - rewrite (proj2 (Z.leb_le _ _)) by lia.
    set (l1 := Timers.set_timers (pop (timers l)) (cancelled_timers l) l).
    destruct (fire_interrupted d a (callback u) l1 Hne Hi) as (l2 & -> & Hi2 & Hr & Hdue2 & Hby).
    + simpl. lia.
    + destruct Htu as [->|Htu]; [by right|]. left. right. by exists t.
    + cbn [mbind outcome_bind]. cbv zeta. unfold now_. cbv beta iota zeta.
      pose proof (clock_mono (reads l) (reads l2) Hr). pose proof (clock_mono (reads l2) (reads l2 + 1) ltac:(lia)).
      destruct Hby as [Hstop|Hby].
      * destruct f as [|f]; [lia|]. cbn [timer_phase running]. rewrite Hstop. by do 4 eexists.
      * apply IH; [exact Hi2|simpl; lia|exact Hdue2|]. change (elems_of l1) with (elems (pop (timers l))) in Hby.
        unfold elems_of in *. simpl. lia.
Qed.

(** C28: After an interrupt the loop stops. In a state of a run of [main], with the flag
    set, a turn of the loop in which the shutdown check is due, and not cancelled,
    returns with the loop not running, before it polls again, whatever the other timers
    are. One round of the timer phase for each timer that is due, and one more, are
    enough. (The torrent has pieces, and the announce that ends a download does not go
    wrong.) *)
Theorem interrupt_stops (d : Disk) (fuel : nat) waits (l : MainLoop) :
  num_pieces m ≠ 0 → interrupted d l → running l = true → check_due (clock (reads l)) l →
  (due_by (clock (reads l)) (elems_of l) < fuel)%nat →
  ∃ l', run_loop clock on_timer main_fds fire_fd handle_sigint fuel waits l = Ok (Some l') ∧
    running l' = false.
Proof.
  intros Hne Hi Hrun Hdue Hf.
  destruct (phase_stops d (clock (reads l)) fuel (clock (reads l)) (now_ clock l).2 [])
    as (to & now' & l' & log' & E & Hstop); try done; [simpl; split; [lia|apply clock_mono; lia]|].
  exists l'. split; [|done].
  destruct waits as [|[signal w] waits]; cbn [run_loop]; rewrite Hrun; unfold now_ at 1; cbv beta iota zeta;
    unfold now_ in E; simpl snd in E; rewrite E; cbn [mbind outcome_bind]; by rewrite Hstop.
Qed.
End Interrupt.

(** ** Startup *)

Section Startup.
Context `{C : CryptoSHA1} `{R : UniformRng} {MO : MapOrder} `{FS : FileSystem}
  `{TQ : TimerQueue MainTimer}.

(** What [main] meets: which paths exist, what setting up the log throws, if anything,
    [epoll_create1]'s answer, what the torrent file holds if it can be opened, [std::rand()], the seed of the picker's engine, the tracker's answers, and
    the kernel's to the first connections. *)
Record MainEnv := mk_main_env {
  path_exists : list byte → bool;
  log_directories : option exn;
  log_file : option exn;
  epoll_fd : Z;
  torrent_file : list byte → option (list byte);
  main_rand : Z → Z;
  seed : Rng;
  main_curl : list byte → CurlResult;
  main_udp : nat → UdpEnv;
  first_sends : list SendResult;
  first_connects : list (ConnectStatus * Z * bool);
}.

(** [try { ... } catch (const std::exception&) { ...; return 1; }]. *)
Definition or_exit {A B} (x : outcome A) (k : A → outcome (Z + B)) : outcome (Z + B) :=
  match x with
  | Ok a => k a
  | Throw _ => Ok (inl 1)
  | UB w => UB w
  | Fuel => Fuel
  end.

(** The peers the tracker gave; none when the announce failed. *)
Definition ask_tracker (env : MainEnv) (c : TrackerClient) : outcome (option (list PeerInfo)) :=
  match (announce (main_curl env) (main_udp env) c 6881 0 0 (u64 (total_length (torrent_ c)))
           (Some (bs "started")) []).2 with
  | Ok r => Ok (if bool_decide (tr_failure_reason r = []) then Some (tr_peers r) else None)
  | Throw _ => Ok None
  | UB w => UB w
  | Fuel => Fuel
  end.

(** [--peer=<ip>:<port>]: what is after the number is not looked at. *)
Definition custom_peer (peer : list byte) : option (list byte * Z) :=
  match find_char ":" peer with
  | None => None
  | Some colon_pos =>
      match stoi (zdrop (colon_pos + 1) peer) with
      | Ok (port, _) =>
          if (port <=? 0) || (65535 <? port) then None else Some (ztake colon_pos peer, port)
      | _ => None
      end
  end.

(** Adding the tracker's peers and the one of the command line. [inl]: an exit code. *)
Definition bootstrap (cfg : AppConfig) (m : TorrentMetadata) (id : list byte)
    (found : option (list PeerInfo)) (io : DiskIOManager) (wd : World * Disk)
    : outcome (Z + (World * Disk)) :=
  let _ := main_params cfg m id in
  wd ← match found with Some peers => main_event io (AddPeers peers) wd | None => Ok wd end;
  if bool_decide (cfg_peer cfg = []) then Ok (inr wd)
  else
    match custom_peer (cfg_peer cfg) with
    | None => Ok (inl 1)
    | Some (ip, port) => or_exit (main_event io (ConnectTo ip port) wd) (λ wd, Ok (inr wd))
    end.

(** [main] up to the event loop: the exit code, or the loop's first state. *)
Definition main_start (env : MainEnv) (args : list (list byte)) (d : Disk)
    : outcome (Z + MainState) :=
  or_exit (parse_arguments (path_exists env) args) (λ cfg,
    if show_help cfg then Ok (inl 0)
    else
      log ← init_logger (log_directories env) (log_file env);
      _ ← set_log_level (log_level cfg) log;
      match torrent_file env (torrent_path cfg) with
      | None => Ok (inl 1)
      | Some buffer =>
          or_exit (from_bencode buffer) (λ m,
            let id := our_peer_id (main_rand env) in
            _ ← create_loop (epoll_fd env);
            let c := mk_tracker m id in
            let io := mk_disk_io (output_dir cfg) m in
            match preallocate_files io d with
            | (Throw _, _) => Ok (inl 1)
            | (UB w, _) => UB w
            | (Fuel, _) => Fuel
            | (Ok _, d) =>
                found ← ask_tracker env c;
                if bool_decide (found = None) && bool_decide (cfg_peer cfg = []) then Ok (inl 1)
                else
                  let _ := main_params cfg m id in
                  wd ← main_event io (Kernel (first_sends env) (first_connects env))
                         (start m (seed env), d);
                  r ← bootstrap cfg m id found io wd;
                  match r with
                  | inl code => Ok (inl code)
                  | inr wd => Ok (inr (mk_main cfg c io wd.1 wd.2 0 false None))
                  end
            end)
      end).

(** A run of [main] that gets to the loop does so in a state of a run from its disk,
    with the parameters of an accepted command line, the metadata of the torrent file
    and a peer id of twenty printable bytes. *)
Lemma main_start_running env args d st :
  main_start env args d = Ok (inr st) →
  ∃ cfg buffer,
    parse_arguments (path_exists env) args = Ok cfg ∧
    torrent_file env (torrent_path cfg) = Some buffer ∧
    from_bencode buffer = Ok (torrent_ (ms_tracker st)) ∧
    peer_id_ (ms_tracker st) = our_peer_id (main_rand env) ∧
    ms_io st = mk_disk_io (output_dir cfg) (torrent_ (ms_tracker st)) ∧
    ms_config st = cfg ∧ validated st = None ∧
    running_on (prm := main_params cfg (torrent_ (ms_tracker st)) (peer_id_ (ms_tracker st)))
      (m := torrent_ (ms_tracker st)) (ms_io st) d (ms_world st, ms_disk st).
Proof.
  unfold main_start, or_exit. intros H.
  destruct (parse_arguments (path_exists env) args) as [cfg| | |]; try done.
  destruct (show_help cfg); [done|].
  destruct (init_logger _ _) as [log| | |]; try done. cbn [mbind outcome_bind] in H.
  destruct (set_log_level _ log) as [log'| | |]; try done. cbn [mbind outcome_bind] in H.
  destruct (torrent_file env (torrent_path cfg)) as [buffer|] eqn:Eb; [|done].
  destruct (from_bencode buffer) as [m| | |] eqn:Em; try done. cbv zeta in H.
  destruct (create_loop _) as [fd| | |]; try done. cbn [mbind outcome_bind] in H.
  set (id := our_peer_id (main_rand env)) in *.
  set (io := mk_disk_io (output_dir cfg) m) in *.
  destruct (preallocate_files io d) as [[u| | |] d0] eqn:Ed; try done.
  inv_ok H. destruct (_ && _); [done|]. inv_ok H. inv_ok H.
  destruct x1 as [code|wd]; [done|]. injection H as <-. exists cfg, buffer. simpl.
  split_and!; try done. destruct u.
  pose proof (running_event (prm := main_params cfg m id) io d _ _ _
    (running_start (prm := main_params cfg m id) io d (seed env) d0 Ed) H1) as Hr0.
  unfold bootstrap in H2. cbv zeta in H2. inv_ok H2.
  assert (running_on (prm := main_params cfg m id) (m := m) io d x1) as Hr1.
  { destruct x as [infos|]; [by eapply running_event|by simplify_eq]. }
  destruct (bool_decide (cfg_peer cfg = [])); [injection H2 as <-; by destruct x1|].
  destruct (custom_peer (cfg_peer cfg)) as [[ip port]|]; [|done]. unfold or_exit in H2.
  destruct (main_event _ _ x1) as [wd'| | |] eqn:Ev; try done. injection H2 as <-.
  destruct wd' as [w' d']. by eapply running_event.
Qed.

(** Events that throw nothing on their own, as those of the start. *)
Lemma main_event_throws `{prm : Params} (io : DiskIOManager) e wd x :
  quiet (run_event e) → main_event io e wd ≠ Throw x.
Proof.
  intros Hq. specialize (Hq wd.1). unfold main_event. destruct (run_event e wd.1) as [[u w']|e1| |]; try done.
  cbn [mbind outcome_bind].
  pose proof (save_all_throws io (drop (List.length (completed wd.1)) (completed w')) wd.2) as Ht.
  destruct (save_all _ _ _) as [[|e1| |] d1]; try done. intros E. injection E as ->. by eapply Ht.
Qed.

Lemma bootstrap_throws cfg m id found io wd x : bootstrap cfg m id found io wd ≠ Throw x.
Proof.
  unfold bootstrap. set (prm := main_params cfg m id). cbv zeta.
  assert (match found with Some peers => main_event io (AddPeers peers) wd | None => Ok wd end ≠ Throw x) as H.
  { destruct found; [|done]. apply main_event_throws, quiet_add_peers. }
  destruct (match found with Some _ => _ | None => _ end) as [wd1|e1| |]; try done; [|intros [= ->]; by apply H].
  cbn [mbind outcome_bind]. case_bool_decide; [done|]. destruct (custom_peer _) as [[ip port]|]; [|done].
  unfold or_exit. by destruct (main_event _ _ _).
Qed.

(** What [main] does not catch before its loop: the log cannot be set up, or there is no
    epoll instance. Any other failure is an exit code. *)
Theorem main_start_uncaught env args d e :
  main_start env args d = Throw e →
  log_directories env = Some e ∨ log_file env = Some e ∨
  epoll_fd env < 0 ∧ e = runtime_error "EventLoop: failed to create epoll instance".
Proof.
  unfold main_start, or_exit. intros H. destruct (parse_arguments (path_exists env) args) as [cfg| | |] eqn:Ea; try done.
  destruct (show_help cfg); [done|]. unfold init_logger in H.
  destruct (log_directories env) as [e1|]; [injection H as <-; by left|].
  destruct (log_file env) as [e1|]; [injection H as <-; right; by left|].
  destruct (parsed_level_set _ _ _ Ea) as (l & El & _). cbn [may_throw mbind outcome_bind] in H.
  rewrite El in H. cbn [mbind outcome_bind] in H. destruct (torrent_file env _) as [buffer|]; [|done].
  destruct (from_bencode buffer) as [m| | |]; try done. cbv zeta in H. unfold create_loop in H.
  destruct (Z.ltb_spec (epoll_fd env) 0) as [Hfd|_]; [injection H as <-; right; right; by split|].
  cbn [mbind outcome_bind] in H. destruct (preallocate_files _ d) as [[u| | |] d0]; try done.
  destruct (ask_tracker env _) as [found|e1| |] eqn:Ef; try done;
    [|unfold ask_tracker in Ef; by destruct (announce _ _ _ _ _ _ _ _ _).2].
  cbn [mbind outcome_bind] in H. destruct (_ && _); [done|].
  destruct (main_event _ _ _) as [wd| | |] eqn:Ev; try done.
  cbn [mbind outcome_bind] in H. destruct (bootstrap _ _ _ _ _ _) as [r|e1| |] eqn:Eb; try done;
    [by destruct r|exfalso; by eapply bootstrap_throws].
Qed.

(** The loop [main] enters: its two timers registered, in this order. *)
Definition main_loop (clock : Z → Z) (st : MainState)
    : Loop (CB := MainTimer) (W := MainState) :=
  let l := mk_loop false 1 queue_empty ∅ st 0 in
  let l := (register_timer clock 250 (Some CheckShutdown) l).2 in
  (register_timer clock 1000 (Some RenderProgress) l).2.
End Startup.

(** ** Witnesses *)

(** The state after the run of [Sample], one piece of two there, in a loop whose timers
    are those of [main]; no tracker answers. *)
#[local] Existing Instance one_file.
Definition slow_clock (i : Z) : Z := i * 300000000.
Definition no_tracker : list byte → CurlResult := λ _, CurlNoHandle.
Definition tiny_state (interrupted : bool) : MainState :=
  mk_main config_init (mk_tracker tiny_metadata (replicate 20 x33)) tiny_io downloaded tiny_disk 0
    interrupted None.
Definition tiny_loop (interrupted : bool) : Loop (CB := MainTimer) (W := MainState) :=
  set_running true (main_loop slow_clock (tiny_state interrupted)).

Lemma tiny_state_ok b :
  main_state_ok tiny_metadata empty_disk (tiny_state b).
Proof.
  split_and!; [done|done| |apply Forall_nil_2|exact tiny_running].
  split; [apply (bool_decide_unpack _); vm_compute; exact I|].
  repeat (constructor; [split; [eexists; reflexivity|split; vm_compute; done]|]). constructor.
Qed.

Lemma tiny_announce_defined b :
  defined (announce no_tracker (λ _, sample_env) (ms_tracker (rest (tiny_loop b))) 6881
             (total_length tiny_metadata) 0 0 (Some (bs "completed")) []).2.
Proof. vm_compute. exact I. Qed.

Lemma second_piece_missing : has_piece (pm downloaded) 1 = false.
Proof. vm_compute. reflexivity. Qed.

Lemma completion_reported_witness :
  ¬ complete_download (pm downloaded) tiny_metadata ∧
  ∃ eta l', render_progress no_tracker (λ _, sample_env) slow_clock (tiny_loop false)
            = Ok (eta, l') ∧ running l' = true.
Proof.
  assert (¬ complete_download (pm downloaded) tiny_metadata) as Hnot.
  { intros H. assert (has_piece (pm downloaded) 1 = true) as E by (apply H; vm_compute; split; congruence).
    rewrite second_piece_missing in E. discriminate E. }
  split; [exact Hnot|].
  pose proof (completion_reported tiny_metadata no_tracker (λ _, sample_env)
    slow_clock empty_disk (tiny_loop false) (tiny_state_ok false)
    (tiny_announce_defined false)) as (_ & _ & H & _).
  destruct (H Hnot) as (eta & l' & E & Er & _). exists eta, l'. split; [exact E|exact Er].
Defined.

(** The flag is set, and the check and the progress timer are both due. *)
Definition late_loop : Loop (CB := MainTimer) (W := MainState) :=
  let l := tiny_loop true in
  mk_loop (running l) (next_timer_id l) (timers l) (cancelled_timers l) (rest l) 10.

Lemma late_loop_due : check_due (slow_clock (reads late_loop)) late_loop.
Proof.
  right. exists (mk_timer 1 250000000 CheckShutdown). split; [vm_compute; right; left|].
  split; [reflexivity|]. split; [vm_compute; congruence|vm_compute; intros H; inversion H].
Qed.

Lemma interrupt_stops_witness :
  due_by (slow_clock (reads late_loop)) (elems_of late_loop) = 2%nat ∧
  ∃ l', run_loop slow_clock (fire no_tracker (λ _, sample_env) slow_clock) main_fds fire_fd handle_sigint
          3 [] late_loop = Ok (Some l') ∧ running l' = false.
Proof.
  split; [vm_compute; reflexivity|].
  apply (interrupt_stops tiny_metadata no_tracker (λ _, sample_env) slow_clock
    ltac:(unfold slow_clock; intros; lia) empty_disk 3 [] late_loop);
    [vm_compute; discriminate| |reflexivity|exact late_loop_due|vm_compute; lia].
  split; [exact (tiny_state_ok true)|]. split; [reflexivity|exact (tiny_announce_defined true)].
Defined.

(** A torrent of one empty file is accepted and has no pieces. *)
Definition empty_torrent : list byte :=
  encode (BDict [(bs "announce", BString (bs "udp://t"));
                 (bs "info", BDict [(bs "length", BInt 0); (bs "name", BString (bs "n"));
                    (bs "piece length", BInt 16384); (bs "pieces", BString [])])]).

Lemma empty_torrent_accepted :
  ∃ m, from_bencode empty_torrent = Ok m ∧ num_pieces m = 0 ∧ wf_metadata m.
Proof. eexists. split; [vm_compute; reflexivity|]. split; [done|]. unfold wf_metadata. by vm_compute. Qed.
