(* ===== verification/Run.v ===== *)
(** * A whole run of the program

    [main] from its arguments to its exit code: the start (Main.v), the loop (Timers.v)
    with the timers of [main] and the connections' callbacks, which change the world
    and the disk (Persist.v). What holds between two callbacks is an invariant of the
    loop; with it, a run that ends has on disk what it says it has. Completion.v shows
    when it ends. *)

From S2P Require Import Prelude StdString Bencode Bitfield Hasher Torrent Tracker TrackerUdp.
From S2P Require Import Config Logger PieceManager Disk PiecePicker PeerMessage Socket EventLoop Timers.
From S2P Require Import World PeerConnection Coordinator System Handlers Steps Sample Persist Main.

(** How a run of [main] ends. After the loop it returns 0. *)
Inductive MainResult {R : UniformRng} :=
| Exited (code : Z)
| Finished (st : MainState)
| Polling.

Section Run.
Context `{C : CryptoSHA1} `{R : UniformRng} {MO : MapOrder} `{FS : FileSystem}
  `{TQ : TimerQueue MainTimer}.

Abbreviation MainLoop := (Loop (CB := MainTimer) (W := MainState)).

(** What the run meets: the environment of the start, the clock, the tracker at the end,
    and the answers of [epoll_wait] with the signals caught meanwhile. *)
Record RunEnv := mk_run_env {
  start_env : MainEnv;
  steady_clock : Z → Z;
  done_curl : list byte → CurlResult;
  done_udp : nat → UdpEnv;
  polls : list (bool * Wait (X := bool * list RecvResult));
}.

Definition main (env : RunEnv) (fuel : nat) (args : list (list byte)) (d : Disk)
    : outcome MainResult :=
  r ← main_start (start_env env) args d;
  match r with
  | inl code => Ok (Exited code)
  | inr st =>
      let clock := steady_clock env in
      r ← run clock (fire (done_curl env) (done_udp env) clock) main_fds fire_fd handle_sigint
            fuel (polls env) (main_loop clock st);
      Ok (match r with Some l => Finished (rest l) | None => Polling end)
  end.

(** ** The loop's invariant *)

Section Loop.
Context (cfg : AppConfig) (c : TrackerClient) (io : DiskIOManager) (d : Disk).
Abbreviation m := (torrent_ c).
#[local] Instance prm : Params := main_params cfg m (peer_id_ c).
Context {PF : ParamsFor prm m}.
Hypothesis io_metadata : disk_metadata io = m.
Hypothesis io_placeable : placeable io (files m).
Hypothesis disk_reliable : reliable d.
Variable curl : list byte → CurlResult.
Variable udp : nat → UdpEnv.
Variable clock : Z → Z.

(** All pieces are there, and were found valid on disk. *)
Definition reported (st : MainState) : Prop :=
  validated st = Some true ∧ complete_download (pm (ms_world st)) m.

(** Between two callbacks: the objects are those of the start, the world and the disk
    are of a run from [d], nothing is reported while the loop runs, and it stops only
    for a reason. *)
Definition state_ok (is_running : bool) (st : MainState) : Prop :=
  ms_config st = cfg ∧ ms_tracker st = c ∧ ms_io st = io ∧
  running_on (prm := prm) (m := m) io d (ms_world st, ms_disk st) ∧
  (validated st = None ∨ reported st ∧ is_running = false) ∧
  (is_running = false → g_shutdown_requested st = true ∨ reported st).

Definition loop_ok (l : MainLoop) : Prop := state_ok (running l) (rest l).

(** While the loop runs nothing is reported. *)
Lemma running_unreported st : state_ok true st → validated st = None.
Proof. intros (_ & _ & _ & _ & [?|[_ ?]] & _); done. Qed.

Lemma render_progress_ok l eta l' :
  loop_ok l → running l = true → render_progress curl udp clock l = Ok (eta, l') → loop_ok l'.
Proof.
  unfold loop_ok. intros Hl Hr H. rewrite Hr in Hl. pose proof (running_unreported _ Hl) as Hval.
  destruct Hl as (Ec & Et & Ei & Hrun & _). unfold render_progress, meta in H.
  rewrite Et in H. inv_ok H. inv_ok H. pose proof params_metadata as (_ & Hn & _).
  destruct (running_saved _ _ _ Hrun) as [Hw _]. destruct (reachable_inv _ Hw) as ((Hwf & Em & _) & _).
  simpl in Hwf, Em. rewrite (wrap_small 64 (num_pieces m)) in H by lia.
  destruct (Z.eqb_spec (Bitfield.count (bitfield (pm (ms_world (rest l))))) (num_pieces m)) as [Hall|_].
  2:{ injection H as <- <-. simpl. rewrite Hr. unfold state_ok. simpl. split_and!; auto; done. }
  apply (count_complete _ m Hwf Em) in Hall. rewrite Ei in H.
  rewrite verify_loop_ok in H.
  2:{ intros i Hi%elem_of_seqZ.
      apply (running_pieces_verify_run (m := m) io d (ms_world (rest l)) _ i); auto; lia. }
  destruct (announce _ _ _ _ _ _ _ _ _) as [calls [x1|e|w|]]; try done; injection H as <- <-;
    (split_and!; [done|done|done|done|right; by split|intros _; right; by split]).
Qed.

Lemma fire_ok cb l l' :
  loop_ok l → running l = true → fire curl udp clock cb l = Ok l' → loop_ok l'.
Proof.
  intros Hl Hr H. destruct cb; cbn [fire] in H.
  - injection H as <-. unfold check_shutdown. destruct (g_shutdown_requested (rest l)) eqn:Ef; [|done].
    unfold loop_ok in *. rewrite Hr in Hl. pose proof (running_unreported _ Hl).
    destruct Hl as (? & ? & ? & ? & _). simpl. split_and!; auto.
  - inv_ok H. destruct x as [eta l1]. injection H as <-. by eapply render_progress_ok.
Qed.

Lemma phase_ok fuel now l log timeout_ms now' l' log' :
  loop_ok l → timer_phase clock (fire curl udp clock) fuel now l log = Ok (timeout_ms, now', l', log') →
  loop_ok l'.
Proof.
  revert now l log. induction fuel as [|f IH]; intros now l log Hl; [done|]. cbn [timer_phase].
  destruct (running l) eqn:Er; [|by intros [= <- <- <- <-]].
  destruct (top (timers l)) as [t|]; [|by intros [= <- <- <- <-]].
  case_bool_decide as Hc; [by apply IH|]. destruct (deadline t <=? now); [|by intros [= <- <- <- <-]].
  intros E. inv_ok E. apply IH in E; [done|]. change (loop_ok x). by eapply fire_ok; [..|exact E0].
Qed.

Lemma fire_fd_ok p fd evs x l l' :
  loop_ok l → running l = true → fire_fd p fd evs x l = Ok l' → loop_ok l' ∧ running l' = true.
Proof.
  unfold fire_fd, loop_ok. intros Hl Hr H. rewrite Hr in Hl.
  pose proof (running_unreported _ Hl) as Hval. destruct Hl as (Ec & Et & Ei & Hrun & _).
  unfold meta in H. rewrite Ec, Et, Ei in H. inv_ok H. injection H as <-. simpl. rewrite Hr.
  split; [|done]. split_and!; simpl; auto; [|done]. destruct x0 as [w' d']. by eapply running_event.
Qed.

Lemma dispatch_ok evs l l' :
  loop_ok l → running l = true → dispatch main_fds fire_fd evs l = Ok l' →
  loop_ok l' ∧ running l' = true.
Proof.
  revert l. induction evs as [|[[fd ev] x] evs IH]; intros l Hl Hr H; cbn [dispatch] in H;
    [by simplify_eq|].
  destruct (fd_callbacks _ !! fd) as [p|]; inv_ok H; [|injection H0 as <-; by apply (IH l)].
  destruct (fire_fd_ok _ _ _ _ _ _ Hl Hr H0) as [Hx Hrx]. by apply (IH x0).
Qed.

(** The loop ends with the invariant, and runs on only if a poll failed. *)
Lemma run_loop_ok fuel waits l l' :
  loop_ok l →
  run_loop clock (fire curl udp clock) main_fds fire_fd handle_sigint fuel waits l = Ok (Some l') →
  loop_ok l' ∧ (running l' = true → ∃ signal, (signal, WaitFailed) ∈ waits).
Proof.
  revert l. induction waits as [|[signal w] waits IH]; intros l Hl H; cbn [run_loop] in H;
    (destruct (running l) eqn:Er; [|simplify_eq; split; [done|congruence]]);
    unfold now_ in H; cbv beta iota zeta in H; inv_ok H; destruct x as [[[timeout_ms now'] l1] log1];
    apply phase_ok in H0; try done;
    (destruct (running l1) eqn:Er1; cbn [negb] in H; [|simplify_eq; split; [done|congruence]]);
    [done|].
  set (l2 := if signal then _ else _) in H.
  assert (loop_ok l2 ∧ running l2 = true) as [Hl2 Er2].
  { subst l2. destruct signal; [|done]. split; [|done]. unfold loop_ok in *. simpl.
    rewrite Er1 in *. pose proof (running_unreported _ H0). destruct H0 as (? & ? & ? & ? & _).
    split_and!; auto; done. }
  clearbody l2. destruct w as [evs| |].
  - inv_ok H. destruct (dispatch_ok _ _ _ Hl2 Er2 H1) as [Hx _]. destruct (IH x Hx H) as [? Hp].
    split; [done|]. intros Hr'. destruct (Hp Hr') as [sg ?]. exists sg. by constructor.
  - destruct (IH l2 Hl2 H) as [? Hp]. split; [done|]. intros Hr'. destruct (Hp Hr') as [sg ?].
    exists sg. by constructor.
  - simplify_eq. split; [done|]. intros _. exists signal. constructor.
Qed.

(** What a run that ends leaves. *)
Lemma run_ok fuel waits st l :
  ms_config st = cfg → ms_tracker st = c → ms_io st = io → validated st = None →
  running_on (prm := prm) (m := m) io d (ms_world st, ms_disk st) →
  run clock (fire curl udp clock) main_fds fire_fd handle_sigint fuel waits (main_loop clock st)
    = Ok (Some l) →
  (∀ i, 0 ≤ i → has_piece (pm (ms_world (rest l))) i = true →
     verify_piece io i (ms_disk (rest l)) = (Ok true, ms_disk (rest l))) ∧
  (validated (rest l) = None ∨ reported (rest l)) ∧
  (validated (rest l) = Some true ∨ g_shutdown_requested (rest l) = true ∨
   ∃ signal, (signal, WaitFailed) ∈ waits).
Proof.
  intros Ec Et Ei Ev Hrun H. unfold run in H. apply run_loop_ok in H.
  2:{ unfold loop_ok, state_ok. simpl. split_and!; auto; done. }
  destruct H as [(_ & _ & _ & Hrun' & Hval & Hwhy) Hpoll]. split_and!.
  - intros i Hi Hh. by apply (running_pieces_verify_run (m := m) io d (ms_world (rest l)) _ i).
  - naive_solver.
  - destruct (running l); [right; right; auto|]. destruct Hwhy as [?|[? _]]; auto.
Qed.
End Loop.

(** The parameters [main] derives from an accepted command line. *)
Lemma main_params_for exists_ args cfg m id :
  parse_arguments exists_ args = Ok cfg → wf_metadata m → ParamsFor (main_params cfg m id) m.
Proof.
  intros H Hm. destruct (parse_arguments_wf _ _ _ H) as [Hp _]. pose proof Hm as (_ & Hn & _).
  unfold int_max in Hp. constructor; [done|by apply wrap_small; lia|].
  unfold max_connections_, main_params. rewrite wrap_small; lia.
Qed.

End Run.

(** ** Witness *)

(** A torrent of one file and two pieces, and a run that downloads it from the peer of
    the command line. *)
#[local] Existing Instance one_file.
Definition run_torrent : list byte :=
  encode (BDict [(bs "announce", BString (bs "u"));
                 (bs "info", BDict [(bs "length", BInt 30); (bs "name", BString (bs "n"));
                    (bs "piece length", BInt 16);
                    (bs "pieces", BString (toy_digest (zeros 16) ++ toy_digest (zeros 14)))])]).
Definition run_args : list (list byte) := [bs "n.torrent"; bs "--peer=1.2.3.4:6881"].
Definition from_peer (rs : list RecvResult) : bool * Wait (X := bool * list RecvResult) :=
  (false, WaitEvents [(5, EPOLLIN, (false, rs))]).
Definition run_env : RunEnv := {|
  start_env := mk_main_env (λ _, true) None None 3 (λ _, Some run_torrent) (λ i, i) 0 no_tracker
    (λ _, sample_env) (replicate 40 (Sends 1000)) [(Connected, 5, true)];
  steady_clock := λ i, i * 100000000;
  done_curl := no_tracker;
  done_udp := λ _, sample_env;
  polls :=
    [from_peer [Received their_handshake];
     from_peer [Received (wire (BitfieldMsg [xc0])); Received (wire UnchokeMsg)];
     from_peer [Received (wire (PieceMsg 0 0 (zeros 16)))];
     from_peer [Received (wire (PieceMsg 1 0 (zeros 14)))]] ++ replicate 20 (false, WaitInterrupted);
|}.
Abbreviation run_result := (main run_env 20 run_args empty_disk).

Definition run_metadata : TorrentMetadata :=
  match from_bencode run_torrent with Ok m => m | _ => tiny_metadata end.
Definition run_config : AppConfig :=
  match parse_arguments (λ _, true) run_args with Ok c => c | _ => config_init end.
Definition finished : MainState :=
  match run_result with Ok (Finished st) => st | _ => tiny_state false end.

Lemma run_starts :
  parse_arguments (λ _, true) run_args = Ok run_config ∧ from_bencode run_torrent = Ok run_metadata.
Proof. split; vm_compute; reflexivity. Qed.

Lemma run_finishes : run_result = Ok (Finished finished).
Proof. vm_compute. reflexivity. Qed.

Lemma run_metadata_ok :
  wf_metadata run_metadata ∧
  placeable (mk_disk_io (output_dir run_config) run_metadata) (files run_metadata).
Proof.
  split; [unfold wf_metadata; vm_compute; repeat split; congruence|].
  split; [apply (bool_decide_unpack _); vm_compute; exact I|].
  repeat (constructor; [split; [eexists; reflexivity|vm_compute; split; congruence]|]). constructor.
Qed.

