(* ===== verification/Liveness.v ===== *)
(** * A download among cooperating peers ends complete

    The streams of bytes the peers send: answers to the requests outstanding at them,
    in any order, among messages that bring no block, and cut anywhere. Every event that
    delivers some is handled, each answer brings one block, and as long as a block is
    missing some answer is asked for: so the download completes, after exactly as many
    answers as blocks were missing. *)

From S2P Require Import Prelude StdString Bencode Bitfield Hasher Torrent PieceManager.
From S2P Require Import PiecePicker PeerMessage EventLoop World PeerConnection Coordinator.
From S2P Require Import System Handlers Steps Termination Safe Progress Swarm Failures.

Section Liveness.
Context `{C : CryptoSHA1} `{R : UniformRng} `{!UniformRngLaws R} {prm : Params} {MO : MapOrder}
  {m : TorrentMetadata} {PF : ParamsFor prm m}.
Variable content : Z → list byte.
Hypothesis content_ok : content_of content m.

Implicit Types (w : World).
Abbreviation Good := (Inv (m := m) nobody nothing).
Abbreviation sound := (Swarm.sound (m := m) content).
Abbreviation healthy := (Swarm.healthy (m := m) content).
Abbreviation topped := (Swarm.topped (m := m)).
Abbreviation answer := (answer content).
Abbreviation any := (λ _ : RequestedBlock, True).

(** The message that answers a request, on the wire. *)
Definition reply (r : RequestedBlock) : PeerMessage := PieceMsg (r_piece r) (r_begin r) (answer r).
Definition frame (r : RequestedBlock) : list byte := wire (reply r).

(** Messages that bring no block: most we do not act on, [HaveMsg] is noted. *)
Definition chatter (msg : PeerMessage) : Prop :=
  match msg with
  | KeepAliveMsg | InterestedMsg | NotInterestedMsg | HaveMsg _ | RequestMsg _ _ _ | CancelMsg _ _ _
  | PortMsg _ => wf_msg msg
  | _ => False
  end.

(** What a peer sends: an answer, or chatter. *)
Inductive item := Answer (r : RequestedBlock) | Chatter (msg : PeerMessage).

Definition item_msg (x : item) : PeerMessage :=
  match x with Answer r => reply r | Chatter msg => msg end.

Definition answered (xs : list item) : list RequestedBlock :=
  omap (λ x, match x with Answer r => Some r | Chatter _ => None end) xs.

Definition stream (xs : list item) : list byte := concat ((λ x, wire (item_msg x)) <$> xs).

(** Answers to requests outstanding, each at most once. *)
Definition items_ok (st : PeerState) (xs : list item) : Prop :=
  NoDup (answered xs) ∧ (∀ r, r ∈ answered xs → r ∈ outstanding st) ∧
  ∀ msg, Chatter msg ∈ xs → chatter msg.

(** The start of an item that has not come to its end, after the answers [rs]. *)
Definition expected (st : PeerState) (rs : list RequestedBlock) (x : item) : Prop :=
  match x with Answer r => r ∈ outstanding st ∧ (r ∉ rs) | Chatter msg => chatter msg end.

Definition partial (st : PeerState) (rs : list RequestedBlock) (part : list byte) : Prop :=
  part = [] ∨
  ∃ x n, expected st rs x ∧ 0 ≤ n < zlen (wire (item_msg x)) ∧ part = ztake n (wire (item_msg x)).

(** What is in the receive buffer of [q], and its interest in us, aside, the links are
    as before. *)
Definition rx_link (c : Conn) : Conn :=
  let l := link c in with_rx [] (with_peer (peer_choking l) true l).
Definition other_links (q : Z) w w' : Prop :=
  (∀ p, p ≠ q → link <$> (conns w' !! p) = link <$> (conns w !! p)) ∧
  rx_link <$> (conns w' !! q) = rx_link <$> (conns w !! q).

Lemma other_links_trans q w1 w2 w3 :
  other_links q w1 w2 → other_links q w2 w3 → other_links q w1 w3.
Proof. intros [H1 H2] [K1 K2]. split; [|congruence]. intros p Hp. by rewrite K1, H1. Qed.

Lemma same_other_links q w w' : same_links w w' → other_links q w w'.
Proof.
  intros E. assert (∀ p, link <$> (conns w' !! p) = link <$> (conns w !! p)) as H.
  { intros p. pose proof (f_equal (lookup p) E) as Ep. by rewrite !lookup_fmap in Ep. }
  split; [auto|]. specialize (H q).
  destruct (conns w' !! q) as [c'|], (conns w !! q) as [c|]; try done. simpl in *.
  apply (inj Some) in H. unfold rx_link. by rewrite H.
Qed.

Lemma rx_link_inv c c' :
  rx_link c = rx_link c' →
  c_fd c = c_fd c' ∧ c_state c = c_state c' ∧ peer_choking c = peer_choking c' ∧
  on_message c = on_message c'.
Proof. intros E. destruct c, c'. injection E. intros. by split_and!. Qed.

Lemma other_conn q w w' c :
  other_links q w w' → conns w !! q = Some c → ∃ c', conns w' !! q = Some c' ∧ rx_link c' = rx_link c.
Proof.
  intros [_ E] Hc. rewrite Hc in E. apply fmap_Some in E as (c' & ? & ?). by exists c'.
Qed.

(** What an event of [q]'s may change: [moves], but [q] may get more pieces. *)
Record gains (q n : Z) w w' : Prop := {
  gains_others : ∀ p, p ≠ q → requests <$> (peers w' !! p) = requests <$> (peers w !! p);
  gains_mine : ∀ st, peers w !! q = Some st → ∃ st', peers w' !! q = Some st' ∧
    ∀ i, Bitfield.has (p_bitfield st) i = true → Bitfield.has (p_bitfield st') i = true;
  gains_metadata : metadata (pm w') = metadata (pm w);
  gains_pending : pending_le (pm w) (pm w');
  gains_todo : todo (pm w') = todo (pm w) - n;
}.

Lemma gains_trans q n k l w1 w2 w3 :
  gains q n w1 w2 → gains q k w2 w3 → l = n + k → gains q l w1 w3.
Proof.
  intros [H1 H2 H3 H4 H5] [K1 K2 K3 K4 K5] ->. constructor; [| |congruence| |lia].
  - intros p Hp. by rewrite K1, H1.
  - intros st Hst. destruct (H2 st Hst) as (st1 & Hst1 & Hb1).
    destruct (K2 st1 Hst1) as (st2 & ? & Hb2). exists st2. auto.
  - intros i Hi H. apply K4; [by rewrite H3|]. by apply H4.
Qed.

Lemma moves_gains q n w w' : moves q n w w' → gains q n w w'.
Proof.
  intros [H1 H2 ???]. constructor; try done. intros st Hst. rewrite Hst in H2.
  apply fmap_Some in H2 as (st' & ? & E). exists st'. by rewrite E.
Qed.

Lemma gains_same q w w' : peers w' = peers w → pm w' = pm w → gains q 0 w w'.
Proof.
  intros Ep Em. constructor; rewrite ?Ep, ?Em; try done; [|by intros ? ?|lia].
  intros st Hst. by exists st.
Qed.

(** Nothing is left to ask for, or [q] has been asked for something. *)
Definition busy w (q : Z) : Prop :=
  (∀ i, 0 ≤ i < num_pieces m → has_pending_blocks (pm w) i = false) ∨
  ∃ st, peers w !! q = Some st ∧ outstanding st ≠ [].

Definition all_pieces (st : PeerState) : Prop :=
  ∀ i, 0 ≤ i < num_pieces m → Bitfield.has (p_bitfield st) i = true.

Definition full w (q : Z) : Prop := ∃ st, peers w !! q = Some st ∧ all_pieces st.

Lemma topped_busy w q : topped w q → full w q → busy w q.
Proof.
  intros [Hd|(st' & ? & H5)] (st & Hst & Hall).
  - left. intros i Hi. by apply (Hd st), Hall.
  - right. exists st'. split; [done|]. by intros E; rewrite E in H5.
Qed.

Lemma gains_full q n w w' p : gains q n w w' → full w p → full w' p.
Proof.
  intros [Ho Hg _ _ _] (st & Hst & Hall). destruct (decide (p = q)) as [->|Hne].
  - destruct (Hg st Hst) as (st' & Hst' & Hb). exists st'. split; [done|]. intros i Hi. by apply Hb, Hall.
  - specialize (Ho p Hne). rewrite Hst in Ho.
    apply fmap_Some in Ho as (st' & ? & [E _]%requests_inv). exists st'. split; [done|].
    unfold all_pieces. by rewrite <- E.
Qed.

Definition arrives (q n : Z) (P : RequestedBlock → Prop) w w' : Prop :=
  sound w' ∧ gains q n w w' ∧ other_links q w w' ∧ keeps_asked q P w w'.

Lemma arrives_trans q n k l (P P' : RequestedBlock → Prop) w1 w2 w3 :
  arrives q n P w1 w2 → arrives q k P' w2 w3 → l = n + k → arrives q l (λ r, P r ∧ P' r) w1 w3.
Proof.
  intros (_ & H1 & H2 & H3) (Hs & K1 & K2 & K3) ->.
  split_and!; [done|by eapply gains_trans|by eapply other_links_trans|].
  intros st r Hst Hr [HP HP']. destruct (H3 st r Hst Hr HP) as (st' & ? & ?). eauto.
Qed.

Lemma advances_arrives q n P w w' : advances (m := m) content q n P w w' → arrives q n P w w'.
Proof. intros (? & ? & ? & ?). split_and!; try done; [by apply moves_gains|by apply same_other_links]. Qed.

Lemma calm_busy q w w' : calm w w' → busy w q → busy w' q.
Proof.
  intros Hc [Hd|(st & Hst & H5)]; [left; by rewrite (calm_pm _ _ Hc)|right].
  destruct (calm_peer _ _ _ _ Hc Hst) as (st' & Hst' & [_ Eo]%requests_inv). exists st'. by rewrite Eo.
Qed.

Lemma arrives_refl q P w : sound w → arrives q 0 P w w.
Proof.
  intros Hs. split_and!; [done|by apply gains_same|by apply same_other_links|].
  intros st r ? ? _. by exists st.
Qed.

(** Bytes put into or taken from a receive buffer. *)
Lemma rx_arrives q w rx P :
  sound w → arrives q 0 P w (set_conns (alter (with_rx rx) q) w).
Proof.
  intros Hs. pose proof Hs as [? Hl ? ? ? ?]. split_and!.
  - constructor; try done. intros p Hp. destruct (Hl p Hp) as (c & Hc & Hst & Hfd & Hm & Hcb).
    unfold open_link. simpl. destruct (decide (p = q)) as [->|].
    + exists (with_rx rx c). by rewrite lookup_alter_eq, Hc.
    + exists c. by rewrite lookup_alter_ne.
  - by apply gains_same.
  - split; simpl.
    + intros p Hp. by rewrite lookup_alter_ne.
    + rewrite lookup_alter_eq. by destruct (conns w !! q).
  - intros st r Hst Hr _. by exists st.
Qed.

(** ** Answers are read as such *)

Lemma reply_wf w r :
  sound w → asked (peers w) r → wf_msg (reply r) ∧ zlen (answer r) ≤ block_size.
Proof.
  intros [[Hw Em] _ _ _ Hacc _] Hr%Hacc. pose proof params_metadata as Hm.
  destruct (requested_block content (pm w) r) as (k & b & _ & _ & _ & Eb & Hlt & Ed);
    [done|by rewrite Em|done|].
  destruct Hr as [[Hi _] _]. rewrite Em in Hi. destruct (content_ok _ Hi) as [El _].
  pose proof (piece_len_range m (r_piece r) Hm (proj1 Hi)) as Hpl.
  pose proof (num_blocks_spec (zlen (content (r_piece r))) (Z.of_nat k)) as Hs.
  assert (zlen (answer r) ≤ block_size) as Hlen.
  { rewrite Ed, block_bytes_length by lia. lia. }
  split; [|done]. destruct Hm as (_ & Hn & _). unfold reply, wf_msg, is_u32, block_size in *. lia.
Qed.

(** ** One answer *)

Lemma healthy_conn w q st :
  healthy w → peers w !! q = Some st →
  ∃ c, conns w !! q = Some c ∧ c_state c = Active ∧ c_fd c ≠ -1 ∧ on_message c = true ∧
    fd_callbacks (fds w) !! c_fd c = Some q.
Proof. intros [_ Hs] Hst. apply (sound_links _ _ Hs). by eexists. Qed.

Lemma alter_id (cs : gmap Z Conn) q : alter (λ c, c) q cs = cs.
Proof.
  apply map_eq. intros p. destruct (decide (p = q)) as [->|].
  - rewrite lookup_alter_eq. by destruct (cs !! q).
  - by rewrite lookup_alter_ne.
Qed.

Lemma same_links_conn w w' q c :
  same_links w w' → conns w !! q = Some c → ∃ c', conns w' !! q = Some c' ∧ link c' = link c.
Proof.
  intros E Hc. pose proof (f_equal (lookup q) E) as H. rewrite !lookup_fmap, Hc in H.
  apply fmap_Some in H as (c' & ? & ?). by exists c'.
Qed.

(** A message at the front of the buffer is taken off it and handled. *)
Lemma safe_round w q st c msg rest Q :
  healthy w → peers w !! q = Some st → conns w !! q = Some c → wf_msg msg →
  rx_buffer c = wire msg ++ rest →
  safe (handle_peer_message q msg) (λ _, Q true)
    (set_conns (alter (λ c, received_flags msg (with_rx rest c)) q) w) →
  safe (process_round q) Q w.
Proof.
  intros Hh Hst Hc Hwf Erx H. destruct (healthy_conn _ _ _ Hh Hst) as (c0 & Hc0 & Hact & Hfd & Hm & Hcb).
  rewrite Hc in Hc0. injection Hc0 as <-. unfold process_round. do 2 safe_step. rewrite Hact. safe_step.
  eapply safe_lift; [rewrite Erx; by apply deserialize_wire|]. cbv beta iota.
  rewrite bool_decide_eq_false_2 by done. cbn [andb].
  assert (0 < zlen (wire msg)) as Hpos.
  { pose proof (wire_nonempty msg). destruct (wire msg) as [|x l]; [done|].
    rewrite zlen_cons. pose proof (zlen_nonneg l). lia. }
  rewrite (proj2 (Z.ltb_lt _ _)) by done. cbn [when].
  assert (zdrop (zlen (wire msg)) (rx_buffer c) = rest) as ->.
  { rewrite Erx. unfold zdrop, zlen. by rewrite Nat2Z.id, drop_app_length. }
  do 4 safe_step.
  assert (set_conns (alter (received_flags msg) q) (set_conns (alter (with_rx rest) q) w) =
          set_conns (alter (λ c, received_flags msg (with_rx rest c)) q) w) as ->.
  { unfold set_conns. simpl. by rewrite alter_twice. }
  rewrite Hm. cbn [when run_on_message on_message_callbacks]. safe_step.
  eapply safe_mono; [exact H|]. by intros [] w2 _ ?.
Qed.

(** Taking it off changes nothing but the buffer and the peer's interest. *)
Lemma read_arrives w q msg rest P :
  healthy w → msg ≠ ChokeMsg → msg ≠ UnchokeMsg →
  let w1 := set_conns (alter (λ c, received_flags msg (with_rx rest c)) q) w in
  healthy w1 ∧ arrives q 0 P w w1.
Proof.
  intros [Hi Hs] Hch Hun w1.
  assert (∀ c, rx_link (received_flags msg (with_rx rest c)) = rx_link c ∧
    c_fd (received_flags msg (with_rx rest c)) = c_fd c ∧
    c_state (received_flags msg (with_rx rest c)) = c_state c ∧
    on_message (received_flags msg (with_rx rest c)) = on_message c) as Hf by (intros c; by destruct msg).
  assert (sound w1) as Hs1.
  { pose proof Hs as [? Hl ? ? ? ?]. constructor; try done. intros p Hp.
    destruct (Hl p Hp) as (c & Hc & Hst & Hfd & Hm & Hcb). unfold open_link. simpl.
    destruct (decide (p = q)) as [->|]; [|exists c; by rewrite lookup_alter_ne].
    exists (received_flags msg (with_rx rest c)). destruct (Hf c) as (_ & -> & -> & ->).
    by rewrite lookup_alter_eq, Hc. }
  split; [split; [|done]|split_and!; [done|..]].
  - destruct (upd_conn_inv (m := m) nobody nothing w w1 tt q (λ c, received_flags msg (with_rx rest c))
      ltac:(intros c; by destruct msg) Hi eq_refl) as [? _]. done.
  - by apply gains_same.
  - split; simpl; [intros p Hp; by rewrite lookup_alter_ne|]. rewrite lookup_alter_eq.
    destruct (conns w !! q) as [c|]; [|done]. simpl. by destruct (Hf c) as [-> _].
  - intros st r Hst Hr _. by exists st.
Qed.

(** A [HaveMsg] is noted, and our interest told; nothing is asked for. *)
Lemma safe_have w q st i :
  healthy w → peers w !! q = Some st → 0 ≤ i →
  safe (handle_have q st i) (λ _ w', Good w' ∧ arrives q 0 any w w' ∧ same_links w w' ∧
    (busy w q → busy w' q)) w.
Proof.
  intros [Hi Hs] Hst Hr.
  eapply (safe_mono _ (λ _ w', arrives q 0 any w w' ∧ same_links w w' ∧ (busy w q → busy w' q))).
  2:{ intros u w' H ?. split; [|done]. by eapply handle_have_inv. }
  unfold handle_have. pose proof (arrives_refl q any w Hs) as H0.
  destruct (i <? num_pieces_); [|by safe_step]. safe_step.
  eapply (safe_mono _ (λ _ w1, arrives q 0 any w w1 ∧ same_links w w1 ∧ (busy w q → busy w1 q))).
  { apply safe_when; [intros _|done]. set (st1 := with_bitfield _ st). do 3 safe_step.
    split; [split; [|split; [|split]]|split; [done|]].
    - by eapply (put_sound content w _ q st st1).
    - constructor; try done; [|intros st' E; rewrite Hst in E; injection E as <-|by intros ? ?|simpl; lia].
      + intros p Hp. simpl. by rewrite lookup_insert_ne.
      + exists st1. simpl. rewrite lookup_insert_eq. split; [done|]. intros j Hj. unfold st1. simpl.
        destruct (state_ok _ _ _ _ _ Hi Hst) as [? _]. rewrite Bitfield.has_set by done.
        by case_decide.
    - by apply same_other_links.
    - intros st' r E Hr' _. rewrite Hst in E. injection E as <-. exists st1. simpl.
      by rewrite lookup_insert_eq.
    - intros [?|(st' & E & ?)]; [by left|right]. rewrite Hst in E. injection E as <-. exists st1. simpl.
      by rewrite lookup_insert_eq. }
  intros u w1 _ (Ha1 & Hl1 & Hb1). safe_step. safe_step.
  assert (is_Some (peers w1 !! q)) as Hq1.
  { destruct Ha1 as (_ & [_ Hg _ _ _] & _). destruct (Hg st Hst) as (? & ? & _). by eexists. }
  eapply safe_mono; [apply (safe_express_interest (m := m) content w1 q); [apply Ha1|done]|].
  intros u2 w2 _ [Hc2 Hs2]. pose proof (calm_advances (m := m) content q any w1 w2 (proj1 Ha1) Hc2) as Ha2.
  split; [|split].
  - destruct (arrives_trans q 0 0 0 any any w w1 w2 Ha1 (advances_arrives _ _ _ _ _ Ha2) eq_refl)
      as (? & ? & ? & Hk). split_and!; try done. by eapply keeps_weaken; [|exact Hk].
  - unfold same_links in *. rewrite <- Hl1. apply Hc2.
  - intros Hb. by apply (calm_busy _ _ _ Hc2), Hb1.
Qed.

(** One item, handled. *)
Lemma safe_item w q st c x :
  healthy w → peers w !! q = Some st → conns w !! q = Some c → items_ok st [x] →
  safe (handle_peer_message q (item_msg x)) (λ _ w', Good w' ∧
    arrives q (zlen (answered [x])) (λ r, r ∉ answered [x]) w w' ∧ same_links w w' ∧
    (answered [x] ≠ [] ∨ busy w q → peer_choking c = false → full w q → busy w' q)) w.
Proof.
  intros Hh Hst Hc (_ & Hx & Hch). unfold handle_peer_message. do 2 safe_step. rewrite Hst.
  destruct x as [r|msg].
  - change (answered [Answer r]) with [r] in *. cbn [item_msg reply].
    assert (r ∈ outstanding st) as Hr by (apply Hx; left).
    eapply safe_mono; [by eapply (safe_handle_piece content content_ok w q st c)|].
    intros u w2 _ (Hi2 & Ha2 & Ht2). split; [done|]. apply advances_arrives in Ha2 as Ha2'.
    split; [|split].
    + destruct Ha2' as (? & ? & ? & Hk). split_and!; try done. eapply keeps_weaken; [|exact Hk].
      intros r' Hr' ->. apply Hr'. left.
    + by destruct Ha2 as (_ & _ & ? & _).
    + intros _ Hch' Hf. apply topped_busy; [by apply Ht2|]. eapply gains_full; [apply Ha2'|done].
  - specialize (Hch msg ltac:(left)). pose proof (arrives_refl q (λ r, r ∉ []) w (proj2 Hh)) as H0.
    destruct msg as [| | | | |i| | | | |]; try done; cbn [item_msg];
      try (safe_step; split; [apply Hh|]; split; [done|]; split; [done|]; by intros [?|?]).
    eapply safe_mono; [apply safe_have; [done|done|apply Hch]|].
    intros u w2 _ (Hi2 & Ha2 & Hl2 & Hb2). split; [done|]. split; [|split; [done|by intros [?|?]; auto]].
    destruct Ha2 as (? & ? & ? & Hk). split_and!; try done. by eapply keeps_weaken; [|exact Hk].
Qed.

(** One item of a stream. *)
Lemma safe_item_round w q st c x rest :
  healthy w → peers w !! q = Some st → conns w !! q = Some c → items_ok st [x] →
  rx_buffer c = wire (item_msg x) ++ rest →
  safe (process_round q) (λ b w', b = true ∧ Good w' ∧
    arrives q (zlen (answered [x])) (λ r, r ∉ answered [x]) w w' ∧
    (∃ c', conns w' !! q = Some c' ∧ rx_buffer c' = rest) ∧
    (answered [x] ≠ [] ∨ busy w q → peer_choking c = false → full w q → busy w' q)) w.
Proof.
  intros Hh Hst Hc Hx Erx. pose proof Hx as (_ & Hr & Hch).
  assert (wf_msg (item_msg x) ∧ item_msg x ≠ ChokeMsg ∧ item_msg x ≠ UnchokeMsg) as (Hwf & Hne1 & Hne2).
  { destruct x as [r|msg]; [|by specialize (Hch msg ltac:(left)); destruct msg]. split; [|done].
    apply (reply_wf w); [apply Hh|]. exists q, st. split; [done|]. apply Hr. left. }
  eapply (safe_round w q st c _ rest); [done..|].
  destruct (read_arrives w q (item_msg x) rest any Hh) as [Hh1 Ha1]; [done|done|].
  set (w1 := set_conns _ w) in *. set (c1 := received_flags (item_msg x) (with_rx rest c)).
  assert (conns w1 !! q = Some c1) as Hc1 by (simpl; by rewrite lookup_alter_eq, Hc).
  assert (peer_choking c1 = peer_choking c ∧ rx_buffer c1 = rest) as [Ech Erx1].
  { unfold c1. by destruct (item_msg x). }
  eapply safe_mono; [by apply (safe_item w1 q st c1)|].
  intros u w2 _ (Hi2 & Ha2 & Hl2 & Hb2). split; [done|]. split; [done|]. split; [|split].
  - destruct (arrives_trans q 0 _ (zlen (answered [x])) any _ w w1 w2 Ha1 Ha2 eq_refl)
      as (? & ? & ? & Hk). split_and!; try done. by eapply keeps_weaken; [|exact Hk].
  - destruct (same_links_conn _ _ _ _ Hl2 Hc1) as (c2 & Hc2 & El).
    apply link_inv in El as (_ & _ & _ & _ & _ & Erx2 & _). exists c2. by rewrite Erx2.
  - rewrite Ech in Hb2. exact Hb2.
Qed.

(** ** A stream of items *)

Lemma items_cons st x xs : items_ok st (x :: xs) → items_ok st [x] ∧ items_ok st xs.
Proof.
  intros (Hnd & Hr & Hch). change (x :: xs) with ([x] ++ xs) in Hnd, Hr.
  unfold answered in *. rewrite omap_app in *. apply NoDup_app in Hnd as (? & _ & ?). split.
  - split_and!; [done|intros r ?; apply Hr, elem_of_app; by left|].
    intros msg E%list_elem_of_singleton. apply Hch. rewrite E. left.
  - split_and!; [done|intros r ?; apply Hr, elem_of_app; by right|]. intros msg ?. apply Hch. by right.
Qed.

Lemma answered_cons x xs : answered (x :: xs) = answered [x] ++ answered xs.
Proof. by destruct x. Qed.

(** What is expected of the rest, once an item is handled. *)
Lemma items_next st st1 x xs :
  items_ok st (x :: xs) →
  (∀ r, r ∈ outstanding st → r ∉ answered [x] → r ∈ outstanding st1) → items_ok st1 xs.
Proof.
  intros (Hnd & Hr & Hch) Hk. rewrite answered_cons in Hnd, Hr. apply NoDup_app in Hnd as (_ & Hdis & ?).
  split_and!; [done| |intros msg ?; apply Hch; by right]. intros r Hin. apply Hk.
  - apply Hr, elem_of_app. by right.
  - intros Hx. by apply (Hdis r).
Qed.

Lemma partial_next st st1 x xs part :
  partial st (answered (x :: xs)) part →
  (∀ r, r ∈ outstanding st → r ∉ answered [x] → r ∈ outstanding st1) → partial st1 (answered xs) part.
Proof.
  intros [?|(y & n & Hy & ?)] Hk; [by left|]. right. exists y, n. split; [|done].
  destruct y as [r|msg]; [|done]. destruct Hy as [Hr Hnin]. rewrite answered_cons, elem_of_app in Hnin.
  split; [apply Hk; [done|]|]; intros ?; apply Hnin; auto.
Qed.

Lemma partial_same st st' rs part :
  outstanding st' = outstanding st → partial st rs part → partial st' rs part.
Proof.
  intros E [?|(x & n & Hx & ?)]; [by left|]. right. exists x, n. split; [|done].
  destruct x; [|done]. simpl in *. by rewrite E.
Qed.

Lemma expected_wf w q st rs x :
  sound w → peers w !! q = Some st → expected st rs x → wf_msg (item_msg x).
Proof.
  intros Hs Hst Hx. destruct x as [r|msg]; [|by destruct msg].
  destruct Hx as [Hr _]. apply (reply_wf w); [done|by exists q, st].
Qed.

Lemma safe_stream f xs part w q st c :
  healthy w → peers w !! q = Some st → conns w !! q = Some c →
  rx_buffer c = stream xs ++ part → items_ok st xs → partial st (answered xs) part →
  safe (process_loop f q) (λ _ w', Good w' ∧
    arrives q (zlen (answered xs)) (λ r, r ∉ answered xs) w w' ∧
    (∃ c', conns w' !! q = Some c' ∧ rx_buffer c' = part) ∧
    (answered xs ≠ [] ∨ busy w q → peer_choking c = false → full w q → busy w' q)) w.
Proof.
  revert xs w st c. induction f as [|f IH]; intros xs w st c Hh Hst Hc Erx Hxs Hpart; [done|].
  pose proof Hh as [Hi Hs]. cbn [process_loop]. do 2 safe_step. destruct xs as [|x xs].
  - simpl in Erx. pose proof (arrives_refl q (λ r, r ∉ []) w Hs) as H0.
    case_bool_decide as E; [safe_step; split_and!; try done; [by exists c; rewrite Erx|by intros [|]]|].
    destruct Hpart as [->|(x & n & Hx & Hn & ->)]; [by rewrite Erx in E|].
    destruct (healthy_conn _ _ _ Hh Hst) as (c0 & Hc0 & Hact & _). rewrite Hc in Hc0. injection Hc0 as <-.
    pose proof (expected_wf w q st _ x Hs Hst Hx) as Hwf.
    unfold process_round. do 3 safe_step. rewrite Hact. safe_step.
    eapply safe_lift; [rewrite Erx; by apply deserialize_part|]. cbv beta iota.
    rewrite bool_decide_eq_true_2 by done. simpl. do 2 safe_step. split_and!; try done; [by exists c|by intros [|]].
  - unfold stream in Erx. rewrite fmap_cons in Erx. cbn [concat] in Erx. rewrite <- app_assoc in Erx.
    destruct (items_cons st x xs Hxs) as [Hx _]. rewrite bool_decide_eq_false_2.
    2:{ rewrite Erx. intros [E _]%app_eq_nil. by destruct (wire_nonempty (item_msg x)). }
    safe_step. eapply safe_mono; [by apply (safe_item_round w q st c x _ Hh Hst Hc Hx Erx)|].
    intros b w1 _ (-> & Hi1 & Ha1 & (c1 & Hc1 & Erx1) & Ht1). pose proof Ha1 as (Hs1 & Hm1 & Ho1 & Hk1).
    destruct (other_conn _ _ _ _ Ho1 Hc) as (c1' & Hc1' & Erl). rewrite Hc1 in Hc1'. injection Hc1' as <-.
    apply rx_link_inv in Erl as (_ & _ & Ech & _).
    destruct (gains_mine _ _ _ _ Hm1 st Hst) as (st1 & Hst1 & _).
    assert (∀ r, r ∈ outstanding st → r ∉ answered [x] → r ∈ outstanding st1) as Hkeep.
    { intros r' Hr' Hne. destruct (Hk1 st r' Hst Hr' Hne) as (st1' & E & ?). congruence. }
    eapply safe_mono; [apply (IH xs w1 st1 c1); try done; [by eapply items_next|by eapply partial_next]|].
    intros u w2 _ (Hi2 & Ha2 & Hc2 & Ht2). split; [done|]. rewrite (answered_cons x xs). split.
    { destruct (arrives_trans q _ _ (zlen (answered [x] ++ answered xs)) _ _ w w1 w2 Ha1 Ha2)
        as (? & ? & ? & Hk); [apply zlen_app|].
      split_and!; try done. eapply keeps_weaken; [|exact Hk].
      intros r' Hr'. rewrite elem_of_app in Hr'. split; intros ?; apply Hr'; auto. }
    split; [done|]. intros H Hch Hf. apply Ht2; [|congruence|by eapply gains_full].
    destruct (answered xs) as [|y ys]; [right|by left]. apply Ht1; [|done..]. by rewrite app_nil_r in H.
Qed.

(** ** Events that bring answers *)

(** An event of [q]'s descriptor whose bytes, with those that waited, are answers to
    requests outstanding at [q], among chatter, and maybe the start of another item. *)
Inductive brings w : event → Z → Prop :=
| brings_items q st c xs part ev err recvs :
    peers w !! q = Some st → conns w !! q = Some c →
    any_of ev (Z.lor EPOLLERR EPOLLHUP) = false → any_of ev EPOLLRDHUP = false →
    any_of ev EPOLLIN = true →
    recv_loop recvs (rx_buffer c) = (stream xs ++ part, false, false) →
    items_ok st xs → partial st (answered xs) part → zlen (stream xs ++ part) < 2 ^ 32 →
    brings w (Events (c_fd c) ev err recvs) (zlen (answered xs)).

(** What waits in the buffers is the start of an item. *)
Definition buffers_ok w : Prop :=
  ∀ p st c, peers w !! p = Some st → conns w !! p = Some c → partial st [] (rx_buffer c).

Definition seeder w (s : Z) : Prop :=
  ∃ st c, peers w !! s = Some st ∧ conns w !! s = Some c ∧ peer_choking c = false ∧
    all_pieces st.

(** Among cooperating peers things are steady. They make a swarm when one has every
    piece, lets us ask, and has been asked for something, unless nothing is left to ask
    for. *)
Definition steady w : Prop := healthy w ∧ buffers_ok w.
Definition fed w : Prop := ∃ s, seeder w s ∧ busy w s.
Definition swarm w : Prop := steady w ∧ fed w.

Lemma busy_others q n w w' p :
  gains q n w w' → metadata (pm w) = m → p ≠ q → busy w p → busy w' p.
Proof.
  intros [Ho _ _ Hp _] Em Hne [Hd|(st & Hst & H5)].
  - left. intros i Hi. apply Hp; [by rewrite Em|]. by apply Hd.
  - right. specialize (Ho p Hne). rewrite Hst in Ho.
    apply fmap_Some in Ho as (st' & Hst' & [_ Eo]%requests_inv). exists st'. by rewrite <- Eo.
Qed.

(** The peers other than [q] go on as before. *)
Lemma arrives_seeder q n P w w' s :
  arrives q n P w w' → seeder w s → seeder w' s.
Proof.
  intros (_ & Hg & [Hl Hlq] & _) (st & c & Hst & Hc & Hch & Hb).
  destruct (gains_full q n w w' s Hg) as (st' & Hst' & Hb'); [by exists st|].
  assert (∃ c', conns w' !! s = Some c' ∧ peer_choking c' = peer_choking c) as (c' & Hc' & Ech).
  { destruct (decide (s = q)) as [->|Hne].
    - rewrite Hc in Hlq. apply fmap_Some in Hlq as (c' & ? & E). exists c'. split; [done|].
      by apply rx_link_inv in E as (_ & _ & -> & _).
    - specialize (Hl s Hne). rewrite Hc in Hl. apply fmap_Some in Hl as (c' & ? & E). exists c'.
      split; [done|]. by apply link_inv in E as (_ & _ & _ & _ & -> & _). }
  exists st', c'. by rewrite Ech.
Qed.

Lemma arrives_steady q n P w w' st' c' :
  steady w → Good w' → arrives q n P w w' → peers w' !! q = Some st' → conns w' !! q = Some c' →
  partial st' [] (rx_buffer c') → steady w'.
Proof.
  intros (_ & Hb) Hi' Ha Hst' Hc' Hpart. split; [split; [done|apply Ha]|].
  intros p st1 c1 Hst1 Hc1. destruct (decide (p = q)) as [->|Hne].
  { rewrite Hst' in Hst1. rewrite Hc' in Hc1. by simplify_eq. }
  destruct Ha as (_ & [Ho _ _ _ _] & [Hl _] & _). specialize (Ho p Hne). specialize (Hl p Hne).
  rewrite Hst1 in Ho. rewrite Hc1 in Hl. symmetry in Ho, Hl. simpl in Ho, Hl.
  apply fmap_Some in Ho as (st0 & Hst0 & [_ Eo]%requests_inv).
  apply fmap_Some in Hl as (c0 & Hc0 & El). apply link_inv in El as (_ & _ & _ & _ & _ & -> & _).
  by apply (partial_same st0), (Hb p).
Qed.

Lemma arrives_fed q n P w w' c' :
  sound w → arrives q n P w w' → conns w' !! q = Some c' →
  (busy w q → peer_choking c' = false → full w q → busy w' q) → fed w → fed w'.
Proof.
  intros Hs Ha Hc' Htq (s & Hse & Ht). exists s. split; [by eapply arrives_seeder|].
  destruct (decide (s = q)) as [->|Hne].
  - destruct (arrives_seeder _ _ _ _ _ _ Ha Hse) as (? & c2 & _ & Hc2 & ? & _).
    destruct Hse as (st & _ & ? & _ & _ & ?). apply Htq; [done|congruence|by exists st].
  - destruct Ha as (_ & Hm & _). eapply busy_others; [done|apply Hs|done|done].
Qed.

(** ** Such an event is handled *)

Lemma safe_handle_read w q st c xs part recvs :
  healthy w → peers w !! q = Some st → conns w !! q = Some c →
  recv_loop recvs (rx_buffer c) = (stream xs ++ part, false, false) →
  items_ok st xs → partial st (answered xs) part →
  safe (handle_read recvs q) (λ _ w', Good w' ∧
    arrives q (zlen (answered xs)) (λ r, r ∉ answered xs) w w' ∧
    (∃ c', conns w' !! q = Some c' ∧ rx_buffer c' = part) ∧
    (busy w q → peer_choking c = false → full w q → busy w' q)) w.
Proof.
  intros Hh Hst Hc Erx Hxs Hpart. pose proof Hh as [Hi Hs].
  destruct (healthy_conn _ _ _ Hh Hst) as (c0 & Hc0 & _ & Hfd & _). rewrite Hc in Hc0. injection Hc0 as <-.
  unfold handle_read. do 2 safe_step. rewrite (proj2 (Z.eqb_neq _ _)), Erx by done. do 2 safe_step.
  set (rx := stream xs ++ part). set (w1 := set_conns _ w).
  pose proof (rx_arrives q w rx any Hs) as Ha1. fold w1 in Ha1.
  assert (healthy w1) as Hh1.
  { split; [|apply Ha1]. by destruct (upd_conn_inv (m := m) nobody nothing w w1 tt q (with_rx rx)). }
  assert (conns w1 !! q = Some (with_rx rx c)) as Hc1 by (simpl; by rewrite lookup_alter_eq, Hc).
  unfold process_rx_buffer. do 2 safe_step.
  eapply safe_mono; [by apply (safe_stream _ xs part w1 q st (with_rx rx c))|].
  intros u w2 _ (Hi2 & Ha2 & Hc2 & Ht2). split; [done|]. split.
  { destruct (arrives_trans q _ _ (zlen (answered xs)) _ _ w w1 w2 Ha1 Ha2 eq_refl) as (? & ? & ? & Hk).
    split_and!; try done. by eapply keeps_weaken; [|exact Hk]. }
  split; [done|]. intros Ht. apply Ht2. by right.
Qed.

(** A kept part of an item still is one. *)
Lemma partial_kept q n w w' st rs part :
  arrives q n (λ r, r ∉ rs) w w' → peers w !! q = Some st → partial st rs part →
  ∃ st', peers w' !! q = Some st' ∧ partial st' [] part.
Proof.
  intros (_ & Hg & _ & Hk) Hst Hpart. destruct (gains_mine _ _ _ _ Hg st Hst) as (st' & Hst' & _).
  exists st'. split; [done|].
  destruct Hpart as [?|(x & k & Hx & ?)]; [by left|]. right. exists x, k. split; [|done].
  destruct x as [r|msg]; [|done]. destruct Hx as [Hr Hnin].
  destruct (Hk st r Hst Hr Hnin) as (st1 & Hst1 & ?). rewrite Hst' in Hst1. injection Hst1 as <-.
  split; [done|apply not_elem_of_nil].
Qed.

Lemma safe_brings w e n :
  steady w → brings w e n →
  safe (run_event e) (λ _ w', steady w' ∧ todo (pm w') = todo (pm w) - n ∧ (fed w → fed w')) w.
Proof.
  intros Hsw [q st c xs part ev err recvs Hst Hc E1 E2 E3 Erx Hxs Hpart _].
  pose proof Hsw as (Hh & _). destruct (healthy_conn _ _ _ Hh Hst) as (c0 & Hc0 & Hact & Hfd & _ & Hcb).
  rewrite Hc in Hc0. injection Hc0 as <-. unfold run_event. do 2 safe_step. rewrite Hcb.
  unfold handle_events. rewrite E1, E2. do 2 safe_step. rewrite bool_decide_eq_false_2 by congruence.
  cbn [andb when]. do 2 safe_step. rewrite E3. cbn [when]. safe_step.
  eapply safe_mono; [by eapply safe_handle_read|]. intros u w1 _ (Hi1 & Ha1 & (c1 & Hc1 & Erx1) & Ht1).
  destruct (partial_kept _ _ _ _ _ _ _ Ha1 Hst Hpart) as (st1 & Hst1 & Hpart1).
  destruct (other_conn _ _ _ _ (proj1 (proj2 (proj2 Ha1))) Hc) as (c1' & Hc1' & El).
  rewrite Hc1 in Hc1'. injection Hc1' as <-. apply rx_link_inv in El as (Efd & _ & Ech & _).
  assert (steady w1) as Hsw1.
  { apply (arrives_steady q (zlen (answered xs)) _ w w1 st1 c1 Hsw Hi1 Ha1 Hst1 Hc1); by rewrite Erx1. }
  assert (fed w → fed w1) as Hf1.
  { apply (arrives_fed q _ _ w w1 c1 (proj2 Hh) Ha1 Hc1). by rewrite Ech. }
  assert (todo (pm w1) = todo (pm w) - zlen (answered xs)) as Et by apply Ha1.
  apply safe_when; [|done]. intros _. eapply safe_mono; [apply (safe_handle_write w1 q c1); [done|congruence|apply Ha1]|].
  intros u2 w2 H2 Hc2. pose proof (calm_advances (m := m) content q any w1 w2 (proj1 Ha1) Hc2) as Ha2.
  apply advances_arrives in Ha2.
  destruct (handle_write_inv nobody nothing w1 w2 u2 q Hi1 H2) as [Hi2 _].
  destruct (calm_peer _ _ _ _ Hc2 Hst1) as (st2 & Hst2 & [_ Eo]%requests_inv).
  destruct (calm_conn _ _ _ _ Hc2 Hc1) as (c2 & Hc2' & (_ & _ & _ & _ & Ech2 & Erx2 & _)%link_inv).
  split; [|split; [by rewrite (calm_pm _ _ Hc2)|]].
  - apply (arrives_steady q 0 any w1 w2 st2 c2); try done.
    rewrite Erx2, Erx1. by apply (partial_same st1).
  - intros Hf. apply (arrives_fed q _ _ w1 w2 c2 (proj2 (proj1 Hsw1)) Ha2 Hc2'); [|by apply Hf1].
    intros Hb _ _. by apply (calm_busy _ _ _ Hc2).
Qed.

Lemma ends_brings w e n : steady w → brings w e n → ends (run_event e w).
Proof.
  intros [Hh _] [q st c xs part ev err recvs Hst Hc E1 E2 E3 Erx _ _ Hlen].
  destruct (healthy_conn _ _ _ Hh Hst) as (c0 & Hc0 & _ & _ & _ & Hcb).
  rewrite Hc in Hc0. injection Hc0 as <-. unfold run_event. apply ends_bind; [done|].
  intros cb w' H. inv_m H. rewrite Hcb. apply (ends_handle_events (m := m)); [apply Hh|].
  pose proof (recv_loop_app recvs (rx_buffer c)) as Eapp. rewrite Erx in Eapp. simpl in Eapp.
  rewrite Eapp, zlen_app in Hlen. unfold rx_len. rewrite Hc. exact Hlen.
Qed.

Lemma brings_returns w e n :
  steady w → brings w e n →
  ∃ w', run_event e w = Ok (tt, w') ∧ steady w' ∧ todo (pm w') = todo (pm w) - n ∧ (fed w → fed w').
Proof.
  intros Hsw Hb. destruct (safe_returns _ _ _ (safe_brings _ _ _ Hsw Hb) (ends_brings _ _ _ Hsw Hb))
    as ([] & w' & E & H). by exists w'.
Qed.

(** As long as a block is missing, one is asked for. *)
Lemma swarm_asked w :
  swarm w → todo (pm w) ≠ 0 → ∃ q st r, peers w !! q = Some st ∧ r ∈ outstanding st.
Proof.
  intros (((Hi & Hs) & _) & s & (st & c & Hst & Hc & _ & Hb) & Ht) Htodo.
  pose proof Hs as [[Hw Em] _ _ Ha Hacc _].
  destruct (decide (map_Forall (λ _ st, outstanding st = []) (peers w))) as [Hno|Hsome].
  - destruct Htodo. apply (todo_zero content); [done..|]. apply (idle_complete content); try done.
    + rewrite Em. intros i Hir. destruct Ht as [Hd|(st' & Hst' & H5)].
      * by apply Hd.
      * by rewrite (Hno s st' Hst') in H5.
    + intros r Hr%Hacc. destruct Hr as (p & sp & Hp & Hr). rewrite (Hno p sp Hp) in Hr.
      by apply not_elem_of_nil in Hr.
  - apply map_not_Forall in Hsome as (q & sq & Hq & Hne); [|tc_solve].
    destruct (outstanding sq) as [|r rs] eqn:E; [done|]. exists q, sq, r. rewrite E.
    split; [done|left].
Qed.

(** An item is at most a block and its header long. *)
Lemma expected_length w q st rs x :
  sound w → peers w !! q = Some st → expected st rs x →
  zlen (wire (item_msg x)) ≤ 13 + block_size.
Proof.
  intros Hs Hst Hx. rewrite wire_length. unfold block_size. destruct x as [r|msg].
  - destruct Hx as [Hr _]. destruct (reply_wf w r Hs) as [_ Hl]; [by exists q, st|].
    unfold block_size in Hl. cbn [item_msg body reply]. rewrite zlen_cons, !zlen_app, !zlen_be_bytes. lia.
  - destruct msg; try done; cbn [item_msg body];
      rewrite ?zlen_cons, ?zlen_app, ?zlen_be_bytes; unfold zlen; simpl; lia.
Qed.

Lemma stream_one x : stream [x] = wire (item_msg x).
Proof. unfold stream. simpl. by rewrite app_nil_r. Qed.

Lemma items_one st r : r ∈ outstanding st → items_ok st [Answer r].
Proof.
  intros Hr. split_and!; [apply NoDup_singleton|by intros ? ->%list_elem_of_singleton|].
  by intros msg [=]%list_elem_of_singleton.
Qed.

Lemma items_chatter st msg xs : chatter msg → items_ok st xs → items_ok st (Chatter msg :: xs).
Proof.
  intros Hmsg (Hnd & Hr & Hch). split_and!; [done..|].
  intros msg' [[= ->]|]%elem_of_cons; [done|by apply Hch].
Qed.

(** The event that ends the item begun, if one is, and brings an answer. *)
Lemma swarm_next w : swarm w → todo (pm w) ≠ 0 → ∃ e, brings w e 1.
Proof.
  intros Hsw Htodo. destruct (swarm_asked w Hsw Htodo) as (q & st & r & Hst & Hr).
  destruct Hsw as ((Hh & Hbuf) & _). destruct (healthy_conn _ _ _ Hh Hst) as (c & Hc & _).
  assert (Hs : sound w) by apply Hh.
  assert (∃ xs bytes, rx_buffer c ++ bytes = stream xs ∧ items_ok st xs ∧ zlen (answered xs) = 1 ∧
    zlen (stream xs) ≤ 2 * (13 + block_size)) as (xs & bytes & E & Hxs & El & Hlen).
  { pose proof (expected_length w q st [] (Answer r) Hs Hst
      (conj Hr (not_elem_of_nil _))) as Hlr.
    pose proof (items_one st r Hr) as Hok. unfold block_size in *.
    destruct (Hbuf q st c Hst Hc) as [->|(x & n & Hx & _ & ->)].
    - exists [Answer r], (wire (reply r)). rewrite stream_one. do 3 (split; [done|]). cbn [item_msg] in *. lia.
    - pose proof (expected_length w q st [] x Hs Hst Hx) as Hlx. unfold block_size in Hlx.
      destruct x as [r'|msg].
      + exists [Answer r'], (zdrop n (wire (reply r'))). rewrite stream_one.
        split; [apply take_drop|]. split; [by apply items_one, Hx|]. split; [done|lia].
      + exists [Chatter msg; Answer r], (zdrop n (wire msg) ++ wire (reply r)).
        assert (stream [Chatter msg; Answer r] = wire msg ++ wire (reply r)) as ->.
        { unfold stream. rewrite !fmap_cons. cbn [concat item_msg fmap list_fmap]. by rewrite app_nil_r. }
        rewrite zlen_app. cbn [item_msg] in *. split; [rewrite app_assoc; f_equal; apply take_drop|].
        split; [by apply items_chatter|]. split; [done|lia]. }
  exists (Events (c_fd c) EPOLLIN false [Received bytes]). rewrite <- El.
  apply (brings_items w q st c xs []); try done.
  - simpl. by rewrite E, app_nil_r.
  - by left.
  - rewrite app_nil_r. unfold block_size in *. lia.
Qed.

Lemma steady_complete w :
  steady w → todo (pm w) = 0 →
  complete_download (pm w) m ∧ ∀ i, 0 ≤ i < num_pieces m → (i, content i) ∈ completed w.
Proof.
  intros ((Hi & [[Hw Em] _ _ Ha _ Hd]) & _) Ht.
  apply (todo_zero content) in Ht; [|done..]. rewrite Em in Ht. split; [done|]. intros i Hir.
  destruct Hi as ((_ & _ & (_ & _ & Hb)) & _).
  destruct (proj1 (list_elem_of_fmap _ _ _) (proj1 (Hb i (proj1 Hir)) (Ht i Hir))) as ([j d] & -> & Hin).
  simpl in *. by rewrite <- (Hd _ _ Hin).
Qed.
End Liveness.
