(* ===== verification/Connecting.v ===== *)
(** * How a connection begins

    What the rest of the peers sees of an event that concerns one of them only; and
    the attempts at connecting, all of which leave the others alone, whatever the kernel
    answers, as long as it gives new descriptors and fails no [send]. *)

From S2P Require Import Prelude StdString Bencode Bitfield Hasher Torrent PieceManager.
From S2P Require Import PiecePicker PeerMessage Socket EventLoop World PeerConnection Coordinator.
From S2P Require Import System Handlers Steps Termination Safe Progress Swarm Liveness.

Section Connecting.
Context `{C : CryptoSHA1} `{R : UniformRng} `{!UniformRngLaws R} {prm : Params} {MO : MapOrder}
  {m : TorrentMetadata} {PF : ParamsFor prm m}.
Variable content : Z → list byte.
Hypothesis content_ok : content_of content m.

Implicit Types (w : World).
Abbreviation Good := (Inv (m := m) nobody nothing).
Abbreviation sound := (Swarm.sound (m := m) content).
Abbreviation healthy := (Swarm.healthy (m := m) content).
Abbreviation topped := (Swarm.topped (m := m)).
Abbreviation swarm := (Liveness.swarm (m := m) content).
Abbreviation buffers_ok := (Liveness.buffers_ok content).
Abbreviation any := (λ _ : RequestedBlock, True).

(** As many blocks are still to come. *)
Definition same_todo w w' : Prop := todo (pm w') = todo (pm w).

(** Buffers, seen from a change that keeps the other connections and the requests. *)
Lemma buffers_kept w w' :
  buffers_ok w →
  (∀ p st', peers w' !! p = Some st' →
     (∃ c', conns w' !! p = Some c' ∧ rx_buffer c' = []) ∨
     ∃ st c c', peers w !! p = Some st ∧ outstanding st = outstanding st' ∧
       conns w !! p = Some c ∧ conns w' !! p = Some c' ∧ rx_buffer c = rx_buffer c') →
  buffers_ok w'.
Proof.
  intros Hb H p st' c' Hst' Hc'. destruct (H p st' Hst') as [(c2 & Hc2 & E)|(st & c & c2 & Hst & Eo & Hc & Hc2 & E)];
    rewrite Hc' in Hc2; injection Hc2 as <-.
  - left. done.
  - specialize (Hb p st c Hst Hc). rewrite <- E. by apply (partial_same content st).
Qed.

Lemma calm_buffers w w' : calm w w' → sound w → buffers_ok w → buffers_ok w'.
Proof.
  intros Hc Hs Hb. apply (buffers_kept w); [done|]. intros p st' Hst'. right.
  destruct (calm_peers_inv _ _ _ _ Hc Hst') as (st & Hst & [_ Eo]%requests_inv).
  destruct (sound_links _ _ Hs p) as (c & Hcp & _); [by eexists|].
  destruct (calm_conn _ _ _ _ Hc Hcp) as (c' & Hc' & (_ & _ & _ & _ & _ & Erx & _)%link_inv).
  exists st, c, c'. split_and!; done.
Qed.

(** What another peer than [q] does not see: its requests and its link are as before,
    and nothing has become pending. *)
Record others (q : Z) w w' : Prop := {
  others_peers : ∀ p, p ≠ q → requests <$> (peers w' !! p) = requests <$> (peers w !! p);
  others_links : ∀ p c, p ≠ q → conns w !! p = Some c →
    ∃ c', conns w' !! p = Some c' ∧ link c' = link c;
  others_metadata : metadata (pm w') = metadata (pm w);
}.

#[export] Instance others_preorder q : PreOrder (others q).
Proof.
  split; [by split; eauto|]. intros w1 w2 w3 [Hp Hl Hm] [Kp Kl Km]. constructor; [| |congruence].
  - intros p Hne. by rewrite Kp, Hp.
  - intros p c Hne Hc. destruct (Hl p c Hne Hc) as (c2 & Hc2 & E2).
    destruct (Kl p c2 Hne Hc2) as (c3 & ? & E3). exists c3. split; [done|congruence].
Qed.

Definition undisturbed (q : Z) w w' : Prop := others q w w' ∧ pending_le (pm w) (pm w').

#[export] Instance undisturbed_preorder q : PreOrder (undisturbed q).
Proof.
  split; [by split; [|intros ? ?]|]. intros w1 w2 w3 [Ho Hp] [Ko Kp]. split; [by etrans|].
  intros i Hi H. apply Kp; [by rewrite (others_metadata _ _ _ Ho)|]. by apply Hp.
Qed.

Lemma advances_undisturbed q n P w w' : advances (m := m) content q n P w w' → undisturbed q w w'.
Proof.
  intros (_ & [Ho _ Hm Hp _] & Hl & _). split; [constructor|]; try done.
  intros p c _ Hc. by apply (same_links_conn w).
Qed.

Lemma calm_undisturbed q w w' : calm w w' → undisturbed q w w'.
Proof.
  intros Hc. destruct (calm_moves q _ _ Hc) as [[Ho _ Hm Hp _] Hl]. split; [constructor|]; try done.
  intros p c _ Hcp. by apply (same_links_conn w).
Qed.

Lemma local_undisturbed q w w' :
  pm w' = pm w → (∀ p, p ≠ q → conns w' !! p = conns w !! p) →
  (∀ p, p ≠ q → peers w' !! p = peers w !! p) → undisturbed q w w'.
Proof.
  intros Em Ec Ep. split; [constructor|]; rewrite ?Em; try done; [| |by intros ? ?].
  - intros p Hp. by rewrite Ep.
  - intros p c Hp Hc. exists c. by rewrite Ec.
Qed.

(** The peers stay sound, as many blocks are to come, and only [q] sees a difference. *)
Definition goes_on (q : Z) w w' : Prop :=
  sound w' ∧ buffers_ok w' ∧ same_todo w w' ∧ undisturbed q w w'.

Lemma goes_on_trans q w1 w2 w3 : goes_on q w1 w2 → goes_on q w2 w3 → goes_on q w1 w3.
Proof.
  intros (_ & _ & Ht & Hu) (? & ? & Kt & Ku). split_and!; [done|done| |by etrans].
  unfold same_todo in *. congruence.
Qed.

Lemma calm_goes_on q w w' : sound w → buffers_ok w → calm w w' → goes_on q w w'.
Proof.
  intros Hs Hb Hc. split_and!; [by eapply calm_sound|by eapply calm_buffers| |by apply calm_undisturbed].
  unfold same_todo. by rewrite (calm_pm _ _ Hc).
Qed.

(** Sending, from a world gone on to. *)
Lemma goes_on_calm q w1 w2 w3 : goes_on q w1 w2 → calm w2 w3 → goes_on q w1 w3.
Proof. intros Ha Hc. eapply goes_on_trans; [done|]. by apply calm_goes_on; [apply Ha..|]. Qed.

(** ** Connecting *)

(** A connection on the way, in the state [s], with [rx] come: dialing, or waiting for the
    handshake of the other side. *)
Definition linking (s : ConnectionState) (rx : list byte) w (p fd : Z) : Prop :=
  peers w !! p = None ∧ fd_callbacks (fds w) !! fd = Some p ∧ fd ≠ -1 ∧
  ∃ c, conns w !! p = Some c ∧ c_state c = s ∧ c_fd c = fd ∧ rx_buffer c = rx ∧
    on_handshake c = true ∧ peer_choking c = true.
Abbreviation dialing := (linking Connecting []).
Abbreviation shaking := (linking Handshaking []).

Lemma calm_linking s rx w w' p fd : calm w w' → linking s rx w p fd → linking s rx w' p fd.
Proof.
  intros Hc (Hp & Hcb & Hfd & c & Hcp & Hst & Ec & Erx & Hh & Hch). pose proof Hc as [_ Ef _ _ _ _ _].
  destruct (calm_conn _ _ _ _ Hc Hcp) as (c' & Hc' & (_ & _ & E1 & E2 & E3 & E4 & E5 & _)%link_inv).
  split; [|split; [by rewrite Ef|split; [done|]]].
  - destruct (peers w' !! p) as [st'|] eqn:E; [|done].
    destruct (calm_peers_inv _ _ _ _ Hc E) as (st & ? & _). congruence.
  - exists c'. split_and!; congruence.
Qed.

Lemma safe_send_handshake w p c :
  conns w !! p = Some c → c_fd c ≠ -1 → willing w → zlen info_hash_ = 20 → zlen our_peer_id_ = 20 →
  safe (send_handshake p) (λ _, calm w) w.
Proof.
  intros Hc Hfd Hw Hih Hid. unfold send_handshake. safe_step. eapply safe_lift.
  { apply handshake_serialize_wire. by split_and!. }
  do 4 safe_step. set (w1 := set_conns _ w).
  assert (calm w w1) as Hc1 by (by apply calm_upd_conn).
  eapply safe_mono; [eapply (safe_handle_write w1 p); [simpl; by rewrite lookup_alter_eq, Hc|done|by apply Hc1]|].
  intros u w2 _ Hc2. by transitivity w1.
Qed.

(** A world that differs in what belongs to [q], its requests aside. *)
Lemma sound_local q w w' :
  sound w → (∀ p, p ≠ q → peers w' !! p = peers w !! p) →
  (∀ p, p ≠ q → conns w' !! p = conns w !! p) →
  (∀ fd p, p ≠ q → fd_callbacks (fds w) !! fd = Some p → fd_callbacks (fds w') !! fd = Some p) →
  (is_Some (peers w' !! q) → open_link w' q) → sends w' = sends w → completed w' = completed w →
  pm_wf (pm w') → metadata (pm w') = m → assembling_ok content (pm w') →
  (∀ r, asked (peers w') r ↔ requested (pm w') r) → sound w'.
Proof.
  intros [_ Hl Hw _ _ Hd] Ep Ec Ef Hq Es Eco ????. constructor; rewrite ?Eco; auto; [|by unfold willing; rewrite Es].
  intros p Hp. destruct (decide (p = q)) as [->|Hne]; [by apply Hq|]. rewrite Ep in Hp by done.
  destruct (Hl p Hp) as (c & ? & ? & ? & ? & ?). exists c. rewrite Ec by done. split_and!; auto.
Qed.

(** ... with the same requests asked for. *)
Lemma sound_link q w w' :
  sound w → pm w' = pm w → completed w' = completed w → sends w' = sends w →
  (∀ p, p ≠ q → peers w' !! p = peers w !! p) →
  (∀ p, p ≠ q → conns w' !! p = conns w !! p) →
  (∀ fd p, p ≠ q → fd_callbacks (fds w) !! fd = Some p → fd_callbacks (fds w') !! fd = Some p) →
  peers w !! q = None → (∀ st, peers w' !! q = Some st → outstanding st = [] ∧ open_link w' q) →
  sound w'.
Proof.
  intros Hs Em Eco Es Ep Ec Ef Hq Hq'. pose proof Hs as [[? ?] _ _ ? Hacc _].
  apply (sound_local q w); rewrite ?Em; try done; [by intros [st Hst]; destruct (Hq' st Hst)|].
  intros r. rewrite <- Hacc. split; intros (p & st & Hp & Hr); (destruct (decide (p = q)) as [->|Hne]; [|exists p, st]).
  - destruct (Hq' st Hp) as [E _]. rewrite E in Hr. by apply not_elem_of_nil in Hr.
  - by rewrite <- Ep.
  - congruence.
  - by rewrite Ep.
Qed.

(** No entry without a connection. *)
Lemma fresh_unregistered w p : sound w → conns w !! p = None → peers w !! p = None.
Proof.
  intros Hs Hp. destruct (peers w !! p) eqn:E; [|done].
  destruct (sound_links _ _ Hs p) as (c & Hc & _); [by eexists|]. congruence.
Qed.

(** A world that differs in a link not registered. *)
Lemma link_goes_on q w w' :
  sound w → buffers_ok w → pm w' = pm w → completed w' = completed w → sends w' = sends w →
  peers w' = peers w → peers w !! q = None →
  (∀ p, p ≠ q → conns w' !! p = conns w !! p) →
  (∀ fd p, p ≠ q → fd_callbacks (fds w) !! fd = Some p → fd_callbacks (fds w') !! fd = Some p) →
  goes_on q w w'.
Proof.
  intros Hs Hb Em Eco Es Ep Hq Ec Ef. split_and!.
  - apply (sound_link q w); try done; rewrite Ep; [done|]. by rewrite Hq.
  - apply (buffers_kept w); [done|]. rewrite Ep. intros p st Hp. right.
    destruct (sound_links _ _ Hs p) as (c & Hc & _); [by eexists|]. exists st, c, c.
    split_and!; try done. rewrite Ec; [done|]. intros ->. congruence.
  - unfold same_todo. by rewrite Em.
  - apply local_undisturbed; [done|done|]. by rewrite Ep.
Qed.

(** The disconnection of a link not registered. *)
Lemma safe_unlinked w p c key :
  peers w !! p = None → conns w !! p = Some c → on_disconnect c = Some (ManagerCb key) →
  safe (call_on_disconnect p) (λ _ w', w' = set_active (delete key) w) w.
Proof.
  intros Hp Hc Hcb. unfold call_on_disconnect. safe_step. safe_step. rewrite Hcb.
  unfold run_on_disconnect, on_disconnect_callbacks, unregister_peer. do 3 safe_step.
  rewrite Hp. by repeat safe_step.
Qed.

(** The descriptors the kernel will give. *)
Definition dialed (script : list (ConnectStatus * Z * bool)) : list Z :=
  omap (λ '(status, fd, _), if decide (status = ConnectError) then None else Some fd) script.

(** They are new. *)
Definition fresh_fds w : Prop :=
  NoDup (dialed (connects w)) ∧
  ∀ fd, fd ∈ dialed (connects w) → 0 ≤ fd ∧ fd_callbacks (fds w) !! fd = None.

(** An attempt took one of them at most. *)
Definition consumed w w' : Prop :=
  connects w' = tail (connects w) ∧
  ∀ fd, fd ∉ dialed (take 1 (connects w)) → fd_callbacks (fds w') !! fd = fd_callbacks (fds w) !! fd.

Lemma consumed_fresh w w' : fresh_fds w → consumed w w' → fresh_fds w'.
Proof.
  unfold fresh_fds, consumed. intros [Hnd Hf] [-> Hcb]. destruct (connects w) as [|[[status fd] ok] rest]; simpl in *.
  { split; [apply NoDup_nil_2|]. intros fd H. by apply not_elem_of_nil in H. }
  unfold dialed in *. cbn [omap list_omap tail] in *. case_decide as E.
  - split; [done|]. intros f Hin. rewrite Hcb by apply not_elem_of_nil. by apply Hf.
  - apply NoDup_cons in Hnd as [Hnin Hnd]. split; [done|]. intros f Hin. rewrite Hcb.
    + apply Hf. by right.
    + rewrite list_elem_of_singleton. by intros ->.
Qed.

(** What becomes of a new connection. *)
Definition launched w w' (p : Z) : Prop :=
  match head (connects w) with
  | Some (Connected, fd, true) => shaking w' p fd
  | Some (InProgress, fd, true) => dialing w' p fd
  | _ => True
  end.

Lemma alter_one {A} (cs : gmap Z A) p c f : cs !! p = Some c → alter f p cs = <[p := f c]> cs.
Proof.
  intros Hc. apply map_eq. intros q. destruct (decide (q = p)) as [->|].
  - by rewrite lookup_alter_eq, Hc, lookup_insert_eq.
  - by rewrite lookup_alter_ne, lookup_insert_ne.
Qed.

(** A connection that is given up. *)
Lemma safe_lost w w1 p c1 key :
  sound w → buffers_ok w → peers w !! p = None →
  pm w1 = pm w → completed w1 = completed w → sends w1 = sends w → peers w1 = peers w →
  fds w1 = fds w → conns w1 = <[p := c1]> (conns w) → on_disconnect c1 = Some (ManagerCb key) →
  safe (call_on_disconnect p)
    (λ _ w', goes_on p w w' ∧ connects w' = connects w1 ∧ fds w' = fds w) w1.
Proof.
  intros Hs Hb Hp Em Eco Es Ep Ef Ec Hcb1. eapply safe_mono.
  { eapply safe_unlinked; [by rewrite Ep|rewrite Ec; apply lookup_insert_eq|done]. }
  intros u w2 _ ->. split; [|done]. apply link_goes_on; try done; simpl; rewrite ?Ef; [|done].
  intros q Hq. by rewrite Ec, lookup_insert_ne.
Qed.

(** [connect], from the descriptor on. *)
Lemma safe_watch w p c key status fd ok events :
  sound w → buffers_ok w → zlen info_hash_ = 20 → zlen our_peer_id_ = 20 →
  peers w !! p = None → conns w !! p = Some c → c_state c = Connecting → rx_buffer c = [] →
  on_handshake c = true → peer_choking c = true → on_disconnect c = Some (ManagerCb key) →
  status ≠ ConnectError → 0 ≤ fd → fd_callbacks (fds w) !! fd = None →
  safe (_ ← upd_conn p (with_fd fd); l ← gets fds;
        let '(reg_ok, l) := register_fd ok fd events p l in
        _ ← modify (set_fds (λ _, l)); registered p status reg_ok)
    (λ _ w', goes_on p w w' ∧ connects w' = connects w ∧
       (∀ f, f ≠ fd → fd_callbacks (fds w') !! f = fd_callbacks (fds w) !! f) ∧
       match status, ok with
       | Connected, true => shaking w' p fd
       | InProgress, true => dialing w' p fd
       | _, _ => True
       end) w.
Proof.
  intros Hs Hb Hih Hid Hp Hc Hst Erx Hh Hch Hcb Hne Hfd Hnew. do 4 safe_step.
  unfold register_fd. rewrite (proj2 (Z.ltb_ge _ _)) by done. destruct ok; cbn [negb].
  2:{ safe_step. safe_step. unfold registered. cbn [negb]. do 4 safe_step. cbn [conns set_fds set_conns].
      eapply safe_mono; [apply (safe_lost w _ p (with_fd (-1) (with_state Disconnected (with_fd fd c))) key);
        try done|].
      - simpl. by rewrite !alter_twice, (alter_one _ _ c).
      - intros u w' _ (? & ? & ->). by destruct status. }
  do 2 safe_step. unfold registered. cbn [negb]. set (w1 := set_fds _ _).
  set (c1 := with_fd fd c).
  assert (conns w1 !! p = Some c1) as Hc1 by (simpl; by rewrite lookup_alter_eq, Hc).
  assert (∀ f, f ≠ fd → fd_callbacks (fds w1) !! f = fd_callbacks (fds w) !! f) as Hcbs
    by (intros f Hne'; simpl; by rewrite lookup_insert_ne).
  assert (∀ s, let w2 := set_conns (alter (with_state s) p) w1 in goes_on p w w2 ∧ linking s [] w2 p fd) as Hgo.
  { intros s w2. split.
    - apply link_goes_on; try done; simpl; [intros q Hq; by rewrite !lookup_alter_ne|].
      intros f q _ Hf. by rewrite lookup_insert_ne by congruence.
    - split; [done|]. split; [apply lookup_insert_eq|]. split; [lia|]. exists (with_state s c1).
      split_and!; try done. simpl. by rewrite !lookup_alter_eq, Hc. }
  destruct status; [| |done].
  - do 3 safe_step. set (w2 := set_conns _ w1). destruct (Hgo Handshaking) as [Hg2 Hl2]. fold w2 in Hg2, Hl2.
    assert (conns w2 !! p = Some (with_state Handshaking c1)) as Hc2 by (simpl; by rewrite !lookup_alter_eq, Hc).
    eapply safe_mono; [eapply (safe_send_handshake w2 p); [done|simpl; lia|apply Hg2|done..]|].
    intros u w3 _ Hcalm3. destruct (calm_conn _ _ _ _ Hcalm3 Hc2) as (c3 & Hc3 & _).
    eapply safe_mono; [by eapply safe_update_epoll|]. intros u' w4 _ Hcalm4.
    assert (calm w2 w4) as Hcalm by (by transitivity w3).
    split; [by apply (goes_on_calm p w w2)|]. split; [by rewrite (calm_connects _ _ Hcalm)|].
    split; [by rewrite (calm_fds _ _ Hcalm)|by apply (calm_linking _ _ w2)].
  - do 2 safe_step. assert (set_conns (alter (with_state Connecting) p) w1 = w1) as E1.
    { unfold w1, set_fds, set_conns. simpl. f_equal. rewrite alter_twice. apply alter_ext.
      intros c' Hc'. rewrite Hc in Hc'. injection Hc' as <-. unfold with_state, with_fd. simpl. by rewrite Hst. }
    destruct (Hgo Connecting) as [Hg1 Hl1]. rewrite E1 in Hg1, Hl1.
    eapply safe_mono; [by eapply safe_update_epoll|]. intros u' w4 _ Hcalm4.
    split; [by apply (goes_on_calm p w w1)|]. split; [by rewrite (calm_connects _ _ Hcalm4)|].
    split; [by rewrite (calm_fds _ _ Hcalm4)|by apply (calm_linking _ _ w1)].
Qed.

Lemma safe_connect w p c key :
  sound w → buffers_ok w → fresh_fds w → zlen info_hash_ = 20 → zlen our_peer_id_ = 20 →
  peers w !! p = None → conns w !! p = Some c → c_state c = Idle → rx_buffer c = [] →
  on_handshake c = true → peer_choking c = true → on_disconnect c = Some (ManagerCb key) →
  safe (connect p) (λ _ w', goes_on p w w' ∧ consumed w w' ∧ launched w w' p) w.
Proof.
  intros Hs Hb [_ Hf] Hih Hid Hp Hc Hst Erx Hh Hch Hcb. unfold connect, launched, consumed. do 2 safe_step.
  rewrite bool_decide_eq_true_2 by done. cbn [negb]. do 4 safe_step. cbn [connects set_conns].
  assert (∀ script, let w1 := set_connects script (set_conns (alter (with_state Connecting) p) w) in
    safe (_ ← upd_conn p (with_state Disconnected); call_on_disconnect p)
      (λ _ w', goes_on p w w' ∧ connects w' = script ∧ fds w' = fds w) w1 ∧
    goes_on p w w1 ∧ conns w1 !! p = Some (with_state Connecting c)) as Hnext.
  { intros script w1. split; [|split].
    - do 2 safe_step. eapply safe_mono.
      { apply (safe_lost w _ p (with_state Disconnected (with_state Connecting c)) key); try done.
        simpl. by rewrite alter_twice, (alter_one _ _ c). }
      by intros u w' _ (? & -> & ->).
    - apply link_goes_on; try done. intros q Hq. simpl. by rewrite lookup_alter_ne.
    - simpl. by rewrite lookup_alter_eq, Hc. }
  destruct (connects w) as [|[[status fd] ok] rest] eqn:Econ; cbn [head default id]; do 2 safe_step.
  { eapply safe_mono; [apply Hnext|]. by intros u w' _ (? & ? & ->). }
  destruct (Hnext rest) as (Hlost & Hg1 & Hc1). cbn [tail take].
  destruct (decide (status = ConnectError)) as [->|Hne].
  { eapply safe_mono; [apply Hlost|]. by intros u w' _ (? & ? & ->). }
  assert (fd ∈ dialed ((status, fd, ok) :: rest)) as Hin.
  { unfold dialed. cbn [omap list_omap]. rewrite decide_False by done. left. }
  destruct (Hf _ Hin) as [Hfd Hnew].
  pose proof Hg1 as (Hs1 & Hb1 & _).
  pose proof (safe_watch _ p _ key status fd ok
    (Z.lor (Z.lor EPOLLIN EPOLLOUT) (Z.lor EPOLLRDHUP (Z.lor EPOLLERR EPOLLHUP)))
    Hs1 Hb1 Hih Hid Hp Hc1 eq_refl Erx Hh Hch Hcb Hne Hfd Hnew) as Hw.
  destruct status; [| |done]; (eapply safe_mono; [exact Hw|]; intros u w2 _ (Hg2 & Ec2 & Hf2 & Hl2);
    split; [by eapply goes_on_trans|split; [split; [exact Ec2|]|by destruct ok]]);
    (intros f Hf'; apply Hf2; intros ->; apply Hf'; left).
Qed.

(** There is room for a connection to the address. *)
Definition room w (ip : list byte) (port : Z) : Prop :=
  Z.of_nat (size (active_peers w)) < max_connections_ ∧ is_blacklisted ip port w = false ∧
  active_peers w !! make_peer_key ip port = None.

(** Any attempt leaves the others alone. *)
Lemma safe_connect_to_peer w ip port :
  sound w → buffers_ok w → fresh_fds w → zlen info_hash_ = 20 → zlen our_peer_id_ = 20 →
  safe (connect_to_peer ip port)
    (λ _ w', ∃ p, peers w !! p = None ∧ goes_on p w w' ∧ fresh_fds w' ∧
       (room w ip port → launched w w' p)) w.
Proof.
  intros Hs Hb Hf Hih Hid. set (p := fresh (dom (conns w))).
  assert (conns w !! p = None) as Hp by (apply not_elem_of_dom, is_fresh).
  pose proof (fresh_unregistered w p Hs Hp) as Hpp.
  assert (goes_on p w w) as H0 by (by apply calm_goes_on).
  unfold connect_to_peer, room. do 2 safe_step. destruct (Z.leb_spec max_connections_ (Z.of_nat (size (active_peers w)))).
  { safe_step. exists p. split_and!; try done. lia. }
  do 2 safe_step. destruct (is_blacklisted ip port w); [safe_step; exists p; split_and!; try done; by intros (_ & ? & _)|].
  case_bool_decide as Ea; [safe_step; exists p; split_and!; try done; intros (_ & _ & E); rewrite E in Ea; by destruct Ea|].
  do 8 safe_step. fold p. set (w1 := set_conns (alter _ p) _).
  set (c1 := with_callbacks true false (Some (ManagerCb (make_peer_key ip port))) (new_conn ip port)).
  assert (conns w1 !! p = Some c1) as Hc1 by (simpl; by rewrite lookup_alter_eq, lookup_insert_eq).
  assert (goes_on p w w1) as Hg1.
  { apply link_goes_on; try done. intros q Hq. simpl. by rewrite lookup_alter_ne, lookup_insert_ne. }
  eapply safe_mono; [by apply (safe_connect w1 p c1 (make_peer_key ip port)); [apply Hg1|apply Hg1|..]|].
  intros u w2 _ (Hg2 & Hco & Hl). exists p. split_and!; [done|by eapply goes_on_trans|by apply (consumed_fresh w1)|done].
Qed.
End Connecting.
