(* ===== verification/Joining.v ===== *)
(** * How a peer joins

    The handshake of a connection that is being made, the bitfield of a new peer, and
    its unchoke: each is handled on a world of cooperating peers, whatever the bitfield,
    and leaves such a world, in which the other peers are as they were. After the unchoke
    of a peer that has every piece its pipeline is full, or no block is left to ask for. *)

From S2P Require Import Prelude StdString Bencode Bitfield Hasher Torrent PieceManager.
From S2P Require Import PiecePicker PeerMessage Socket EventLoop World PeerConnection Coordinator.
From S2P Require Import System Handlers Steps Termination Safe Progress Swarm Liveness Connecting.

Section Joining.
Context `{C : CryptoSHA1} `{R : UniformRng} `{!UniformRngLaws R} {prm : Params} {MO : MapOrder}
  {m : TorrentMetadata} {PF : ParamsFor prm m}.
Variable content : Z → list byte.
Hypothesis content_ok : content_of content m.

Implicit Types (w : World).
Abbreviation Good := (Inv (m := m) nobody nothing).
Abbreviation sound := (Swarm.sound (m := m) content).
Abbreviation healthy := (Swarm.healthy (m := m) content).
Abbreviation topped := (Swarm.topped (m := m)).
Abbreviation buffers_ok := (Liveness.buffers_ok content).
Abbreviation goes_on := (Connecting.goes_on (m := m) content).
Abbreviation any := (λ _ : RequestedBlock, True).
Abbreviation shaking := (linking Handshaking).

(** What an event leaves. *)
Lemma safe_event w e Q :
  Good w → safe (run_event e) Q w → safe (run_event e) (λ u w', Good w' ∧ Q u w') w.
Proof. intros Hi H. eapply safe_mono; [exact H|]. intros u w' E HQ. split; [by eapply run_event_inv|done]. Qed.

(** ** What comes over a quiet connection *)

(** Bytes for a connection, after those that wait. *)
Lemma safe_readable w p c err recvs bytes Q :
  conns w !! p = Some c → c_state c ≠ Connecting → c_fd c ≠ -1 →
  fd_callbacks (fds w) !! c_fd c = Some p → recv_loop recvs (rx_buffer c) = (bytes, false, false) →
  safe (process_loop (S (List.length bytes)) p) Q (set_conns (alter (with_rx bytes) p) w) →
  safe (run_event (Events (c_fd c) EPOLLIN err recvs)) Q w.
Proof.
  intros Hc Hst Hfd Hcb Erec H. unfold run_event. do 2 safe_step. rewrite Hcb.
  unfold handle_events. change (any_of EPOLLIN (Z.lor EPOLLERR EPOLLHUP)) with false.
  change (any_of EPOLLIN EPOLLRDHUP) with false. cbv iota.
  do 2 safe_step. rewrite bool_decide_eq_false_2 by done. cbn [andb when]. do 2 safe_step.
  change (any_of EPOLLIN EPOLLIN) with true. change (any_of EPOLLIN EPOLLOUT) with false.
  cbn [when]. safe_step. unfold handle_read. do 2 safe_step.
  rewrite (proj2 (Z.eqb_neq _ _)), Erec by done. do 2 safe_step. unfold process_rx_buffer.
  safe_step. eapply safe_conn; [simpl; by rewrite lookup_alter_eq, Hc|].
  eapply safe_mono; [exact H|]. by intros [] w' _ ?.
Qed.

(** Nothing left to process. *)
Lemma safe_loop_done f w p c (Q : unit → World → Prop) :
  conns w !! p = Some c → rx_buffer c = [] → Q tt w → safe (process_loop f p) Q w.
Proof.
  intros Hc Erx H. destruct f as [|f]; [done|]. cbn [process_loop]. do 2 safe_step.
  by rewrite Erx, bool_decide_eq_true_2.
Qed.

(** A registered peer, nothing of whose is waiting. *)
Definition arrived w (p fd : Z) : Prop :=
  is_Some (peers w !! p) ∧
  ∃ c, conns w !! p = Some c ∧ c_fd c = fd ∧ rx_buffer c = [].

Lemma calm_arrived w w' p fd : calm w w' → arrived w p fd → arrived w' p fd.
Proof.
  intros Hc (Hp & c & Hcp & Efd & Erx). split; [by eapply calm_registered|].
  destruct (calm_conn _ _ _ _ Hc Hcp) as (c' & ? & (_ & _ & ? & _ & _ & ? & _)%link_inv).
  exists c'. split_and!; congruence.
Qed.

(** What belongs to [p] changes, its requests aside, and nothing of it waits. *)
Lemma local_goes_on p w w' c' :
  sound w → buffers_ok w → sound w' → pm w' = pm w → (∀ q, q ≠ p → conns w' !! q = conns w !! q) →
  (∀ q, q ≠ p → peers w' !! q = peers w !! q) → conns w' !! p = Some c' → rx_buffer c' = [] →
  goes_on p w w'.
Proof.
  intros Hs Hb Hs' Em Ec Ep Hc' Erx. split_and!; [done| |unfold same_todo; by rewrite Em|by apply local_undisturbed].
  apply (buffers_kept content w); [done|]. intros q st' Hq.
  destruct (decide (q = p)) as [->|Hne]; [left; by exists c'|right]. rewrite Ep in Hq by done.
  destruct (sound_links _ _ Hs q) as (c & Hc & _); [by eexists|]. exists st', c, c.
  by rewrite Ec.
Qed.

Lemma advances_goes_on w w' p P c' :
  advances (m := m) content p 0 P w w' → sound w → buffers_ok w → conns w' !! p = Some c' →
  rx_buffer c' = [] → goes_on p w w'.
Proof.
  intros Ha Hs Hb Hc' Erx. pose proof Ha as (? & [Ho _ _ _ Ht] & Hl & _).
  split_and!; [done| |unfold same_todo; lia|by eapply advances_undisturbed].
  apply (buffers_kept content w); [done|]. intros q st' Hst'.
  destruct (decide (q = p)) as [->|Hne]; [left; by exists c'|right].
  specialize (Ho q Hne). rewrite Hst' in Ho. symmetry in Ho.
  apply fmap_Some in Ho as (st & Hst & [_ Eo]%requests_inv).
  destruct (sound_links _ _ Hs q) as (c & Hc & _); [by eexists|].
  destruct (same_links_conn _ _ _ _ Hl Hc) as (cq & Hcq & (_ & _ & _ & _ & _ & E & _)%link_inv).
  by exists st, c, cq.
Qed.

(** ** The handshake *)

Lemma safe_handshake w p fd err recvs rx h :
  healthy w → buffers_ok w → shaking rx w p fd → wf_handshake h →
  recv_loop recvs rx = (handshake_wire h, false, false) →
  safe (run_event (Events fd EPOLLIN err recvs))
    (λ _ w', Good w' ∧ goes_on p w w' ∧ arrived w' p fd) w.
Proof.
  intros [Hi Hs] Hb (Hp & Hcb & Hfd & c & Hc & Hst & <- & Erx & Hh & Hch) Hwf Erec.
  apply safe_event; [done|].
  eapply safe_readable; [done|congruence|done|done|by rewrite Erx|]. set (w1 := set_conns _ w).
  set (c1 := with_rx (handshake_wire h) c).
  assert (conns w1 !! p = Some c1) as Hc1 by (simpl; by rewrite lookup_alter_eq, Hc).
  pose proof (handshake_wire_length h Hwf) as H68. cbn [process_loop]. do 2 safe_step.
  change (rx_buffer c1) with (handshake_wire h).
  rewrite bool_decide_eq_false_2 by (intros E; rewrite E in H68; done).
  safe_step. unfold process_round. do 2 safe_step. change (c_state c1) with (c_state c). rewrite Hst.
  change (rx_buffer c1) with (handshake_wire h). rewrite (proj2 (Z.ltb_ge _ _)) by lia.
  rewrite ztake_all by lia. safe_step. eapply safe_lift.
  { rewrite <- (app_nil_r (handshake_wire h)). by apply handshake_deserialize_wire. }
  cbv beta iota. assert (zdrop 68 (handshake_wire h) = []) as ->.
  { unfold zdrop. apply drop_ge. unfold zlen in H68. lia. }
  do 5 safe_step. change (on_handshake c1) with (on_handshake c). rewrite Hh. cbn [when].
  cbn [run_on_handshake on_message_callbacks]. safe_step. unfold register_peer. do 3 safe_step.
  set (w2 := set_conns (alter (λ c, with_callbacks _ _ _ c) p) _).
  set (c2 := with_callbacks true true (Some CoordinatorCb) (with_state Active (with_rx [] c1))).
  assert (conns w2 !! p = Some c2) as Hc2.
  { simpl. rewrite !lookup_alter_eq, Hc. simpl. do 2 f_equal. by rewrite Hh. }
  assert (∀ q, q ≠ p → conns w2 !! q = conns w !! q) as Ho2.
  { intros q Hq. simpl. by rewrite !lookup_alter_ne. }
  assert (sound w2) as Hs2.
  { apply (sound_link content p w); try done; simpl; [by intros q Hq; rewrite lookup_insert_ne|].
    rewrite lookup_insert_eq. intros st [= <-]. split; [done|]. exists c2. split_and!; try done. }
  assert (goes_on p w w2) as Hg2.
  { apply (local_goes_on p w w2 c2); try done. intros q Hq. simpl. by rewrite lookup_insert_ne. }
  assert (arrived w2 p (c_fd c)) as Hj2.
  { split; [simpl; rewrite lookup_insert_eq; by eexists|]. by exists c2. }
  eapply safe_mono; [apply (safe_send (m := m) content w2 p InterestedMsg); [done|apply Hj2|done]|].
  intros u w3 _ [Hcalm Hs3]. safe_step.
  assert (arrived w3 p (c_fd c)) as (Hp3 & c3 & Hc3 & Efd3 & Erx3) by (by eapply calm_arrived).
  apply (safe_loop_done _ _ _ c3); [done|done|]. split; [by apply (goes_on_calm content p w w2)|].
  split; [done|]. by exists c3.
Qed.

(** ** The bitfield and the unchoke *)

Lemma safe_message w p c st msg err recvs (Q : unit → World → Prop) :
  healthy w → peers w !! p = Some st → conns w !! p = Some c → rx_buffer c = [] → wf_msg msg →
  recv_loop recvs [] = (wire msg, false, false) →
  safe (handle_peer_message p msg)
    (λ _ w', (∃ c', conns w' !! p = Some c' ∧ rx_buffer c' = []) ∧ Q tt w')
    (set_conns (alter (received_flags msg) p) w) →
  safe (run_event (Events (c_fd c) EPOLLIN err recvs)) Q w.
Proof.
  intros Hh Hst Hc Erx Hwf Erec H.
  destruct (healthy_conn content w p st Hh Hst) as (c0 & Hc0 & Hact & Hfd & Hm & Hcb).
  rewrite Hc in Hc0. injection Hc0 as <-. eapply safe_readable; [done|congruence|done..|by rewrite Erx|].
  set (w1 := set_conns _ w). set (c1 := with_rx (wire msg) c).
  assert (conns w1 !! p = Some c1) as Hc1 by (simpl; by rewrite lookup_alter_eq, Hc).
  assert (healthy w1) as Hh1.
  { destruct Hh as [Hi Hs]. split; [|by apply (rx_arrives content p w (wire msg) any)].
    by destruct (upd_conn_inv (m := m) nobody nothing w w1 tt p (with_rx (wire msg))). }
  cbn [process_loop]. do 2 safe_step. change (rx_buffer c1) with (wire msg).
  rewrite bool_decide_eq_false_2 by apply wire_nonempty. safe_step.
  eapply (safe_round content w1 p st c1 msg []); [done..|by rewrite app_nil_r|].
  assert (set_conns (alter (λ c, received_flags msg (with_rx [] c)) p) w1 =
          set_conns (alter (received_flags msg) p) w) as ->.
  { unfold w1, set_conns. simpl. f_equal. rewrite alter_twice. apply alter_ext.
    intros c' Hc'. rewrite Hc in Hc'. injection Hc' as <-. f_equal. rewrite <- Erx. by destruct c. }
  eapply safe_mono; [exact H|]. intros [] w2 _ ((c2 & Hc2 & Erx2) & HQ).
  by eapply safe_loop_done.
Qed.

(** A change of the peer's flags. *)
Lemma healthy_flags w p msg :
  healthy w → healthy (set_conns (alter (received_flags msg) p) w).
Proof.
  intros [Hi Hs]. split.
  { destruct (upd_conn_inv (m := m) nobody nothing w _ tt p (received_flags msg)
      ltac:(intros c; by destruct msg) Hi eq_refl) as [? _]. done. }
  destruct Hs as [? Hl ? ? ? ?]. constructor; try done. intros q Hq.
  destruct (Hl q Hq) as (c & Hc & Hst & Hfd & Hm & Hcb). unfold open_link. simpl.
  destruct (decide (q = p)) as [->|]; [|exists c; by rewrite lookup_alter_ne].
  exists (received_flags msg c). rewrite lookup_alter_eq, Hc. by destruct msg.
Qed.

Lemma safe_replace_bitfield w p st bits :
  sound w → peers w !! p = Some st →
  safe (replace_bitfield p st bits)
    (λ _ w', sound w' ∧ conns w' = conns w ∧ pm w' = pm w ∧
       peers w' = <[p := with_bitfield (Bitfield.of_bytes bits num_pieces_) st]> (peers w)) w.
Proof.
  intros Hs Hst. unfold replace_bitfield. do 8 safe_step. split_and!; try done.
  by apply (put_sound content w _ p st (with_bitfield (Bitfield.of_bytes bits num_pieces_) st)).
Qed.

Lemma safe_bitfield w p fd bits err recvs :
  healthy w → buffers_ok w → arrived w p fd → zlen bits + 5 < 2 ^ 32 →
  recv_loop recvs [] = (wire (BitfieldMsg bits), false, false) →
  safe (run_event (Events fd EPOLLIN err recvs))
    (λ _ w', Good w' ∧ goes_on p w w' ∧ arrived w' p fd ∧
       p_bitfield <$> (peers w' !! p) = Some (Bitfield.of_bytes bits num_pieces_)) w.
Proof.
  intros Hh Hb ([st Hst] & c & Hc & <- & Erx) Hlen Erec. apply safe_event; [apply Hh|].
  eapply (safe_message w p c st (BitfieldMsg bits)); [done..|].
  change (set_conns (alter (received_flags _) p) w) with (set_conns (alter (λ c, c) p) w).
  assert (set_conns (alter (λ c, c) p) w = w) as -> by (unfold set_conns; rewrite alter_id; by destruct w).
  pose proof Hh as [Hi Hs]. unfold handle_peer_message. do 2 safe_step. rewrite Hst.
  unfold handle_bitfield. safe_step. eapply safe_mono; [by apply safe_replace_bitfield|].
  intros b w1 H1 (Hs1 & Ec1 & Em1 & Ep1). apply (replace_bitfield_inv _ _ _ _ _ _ Hi Hst) in H1 as Hi1.
  assert (is_Some (peers w1 !! p)) as Hp1 by (rewrite Ep1, lookup_insert_eq; by eexists).
  safe_step. eapply safe_mono; [by apply (safe_express_interest (m := m) content)|]. intros u w2 H2 [Hcalm2 Hs2].
  destruct (express_interest_inv _ _ _ _ _ _ _ Hi1 H2) as [Hi2 _].
  rewrite <- Ec1 in Hc.
  assert (goes_on p w w2) as Hg2.
  { apply (goes_on_calm content p w w1); [|done]. apply (local_goes_on p w w1 c); try done; [by rewrite Ec1|].
    intros q Hq. by rewrite Ep1, lookup_insert_ne. }
  destruct (calm_conn _ _ _ _ Hcalm2 Hc) as (c2 & Hc2 & (_ & _ & Efd2 & _ & _ & Erx2 & _)%link_inv).
  eapply safe_mono; [apply (safe_top_off (m := m) content w2 p c2); [done|by eapply calm_registered|done]|].
  intros u2 w3 _ (Hi3 & Ha3 & _). pose proof Ha3 as (Hs3 & [_ Hm3 _ _ _] & Hl3 & _).
  destruct (same_links_conn _ _ _ _ Hl3 Hc2) as (c3 & Hc3 & (_ & _ & Efd3 & _ & _ & Erx3 & _)%link_inv).
  assert (p_bitfield <$> (peers w3 !! p) = Some (Bitfield.of_bytes bits num_pieces_)) as Ebf.
  { rewrite Hm3. assert (peers w1 !! p = Some (with_bitfield (Bitfield.of_bytes bits num_pieces_) st)) as E1
      by (by rewrite Ep1, lookup_insert_eq).
    destruct (calm_peer _ _ _ _ Hcalm2 E1) as (st2 & -> & [E _]%requests_inv). simpl. by rewrite E. }
  assert (rx_buffer c3 = []) as Erx3' by congruence.
  split; [by exists c3|]. split; [|split; [|done]].
  - apply (goes_on_trans content p w w2); [done|]. eapply advances_goes_on; [done|done|apply Hg2|done|done].
  - split; [apply fmap_Some in Ebf as (st3 & ? & _); by eexists|]. exists c3. split_and!; congruence.
Qed.

(** An unchoke: the peer is asked for what it has. *)
Lemma safe_unchoke w p st c err recvs :
  healthy w → buffers_ok w → peers w !! p = Some st → conns w !! p = Some c → rx_buffer c = [] →
  recv_loop recvs [] = (wire UnchokeMsg, false, false) →
  safe (run_event (Events (c_fd c) EPOLLIN err recvs))
    (λ _ w', Good w' ∧ goes_on p w w' ∧ topped w' p ∧
       ∃ st' c', peers w' !! p = Some st' ∧ p_bitfield st' = p_bitfield st ∧
         conns w' !! p = Some c' ∧ peer_choking c' = false) w.
Proof.
  intros Hh Hb Hst Hc Erx Erec. apply safe_event; [apply Hh|].
  eapply (safe_message w p c st UnchokeMsg); [done..|]. set (w1 := set_conns _ w).
  assert (healthy w1) as Hh1 by (by apply healthy_flags).
  assert (conns w1 !! p = Some (with_peer false (peer_interested c) c)) as Hc1
    by (simpl; by rewrite lookup_alter_eq, Hc).
  assert (goes_on p w w1) as Hg1.
  { eapply (local_goes_on p w w1); try done; [apply Hh|apply Hh1|].
    intros q Hq. simpl. by rewrite lookup_alter_ne. }
  unfold handle_peer_message. do 2 safe_step. change (peers w1) with (peers w). rewrite Hst.
  unfold fill_request_pipeline. do 2 safe_step. cbn [peer_choking with_peer]. do 2 safe_step.
  change (peers w1) with (peers w). rewrite Hst.
  eapply safe_mono; [apply (safe_fill_loop (m := m) content); [done|by eexists]|].
  intros u w2 _ (Hi2 & Ha2 & Ht2). pose proof Ha2 as (Hs2 & [_ Hm2 _ _ _] & Hl2 & _).
  destruct (same_links_conn _ _ _ _ Hl2 Hc1) as (c2 & Hc2 & (_ & _ & _ & _ & Ech2 & Erx2 & _)%link_inv).
  assert (rx_buffer c2 = []) as Erx2' by (by rewrite Erx2).
  change (peers w1) with (peers w) in Hm2. rewrite Hst in Hm2. apply fmap_Some in Hm2 as (st2 & Hst2 & E).
  split; [by exists c2|]. split; [|split; [done|by exists st2, c2]].
  apply (goes_on_trans content p w w1); [done|]. eapply advances_goes_on; [done|apply Hh1|apply Hg1|done|done].
Qed.
End Joining.
