(* ===== verification/Churn.v ===== *)
(** * Peers that come, go and change their minds

    What else happens to a swarm than answers: connections begin and fail, peers join,
    choke us, let us ask again and leave. Each such event is handled and leaves a swarm,
    as long as some other peer that has every piece is asked for something, when
    blocks are given back. *)

From S2P Require Import Prelude StdString Bencode Bitfield Hasher Torrent PieceManager.
From S2P Require Import PiecePicker PeerMessage Socket EventLoop World PeerConnection Coordinator.
From S2P Require Import System Handlers Steps Termination Safe Progress Swarm Failures Liveness.
From S2P Require Import Connecting Joining.

Section Churn.
Context `{C : CryptoSHA1} `{R : UniformRng} `{!UniformRngLaws R} {prm : Params} {MO : MapOrder}
  {m : TorrentMetadata} {PF : ParamsFor prm m}.
Variable content : Z → list byte.
Hypothesis content_ok : content_of content m.

Implicit Types (w : World).
Abbreviation Good := (Inv (m := m) nobody nothing).
Abbreviation sound := (Swarm.sound (m := m) content).
Abbreviation healthy := (Swarm.healthy (m := m) content).
Abbreviation steady := (Liveness.steady (m := m) content).
Abbreviation fed := (Liveness.fed (m := m)).
Abbreviation seeder := (Liveness.seeder (m := m)).
Abbreviation busy := (Liveness.busy (m := m)).
Abbreviation buffers_ok := (Liveness.buffers_ok content).
Abbreviation goes_on := (Connecting.goes_on (m := m) content).
Abbreviation dialing := (linking Connecting []).
Abbreviation shaking := (linking Handshaking).

(** ** Who keeps a swarm going *)

(** [s] has been asked for something. *)
Definition occupied w (s : Z) : Prop := ∃ st, peers w !! s = Some st ∧ outstanding st ≠ [].

(** Besides [q], another peer keeps the swarm going; and does so when the blocks asked
    of [q] are given back. *)
Definition backed w (q : Z) : Prop := ∃ s, s ≠ q ∧ seeder w s ∧ busy w s.
Definition covered w (q : Z) : Prop :=
  ∃ s, s ≠ q ∧ seeder w s ∧ busy w s ∧ (occupied w s ∨ ¬ occupied w q).

Lemma others_seeder q w w' s : others q w w' → s ≠ q → seeder w s → seeder w' s.
Proof.
  intros [Hp Hl _] Hne (st & c & Hst & Hc & Hch & Hb). specialize (Hp s Hne). rewrite Hst in Hp.
  apply fmap_Some in Hp as (st' & Hst' & [Eb _]%requests_inv).
  destruct (Hl s c Hne Hc) as (c' & Hc' & (_ & _ & _ & _ & Ech & _)%link_inv).
  exists st', c'. split_and!; [done|done|congruence|]. unfold all_pieces. by rewrite <- Eb.
Qed.

Lemma others_occupied q w w' s : others q w w' → s ≠ q → occupied w s → occupied w' s.
Proof.
  intros [Hp _ _] Hne (st & Hst & Ho). specialize (Hp s Hne). rewrite Hst in Hp.
  apply fmap_Some in Hp as (st' & Hst' & [_ Eo]%requests_inv). exists st'. by rewrite <- Eo.
Qed.

Lemma undisturbed_busy q w w' s :
  undisturbed q w w' → metadata (pm w) = m → s ≠ q → busy w s → busy w' s.
Proof.
  intros [Ho Hp] Em Hne [Hd|Hoc]; [|right; by eapply others_occupied].
  left. intros i Hi. apply Hp; [by rewrite Em|]. by apply Hd.
Qed.

Lemma goes_on_steady q w w' : Good w' → goes_on q w w' → steady w'.
Proof. intros Hi (? & ? & _). split; [split|]; done. Qed.

Lemma goes_on_fed q w w' : sound w → goes_on q w w' → backed w q → fed w'.
Proof.
  intros Hs (_ & _ & _ & Hu) (s & Hne & Hse & Hbu).
  exists s. split; [by eapply others_seeder; [apply Hu|..]|]. eapply undisturbed_busy; [done|apply Hs|done..].
Qed.

(** One that is not registered is nobody's backing. *)
Lemma fed_backed w q : fed w → peers w !! q = None → backed w q.
Proof.
  intros (s & Hse & Hb) Hq. exists s. split; [|done]. intros ->.
  destruct Hse as (st & _ & Hst & _). congruence.
Qed.

(** ** Blocks given back *)

Lemma given_back w q st :
  healthy w → peers w !! q = Some st →
  let manager := give_back (pm w) (outstanding st) in
  pm_wf manager ∧ metadata manager = m ∧ bitfield manager = bitfield (pm w) ∧
  assembling_ok content manager ∧ todo manager = todo (pm w) ∧
  ∀ r, asked (delete q (peers w)) r ↔ requested manager r.
Proof.
  intros [(_ & _ & _ & (H5 & Hex & _)) [[Hw Em] _ _ Ha Hacc _]] Hst manager.
  destruct (blocks_given_back content (pm w) (outstanding st)) as (? & Em' & ? & ? & Hr & ?); try done.
  { by apply (H5 q). }
  { intros r Hr. apply Hacc. by exists q, st. }
  split_and!; try done; [by unfold manager; congruence|]. intros r. unfold manager. rewrite Hr, <- Hacc, (asked_split (peers w) q st) by done.
  split.
  - intros Has. split; [by right|]. intros (r' & E & Hr')%list_elem_of_fmap.
    destruct Has as (p & sp & [Hne Hp]%lookup_delete_Some & Hin). by apply (Hex p q sp st r r').
  - intros [[Hin|?] Hn]; [|done]. destruct Hn. by apply list_elem_of_fmap_2.
Qed.

Lemma given_back_all w q st r :
  healthy w → peers w !! q = Some st → r ∈ outstanding st →
  pending (give_back (pm w) (outstanding st)) r.
Proof.
  intros [(_ & _ & _ & (H5 & _ & _)) [[Hw Em] _ _ Ha Hacc _]] Hst Hr.
  apply (given_back_pending content); try done; [by apply (H5 q)|].
  intros r' Hr'. apply Hacc. by exists q, st.
Qed.

(** [q] is no longer asked for anything, and what it was asked for is pending again. *)
Definition gives_up (q : Z) (st : PeerState) w w' : Prop :=
  sound w' ∧ buffers_ok w' ∧ same_todo w w' ∧ others q w w' ∧
  pm w' = give_back (pm w) (outstanding st) ∧ ¬ occupied w' q.

Lemma gives_up_fed q st w w' :
  sound w → peers w !! q = Some st → gives_up q st w w' → covered w q → fed w'.
Proof.
  intros Hs Hst (Hs' & Hb & _ & Ho & Em & _) (s & Hne & Hse & Hbu & Hoc).
  exists s. split; [by eapply others_seeder|]. destruct Hoc as [Hoc|Hno]; [right; by eapply others_occupied|].
  assert (outstanding st = []) as E.
  { destruct (outstanding st) as [|r l] eqn:E; [done|]. destruct Hno. exists st. by rewrite E. }
  rewrite E in Em. eapply (undisturbed_busy q w); [|apply Hs|done..]. split; [done|]. rewrite Em. by intros ? ?.
Qed.

(** A world in which the requests of [q] are given back. *)
Lemma given_up w w' q st :
  healthy w → buffers_ok w → peers w !! q = Some st → pm w' = give_back (pm w) (outstanding st) →
  completed w' = completed w → sends w' = sends w →
  (∀ p, p ≠ q → peers w' !! p = peers w !! p) → (∀ p, p ≠ q → conns w' !! p = conns w !! p) →
  (∀ fd p, p ≠ q → fd_callbacks (fds w) !! fd = Some p → fd_callbacks (fds w') !! fd = Some p) →
  (∀ st', peers w' !! q = Some st' → outstanding st' = [] ∧ open_link w' q ∧
     ∃ c', conns w' !! q = Some c' ∧ rx_buffer c' = []) →
  gives_up q st w w'.
Proof.
  intros Hh Hb Hst Em Eco Es Ep Ec Ef Hq. pose proof Hh as [_ Hs].
  destruct (given_back w q st Hh Hst) as (Hw' & Emd & _ & Ha' & Ht & Hacc).
  split_and!; [| |by unfold same_todo; rewrite Em| |done|by intros (st' & Hst' & Hne); destruct (Hq st' Hst')].
  - apply (sound_local content q w); rewrite ?Em; try done; [by intros [st' Hst']; destruct (Hq st' Hst') as (_ & ? & _)|].
    intros r. rewrite <- Hacc. split; intros (p & sp & Hp & Hr).
    + destruct (decide (p = q)) as [->|Hne].
      * destruct (Hq sp Hp) as [E _]. rewrite E in Hr. by apply not_elem_of_nil in Hr.
      * exists p, sp. by rewrite lookup_delete_ne, <- Ep.
    + apply lookup_delete_Some in Hp as [Hne Hp]. exists p, sp. by rewrite Ep.
  - apply (buffers_kept content w); [done|]. intros p sp Hp.
    destruct (decide (p = q)) as [->|Hne]; [left; by destruct (Hq sp Hp) as (_ & _ & ?)|right].
    rewrite Ep in Hp by done. destruct (sound_links _ _ Hs p) as (c & Hc & _); [by eexists|].
    exists sp, c, c. by rewrite Ec.
  - constructor; [|intros p c Hne Hc; exists c; by rewrite Ec|].
    + intros p Hne. by rewrite Ep.
    + rewrite Em, Emd. symmetry. apply Hs.
Qed.

(** ** A choke *)

Lemma safe_choke w q st c err recvs :
  healthy w → buffers_ok w → peers w !! q = Some st → conns w !! q = Some c → rx_buffer c = [] →
  recv_loop recvs [] = (wire ChokeMsg, false, false) →
  safe (run_event (Events (c_fd c) EPOLLIN err recvs))
    (λ _ w', Good w' ∧ gives_up q st w w') w.
Proof.
  intros Hh Hb Hst Hc Erx Hrecv. apply safe_event; [apply Hh|].
  eapply (safe_message content w q c st ChokeMsg); [done..|]. set (w1 := set_conns _ w).
  pose proof (healthy_flags content w q ChokeMsg Hh) as [_ Hs1]. fold w1 in Hs1.
  unfold handle_peer_message. do 2 safe_step. change (peers w1) with (peers w). rewrite Hst.
  unfold handle_choke. safe_step. unfold safe at 1. rewrite for_each_failed_run. safe_step.
  assert (conns w1 !! q = Some (received_flags ChokeMsg c)) as Hc1 by (simpl; by rewrite lookup_alter_eq, Hc).
  split; [by eexists|]. apply given_up; try done.
  - intros p Hne. simpl. by rewrite lookup_insert_ne.
  - intros p Hne. simpl. by rewrite lookup_alter_ne.
  - cbn [peers set_peers]. rewrite lookup_insert_eq. intros st' [= <-]. split; [done|].
    split; [|by eexists]. destruct (sound_links _ _ Hs1 q) as (c' & ?); [by eexists|]. by exists c'.
Qed.

(** ** Leaving *)

(** The descriptor of [q] reports an error, a hang-up or the other side's end of
    sending; a read meets the end or fails; or the connection was refused. *)
Inductive leaves w (q : Z) : event → Prop :=
| leaves_hangup c ev err recvs :
    conns w !! q = Some c →
    any_of ev (Z.lor EPOLLERR EPOLLHUP) = true ∨ any_of ev EPOLLRDHUP = true →
    leaves w q (Events (c_fd c) ev err recvs)
| leaves_closed c ev err recvs rx closed error :
    conns w !! q = Some c → c_state c ≠ Connecting → any_of ev EPOLLIN = true →
    recv_loop recvs (rx_buffer c) = (rx, closed, error) → closed || error = true →
    zlen rx < 2 ^ 32 → leaves w q (Events (c_fd c) ev err recvs)
| leaves_refused c ev recvs :
    conns w !! q = Some c → c_state c = Connecting → any_of ev EPOLLOUT = true →
    leaves w q (Events (c_fd c) ev true recvs).

Lemma with_rx_same w q c : conns w !! q = Some c → set_conns (alter (with_rx (rx_buffer c)) q) w = w.
Proof.
  intros Hc. unfold set_conns. rewrite (alter_one _ _ c) by done.
  assert (with_rx (rx_buffer c) c = c) as -> by by destruct c. rewrite insert_id by done. by destruct w.
Qed.

(** Such an event disconnects, and does nothing else that is seen. *)
Lemma safe_leaving w q e c (Q : World → Prop) :
  leaves w q e → conns w !! q = Some c → c_fd c ≠ -1 → fd_callbacks (fds w) !! c_fd c = Some q →
  (∀ rx, safe (disconnect q) (λ _ w', Q w' ∧ ∃ c', conns w' !! q = Some c' ∧ tx_buffer c' = [])
     (set_conns (alter (with_rx rx) q) w)) →
  (∀ w1 w2, Q w1 → calm w1 w2 → Q w2) → safe (run_event e) (λ _, Q) w.
Proof.
  intros Hl Hc Hfd Hcb Hd Hcalm.
  assert (safe (disconnect q) (λ _, Q) w) as Hd0.
  { eapply safe_mono; [rewrite <- (with_rx_same w q c) at 1 by done; apply Hd|]. by intros u w' _ [? _]. }
  destruct Hl as [c' ev err recvs Hc' E|c' ev err recvs rx closed error Hc' Hst Hin Erx Eend _|c' ev recvs Hc' Hst Hout];
    rewrite Hc in Hc'; injection Hc' as <-; unfold run_event; do 2 safe_step; rewrite Hcb; unfold handle_events.
  - destruct (any_of ev (Z.lor EPOLLERR EPOLLHUP)); [done|]. destruct E as [?| ->]; [done|]. done.
  - destruct (any_of ev (Z.lor EPOLLERR EPOLLHUP)); [done|]. destruct (any_of ev EPOLLRDHUP); [done|].
    do 2 safe_step. rewrite bool_decide_eq_false_2 by done. cbn [andb when]. do 2 safe_step. rewrite Hin.
    cbn [when]. safe_step. unfold handle_read. do 2 safe_step. rewrite (proj2 (Z.eqb_neq _ _)), Erx by done.
    do 2 safe_step. eapply safe_mono.
    { instantiate (1 := λ _ w', Q w' ∧ ∃ c', conns w' !! q = Some c' ∧ tx_buffer c' = []).
      destruct closed; [apply Hd|]. destruct error; [apply Hd|done]. }
    intros u w1 _ [HQ (c1 & Hc1 & Etx)]. apply safe_when; [|done]. intros _. unfold handle_write.
    do 2 safe_step. rewrite bool_decide_eq_true_2 by done.
    eapply safe_mono; [by eapply safe_update_epoll|]. intros u2 w2 _ Hc2. by eapply Hcalm.
  - destruct (any_of ev (Z.lor EPOLLERR EPOLLHUP)); [done|]. destruct (any_of ev EPOLLRDHUP); [done|].
    do 2 safe_step. rewrite bool_decide_eq_true_2, Hout by done. cbn [andb]. done.
Qed.

Lemma ends_leaves w q e c :
  Good w → leaves w q e → conns w !! q = Some c → fd_callbacks (fds w) !! c_fd c = Some q →
  ends (run_event e w).
Proof.
  intros Hi Hl Hc Hcb.
  destruct Hl as [c' ev err recvs Hc' E|c' ev err recvs rx closed error Hc' Hst Hin Erx Eend Hlen|c' ev recvs Hc' Hst Hout];
    rewrite Hc in Hc'; injection Hc' as <-; unfold run_event; (apply ends_bind; [done|]);
    intros cb w' H; inv_m H; rewrite Hcb.
  - unfold handle_events. destruct (any_of ev (Z.lor EPOLLERR EPOLLHUP)); [apply quiet_disconnect|].
    destruct E as [?| ->]; [done|]. apply quiet_disconnect.
  - apply (ends_handle_events (m := m)); [done|]. unfold rx_len. rewrite Hc.
    pose proof (recv_loop_app recvs (rx_buffer c)) as Ea. rewrite Erx in Ea. simpl in Ea.
    rewrite Ea, zlen_app in Hlen. exact Hlen.
  - unfold handle_events. destruct (any_of ev (Z.lor EPOLLERR EPOLLHUP)); [apply quiet_disconnect|].
    destruct (any_of ev EPOLLRDHUP); [apply quiet_disconnect|]. apply ends_bind; [apply quiet_conn|].
    intros c1 w1 H1. unfold conn in H1. rewrite Hc in H1. injection H1 as <- <-.
    rewrite bool_decide_eq_true_2, Hout by done. apply quiet_disconnect.
Qed.

(** Closing leaves the callbacks of the others. *)
Lemma closed_callbacks w q c fd p :
  fd_callbacks (fds w) !! c_fd c = Some q → p ≠ q → fd_callbacks (fds w) !! fd = Some p →
  fd_callbacks (fds (closed w q c)) !! fd = Some p.
Proof.
  intros Hcb Hne Hfd. simpl. destruct (negb _); [|done]. unfold unregister_fd.
  destruct (_ <? _); [done|]. rewrite Hcb. simpl. rewrite lookup_delete_ne; [done|]. congruence.
Qed.

Lemma safe_leaves w q st e :
  healthy w → buffers_ok w → peers w !! q = Some st → leaves w q e →
  safe (run_event e) (λ _ w', Good w' ∧ gives_up q st w w') w.
Proof.
  intros Hh Hb Hst Hl. apply safe_event; [apply Hh|].
  destruct (registered_conn _ _ _ _ (proj1 Hh) Hst) as (c & Hc & Hdc & Hact & _).
  destruct (healthy_conn content w q st Hh Hst) as (c0 & Hc0 & _ & Hfd & _ & Hcb).
  rewrite Hc in Hc0. injection Hc0 as <-. eapply (safe_leaving w q e c); [done..| |].
  - intros rx. set (w1 := set_conns _ w). set (c1 := with_rx rx c).
    assert (conns w1 !! q = Some c1) as Hc1 by (simpl; by rewrite lookup_alter_eq, Hc).
    unfold safe. rewrite (disconnect_registered w1 q c1 st Hc1 Hact Hdc Hst). split.
    + apply given_up; try done.
      * intros p Hne. simpl. by rewrite lookup_delete_ne.
      * intros p Hne. simpl. by rewrite !lookup_alter_ne.
      * intros fd p Hne Hp. cbn [without fds set_peers set_pm set_picker]. by apply closed_callbacks.
      * cbn [without peers set_peers]. by rewrite lookup_delete_eq.
    + eexists. split; [simpl; rewrite !lookup_alter_eq, Hc; reflexivity|done].
  - intros w1 w2 (Hs & Hbu & Ht & Ho & Em & Hno) Hc2. destruct (calm_undisturbed q _ _ Hc2) as [Ho2 _].
    split_and!; [by eapply calm_sound|by eapply calm_buffers| |by etrans|by rewrite (calm_pm _ _ Hc2)|].
    + unfold same_todo in *. by rewrite (calm_pm _ _ Hc2).
    + intros (st2 & Hst2 & Hne). destruct (calm_peers_inv _ _ _ _ Hc2 Hst2) as (st1 & Hst1 & [_ Eo]%requests_inv).
      apply Hno. exists st1. by rewrite <- Eo.
Qed.

Lemma ends_readable w p c err recvs bytes :
  Good w → conns w !! p = Some c → fd_callbacks (fds w) !! c_fd c = Some p →
  recv_loop recvs (rx_buffer c) = (bytes, false, false) → zlen bytes < 2 ^ 32 →
  ends (run_event (Events (c_fd c) EPOLLIN err recvs) w).
Proof.
  intros Hi Hc Hcb Erec Hlen. unfold run_event. apply ends_bind; [done|]. intros cb w' H. inv_m H.
  rewrite Hcb. apply (ends_handle_events (m := m)); [done|]. unfold rx_len. rewrite Hc.
  pose proof (recv_loop_app recvs (rx_buffer c)) as Ea. rewrite Erec in Ea. simpl in Ea.
  rewrite Ea, zlen_app in Hlen. exact Hlen.
Qed.

Lemma arrived_watched w p fd :
  healthy w → arrived w p fd →
  ∃ st c, peers w !! p = Some st ∧ conns w !! p = Some c ∧ c_fd c = fd ∧ rx_buffer c = [] ∧
    fd_callbacks (fds w) !! c_fd c = Some p.
Proof.
  intros Hh ([st Hst] & c & Hc & Efd & Erx). destruct (healthy_conn content w p st Hh Hst) as (c0 & Hc0 & _ & _ & _ & Hcb).
  rewrite Hc in Hc0. injection Hc0 as <-. by exists st, c.
Qed.

(** A peer stops answering: it chokes us, or leaves. *)
Inductive withdraws w (q : Z) : event → Prop :=
| withdraws_chokes fd err recvs :
    arrived w q fd → recv_loop recvs [] = (wire ChokeMsg, false, false) →
    withdraws w q (Events fd EPOLLIN err recvs)
| withdraws_leaves e : leaves w q e → withdraws w q e.

Lemma withdraws_returns w q st e :
  healthy w → buffers_ok w → peers w !! q = Some st → withdraws w q e →
  ∃ w', run_event e w = Ok (tt, w') ∧ Good w' ∧ gives_up q st w w'.
Proof.
  intros Hh Hb Hst Hq.
  assert (safe (run_event e) (λ _ w', Good w' ∧ gives_up q st w w') w ∧ ends (run_event e w)) as [Hs He].
  { destruct Hq as [fd err recvs Har Hr|e Hl].
    - destruct (arrived_watched w q fd Hh Har) as (st' & c & Hst' & Hc & <- & Erx & Hcb).
      rewrite Hst in Hst'. injection Hst' as <-. split; [by apply (safe_choke w q st c)|].
      eapply ends_readable; [apply Hh|done|done|by rewrite Erx|done].
    - split; [by apply safe_leaves|].
      destruct (healthy_conn content w q st Hh Hst) as (c & Hc & _ & _ & _ & Hcb).
      eapply ends_leaves; [apply Hh|done..]. }
  destruct (safe_returns _ _ _ Hs He) as ([] & w' & E & H). by exists w'.
Qed.

(** A connection not registered yet. *)
Lemma safe_lost_link w p s rx0 fd e :
  healthy w → buffers_ok w → linking s rx0 w p fd → s = Connecting ∨ s = Handshaking → leaves w p e →
  safe (run_event e) (λ _ w', Good w' ∧ goes_on p w w') w ∧ ends (run_event e w).
Proof.
  intros Hh Hb (Hp & Hcb & Hfd & c & Hc & Hst & <- & _) Hs Hl. split; [|eapply ends_leaves; [apply Hh|done..]].
  apply safe_event; [apply Hh|]. eapply (safe_leaving w p e c); [done..| |].
  - intros rx. set (w1 := set_conns _ w). set (c1 := with_rx rx c).
    assert (conns w1 !! p = Some c1) as Hc1 by (simpl; by rewrite lookup_alter_eq, Hc).
    assert (c_state c1 ≠ Disconnected ∧ c_state c1 ≠ Active) as [Hd Ha].
    { unfold c1. cbn [c_state with_rx]. rewrite Hst. by destruct Hs as [-> | ->]. }
    destruct Hh as [(_ & _ & (_ & _ & Hm) & _) Hsd].
    destruct (Hm p c Hc) as [_ [Hdc|[_ ?]]]; [done| |done].
    destruct (disconnect_run w1 p c1 Hc1 Hd) as (w2 & E & ->). unfold safe. rewrite E.
    eapply safe_mono.
    { apply (safe_unlinked (closed w1 p c1) p
        (with_tx [] (with_rx [] (with_fd (-1) (with_state Disconnected c1)))) (key_of c)); [done| |done].
      simpl. by rewrite !lookup_alter_eq, Hc. }
    intros u w2 _ ->. split.
    + apply (link_goes_on content p w); try done.
      * intros q Hq. simpl. by rewrite !lookup_alter_ne.
      * intros f q Hq Hf. cbn [fds set_active]. by apply closed_callbacks.
    + eexists. split; [simpl; rewrite !lookup_alter_eq, Hc; reflexivity|done].
  - intros w1 w2 Hg Hc2. by apply (goes_on_calm content p w w1).
Qed.
(** A connection that was waited for is there: the handshake goes out. *)
Lemma safe_dialed w p fd ev :
  healthy w → buffers_ok w → dialing w p fd → zlen info_hash_ = 20 → zlen our_peer_id_ = 20 →
  any_of ev (Z.lor EPOLLERR EPOLLHUP) = false → any_of ev EPOLLRDHUP = false →
  any_of ev EPOLLIN = false → any_of ev EPOLLOUT = true →
  safe (run_event (Events fd ev false []))
    (λ _ w', Good w' ∧ goes_on p w w' ∧ shaking [] w' p fd) w.
Proof.
  intros [Hi Hs] Hb (Hp & Hcb & Hfd & c & Hc & Hst & <- & Erx & Hh & Hch) Hih Hid E1 E2 E3 E4.
  apply safe_event; [done|]. unfold run_event. do 2 safe_step. rewrite Hcb. unfold handle_events.
  rewrite E1, E2, E3, E4. do 2 safe_step. rewrite bool_decide_eq_true_2 by done. cbn [andb when].
  do 3 safe_step. set (w1 := set_conns _ w).
  assert (conns w1 !! p = Some (with_state Handshaking c)) as Hc1 by (simpl; by rewrite lookup_alter_eq, Hc).
  assert (goes_on p w w1) as Hg1.
  { apply (link_goes_on content p w); try done. intros q Hq. simpl. by rewrite lookup_alter_ne. }
  assert (shaking [] w1 p (c_fd c)) as Hl1.
  { split; [done|]. split; [done|]. split; [done|]. eexists. split; [exact Hc1|]. done. }
  eapply safe_mono; [eapply (safe_send_handshake w1 p); [exact Hc1|done|apply Hg1|done..]|].
  intros u w2 _ Hc2. safe_step. safe_step. destruct (calm_conn _ _ _ _ Hc2 Hc1) as (c2 & Hcc2 & El).
  apply link_inv in El as (_ & _ & Efd & _).
  eapply safe_mono; [eapply (safe_handle_write w2 p c2); [done|by rewrite Efd|]|].
  { eapply (calm_willing _ _ Hc2), Hg1. }
  intros u2 w3 _ Hc3. assert (calm w1 w3) as Hcalm by (by transitivity w2).
  split; [by apply (goes_on_calm content p w w1)|by apply (calm_linking _ _ w1)].
Qed.

(** A handshake that is not all there waits. *)
Lemma safe_begun w p fd err recvs rx part :
  healthy w → buffers_ok w → shaking rx w p fd → recv_loop recvs rx = (part, false, false) →
  zlen part < 68 →
  safe (run_event (Events fd EPOLLIN err recvs))
    (λ _ w', Good w' ∧ goes_on p w w' ∧ shaking part w' p fd) w.
Proof.
  intros [Hi Hs] Hb (Hp & Hcb & Hfd & c & Hc & Hst & <- & Erx & Hh & Hch) Erec Hlen.
  apply safe_event; [done|]. eapply safe_readable; [done|congruence|done|done|by rewrite Erx|].
  set (w1 := set_conns _ w). set (c1 := with_rx part c).
  assert (conns w1 !! p = Some c1) as Hc1 by (simpl; by rewrite lookup_alter_eq, Hc).
  assert (goes_on p w w1 ∧ shaking part w1 p (c_fd c)) as Hend.
  { split; [|by do 3 (split; [done|]); exists c1].
    apply (link_goes_on content p w); try done. intros q Hq. simpl. by rewrite lookup_alter_ne. }
  cbn [process_loop]. do 2 safe_step. change (rx_buffer c1) with part. case_bool_decide; [by safe_step|].
  safe_step. unfold process_round. do 2 safe_step. change (c_state c1) with (c_state c). rewrite Hst.
  change (rx_buffer c1) with part. rewrite (proj2 (Z.ltb_lt _ _)) by done. safe_step. by safe_step.
Qed.

(** Peers from a list, as many as there is room for. *)
Lemma safe_add_peers infos w :
  zlen info_hash_ = 20 → zlen our_peer_id_ = 20 → steady w → fresh_fds w →
  safe (add_peers infos)
    (λ _ w', steady w' ∧ same_todo w w' ∧ fresh_fds w' ∧ (fed w → fed w')) w.
Proof.
  intros Hih Hid. revert w. induction infos as [|info infos IH]; intros w Hsw Hf; cbn [add_peers]; [done|].
  do 2 safe_step. destruct (_ <=? _); [by safe_step|]. do 2 safe_step.
  destruct (is_blacklisted _ _ _); [by apply IH|]. case_bool_decide; [by apply IH|]. safe_step.
  pose proof Hsw as ([Hi Hs] & Hb).
  eapply safe_mono; [by apply (safe_connect_to_peer (m := m) content w)|]. intros [] w1 E (p & Hp & Hg & Hf1 & _).
  destruct (connect_to_peer_inv _ _ _ _ _ _ _ Hi E) as [Hi1 _].
  eapply safe_mono; [apply (IH w1); [by eapply goes_on_steady|done]|].
  intros u w2 _ (? & Ht & ? & Hfed). split; [done|]. split; [|split; [done|]].
  - destruct Hg as (_ & _ & Ht1 & _). unfold same_todo in *. congruence.
  - intros Hfd. apply Hfed. eapply goes_on_fed; [exact Hs|exact Hg|by apply fed_backed].
Qed.

(** ** What happens among cooperating peers *)

(** Events, how many answers each brings, and what it takes for a swarm to go on as
    one. *)
Inductive happens w : event → Z → Prop → Prop :=
| happens_answers e n : brings content w e n → happens w e n True
| happens_kernel s c :
    Forall (λ x, x ≠ SendFails) s → fresh_fds (set_sends s (set_connects c w)) →
    happens w (Kernel s c) 0 True
| happens_connects ip port : fresh_fds w → happens w (ConnectTo ip port) 0 True
| happens_peers infos : fresh_fds w → happens w (AddPeers infos) 0 True
| happens_dialed p fd ev :
    dialing w p fd → any_of ev (Z.lor EPOLLERR EPOLLHUP) = false → any_of ev EPOLLRDHUP = false →
    any_of ev EPOLLIN = false → any_of ev EPOLLOUT = true → happens w (Events fd ev false []) 0 True
| happens_begins p fd err recvs rx part :
    shaking rx w p fd → recv_loop recvs rx = (part, false, false) → zlen part < 68 →
    happens w (Events fd EPOLLIN err recvs) 0 True
| happens_handshake p fd err recvs rx h :
    shaking rx w p fd → wf_handshake h → recv_loop recvs rx = (handshake_wire h, false, false) →
    happens w (Events fd EPOLLIN err recvs) 0 True
| happens_fails p s rx fd e :
    linking s rx w p fd → s = Connecting ∨ s = Handshaking → leaves w p e → happens w e 0 True
| happens_bitfield q fd bits err recvs :
    arrived w q fd → zlen bits + 5 < 2 ^ 32 →
    recv_loop recvs [] = (wire (BitfieldMsg bits), false, false) →
    happens w (Events fd EPOLLIN err recvs) 0 (backed w q)
| happens_unchokes q fd err recvs :
    arrived w q fd → recv_loop recvs [] = (wire UnchokeMsg, false, false) →
    happens w (Events fd EPOLLIN err recvs) 0 True
| happens_withdraws q e :
    is_Some (peers w !! q) → withdraws w q e → happens w e 0 (covered w q).

(** The seeder that lets us ask again is one the swarm can go on with. *)
Lemma unchoked_fed w w' q st :
  sound w → goes_on q w w' → peers w !! q = Some st → topped (m := m) w' q →
  (∃ st' c', peers w' !! q = Some st' ∧ p_bitfield st' = p_bitfield st ∧
     conns w' !! q = Some c' ∧ peer_choking c' = false) → fed w → fed w'.
Proof.
  intros Hs Hg Hst Ht (st' & c' & Hst' & Eb & Hc' & Hch) (s & Hse & Hbu).
  destruct (decide (s = q)) as [->|Hne]; [|eapply goes_on_fed; [done|done|by exists s]].
  destruct Hse as (st0 & _ & Hst0 & _ & _ & Hall). rewrite Hst in Hst0. injection Hst0 as <-.
  assert (all_pieces (m := m) st') as Hall' by (unfold all_pieces; by rewrite Eb).
  exists q. split; [by exists st', c'|]. apply topped_busy; [done|by exists st'].
Qed.

Definition handled w e n (need : Prop) : Prop :=
  ∃ w', run_event e w = Ok (tt, w') ∧ steady w' ∧ todo (pm w') = todo (pm w) - n ∧
    (need → fed w → fed w').

Lemma safe_handled w e need :
  safe (run_event e) (λ _ w', steady w' ∧ same_todo w w' ∧ (need → fed w → fed w')) w →
  ends (run_event e w) → handled w e 0 need.
Proof.
  intros Hs He. destruct (safe_returns _ _ _ Hs He) as ([] & w' & E & Hsw & Ht & Hf). exists w'.
  split_and!; [done|done| |done]. unfold same_todo in Ht. lia.
Qed.

(** Of a connection that is not registered. *)
Lemma link_handled w p e (P : World → Prop) :
  sound w → peers w !! p = None → safe (run_event e) (λ _ w', Good w' ∧ goes_on p w w' ∧ P w') w →
  ends (run_event e w) → handled w e 0 True.
Proof.
  intros Hs Hp Hsafe He. apply safe_handled; [|done]. eapply safe_mono; [exact Hsafe|].
  intros u w' _ (Hi & Hg & _). split; [by eapply goes_on_steady|split; [apply Hg|]].
  intros _ Hf. eapply goes_on_fed; [done|exact Hg|by apply fed_backed].
Qed.

(** Of a registered peer that sends a message. *)
Lemma message_handled w q e need (P : World → Prop) :
  safe (run_event e) (λ _ w', Good w' ∧ goes_on q w w' ∧ P w') w →
  (∀ w', goes_on q w w' → P w' → need → fed w → fed w') → ends (run_event e w) → handled w e 0 need.
Proof.
  intros Hsafe Hf He. apply safe_handled; [|done]. eapply safe_mono; [exact Hsafe|].
  intros u w' _ (Hi & Hg & HP). split; [by eapply goes_on_steady|split; [apply Hg|by apply Hf]].
Qed.

Lemma happens_handled w e n need :
  zlen info_hash_ = 20 → zlen our_peer_id_ = 20 → steady w → happens w e n need →
  handled w e n need.
Proof.
  intros Hih Hid Hsw H. pose proof Hsw as (Hh & Hb). pose proof Hh as [Hi Hs].
  destruct H as [e n Hbr|s c Hsc Hf|ip port Hf|infos Hf|p fd ev Hl E1 E2 E3 E4|p fd err recvs rx part Hl Hr Hlen
    |p fd err recvs rx h Hl Hwf Hr|p s rx fd e Hl Hst Hle|q fd bits err recvs Har Hlen Hr|q fd err recvs Har Hr
    |q e [st Hst] Hle].
  - destruct (brings_returns content content_ok w e n Hsw Hbr) as (w' & ? & ? & ? & ?). by exists w'.
  - exists (set_sends s (set_connects c w)). split; [done|]. split; [split; [split|done]|split; [simpl; lia|done]].
    + by destruct (Inv_same (m := m) nobody nothing w (set_sends s (set_connects c w)) Hi).
    + by destruct Hs.
  - apply safe_handled; [|apply quiet_connect_to_peer].
    eapply safe_mono; [by apply (safe_connect_to_peer (m := m) content w)|].
    intros [] w' E (p & Hp & Hg & _). destruct (connect_to_peer_inv _ _ _ _ _ _ _ Hi E) as [Hi1 _].
    split; [by eapply goes_on_steady|split; [apply Hg|]].
    intros _ Hfd. eapply goes_on_fed; [done|exact Hg|by apply fed_backed].
  - apply safe_handled; [|apply quiet_add_peers].
    eapply safe_mono; [by apply safe_add_peers|]. intros u w' _ (? & ? & _ & ?). auto.
  - eapply (link_handled w p); [done|apply Hl|by apply (safe_dialed w p fd)|].
    destruct Hl as (Hp & Hcb & Hfd & c & Hc & _ & _ & Erx & _). unfold run_event. apply ends_bind; [done|].
    intros cb w' H. inv_m H. rewrite Hcb. apply (ends_handle_events (m := m)); [done|].
    unfold rx_len. rewrite Hc, Erx. done.
  - eapply (link_handled w p); [done|apply Hl|by apply (safe_begun w p fd err recvs rx part)|].
    destruct Hl as (Hp & Hcb & Hfd & c & Hc & _ & <- & Erx & _).
    eapply ends_readable; [done..|by rewrite Erx|lia].
  - eapply (link_handled w p); [done|apply Hl|by apply (safe_handshake content w p fd err recvs rx h)|].
    destruct Hl as (Hp & Hcb & Hfd & c & Hc & _ & <- & Erx & _).
    eapply ends_readable; [done..|by rewrite Erx|]. by rewrite handshake_wire_length.
  - destruct (safe_lost_link w p s rx fd e) as [Hsf He]; [done..|].
    apply (link_handled w p e (λ _, True)); [done|apply Hl| |done].
    eapply safe_mono; [exact Hsf|]. by intros u w' _ [? ?].
  - destruct (arrived_watched w q fd Hh Har) as (st & c & Hst & Hc & <- & Erx & Hcb).
    eapply message_handled; [by apply (safe_bitfield content w q (c_fd c) bits)| |].
    + intros w' Hg _ Hbk _. by eapply goes_on_fed.
    + eapply ends_readable; [done..|by rewrite Erx|]. rewrite wire_length. cbn [body]. rewrite zlen_cons. lia.
  - destruct (arrived_watched w q fd Hh Har) as (st & c & Hst & Hc & <- & Erx & Hcb).
    eapply message_handled; [by apply (safe_unchoke content w q st c)| |by eapply ends_readable; [..|rewrite Erx|]].
    intros w' Hg [Ht Hst'] _. by eapply unchoked_fed.
  - destruct (withdraws_returns w q st e Hh Hb Hst Hle) as (w' & E & Hi' & Hg). exists w'.
    split; [done|]. split; [split; [split; [done|apply Hg]|apply Hg]|]. split.
    + destruct Hg as (_ & _ & Ht & _). unfold same_todo in Ht. lia.
    + intros Hcov _. by eapply gives_up_fed.
Qed.

(** ** Runs *)

(** A run of the events [es], in which [n] answers come. It is [upheld] if a swarm goes
    on as one all along. *)
Inductive served (upheld : Prop) : World → list event → Z → World → Prop :=
| served_none w : served upheld w [] 0 w
| served_more w e n need w1 es k w2 :
    happens w e n need → (upheld → need) → run_event e w = Ok (tt, w1) →
    served upheld w1 es k w2 → served upheld w (e :: es) (n + k) w2.

Lemma happens_nonneg w e n need : happens w e n need → 0 ≤ n.
Proof. intros [? ? [? ? ? xs]| | | | | | | | | |]; [apply zlen_nonneg|done..]. Qed.

Lemma served_run upheld w es n w' : served upheld w es n w' → run_events es w = Ok (tt, w').
Proof.
  induction 1 as [w|w e n need w1 es k w2 _ _ E _ IH]; [done|]. cbn [run_events].
  by rewrite (bindM_run _ _ _ _ _ E).
Qed.

Lemma served_steady upheld w es n w' :
  zlen info_hash_ = 20 → zlen our_peer_id_ = 20 → steady w → served upheld w es n w' →
  steady w' ∧ todo (pm w') = todo (pm w) - n ∧ 0 ≤ n ∧ (upheld → fed w → fed w').
Proof.
  intros Hih Hid Hsw H. induction H as [w|w e n need w1 es k w2 Hb Hup E _ IH]; [split_and!; [done|lia|done|done]|].
  destruct (happens_handled w e n need Hih Hid Hsw Hb) as (w1' & E' & Hsw1 & Et & Hf).
  rewrite E in E'. injection E' as <-. destruct (IH Hsw1) as (? & ? & ? & Hf2). split_and!; [done|lia| |].
  - pose proof (happens_nonneg _ _ _ _ Hb). lia.
  - intros Hu Hfd. auto.
Qed.
End Churn.
