(* ===== verification/Download.v ===== *)
(** * From the first connection to the last block

    A peer that has every piece joins, by the four events of its connection; the answers
    that come, while peers join, choke us and leave (Churn.v), complete the download, and
    with the writes of Persist.v the files have the content. Last, the way in which a
    download stalls although peers that have every piece let us ask: the blocks that a
    choke or a departure gives back are offered to nobody. *)

From S2P Require Import Prelude StdString Bencode Bitfield Hasher Torrent PieceManager Disk.
From S2P Require Import PiecePicker PeerMessage Socket EventLoop World PeerConnection Coordinator.
From S2P Require Import System Handlers Steps Sample Persist.
From S2P Require Import Termination Safe Progress Swarm Liveness Connecting Joining Churn.
From S2P Require Import Failures.

Section Download.
Context `{C : CryptoSHA1} `{R : UniformRng} `{!UniformRngLaws R} {prm : Params} {MO : MapOrder}
  {m : TorrentMetadata} {PF : ParamsFor prm m}.

Implicit Types (w : World) (content : Z → list byte).
Abbreviation Good := (Inv (m := m) nobody nothing).
Abbreviation healthy := (Swarm.healthy (m := m)).
Abbreviation steady := (Liveness.steady (m := m)).
Abbreviation fed := (Liveness.fed (m := m)).
Abbreviation served := (Churn.served (m := m)).
Abbreviation happens := (Churn.happens (m := m)).

(** ** Joining *)

(** What the other side of a new connection sends: its handshake, a bitfield with every
    piece, and an unchoke. *)
Record session := mk_session {
  se_ip : list byte;
  se_port : Z;
  se_fd : Z;
  se_handshake : HandshakeMsg;
  se_bits : list byte;
  se_recvs : list RecvResult * list RecvResult * list RecvResult;
}.

Definition session_events (s : session) : list event :=
  [ConnectTo (se_ip s) (se_port s);
   Events (se_fd s) EPOLLIN false (se_recvs s).1.1;
   Events (se_fd s) EPOLLIN false (se_recvs s).1.2;
   Events (se_fd s) EPOLLIN false (se_recvs s).2].

(** The kernel takes the connection at once, and fails no [send] from then on. *)
Definition opening (script : list SendResult) (s : session) : list event :=
  Kernel script [(Connected, se_fd s, true)] :: session_events s.

Definition delivers (recvs : list RecvResult) (bytes : list byte) : Prop :=
  recv_loop recvs [] = (bytes, false, false).

Record session_ok (s : session) : Prop := {
  so_handshake : wf_handshake (se_handshake s);
  so_bits : zlen (se_bits s) + 5 < 2 ^ 32;
  so_all : ∀ i, 0 ≤ i < num_pieces m → Bitfield.has (Bitfield.of_bytes (se_bits s) num_pieces_) i = true;
  so_recv1 : delivers (se_recvs s).1.1 (handshake_wire (se_handshake s));
  so_recv2 : delivers (se_recvs s).1.2 (wire (BitfieldMsg (se_bits s)));
  so_recv3 : delivers (se_recvs s).2 (wire UnchokeMsg);
}.

(** There is room for the connection, and its descriptor is new. *)
Record admits w (s : session) : Prop := {
  ad_room : room w (se_ip s) (se_port s);
  ad_fd : 0 ≤ se_fd s ∧ fd_callbacks (fds w) !! se_fd s = None;
}.

(** A peer that is registered, with nothing waiting, reads a message. *)
Lemma ends_arrived content w p fd err recvs bytes :
  healthy content w → arrived w p fd → recv_loop recvs [] = (bytes, false, false) →
  zlen bytes < 2 ^ 32 → ends (run_event (Events fd EPOLLIN err recvs) w).
Proof.
  intros Hh Ha Hr Hlen. destruct (arrived_watched content w p fd Hh Ha) as (st & c & _ & Hc & <- & Erx & Hcb).
  eapply ends_readable; [apply Hh|done|done|by rewrite Erx|done].
Qed.

Lemma joins content w s script :
  content_of content m → steady content w → session_ok s → admits w s →
  Forall (λ x, x ≠ SendFails) script → zlen info_hash_ = 20 → zlen our_peer_id_ = 20 →
  ∃ w', served content False w (opening script s) 0 w' ∧ fed w'.
Proof.
  intros Hco Hsw [Hhs Hbits Hall Hr1 Hr2 Hr3] [Hroom [Hfd Hcb]] Hscript Hih Hid.
  set (w0 := set_sends script (set_connects [(Connected, se_fd s, true)] w)).
  assert (fresh_fds w0) as Hfresh.
  { split; [apply NoDup_singleton|]. by intros fd ->%list_elem_of_singleton. }
  assert (happens content w (Kernel script [(Connected, se_fd s, true)]) 0 True) as H0 by by constructor.
  assert (run_event (Kernel script [(Connected, se_fd s, true)]) w = Ok (tt, w0)) as E0 by done.
  destruct (happens_handled content Hco w _ _ _ Hih Hid Hsw H0) as (w0' & E0' & [Hh0 Hb0] & _).
  rewrite E0 in E0'. injection E0' as <-.
  destruct (safe_returns _ _ w0 (safe_connect_to_peer (m := m) content w0 (se_ip s) (se_port s)
    (proj2 Hh0) Hb0 Hfresh Hih Hid)) as ([] & w1 & E1 & p & _ & Hg1 & _ & Hsh);
    [by apply quiet_connect_to_peer|].
  specialize (Hsh Hroom). change (linking Handshaking [] w1 p (se_fd s)) in Hsh.
  destruct (connect_to_peer_inv _ _ _ _ _ _ _ (proj1 Hh0) E1) as [Hi1 _].
  assert (healthy content w1) as Hh1 by (split; [done|apply Hg1]).
  destruct (safe_returns _ _ w1 (safe_handshake content w1 p _ false _ _ _ Hh1 (proj1 (proj2 Hg1)) Hsh Hhs Hr1))
    as ([] & w2 & E2 & Hi2 & Hg2 & Hj2).
  { destruct Hsh as (_ & Hcb1 & _ & c1 & Hc1 & _ & Efd1 & Erx1 & _). rewrite <- Efd1 in Hcb1 |- *.
    eapply ends_readable; [apply Hh1|done|done|by rewrite Erx1|]. by rewrite handshake_wire_length. }
  assert (healthy content w2) as Hh2 by (split; [done|apply Hg2]).
  destruct (safe_returns _ _ w2 (safe_bitfield content w2 p _ _ false _ Hh2 (proj1 (proj2 Hg2)) Hj2 Hbits Hr2))
    as ([] & w3 & E3 & Hi3 & Hg3 & Hj3 & Hbf3).
  { eapply ends_arrived; [done..|]. rewrite wire_length. cbn [body]. rewrite zlen_cons. lia. }
  assert (healthy content w3) as Hh3 by (split; [done|apply Hg3]).
  destruct (arrived_watched content w3 p _ Hh3 Hj3) as (st3 & c3 & Hst3 & Hc3 & Efd3 & Erx3 & _).
  destruct (safe_returns _ _ w3 (safe_unchoke content w3 p st3 c3 false _ Hh3 (proj1 (proj2 Hg3)) Hst3 Hc3 Erx3 Hr3))
    as ([] & w4 & E4 & Hi4 & Hg4 & Ht4 & st4 & c4 & Hst4 & Eb4 & Hc4 & Hch4).
  { rewrite Efd3. by eapply ends_arrived. }
  rewrite Efd3 in E4. exists w4. split.
  - unfold opening, session_events. change 0 with (0 + (0 + (0 + (0 + (0 + 0))))).
    eapply served_more; [exact H0|done|exact E0|].
    eapply served_more; [by apply happens_connects|done|exact E1|].
    eapply served_more; [by eapply happens_handshake|done|exact E2|].
    eapply served_more; [by eapply happens_bitfield|done|exact E3|].
    eapply served_more; [by eapply happens_unchokes|done|exact E4|]. apply served_none.
  - rewrite Hst3 in Hbf3. injection Hbf3 as Ebf3.
    assert (all_pieces (m := m) st4) as Hall4 by (unfold all_pieces; by rewrite Eb4, Ebf3).
    exists p. split; [by exists st4, c4|]. apply topped_busy; [done|by exists st4].
Qed.

(** ** The start *)

Lemma start_steady content seeded :
  steady content (start m seeded) ∧
  todo (pm (start m seeded)) = zsum ((λ i, num_blocks (piece_len m i)) <$> seqZ 0 (num_pieces m)).
Proof.
  pose proof params_metadata as Hm. pose proof (make_pm_wf m Hm) as Hw.
  assert (∀ i, 0 ≤ i < num_pieces m → has_piece (make_pm m) i = false) as Hno.
  { intros i Hi. unfold has_piece. simpl. apply has_make. }
  assert (∀ i, ps_blocks (entry (make_pm m) i) = layout i (piece_len m i)) as Eb by done.
  assert (∀ i, 0 ≤ i < num_pieces m → 0 < num_blocks (piece_len m i)) as Hpos.
  { intros i Hi. pose proof (piece_len_pos m i Hm Hi). apply Z.div_str_pos. unfold block_size. lia. }
  split; [split; [split; [apply start_inv|]|by intros p st c Hst]|].
  - constructor; simpl; try done.
    + by intros p [].
    + apply Forall_nil_2.
    + intros i [Hi _]. simpl in Hi. pose proof (piece_len_range m i Hm (proj1 Hi)).
      unfold assembling. rewrite Eb, received_layout, zlen_layout by lia. split; [|by apply Hpos].
      exists []. split; [done|]. intros k b [-> _]%layout_lookup. split; [|done]. split; [done|].
      intros (d & Hd). by apply not_elem_of_nil in Hd.
    + intros r. split; [by intros (p & st & ? & _)|]. intros (_ & k & b & Hk & Hs & _).
      rewrite Eb in Hk. apply layout_lookup in Hk as [-> _]. done.
    + intros i d Hin. by apply not_elem_of_nil in Hin.
  - unfold todo. simpl. f_equal. apply list_fmap_ext. intros n i Hi%list_elem_of_lookup_2.
    apply elem_of_seqZ in Hi. unfold missing. rewrite Hno, Eb, received_layout, zlen_layout by
      (pose proof (piece_len_range m i Hm); lia). lia.
Qed.

(** The answers there is a wait for can come. *)
Lemma served_exists content w n :
  content_of content m → steady content w → fed w → todo (pm w) = n →
  ∃ es w', served content True w es n w'.
Proof.
  intros Hco Hsw Hf <-. pose proof (todo_nonneg (pm w)) as Hn.
  rewrite <- (Z2Nat.id (todo (pm w))) by done. remember (Z.to_nat (todo (pm w))) as k eqn:Ek.
  revert w Hsw Hf Hn Ek. induction k as [|k IH]; intros w Hsw Hf Hn Ek; [exists [], w; constructor|].
  destruct (swarm_next (m := m) content Hco w (conj Hsw Hf)) as [e He]; [lia|].
  destruct (brings_returns content Hco w e 1 Hsw He) as (w1 & E & Hsw1 & Et & Hf1).
  destruct (IH w1 Hsw1 (Hf1 Hf)) as (es & w' & Hs); [lia|lia|]. exists (e :: es), w'.
  replace (Z.of_nat (S k)) with (1 + Z.of_nat k) by lia.
  eapply served_more; [by apply happens_answers|done|done|done].
Qed.

Lemma served_app content (up : Prop) w es n w1 fs k w2 :
  served content up w es n w1 → served content up w1 fs k w2 → served content up w (es ++ fs) (n + k) w2.
Proof.
  intros H. revert fs k w2. induction H as [w|w e n need w1 es l w2 ??? _ IH]; intros fs k w3 Hk; [done|].
  rewrite <- Z.add_assoc. cbn [app]. eapply served_more; eauto.
Qed.

Lemma served_weaken content (up up' : Prop) w es n w' :
  (up' → up) → served content up w es n w' → served content up' w es n w'.
Proof. intros Hup. induction 1; [constructor|]. eapply served_more; eauto. Qed.

(** ** The files *)

Section Files.
Context `{FS : FileSystem} (io : DiskIOManager).

Lemma running_follows d es w d1 w' :
  disk_metadata io = m → placeable io (files m) → reliable d → running_on (m := m) io d (w, d1) →
  run_events es w = Ok (tt, w') → ∃ d2, running_on (m := m) io d (w', d2).
Proof.
  intros Em Hpl Hr. revert w d1. induction es as [|e es IH]; intros w d1 Hrun H; cbn [run_events] in H.
  - injection H as <-. by exists d1.
  - unfold mbind, M_bind in H. destruct (run_event e w) as [[[] w1]| | |] eqn:E; try done.
    destruct (running_next io d w d1 e w1 Em Hpl Hr Hrun E) as [d2 Hrun2]. by eapply IH.
Qed.

Lemma running_opened d seeded es w :
  disk_metadata io = m → placeable io (files m) → reliable d →
  run_events es (start m seeded) = Ok (tt, w) → ∃ d1, running_on (m := m) io d (w, d1).
Proof.
  intros Em Hpl Hr E. rewrite <- Em in Hpl.
  destruct (preallocate_loop_run io _ d Hpl) as (d0 & E0 & _). rewrite Em in Hpl.
  eapply running_follows; [done..|by apply running_start|done].
Qed.

(** When nothing is missing, the files have the content. *)
Lemma content_read content d w d' i :
  content_of content m → disk_metadata io = m → placeable io (files m) → reliable d →
  running_on (m := m) io d (w, d') → steady content w → todo (pm w) = 0 → 0 ≤ i < num_pieces m →
  read_piece io i d' = (Ok (content i), d').
Proof.
  intros Hco Em Hpl Hr Hrun Hsw Ht Hi.
  destruct (steady_complete content w Hsw Ht) as [_ Hd]. specialize (Hd i Hi).
  destruct (running_reads io d w d' Em Hpl Hr Hrun) as (_ & _ & Hread).
  destruct (saved_in (completed w) i) as (x & Hx & Hin); [by apply (list_elem_of_fmap_2 fst _ (i, content i))|].
  apply Hread; [done|]. destruct Hsw as ((_ & [_ _ _ _ _ Hc]) & _). by rewrite <- (Hc i x Hin).
Qed.
End Files.
End Download.

(** ** Properties *)

Section Properties.
Context `{C : CryptoSHA1} `{R : UniformRng} `{!UniformRngLaws R} {prm : Params} {MO : MapOrder}
  {m : TorrentMetadata} {PF : ParamsFor prm m} `{FS : FileSystem}.

(** C4: A download completes. Among cooperating peers (their answers carry the bytes of
    the torrent, and no send fails), after any events that brought [n] answers, in any
    order, from any peers and cut anywhere, among other messages, connections that
    succeed or fail, handshakes, bitfields, unchokes, chokes and departures: the next
    such event is handled; [n] is at most the number of blocks that were missing, and
    when it is that number, every piece is there and was handed over with its content. A
    further peer that has every piece can join, and is asked for blocks. And as long as
    such a peer lets us ask and, when blocks are given back or a bitfield is replaced,
    another one is asked for something, some answer is asked for until nothing is
    missing. *)
Theorem download_completes (content : Z → list byte) (upheld : Prop) (w : World) (es : list event)
    (n : Z) (w' : World) :
  content_of content m → zlen info_hash_ = 20 → zlen our_peer_id_ = 20 →
  steady (m := m) content w → served (m := m) content upheld w es n w' →
  0 ≤ n ≤ todo (pm w) ∧
  (∀ e k need, happens (m := m) content w' e k need → ∃ w2, run_event e w' = Ok (tt, w2)) ∧
  (n = todo (pm w) → complete_download (pm w') m ∧
     ∀ i, 0 ≤ i < num_pieces m → (i, content i) ∈ completed w') ∧
  (∀ s script, session_ok (m := m) s → admits w' s → Forall (λ x, x ≠ SendFails) script →
     ∃ w2, run_events (opening script s) w' = Ok (tt, w2) ∧ fed (m := m) w2) ∧
  (upheld → fed (m := m) w → n < todo (pm w) → ∃ e, happens (m := m) content w' e 1 True).
Proof.
  intros Hco Hih Hid Hsw Hs.
  destruct (served_steady content Hco upheld w es n w' Hih Hid Hsw Hs) as (Hsw' & Ht & Hn & Hf).
  pose proof (todo_nonneg (pm w')). split; [lia|split; [|split; [|split]]].
  - intros e k need Hb. destruct (happens_handled content Hco w' e k need Hih Hid Hsw' Hb) as (w2 & E & _).
    by exists w2.
  - intros ->. apply (steady_complete content w' Hsw'). lia.
  - intros s script Hok Had Hsc.
    destruct (joins content w' s script Hco Hsw' Hok Had Hsc Hih Hid) as (w2 & Hrun & Hf2).
    exists w2. split; [by eapply served_run|done].
  - intros Hup Hfd Hlt. destruct (swarm_next (m := m) content Hco w' (conj Hsw' (Hf Hup Hfd))) as [e He]; [lia|].
    exists e. by apply happens_answers.
Qed.

(** C3: From the first connection to the files. Start the program with the files of the
    torrent preallocated on reliable storage. After any events among cooperating peers,
    of which [n] were answers, [n] is at most the number of blocks of the torrent, the
    writes have succeeded, and if it is that number each piece reads back from the files
    with its content. Such runs exist: one in which a peer that has every piece joins
    first and then answers. *)
Theorem whole_download (content : Z → list byte) (io : DiskIOManager) (d : Disk) (seeded : Rng)
    (s : session) (script : list SendResult) :
  content_of content m → disk_metadata io = m → placeable io (files m) → reliable d →
  session_ok (m := m) s → Forall (λ x, x ≠ SendFails) script →
  0 < max_connections_ → 0 ≤ se_fd s → zlen info_hash_ = 20 → zlen our_peer_id_ = 20 →
  let blocks := zsum ((λ i, num_blocks (piece_len m i)) <$> seqZ 0 (num_pieces m)) in
  (∃ es w', served (m := m) content False (start m seeded) (opening script s ++ es) blocks w') ∧
  ∀ es n w', served (m := m) content False (start m seeded) es n w' →
    run_events es (start m seeded) = Ok (tt, w') ∧ 0 ≤ n ≤ blocks ∧
    ∃ d', running_on (m := m) io d (w', d') ∧
      (n = blocks → ∀ i, 0 ≤ i < num_pieces m → read_piece io i d' = (Ok (content i), d')).
Proof.
  intros Hco Em Hpl Hrel Hok Hscript Hmax Hfd Hih Hid blocks.
  destruct (start_steady content seeded) as [Hsw Ht]. fold blocks in Ht. split.
  - destruct (joins content (start m seeded) s script Hco Hsw Hok) as (w & Hs & Hf);
      [by constructor|done..|].
    destruct (served_steady content Hco _ _ _ _ _ Hih Hid Hsw Hs) as (Hsw' & Ht' & _).
    destruct (served_exists content w blocks Hco Hsw' Hf) as (es & w' & Hes); [lia|].
    exists es, w'. apply (served_app content False _ _ 0 w); [done|]. by apply (served_weaken content True).
  - intros es n w' Hs. pose proof (served_run _ _ _ _ _ _ Hs) as E.
    destruct (served_steady content Hco _ _ _ _ _ Hih Hid Hsw Hs) as (Hsw' & Ht' & Hn & _).
    pose proof (todo_nonneg (pm w')).
    split; [done|]. split; [lia|]. destruct (running_opened io d seeded _ w' Em Hpl Hrel E) as [d' Hrun].
    exists d'. split; [done|]. intros -> i Hi. apply (content_read io content d w' d'); try done. lia.
Qed.

(** C20: A stall. When the peer that every outstanding request went to chokes us or
    leaves, its blocks are given back: each is pending again, and [get_next_block] would
    hand out a block of its piece. But no other peer is asked for them: the download is
    not complete, no request is outstanding, and yet every other peer that had all pieces
    and let us ask still does. Nothing is asked until one of them sends something. *)
Theorem withdrawal_stalls (content : Z → list byte) (w : World) (q : Z) (st : PeerState) (e : event) :
  content_of content m → steady (m := m) content w → peers w !! q = Some st → outstanding st ≠ [] →
  (∀ p, p ≠ q → ¬ occupied w p) → withdraws w q e →
  ∃ w', run_event e w = Ok (tt, w') ∧ ¬ complete_download (pm w') m ∧
    (∀ r, r ∈ outstanding st → pending (pm w') r ∧
       ∃ b manager, get_next_block (pm w') (r_piece r) = Ok (Some b, manager)) ∧
    (∀ p, ¬ occupied w' p) ∧ ∀ s, s ≠ q → seeder (m := m) w s → seeder (m := m) w' s.
Proof.
  intros Hco (Hh & Hb) Hst Hout Hothers Hq.
  destruct (withdraws_returns content w q st e Hh Hb Hst Hq) as (w' & E & _ & _ & _ & _ & Ho & Em & Hno).
  destruct (given_back content w q st Hh Hst) as (Hw' & Emd & Eb & _). rewrite <- Em in Hw', Emd.
  exists w'. split; [done|]. split; [|split; [|split]].
  - rewrite <- Em in Eb.
    destruct (outstanding st) as [|r rs] eqn:Eo; [done|].
    destruct (proj1 (sound_accounted _ _ (proj2 Hh) r)) as [[Hi Hn] _].
    { exists q, st. rewrite Eo. split; [done|left]. }
    rewrite (proj2 (sound_pm _ _ (proj2 Hh))) in Hi. intros Hall. specialize (Hall _ Hi).
    unfold has_piece in *. rewrite Eb in Hall. congruence.
  - intros r Hr. assert (pending (pm w') r) as Hp by (rewrite Em; by apply (given_back_all (m := m) content w q)).
    split; [done|]. apply pending_next; [done|apply Hp|by apply pending_has].
  - intros p (sp & Hp & Hne). destruct (decide (p = q)) as [->|Hpq]; [apply Hno; by exists sp|].
    apply (Hothers p Hpq). pose proof (others_peers _ _ _ Ho p Hpq) as Er. rewrite Hp in Er.
    symmetry in Er. apply fmap_Some in Er as (sp0 & Hp0 & [_ E0]%requests_inv). exists sp0. by rewrite <- E0.
  - intros s Hne. by apply (others_seeder q).
Qed.
End Properties.

(** ** Witnesses *)

(** Two pieces of zeros, of 16 and 14 bytes. *)
Definition fair_metadata : TorrentMetadata :=
  mk_torrent (bs "n") (bs "u") [bs "u"] 16 30 2 [toy_digest (zeros 16); toy_digest (zeros 14)]
    [mk_file (bs "n") 30 0] [].
Definition fair_content (i : Z) : list byte := if i =? 0 then zeros 16 else zeros 14.

#[export] Instance fair_params_for : ParamsFor tiny_params fair_metadata.
Proof. constructor; [|done|done]. unfold wf_metadata. simpl. split_and!; vm_compute; done. Qed.

Lemma fair_content_of : content_of fair_content fair_metadata.
Proof.
  intros i Hi. simpl in Hi. assert (i = 0 ∨ i = 1) as [-> | ->] by lia; vm_compute; done.
Qed.

(** A peer at an address with a descriptor. *)
Definition fair_session (ip : list byte) (fd : Z) : session :=
  mk_session ip 6881 fd (mk_handshake (zeros 8) (replicate 20 x22) (replicate 20 x44)) [xc0]
    ([Received (ztake 30 their_handshake); RecvInterrupted; Received (zdrop 30 their_handshake)],
     [Received (wire (BitfieldMsg [xc0])); RecvWouldBlock], [Received (wire UnchokeMsg)]).

Lemma fair_session_ok ip fd : session_ok (m := fair_metadata) (fair_session ip fd).
Proof.
  constructor; try done. intros i Hi. simpl in Hi. assert (i = 0 ∨ i = 1) as [-> | ->] by lia; done.
Qed.

Definition first_session : session := fair_session (bs "1.2.3.4") 5.
Definition second_session : session := fair_session (bs "1.2.3.5") 6.
Definition script : list SendResult := replicate 12 (Sends 1000).

Definition one_peer : World := run_from (start fair_metadata 0) (opening script first_session).
Definition two_peers : World := run_from one_peer (opening script second_session).

Lemma script_willing : Forall (λ x, x ≠ SendFails) script.
Proof. by apply Forall_replicate. Qed.

Lemma same_run {A} (x : outcome (unit * A)) (a b : A) : x = Ok (tt, a) → x = Ok (tt, b) → b = a.
Proof. congruence. Qed.

Lemma one_peer_ok : run_events (opening script first_session) (start fair_metadata 0) = Ok (tt, one_peer).
Proof. vm_compute. reflexivity. Qed.

Lemma two_peers_ok : run_events (opening script second_session) one_peer = Ok (tt, two_peers).
Proof. vm_compute. reflexivity. Qed.

Lemma joined_swarm w s w' :
  swarm (m := fair_metadata) fair_content w ∨ w = start fair_metadata 0 →
  session_ok (m := fair_metadata) s → admits w s → run_events (opening script s) w = Ok (tt, w') →
  swarm (m := fair_metadata) fair_content w'.
Proof.
  intros Hw Hok Had E.
  assert (steady (m := fair_metadata) fair_content w) as Hsw.
  { destruct Hw as [[? _]| ->]; [done|]. apply (start_steady (R := counter_rng)). }
  destruct (joins fair_content w s script fair_content_of Hsw Hok Had script_willing eq_refl eq_refl)
    as (w2 & Hs & Hf). pose proof (served_run _ _ _ _ _ _ Hs) as E2. rewrite E in E2. injection E2 as <-.
  split; [|done].
  by destruct (served_steady (prm := tiny_params) fair_content fair_content_of _ _ _ _ _ eq_refl eq_refl Hsw Hs).
Qed.

Lemma one_peer_swarm : swarm (m := fair_metadata) fair_content one_peer.
Proof.
  eapply (joined_swarm _ first_session); [by right|apply fair_session_ok| |exact one_peer_ok].
  by constructor.
Qed.

Lemma two_peers_swarm : swarm (m := fair_metadata) fair_content two_peers.
Proof.
  apply (joined_swarm one_peer second_session);
    [left; exact one_peer_swarm|apply fair_session_ok| |exact two_peers_ok].
  constructor; [split; [vm_compute; done|split; vm_compute; done]|]. split; [done|vm_compute; done].
Qed.

Definition ask (i len : Z) : RequestedBlock := mk_request i 0 len.

(** Both answers in one event, the second piece first, among other messages. *)
Definition answers : list item :=
  [Chatter KeepAliveMsg; Answer (ask 1 14); Chatter (HaveMsg 0); Answer (ask 0 16)].
Definition answers_read : list RecvResult :=
  let bytes := stream fair_content answers in
  [Received (ztake 7 bytes); RecvInterrupted; Received (zdrop 7 bytes)].
Definition answers_event : event :=
  Events 5 EPOLLIN false answers_read.
(** The second peer leaves, and the first answers. *)
Definition hangup : event := Events 6 EPOLLHUP false [].
Definition one_left : World := run_from two_peers [hangup].
Definition all_served : World := run_from one_left [answers_event].

Definition second_peer : Z := default 0 (fd_callbacks (fds two_peers) !! 6).
Definition peer_at (p : Z) (w : World) : PeerState :=
  default (mk_peer (Bitfield.make 0) [] None) (peers w !! p).
Definition conn_at (p : Z) (w : World) : Conn := default (new_conn [] 0) (conns w !! p).
Abbreviation the_peer := (peer_at peer1).
Abbreviation the_conn := (conn_at peer1).

Lemma hangup_ok : run_event hangup two_peers = Ok (tt, one_left).
Proof. vm_compute. reflexivity. Qed.

Lemma answers_ok : run_event answers_event one_left = Ok (tt, all_served).
Proof. vm_compute. reflexivity. Qed.

Lemma first_asked (r : RequestedBlock) :
  r ∈ [ask 1 14; ask 0 16] → r ∈ outstanding (the_peer one_left).
Proof.
  assert (outstanding (the_peer one_left) = [ask 0 16; ask 1 14]) as -> by (vm_compute; reflexivity).
  rewrite !elem_of_cons. naive_solver.
Qed.

Lemma hangup_happens :
  happens (m := fair_metadata) fair_content two_peers hangup 0 (covered (m := fair_metadata) two_peers second_peer).
Proof.
  apply (happens_withdraws fair_content two_peers second_peer).
  - eexists. vm_compute. reflexivity.
  - replace hangup with (Events (c_fd (conn_at second_peer two_peers)) EPOLLHUP false [])
      by (vm_compute; reflexivity).
    apply withdraws_leaves, (leaves_hangup two_peers second_peer (conn_at second_peer two_peers));
      [vm_compute; reflexivity|left; reflexivity].
Qed.

Lemma second_covered : covered (m := fair_metadata) two_peers second_peer.
Proof.
  assert (peers two_peers !! peer1 = Some (the_peer two_peers)) as Hst by (vm_compute; reflexivity).
  assert (outstanding (the_peer two_peers) ≠ []) as Hout.
  { assert (outstanding (the_peer two_peers) = [ask 0 16; ask 1 14]) as -> by (vm_compute; reflexivity).
    discriminate. }
  exists peer1. split; [vm_compute; discriminate|]. split; [|split].
  - exists (the_peer two_peers), (the_conn two_peers). split; [exact Hst|].
    split; [vm_compute; reflexivity|]. split; [vm_compute; reflexivity|].
    intros i Hi. simpl in Hi. assert (i = 0 ∨ i = 1) as [-> | ->] by lia; vm_compute; reflexivity.
  - right. exists (the_peer two_peers). split; [exact Hst|exact Hout].
  - left. exists (the_peer two_peers). split; [exact Hst|exact Hout].
Qed.

Lemma answers_happen : happens (m := fair_metadata) fair_content one_left answers_event 2 True.
Proof.
  apply happens_answers. unfold answers_event.
  replace 5 with (c_fd (the_conn one_left)) by (vm_compute; reflexivity).
  change 2 with (zlen (answered answers)).
  apply (brings_items fair_content one_left peer1 (the_peer one_left) (the_conn one_left)
    answers [] EPOLLIN false answers_read).
  1-6: vm_compute; reflexivity.
  - split_and!; [|apply first_asked|].
    + apply NoDup_cons_2; [|apply NoDup_singleton]. by intros H%list_elem_of_singleton.
    + unfold answers. intros msg. rewrite !elem_of_cons. by intros [[= ->]|[[=]|[[= ->]|[[=]|[]%not_elem_of_nil]]]].
  - by left.
  - vm_compute. reflexivity.
Qed.

Lemma download_completes_witness :
  swarm (m := fair_metadata) fair_content two_peers ∧
  served (m := fair_metadata) fair_content True two_peers [hangup; answers_event] 2 all_served ∧
  (∃ e, happens (m := fair_metadata) fair_content one_left e 1 True) ∧
  complete_download (pm all_served) fair_metadata ∧ (1, zeros 14) ∈ completed all_served.
Proof.
  assert (served (m := fair_metadata) fair_content True two_peers [hangup; answers_event] (0 + (2 + 0)) all_served) as Hs.
  { eapply served_more; [exact hangup_happens|intros _; exact second_covered|exact hangup_ok|].
    eapply served_more; [exact answers_happen|intros _; exact I|exact answers_ok|apply served_none]. }
  assert (served (m := fair_metadata) fair_content True two_peers [hangup] (0 + 0) one_left) as Hs1.
  { eapply served_more; [exact hangup_happens|intros _; exact second_covered|exact hangup_ok|apply served_none]. }
  destruct two_peers_swarm as [Hsw Hf].
  destruct (download_completes (prm := tiny_params) fair_content True two_peers _ (0 + (2 + 0)) all_served
    fair_content_of eq_refl eq_refl Hsw Hs) as (_ & _ & H & _).
  destruct (download_completes (prm := tiny_params) fair_content True two_peers _ (0 + 0) one_left
    fair_content_of eq_refl eq_refl Hsw Hs1) as (_ & _ & _ & _ & H1).
  destruct H as [Hc Hd]; [vm_compute; reflexivity|]. split; [exact two_peers_swarm|]. split; [exact Hs|].
  split; [apply H1; [exact I|exact Hf|vm_compute; reflexivity]|].
  split; [exact Hc|]. exact (Hd 1 ltac:(split; done)).
Defined.

Definition fair_io : DiskIOManager := mk_disk_io (bs "out") fair_metadata.

Lemma fair_placeable : @placeable one_file fair_io (files fair_metadata).
Proof.
  split; [apply (bool_decide_unpack _); vm_compute; exact I|].
  repeat (constructor; [split; [eexists; reflexivity|split; vm_compute; done]|]). constructor.
Qed.

Lemma whole_download_witness :
  ∃ es w' d', served (m := fair_metadata) fair_content False (start fair_metadata 0)
      (opening script first_session ++ es) 2 w' ∧
    @read_piece one_file fair_io 1 d' = (Ok (fair_content 1), d').
Proof.
  destruct (whole_download (R := counter_rng) (FS := one_file) fair_content fair_io empty_disk 0
    first_session script fair_content_of eq_refl fair_placeable (Forall_nil_2 _) (fair_session_ok _ _)
    script_willing eq_refl ltac:(done) eq_refl eq_refl) as ((es & w' & Hs) & H).
  destruct (H _ _ _ Hs) as (_ & _ & d' & _ & Hr). exists es, w', d'. split; [exact Hs|].
  apply (Hr eq_refl). split; [discriminate|reflexivity].
Defined.

Lemma withdrawal_stalls_witness :
  ∃ w', run_event (Events 5 EPOLLIN false [Received (wire ChokeMsg)]) two_peers = Ok (tt, w') ∧
    ¬ complete_download (pm w') fair_metadata ∧ pending (pm w') (ask 1 14) ∧ (∀ p, ¬ occupied w' p).
Proof.
  assert (peers two_peers !! peer1 = Some (the_peer two_peers)) as Hst by (vm_compute; reflexivity).
  assert (outstanding (the_peer two_peers) = [ask 0 16; ask 1 14]) as Easked by (vm_compute; reflexivity).
  assert (outstanding (the_peer two_peers) ≠ []) as Hout by (rewrite Easked; discriminate).
  assert (map_Forall (λ p sp, p ≠ peer1 → outstanding sp = []) (peers two_peers)) as Hno
    by (apply (bool_decide_unpack _); vm_compute; exact I).
  assert (∀ p, p ≠ peer1 → ¬ occupied two_peers p) as Hothers.
  { intros p Hne (sp & Hp & Ho). apply Ho, (Hno p sp Hp Hne). }
  assert (withdraws two_peers peer1 (Events 5 EPOLLIN false [Received (wire ChokeMsg)])) as Hq.
  { apply withdraws_chokes; [|reflexivity]. split; [by eexists|]. exists (the_conn two_peers).
    split; [vm_compute; reflexivity|split; vm_compute; reflexivity]. }
  destruct (withdrawal_stalls fair_content two_peers peer1 _ _ fair_content_of (proj1 two_peers_swarm) Hst Hout Hothers Hq)
    as (w' & E & Hn & Hback & Ho & _).
  exists w'. split; [exact E|]. split; [exact Hn|]. split; [|exact Ho].
  apply (Hback (ask 1 14)). rewrite Easked. right. left.
Defined.
