(* ===== verification/Completion.v ===== *)
(** * A run of the program that downloads the torrent

    The whole program, from its arguments to its return: [main] starts, its loop fires
    the timers and delivers what cooperating peers send, and when every block has come
    the progress timer finds the pieces valid on disk and stops the loop. The clock is
    read at least eleven times a second in the long run, so that the timers of [main]
    do not keep a timer phase from ending. *)

From S2P Require Import Prelude StdString Bencode Bitfield Hasher Torrent Tracker TrackerUdp.
From S2P Require Import Config Logger PieceManager Disk PiecePicker PeerMessage Socket EventLoop Timers.
From S2P Require Import World PeerConnection Coordinator System Handlers Steps Sample Persist Main.
From S2P Require Import Run Termination Safe Progress Swarm Failures Liveness Connecting Joining.
From S2P Require Import Churn Download.

(** The clock: monotone, and slow enough that callbacks which take their time do not
    pile up: between [n] readings at most 90 ms each pass, and a second. *)
Record timely (clock : Z → Z) : Prop := {
  clock_mono : ∀ i j, i ≤ j → clock i ≤ clock j;
  clock_rate : ∀ i n, 0 ≤ n → clock (i + n) ≤ clock i + n * 90000000 + 1000000000;
}.

(** What a poll delivers, as events. *)
Definition wait_evs (w : bool * Wait (X := bool * list RecvResult)) :=
  match w.2 with WaitEvents evs => evs | _ => [] end.
Definition wait_events (w : bool * Wait (X := bool * list RecvResult)) : list event :=
  (λ '(fd, ev, x), Events fd ev x.1 x.2) <$> wait_evs w.

(** No signal is caught meanwhile, and the poll does not fail. *)
Definition polled (w : bool * Wait (X := bool * list RecvResult)) : Prop :=
  w.1 = false ∧ w.2 ≠ WaitFailed.

Section Completion.
Context `{C : CryptoSHA1} `{R : UniformRng} `{!UniformRngLaws R} {MO : MapOrder} `{FS : FileSystem}
  `{TQ : TimerQueue MainTimer}.
Variable content : Z → list byte.

Abbreviation MainLoop := (Loop (CB := MainTimer) (W := MainState)).

(** ** The loop *)

Section Loop.
Context (cfg : AppConfig) (c : TrackerClient) (io : DiskIOManager) (d : Disk).
Abbreviation m := (torrent_ c).
#[local] Instance prm : Params := main_params cfg m (peer_id_ c).
Context {PF : ParamsFor prm m}.
Hypothesis content_ok : content_of content m.
Hypothesis io_metadata : disk_metadata io = m.
Hypothesis io_placeable : placeable io (files m).
Hypothesis disk_reliable : reliable d.
Hypothesis ids : zlen (info_hash m) = 20 ∧ zlen (peer_id_ c) = 20.
Hypothesis some_pieces : num_pieces m ≠ 0.
Variable curl : list byte → CurlResult.
Variable udp : nat → UdpEnv.
Variable clock : Z → Z.
Hypothesis clock_ok : timely clock.
Hypothesis announced : defined (announce curl udp c 6881 (total_length m) 0 0 (Some (bs "completed")) []).2.

Abbreviation on_timer := (fire curl udp clock).
Abbreviation steady := (Liveness.steady (prm := prm) (m := m) content).
Abbreviation complete := (λ w, complete_download (pm w) m).

(** The objects of [main], with the world [w] and the disk [d1] of a run. *)
Record at_state (w : World) (d1 : Disk) (v : option bool) (st : MainState) : Prop := {
  at_config : ms_config st = cfg;
  at_tracker : ms_tracker st = c;
  at_io : ms_io st = io;
  at_world : ms_world st = w;
  at_disk : ms_disk st = d1;
  at_flag : g_shutdown_requested st = false;
  at_validated : validated st = v;
}.

(** The loop runs, with the timers of [main], the first due at [a], the other at [b]. *)
Record ticking (a b : Z) (l : MainLoop) : Prop := {
  tk_running : running l = true;
  tk_cancelled : cancelled_timers l = ∅;
  tk_timers : ∃ i j, elems_of l ≡ₚ [mk_timer i a CheckShutdown; mk_timer j b RenderProgress];
}.

(** Taking the next timer off leaves the other. *)
Lemma ticking_top a b l :
  ticking a b l →
  ∃ t, top (timers l) = Some t ∧ (t_id t ∉ cancelled_timers l) ∧
    ((callback t = CheckShutdown ∧ deadline t = a ∧ a ≤ b ∧
      ∃ j, elems (pop (timers l)) ≡ₚ [mk_timer j b RenderProgress]) ∨
     (callback t = RenderProgress ∧ deadline t = b ∧ b ≤ a ∧
      ∃ i, elems (pop (timers l)) ≡ₚ [mk_timer i a CheckShutdown])).
Proof.
  intros [_ Ec (i & j & Ht)]. unfold elems_of in Ht.
  destruct (top (timers l)) as [t|] eqn:Et.
  2:{ apply top_none in Et. rewrite Et in Ht. by apply Permutation_nil_cons in Ht. }
  exists t. split; [done|]. split; [rewrite Ec; apply not_elem_of_empty|].
  pose proof (top_pop _ _ Et) as Hp. rewrite Hp in Ht.
  assert (∀ u, u ∈ [mk_timer i a CheckShutdown; mk_timer j b RenderProgress] → deadline t ≤ deadline u) as Hle.
  { intros u Hu. apply (top_least _ _ _ Et). by rewrite Hp, Ht. }
  pose proof (Hle _ (list_elem_of_here _ _)) as Ha. pose proof (Hle _ (list_elem_of_further _ _ _ (list_elem_of_here _ _))) as Hb.
  simpl in Ha, Hb.
  assert (t ∈ [mk_timer i a CheckShutdown; mk_timer j b RenderProgress]) as Hin.
  { rewrite <- Ht. left. }
  apply elem_of_cons in Hin as [->|Hin%list_elem_of_singleton]; [|subst t].
  - left. simpl in *. split_and!; try done. exists j. by apply Permutation_cons_inv in Ht.
  - right. simpl in *. split_and!; try done. exists i.
    rewrite (Permutation_swap (mk_timer j b RenderProgress)) in Ht. by apply Permutation_cons_inv in Ht.
Qed.

Lemma complete_dec w : reachable (prm := prm) (m := m) w → complete w ∨ ¬ complete w.
Proof.
  intros Hw. destruct (reachable_inv _ Hw) as ((Hwf & Em & _) & _).
  rewrite <- (count_complete _ m Hwf Em).
  destruct (Z.eqb_spec (Bitfield.count (bitfield (pm w))) (num_pieces m)); auto.
Qed.

Lemma at_state_ok w d1 v st :
  at_state w d1 v st → running_on (prm := prm) (m := m) io d (w, d1) →
  main_state_ok (prm := prm) m d st.
Proof. intros [_ Et Ei Ew Ed _ _] Hrun. unfold main_state_ok. by rewrite Et, Ei, Ew, Ed. Qed.

(** In a phase that began with the reading [r0], the first timer has fired [p] times and
    the other [q] times. Each firing reads the clock twice. *)
Record paced (r0 p q now a b : Z) (l : MainLoop) : Prop := {
  pc_pos : 0 ≤ p ∧ 0 ≤ q;
  pc_reads : reads l = r0 + 1 + 2 * (p + q);
  pc_now : now = clock (r0 + 2 * (p + q));
  pc_a : p = 0 ∨ clock r0 + 250000000 * p ≤ a;
  pc_b : q = 0 ∨ clock r0 + 1000000000 * q ≤ b;
  pc_p : 250000000 * (p - 1) ≤ 180000000 * (p + q) + 1000000000;
  pc_q : 1000000000 * (q - 1) ≤ 180000000 * (p + q) + 1000000000;
  pc_due : a ≤ clock (reads l) + 250000000 ∧ b ≤ clock (reads l) + 1000000000;
}.

Lemma paced_now r0 p q now a b l :
  paced r0 p q now a b l → clock r0 ≤ now ≤ clock r0 + 180000000 * (p + q) + 1000000000.
Proof.
  intros [[? ?] _ -> _ _ _ _ _]. pose proof (clock_mono _ clock_ok r0 (r0 + 2 * (p + q))).
  pose proof (clock_rate _ clock_ok r0 (2 * (p + q))). lia.
Qed.

(** Firing the first, firing the other. *)
Lemma paced_check r0 p q now a b l l' :
  paced r0 p q now a b l → a ≤ now → reads l' = reads l + 2 →
  paced r0 (p + 1) q (clock (reads l + 1)) (clock (reads l) + 250000000) b l'.
Proof.
  intros Hp Ha Er. pose proof (paced_now _ _ _ _ _ _ _ Hp) as Hnow.
  destruct Hp as [[? ?] Hr -> Hpa Hpb Hpp Hpq [Hda Hdb]].
  pose proof (clock_mono _ clock_ok (r0 + 2 * (p + q)) (reads l) ltac:(lia)).
  pose proof (clock_mono _ clock_ok (reads l) (reads l') ltac:(lia)).
  constructor; try lia. f_equal. lia.
Qed.

Lemma paced_render r0 p q now a b l l' :
  paced r0 p q now a b l → b ≤ now → reads l' = reads l + 2 →
  paced r0 p (q + 1) (clock (reads l + 1)) a (clock (reads l) + 1000000000) l'.
Proof.
  intros Hp Ha Er. pose proof (paced_now _ _ _ _ _ _ _ Hp) as Hnow.
  destruct Hp as [[? ?] Hr -> Hpa Hpb Hpp Hpq [Hda Hdb]].
  pose proof (clock_mono _ clock_ok (r0 + 2 * (p + q)) (reads l) ltac:(lia)).
  pose proof (clock_mono _ clock_ok (reads l) (reads l') ltac:(lia)).
  constructor; try lia. f_equal. lia.
Qed.

(** So a phase has at most 70 firings. *)
Lemma paced_bound r0 p q now a b l : paced r0 p q now a b l → p + q ≤ 70.
Proof. intros []. lia. Qed.

(** What a phase leaves: the loop goes on, and the progress timer was not due; or all
    pieces are there and were found valid, and it stops. *)
Definition phase_left (w : World) (d1 : Disk) (r0 b now' : Z) (l' : MainLoop) : Prop :=
  (∃ a' b', ticking a' b' l' ∧ at_state w d1 None (rest l') ∧ clock r0 ≤ now' < b' ∧
     a' ≤ clock (reads l') + 250000000 ∧ b' ≤ clock (reads l') + 1000000000 ∧
     (complete w → b' = b)) ∨
  (running l' = false ∧ complete w ∧ at_state w d1 (Some true) (rest l')).

Lemma phase_runs f r0 p q now a b l log w d1 :
  ticking a b l → at_state w d1 None (rest l) → running_on (prm := prm) (m := m) io d (w, d1) →
  paced r0 p q now a b l → 80 ≤ Z.of_nat f + p + q →
  ∃ timeout now' l' log', timer_phase clock on_timer f now l log = Ok (timeout, now', l', log') ∧
    reads l ≤ reads l' ∧ phase_left w d1 r0 b now' l'.
Proof.
  intros Htk Hst Hrun Hpc Hf. destruct (running_saved _ _ _ Hrun) as [Hw _]. simpl in Hw.
  revert p q now a b l log Htk Hst Hpc Hf. induction f as [|f IH]; intros p q now a b l log Htk Hst Hpc Hf;
    pose proof (paced_bound _ _ _ _ _ _ _ Hpc) as Hn; [lia|].
  pose proof (paced_now _ _ _ _ _ _ _ Hpc) as Hnow. pose proof (pc_due _ _ _ _ _ _ _ Hpc) as [Hda Hdb].
  cbn [timer_phase]. rewrite (tk_running _ _ _ Htk).
  destruct (ticking_top a b l Htk) as (t & Et & Hnc & Hcase). rewrite Et, bool_decide_eq_false_2 by done.
  destruct (Z.leb_spec (deadline t) now) as [Hd|Hd].
  2:{ do 4 eexists. split; [reflexivity|]. split; [done|]. left. exists a, b.
      destruct Hcase as [(_ & E & ? & _)|(_ & E & _)]; split_and!; try done; lia. }
  destruct Hcase as [(Ecb & Ed & Hle & j & Hpop)|(Ecb & Ed & Hle & i & Hpop)]; rewrite Ecb; cbn [fire].
  - unfold check_shutdown. cbn [rest Timers.set_timers]. rewrite (at_flag _ _ _ _ Hst).
    cbn [mbind outcome_bind]. cbv zeta. match goal with |- context [now_ clock ?x] => set (l2 := (now_ clock x).2) end.
    destruct (IH (p + 1) q (clock (reads l + 1)) (clock (reads l) + 250000000) b l2 (log ++ [Fired t now]))
      as (to & now' & l' & log' & E & Hr & Hleft); [| |by apply (paced_check _ _ _ now a _ l); [|lia|simpl; lia]|lia|].
    + constructor; [apply Htk|apply Htk|]. exists (next_timer_id l), j. unfold elems_of. simpl.
      by rewrite elems_push, Hpop.
    + exact Hst.
    + exists to, now', l', log'. split; [exact E|]. split; [simpl in Hr; lia|]. exact Hleft.
  - pose proof (at_state_ok _ _ _ _ Hst Hrun) as Hok. set (l1 := Timers.set_timers _ _ l).
    destruct (complete_dec w Hw) as [Hall|Hnot].
    + destruct (render_complete (prm := prm) m curl udp clock d l1 Hok) as (eta & n & ->);
        [by cbn [rest l1 Timers.set_timers]; rewrite (at_tracker _ _ _ _ Hst)|done| |].
      { cbn [rest l1 Timers.set_timers]. by rewrite (at_world _ _ _ _ Hst). }
      cbn [mbind outcome_bind]. cbv zeta. destruct f as [|f']; [lia|]. cbn [timer_phase running now_ snd].
      do 4 eexists. split; [reflexivity|]. split; [simpl; lia|]. right. split; [done|]. split; [done|].
      destruct Hst. by constructor.
    + destruct (render_incomplete (prm := prm) m curl udp clock d l1 Hok) as (eta & n & ->).
      { cbn [rest l1 Timers.set_timers]. by rewrite (at_world _ _ _ _ Hst). }
      cbn [mbind outcome_bind]. cbv zeta. match goal with |- context [now_ clock ?x] => set (l2 := (now_ clock x).2) end.
      destruct (IH p (q + 1) (clock (reads l + 1)) a (clock (reads l) + 1000000000) l2 (log ++ [Fired t now]))
        as (to & now' & l' & log' & E & Hr & Hleft); [| |by apply (paced_render _ _ _ now _ b l); [|lia|simpl; lia]|lia|].
      * constructor; [apply Htk|apply Htk|]. exists i, (next_timer_id l). unfold elems_of. simpl.
        rewrite elems_push, Hpop. apply perm_swap.
      * destruct Hst. by constructor.
      * exists to, now', l', log'. split; [exact E|]. split; [simpl in Hr; lia|].
        destruct Hleft as [(a' & b' & ? & ? & ? & ? & ? & _)|?]; [|by right].
        left. exists a', b'. do 5 (split; [done|]). by intros ?%Hnot.
Qed.

(** ** A turn of the loop *)

Abbreviation served := (Churn.served (prm := prm) (m := m) content False).
Abbreviation on_run := (running_on (prm := prm) (m := m) io d).
Abbreviation loop fuel waits l := (run_loop clock on_timer main_fds fire_fd handle_sigint fuel waits l).

Lemma turn_runs fuel a b l w d1 :
  ticking a b l → at_state w d1 None (rest l) → on_run (w, d1) →
  a ≤ clock (reads l) + 250000000 → b ≤ clock (reads l) + 1000000000 → (80 ≤ fuel)%nat →
  ∃ now' l1, reads l < reads l1 ∧ phase_left w d1 (reads l) b now' l1 ∧
    (running l1 = false → ∀ waits, loop fuel waits l = Ok (Some l1)) ∧
    (running l1 = true → ∀ x waits, polled x →
       loop fuel (x :: waits) l = (l2 ← dispatch main_fds fire_fd (wait_evs x) l1; loop fuel waits l2)).
Proof.
  intros Htk Hst Hrun Ha Hb Hf.
  pose proof (clock_mono _ clock_ok (reads l) (reads l + 1) ltac:(lia)).
  destruct (phase_runs fuel (reads l) 0 0 (clock (reads l)) a b (now_ clock l).2 [] w d1)
    as (to & now' & l1 & log & E & Hr & Hleft); [|exact Hst|done| |lia|].
  { destruct Htk as [? ? ?]. by constructor. }
  { constructor; simpl; auto; try lia. f_equal. lia. }
  exists now', l1. split; [simpl in Hr; lia|]. split; [done|].
  assert (∀ waits, loop fuel waits l =
    if negb (running l1) then Ok (Some l1)
    else match waits with
         | [] => Ok None
         | (signal, x) :: waits =>
             let l := if (signal : bool) then set_rest (handle_sigint (rest l1)) l1 else l1 in
             match x with
             | WaitFailed => Ok (Some l)
             | WaitInterrupted => loop fuel waits l
             | WaitEvents evs => l ← dispatch main_fds fire_fd evs l; loop fuel waits l
             end
         end) as Eturn.
  { intros waits. destruct waits as [|[signal x] waits]; cbn [run_loop]; rewrite (tk_running _ _ _ Htk);
      unfold now_ at 1; cbv beta iota zeta; unfold now_ in E; simpl snd in E; rewrite E; done. }
  split; [intros Er waits; rewrite Eturn, Er; done|].
  intros Er [signal x] waits [Esig Hx]. simpl in Esig, Hx. subst signal. rewrite Eturn, Er. cbn [negb].
  by destruct x.
Qed.

(** ** Delivering *)

Lemma dispatch_runs evs n w d1 w' l :
  at_state w d1 None (rest l) → on_run (w, d1) →
  served w ((λ '(fd, ev, x), Events fd ev x.1 x.2) <$> evs) n w' →
  ∃ d2 st, dispatch main_fds fire_fd evs l = Ok (set_rest st l) ∧ on_run (w', d2) ∧
    at_state w' d2 None st.
Proof.
  revert n w d1 l. induction evs as [|[[fd ev] x] evs IH]; intros n w d1 l Hst Hrun Hs; cbn [dispatch].
  { inversion Hs; subst. exists d1, (rest l). split; [by destruct l|done]. }
  rewrite fmap_cons in Hs. inversion Hs as [|w0 e k need w1 es k2 w2 Hh _ Ev Hs2]; subst. clear Hs.
  destruct (main_event_runs io d w d1 _ w1 io_metadata io_placeable disk_reliable Hrun Ev) as [d2 E2].
  pose proof (running_event io d _ _ _ Hrun E2) as Hrun2.
  assert (main_fds (rest l) = fds w) as Efds by (unfold main_fds; by rewrite (at_world _ _ _ _ Hst)).
  rewrite Efds. destruct (fd_callbacks (fds w) !! fd) as [p|] eqn:Ecb.
  - set (st1 := mk_main (ms_config (rest l)) (ms_tracker (rest l)) (ms_io (rest l)) w1 d2
      (last_bytes (rest l)) (g_shutdown_requested (rest l)) (validated (rest l))).
    assert (fire_fd p fd ev x l = Ok (set_rest st1 l)) as ->.
    { unfold st1, fire_fd, meta. destruct Hst as [-> -> -> -> -> _ _].
      change (main_params cfg m (peer_id_ c)) with prm. by rewrite E2. }
    cbn [mbind outcome_bind].
    destruct (IH k2 w1 d2 (set_rest st1 l)) as (d3 & st & E & Hrun3 & Hst3); [|done|done|].
    { destruct Hst. by constructor. }
    exists d3, st. split; [exact E|done].
  - assert (w1 = w) as ->.
    { revert Ev. cbn [run_event]. unfold gets. unfold mbind at 1, M_bind at 1. rewrite Ecb. by intros [= <-]. }
    cbn [mbind outcome_bind]. by apply (IH k2 w d1 l).
Qed.

(** ** To the end *)

(** The loop has stopped, on a complete download that was found valid on disk. *)
Definition ended (l : MainLoop) : Prop :=
  running l = false ∧ ∃ w d1, at_state w d1 (Some true) (rest l) ∧ on_run (w, d1) ∧ steady w ∧ complete w.

Lemma ticking_rest a b st l : ticking a b l → ticking a b (set_rest st l).
Proof. intros [? ? ?]. by constructor. Qed.

(** With all pieces there, some turns without events are enough. *)
Lemma idle_ends idle fuel a b l w d1 :
  ticking a b l → at_state w d1 None (rest l) → on_run (w, d1) → steady w → complete w →
  a ≤ clock (reads l) + 250000000 → b ≤ clock (reads l) + 1000000000 → (80 ≤ fuel)%nat →
  b ≤ clock (reads l + zlen idle) → Forall polled idle → concat (wait_events <$> idle) = [] →
  ∃ l', loop fuel idle l = Ok (Some l') ∧ ended l'.
Proof.
  intros Htk Hst Hrun Hsw Hall. revert a b l Htk Hst. induction idle as [|x idle IH];
    intros a b l Htk Hst Ha Hb Hf Hdue Hp Hno;
    (destruct (turn_runs fuel a b l w d1 Htk Hst Hrun Ha Hb Hf) as (now' & l1 & Hr & Hleft & Hstop & Hgo));
    destruct Hleft as [(a' & b' & Htk' & Hst' & Hnow & Ha' & Hb' & Eb)|(Er & _ & Hst')];
    try (exists l1; split; [by apply Hstop|]; split; [done|]; by exists w, d1).
  - change (zlen []) with 0 in Hdue. rewrite Z.add_0_r in Hdue. rewrite (Eb Hall) in Hnow. lia.
  - apply Forall_cons in Hp as [Hx Hp]. cbn [fmap list_fmap concat] in Hno. apply app_eq_nil in Hno as [Hx0 Hno].
    apply fmap_nil_inv in Hx0. rewrite (Hgo (tk_running _ _ _ Htk') x idle Hx), Hx0. cbn [dispatch mbind outcome_bind].
    apply (IH a' b'); try done. rewrite (Eb Hall).
    etrans; [exact Hdue|]. apply clock_mono; [done|]. rewrite zlen_cons. lia.
Qed.

Lemma served_split w es fs n w2 :
  served w (es ++ fs) n w2 → ∃ k w1 j, served w es k w1 ∧ served w1 fs j w2 ∧ n = k + j.
Proof.
  revert w n. induction es as [|e es IH]; intros w n H; [exists 0, w, n; split_and!; [constructor|done|lia]|].
  cbn [app] in H. inversion H as [|w0 e0 k need w1 es0 j w3 Hh Hup Ev Hs]; subst.
  destruct (IH _ _ Hs) as (k1 & w4 & j1 & H1 & H2 & ->). exists (k + k1), w4, j1.
  split_and!; [by eapply served_more|done|lia].
Qed.

Lemma steady_todo w : steady w → todo (pm w) = 0 ↔ complete w.
Proof. intros [[_ [[Hw Em] _ _ Ha _ _]] _]. rewrite <- Em. by apply (todo_zero content). Qed.

(** Deliver, in any number of turns, all answers. *)
Lemma loop_ends ps idle fuel a b l w d1 w' :
  ticking a b l → at_state w d1 None (rest l) → on_run (w, d1) → steady w →
  a ≤ clock (reads l) + 250000000 → b ≤ clock (reads l) + 1000000000 → (80 ≤ fuel)%nat →
  served w (concat (wait_events <$> ps)) (todo (pm w)) w' →
  Forall polled (ps ++ idle) → concat (wait_events <$> idle) = [] →
  (∀ i, clock i + 1000000000 ≤ clock (i + zlen idle)) →
  ∃ l', loop fuel (ps ++ idle) l = Ok (Some l') ∧ ended l'.
Proof.
  revert a b l w d1. induction ps as [|x ps IH]; intros a b l w d1 Htk Hst Hrun Hsw Ha Hb Hf Hs Hp Hno Hidle.
  - apply (idle_ends idle fuel a b l w d1); try done.
    + apply steady_todo; [done|]. inversion Hs; subst; done.
    + etrans; [exact Hb|]. apply Hidle.
  - cbn [app] in Hp |- *. apply Forall_cons in Hp as [Hx Hp]. cbn [fmap list_fmap concat] in Hs.
    destruct (served_split _ _ _ _ _ Hs) as (k & w1 & j & Hs1 & Hs2 & Et).
    destruct (turn_runs fuel a b l w d1 Htk Hst Hrun Ha Hb Hf) as (now' & l1 & Hr & Hleft & Hstop & Hgo).
    destruct Hleft as [(a' & b' & Htk' & Hst' & Hnow & Ha' & Hb' & _)|(Er & Hall & Hst')].
    2:{ exists l1. split; [by apply Hstop|]. split; [done|]. by exists w, d1. }
    destruct (dispatch_runs _ _ _ _ _ l1 Hst' Hrun Hs1) as (d2 & st & E & Hrun1 & Hst1).
    rewrite (Hgo (tk_running _ _ _ Htk') x _ Hx), E. cbn [mbind outcome_bind].
    destruct (served_steady (prm := prm) content content_ok _ _ _ _ _ (proj1 ids) (proj2 ids) Hsw Hs1) as (Hsw1 & Et1 & _).
    apply (IH a' b' _ w1 d2); try done; [by apply ticking_rest|]. replace (todo (pm w1)) with j by lia. done.
Qed.

(** The run of [main]'s loop. *)
Lemma main_loop_ticking st :
  ∃ a b, ticking a b (set_running true (main_loop clock st)) ∧
    a ≤ clock (reads (main_loop clock st)) + 250000000 ∧
    b ≤ clock (reads (main_loop clock st)) + 1000000000.
Proof.
  exists (clock 0 + 250 * 1000000), (clock 1 + 1000 * 1000000).
  pose proof (clock_mono _ clock_ok 0 2 ltac:(lia)). pose proof (clock_mono _ clock_ok 1 2 ltac:(lia)).
  change (reads (main_loop clock st)) with 2. split; [|lia]. constructor; [done|done|]. exists 1, 2. unfold elems_of. simpl.
  rewrite !elems_push, elems_empty. apply perm_swap.
Qed.

Lemma run_ends ps idle fuel st w d1 w' :
  at_state w d1 None st → on_run (w, d1) → steady w → (80 ≤ fuel)%nat →
  served w (concat (wait_events <$> ps)) (todo (pm w)) w' →
  Forall polled (ps ++ idle) → concat (wait_events <$> idle) = [] →
  (∀ i, clock i + 1000000000 ≤ clock (i + zlen idle)) →
  ∃ l, run clock on_timer main_fds fire_fd handle_sigint fuel (ps ++ idle) (main_loop clock st) = Ok (Some l) ∧
    validated (rest l) = Some true ∧ g_shutdown_requested (rest l) = false ∧
    ∀ i, 0 ≤ i < num_pieces m → read_piece io i (ms_disk (rest l)) = (Ok (content i), ms_disk (rest l)).
Proof.
  intros Hst Hrun Hsw Hf Hs Hp Hno Hidle. destruct (main_loop_ticking st) as (a & b & Htk & Ha & Hb).
  destruct (loop_ends ps idle fuel a b (set_running true (main_loop clock st)) w d1 w')
    as (l & E & _ & wf & df & Hstf & Hrunf & Hswf & Hall); try done.
  exists l. split; [exact E|]. split; [apply Hstf|]. split; [apply Hstf|]. intros i Hi.
  rewrite (at_disk _ _ _ _ Hstf). apply (content_read io content d wf df i); try done.
  by apply steady_todo.
Qed.
End Loop.

(** ** The start *)

(** What [main] needs to get to its loop: an accepted command line, a torrent file, an
    announce that does not go wrong, peers from the tracker or from the command line,
    and a kernel that gives new descriptors. *)
Record starts (env : MainEnv) (args : list (list byte)) (cfg : AppConfig) (m : TorrentMetadata)
    (c : TrackerClient) : Prop := {
  st_args : parse_arguments (path_exists env) args = Ok cfg;
  st_help : show_help cfg = false;
  st_log : log_directories env = None ∧ log_file env = None;
  st_epoll : 0 ≤ epoll_fd env;
  st_torrent : ∃ buffer, torrent_file env (torrent_path cfg) = Some buffer ∧ from_bencode buffer = Ok m;
  st_tracker : c = mk_tracker m (our_peer_id (main_rand env));
  st_announce : ∃ found, ask_tracker env c = Ok found ∧ (cfg_peer cfg = [] → found ≠ None);
  st_peer : cfg_peer cfg = [] ∨ is_Some (custom_peer (cfg_peer cfg));
  st_sends : Forall (λ s, s ≠ SendFails) (first_sends env);
  st_fresh : NoDup (dialed (first_connects env)) ∧ ∀ fd, fd ∈ dialed (first_connects env) → 0 ≤ fd;
}.

Section Start.
Context (cfg : AppConfig) (c : TrackerClient) (io : DiskIOManager) (d : Disk).
Abbreviation m := (torrent_ c).
#[local] Instance start_prm : Params := main_params cfg m (peer_id_ c).
Context {PF : ParamsFor start_prm m}.
Hypothesis content_ok : content_of content m.
Hypothesis io_metadata : disk_metadata io = m.
Hypothesis io_placeable : placeable io (files m).
Hypothesis disk_reliable : reliable d.
Hypothesis ids : zlen (info_hash m) = 20 ∧ zlen (peer_id_ c) = 20.

Abbreviation on_run := (running_on (prm := start_prm) (m := m) io d).
Abbreviation steady := (Liveness.steady (prm := start_prm) (m := m) content).

Lemma event_on w d1 e w' :
  on_run (w, d1) → run_event e w = Ok (tt, w') →
  ∃ d2, main_event io e (w, d1) = Ok (w', d2) ∧ on_run (w', d2).
Proof.
  intros Hrun Ev.
  destruct (main_event_runs io d w d1 e w' io_metadata io_placeable disk_reliable Hrun Ev) as [d2 E2].
  exists d2. split; [done|]. by eapply running_event.
Qed.

(** Before the loop nothing is downloaded. *)
Definition fresh_run (w : World) (d1 : Disk) : Prop :=
  on_run (w, d1) ∧ steady w ∧ todo (pm w) = zsum ((λ i, num_blocks (piece_len m i)) <$> seqZ 0 (num_pieces m)).

Lemma first_events env d0 :
  preallocate_files io d = (Ok tt, d0) → Forall (λ s, s ≠ SendFails) (first_sends env) →
  NoDup (dialed (first_connects env)) → (∀ fd, fd ∈ dialed (first_connects env) → 0 ≤ fd) →
  ∃ w d1, main_event io (Kernel (first_sends env) (first_connects env)) (start m (seed env), d0) = Ok (w, d1) ∧
    fresh_run w d1 ∧ fresh_fds w.
Proof.
  intros E0 Hs Hnd Hpos. set (w0 := start m (seed env)).
  destruct (start_steady (prm := start_prm) content (seed env)) as [Hsw Ht].
  set (w := set_sends (first_sends env) (set_connects (first_connects env) w0)).
  assert (run_event (Kernel (first_sends env) (first_connects env)) w0 = Ok (tt, w)) as Ev by done.
  destruct (event_on w0 d0 _ w (running_start io d (seed env) d0 E0) Ev) as (d1 & E1 & Hrun).
  assert (fresh_fds w) as Hf by (split; [done|]; intros fd Hin; split; [by apply Hpos|done]).
  exists w, d1. split; [exact E1|]. split; [|done]. split; [done|].
  destruct (happens_handled (prm := start_prm) content content_ok w0 _ 0 True (proj1 ids) (proj2 ids) Hsw
    (happens_kernel content w0 (first_sends env) (first_connects env) Hs Hf)) as (w' & Ew & Hsw' & _).
  rewrite Ev in Ew. injection Ew as <-. done.
Qed.

Lemma peers_added infos w d1 :
  fresh_run w d1 → fresh_fds w →
  ∃ w' d2, main_event io (AddPeers infos) (w, d1) = Ok (w', d2) ∧ fresh_run w' d2 ∧ fresh_fds w'.
Proof.
  intros (Hrun & Hsw & Ht) Hf.
  destruct (safe_returns _ _ w (safe_add_peers (prm := start_prm) content infos w (proj1 ids) (proj2 ids) Hsw Hf))
    as ([] & w' & E & Hsw' & Ht' & Hf' & _); [apply quiet_add_peers|].
  destruct (event_on w d1 (AddPeers infos) w' Hrun E) as (d2 & E2 & Hrun2). exists w', d2.
  split; [done|]. split; [|done]. split; [done|]. split; [done|]. unfold same_todo in Ht'. congruence.
Qed.

Lemma peer_connected ip port w d1 :
  fresh_run w d1 → fresh_fds w →
  ∃ w' d2, main_event io (ConnectTo ip port) (w, d1) = Ok (w', d2) ∧ fresh_run w' d2.
Proof.
  intros (Hrun & Hsw & Ht) Hf.
  destruct (happens_handled (prm := start_prm) content content_ok w _ 0 True (proj1 ids) (proj2 ids) Hsw
    (happens_connects content w ip port Hf)) as (w' & E & Hsw' & Ht' & _).
  destruct (event_on w d1 _ w' Hrun E) as (d2 & E2 & Hrun2). exists w', d2.
  split; [done|]. split; [done|]. split; [done|]. rewrite Ht', Ht. lia.
Qed.

Lemma bootstrapped found w d1 :
  fresh_run w d1 → fresh_fds w → cfg_peer cfg = [] ∨ is_Some (custom_peer (cfg_peer cfg)) →
  ∃ w' d2, bootstrap cfg m (peer_id_ c) found io (w, d1) = Ok (inr (w', d2)) ∧ fresh_run w' d2.
Proof.
  intros Hr Hf Hpeer. unfold bootstrap.
  assert (∃ w1 d2, match found with Some peers => main_event io (AddPeers peers) (w, d1) | None => Ok (w, d1) end
    = Ok (w1, d2) ∧ fresh_run w1 d2 ∧ fresh_fds w1) as (w1 & d2 & E & Hr1 & Hf1).
  { destruct found as [infos|]; [by apply peers_added|by exists w, d1]. }
  change (main_params cfg m (peer_id_ c)) with start_prm. rewrite E. cbn [mbind outcome_bind].
  destruct Hpeer as [Hno|[[ip port] Hip]]; [rewrite bool_decide_eq_true_2 by done; by exists w1, d2|].
  case_bool_decide; [by exists w1, d2|]. rewrite Hip.
  destruct (peer_connected ip port w1 d2 Hr1 Hf1) as (w2 & d3 & -> & Hr2). by exists w2, d3.
Qed.

Lemma main_start_runs env args :
  starts env args cfg m c → io = mk_disk_io (output_dir cfg) m →
  ∃ st, main_start env args d = Ok (inr st) ∧ at_state cfg c io (ms_world st) (ms_disk st) None st ∧
    fresh_run (ms_world st) (ms_disk st).
Proof.
  intros [Ha Hh [Hl1 Hl2] Hfd (buffer & Eb & Em) Hc (found & Ef & Hfound) Hpeer Hs [Hnd Hpos]] Eio.
  destruct (parsed_level_set _ _ _ Ha) as (l & Hlog & _).
  unfold main_start, or_exit, init_logger, create_loop. rewrite Ha, Hh, Hl1, Hl2. cbn [may_throw mbind outcome_bind].
  rewrite Hlog, Eb, Em. cbn [mbind outcome_bind]. rewrite (proj2 (Z.ltb_ge _ _)) by done. cbv zeta.
  destruct (preallocate_loop_run io (files (disk_metadata io)) d) as (d0 & E0 & _); [by rewrite io_metadata|].
  change (preallocate_files io d = (Ok tt, d0)) in E0.
  rewrite <- Eio, E0, <- Hc, Ef. cbn [mbind outcome_bind].
  assert (bool_decide (found = None) && bool_decide (cfg_peer cfg = []) = false) as ->.
  { destruct (bool_decide_reflect (cfg_peer cfg = [])) as [H|]; [|by rewrite andb_false_r].
    by rewrite bool_decide_eq_false_2 by auto. }
  destruct (first_events env d0 E0 Hs Hnd Hpos) as (w & d1 & E1 & Hr & Hf).
  destruct (bootstrapped found w d1 Hr Hf Hpeer) as (w2 & d2 & E2 & Hr2).
  assert (peer_id_ c = our_peer_id (main_rand env)) as Eid by by rewrite Hc.
  rewrite <- Eid. change (main_params cfg m (peer_id_ c)) with start_prm. rewrite E1. cbn [mbind outcome_bind].
  rewrite E2. eexists. split; [reflexivity|]. by split.
Qed.
End Start.

(** C2: A run of the program that downloads the torrent. With an accepted command line
    and torrent file, a log and an epoll instance, files on reliable storage, a clock that
    is read often enough and an announce that does not go wrong, [main] gets to its loop. If the polls then deliver
    what cooperating peers send, in any order, over any number of turns, cut anywhere,
    with peers that join, choke and leave, and among it as many answers as the torrent
    has blocks, and then stay idle for a second, [main] returns; it was not interrupted,
    it found all pieces valid, and each reads back from the files with its content. *)
Theorem main_downloads (env : RunEnv) (args : list (list byte)) (d : Disk) (cfg : AppConfig)
    (m : TorrentMetadata) (c : TrackerClient) :
  let _ := main_params cfg m (peer_id_ c) in
  let io := mk_disk_io (output_dir cfg) m in
  starts (start_env env) args cfg m c → wf_metadata m → num_pieces m ≠ 0 → content_of content m →
  zlen (info_hash m) = 20 → placeable io (files m) → reliable d → timely (steady_clock env) →
  defined (announce (done_curl env) (done_udp env) c 6881 (total_length m) 0 0
             (Some (bs "completed")) []).2 →
  ∃ st0, main_start (start_env env) args d = Ok (inr st0) ∧
    ∀ ps idle fuel w',
      polls env = ps ++ idle → Forall polled (polls env) → concat (wait_events <$> idle) = [] →
      (∀ i, steady_clock env i + 1000000000 ≤ steady_clock env (i + zlen idle)) → (80 ≤ fuel)%nat →
      Churn.served (m := m) content False (ms_world st0) (concat (wait_events <$> ps))
        (zsum ((λ i, num_blocks (piece_len m i)) <$> seqZ 0 (num_pieces m))) w' →
      ∃ st, main env fuel args d = Ok (Finished st) ∧ validated st = Some true ∧
        g_shutdown_requested st = false ∧
        ∀ i, 0 ≤ i < num_pieces m → read_piece io i (ms_disk st) = (Ok (content i), ms_disk st).
Proof.
  intros prm io Hst Hm Hn Hco Hih Hpl Hr Hclk Hann.
  assert (torrent_ c = m ∧ zlen (peer_id_ c) = 20) as [Et Hid] by (rewrite (st_tracker _ _ _ _ _ Hst); by split).
  subst m. pose proof (main_params_for _ _ _ _ (peer_id_ c) (st_args _ _ _ _ _ Hst) Hm) as PF.
  destruct (main_start_runs cfg c io d Hco eq_refl Hpl Hr (conj Hih Hid) (start_env env) args Hst eq_refl)
    as (st0 & E0 & Hat & Hrun & Hsw & Ht).
  exists st0. split; [exact E0|]. intros ps idle fuel w' Ep Hp Hno Hidle Hf Hs.
  rewrite <- Ht in Hs. rewrite Ep in Hp.
  destruct (run_ends cfg c io d Hco eq_refl Hpl Hr (conj Hih Hid) Hn (done_curl env) (done_udp env)
    (steady_clock env) Hclk Hann ps idle fuel st0 _ _ w' Hat Hrun Hsw Hf Hs Hp Hno Hidle)
    as (l & E & Hv & Hg & Hread).
  exists (rest l). split; [|done]. unfold main. rewrite E0. cbn [mbind outcome_bind]. cbv zeta. by rewrite Ep, E.
Qed.
End Completion.

(** ** Witness *)

(** The torrent and the command line of [Run], a clock read every 80 ms, and a peer whose
    handshake comes in two parts and whose answers come together. *)
#[local] Existing Instance one_file.
Definition whole_tracker : TrackerClient := mk_tracker run_metadata (our_peer_id (λ i, i)).
#[local] Instance whole_params : Params := main_params run_config run_metadata (peer_id_ whole_tracker).

Definition both_answers : list item := [Answer (ask 1 14); Chatter KeepAliveMsg; Answer (ask 0 16)].
Definition whole_polls : list (bool * Wait (X := bool * list RecvResult)) :=
  [from_peer [Received (ztake 30 their_handshake)]; (false, WaitInterrupted);
   from_peer [Received (zdrop 30 their_handshake)];
   from_peer [Received (wire (BitfieldMsg [xc0]))]; from_peer [Received (wire UnchokeMsg)];
   from_peer [Received (stream fair_content both_answers)]].
Definition idle_polls : list (bool * Wait (X := bool * list RecvResult)) :=
  replicate 13 (false, WaitEvents []).
Definition whole_env : RunEnv := {|
  start_env := start_env run_env;
  steady_clock := λ i, i * 80000000;
  done_curl := no_tracker;
  done_udp := λ _, sample_env;
  polls := whole_polls ++ idle_polls;
|}.

Definition whole_start : MainState :=
  match main_start (start_env run_env) run_args empty_disk with
  | Ok (inr st) => st
  | _ => tiny_state false
  end.
Definition whole_events : list event := concat (wait_events <$> whole_polls).
Definition world_after (n : nat) : World := run_from (ms_world whole_start) (take n whole_events).

Lemma whole_starts : starts (start_env whole_env) run_args run_config run_metadata whole_tracker.
Proof.
  constructor.
  - exact (proj1 run_starts).
  - vm_compute. reflexivity.
  - by split.
  - vm_compute. discriminate.
  - exists run_torrent. split; [reflexivity|exact (proj2 run_starts)].
  - reflexivity.
  - exists None. split; [vm_compute; reflexivity|vm_compute; discriminate].
  - right. eexists. vm_compute. reflexivity.
  - apply Forall_replicate. discriminate.
  - split; [apply NoDup_singleton|]. intros fd ->%list_elem_of_singleton. done.
Qed.

Lemma whole_content : content_of fair_content run_metadata.
Proof.
  intros i Hi. change (num_pieces run_metadata) with 2 in Hi.
  assert (i = 0 ∨ i = 1) as [-> | ->] by lia; vm_compute; done.
Qed.

Lemma whole_timely : timely (steady_clock whole_env).
Proof. constructor; simpl; intros; lia. Qed.

(** The connection of the peer, as it goes from world to world. *)
Lemma shakes_after (n : nat) rx :
  peers (world_after n) !! 0 = None → fd_callbacks (fds (world_after n)) !! 5 = Some 0 →
  conns (world_after n) !! 0 = Some (conn_at 0 (world_after n)) →
  (c_state (conn_at 0 (world_after n)), c_fd (conn_at 0 (world_after n)), rx_buffer (conn_at 0 (world_after n)),
   on_handshake (conn_at 0 (world_after n)), peer_choking (conn_at 0 (world_after n)))
    = (Handshaking, 5, rx, true, true) →
  linking Handshaking rx (world_after n) 0 5.
Proof. intros Hp Hcb Hc [= E1 E2 E3 E4 E5]. do 2 (split; [done|]). split; [done|]. by eexists. Qed.

Lemma arrived_after (n : nat) :
  peers (world_after n) !! 0 = Some (peer_at 0 (world_after n)) →
  conns (world_after n) !! 0 = Some (conn_at 0 (world_after n)) →
  (c_fd (conn_at 0 (world_after n)), rx_buffer (conn_at 0 (world_after n))) = (5, []) →
  arrived (world_after n) 0 5.
Proof. intros Hp Hc [= E1 E2]. split; [by eexists|]. by eexists. Qed.

Abbreviation happens_here := (happens (m := run_metadata) fair_content).

Lemma whole_begins : happens_here (world_after 0) (Events 5 EPOLLIN false [Received (ztake 30 their_handshake)]) 0 True.
Proof.
  apply (happens_begins fair_content _ 0 5 false _ [] (ztake 30 their_handshake));
    [apply shakes_after; vm_compute; reflexivity|reflexivity|vm_compute; reflexivity].
Qed.

Lemma whole_shakes : happens_here (world_after 1) (Events 5 EPOLLIN false [Received (zdrop 30 their_handshake)]) 0 True.
Proof.
  apply (happens_handshake fair_content _ 0 5 false _ (ztake 30 their_handshake)
    (mk_handshake (zeros 8) (replicate 20 x22) (replicate 20 x44)));
    [apply shakes_after; vm_compute; reflexivity|by split_and!|vm_compute; reflexivity].
Qed.

Lemma whole_bitfield :
  happens_here (world_after 2) (Events 5 EPOLLIN false [Received (wire (BitfieldMsg [xc0]))]) 0
    (backed (m := run_metadata) (world_after 2) 0).
Proof.
  apply (happens_bitfield fair_content _ 0 5 [xc0]);
    [apply arrived_after; vm_compute; reflexivity|vm_compute; reflexivity|reflexivity].
Qed.

Lemma whole_unchoke : happens_here (world_after 3) (Events 5 EPOLLIN false [Received (wire UnchokeMsg)]) 0 True.
Proof.
  apply (happens_unchokes fair_content _ 0); [apply arrived_after; vm_compute; reflexivity|reflexivity].
Qed.

Lemma whole_answers :
  happens_here (world_after 4) (Events 5 EPOLLIN false [Received (stream fair_content both_answers)]) 2 True.
Proof.
  apply happens_answers. replace 5 with (c_fd (conn_at 0 (world_after 4))) by (vm_compute; reflexivity).
  change 2 with (zlen (answered both_answers)).
  apply (brings_items fair_content (world_after 4) 0 (peer_at 0 (world_after 4)) (conn_at 0 (world_after 4))
    both_answers [] EPOLLIN false).
  1-6: vm_compute; reflexivity.
  - split_and!.
    + apply NoDup_cons_2; [|apply NoDup_singleton]. by intros H%list_elem_of_singleton.
    + assert (outstanding (peer_at 0 (world_after 4)) = [ask 0 16; ask 1 14]) as -> by (vm_compute; reflexivity).
      change (answered both_answers) with [ask 1 14; ask 0 16]. intros r. rewrite !elem_of_cons. naive_solver.
    + unfold both_answers. intros msg. rewrite !elem_of_cons. by intros [[=]|[[= ->]|[[=]|[]%not_elem_of_nil]]].
  - by left.
  - vm_compute. reflexivity.
Qed.

Lemma whole_served : ∃ w', Churn.served (m := run_metadata) fair_content False (ms_world whole_start) whole_events 2 w'.
Proof.
  exists (world_after 5). change 2 with (0 + (0 + (0 + (0 + (2 + 0))))).
  assert (ms_world whole_start = world_after 0) as -> by reflexivity.
  eapply served_more; [exact whole_begins|intros []|instantiate (1 := world_after 1); vm_compute; reflexivity|].
  eapply served_more; [exact whole_shakes|intros []|instantiate (1 := world_after 2); vm_compute; reflexivity|].
  eapply served_more; [exact whole_bitfield|intros []|instantiate (1 := world_after 3); vm_compute; reflexivity|].
  eapply served_more; [exact whole_unchoke|intros []|instantiate (1 := world_after 4); vm_compute; reflexivity|].
  eapply served_more; [exact whole_answers|intros []|instantiate (1 := world_after 5); vm_compute; reflexivity|].
  apply served_none.
Qed.

Lemma main_downloads_witness :
  ∃ st, main whole_env 80 run_args empty_disk = Ok (Finished st) ∧ validated st = Some true ∧
    read_piece (mk_disk_io (output_dir run_config) run_metadata) 1 (ms_disk st) = (Ok (fair_content 1), ms_disk st).
Proof.
  destruct (main_downloads fair_content whole_env run_args empty_disk run_config run_metadata whole_tracker
    whole_starts (proj1 run_metadata_ok) ltac:(vm_compute; discriminate) whole_content
    ltac:(vm_compute; reflexivity) (proj2 run_metadata_ok) (Forall_nil_2 _) whole_timely
    ltac:(vm_compute; exact I)) as (st0 & E0 & H).
  destruct whole_served as [w' Hs].
  assert (st0 = whole_start) as ->.
  { unfold whole_start. change (start_env run_env) with (start_env whole_env). by rewrite E0. }
  destruct (H whole_polls idle_polls 80%nat w' eq_refl) as (st & E & Hv & _ & Hr).
  - apply Forall_app. split; repeat (constructor; [by split|]); constructor.
  - reflexivity.
  - intros i. change (zlen idle_polls) with 13. simpl. lia.
  - lia.
  - exact Hs.
  - exists st. split; [exact E|]. split; [exact Hv|]. apply (Hr 1). split; [discriminate|reflexivity].
Defined.
